(* ===== verification/_CoqProject ===== *)
-Q . S2P
Prelude.v
GoStrings.v
GoNumbers.v
GoMemory.v
KubeTypes.v
DeepCopy.v
Hostname.v
CommonUtils.v
RouteRules.v
PolicyTypes.v
Comparators.v
LimitIndex.v
JsonText.v
JsonStruct.v
Json.v
GatewayRefs.v
Client.v
Guarantee.v
BaseReconciler.v
ApiServer.v
Apimachinery.v
Logging.v
KubeUtils.v
TargetRef.v
Runs.v
WasmJson.v
WasmConfig.v
Samples.v
RateLimitLimits.v
RateLimitIstio.v
LimitadorSteady.v
RateLimitController.v
SteadyState.v
SteadyInvariance.v
SteadyReconcile.v
AuthController.v
AuthSteady.v
Conduct.v
ObjectTypes.v
Coexistence.v
Concurrency.v
EventMappers.v
Startup.v
