(* ===== verification/Prelude.v ===== *)
(** * Kuadrant controller: a verification library

    The Kuadrant controller is a Kubernetes operator with two reconcilers.  A
    RateLimitPolicy or an AuthPolicy targets a Gateway or an HTTPRoute of the
    Gateway API; the reconciler of its kind translates it into objects of other
    operators:

    - a RateLimitPolicy becomes limits in the one Limitador object, and one
      WasmPlugin and one EnvoyFilter per Istio gateway;
    - an AuthPolicy becomes Istio AuthorizationPolicies, one per gateway, and
      an Authorino AuthConfig.

    The state of the system is the cluster.  A target is reserved for one
    policy by an annotation (the back reference), and a gateway lists the rate
    limit policies that configure it in another annotation.  Comparing that
    list with the gateways a policy targets now gives the new, same and left
    gateways, for which limits, filters and annotations are brought up to date
    in that order.  Event mappers map routes, gateways and policies back to
    requests for policies.

    This library models all of the Go code of that logic and proves what makes
    it correct, for every answer of the API server where that is possible.

    ** Files and the code they model (under src/)

    Foundations:
    - Prelude: outcomes, slices, maps, loops; list lemmas; [MapRange] and
      [GoSort], the parts of the language whose result Go leaves open.
    - GoStrings: the functions of package strings the program uses; GoNumbers:
      strconv on decimal numbers and conversions between widths of integers.
    - JsonText: JSON values, their text after encoding/json and a parser;
      JsonStruct: structs as JSON objects, field by field, by struct tags.
    - GoMemory: a memory with arrays, pointers and slice headers, for the code
      whose meaning is what it shares.
    - KubeTypes: records of the Kubernetes, Istio, Limitador and Authorino
      objects, and the API types of apis/apim/v1alpha1.
    - Comparators: three-way comparisons and their lexicographic products.
    - Client: programs over the Kubernetes client, [wp], [run] and
      [memory_server].  Guarantee: what a program sends, given what it is told.
    - ApiServer: an API server with resource versions, finalizers and cached
      reads, as an interface with laws and an instance, [versioned_server].
    - Apimachinery: the helpers of apimachinery and controller-runtime the code
      calls, as an interface.
    - Runs: rules for successful runs on [memory_server].
    - Samples: a small cluster on which the witnesses run.

    Pure components:
    - Hostname: pkg/common/hostname.go, and ValidSubdomains of common.go.
    - CommonUtils: pkg/common/common.go, apimachinery_status_conditions.go and
      the functions of k8s_utils.go the reconcilers call; KubeUtils: the others
      of k8s_utils.go (owners, service ports), and owner references of
      pkg/reconcilers/base_reconciler.go.
    - RouteRules: pkg/common/gatewayapi_utils.go.
    - PolicyTypes: the methods of apis/apim/v1alpha1/ratelimitpolicy_types.go
      and authpolicy_types.go.  DeepCopy: zz_generated.deepcopy.go of the same
      package, over GoMemory.
    - LimitIndex: pkg/rlptools/limit_index.go.
    - Json, GatewayRefs: pkg/rlptools/gateway_utils.go, with the JSON text of a
      list of keys.
    - WasmJson: the types of pkg/rlptools/wasm_utils.go and their JSON by
      struct tags; WasmConfig: its functions, and pkg/istio/envoy_filters.go.
    - Logging: pkg/log/log.go.

    Components that talk to the API server:
    - BaseReconciler: pkg/reconcilers/base_reconciler.go.
    - TargetRef: pkg/reconcilers/targetref_reconciler.go.
    - RateLimitLimits: controllers/apim/ratelimitpolicy_limits.go and
      pkg/rlptools/limitador_utils.go; LimitadorSteady: its steady state.
    - RateLimitIstio: controllers/apim/ratelimitpolicy_wasm_plugins.go and
      ratelimitpolicy_cluster_envoy_filter.go.
    - RateLimitController: controllers/apim/ratelimitpolicy_controller.go,
      ratelimitpolicy_finalizers.go and ratelimitpolicy_status.go.
      SteadyState: the invariant [settled] of a reconciled specification;
      SteadyInvariance: what it does not depend on, and the same up to the order
      of iteration over maps, [settled_unordered]; SteadyReconcile: the whole
      Reconcile comes to rest.
    - AuthController: controllers/apim/authpolicy_controller.go,
      authpolicy_status.go and authpolicy_utils.go; AuthSteady: its steady
      state.
    - Conduct: everything the two reconcilers may send, as rights over objects
      that were read.  ObjectTypes: both reconcilers as one system, [step], in
      which their calls interleave; Coexistence: several RateLimitPolicies, one
      after the other; Concurrency: the system over an [ApiServer], in which
      every step is labelled with who acts, [lstep].
    - EventMappers: the three *_eventmapper.go of controllers/apim.
    - Startup: main.go, and SetupWithManager of the two reconcilers.

    Names are those of the code; a function of the code that two types share is
    in a Module named after the type (RLP, AP, LBD, LI, Wasm, Auth).  A loop
    body that is a definition of its own is named after what it does.

    ** How Go is modelled

    - Errors and panics are values: [outcome] is [Ok], [Err] or [Panic].  A
      function (v, error) returns [outcome]; where the code uses the value in
      spite of an error, or both, the pair is explicit.  The dereference of a
      nil pointer is a [Panic] wherever the code can reach it.
    - A pointer is an [option].  A slice whose nil can be told from the empty
      slice (by reflect.DeepEqual or by encoding/json) is a [slice], and
      likewise for maps ([gomap]); others are lists.
    - int is 64 bits wide and only compared or copied here, so it is a [Z];
      strings are byte sequences.
    - The order of range over a map is [MapRange] and the result of sort.Slice
      is [GoSort]: any function with the documented laws.  Theorems hold for
      all of them.  A [MapRange] is the order of one run: within it, maps with
      the same entries are iterated in the same order.  Go chooses anew every
      time, so a theorem about several runs gives each an order of its own
      ([iteration]), and says so where runs are compared in the same order.
    - Calls of the Kubernetes client are nodes of a tree, [prog], whose
      branches are the possible answers.  [wp p Q] says that [Q] holds of the
      trace of calls and answers and of the outcome for all answers, hence
      under any interference by other actors.  Trees are finite, so every
      reconciliation returns.  [run] executes a program on a server that is a
      function; [memory_server] is a cluster without other actors, on which the
      statements about final states are made.
    - In-place changes of an object are passed on explicitly: a call that
      overwrites its argument with the server's version returns the new value,
      which the rest of the code uses.

    Code that is not in the repository is a parameter with laws:
    [Apimachinery] (conditions, finalizers, key printing), [RefCodec] (JSON of
    a list of keys), [StructCodec] (a protobuf struct from and to JSON text),
    [PatchCodec] (the Envoy patch), [ConditionCodec] (JSON of conditions),
    [TypeMeta] (group and kind of an owner), [PortValue] (IntOrString),
    [ZapLevels] (the level of a log by its name), [Manager] (controller-runtime),
    [ApiServer], [ForeignTypes] and [ForeignCopies] (types of other packages in
    memory and their deep copies) and [Environment].  Each has an instance in the file that declares it or
    uses it first.  [RefCodec] has an implementation after
    encoding/json, proved to satisfy its laws: a printer with Go's escapes and
    a parser whose fuel is the length of the text, enough because each step
    consumes a byte ([Json], [JsonText]).

    ** What the theorems show

    - Rate limits: nothing is written for a policy that does not validate or
      whose hosts are not within those of its target; the index of limits
      written to the Limitador object is exactly, domain by domain, the one
      defined by the policies and routes read ([reconcileLimits_correct],
      [gatewayLimits_correct]); the call settles: done again it only reads
      ([reconcileLimits_settles]), also when maps are iterated in another order
      the second time; the wasm filter is configured for exactly
      the domains that have limits, each with the name space of those limits
      ([wasmPluginConfig_correct], [wasm_domains_match_limits]), though the
      order of its domains is Go's to choose ([wasm_order_unspecified]), and
      its JSON reads back ([plugin_config_roundtrip]); references of
      gateways are updated after everything that depends on them, and the
      finalizer is removed only after all was undone; no reconciliation panics;
      errors of writes are reported; every write is allowed by the role the
      markers generate.
    - Steady state, on a server without other actors: [reconcileSpec]
      establishes [settled], which says what the cluster then holds for the
      policy, its gateways, their limits and their filters
      ([reconcileSpec_establishes_settled]).  From such a state, with the domains
      of the filters in any order, another run in any order of iteration does
      nothing but read and rearrange the domains of filters; it only reads if
      the filters have the order of the run, or one domain at most
      ([settled_is_steady]).  The same is true of a second Reconcile of any
      policy, with finalizer, deletion and status ([Reconcile_settles]), and of
      any sequence of reconciliations of policies that share gateways, once each
      of them was reconciled ([policies_converge]); the exception is a policy
      that leaves a gateway of another, which loses its limits.
    - Concurrent writers, on a server with resource versions whose reads may be
      outdated: what a reconciliation does to an object of the users is one of a
      few small changes of what is stored at that moment, each to entries of its
      own, but for one: a policy that is being deleted removes the back reference
      of its target whichever policy that names.  Nothing else that others wrote
      is lost ([no_lost_updates]), and the key of a policy stays among the
      references of a gateway whatever the reconciliations of other policies do
      ([references_persist]).
    - Interleavings: whatever the order in which running reconciliations of both
      kinds make their calls, with failures, restarts and other actors, stored
      objects stay well typed ([objects_stay_well_typed]), which is what the
      steady state assumes of the gateways.
    - Targets: a target never passes from one policy to another without being
      released; the full table of what a reconciliation of the back reference
      does.
    - Base reconciler: ReconcileResource refines a goal, on a server without
      other actors, and a table of its calls for any server.
    - Limit index: a round trip with the Limitador object, replacement of the
      limits of a gateway, and equality as equality up to the order of limits
      (nil and empty slices of conditions are the exception stated there).
    - Gateways: adding and deleting references, a round trip, and the partition
      into new, same and left.
    - AuthPolicies: the same order and validation properties, the content of
      the AuthorizationPolicies, and what happens when an object is missing.  A
      reconciliation establishes [auth_settled], and another one leaves the
      cluster as it is, though it updates every AuthorizationPolicy and the
      AuthConfig ([auth_reconcileSpec_settles]).
    - Deep copies: a copy stands for the same object, nil and empty slices kept
      apart, is made of new memory, and no write to one of the two changes the
      other; nil is the copy of a nil pointer only
      ([DeepCopyObject_independent]).  This is why the other files may treat
      objects as values.
    - Host names: SubsetOf decides inclusion of sets of host names;
      ValidSubdomains is the inclusion the reconcilers need.
    - Routes: the rules compiled from a route, match by match.
    - Around the reconcilers: the number of a service port and its width, owner
      references, what the controllers watch and what an object is mapped to
      ([rate_limit_watches], [reconciled_target_requests_policy]), the options
      of the logger and the first error that stops the process.
    - Several theorems state behaviour that is surprising: a status that is
      never steady, routes without host names that get no limits, errors that
      are reported as success, a missing object that blocks a removal, a policy
      without an authentication scheme on which the reconciler panics.

    ** What is not modelled

    - When controller-runtime calls the registered map functions, and on which
      objects, and its work queue.

    - The registration of the API types with the scheme
      (apis/apim/v1alpha1/groupversion_info.go): only calls of a library.
    - What only goes to the log: its calls, String methods,
      printControllerMetaInfo, and the branch of Reconcile at the debug level,
      which marshals the object for the log and returns on an error of that.
    - Type metadata of the objects the reconcilers handle, which the client
      fills in.
    - Resource versions on [memory_server], which has no other clients to
      conflict with; a conflict is one of the answers a [wp] covers, and
      [ApiServer] has them.
    - Text that is not valid UTF-8, which the protobuf and JSON conversions
      refuse; [StructCodec] and [Json] say what is assumed.

    ** Plan

    In this order: what interleaved reconciliations of policies that share a
    gateway achieve together on [ApiServer] once the cache catches up, which
    [policies_converge] states for one after the other; a steady state of the
    whole Reconcile of an AuthPolicy, with finalizer and status; a server that
    drops empty lists of the status, as encoding/json does. *)
From Stdlib Require Export ZArith Ascii.
From stdpp Require Export base gmap strings list fin_maps sorting.

(** ** Notations and automation of the development *)

Declare Scope go_scope.
Delimit Scope go_scope with go.
Create HintDb kuadrant.

(** Case analysis on every [match] of the goal, closing the easy branches. *)
Ltac break_match :=
  repeat (case_match; simplify_eq/=; try done).

(** The empty Go string. *)
Abbreviation empty_string := EmptyString.

(** ** Go slices and maps, whose [nil] differs from the empty value *)

(** A slice is [nil] ([None]) or has elements; [len] and [range] do not tell
    [nil] from the empty slice, [reflect.DeepEqual] does. *)
Abbreviation slice A := (option (list A)).

Definition elems {A} (s : slice A) : list A := default [] s.

(** [append(s, l...)]: appending nothing to [nil] leaves [nil]. *)
Definition slice_append {A} (s : slice A) (l : list A) : slice A :=
  match s, l with
  | None, [] => None
  | _, _ => Some (elems s ++ l)
  end.

Lemma elems_slice_append {A} (s : slice A) (l : list A) :
  elems (slice_append s l) = elems s ++ l.
Proof. destruct s, l; done. Qed.

(** A Go map that may be [nil]; reading a [nil] map finds nothing. *)
Abbreviation gomap V := (option (gmap string V)).

Definition entries {V} (m : gomap V) : gmap string V := default ∅ m.

(** The host names, or the wildcard when there is none. *)
Definition or_any (hosts : list string) : list string :=
  match hosts with [] => ["*"] | _ => hosts end.

(** ** Loops that append *)

Lemma foldl_snoc {A} (acc l : list A) : foldl (λ acc x, acc ++ [x]) acc l = acc ++ l.
Proof.
  revert acc. induction l as [|x l IH]; intros acc; simpl; [by rewrite app_nil_r|].
  by rewrite IH, <- app_assoc.
Qed.

(** A loop that appends [f x] for each [x]. *)
Lemma foldl_app_bind {A B} (step : list B → A → list B) (f : A → list B) acc l :
  (∀ acc x, step acc x = acc ++ f x) → foldl step acc l = acc ++ (l ≫= f).
Proof.
  intros Hs. revert acc. induction l as [|x l IH]; intros acc; simpl.
  - by rewrite app_nil_r.
  - by rewrite IH, Hs, <- app_assoc.
Qed.

Lemma list_bind_nil {A B} (f : A → list B) (l : list A) :
  (∀ x, x ∈ l → f x = []) → l ≫= f = [].
Proof.
  induction l as [|x l IH]; intros Hf; simpl; [done|].
  rewrite Hf by left. apply IH. intros y Hy. apply Hf. by right.
Qed.

Lemma filter_bind {A B} (P : B → Prop) `{!∀ x, Decision (P x)} (f : A → list B) (l : list A) :
  filter P (l ≫= f) = l ≫= (λ x, filter P (f x)).
Proof.
  induction l as [|x l IH]; [done|]. by rewrite !bind_cons, filter_app, IH.
Qed.

Lemma filter_agree {A} (P Q : A → Prop) `{!∀ x, Decision (P x), !∀ x, Decision (Q x)} (l : list A) :
  (∀ x, x ∈ l → P x ↔ Q x) → filter P l = filter Q l.
Proof.
  induction l as [|x l IH]; intros Hl; [done|].
  assert (P x ↔ Q x) as Hx by (apply Hl; left).
  rewrite !filter_cons, IH by (intros y Hy; apply Hl; by right). by repeat case_decide; try tauto.
Qed.

(** A bind over an association list in which only the key [k0] contributes. *)
Lemma bind_single_key `{Countable K} {V B} (f : K * V → list B) (kvs : list (K * V)) k0 :
  NoDup kvs.*1 → (∀ k v, (k, v) ∈ kvs → k ≠ k0 → f (k, v) = []) →
  kvs ≫= f = match list_to_map (M:=gmap K V) kvs !! k0 with
             | Some v => f (k0, v)
             | None => []
             end.
Proof.
  induction kvs as [|[k v] kvs IH]; intros Hnd Hf.
  { simpl. by rewrite lookup_empty. }
  inversion Hnd as [|?? Hk Hnd']; subst. simpl in Hk.
  rewrite bind_cons, list_to_map_cons.
  assert (∀ k' v', (k', v') ∈ kvs → k' ≠ k0 → f (k', v') = []) as Hf'
    by (intros k' v' Hin; apply Hf; by right).
  destruct (decide (k = k0)) as [->|Hne].
  - rewrite lookup_insert_eq, IH, not_elem_of_list_to_map_1 by done. apply app_nil_r.
  - rewrite lookup_insert_ne by done. rewrite (Hf k v); [|left|done]. by apply IH.
Qed.

(** ** Errors and results *)

(** The machine readable reason of an API error
    ([apierrors.IsNotFound] and its like look at nothing else). *)
Inductive StatusReason :=
  | ReasonNotFound
  | ReasonAlreadyExists
  | ReasonConflict
  | ReasonOther (reason : string).

(** A Go [error]: an API status error, a text error ([errors.New],
    [fmt.Errorf] without [%w]) or a wrapping ([fmt.Errorf] with a final
    [%w]). *)
Inductive error :=
  | ErrStatus (reason : StatusReason) (msg : string)
  | ErrText (msg : string)
  | ErrWrap (prefix : string) (e : error).

#[export] Instance StatusReason_eq_dec : EqDecision StatusReason.
Proof. solve_decision. Defined.
#[export] Instance error_eq_dec : EqDecision error.
Proof. solve_decision. Defined.

(** [err.Error()] *)
Fixpoint error_string (e : error) : string :=
  match e with
  | ErrStatus _ msg | ErrText msg => msg
  | ErrWrap prefix e => prefix +:+ error_string e
  end.

Fixpoint error_reason (e : error) : option StatusReason :=
  match e with
  | ErrStatus r _ => Some r
  | ErrText _ => None
  | ErrWrap _ e => error_reason e
  end.

Definition IsNotFound (e : error) : bool :=
  bool_decide (error_reason e = Some ReasonNotFound).
Definition IsAlreadyExists (e : error) : bool :=
  bool_decide (error_reason e = Some ReasonAlreadyExists).
Definition IsConflict (e : error) : bool :=
  bool_decide (error_reason e = Some ReasonConflict).

(** The result of a Go call: a value, a returned [error], or a panic
    (a [nil] dereference). *)
Inductive outcome (A : Type) :=
  | Ok (a : A)
  | Err (e : error)
  | Panic (msg : string).
Arguments Ok {A} _.
Arguments Err {A} _.
Arguments Panic {A} _.

#[export] Instance outcome_eq_dec {A} `{!EqDecision A} : EqDecision (outcome A).
Proof. solve_decision. Defined.

Lemma outcome_Ok_inj {A} (a b : A) : Ok a = Ok b → a = b.
Proof. congruence. Qed.

Definition outcome_bind {A B} (m : outcome A) (f : A → outcome B) : outcome B :=
  match m with
  | Ok a => f a
  | Err e => Err e
  | Panic p => Panic p
  end.

Notation "x <-? m ;; k" := (outcome_bind m (λ x, k))
  (at level 100, m at next level, right associativity) : go_scope.

Definition outcome_map {A B} (f : A → B) (m : outcome A) : outcome B :=
  outcome_bind m (λ a, Ok (f a)).

Definition is_ok {A} (m : outcome A) : Prop :=
  match m with Ok _ => True | _ => False end.

Lemma is_ok_inv {A} (o : outcome A) : is_ok o → ∃ a, o = Ok a.
Proof. destruct o; simpl; [eauto|done..]. Qed.

Definition no_panic {A} (o : outcome A) : Prop :=
  match o with Panic _ => False | _ => True end.

Lemma no_panic_bind {A B} (m : outcome A) (f : A → outcome B) :
  no_panic m → (∀ a, no_panic (f a)) → no_panic (outcome_bind m f).
Proof. destruct m; simpl; auto. Qed.

(** ** Map iteration

    Go leaves the order of [range] over a map unspecified, and chooses it anew
    each time.  An iteration order is a parameter of the definitions that depend
    on it: the order of one run of what they model.  Runs that are made one after
    the other have orders of their own. *)

Class MapRange := map_range :
  ∀ (K : Type) {dec : EqDecision K} {count : Countable K} (V : Type),
    gmap K V → list (K * V).
Arguments map_range {_} {K dec count V} m.

Class MapRangeOk {MR : MapRange} := map_range_perm :
  ∀ (K : Type) (dec : EqDecision K) (count : Countable K) (V : Type)
    (m : gmap K V), map_range m ≡ₚ map_to_list m.

(** One order, for evaluation. *)
#[export] Instance map_range_default : MapRange | 100 :=
  λ K _ _ V m, map_to_list m.
#[export] Instance map_range_default_ok : @MapRangeOk map_range_default.
Proof. by intros K dec count V m. Qed.
(** A different order. *)
Definition map_range_reverse : MapRange :=
  λ K _ _ V m, reverse (map_to_list m).
Lemma map_range_reverse_ok : @MapRangeOk map_range_reverse.
Proof.
  intros K dec count V m. unfold map_range, map_range_reverse.
  apply reverse_Permutation.
Qed.

Section map_range_lemmas.
Context `{MapRangeOk} {K : Type} `{Countable K} {V : Type}.
Implicit Types (m : gmap K V).

Lemma elem_of_map_range m k v : (k, v) ∈ map_range m ↔ m !! k = Some v.
Proof. by rewrite (map_range_perm K _ _ V m), elem_of_map_to_list. Qed.

Lemma NoDup_map_range m : NoDup (map_range m).*1.
Proof. rewrite (map_range_perm K _ _ V m). apply NoDup_fst_map_to_list. Qed.

Lemma list_to_map_range m : list_to_map (map_range m) = m.
Proof.
  rewrite (list_to_map_proper _ (map_to_list m)), list_to_map_to_list;
    [done|apply NoDup_map_range|apply map_range_perm].
Qed.

Lemma bind_map_range {B} (f : K * V → list B) m k0 :
  (∀ k v, m !! k = Some v → k ≠ k0 → f (k, v) = []) →
  map_range m ≫= f = match m !! k0 with Some v => f (k0, v) | None => [] end.
Proof.
  intros Hf. rewrite (bind_single_key _ _ k0); [by rewrite list_to_map_range| |].
  - apply NoDup_map_range.
  - intros k v Hkv%elem_of_map_range. by apply Hf.
Qed.

(** A loop over a map that tests every entry does not see the order. *)
Lemma forallb_map_range (f : K * V → bool) m :
  forallb f (map_range m) = true ↔ map_Forall (λ k v, f (k, v) = true) m.
Proof.
  rewrite forallb_forall. split.
  - intros Hf k v Hkv. apply Hf, list_elem_of_In. by apply elem_of_map_range.
  - intros Hf [k v] Hkv%list_elem_of_In%elem_of_map_range. by apply Hf.
Qed.
End map_range_lemmas.

(** Go's way to compare maps - same length, and every entry of the first is
    related to the one of the second - relates the maps entry by entry. *)
Lemma map_Forall2_by_size `{Countable K} {V} (R : V → V → Prop) (m1 m2 : gmap K V) :
  map_Forall2 (λ _, R) m1 m2 ↔
  size m1 = size m2 ∧ ∀ k v, m1 !! k = Some v → ∃ v', m2 !! k = Some v' ∧ R v v'.
Proof.
  split.
  - intros HF. split.
    + pose proof (map_Forall2_dom_L _ _ _ HF) as Hd.
      by rewrite <- !size_dom, Hd.
    + intros k v Hk. specialize (HF k). rewrite Hk in HF. inversion HF. eauto.
  - intros [Hs Hf]. assert (dom m1 = dom m2) as Hd.
    { apply leibniz_equiv, set_subseteq_size_equiv.
      - intros k [v Hk]%elem_of_dom. apply elem_of_dom.
        destruct (Hf k v Hk) as (? & ? & ?). eauto.
      - by rewrite !size_dom, Hs. }
    intros k. destruct (m1 !! k) as [v|] eqn:Hk.
    + destruct (Hf k v Hk) as (v' & -> & HR). by constructor.
    + apply not_elem_of_dom in Hk. rewrite Hd in Hk. apply not_elem_of_dom in Hk.
      rewrite Hk. constructor.
Qed.

(** ** Sorting

    [sort.Sort] and [sort.Slice] take the [Less] of the caller.  They are a
    parameter: the result is a rearrangement of the input, and when "not out
    of order" ([sort_le] below) is transitive no two neighbours are out of
    order.  The definition admits the strict [Less] the package documents and
    a [Less] that answers true on equal elements. *)

Definition sort_le {A} (less : A → A → bool) (a b : A) : Prop :=
  less a b = true ∨ less b a = false.

Class GoSort := go_sort : ∀ {A : Type}, (A → A → bool) → list A → list A.

Class GoSortOk {GS : GoSort} := {
  go_sort_perm : ∀ A (less : A → A → bool) (l : list A), go_sort less l ≡ₚ l;
  go_sort_sorted : ∀ A (less : A → A → bool) (l : list A),
    Transitive (sort_le less) → Sorted (sort_le less) (go_sort less l)
}.

#[export] Instance sort_le_dec {A} (less : A → A → bool) : RelDecision (sort_le less).
Proof. intros a b. unfold sort_le. apply _. Defined.
#[export] Instance sort_le_total {A} (less : A → A → bool) : Total (sort_le less).
Proof.
  intros a b. unfold sort_le.
  destruct (less a b), (less b a); auto.
Qed.

(** One sorting function, for evaluation. *)
#[export] Instance go_merge_sort : GoSort | 100 :=
  λ A less, merge_sort (sort_le less).
#[export] Instance go_merge_sort_ok : @GoSortOk go_merge_sort.
Proof.
  split; intros A less l; unfold go_sort, go_merge_sort.
  - apply merge_sort_Permutation.
  - intros _. apply Sorted_merge_sort, _.
Qed.

(** Rearrangements of one list sort to the same list when the order is
    antisymmetric on its elements. *)
Lemma go_sort_unique `{GoSortOk} {A} (less : A → A → bool) (l k : list A) :
  Transitive (sort_le less) →
  (∀ a b, a ∈ l → b ∈ l → sort_le less a b → sort_le less b a → a = b) →
  l ≡ₚ k → go_sort less l = go_sort less k.
Proof.
  intros Ht Ha Hlk.
  apply (Sorted_unique_strong (sort_le less)).
  - intros a b Hal Hbl.
    rewrite go_sort_perm in Hal. rewrite go_sort_perm, <- Hlk in Hbl. eauto.
  - by apply go_sort_sorted.
  - by apply go_sort_sorted.
  - by rewrite !go_sort_perm.
Qed.

(** ** Removing one element

    [append(s[:i], s[i+1:]...)] *)
Definition remove_at {A} (i : nat) (l : list A) : list A := take i l ++ drop (S i) l.
