(* ===== verification/GoStrings.v ===== *)
(** * Go strings

    The functions of Go's package [strings] the program calls, on strings as
    byte sequences, with their characterisations. *)
From S2P Require Import Prelude.

(** [s[1:]] for a non-empty [s]. *)
Definition string_tail (s : string) : string :=
  match s with
  | EmptyString => EmptyString
  | String _ s => s
  end.

(** [strings.HasSuffix] *)
Definition HasSuffix (s suffix : string) : bool :=
  (String.length suffix <=? String.length s)%nat &&
  bool_decide (String.substring (String.length s - String.length suffix)
                 (String.length suffix) s = suffix).

(** Membership of a byte in a string. *)
Fixpoint has_byte (c : ascii) (s : string) : bool :=
  match s with
  | EmptyString => false
  | String a s => bool_decide (a = c) || has_byte c s
  end.

(** [strings.Split(s, sep)] for a separator of one byte. *)
Fixpoint Split (s : string) (sep : ascii) : list string :=
  match s with
  | EmptyString => [EmptyString]
  | String a s =>
      if decide (a = sep) then EmptyString :: Split s sep
      else match Split s sep with
           | [] => [String a EmptyString]
           | w :: ws => String a w :: ws
           end
  end.

(** [strings.Join(l, sep)] for a separator of one byte. *)
Fixpoint Join (l : list string) (sep : ascii) : string :=
  match l with
  | [] => EmptyString
  | [w] => w
  | w :: ws => w +:+ String sep (Join ws sep)
  end.

(** [strings.Compare]: byte-wise lexicographic order. *)
Definition Compare (a b : string) : Z :=
  match String.compare a b with
  | Lt => -1
  | Eq => 0
  | Gt => 1
  end%Z.

(** ASCII letters in lower case *)
Definition lower_byte (c : ascii) : ascii :=
  let n := Ascii.nat_of_ascii c in
  if (65 <=? n)%nat && (n <=? 90)%nat then Ascii.ascii_of_nat (n + 32) else c.
Fixpoint lower (s : string) : string :=
  match s with
  | EmptyString => empty_string
  | String c s => String (lower_byte c) (lower s)
  end.

(** [strings.ToLower], as far as the result is ASCII: two letters outside of
    ASCII have a lower case in it, U+0130 and U+212A; others are left alone. *)
Fixpoint ToLower (s : string) : string :=
  match s with
  | EmptyString => empty_string
  | String a s1 =>
      match s1 with
      | String b s2 =>
          if bool_decide (a = "196"%char) && bool_decide (b = "176"%char)
          then String "i" (ToLower s2)
          else match s2 with
               | String c s3 =>
                   if bool_decide (a = "226"%char) && bool_decide (b = "132"%char) &&
                      bool_decide (c = "170"%char)
                   then String "k" (ToLower s3)
                   else String (lower_byte a) (ToLower s1)
               | EmptyString => String (lower_byte a) (ToLower s1)
               end
      | EmptyString => String (lower_byte a) (ToLower s1)
      end
  end.

(** ** Lemmas *)


Lemma string_app_cons a s1 s2 : String a s1 +:+ s2 = String a (s1 +:+ s2).
Proof. done. Qed.

Lemma string_app_nil_l s : empty_string +:+ s = s.
Proof. done. Qed.

Lemma string_app_nil_r s : s +:+ empty_string = s.
Proof.
  induction s as [|a s IH]; [done|]. simpl. rewrite ?string_app_cons. by f_equal.
Qed.

Lemma string_app_assoc s1 s2 s3 : (s1 +:+ s2) +:+ s3 = s1 +:+ (s2 +:+ s3).
Proof.
  induction s1 as [|a s IH]; [done|]. rewrite !string_app_cons. by f_equal.
Qed.

Lemma string_length_app s1 s2 :
  String.length (s1 +:+ s2) = String.length s1 + String.length s2.
Proof. induction s1; [done|]. rewrite string_app_cons. simpl. by f_equal. Qed.

Lemma substring_full s : String.substring 0 (String.length s) s = s.
Proof.
  induction s as [|a s IH]; [done|]. simpl. rewrite ?string_app_cons. by f_equal.
Qed.

Lemma substring_app_r p s :
  String.substring (String.length p) (String.length s) (p +:+ s) = s.
Proof. induction p; [apply substring_full|by rewrite string_app_cons]. Qed.

Lemma substring_split n s :
  n <= String.length s →
  ∃ p, s = p +:+ String.substring n (String.length s - n) s ∧ String.length p = n.
Proof.
  revert s. induction n as [|n IH]; intros s Hn.
  - exists empty_string. by rewrite Nat.sub_0_r, substring_full.
  - destruct s as [|a s]; simpl in *; [lia|].
    destruct (IH s) as (p & Hp & Hl); [lia|].
    exists (String a p). rewrite string_app_cons, <- Hp. simpl. by rewrite Hl.
Qed.

Lemma HasSuffix_spec s suffix :
  HasSuffix s suffix = true ↔ ∃ p, s = p +:+ suffix.
Proof.
  unfold HasSuffix. rewrite andb_true_iff, Nat.leb_le, bool_decide_eq_true.
  split.
  - intros [Hle Hsub].
    destruct (substring_split (String.length s - String.length suffix) s)
      as (p & Hp & Hl); [lia|].
    exists p. replace (String.length s - (String.length s - String.length suffix))
      with (String.length suffix) in Hp by lia. by rewrite Hsub in Hp.
  - intros [p ->]. rewrite string_length_app. split; [lia|].
    replace (String.length p + String.length suffix - String.length suffix)
      with (String.length p) by lia. apply substring_app_r.
Qed.

(** Two suffixes of one string: the shorter is a suffix of the longer. *)
Lemma app_eq_suffix p1 p2 s1 s2 :
  p1 +:+ s1 = p2 +:+ s2 → String.length s2 <= String.length s1 →
  ∃ p, s1 = p +:+ s2.
Proof.
  revert p2. induction p1 as [|a p1 IH]; intros p2 Heq Hle.
  - by exists p2.
  - destruct p2 as [|b p2].
    + apply (f_equal String.length) in Heq.
      rewrite !string_length_app in Heq. simpl in *. lia.
    + rewrite !string_app_cons in Heq. simplify_eq. by eapply IH.
Qed.

Lemma has_byte_app c s1 s2 : has_byte c (s1 +:+ s2) = has_byte c s1 || has_byte c s2.
Proof.
  induction s1 as [|a s1 IH]; [done|].
  rewrite string_app_cons. simpl. by rewrite IH, orb_assoc.
Qed.

Lemma Split_nonempty s sep : Split s sep ≠ [].
Proof. destruct s; simpl; [done|]. break_match. Qed.

(** Splitting at the first separator. *)
Lemma Split_first s1 s2 sep :
  has_byte sep s1 = false →
  Split (s1 +:+ String sep s2) sep = s1 :: Split s2 sep.
Proof.
  induction s1 as [|a s1 IH]; intros Hs.
  { rewrite string_app_nil_l. simpl. by rewrite decide_True. }
  rewrite string_app_cons. simpl in *.
  apply orb_false_iff in Hs as [Ha%bool_decide_eq_false Hs].
  rewrite decide_False by done. by rewrite IH.
Qed.

Lemma Split_none s sep : has_byte sep s = false → Split s sep = [s].
Proof.
  induction s as [|a s IH]; simpl; intros Hs; [done|].
  apply orb_false_iff in Hs as [Ha%bool_decide_eq_false Hs].
  rewrite decide_False by done. by rewrite IH.
Qed.

Lemma Join_Split s sep : Join (Split s sep) sep = s.
Proof.
  induction s as [|a s IH]; simpl; [done|]. case_decide as Ha.
  - subst. pose proof (Split_nonempty s sep) as Hne.
    destruct (Split s sep) eqn:E; [done|]. simpl in *. by rewrite IH.
  - destruct (Split s sep) as [|w ws] eqn:E; [by apply Split_nonempty in E|].
    destruct ws as [|w' ws']; simpl in *; by rewrite <- IH.
Qed.

(** The parts hold no separator. *)
Lemma Split_parts s sep : Forall (λ w, has_byte sep w = false) (Split s sep).
Proof.
  induction s as [|a s IH]; simpl; [by repeat constructor|].
  case_decide as Ha; [by constructor|].
  destruct (Split s sep) as [|w ws]; inversion IH; subst; constructor; simpl;
    rewrite ?bool_decide_false by done; auto.
Qed.

Lemma Join_no_byte_inv c w ws sep :
  has_byte c (Join (w :: ws) sep) = false → has_byte c w = false.
Proof.
  destruct ws; simpl; [done|]. rewrite has_byte_app. by intros [??]%orb_false_iff.
Qed.

(** Exactly when a string splits in two. *)
Lemma Split_two s sep a b :
  Split s sep = [a; b] ↔
  s = a +:+ String sep b ∧ has_byte sep a = false ∧ has_byte sep b = false.
Proof.
  split.
  - intros H. pose proof (Join_Split s sep) as HJ. pose proof (Split_parts s sep) as HP.
    rewrite H in HJ, HP. inversion HP as [|?? Ha HP']. inversion HP'. by subst.
  - intros (-> & Ha & Hb). by rewrite Split_first, Split_none.
Qed.

Lemma string_compare_refl s : String.compare s s = Eq.
Proof.
  induction s as [|a s IH]; [done|]. simpl.
  unfold Ascii.compare. by rewrite N.compare_refl.
Qed.

Lemma Compare_eq a b : Compare a b = 0%Z ↔ a = b.
Proof.
  unfold Compare. split.
  - destruct (String.compare a b) eqn:E; try lia.
    intros _. by apply String.compare_eq_iff.
  - intros ->. by rewrite string_compare_refl.
Qed.

Lemma Compare_antisym a b : Compare b a = (- Compare a b)%Z.
Proof.
  unfold Compare. rewrite (String.compare_antisym b a).
  by destruct (String.compare a b).
Qed.

Lemma Compare_cases a b : Compare a b = 1%Z ∨ Compare a b = 0%Z ∨ Compare a b = (-1)%Z.
Proof. unfold Compare. destruct (String.compare a b); auto. Qed.

Lemma Compare_gt_le a b : Compare a b = 1%Z ↔ String.le b a ∧ a ≠ b.
Proof.
  unfold Compare, String.le, String.leb. rewrite (String.compare_antisym b a).
  destruct (String.compare a b) eqn:E; simpl; split; try (done || lia).
  - apply String.compare_eq_iff in E. by intros [_ ?].
  - intros _. split; [done|]. intros ->. by rewrite string_compare_refl in E.
Qed.

Lemma Compare_gt_trans a b c :
  Compare a b = 1%Z → Compare b c = 1%Z → Compare a c = 1%Z.
Proof.
  rewrite !Compare_gt_le. intros [Hab Hne] [Hbc _]. split; [by etrans|].
  intros ->. apply Hne. by apply (anti_symm String.le).
Qed.

#[export] Hint Rewrite string_app_nil_r string_app_assoc string_length_app
  has_byte_app : kuadrant.
