(* ===== verification/GoNumbers.v ===== *)
(** * Go integers

    [strconv.ParseInt] in base 10 and the conversion of an int to a narrower
    type, with their bounds. *)
From stdpp Require Import pretty.
From S2P Require Import Prelude GoStrings.

Open Scope Z_scope.

Definition digit_value (c : ascii) : option Z :=
  let n := Z.of_N (Ascii.N_of_ascii c) in
  if (48 <=? n) && (n <=? 57) then Some (n - 48) else None.

Fixpoint parse_digits (acc : Z) (s : string) : option Z :=
  match s with
  | EmptyString => Some acc
  | String c s => d ← digit_value c; parse_digits (acc * 10 + d) s
  end.

(** [strconv.ParseUint(s, 10, 64)], before the check of the size *)
Definition parse_magnitude (s : string) : option Z :=
  match s with EmptyString => None | _ => parse_digits 0 s end.

(** [strconv.ParseInt(s, 10, bits)]; [None] is a syntax or a range error. *)
Definition ParseInt (bits : Z) (s : string) : option Z :=
  match s with
  | EmptyString => None
  | String c r =>
      let signed := bool_decide (c = "-"%char) || bool_decide (c = "+"%char) in
      un ← parse_magnitude (if signed then r else s);
      let cutoff := 2 ^ (bits - 1) in
      if bool_decide (c = "-"%char)
      then if cutoff <? un then None else Some (- un)
      else if cutoff <=? un then None else Some un
  end.

(** The number of a text, of any width. *)
Definition parse_integer (s : string) : option Z :=
  match s with
  | EmptyString => None
  | String c r =>
      if bool_decide (c = "-"%char) then Z.opp <$> parse_magnitude r
      else if bool_decide (c = "+"%char) then parse_magnitude r else parse_magnitude s
  end.

(** The first result of [strconv.Atoi]: 0 for a text that is no number, the
    nearest int for a number out of range. *)
Definition Atoi (s : string) : Z :=
  match parse_integer s with
  | None => 0
  | Some n => Z.max (- 2 ^ 63) (Z.min n (2 ^ 63 - 1))
  end.

(** Conversion to a signed integer of [bits] bits keeps the low bits. *)
Definition wrap_int (bits z : Z) : Z := (z + 2 ^ (bits - 1)) mod 2 ^ bits - 2 ^ (bits - 1).

Definition in_range (bits z : Z) : Prop := - 2 ^ (bits - 1) <= z < 2 ^ (bits - 1).

(** ** Lemmas *)

Lemma digit_value_bounds c d : digit_value c = Some d → 0 <= d <= 9.
Proof.
  unfold digit_value. destruct (_ && _) eqn:E; [|done].
  apply andb_true_iff in E as [?%Z.leb_le ?%Z.leb_le]. intros [= <-]. lia.
Qed.

Lemma parse_digits_nonneg s acc n : 0 <= acc → parse_digits acc s = Some n → 0 <= n.
Proof.
  revert acc. induction s as [|c s IH]; simpl; intros acc Hacc; [by intros [= <-]|].
  destruct (digit_value c) as [d|] eqn:Hd; [|done]. simpl.
  apply digit_value_bounds in Hd. apply IH. lia.
Qed.

Lemma parse_magnitude_nonneg s n : parse_magnitude s = Some n → 0 <= n.
Proof. destruct s; [done|]. by apply parse_digits_nonneg. Qed.

Lemma ParseInt_in_range bits s n : 0 < bits → ParseInt bits s = Some n → in_range bits n.
Proof.
  intros Hb. assert (0 < 2 ^ (bits - 1)) by (apply Z.pow_pos_nonneg; lia).
  unfold ParseInt, in_range. destruct s as [|c r]; [done|].
  destruct (parse_magnitude _) as [un|] eqn:Hun; [|done]. apply parse_magnitude_nonneg in Hun.
  simpl. destruct (bool_decide (c = "-"%char)); simpl.
  - destruct (Z.ltb_spec (2 ^ (bits - 1)) un); [done|]. intros [= <-]. lia.
  - destruct (Z.leb_spec (2 ^ (bits - 1)) un); [done|]. intros [= <-]. lia.
Qed.

Lemma wrap_int_in_range bits z : 0 < bits → in_range bits (wrap_int bits z).
Proof.
  intros Hb. unfold in_range, wrap_int.
  replace (2 ^ bits) with (2 * 2 ^ (bits - 1))
    by (rewrite <- Z.pow_succ_r by lia; f_equal; lia).
  pose proof (Z.mod_pos_bound (z + 2 ^ (bits - 1)) (2 * 2 ^ (bits - 1))).
  assert (0 < 2 ^ (bits - 1)) by (apply Z.pow_pos_nonneg; lia). lia.
Qed.

Lemma wrap_int_id bits z : 0 < bits → in_range bits z → wrap_int bits z = z.
Proof.
  intros Hb Hz. unfold in_range, wrap_int in *.
  replace (2 ^ bits) with (2 * 2 ^ (bits - 1))
    by (rewrite <- Z.pow_succ_r by lia; f_equal; lia).
  rewrite Z.mod_small; lia.
Qed.

(** Conversion keeps the number modulo the width. *)
Lemma wrap_int_congr bits z : 0 < bits → wrap_int bits z mod 2 ^ bits = z mod 2 ^ bits.
Proof.
  intros Hb. unfold wrap_int. rewrite Zminus_mod_idemp_l. f_equal. lia.
Qed.

(** *** Decimal text *)

Lemma digit_value_char x : (x < 10)%N → digit_value (pretty_N_char x) = Some (Z.of_N x).
Proof.
  intros Hx.
  assert (x = 0 ∨ x = 1 ∨ x = 2 ∨ x = 3 ∨ x = 4 ∨ x = 5 ∨ x = 6 ∨ x = 7 ∨ x = 8 ∨ x = 9)%N
    as Hcases by lia.
  by destruct_or! Hcases; subst.
Qed.

Lemma parse_digits_pretty x s : parse_digits 0 (pretty_N_go x s) = parse_digits (Z.of_N x) s.
Proof.
  revert s. induction (N.lt_wf_0 x) as [x _ IH]; intros s.
  destruct (decide (0 < x)%N) as [Hx|Hx].
  - rewrite pretty_N_go_step by done. rewrite IH by (by apply N.div_lt).
    simpl. rewrite digit_value_char by (by apply N.mod_lt). simpl. f_equal.
    pose proof (N.div_mod x 10 ltac:(done)). lia.
  - assert (x = 0)%N as -> by lia. done.
Qed.

Lemma pretty_N_go_head x s :
  (0 < x)%N → ∃ c r, pretty_N_go x s = String c r ∧ is_Some (digit_value c).
Proof.
  revert s. induction (N.lt_wf_0 x) as [x _ IH]; intros s Hx.
  rewrite pretty_N_go_step by done.
  destruct (N.eq_0_gt_0_cases (x `div` 10)) as [->|Hd]; [|by apply IH; [apply N.div_lt|]].
  rewrite pretty_N_go_0. do 2 eexists. split; [done|].
  rewrite digit_value_char; [done|by apply N.mod_lt].
Qed.

Lemma pretty_N_magnitude x :
  ∃ c r, pretty (x : N) = String c r ∧ is_Some (digit_value c) ∧
         parse_magnitude (pretty x) = Some (Z.of_N x).
Proof.
  unfold pretty, pretty_N. case_decide as Hx.
  - subst. by do 2 eexists.
  - destruct (pretty_N_go_head x EmptyString) as (c & r & Hc & Hd); [lia|].
    exists c, r. split; [done|]. split; [done|]. unfold parse_magnitude.
    rewrite Hc, <- Hc. by rewrite parse_digits_pretty.
Qed.

Lemma digit_no_sign c : is_Some (digit_value c) → c ≠ "-"%char ∧ c ≠ "+"%char.
Proof. intros [d Hd]. by split; intros ->. Qed.

Lemma Atoi_ParseInt s n : ParseInt 64 s = Some n → Atoi s = n.
Proof.
  unfold ParseInt, Atoi, parse_integer. change (64 - 1) with 63. destruct s as [|c r]; [done|].
  destruct (bool_decide (c = "-"%char)); cbn [orb].
  - destruct (parse_magnitude r) as [u|] eqn:Hu; [|done]. apply parse_magnitude_nonneg in Hu.
    simpl. destruct (Z.ltb_spec (2 ^ 63) u); [done|]. intros [= <-]. lia.
  - assert (∀ u, parse_magnitude (if bool_decide (c = "+"%char) then r else String c r) = Some u →
      u < 2 ^ 63 → Z.max (- 2 ^ 63) (Z.min u (2 ^ 63 - 1)) = u) as Hclamp.
    { intros u Hu%parse_magnitude_nonneg ?. lia. }
    destruct (bool_decide (c = "+"%char)); destruct (parse_magnitude _) as [u|]; try done; simpl;
      (destruct (Z.leb_spec (2 ^ 63) u); [done|]); intros [= <-]; by apply Hclamp.
Qed.

(** Every integer of the width is parsed back from its decimal text. *)
Lemma ParseInt_pretty bits n : in_range bits n → ParseInt bits (pretty n) = Some n.
Proof.
  unfold in_range. intros Hn.
  assert (∀ p, Z.pos p < 2 ^ (bits - 1) → ParseInt bits (pretty (Z.pos p)) = Some (Z.pos p)) as Hpos.
  { intros p Hp. change (pretty (Z.pos p)) with (pretty (N.pos p)).
    destruct (pretty_N_magnitude (N.pos p)) as (c & r & Hc & Hd & Hm).
    apply digit_no_sign in Hd as [H1 H2]. unfold ParseInt.
    rewrite Hc, !bool_decide_false by done. cbn [orb]. rewrite <- Hc, Hm. simpl.
    by rewrite (proj2 (Z.leb_gt _ _)) by lia. }
  destruct n as [|p|p].
  - simpl. by rewrite (proj2 (Z.leb_gt _ _)) by lia.
  - apply Hpos. lia.
  - change (pretty (Z.neg p)) with ("-" +:+ pretty (N.pos p)).
    destruct (pretty_N_magnitude (N.pos p)) as (c & r & Hc & Hd & Hm).
    unfold ParseInt. rewrite string_app_cons, string_app_nil_l, bool_decide_true by done.
    cbn [orb]. rewrite Hm. simpl. by rewrite (proj2 (Z.ltb_ge _ _)) by lia.
Qed.

Example ParseInt_too_large : ParseInt 32 "2147483648" = None. Proof. reflexivity. Qed.
Example ParseInt_least : ParseInt 32 "-2147483648" = Some (-2147483648). Proof. reflexivity. Qed.
Example ParseInt_plus : ParseInt 32 "+80" = Some 80. Proof. reflexivity. Qed.
Example ParseInt_name : ParseInt 32 "http" = None. Proof. reflexivity. Qed.
Example Atoi_number : Atoi "8080" = 8080. Proof. reflexivity. Qed.
Example Atoi_name : Atoi "http" = 0. Proof. reflexivity. Qed.
Example Atoi_too_large : wrap_int 32 (Atoi "9223372036854775808") = -1. Proof. reflexivity. Qed.
Example wrap_int_overflow : wrap_int 32 4294967297 = 1. Proof. reflexivity. Qed.
