(* ===== verification/GoMemory.v ===== *)
(** * Memory with pointers and slices

    For the code whose meaning is what it shares: a memory of arrays, pointers
    and slice headers into it, computations that read, allocate and write, and
    the copying of what a value refers to.  [denotes m v = Some a]: in the memory
    [m] the value [v] stands for [a], a value of the model without pointers. *)
From S2P Require Import Prelude GoStrings.

Open Scope go_scope.

Definition loc := nat.

(** A pointer to a [T], which is an array of one element, and a slice of [T]s;
    [nil] is [None]. *)
Record pointer (T : Type) := Pointer { address : option loc }.
#[global] Arguments Pointer {T} _.
#[global] Arguments address {T} _.
Record slice_header := { sl_array : loc; sl_offset : nat; sl_length : nat }.
Record mslice (T : Type) := Slice { header : option slice_header }.
#[global] Arguments Slice {T} _.
#[global] Arguments header {T} _.

(** The contents of the memory are of the types a program uses: [cell] is their
    sum, and [T] is one of them. *)
Class Cell (cell T : Type) := {
  inject : list T → cell;
  project : cell → option (list T);
  project_inject l : project (inject l) = Some l;
  zero : T
}.
#[global] Arguments zero {_} T {_}.

Section memory.
Context {cell : Type}.

Local Abbreviation mem := (gmap loc cell).

(** A computation fails when it reads what is not there. *)
Definition comp (A : Type) := mem → option (A * mem).

#[export] Instance comp_ret : MRet comp := λ A a m, Some (a, m).
#[export] Instance comp_bind : MBind comp := λ A B f p m, '(a, m) ← p m; f a m.

(** An array of [n] zero values *)
Definition make (T : Type) `{Cell cell T} (n : nat) : comp loc := λ m,
  let l := fresh (dom m) in Some (l, <[l := inject (replicate n (zero T))]> m).
Definition store_at `{Cell cell T} (l : loc) (i : nat) (x : T) : comp unit := λ m,
  xs ← m !! l ≫= project;
  if decide (i < length xs)%nat then Some (tt, <[l := inject (<[i:=x]> xs)]> m) else None.

(** The elements of a slice in the array *)
Definition view {T} (h : slice_header) (xs : list T) : option (list T) :=
  if decide (sl_offset h + sl_length h ≤ length xs)%nat
  then Some (take (sl_length h) (drop (sl_offset h) xs)) else None.
Definition element `{Cell cell T} (h : slice_header) (i : nat) : comp T := λ m,
  xs ← m !! sl_array h ≫= project; ys ← view h xs; y ← ys !! i; Some (y, m).

(** [**out = **in] and [copy(out, in)]: elements without pointers *)
Definition assign {T} (x : T) : comp T := mret x.

(** What a pointer points to is the only element of a slice. *)
Definition one (l : loc) : slice_header := {| sl_array := l; sl_offset := 0; sl_length := 1 |}.

(** The loop over the [n] elements from the [i]-th on, where [deep] gives what is
    left in an element of [out] for one of the slice *)
Fixpoint fill `{Cell cell T} (deep : T → comp T) (h : slice_header) (out : loc) (i n : nat) :
    comp unit :=
  match n with
  | O => mret tt
  | S n =>
      x ← element h i;
      y ← deep x;
      _ ← store_at out i y;
      fill deep h out (S i) n
  end.

(** [new(T)] and a [DeepCopyInto] it, unless the pointer is [nil] *)
Definition copy_pointer `{Cell cell T} (deep : T → comp T) (p : pointer T) : comp (pointer T) :=
  match address p with
  | None => mret (Pointer None)
  | Some l =>
      out ← make T 1;
      x ← element (one l) 0;
      y ← deep x;
      _ ← store_at out 0 y;
      mret (Pointer (Some out))
  end.

(** [make] and the loop over the elements, unless the slice is [nil] *)
Definition copy_slice `{Cell cell T} (deep : T → comp T) (s : mslice T) : comp (mslice T) :=
  match header s with
  | None => mret (Slice None)
  | Some h =>
      out ← make T (sl_length h);
      _ ← fill deep h out 0 (sl_length h);
      mret (Slice (Some {| sl_array := out; sl_offset := 0; sl_length := sl_length h |}))
  end.

(** ** What a value stands for *)

Class Denotes (V A : Type) := denotes : mem → V → option A.
#[global] Arguments denotes {V A _} _ _.

(** More memory does not change it. *)
Class DenotesOk (V A : Type) {D : Denotes V A} :=
  denotes_mono (m m' : mem) (v : V) (a : A) :
    m ⊆ m' → denotes m v = Some a → denotes m' v = Some a.

(** Copying in [m] succeeds, leaves [m] as it is, and the copy stands for [a] by
    the memory that was allocated for it alone. *)
Definition copies `{D : Denotes V A} (p : comp V) (m : mem) (a : A) : Prop :=
  ∃ v m', p m = Some (v, m') ∧ m ⊆ m' ∧ denotes (m' ∖ m) v = Some a.

Class DeepCopies (V : Type) := DeepCopyInto : V → comp V.
Class DeepCopiesOk (V A : Type) {D : Denotes V A} {C : DeepCopies V} :=
  DeepCopyInto_copies (m : mem) (v : V) (a : A) :
    denotes m v = Some a → copies (DeepCopyInto v) m a.

(** Values without pointers *)
Definition plain {T} : Denotes T T := λ _ v, Some v.

(** A pointer stands for the value it points to, a slice for its elements. *)
#[export] Instance denotes_pointer `{Cell cell V, Denotes V A} : Denotes (pointer V) (option A) :=
  λ m p, match address p with
         | None => Some None
         | Some l => '(x, _) ← element (one l) 0 m; a ← denotes m x; Some (Some a)
         end.
#[export] Instance denotes_slice `{Cell cell V, Denotes V A} : Denotes (mslice V) (slice A) :=
  λ m s, match header s with
         | None => Some None
         | Some h => xs ← m !! sl_array h ≫= project; ys ← view h xs;
                     zs ← mapM (denotes m) ys; Some (Some zs)
         end.

(** ** Lemmas *)

(** What has been allocated since [m0] is only added to. *)
Lemma denotes_since `{DenotesOk V A} (m0 m m' : mem) (v : V) (a : A) :
  m ⊆ m' → denotes (m ∖ m0) v = Some a → denotes (m' ∖ m0) v = Some a.
Proof.
  intros Hm. apply denotes_mono, map_subseteq_spec. intros l x.
  rewrite !lookup_difference_Some. intros [Hx Hn]. split; [by eapply lookup_weaken|done].
Qed.

(** A part of a struct is copied, and then the rest: [m0] is the memory before. *)
Definition copies_since `{Denotes V A} (m0 : mem) (p : comp V) (m : mem) (a : A) : Prop :=
  ∃ v m', p m = Some (v, m') ∧ m ⊆ m' ∧ denotes (m' ∖ m0) v = Some a.

Lemma copies_then `{DenotesOk V A, Denotes W B} (m0 m : mem) (p : comp V) (f : V → comp W) a b :
  m0 ⊆ m → copies p m a →
  (∀ v m', m0 ⊆ m' → m ⊆ m' → denotes (m' ∖ m0) v = Some a →
     copies_since m0 (f v) m' b) →
  copies_since m0 (p ≫= f) m b.
Proof.
  intros Hm (v & m' & Hp & Hm' & Hv) Hf.
  destruct (Hf v m') as (w & m2 & Hw & Hm2 & Hd).
  - by etrans.
  - done.
  - eapply denotes_mono; [|exact Hv]. apply map_subseteq_spec. intros l x.
    rewrite !lookup_difference_Some. intros [Hx Hn].
    split; [done|by eapply lookup_weaken_None].
  - exists w, m2. split; [|split; [by etrans|done]].
    unfold mbind, comp_bind. rewrite Hp. exact Hw.
Qed.

Lemma copies_ret `{Denotes V A} (m0 m : mem) (v : V) (a : A) :
  denotes (m ∖ m0) v = Some a → copies_since m0 (mret v) m a.
Proof. intros Hv. by exists v, m. Qed.

Lemma element_mono `{Cell cell T} h i (m m' : mem) (x : T) :
  m ⊆ m' → element h i m = Some (x, m) → element h i m' = Some (x, m').
Proof.
  unfold element. intros Hm Hx. destruct (m !! sl_array h) as [c|] eqn:Hc; [|done].
  rewrite (lookup_weaken _ _ _ _ Hc Hm). simpl in *. destruct (project c) as [xs|]; [|done].
  simpl in *. destruct (view h xs) as [ys|]; [|done]. simpl in *.
  destruct (ys !! i); [|done]. simpl in *. congruence.
Qed.

Lemma element_state `{Cell cell T} h i (m m' : mem) (x : T) :
  element h i m = Some (x, m') → m' = m.
Proof. unfold element. intros Hx. by simplify_option_eq. Qed.

(** *** Values that refer to no memory *)

Class Plain (V A : Type) {D : Denotes V A} :=
  plain_denotes m m' (v : V) : denotes m v = denotes m' v.

#[export] Instance plain_denotes_ok `{Plain V A} : DenotesOk V A.
Proof. intros m m' v a _ <-. apply plain_denotes. Qed.

Lemma assign_copies `{Plain V A} m (v : V) (a : A) :
  denotes m v = Some a → copies (assign v) m a.
Proof. intros Hv. exists v, m. split; [done|]. split; [done|]. by rewrite (plain_denotes _ m). Qed.

#[export] Instance denotes_string : Denotes string string := plain.
#[export] Instance denotes_bool : Denotes bool bool := plain.
#[export] Instance plain_string : Plain string string.
Proof. done. Qed.
#[export] Instance plain_bool : Plain bool bool.
Proof. done. Qed.

(** *** Loops *)

Section fill.
Context `{Cell cell T, !Denotes T A, !DenotesOk T A}.
Context (deep : T → comp T) (Hdeep : ∀ m v a, denotes m v = Some a → copies (deep v) m a).

(** [zs] are in place, [out] being an array that [m] does not have. *)
Definition in_place (m mi : mem) (out : loc) (xs : list T) (zs : list A) : Prop :=
  m ⊆ delete out mi ∧ mi !! out = Some (inject xs) ∧
  Forall2 (λ v z, denotes (delete out (mi ∖ m)) v = Some z) (take (length zs) xs) zs.

Lemma fill_step m mi out xs zs x a :
  in_place m mi out xs zs → (length zs < length xs)%nat → denotes m x = Some a →
  ∃ y m2 m3, deep x mi = Some (y, m2) ∧ store_at out (length zs) y m2 = Some (tt, m3) ∧
    in_place m m3 out (<[length zs := y]> xs) (zs ++ [a]).
Proof.
  intros (Hm & Hout & Hzs) Hlen Hx.
  assert (m ⊆ mi) as Hmi by (etrans; [exact Hm|apply delete_subseteq]).
  assert (m !! out = None) as Hnew.
  { eapply lookup_weaken_None; [|exact Hm]. apply lookup_delete_eq. }
  destruct (Hdeep mi x a) as (y & m2 & Hy & Hm2 & Hd); [by eapply denotes_mono|].
  exists y, m2, (<[out := inject (<[length zs := y]> xs)]> m2).
  split; [done|]. split.
  { unfold store_at. rewrite (lookup_weaken _ _ _ _ Hout Hm2). simpl.
    rewrite project_inject. simpl. by rewrite decide_True. }
  split; [|split; [by rewrite lookup_insert_eq|]].
  - rewrite delete_insert_eq. etrans; [exact Hm|]. by apply delete_mono.
  - rewrite insert_take_drop, (cons_middle y), app_assoc by done.
    rewrite take_app_length' by (rewrite !length_app, length_take; simpl; lia).
    apply Forall2_app.
    + eapply Forall2_impl; [exact Hzs|]. intros v z. apply denotes_mono.
      apply map_subseteq_spec. intros l c.
      rewrite !lookup_delete_Some, !lookup_difference_Some.
      intros (Hne & Hc & Hn). split; [done|]. split; [|done].
      rewrite lookup_insert_ne by done. by eapply lookup_weaken.
    + constructor; [|constructor]. revert Hd. apply denotes_mono.
      apply map_subseteq_spec. intros l c.
      rewrite lookup_delete_Some, !lookup_difference_Some. intros [Hc Hn].
      assert (out ≠ l) as Hne by (intros <-; congruence).
      split; [done|]. rewrite lookup_insert_ne by done. split; [done|].
      by eapply lookup_weaken_None.
Qed.

Lemma fill_in_place m h arr ys : 
  m !! sl_array h ≫= project = Some arr → view h arr = Some ys →
  ∀ zs mi out done xs,
  in_place m mi out xs done → length xs = (length done + length zs)%nat →
  Forall2 (λ v z, denotes m v = Some z) (drop (length done) ys) zs →
  ∃ m' xs', fill deep h out (length done) (length zs) mi = Some (tt, m') ∧
    in_place m m' out xs' (done ++ zs) ∧ length xs' = length xs.
Proof.
  intros Harr Hys. induction zs as [|a zs IH]; intros mi out done xs Hin Hlen Hzs.
  { exists mi, xs. by rewrite app_nil_r. }
  apply Forall2_cons_inv_r in Hzs as (x & rest & Hx & Hrest & Hdrop).
  assert (ys !! length done = Some x) as Hi.
  { pose proof (lookup_drop ys (length done) 0) as Hl. rewrite Hdrop, Nat.add_0_r in Hl. done. }
  assert (element h (length done) m = Some (x, m)) as Hel.
  { unfold element. rewrite Harr. simpl. rewrite Hys. simpl. by rewrite Hi. }
  assert (m ⊆ mi) as Hmi by (destruct Hin as [Hm _]; etrans; [exact Hm|apply delete_subseteq]).
  apply (element_mono _ _ m mi) in Hel; [|done].
  simpl in Hlen.
  destruct (fill_step m mi out xs done x a) as (y & m2 & m3 & Hy & Hst & Hin'); [done|lia|done|].
  destruct (IH m3 out (done ++ [a]) (<[length done := y]> xs)) as (m' & xs' & Hf & Hin2 & Hlen2).
  - done.
  - rewrite length_insert, length_app. simpl. lia.
  - rewrite length_app. simpl. rewrite <- drop_drop, Hdrop. done.
  - exists m', xs'. rewrite length_insert in Hlen2. rewrite <- app_assoc in Hin2.
    split; [|done]. simpl. unfold mbind, comp_bind. rewrite Hel. simpl. rewrite Hy. simpl.
    rewrite Hst. simpl. rewrite length_app, Nat.add_1_r in Hf. exact Hf.
Qed.

Lemma make_in_place m n :
  ∃ out m1, make T n m = Some (out, m1) ∧ in_place m m1 out (replicate n (zero T)) [].
Proof.
  eexists _, _. split; [done|]. split; [|split; [by rewrite lookup_insert_eq|constructor]].
  rewrite delete_insert_id; [done|]. apply not_elem_of_dom, is_fresh.
Qed.

(** When all elements are in place, the new array holds them. *)
Lemma in_place_elements m m' out xs zs :
  in_place m m' out xs zs → length xs = length zs →
  m ⊆ m' ∧ (m' ∖ m) !! out = Some (inject xs) ∧
  Forall2 (λ v z, denotes (m' ∖ m) v = Some z) xs zs.
Proof.
  intros (Hm & Hout & Hzs) Hlen. split; [etrans; [exact Hm|apply delete_subseteq]|].
  split.
  - apply lookup_difference_Some. split; [done|].
    eapply lookup_weaken_None; [|exact Hm]. apply lookup_delete_eq.
  - rewrite take_ge in Hzs by lia. eapply Forall2_impl; [exact Hzs|]. intros v z.
    apply denotes_mono. apply map_difference_mono_l || apply map_subseteq_spec.
    intros l c. rewrite lookup_delete_Some. by intros [_ ?].
Qed.

Lemma view_whole (out : loc) (xs : list T) :
  view {| sl_array := out; sl_offset := 0; sl_length := length xs |} xs = Some xs.
Proof. unfold view. simpl. rewrite decide_True by lia. by rewrite take_ge. Qed.

Lemma view_length h (xs ys : list T) : view h xs = Some ys → length ys = sl_length h.
Proof.
  unfold view. case_decide as Hd; [|done]. intros [= <-]. rewrite length_take, length_drop. lia.
Qed.

Lemma copy_slice_copies m (s : mslice T) (a : slice A) :
  denotes m s = Some a → copies (copy_slice deep s) m a.
Proof.
  unfold denotes, denotes_slice, copies, copy_slice. destruct (header s) as [h|].
  2:{ intros [= <-]. exists (Slice None), m. by split. }
  destruct (m !! sl_array h ≫= project) as [arr|] eqn:Harr; [|done]. simpl.
  destruct (view h arr) as [ys|] eqn:Hys; [|done]. simpl.
  destruct (mapM (denotes m) ys) as [zs|] eqn:Hzs; [|done]. intros [= <-].
  apply mapM_Some in Hzs. pose proof (Forall2_length _ _ _ Hzs) as Hlen.
  pose proof (view_length _ _ _ Hys) as Hn.
  destruct (make_in_place m (sl_length h)) as (out & m1 & Hmake & Hin).
  destruct (fill_in_place m h arr ys Harr Hys zs m1 out [] (replicate (sl_length h) (zero T)))
    as (m' & xs' & Hf & Hin' & Hlen'); [done|by rewrite length_replicate; simpl; lia|done|].
  rewrite length_replicate in Hlen'.
  destruct (in_place_elements m m' out xs' zs) as (Hsub & Hout & Hall); [done|lia|].
  eexists _, m'. split.
  - unfold mbind, comp_bind. rewrite Hmake. simpl.
    replace (sl_length h) with (length zs) by lia. simpl in Hf. rewrite Hf. reflexivity.
  - split; [done|]. unfold denotes at 1, denotes_slice. cbn [header sl_array].
    rewrite Hout. simpl. rewrite project_inject. simpl.
    replace (length zs) with (length xs') by lia. rewrite view_whole. simpl.
    apply mapM_Some in Hall. by rewrite Hall.
Qed.

Lemma copy_pointer_copies m (p : pointer T) (a : option A) :
  denotes m p = Some a → copies (copy_pointer deep p) m a.
Proof.
  unfold denotes, denotes_pointer, copies, copy_pointer. destruct (address p) as [l|].
  2:{ intros [= <-]. exists (Pointer None), m. by split. }
  destruct (element (one l) 0 m) as [[x m0]|] eqn:Hx; [|done]. simpl.
  pose proof (element_state _ _ _ _ _ Hx) as ->.
  destruct (denotes m x) as [b|] eqn:Hb; [|done]. intros [= <-].
  destruct (make_in_place m 1) as (out & m1 & Hmake & Hin).
  assert (m ⊆ m1) as Hm1 by (destruct Hin as [Hm _]; etrans; [exact Hm|apply delete_subseteq]).
  destruct (fill_step m m1 out [zero T] [] x b) as (y & m2 & m3 & Hy & Hst & Hin');
    [done|simpl; lia|done|].
  destruct (in_place_elements m m3 out [y] [b]) as (Hsub & Hout & Hall); [done|done|].
  exists (Pointer (Some out)), m3. split.
  - unfold mbind, comp_bind. rewrite Hmake. simpl.
    rewrite (element_mono _ _ m m1 x Hm1 Hx). simpl. rewrite Hy. simpl. simpl in Hst. by rewrite Hst.
  - split; [done|]. unfold denotes at 1, denotes_pointer, element. simpl. rewrite Hout. simpl. rewrite project_inject. simpl.
    inversion Hall as [|? ? ? ? Hd _]; subst. by rewrite Hd.
Qed.

#[export] Instance denotes_pointer_ok : DenotesOk (pointer T) (option A).
Proof.
  intros m m' p a Hm. unfold denotes, denotes_pointer. destruct (address p) as [l|]; [|done].
  destruct (element (one l) 0 m) as [[x m0]|] eqn:Hx; [|done]. simpl.
  rewrite (element_mono _ _ m m' x); [simpl|done|by rewrite Hx; f_equal; f_equal; eapply element_state].
  destruct (denotes m x) as [b|] eqn:Hb; [|done]. by rewrite (denotes_mono m m' x b Hm Hb).
Qed.

#[export] Instance denotes_slice_ok : DenotesOk (mslice T) (slice A).
Proof.
  intros m m' s a Hm. unfold denotes, denotes_slice. destruct (header s) as [h|]; [|done].
  destruct (m !! sl_array h) as [c|] eqn:Hc; [|done]. rewrite (lookup_weaken _ _ _ _ Hc Hm). simpl.
  destruct (project c) as [arr|]; [|done]. simpl.
  destruct (view h arr) as [ys|]; [|done]. simpl.
  destruct (mapM (denotes m) ys) as [zs|] eqn:Hzs; [|done].
  assert (mapM (denotes m') ys = Some zs) as ->; [|done].
  apply mapM_Some in Hzs. apply mapM_Some. eapply Forall2_impl; [exact Hzs|].
  intros v z. by apply denotes_mono.
Qed.
End fill.
End memory.

(** ** Automation: structs, field by field *)

Create HintDb deepcopy.

(** [fields_of H]: what the fields of a struct stand for, from what it does. *)
Ltac head_of t := lazymatch t with ?f _ => head_of f | _ => t end.
Ltac fields_of Hd :=
  lazymatch type of Hd with
  | @denotes _ _ _ ?inst ?m ?v = Some ?a =>
      let h := head_of inst in change (inst m v = Some a) in Hd; unfold h in Hd
  end;
  repeat (apply bind_Some in Hd as (? & ? & Hd)); injection Hd as Hd; subst.

(** [show_struct]: what a struct stands for, from what its fields do. *)
Ltac show_struct :=
  match goal with
  | |- @denotes _ _ _ ?inst ?m ?v = Some ?a =>
      let h := head_of inst in change (inst m v = Some a); unfold h; cbn
  end;
  repeat match goal with
         | Hf : @denotes _ _ _ ?i ?m ?f = Some ?x |- context [@denotes _ _ _ ?i ?m ?f] =>
             rewrite Hf; cbn [mbind option_bind]
         end; reflexivity.

Ltac struct_mono :=
  intros m m' v a Hm Hd; fields_of Hd;
  repeat match goal with
         | Hf : denotes m _ = Some _ |- _ => apply (denotes_mono _ _ _ _ Hm) in Hf
         end; show_struct.

(** [struct_copies]: field after field. *)
Ltac field_copies :=
  intros;
  first
    [ apply copy_slice_copies; [field_copies|]
    | apply copy_pointer_copies; [field_copies|]
    | apply assign_copies
    | solve [eauto with deepcopy]
    | apply DeepCopyInto_copies
    | idtac ].
Ltac denotes_field :=
  first [eassumption | eapply denotes_mono; [|eassumption]; done].
#[export] Hint Extern 2 (denotes _ _ = Some _) => denotes_field : deepcopy.
Ltac next_field :=
  let m' := fresh "m'" in let Hm := fresh "Hm" in
  intros ? m' ? Hm ?;
  repeat match goal with
         | Hf : denotes (?mp ∖ _) _ = Some _ |- _ =>
             assert_fails (constr_eq mp m'); apply (denotes_since _ _ _ _ _ Hm) in Hf
         end; clear Hm.
Ltac struct_copies :=
  intros m v a Hd; fields_of Hd;
  match goal with
  | |- @copies _ _ _ ?D ?p ?m ?a => change (@copies_since _ _ _ D m p m a)
  end;
  match goal with |- copies_since _ (?f v) _ _ => unfold f end;
  repeat (eapply copies_then; [done|field_copies; try denotes_field|next_field]);
  apply copies_ret; show_struct.
