(* ===== verification/KubeTypes.v ===== *)
(** * The data of the controller

    Object keys and metadata, the Gateway API, Istio, Limitador and Authorino
    objects as far as the controller reads or writes them, and the controller's
    own API types (apis/apim/v1alpha1).  Slices whose [nil] can be told from
    the empty slice are [slice]s, pointers are [option]s. *)
From S2P Require Import Prelude GoStrings.

(** ** Keys and metadata *)

(** [client.ObjectKey], that is [types.NamespacedName] *)
Record ObjectKey := { Namespace : string; Name : string }.

#[export] Instance ObjectKey_eq_dec : EqDecision ObjectKey.
Proof. solve_decision. Defined.
#[export] Program Instance ObjectKey_countable : Countable ObjectKey :=
  inj_countable' (λ k, (Namespace k, Name k))
    (λ p, {| Namespace := p.1; Name := p.2 |}) _.
Next Obligation. by intros []. Qed.

(** [metav1.OwnerReference] *)
Record OwnerReference := {
  or_APIVersion : string;
  or_Kind : string;
  or_Name : string;
  or_UID : string;
  or_Controller : option bool;
  or_BlockOwnerDeletion : option bool
}.
#[export] Instance OwnerReference_eq_dec : EqDecision OwnerReference.
Proof. solve_decision. Defined.

(** [metav1.ObjectMeta], the fields in use.  A resource version is opaque and
    only compared for equality; 0 is the empty one. *)
Record ObjectMeta := {
  meta_Name : string;
  meta_Namespace : string;
  meta_UID : string;
  meta_ResourceVersion : Z;
  meta_OwnerReferences : list OwnerReference;
  meta_Labels : gmap string string;
  meta_Annotations : gomap string;
  meta_Finalizers : list string;
  meta_Generation : Z;
  meta_DeletionTimestamp : option Z
}.
#[export] Instance ObjectMeta_eq_dec : EqDecision ObjectMeta.
Proof. solve_decision. Defined.

(** An API object: metadata, spec and status. *)
Record object (Sp St : Type) := {
  ometa : ObjectMeta;
  spec : Sp;
  status : St
}.
Arguments ometa {Sp St} _.
Arguments spec {Sp St} _.
Arguments status {Sp St} _.
Arguments Build_object {Sp St} _ _ _.
#[export] Instance object_eq_dec {Sp St} `{!EqDecision Sp, !EqDecision St} :
  EqDecision (object Sp St).
Proof. solve_decision. Defined.

(** [client.ObjectKeyFromObject] *)
Definition ObjectKeyFromObject {Sp St} (o : object Sp St) : ObjectKey :=
  {| Namespace := meta_Namespace (ometa o); Name := meta_Name (ometa o) |}.

(** [obj.GetAnnotations()] and [obj.SetAnnotations(a)] *)
Definition GetAnnotations {Sp St} (o : object Sp St) : gomap string :=
  meta_Annotations (ometa o).

Definition meta_set_annotations (m : ObjectMeta) (a : gomap string) : ObjectMeta :=
  {| meta_Name := meta_Name m; meta_Namespace := meta_Namespace m;
     meta_UID := meta_UID m;
     meta_ResourceVersion := meta_ResourceVersion m; meta_OwnerReferences := meta_OwnerReferences m;
     meta_Labels := meta_Labels m; meta_Annotations := a;
     meta_Finalizers := meta_Finalizers m; meta_Generation := meta_Generation m;
     meta_DeletionTimestamp := meta_DeletionTimestamp m |}.
Definition meta_set_finalizers (m : ObjectMeta) (f : list string) : ObjectMeta :=
  {| meta_Name := meta_Name m; meta_Namespace := meta_Namespace m;
     meta_UID := meta_UID m;
     meta_ResourceVersion := meta_ResourceVersion m; meta_OwnerReferences := meta_OwnerReferences m;
     meta_Labels := meta_Labels m; meta_Annotations := meta_Annotations m;
     meta_Finalizers := f; meta_Generation := meta_Generation m;
     meta_DeletionTimestamp := meta_DeletionTimestamp m |}.

Definition meta_set_owners (m : ObjectMeta) (l : list OwnerReference) : ObjectMeta :=
  {| meta_Name := meta_Name m; meta_Namespace := meta_Namespace m;
     meta_UID := meta_UID m;
     meta_ResourceVersion := meta_ResourceVersion m; meta_OwnerReferences := l;
     meta_Labels := meta_Labels m; meta_Annotations := meta_Annotations m;
     meta_Finalizers := meta_Finalizers m; meta_Generation := meta_Generation m;
     meta_DeletionTimestamp := meta_DeletionTimestamp m |}.

Definition set_meta {Sp St} (o : object Sp St) (m : ObjectMeta) : object Sp St :=
  {| ometa := m; spec := spec o; status := status o |}.
Definition set_spec {Sp St} (o : object Sp St) (s : Sp) : object Sp St :=
  {| ometa := ometa o; spec := s; status := status o |}.
Definition set_status {Sp St} (o : object Sp St) (s : St) : object Sp St :=
  {| ometa := ometa o; spec := spec o; status := s |}.
Definition SetAnnotations {Sp St} (o : object Sp St) (a : gmap string string) :
  object Sp St := set_meta o (meta_set_annotations (ometa o) (Some a)).

(** A fresh [ObjectMeta{Name, Namespace}] literal *)
Definition new_meta (name ns : string) : ObjectMeta :=
  {| meta_Name := name; meta_Namespace := ns; meta_UID := empty_string;
     meta_ResourceVersion := 0;
     meta_OwnerReferences := []; meta_Labels := ∅;
     meta_Annotations := None; meta_Finalizers := []; meta_Generation := 0;
     meta_DeletionTimestamp := None |}.

(** [metav1.Condition]; times are opaque numbers *)
Record Condition := {
  cond_Type : string;
  cond_Status : string;
  cond_ObservedGeneration : Z;
  cond_LastTransitionTime : Z;
  cond_Reason : string;
  cond_Message : string
}.
#[export] Instance Condition_eq_dec : EqDecision Condition.
Proof. solve_decision. Defined.

(** ** Gateway API (v1alpha2) *)

Record PolicyTargetReference := {
  tr_Group : string;
  tr_Kind : string;
  tr_Name : string;
  tr_Namespace : option string
}.
#[export] Instance PolicyTargetReference_eq_dec : EqDecision PolicyTargetReference.
Proof. solve_decision. Defined.

Record Listener := { listener_Hostname : option string }.
#[export] Instance Listener_eq_dec : EqDecision Listener.
Proof. solve_decision. Defined.
Record GatewaySpec := { Listeners : list Listener }.
#[export] Instance GatewaySpec_eq_dec : EqDecision GatewaySpec.
Proof. solve_decision. Defined.
Record GatewayStatus := { gw_Conditions : list Condition }.
#[export] Instance GatewayStatus_eq_dec : EqDecision GatewayStatus.
Proof. solve_decision. Defined.

Record ParentRef := {
  parent_Group : option string;
  parent_Kind : option string;
  parent_Namespace : option string;
  parent_Name : string;
  parent_SectionName : option string
}.
#[export] Instance ParentRef_eq_dec : EqDecision ParentRef.
Proof. solve_decision. Defined.

Record HTTPPathMatch := { path_Type : option string; path_Value : option string }.
#[export] Instance HTTPPathMatch_eq_dec : EqDecision HTTPPathMatch.
Proof. solve_decision. Defined.
Record HTTPRouteMatch := {
  match_Path : option HTTPPathMatch;
  match_Method : option string
}.
#[export] Instance HTTPRouteMatch_eq_dec : EqDecision HTTPRouteMatch.
Proof. solve_decision. Defined.
Record HTTPRouteSpec := {
  ParentRefs : list ParentRef;
  Hostnames_ : list string;
  route_Rules : list (list HTTPRouteMatch)
}.
#[export] Instance HTTPRouteSpec_eq_dec : EqDecision HTTPRouteSpec.
Proof. solve_decision. Defined.
Record RouteParentStatus := {
  rps_ParentRef : ParentRef;
  rps_Conditions : list Condition
}.
#[export] Instance RouteParentStatus_eq_dec : EqDecision RouteParentStatus.
Proof. solve_decision. Defined.
Record HTTPRouteStatus := { Parents : list RouteParentStatus }.
#[export] Instance HTTPRouteStatus_eq_dec : EqDecision HTTPRouteStatus.
Proof. solve_decision. Defined.

(** ** RateLimitPolicy (apis/apim/v1alpha1/ratelimitpolicy_types.go) *)

Record GenericKeySpec := {
  gk_DescriptorValue : string;
  gk_DescriptorKey : option string
}.
#[export] Instance GenericKeySpec_eq_dec : EqDecision GenericKeySpec.
Proof. solve_decision. Defined.
Record MetadataPathSegment := { segment_Key : string }.
#[export] Instance MetadataPathSegment_eq_dec : EqDecision MetadataPathSegment.
Proof. solve_decision. Defined.
Record MetadataKeySpec := {
  mk_Key : string;
  mk_Path : slice MetadataPathSegment
}.
#[export] Instance MetadataKeySpec_eq_dec : EqDecision MetadataKeySpec.
Proof. solve_decision. Defined.
Record MetadataSpec := {
  md_DescriptorKey : string;
  md_MetadataKey : MetadataKeySpec;
  md_DefaultValue : option string;
  md_Source : string
}.
#[export] Instance MetadataSpec_eq_dec : EqDecision MetadataSpec.
Proof. solve_decision. Defined.
Record RequestHeadersSpec := {
  rh_HeaderName : string;
  rh_DescriptorKey : string;
  rh_SkipIfAbsent : option bool
}.
#[export] Instance RequestHeadersSpec_eq_dec : EqDecision RequestHeadersSpec.
Proof. solve_decision. Defined.

(** At most one field is meant to be set; the type does not force it. *)
Record ActionSpecifier := {
  GenericKey : option GenericKeySpec;
  Metadata : option MetadataSpec;
  RemoteAddress : option unit;
  RequestHeaders : option RequestHeadersSpec
}.
#[export] Instance ActionSpecifier_eq_dec : EqDecision ActionSpecifier.
Proof. solve_decision. Defined.

Record Rule := {
  Paths : slice string;
  Methods : slice string;
  Hosts : slice string
}.
#[export] Instance Rule_eq_dec : EqDecision Rule.
Proof. solve_decision. Defined.

Record Configuration := { Actions : slice ActionSpecifier }.
#[export] Instance Configuration_eq_dec : EqDecision Configuration.
Proof. solve_decision. Defined.

Record Limit := {
  MaxValue : Z;
  Seconds : Z;
  Conditions : slice string;
  Variables : slice string
}.
#[export] Instance Limit_eq_dec : EqDecision Limit.
Proof. solve_decision. Defined.

Record RateLimit := {
  Configurations : slice Configuration;
  Rules : slice Rule;
  Limits : slice Limit
}.
#[export] Instance RateLimit_eq_dec : EqDecision RateLimit.
Proof. solve_decision. Defined.

Record GatewayRateLimits := {
  GatewayName : string;
  grl_RateLimits : slice RateLimit
}.
#[export] Instance GatewayRateLimits_eq_dec : EqDecision GatewayRateLimits.
Proof. solve_decision. Defined.

Record RateLimitPolicySpec := {
  rlp_TargetRef : PolicyTargetReference;
  RateLimits : slice RateLimit
}.
#[export] Instance RateLimitPolicySpec_eq_dec : EqDecision RateLimitPolicySpec.
Proof. solve_decision. Defined.

Record RateLimitPolicyStatus := {
  rlp_ObservedGeneration : Z;
  rlp_Conditions : list Condition;
  GatewaysRateLimits : slice GatewayRateLimits
}.
#[export] Instance RateLimitPolicyStatus_eq_dec : EqDecision RateLimitPolicyStatus.
Proof. solve_decision. Defined.

(** ** AuthPolicy (apis/apim/v1alpha1/authpolicy_types.go) *)

Record AuthRule := {
  ar_Hosts : slice string;
  ar_Methods : slice string;
  ar_Paths : slice string
}.
#[export] Instance AuthRule_eq_dec : EqDecision AuthRule.
Proof. solve_decision. Defined.

(** Authorino's [AuthConfigSpec]: the hosts, which the controller reads, and
    the rest, which it copies *)
Record AuthConfigSpec := { acs_Hosts : list string; acs_rest : string }.
#[export] Instance AuthConfigSpec_eq_dec : EqDecision AuthConfigSpec.
Proof. solve_decision. Defined.

Record AuthPolicySpec := {
  ap_TargetRef : PolicyTargetReference;
  AuthRules : list (option AuthRule);
  AuthScheme : option AuthConfigSpec
}.
#[export] Instance AuthPolicySpec_eq_dec : EqDecision AuthPolicySpec.
Proof. solve_decision. Defined.

Record AuthPolicyStatus := {
  ap_ObservedGeneration : Z;
  ap_Conditions : list Condition
}.
#[export] Instance AuthPolicyStatus_eq_dec : EqDecision AuthPolicyStatus.
Proof. solve_decision. Defined.

(** ** Limitador *)

(** [limitadorv1alpha1.RateLimit] *)
Record LimitadorLimit := {
  ll_Namespace : string;
  ll_MaxValue : Z;
  ll_Seconds : Z;
  ll_Conditions : slice string;
  ll_Variables : slice string
}.
#[export] Instance LimitadorLimit_eq_dec : EqDecision LimitadorLimit.
Proof. solve_decision. Defined.
Record LimitadorSpec := { limitador_Limits : list LimitadorLimit }.
#[export] Instance LimitadorSpec_eq_dec : EqDecision LimitadorSpec.
Proof. solve_decision. Defined.
(** [limitador_Ready] is the answer of [Status.Ready()]. *)
Record LimitadorStatus := {
  limitador_Ready : bool;
  limitador_Host : string;
  limitador_GRPC : Z
}.
#[export] Instance LimitadorStatus_eq_dec : EqDecision LimitadorStatus.
Proof. solve_decision. Defined.

(** ** Protobuf structs and Istio objects *)

(** [google.protobuf.Value]; a number is kept as its decimal text *)
#[warnings="-register-all"]
Inductive PValue :=
  | PNull
  | PBool (b : bool)
  | PNumber (n : string)
  | PString (s : string)
  | PList (l : list PValue)
  | PStruct (l : list (string * PValue)).

Record WasmPluginSpec := {
  wp_Selector : gmap string string;
  wp_Url : string;
  wp_PluginConfig : option PValue;
  wp_Phase : string
}.

Record EnvoyConfigObjectPatch := {
  ep_ApplyTo : string;
  ep_MatchClusterService : string;
  ep_Patch : PValue
}.
Record EnvoyFilterSpec := {
  ef_WorkloadSelector : gmap string string;
  ef_ConfigPatches : list EnvoyConfigObjectPatch;
  ef_Priority : Z
}.

Record Operation := {
  op_Hosts : slice string;
  op_Methods : slice string;
  op_Paths : slice string
}.
#[export] Instance Operation_eq_dec : EqDecision Operation.
Proof. solve_decision. Defined.
(** One [Rule] is the list of its [To] operations. *)
Record AuthorizationPolicySpec := {
  iap_Action : string;
  iap_Rules : list (list Operation);
  iap_SelectorMatchLabels : gmap string string;
  iap_ProviderName : string
}.

Record AuthConfigStatus := { authconfig_Ready : bool }.

(** ** Services *)

(** [intstr.IntOrString] *)
Inductive IntOrString := IntVal (n : Z) | StrVal (s : string).
#[export] Instance IntOrString_eq_dec : EqDecision IntOrString.
Proof. solve_decision. Defined.
Record ServicePort := { sp_Name : string; sp_TargetPort : IntOrString }.
#[export] Instance ServicePort_eq_dec : EqDecision ServicePort.
Proof. solve_decision. Defined.
Record ServiceSpec := { Ports : list ServicePort }.
#[export] Instance ServiceSpec_eq_dec : EqDecision ServiceSpec.
Proof. solve_decision. Defined.

(** ** The kinds of objects the controller works with *)

Inductive Kind :=
  | KGateway | KHTTPRoute | KRateLimitPolicy | KAuthPolicy | KLimitador
  | KWasmPlugin | KEnvoyFilter | KAuthorizationPolicy | KAuthConfig | KService.
#[export] Instance Kind_eq_dec : EqDecision Kind.
Proof. solve_decision. Defined.

Abbreviation Gateway := (object GatewaySpec GatewayStatus).
Abbreviation HTTPRoute := (object HTTPRouteSpec HTTPRouteStatus).
Abbreviation RateLimitPolicy := (object RateLimitPolicySpec RateLimitPolicyStatus).
Abbreviation AuthPolicy := (object AuthPolicySpec AuthPolicyStatus).
Abbreviation Limitador := (object LimitadorSpec LimitadorStatus).
Abbreviation WasmPlugin := (object WasmPluginSpec unit).
Abbreviation EnvoyFilter := (object EnvoyFilterSpec unit).
Abbreviation AuthorizationPolicy := (object AuthorizationPolicySpec unit).
Abbreviation AuthConfig := (object AuthConfigSpec AuthConfigStatus).
Abbreviation Service := (object ServiceSpec unit).

Definition spec_of (k : Kind) : Type :=
  match k with
  | KGateway => GatewaySpec | KHTTPRoute => HTTPRouteSpec
  | KRateLimitPolicy => RateLimitPolicySpec | KAuthPolicy => AuthPolicySpec
  | KLimitador => LimitadorSpec | KWasmPlugin => WasmPluginSpec
  | KEnvoyFilter => EnvoyFilterSpec | KAuthorizationPolicy => AuthorizationPolicySpec
  | KAuthConfig => AuthConfigSpec | KService => ServiceSpec
  end.
Definition status_of (k : Kind) : Type :=
  match k with
  | KGateway => GatewayStatus | KHTTPRoute => HTTPRouteStatus
  | KRateLimitPolicy => RateLimitPolicyStatus | KAuthPolicy => AuthPolicyStatus
  | KLimitador => LimitadorStatus | KWasmPlugin | KEnvoyFilter => unit
  | KAuthorizationPolicy => unit | KAuthConfig => AuthConfigStatus | KService => unit
  end.

(** The Go type of the objects of a kind. *)
Abbreviation obj k := (object (spec_of k) (status_of k)).
