(* ===== verification/DeepCopy.v ===== *)
(** * The generated deep copies (apis/apim/v1alpha1/zz_generated.deepcopy.go)

    The API types as they are in memory, with their pointers and slices, and
    [DeepCopyInto], [DeepCopy] and [DeepCopyObject] of each.  A value in memory
    stands for the value of the other files, which have no pointers: that they
    may be treated as values is what the copies are for. *)
From S2P Require Import Prelude GoStrings GoMemory KubeTypes.

Open Scope go_scope.

(** ** Types of other packages *)

(** [metav1.TypeMeta] *)
Record TypeMeta := { tm_Kind : string; tm_APIVersion : string }.

(** [metav1.ObjectMeta], [metav1.ListMeta], [metav1.Condition],
    [PolicyTargetReference] and Authorino's [AuthConfigSpec] as they are in
    memory, their zero values, and what else they keep there *)
Class ForeignTypes := {
  mObjectMeta : Type;
  mListMeta : Type;
  mCondition : Type;
  mTargetReference : Type;
  mAuthConfigSpec : Type;
  foreign_cell : Type;
  ListMeta : Type;
  zero_ObjectMeta : mObjectMeta;
  zero_ListMeta : mListMeta;
  zero_Condition : mCondition;
  zero_TargetReference : mTargetReference;
  zero_AuthConfigSpec : mAuthConfigSpec
}.

(** ** The API types in memory *)

Module Mem.
Section types.
Context `{ForeignTypes}.

Record GenericKeySpec := { DescriptorValue : string; DescriptorKey : pointer string }.
Record MetadataPathSegmentKey := { psk_Key : string }.
Record MetadataPathSegment := { Segment : MetadataPathSegmentKey }.
Record MetadataKeySpec := { Key : string; Path : mslice MetadataPathSegment }.
Record MetadataSpec := {
  md_DescriptorKey : string;
  MetadataKey : MetadataKeySpec;
  DefaultValue : pointer string;
  Source : string
}.
Record RemoteAddressSpec := mk_RemoteAddressSpec {}.
Record RequestHeadersSpec := {
  HeaderName : string;
  rh_DescriptorKey : string;
  SkipIfAbsent : pointer bool
}.
Record ActionSpecifier := {
  GenericKey : pointer GenericKeySpec;
  Metadata : pointer MetadataSpec;
  RemoteAddress : pointer RemoteAddressSpec;
  RequestHeaders : pointer RequestHeadersSpec
}.
Record Rule := { Paths : mslice string; Methods : mslice string; Hosts : mslice string }.
Record Configuration := { Actions : mslice ActionSpecifier }.
Record Limit := {
  MaxValue : Z;
  Seconds : Z;
  Conditions : mslice string;
  Variables : mslice string
}.
Record RateLimit := {
  Configurations : mslice Configuration;
  Rules : mslice Rule;
  Limits : mslice Limit
}.
Record GatewayRateLimits := { GatewayName : string; grl_RateLimits : mslice RateLimit }.
Record RateLimitPolicySpec := { TargetRef : mTargetReference; RateLimits : mslice RateLimit }.
Record RateLimitPolicyStatus := {
  ObservedGeneration : Z;
  rlp_Conditions : mslice mCondition;
  rlp_GatewaysRateLimits : mslice GatewayRateLimits
}.
Record RateLimitPolicy := {
  rlp_TypeMeta : TypeMeta;
  rlp_ObjectMeta : mObjectMeta;
  rlp_Spec : RateLimitPolicySpec;
  rlp_Status : RateLimitPolicyStatus
}.
Record RateLimitPolicyList := {
  rlps_TypeMeta : TypeMeta;
  rlps_ListMeta : mListMeta;
  rlps_Items : mslice RateLimitPolicy
}.

Record AuthRule := {
  ar_Hosts : mslice string;
  ar_Methods : mslice string;
  ar_Paths : mslice string
}.
Record AuthPolicySpec := {
  ap_TargetRef : mTargetReference;
  AuthRules : mslice (pointer AuthRule);
  AuthScheme : pointer mAuthConfigSpec
}.
Record AuthPolicyStatus := { ap_ObservedGeneration : Z; ap_Conditions : mslice mCondition }.
Record AuthPolicy := {
  ap_TypeMeta : TypeMeta;
  ap_ObjectMeta : mObjectMeta;
  ap_Spec : AuthPolicySpec;
  ap_Status : AuthPolicyStatus
}.
Record AuthPolicyList := {
  aps_TypeMeta : TypeMeta;
  aps_ListMeta : mListMeta;
  aps_Items : mslice AuthPolicy
}.
End types.
End Mem.

(** ** Memory *)

Section deepcopy.
Context `{F : ForeignTypes}.

Definition nil_pointer {T} : pointer T := Pointer None.
Definition nil_slice {T} : mslice T := Slice None.
Definition zero_TypeMeta : TypeMeta := {| tm_Kind := empty_string; tm_APIVersion := empty_string |}.

Inductive cell :=
  | CString (l : list string)
  | CBool (l : list bool)
  | CGenericKeySpec (l : list Mem.GenericKeySpec)
  | CMetadataPathSegmentKey (l : list Mem.MetadataPathSegmentKey)
  | CMetadataPathSegment (l : list Mem.MetadataPathSegment)
  | CMetadataKeySpec (l : list Mem.MetadataKeySpec)
  | CMetadataSpec (l : list Mem.MetadataSpec)
  | CRemoteAddressSpec (l : list Mem.RemoteAddressSpec)
  | CRequestHeadersSpec (l : list Mem.RequestHeadersSpec)
  | CActionSpecifier (l : list Mem.ActionSpecifier)
  | CRule (l : list Mem.Rule)
  | CConfiguration (l : list Mem.Configuration)
  | CLimit (l : list Mem.Limit)
  | CRateLimit (l : list Mem.RateLimit)
  | CGatewayRateLimits (l : list Mem.GatewayRateLimits)
  | CRateLimitPolicySpec (l : list Mem.RateLimitPolicySpec)
  | CRateLimitPolicyStatus (l : list Mem.RateLimitPolicyStatus)
  | CRateLimitPolicy (l : list Mem.RateLimitPolicy)
  | CRateLimitPolicyList (l : list Mem.RateLimitPolicyList)
  | CAuthRule (l : list Mem.AuthRule)
  | CAuthPolicySpec (l : list Mem.AuthPolicySpec)
  | CAuthPolicyStatus (l : list Mem.AuthPolicyStatus)
  | CAuthPolicy (l : list Mem.AuthPolicy)
  | CAuthPolicyList (l : list Mem.AuthPolicyList)
  | CAuthRulePointer (l : list (pointer Mem.AuthRule))
  | CCondition (l : list mCondition)
  | CAuthConfigSpec (l : list mAuthConfigSpec)
  | CForeign (x : foreign_cell).

#[export] Instance cell_String : Cell cell string := {|
  inject := CString; project c := match c with CString l => Some l | _ => None end;
  project_inject _ := eq_refl; zero := empty_string
|}.
#[export] Instance cell_Bool : Cell cell bool := {|
  inject := CBool; project c := match c with CBool l => Some l | _ => None end;
  project_inject _ := eq_refl; zero := false
|}.
#[export] Instance cell_GenericKeySpec : Cell cell Mem.GenericKeySpec := {|
  inject := CGenericKeySpec; project c := match c with CGenericKeySpec l => Some l | _ => None end;
  project_inject _ := eq_refl; zero := Mem.Build_GenericKeySpec empty_string nil_pointer
|}.
#[export] Instance cell_MetadataPathSegmentKey : Cell cell Mem.MetadataPathSegmentKey := {|
  inject := CMetadataPathSegmentKey;
  project c := match c with CMetadataPathSegmentKey l => Some l | _ => None end;
  project_inject _ := eq_refl; zero := Mem.Build_MetadataPathSegmentKey empty_string
|}.
#[export] Instance cell_MetadataPathSegment : Cell cell Mem.MetadataPathSegment := {|
  inject := CMetadataPathSegment;
  project c := match c with CMetadataPathSegment l => Some l | _ => None end;
  project_inject _ := eq_refl;
  zero := Mem.Build_MetadataPathSegment (zero Mem.MetadataPathSegmentKey)
|}.
#[export] Instance cell_MetadataKeySpec : Cell cell Mem.MetadataKeySpec := {|
  inject := CMetadataKeySpec;
  project c := match c with CMetadataKeySpec l => Some l | _ => None end;
  project_inject _ := eq_refl; zero := Mem.Build_MetadataKeySpec empty_string nil_slice
|}.
#[export] Instance cell_MetadataSpec : Cell cell Mem.MetadataSpec := {|
  inject := CMetadataSpec; project c := match c with CMetadataSpec l => Some l | _ => None end;
  project_inject _ := eq_refl;
  zero := Mem.Build_MetadataSpec empty_string (zero Mem.MetadataKeySpec) nil_pointer empty_string
|}.
#[export] Instance cell_RemoteAddressSpec : Cell cell Mem.RemoteAddressSpec := {|
  inject := CRemoteAddressSpec;
  project c := match c with CRemoteAddressSpec l => Some l | _ => None end;
  project_inject _ := eq_refl; zero := Mem.mk_RemoteAddressSpec
|}.
#[export] Instance cell_RequestHeadersSpec : Cell cell Mem.RequestHeadersSpec := {|
  inject := CRequestHeadersSpec;
  project c := match c with CRequestHeadersSpec l => Some l | _ => None end;
  project_inject _ := eq_refl;
  zero := Mem.Build_RequestHeadersSpec empty_string empty_string nil_pointer
|}.
#[export] Instance cell_ActionSpecifier : Cell cell Mem.ActionSpecifier := {|
  inject := CActionSpecifier;
  project c := match c with CActionSpecifier l => Some l | _ => None end;
  project_inject _ := eq_refl;
  zero := Mem.Build_ActionSpecifier nil_pointer nil_pointer nil_pointer nil_pointer
|}.
#[export] Instance cell_Rule : Cell cell Mem.Rule := {|
  inject := CRule; project c := match c with CRule l => Some l | _ => None end;
  project_inject _ := eq_refl; zero := Mem.Build_Rule nil_slice nil_slice nil_slice
|}.
#[export] Instance cell_Configuration : Cell cell Mem.Configuration := {|
  inject := CConfiguration; project c := match c with CConfiguration l => Some l | _ => None end;
  project_inject _ := eq_refl; zero := Mem.Build_Configuration nil_slice
|}.
#[export] Instance cell_Limit : Cell cell Mem.Limit := {|
  inject := CLimit; project c := match c with CLimit l => Some l | _ => None end;
  project_inject _ := eq_refl; zero := Mem.Build_Limit 0 0 nil_slice nil_slice
|}.
#[export] Instance cell_RateLimit : Cell cell Mem.RateLimit := {|
  inject := CRateLimit; project c := match c with CRateLimit l => Some l | _ => None end;
  project_inject _ := eq_refl; zero := Mem.Build_RateLimit nil_slice nil_slice nil_slice
|}.
#[export] Instance cell_GatewayRateLimits : Cell cell Mem.GatewayRateLimits := {|
  inject := CGatewayRateLimits;
  project c := match c with CGatewayRateLimits l => Some l | _ => None end;
  project_inject _ := eq_refl; zero := Mem.Build_GatewayRateLimits empty_string nil_slice
|}.
#[export] Instance cell_RateLimitPolicySpec : Cell cell Mem.RateLimitPolicySpec := {|
  inject := CRateLimitPolicySpec;
  project c := match c with CRateLimitPolicySpec l => Some l | _ => None end;
  project_inject _ := eq_refl; zero := Mem.Build_RateLimitPolicySpec zero_TargetReference nil_slice
|}.
#[export] Instance cell_RateLimitPolicyStatus : Cell cell Mem.RateLimitPolicyStatus := {|
  inject := CRateLimitPolicyStatus;
  project c := match c with CRateLimitPolicyStatus l => Some l | _ => None end;
  project_inject _ := eq_refl; zero := Mem.Build_RateLimitPolicyStatus 0 nil_slice nil_slice
|}.
#[export] Instance cell_RateLimitPolicy : Cell cell Mem.RateLimitPolicy := {|
  inject := CRateLimitPolicy;
  project c := match c with CRateLimitPolicy l => Some l | _ => None end;
  project_inject _ := eq_refl; zero := Mem.Build_RateLimitPolicy zero_TypeMeta zero_ObjectMeta
    (zero Mem.RateLimitPolicySpec) (zero Mem.RateLimitPolicyStatus)
|}.
#[export] Instance cell_RateLimitPolicyList : Cell cell Mem.RateLimitPolicyList := {|
  inject := CRateLimitPolicyList;
  project c := match c with CRateLimitPolicyList l => Some l | _ => None end;
  project_inject _ := eq_refl;
  zero := Mem.Build_RateLimitPolicyList zero_TypeMeta zero_ListMeta nil_slice
|}.
#[export] Instance cell_AuthRule : Cell cell Mem.AuthRule := {|
  inject := CAuthRule; project c := match c with CAuthRule l => Some l | _ => None end;
  project_inject _ := eq_refl; zero := Mem.Build_AuthRule nil_slice nil_slice nil_slice
|}.
#[export] Instance cell_AuthPolicySpec : Cell cell Mem.AuthPolicySpec := {|
  inject := CAuthPolicySpec; project c := match c with CAuthPolicySpec l => Some l | _ => None end;
  project_inject _ := eq_refl;
  zero := Mem.Build_AuthPolicySpec zero_TargetReference nil_slice nil_pointer
|}.
#[export] Instance cell_AuthPolicyStatus : Cell cell Mem.AuthPolicyStatus := {|
  inject := CAuthPolicyStatus;
  project c := match c with CAuthPolicyStatus l => Some l | _ => None end;
  project_inject _ := eq_refl; zero := Mem.Build_AuthPolicyStatus 0 nil_slice
|}.
#[export] Instance cell_AuthPolicy : Cell cell Mem.AuthPolicy := {|
  inject := CAuthPolicy; project c := match c with CAuthPolicy l => Some l | _ => None end;
  project_inject _ := eq_refl; zero := Mem.Build_AuthPolicy zero_TypeMeta zero_ObjectMeta
    (zero Mem.AuthPolicySpec) (zero Mem.AuthPolicyStatus)
|}.
#[export] Instance cell_AuthPolicyList : Cell cell Mem.AuthPolicyList := {|
  inject := CAuthPolicyList; project c := match c with CAuthPolicyList l => Some l | _ => None end;
  project_inject _ := eq_refl;
  zero := Mem.Build_AuthPolicyList zero_TypeMeta zero_ListMeta nil_slice
|}.
#[export] Instance cell_AuthRulePointer : Cell cell (pointer Mem.AuthRule) := {|
  inject := CAuthRulePointer;
  project c := match c with CAuthRulePointer l => Some l | _ => None end;
  project_inject _ := eq_refl; zero := nil_pointer
|}.
#[export] Instance cell_Condition : Cell cell mCondition := {|
  inject := CCondition; project c := match c with CCondition l => Some l | _ => None end;
  project_inject _ := eq_refl; zero := zero_Condition
|}.
#[export] Instance cell_AuthConfigSpec : Cell cell mAuthConfigSpec := {|
  inject := CAuthConfigSpec; project c := match c with CAuthConfigSpec l => Some l | _ => None end;
  project_inject _ := eq_refl; zero := zero_AuthConfigSpec
|}.

Local Abbreviation comp := (comp (cell:=cell)).

(** [DeepCopyInto] of the other packages, and what their types stand for *)
Class ForeignCopies := {
  #[export] ObjectMeta_denotes :: Denotes (cell:=cell) mObjectMeta ObjectMeta;
  #[export] ObjectMeta_copies :: DeepCopies (cell:=cell) mObjectMeta;
  #[export] ListMeta_denotes :: Denotes (cell:=cell) mListMeta ListMeta;
  #[export] ListMeta_copies :: DeepCopies (cell:=cell) mListMeta;
  #[export] Condition_denotes :: Denotes (cell:=cell) mCondition Condition;
  #[export] Condition_copies :: DeepCopies (cell:=cell) mCondition;
  #[export] TargetReference_denotes :: Denotes (cell:=cell) mTargetReference PolicyTargetReference;
  #[export] TargetReference_copies :: DeepCopies (cell:=cell) mTargetReference;
  #[export] AuthConfigSpec_denotes :: Denotes (cell:=cell) mAuthConfigSpec AuthConfigSpec;
  #[export] AuthConfigSpec_copies :: DeepCopies (cell:=cell) mAuthConfigSpec
}.

(** A copy of theirs is independent of the original. *)
Class ForeignCopiesOk {FC : ForeignCopies} := {
  #[export] ObjectMeta_denotes_ok :: DenotesOk mObjectMeta ObjectMeta;
  #[export] ObjectMeta_copies_ok :: DeepCopiesOk mObjectMeta ObjectMeta;
  #[export] ListMeta_denotes_ok :: DenotesOk mListMeta ListMeta;
  #[export] ListMeta_copies_ok :: DeepCopiesOk mListMeta ListMeta;
  #[export] Condition_denotes_ok :: DenotesOk mCondition Condition;
  #[export] Condition_copies_ok :: DeepCopiesOk mCondition Condition;
  #[export] TargetReference_denotes_ok :: DenotesOk mTargetReference PolicyTargetReference;
  #[export] TargetReference_copies_ok :: DeepCopiesOk mTargetReference PolicyTargetReference;
  #[export] AuthConfigSpec_denotes_ok :: DenotesOk mAuthConfigSpec AuthConfigSpec;
  #[export] AuthConfigSpec_copies_ok :: DeepCopiesOk mAuthConfigSpec AuthConfigSpec
}.
Context `{FC : !ForeignCopies}.

(** ** Copies

    [DeepCopyInto] gives what it leaves in its argument: first all fields as they
    are, and then, where a field refers to memory, a copy of that.  [DeepCopy]
    makes a new value, unless the pointer is [nil]. *)

Definition GenericKeySpec_DeepCopyInto (in_ : Mem.GenericKeySpec) : comp Mem.GenericKeySpec :=
  descriptorKey ← copy_pointer assign (Mem.DescriptorKey in_);
  mret {| Mem.DescriptorValue := Mem.DescriptorValue in_; Mem.DescriptorKey := descriptorKey |}.
Definition GenericKeySpec_DeepCopy (in_ : pointer Mem.GenericKeySpec) :
    comp (pointer Mem.GenericKeySpec) :=
  copy_pointer GenericKeySpec_DeepCopyInto in_.

Definition MetadataPathSegmentKey_DeepCopyInto (in_ : Mem.MetadataPathSegmentKey) :
    comp Mem.MetadataPathSegmentKey :=
  mret {| Mem.psk_Key := Mem.psk_Key in_ |}.
Definition MetadataPathSegmentKey_DeepCopy (in_ : pointer Mem.MetadataPathSegmentKey) :
    comp (pointer Mem.MetadataPathSegmentKey) :=
  copy_pointer MetadataPathSegmentKey_DeepCopyInto in_.

Definition MetadataPathSegment_DeepCopyInto (in_ : Mem.MetadataPathSegment) :
    comp Mem.MetadataPathSegment :=
  mret {| Mem.Segment := Mem.Segment in_ |}.
Definition MetadataPathSegment_DeepCopy (in_ : pointer Mem.MetadataPathSegment) :
    comp (pointer Mem.MetadataPathSegment) :=
  copy_pointer MetadataPathSegment_DeepCopyInto in_.

Definition MetadataKeySpec_DeepCopyInto (in_ : Mem.MetadataKeySpec) : comp Mem.MetadataKeySpec :=
  path ← copy_slice assign (Mem.Path in_);
  mret {| Mem.Key := Mem.Key in_; Mem.Path := path |}.
Definition MetadataKeySpec_DeepCopy (in_ : pointer Mem.MetadataKeySpec) :
    comp (pointer Mem.MetadataKeySpec) :=
  copy_pointer MetadataKeySpec_DeepCopyInto in_.

Definition MetadataSpec_DeepCopyInto (in_ : Mem.MetadataSpec) : comp Mem.MetadataSpec :=
  metadataKey ← MetadataKeySpec_DeepCopyInto (Mem.MetadataKey in_);
  defaultValue ← copy_pointer assign (Mem.DefaultValue in_);
  mret {| Mem.md_DescriptorKey := Mem.md_DescriptorKey in_;
          Mem.MetadataKey := metadataKey;
          Mem.DefaultValue := defaultValue;
          Mem.Source := Mem.Source in_ |}.
Definition MetadataSpec_DeepCopy (in_ : pointer Mem.MetadataSpec) :
    comp (pointer Mem.MetadataSpec) :=
  copy_pointer MetadataSpec_DeepCopyInto in_.

Definition RemoteAddressSpec_DeepCopyInto (in_ : Mem.RemoteAddressSpec) :
    comp Mem.RemoteAddressSpec :=
  mret in_.
Definition RemoteAddressSpec_DeepCopy (in_ : pointer Mem.RemoteAddressSpec) :
    comp (pointer Mem.RemoteAddressSpec) :=
  copy_pointer RemoteAddressSpec_DeepCopyInto in_.

Definition RequestHeadersSpec_DeepCopyInto (in_ : Mem.RequestHeadersSpec) :
    comp Mem.RequestHeadersSpec :=
  skipIfAbsent ← copy_pointer assign (Mem.SkipIfAbsent in_);
  mret {| Mem.HeaderName := Mem.HeaderName in_;
          Mem.rh_DescriptorKey := Mem.rh_DescriptorKey in_;
          Mem.SkipIfAbsent := skipIfAbsent |}.
Definition RequestHeadersSpec_DeepCopy (in_ : pointer Mem.RequestHeadersSpec) :
    comp (pointer Mem.RequestHeadersSpec) :=
  copy_pointer RequestHeadersSpec_DeepCopyInto in_.

Definition ActionSpecifier_DeepCopyInto (in_ : Mem.ActionSpecifier) : comp Mem.ActionSpecifier :=
  genericKey ← copy_pointer GenericKeySpec_DeepCopyInto (Mem.GenericKey in_);
  metadata ← copy_pointer MetadataSpec_DeepCopyInto (Mem.Metadata in_);
  remoteAddress ← copy_pointer assign (Mem.RemoteAddress in_);
  requestHeaders ← copy_pointer RequestHeadersSpec_DeepCopyInto (Mem.RequestHeaders in_);
  mret {| Mem.GenericKey := genericKey;
          Mem.Metadata := metadata;
          Mem.RemoteAddress := remoteAddress;
          Mem.RequestHeaders := requestHeaders |}.
Definition ActionSpecifier_DeepCopy (in_ : pointer Mem.ActionSpecifier) :
    comp (pointer Mem.ActionSpecifier) :=
  copy_pointer ActionSpecifier_DeepCopyInto in_.

Definition Rule_DeepCopyInto (in_ : Mem.Rule) : comp Mem.Rule :=
  paths ← copy_slice assign (Mem.Paths in_);
  methods ← copy_slice assign (Mem.Methods in_);
  hosts ← copy_slice assign (Mem.Hosts in_);
  mret {| Mem.Paths := paths; Mem.Methods := methods; Mem.Hosts := hosts |}.
Definition Rule_DeepCopy (in_ : pointer Mem.Rule) : comp (pointer Mem.Rule) :=
  copy_pointer Rule_DeepCopyInto in_.

Definition Configuration_DeepCopyInto (in_ : Mem.Configuration) : comp Mem.Configuration :=
  actions ← copy_slice ActionSpecifier_DeepCopyInto (Mem.Actions in_);
  mret {| Mem.Actions := actions |}.
Definition Configuration_DeepCopy (in_ : pointer Mem.Configuration) :
    comp (pointer Mem.Configuration) :=
  copy_pointer Configuration_DeepCopyInto in_.

Definition Limit_DeepCopyInto (in_ : Mem.Limit) : comp Mem.Limit :=
  conditions ← copy_slice assign (Mem.Conditions in_);
  variables ← copy_slice assign (Mem.Variables in_);
  mret {| Mem.MaxValue := Mem.MaxValue in_;
          Mem.Seconds := Mem.Seconds in_;
          Mem.Conditions := conditions;
          Mem.Variables := variables |}.
Definition Limit_DeepCopy (in_ : pointer Mem.Limit) : comp (pointer Mem.Limit) :=
  copy_pointer Limit_DeepCopyInto in_.

Definition RateLimit_DeepCopyInto (in_ : Mem.RateLimit) : comp Mem.RateLimit :=
  configurations ← copy_slice Configuration_DeepCopyInto (Mem.Configurations in_);
  rules ← copy_slice Rule_DeepCopyInto (Mem.Rules in_);
  limits ← copy_slice Limit_DeepCopyInto (Mem.Limits in_);
  mret {| Mem.Configurations := configurations; Mem.Rules := rules; Mem.Limits := limits |}.
Definition RateLimit_DeepCopy (in_ : pointer Mem.RateLimit) : comp (pointer Mem.RateLimit) :=
  copy_pointer RateLimit_DeepCopyInto in_.

Definition GatewayRateLimits_DeepCopyInto (in_ : Mem.GatewayRateLimits) :
    comp Mem.GatewayRateLimits :=
  rateLimits ← copy_slice RateLimit_DeepCopyInto (Mem.grl_RateLimits in_);
  mret {| Mem.GatewayName := Mem.GatewayName in_; Mem.grl_RateLimits := rateLimits |}.
Definition GatewayRateLimits_DeepCopy (in_ : pointer Mem.GatewayRateLimits) :
    comp (pointer Mem.GatewayRateLimits) :=
  copy_pointer GatewayRateLimits_DeepCopyInto in_.

Definition RateLimitPolicySpec_DeepCopyInto (in_ : Mem.RateLimitPolicySpec) :
    comp Mem.RateLimitPolicySpec :=
  targetRef ← DeepCopyInto (Mem.TargetRef in_);
  rateLimits ← copy_slice RateLimit_DeepCopyInto (Mem.RateLimits in_);
  mret {| Mem.TargetRef := targetRef; Mem.RateLimits := rateLimits |}.
Definition RateLimitPolicySpec_DeepCopy (in_ : pointer Mem.RateLimitPolicySpec) :
    comp (pointer Mem.RateLimitPolicySpec) :=
  copy_pointer RateLimitPolicySpec_DeepCopyInto in_.

Definition RateLimitPolicyStatus_DeepCopyInto (in_ : Mem.RateLimitPolicyStatus) :
    comp Mem.RateLimitPolicyStatus :=
  conditions ← copy_slice DeepCopyInto (Mem.rlp_Conditions in_);
  gatewaysRateLimits ← copy_slice GatewayRateLimits_DeepCopyInto (Mem.rlp_GatewaysRateLimits in_);
  mret {| Mem.ObservedGeneration := Mem.ObservedGeneration in_;
          Mem.rlp_Conditions := conditions;
          Mem.rlp_GatewaysRateLimits := gatewaysRateLimits |}.
Definition RateLimitPolicyStatus_DeepCopy (in_ : pointer Mem.RateLimitPolicyStatus) :
    comp (pointer Mem.RateLimitPolicyStatus) :=
  copy_pointer RateLimitPolicyStatus_DeepCopyInto in_.

Definition RateLimitPolicy_DeepCopyInto (in_ : Mem.RateLimitPolicy) : comp Mem.RateLimitPolicy :=
  objectMeta ← DeepCopyInto (Mem.rlp_ObjectMeta in_);
  spec ← RateLimitPolicySpec_DeepCopyInto (Mem.rlp_Spec in_);
  status ← RateLimitPolicyStatus_DeepCopyInto (Mem.rlp_Status in_);
  mret {| Mem.rlp_TypeMeta := Mem.rlp_TypeMeta in_;
          Mem.rlp_ObjectMeta := objectMeta;
          Mem.rlp_Spec := spec;
          Mem.rlp_Status := status |}.
Definition RateLimitPolicy_DeepCopy (in_ : pointer Mem.RateLimitPolicy) :
    comp (pointer Mem.RateLimitPolicy) :=
  copy_pointer RateLimitPolicy_DeepCopyInto in_.

Definition RateLimitPolicyList_DeepCopyInto (in_ : Mem.RateLimitPolicyList) :
    comp Mem.RateLimitPolicyList :=
  listMeta ← DeepCopyInto (Mem.rlps_ListMeta in_);
  items ← copy_slice RateLimitPolicy_DeepCopyInto (Mem.rlps_Items in_);
  mret {| Mem.rlps_TypeMeta := Mem.rlps_TypeMeta in_;
          Mem.rlps_ListMeta := listMeta;
          Mem.rlps_Items := items |}.
Definition RateLimitPolicyList_DeepCopy (in_ : pointer Mem.RateLimitPolicyList) :
    comp (pointer Mem.RateLimitPolicyList) :=
  copy_pointer RateLimitPolicyList_DeepCopyInto in_.

Definition AuthRule_DeepCopyInto (in_ : Mem.AuthRule) : comp Mem.AuthRule :=
  hosts ← copy_slice assign (Mem.ar_Hosts in_);
  methods ← copy_slice assign (Mem.ar_Methods in_);
  paths ← copy_slice assign (Mem.ar_Paths in_);
  mret {| Mem.ar_Hosts := hosts; Mem.ar_Methods := methods; Mem.ar_Paths := paths |}.
Definition AuthRule_DeepCopy (in_ : pointer Mem.AuthRule) : comp (pointer Mem.AuthRule) :=
  copy_pointer AuthRule_DeepCopyInto in_.

Definition AuthPolicySpec_DeepCopyInto (in_ : Mem.AuthPolicySpec) : comp Mem.AuthPolicySpec :=
  targetRef ← DeepCopyInto (Mem.ap_TargetRef in_);
  authRules ← copy_slice (copy_pointer AuthRule_DeepCopyInto) (Mem.AuthRules in_);
  authScheme ← copy_pointer DeepCopyInto (Mem.AuthScheme in_);
  mret {| Mem.ap_TargetRef := targetRef;
          Mem.AuthRules := authRules;
          Mem.AuthScheme := authScheme |}.
Definition AuthPolicySpec_DeepCopy (in_ : pointer Mem.AuthPolicySpec) :
    comp (pointer Mem.AuthPolicySpec) :=
  copy_pointer AuthPolicySpec_DeepCopyInto in_.

Definition AuthPolicyStatus_DeepCopyInto (in_ : Mem.AuthPolicyStatus) : comp Mem.AuthPolicyStatus :=
  conditions ← copy_slice DeepCopyInto (Mem.ap_Conditions in_);
  mret {| Mem.ap_ObservedGeneration := Mem.ap_ObservedGeneration in_;
          Mem.ap_Conditions := conditions |}.
Definition AuthPolicyStatus_DeepCopy (in_ : pointer Mem.AuthPolicyStatus) :
    comp (pointer Mem.AuthPolicyStatus) :=
  copy_pointer AuthPolicyStatus_DeepCopyInto in_.

Definition AuthPolicy_DeepCopyInto (in_ : Mem.AuthPolicy) : comp Mem.AuthPolicy :=
  objectMeta ← DeepCopyInto (Mem.ap_ObjectMeta in_);
  spec ← AuthPolicySpec_DeepCopyInto (Mem.ap_Spec in_);
  status ← AuthPolicyStatus_DeepCopyInto (Mem.ap_Status in_);
  mret {| Mem.ap_TypeMeta := Mem.ap_TypeMeta in_;
          Mem.ap_ObjectMeta := objectMeta;
          Mem.ap_Spec := spec;
          Mem.ap_Status := status |}.
Definition AuthPolicy_DeepCopy (in_ : pointer Mem.AuthPolicy) : comp (pointer Mem.AuthPolicy) :=
  copy_pointer AuthPolicy_DeepCopyInto in_.

Definition AuthPolicyList_DeepCopyInto (in_ : Mem.AuthPolicyList) : comp Mem.AuthPolicyList :=
  listMeta ← DeepCopyInto (Mem.aps_ListMeta in_);
  items ← copy_slice AuthPolicy_DeepCopyInto (Mem.aps_Items in_);
  mret {| Mem.aps_TypeMeta := Mem.aps_TypeMeta in_;
          Mem.aps_ListMeta := listMeta;
          Mem.aps_Items := items |}.
Definition AuthPolicyList_DeepCopy (in_ : pointer Mem.AuthPolicyList) :
    comp (pointer Mem.AuthPolicyList) :=
  copy_pointer AuthPolicyList_DeepCopyInto in_.

(** [runtime.Object]: a pointer to one of the four types that are registered *)
Inductive runtime_Object :=
  | AnAuthPolicy (p : pointer Mem.AuthPolicy)
  | AnAuthPolicyList (p : pointer Mem.AuthPolicyList)
  | ARateLimitPolicy (p : pointer Mem.RateLimitPolicy)
  | ARateLimitPolicyList (p : pointer Mem.RateLimitPolicyList).

(** A pointer in the interface, or the [nil] interface *)
Definition as_object {T} (object : pointer T → runtime_Object) (p : pointer T) :
    option runtime_Object :=
  match address p with Some _ => Some (object p) | None => None end.

Definition AuthPolicy_DeepCopyObject (in_ : pointer Mem.AuthPolicy) :
    comp (option runtime_Object) :=
  c ← AuthPolicy_DeepCopy in_;
  mret (as_object AnAuthPolicy c).
Definition AuthPolicyList_DeepCopyObject (in_ : pointer Mem.AuthPolicyList) :
    comp (option runtime_Object) :=
  c ← AuthPolicyList_DeepCopy in_;
  mret (as_object AnAuthPolicyList c).
Definition RateLimitPolicy_DeepCopyObject (in_ : pointer Mem.RateLimitPolicy) :
    comp (option runtime_Object) :=
  c ← RateLimitPolicy_DeepCopy in_;
  mret (as_object ARateLimitPolicy c).
Definition RateLimitPolicyList_DeepCopyObject (in_ : pointer Mem.RateLimitPolicyList) :
    comp (option runtime_Object) :=
  c ← RateLimitPolicyList_DeepCopy in_;
  mret (as_object ARateLimitPolicyList c).

(** The method of the interface *)
Definition DeepCopyObject (o : runtime_Object) : comp (option runtime_Object) :=
  match o with
  | AnAuthPolicy p => AuthPolicy_DeepCopyObject p
  | AnAuthPolicyList p => AuthPolicyList_DeepCopyObject p
  | ARateLimitPolicy p => RateLimitPolicy_DeepCopyObject p
  | ARateLimitPolicyList p => RateLimitPolicyList_DeepCopyObject p
  end.

(** ** What the values stand for

    The records of the other files do without the kind and version of an object,
    and without the difference between nil and empty lists of conditions and
    rules; a copy keeps both. *)

Record rate_limit_policy_meaning := {
  rlp_type_meant : TypeMeta;
  rlp_meant : RateLimitPolicy;
  rlp_conditions_meant : slice Condition
}.
Record auth_policy_meaning := {
  ap_type_meant : TypeMeta;
  ap_meant : AuthPolicy;
  ap_rules_meant : slice (option AuthRule);
  ap_conditions_meant : slice Condition
}.

#[export] Instance denotes_RemoteAddressSpec : Denotes (cell:=cell) Mem.RemoteAddressSpec unit :=
  λ m v, Some tt.
#[export] Instance denotes_MetadataPathSegment :
    Denotes (cell:=cell) Mem.MetadataPathSegment MetadataPathSegment :=
  λ m v, Some {| segment_Key := Mem.psk_Key (Mem.Segment v) |}.

#[export] Instance denotes_GenericKeySpec :
    Denotes (cell:=cell) Mem.GenericKeySpec GenericKeySpec :=
  λ m v,
    key ← denotes m (Mem.DescriptorKey v);
    Some (Build_GenericKeySpec (Mem.DescriptorValue v) key).
#[export] Instance denotes_MetadataKeySpec :
    Denotes (cell:=cell) Mem.MetadataKeySpec MetadataKeySpec :=
  λ m v,
    path ← denotes m (Mem.Path v);
    Some (Build_MetadataKeySpec (Mem.Key v) path).
#[export] Instance denotes_MetadataSpec : Denotes (cell:=cell) Mem.MetadataSpec MetadataSpec :=
  λ m v,
    key ← denotes m (Mem.MetadataKey v);
    default_value ← denotes m (Mem.DefaultValue v);
    Some (Build_MetadataSpec (Mem.md_DescriptorKey v) key default_value (Mem.Source v)).
#[export] Instance denotes_RequestHeadersSpec :
    Denotes (cell:=cell) Mem.RequestHeadersSpec RequestHeadersSpec :=
  λ m v,
    skip ← denotes m (Mem.SkipIfAbsent v);
    Some (Build_RequestHeadersSpec (Mem.HeaderName v) (Mem.rh_DescriptorKey v) skip).
#[export] Instance denotes_ActionSpecifier :
    Denotes (cell:=cell) Mem.ActionSpecifier ActionSpecifier :=
  λ m v,
    key ← denotes m (Mem.GenericKey v);
    metadata ← denotes m (Mem.Metadata v);
    address ← denotes m (Mem.RemoteAddress v);
    headers ← denotes m (Mem.RequestHeaders v);
    Some (Build_ActionSpecifier key metadata address headers).
#[export] Instance denotes_Rule : Denotes (cell:=cell) Mem.Rule Rule :=
  λ m v,
    paths ← denotes m (Mem.Paths v);
    methods ← denotes m (Mem.Methods v);
    hosts ← denotes m (Mem.Hosts v);
    Some (Build_Rule paths methods hosts).
#[export] Instance denotes_Configuration : Denotes (cell:=cell) Mem.Configuration Configuration :=
  λ m v,
    actions ← denotes m (Mem.Actions v);
    Some (Build_Configuration actions).
#[export] Instance denotes_Limit : Denotes (cell:=cell) Mem.Limit Limit :=
  λ m v,
    conditions ← denotes m (Mem.Conditions v);
    variables ← denotes m (Mem.Variables v);
    Some (Build_Limit (Mem.MaxValue v) (Mem.Seconds v) conditions variables).
#[export] Instance denotes_RateLimit : Denotes (cell:=cell) Mem.RateLimit RateLimit :=
  λ m v,
    configurations ← denotes m (Mem.Configurations v);
    rules ← denotes m (Mem.Rules v);
    limits ← denotes m (Mem.Limits v);
    Some (Build_RateLimit configurations rules limits).
#[export] Instance denotes_GatewayRateLimits :
    Denotes (cell:=cell) Mem.GatewayRateLimits GatewayRateLimits :=
  λ m v,
    limits ← denotes m (Mem.grl_RateLimits v);
    Some (Build_GatewayRateLimits (Mem.GatewayName v) limits).
#[export] Instance denotes_RateLimitPolicySpec :
    Denotes (cell:=cell) Mem.RateLimitPolicySpec RateLimitPolicySpec :=
  λ m v,
    target ← denotes m (Mem.TargetRef v);
    limits ← denotes m (Mem.RateLimits v);
    Some (Build_RateLimitPolicySpec target limits).
#[export] Instance denotes_RateLimitPolicyStatus :
    Denotes (cell:=cell) Mem.RateLimitPolicyStatus (RateLimitPolicyStatus * slice Condition) :=
  λ m v,
    conditions ← denotes m (Mem.rlp_Conditions v);
    limits ← denotes m (Mem.rlp_GatewaysRateLimits v);
    Some (Build_RateLimitPolicyStatus (Mem.ObservedGeneration v) (elems conditions) limits,
          conditions).
#[export] Instance denotes_RateLimitPolicy :
    Denotes (cell:=cell) Mem.RateLimitPolicy rate_limit_policy_meaning :=
  λ m v,
    metadata ← denotes m (Mem.rlp_ObjectMeta v);
    spec ← denotes m (Mem.rlp_Spec v);
    status ← denotes m (Mem.rlp_Status v);
    Some {| rlp_type_meant := Mem.rlp_TypeMeta v; rlp_meant := Build_object metadata spec status.1;
            rlp_conditions_meant := status.2 |}.
#[export] Instance denotes_RateLimitPolicyList :
    Denotes (cell:=cell) Mem.RateLimitPolicyList
      (TypeMeta * ListMeta * slice rate_limit_policy_meaning) :=
  λ m v,
    metadata ← denotes m (Mem.rlps_ListMeta v);
    items ← denotes m (Mem.rlps_Items v);
    Some (Mem.rlps_TypeMeta v, metadata, items).
#[export] Instance denotes_AuthRule : Denotes (cell:=cell) Mem.AuthRule AuthRule :=
  λ m v,
    hosts ← denotes m (Mem.ar_Hosts v);
    methods ← denotes m (Mem.ar_Methods v);
    paths ← denotes m (Mem.ar_Paths v);
    Some (Build_AuthRule hosts methods paths).
#[export] Instance denotes_AuthPolicySpec :
    Denotes (cell:=cell) Mem.AuthPolicySpec (AuthPolicySpec * slice (option AuthRule)) :=
  λ m v,
    target ← denotes m (Mem.ap_TargetRef v);
    rules ← denotes m (Mem.AuthRules v);
    scheme ← denotes m (Mem.AuthScheme v);
    Some (Build_AuthPolicySpec target (elems rules) scheme, rules).
#[export] Instance denotes_AuthPolicyStatus :
    Denotes (cell:=cell) Mem.AuthPolicyStatus (AuthPolicyStatus * slice Condition) :=
  λ m v,
    conditions ← denotes m (Mem.ap_Conditions v);
    Some (Build_AuthPolicyStatus (Mem.ap_ObservedGeneration v) (elems conditions), conditions).
#[export] Instance denotes_AuthPolicy :
    Denotes (cell:=cell) Mem.AuthPolicy auth_policy_meaning :=
  λ m v,
    metadata ← denotes m (Mem.ap_ObjectMeta v);
    spec ← denotes m (Mem.ap_Spec v);
    status ← denotes m (Mem.ap_Status v);
    Some {| ap_type_meant := Mem.ap_TypeMeta v; ap_meant := Build_object metadata spec.1 status.1;
            ap_rules_meant := spec.2; ap_conditions_meant := status.2 |}.
#[export] Instance denotes_AuthPolicyList :
    Denotes (cell:=cell) Mem.AuthPolicyList (TypeMeta * ListMeta * slice auth_policy_meaning) :=
  λ m v,
    metadata ← denotes m (Mem.aps_ListMeta v);
    items ← denotes m (Mem.aps_Items v);
    Some (Mem.aps_TypeMeta v, metadata, items).

(** An object as the users of the other files see it *)
Inductive meaning :=
  | AuthPolicyMeaning (a : option auth_policy_meaning)
  | AuthPolicyListMeaning (a : option (TypeMeta * ListMeta * slice auth_policy_meaning))
  | RateLimitPolicyMeaning (a : option rate_limit_policy_meaning)
  | RateLimitPolicyListMeaning
      (a : option (TypeMeta * ListMeta * slice rate_limit_policy_meaning)).

#[export] Instance denotes_object : Denotes (cell:=cell) runtime_Object meaning := λ m o,
  match o with
  | AnAuthPolicy p => AuthPolicyMeaning <$> denotes m p
  | AnAuthPolicyList p => AuthPolicyListMeaning <$> denotes m p
  | ARateLimitPolicy p => RateLimitPolicyMeaning <$> denotes m p
  | ARateLimitPolicyList p => RateLimitPolicyListMeaning <$> denotes m p
  end.

(** ** The copies are faithful *)

Context `{FCok : !ForeignCopiesOk}.

#[local] Instance plain_RemoteAddressSpec : Plain (cell:=cell) Mem.RemoteAddressSpec unit.
Proof. done. Qed.
#[local] Instance plain_MetadataPathSegment :
  Plain (cell:=cell) Mem.MetadataPathSegment MetadataPathSegment.
Proof. done. Qed.

#[export] Instance denotes_GenericKeySpec_ok : DenotesOk Mem.GenericKeySpec GenericKeySpec.
Proof. struct_mono. Qed.
Lemma GenericKeySpec_DeepCopyInto_copies m (v : Mem.GenericKeySpec) a :
  denotes m v = Some a → copies (GenericKeySpec_DeepCopyInto v) m a.
Proof. revert m v a. struct_copies. Qed.
#[local] Hint Resolve GenericKeySpec_DeepCopyInto_copies : deepcopy.

#[export] Instance denotes_MetadataKeySpec_ok : DenotesOk Mem.MetadataKeySpec MetadataKeySpec.
Proof. struct_mono. Qed.
Lemma MetadataKeySpec_DeepCopyInto_copies m (v : Mem.MetadataKeySpec) a :
  denotes m v = Some a → copies (MetadataKeySpec_DeepCopyInto v) m a.
Proof. revert m v a. struct_copies. Qed.
#[local] Hint Resolve MetadataKeySpec_DeepCopyInto_copies : deepcopy.

#[export] Instance denotes_MetadataSpec_ok : DenotesOk Mem.MetadataSpec MetadataSpec.
Proof. struct_mono. Qed.
Lemma MetadataSpec_DeepCopyInto_copies m (v : Mem.MetadataSpec) a :
  denotes m v = Some a → copies (MetadataSpec_DeepCopyInto v) m a.
Proof. revert m v a. struct_copies. Qed.
#[local] Hint Resolve MetadataSpec_DeepCopyInto_copies : deepcopy.

#[export] Instance denotes_RequestHeadersSpec_ok :
  DenotesOk Mem.RequestHeadersSpec RequestHeadersSpec.
Proof. struct_mono. Qed.
Lemma RequestHeadersSpec_DeepCopyInto_copies m (v : Mem.RequestHeadersSpec) a :
  denotes m v = Some a → copies (RequestHeadersSpec_DeepCopyInto v) m a.
Proof. revert m v a. struct_copies. Qed.
#[local] Hint Resolve RequestHeadersSpec_DeepCopyInto_copies : deepcopy.

#[export] Instance denotes_ActionSpecifier_ok : DenotesOk Mem.ActionSpecifier ActionSpecifier.
Proof. struct_mono. Qed.
Lemma ActionSpecifier_DeepCopyInto_copies m (v : Mem.ActionSpecifier) a :
  denotes m v = Some a → copies (ActionSpecifier_DeepCopyInto v) m a.
Proof. revert m v a. struct_copies. Qed.
#[local] Hint Resolve ActionSpecifier_DeepCopyInto_copies : deepcopy.

#[export] Instance denotes_Rule_ok : DenotesOk Mem.Rule Rule.
Proof. struct_mono. Qed.
Lemma Rule_DeepCopyInto_copies m (v : Mem.Rule) a :
  denotes m v = Some a → copies (Rule_DeepCopyInto v) m a.
Proof. revert m v a. struct_copies. Qed.
#[local] Hint Resolve Rule_DeepCopyInto_copies : deepcopy.

#[export] Instance denotes_Configuration_ok : DenotesOk Mem.Configuration Configuration.
Proof. struct_mono. Qed.
Lemma Configuration_DeepCopyInto_copies m (v : Mem.Configuration) a :
  denotes m v = Some a → copies (Configuration_DeepCopyInto v) m a.
Proof. revert m v a. struct_copies. Qed.
#[local] Hint Resolve Configuration_DeepCopyInto_copies : deepcopy.

#[export] Instance denotes_Limit_ok : DenotesOk Mem.Limit Limit.
Proof. struct_mono. Qed.
Lemma Limit_DeepCopyInto_copies m (v : Mem.Limit) a :
  denotes m v = Some a → copies (Limit_DeepCopyInto v) m a.
Proof. revert m v a. struct_copies. Qed.
#[local] Hint Resolve Limit_DeepCopyInto_copies : deepcopy.

#[export] Instance denotes_RateLimit_ok : DenotesOk Mem.RateLimit RateLimit.
Proof. struct_mono. Qed.
Lemma RateLimit_DeepCopyInto_copies m (v : Mem.RateLimit) a :
  denotes m v = Some a → copies (RateLimit_DeepCopyInto v) m a.
Proof. revert m v a. struct_copies. Qed.
#[local] Hint Resolve RateLimit_DeepCopyInto_copies : deepcopy.

#[export] Instance denotes_GatewayRateLimits_ok : DenotesOk Mem.GatewayRateLimits GatewayRateLimits.
Proof. struct_mono. Qed.
Lemma GatewayRateLimits_DeepCopyInto_copies m (v : Mem.GatewayRateLimits) a :
  denotes m v = Some a → copies (GatewayRateLimits_DeepCopyInto v) m a.
Proof. revert m v a. struct_copies. Qed.
#[local] Hint Resolve GatewayRateLimits_DeepCopyInto_copies : deepcopy.

#[export] Instance denotes_RateLimitPolicySpec_ok :
  DenotesOk Mem.RateLimitPolicySpec RateLimitPolicySpec.
Proof. struct_mono. Qed.
Lemma RateLimitPolicySpec_DeepCopyInto_copies m (v : Mem.RateLimitPolicySpec) a :
  denotes m v = Some a → copies (RateLimitPolicySpec_DeepCopyInto v) m a.
Proof. revert m v a. struct_copies. Qed.
#[local] Hint Resolve RateLimitPolicySpec_DeepCopyInto_copies : deepcopy.

#[export] Instance denotes_RateLimitPolicyStatus_ok :
  DenotesOk Mem.RateLimitPolicyStatus (RateLimitPolicyStatus * slice Condition).
Proof. struct_mono. Qed.
Lemma RateLimitPolicyStatus_DeepCopyInto_copies m (v : Mem.RateLimitPolicyStatus) a :
  denotes m v = Some a → copies (RateLimitPolicyStatus_DeepCopyInto v) m a.
Proof. revert m v a. struct_copies. Qed.
#[local] Hint Resolve RateLimitPolicyStatus_DeepCopyInto_copies : deepcopy.

#[export] Instance denotes_RateLimitPolicy_ok :
  DenotesOk Mem.RateLimitPolicy rate_limit_policy_meaning.
Proof. struct_mono. Qed.
Lemma RateLimitPolicy_DeepCopyInto_copies m (v : Mem.RateLimitPolicy) a :
  denotes m v = Some a → copies (RateLimitPolicy_DeepCopyInto v) m a.
Proof. revert m v a. struct_copies. Qed.
#[local] Hint Resolve RateLimitPolicy_DeepCopyInto_copies : deepcopy.

#[export] Instance denotes_RateLimitPolicyList_ok :
  DenotesOk Mem.RateLimitPolicyList (TypeMeta * ListMeta * slice rate_limit_policy_meaning).
Proof. struct_mono. Qed.
Lemma RateLimitPolicyList_DeepCopyInto_copies m (v : Mem.RateLimitPolicyList) a :
  denotes m v = Some a → copies (RateLimitPolicyList_DeepCopyInto v) m a.
Proof. revert m v a. struct_copies. Qed.
#[local] Hint Resolve RateLimitPolicyList_DeepCopyInto_copies : deepcopy.

#[export] Instance denotes_AuthRule_ok : DenotesOk Mem.AuthRule AuthRule.
Proof. struct_mono. Qed.
Lemma AuthRule_DeepCopyInto_copies m (v : Mem.AuthRule) a :
  denotes m v = Some a → copies (AuthRule_DeepCopyInto v) m a.
Proof. revert m v a. struct_copies. Qed.
#[local] Hint Resolve AuthRule_DeepCopyInto_copies : deepcopy.

#[export] Instance denotes_AuthPolicySpec_ok : 
  DenotesOk Mem.AuthPolicySpec (AuthPolicySpec * slice (option AuthRule)).
Proof. struct_mono. Qed.
Lemma AuthPolicySpec_DeepCopyInto_copies m (v : Mem.AuthPolicySpec) a :
  denotes m v = Some a → copies (AuthPolicySpec_DeepCopyInto v) m a.
Proof. revert m v a. struct_copies. Qed.
#[local] Hint Resolve AuthPolicySpec_DeepCopyInto_copies : deepcopy.

#[export] Instance denotes_AuthPolicyStatus_ok : 
  DenotesOk Mem.AuthPolicyStatus (AuthPolicyStatus * slice Condition).
Proof. struct_mono. Qed.
Lemma AuthPolicyStatus_DeepCopyInto_copies m (v : Mem.AuthPolicyStatus) a :
  denotes m v = Some a → copies (AuthPolicyStatus_DeepCopyInto v) m a.
Proof. revert m v a. struct_copies. Qed.
#[local] Hint Resolve AuthPolicyStatus_DeepCopyInto_copies : deepcopy.

#[export] Instance denotes_AuthPolicy_ok : DenotesOk Mem.AuthPolicy auth_policy_meaning.
Proof. struct_mono. Qed.
Lemma AuthPolicy_DeepCopyInto_copies m (v : Mem.AuthPolicy) a :
  denotes m v = Some a → copies (AuthPolicy_DeepCopyInto v) m a.
Proof. revert m v a. struct_copies. Qed.
#[local] Hint Resolve AuthPolicy_DeepCopyInto_copies : deepcopy.

#[export] Instance denotes_AuthPolicyList_ok :
  DenotesOk Mem.AuthPolicyList (TypeMeta * ListMeta * slice auth_policy_meaning).
Proof. struct_mono. Qed.
Lemma AuthPolicyList_DeepCopyInto_copies m (v : Mem.AuthPolicyList) a :
  denotes m v = Some a → copies (AuthPolicyList_DeepCopyInto v) m a.
Proof. revert m v a. struct_copies. Qed.
#[local] Hint Resolve AuthPolicyList_DeepCopyInto_copies : deepcopy.

(** *** Objects *)

Definition nil_meaning (a : meaning) : Prop :=
  match a with
  | AuthPolicyMeaning None | AuthPolicyListMeaning None
  | RateLimitPolicyMeaning None | RateLimitPolicyListMeaning None => True
  | _ => False
  end.

(** A copy of an object: [nil] for a nil pointer, and otherwise an object that
    stands for the same by memory that is new, and is not a nil pointer. *)
Definition copied_object (m m' : gmap loc cell) (a : meaning) (c : option runtime_Object) : Prop :=
  match c with
  | None => nil_meaning a
  | Some o => ¬ nil_meaning a ∧ denotes (m' ∖ m) o = Some a
  end.

Lemma copied_as_object {T A} `{Cell cell T, Denotes (cell:=cell) T A} (deep : T → comp T)
    (object : pointer T → runtime_Object) (mean : option A → meaning) m p a :
  (∀ m p, denotes m (object p) = mean <$> denotes m p) →
  nil_meaning (mean None) → (∀ x, ¬ nil_meaning (mean (Some x))) →
  copies (copy_pointer deep p) m a →
  ∃ c m', (c ← copy_pointer deep p; mret (as_object object c)) m = Some (c, m') ∧ m ⊆ m' ∧
    copied_object m m' (mean a) c.
Proof.
  intros Hmean Hnil Hsome (p' & m' & Hp & Hm & Hd). exists (as_object object p'), m'.
  split; [unfold mbind, comp_bind; by rewrite Hp|]. split; [done|].
  unfold as_object. destruct (address p') as [l|] eqn:Hl; simpl.
  - split; [|by rewrite Hmean, Hd]. unfold denotes, denotes_pointer in Hd. rewrite Hl in Hd.
    apply bind_Some in Hd as ([x n] & _ & Hd). apply bind_Some in Hd as (y & _ & [= <-]).
    apply Hsome.
  - unfold denotes, denotes_pointer in Hd. rewrite Hl in Hd. by injection Hd as <-.
Qed.

Lemma DeepCopyObject_copies m (o : runtime_Object) a :
  denotes m o = Some a →
  ∃ c m', DeepCopyObject o m = Some (c, m') ∧ m ⊆ m' ∧ copied_object m m' a c.
Proof.
  destruct o as [p|p|p|p]; intros Hd;
    apply fmap_Some in Hd as (b & Hb & ->);
    eapply copied_as_object; try done; try exact I; try (by intros ? []);
    apply copy_pointer_copies; try done.
  - exact AuthPolicy_DeepCopyInto_copies.
  - exact AuthPolicyList_DeepCopyInto_copies.
  - exact RateLimitPolicy_DeepCopyInto_copies.
  - exact RateLimitPolicyList_DeepCopyInto_copies.
Qed.

#[export] Instance denotes_object_ok : DenotesOk runtime_Object meaning.
Proof.
  intros m m' [p|p|p|p] a Hm (b & Hb & ->)%fmap_Some; cbn;
    by rewrite (denotes_mono m m' p b Hm Hb).
Qed.
End deepcopy.

(** ** Properties *)

(** C21: a deep copy shares nothing with the original.  Copying an object - a
    policy of either kind or a list of them, as the client's cache hands them
    out - always succeeds and changes no memory there was.  The result is [nil]
    for a nil pointer and for nothing else; otherwise it stands for the same
    object, nil slices staying nil and empty ones empty, by memory allocated for
    it: whatever is written to the rest leaves it as it is, and whatever is
    written to it leaves the original as it is. *)
Theorem DeepCopyObject_independent (F : ForeignTypes) (FC : ForeignCopies)
    (FCok : ForeignCopiesOk) (m : gmap loc cell) (o : runtime_Object) (a : meaning)
    (Ho : denotes m o = Some a) :
  ∃ c m', DeepCopyObject o m = Some (c, m') ∧ m ⊆ m' ∧ copied_object m m' a c ∧
    (∀ w, m ⊆ w → denotes w o = Some a) ∧
    ∀ o', c = Some o' → ∀ w, m' ∖ m ⊆ w → denotes w o' = Some a.
Proof.
  destruct (DeepCopyObject_copies m o a Ho) as (c & m' & Hc & Hm & Hd).
  exists c, m'. split; [done|]. split; [done|]. split; [done|]. split.
  - intros w Hw. by eapply denotes_mono.
  - intros o' -> w Hw. destruct Hd as [_ Hd]. by eapply denotes_mono.
Qed.

(** *** A policy in memory *)

(** Metadata with a map of annotations, a reference with an optional namespace,
    an authentication scheme with a slice of hosts *)
Record sample_meta := { sm_Name : string; sm_Annotations : pointer (gmap string string) }.
Record sample_reference := { sr_Name : string; sr_Namespace : pointer string }.
Record sample_scheme := { ss_Hosts : mslice string; ss_Rest : string }.

#[export] Instance sample_types : ForeignTypes := {|
  mObjectMeta := sample_meta; mListMeta := string; mCondition := Condition;
  mTargetReference := sample_reference; mAuthConfigSpec := sample_scheme;
  foreign_cell := list (gmap string string); ListMeta := string;
  zero_ObjectMeta := {| sm_Name := empty_string; sm_Annotations := Pointer None |};
  zero_ListMeta := empty_string;
  zero_Condition := {| cond_Type := empty_string; cond_Status := empty_string;
    cond_ObservedGeneration := 0; cond_LastTransitionTime := 0; cond_Reason := empty_string;
    cond_Message := empty_string |};
  zero_TargetReference := {| sr_Name := empty_string; sr_Namespace := Pointer None |};
  zero_AuthConfigSpec := {| ss_Hosts := Slice None; ss_Rest := empty_string |}
|}.

#[export] Instance cell_annotations : Cell (cell (F:=sample_types)) (gmap string string) := {|
  inject l := CForeign l; project c := match c with CForeign l => Some l | _ => None end;
  project_inject _ := eq_refl; zero := ∅
|}.

Section sample.
Local Abbreviation comp := (comp (cell:=cell (F:=sample_types))).
Local Abbreviation Denotes := (Denotes (cell:=cell (F:=sample_types))).

#[export] Instance denotes_annotations : Denotes (gmap string string) (gmap string string) := plain.
#[export] Instance plain_annotations : Plain (gmap string string) (gmap string string).
Proof. done. Qed.
#[export] Instance denotes_Condition : Denotes Condition Condition := plain.
#[export] Instance plain_Condition : Plain Condition Condition.
Proof. done. Qed.

#[export] Instance denotes_meta : Denotes sample_meta ObjectMeta := λ m v,
  annotations ← denotes m (sm_Annotations v);
  Some (meta_set_annotations (new_meta (sm_Name v) "ns") annotations).
#[export] Instance denotes_reference : Denotes sample_reference PolicyTargetReference := λ m v,
  ns ← denotes m (sr_Namespace v);
  Some {| tr_Group := "gateway.networking.k8s.io"; tr_Kind := "HTTPRoute";
          tr_Name := sr_Name v; tr_Namespace := ns |}.
#[export] Instance denotes_scheme : Denotes sample_scheme AuthConfigSpec := λ m v,
  hosts ← denotes m (ss_Hosts v);
  Some {| acs_Hosts := elems hosts; acs_rest := ss_Rest v |}.

Definition copy_meta (v : sample_meta) : comp sample_meta :=
  annotations ← copy_pointer assign (sm_Annotations v);
  mret {| sm_Name := sm_Name v; sm_Annotations := annotations |}.
Definition copy_reference (v : sample_reference) : comp sample_reference :=
  ns ← copy_pointer assign (sr_Namespace v);
  mret {| sr_Name := sr_Name v; sr_Namespace := ns |}.
Definition copy_scheme (v : sample_scheme) : comp sample_scheme :=
  hosts ← copy_slice assign (ss_Hosts v);
  mret {| ss_Hosts := hosts; ss_Rest := ss_Rest v |}.

#[export] Instance sample_copies : ForeignCopies (F:=sample_types) := {|
  ObjectMeta_denotes := denotes_meta; ObjectMeta_copies := copy_meta;
  ListMeta_denotes := denotes_string; ListMeta_copies := assign;
  Condition_denotes := denotes_Condition; Condition_copies := assign;
  TargetReference_denotes := denotes_reference; TargetReference_copies := copy_reference;
  AuthConfigSpec_denotes := denotes_scheme; AuthConfigSpec_copies := copy_scheme
|}.

#[export] Instance denotes_meta_ok : DenotesOk sample_meta ObjectMeta.
Proof. struct_mono. Qed.
Lemma copy_meta_copies m (v : sample_meta) a : denotes m v = Some a → copies (copy_meta v) m a.
Proof. revert m v a. struct_copies. Qed.

#[export] Instance denotes_reference_ok : DenotesOk sample_reference PolicyTargetReference.
Proof. struct_mono. Qed.
Lemma copy_reference_copies m (v : sample_reference) a :
  denotes m v = Some a → copies (copy_reference v) m a.
Proof. revert m v a. struct_copies. Qed.

#[export] Instance denotes_scheme_ok : DenotesOk sample_scheme AuthConfigSpec.
Proof. struct_mono. Qed.
Lemma copy_scheme_copies m (v : sample_scheme) a :
  denotes m v = Some a → copies (copy_scheme v) m a.
Proof. revert m v a. struct_copies. Qed.

#[export] Instance sample_copies_ok : ForeignCopiesOk (FC:=sample_copies).
Proof.
  split;
    first [exact plain_denotes_ok|exact denotes_meta_ok|exact denotes_reference_ok
          |exact denotes_scheme_ok|exact assign_copies|exact copy_meta_copies
          |exact copy_reference_copies|exact copy_scheme_copies].
Defined.

(** A policy with an annotation, a namespace in its target, and one rate limit
    with one configuration, one rule and one limit. *)
Definition sample_memory : gmap loc cell := list_to_map
  [(0%nat, CForeign [ {["owner" := "ops"]} : gmap string string ]);
   (1%nat, CString ["ns"]);
   (2%nat, CString ["/a"; "/b"; "/c"]);
   (3%nat, CRule [Mem.Build_Rule (Slice (Some {| sl_array := 2; sl_offset := 1; sl_length := 2 |}))
                    (Slice None)
                    (Slice (Some {| sl_array := 2; sl_offset := 0; sl_length := 0 |}))]);
   (4%nat, CGenericKeySpec [Mem.Build_GenericKeySpec "v" (Pointer (Some 1%nat))]);
   (5%nat, CActionSpecifier [Mem.Build_ActionSpecifier (Pointer (Some 4%nat)) (Pointer None)
                               (Pointer None) (Pointer None)]);
   (6%nat, CConfiguration [Mem.Build_Configuration (Slice (Some (one 5)))]);
   (7%nat, CLimit [Mem.Build_Limit 10 60 (Slice None) (Slice None)]);
   (8%nat, CRateLimit [Mem.Build_RateLimit (Slice (Some (one 6))) (Slice (Some (one 3)))
                         (Slice (Some (one 7)))]);
   (9%nat, CRateLimitPolicy [Mem.Build_RateLimitPolicy
             {| tm_Kind := "RateLimitPolicy"; tm_APIVersion := "apim.kuadrant.io/v1alpha1" |}
             {| sm_Name := "rlp"; sm_Annotations := Pointer (Some 0%nat) |}
             (Mem.Build_RateLimitPolicySpec
                {| sr_Name := "route"; sr_Namespace := Pointer (Some 1%nat) |}
                (Slice (Some (one 8))))
             (Mem.Build_RateLimitPolicyStatus 1 (Slice None) (Slice None))])].

Definition sample_object : runtime_Object := ARateLimitPolicy (Pointer (Some 9%nat)).

(** The annotations of the copy are written, and then read in both. *)
Definition annotate (o : runtime_Object) (m : gmap loc cell) : option (gmap loc cell) :=
  match o with
  | ARateLimitPolicy p =>
      l ← address p; '(x, _) ← element (T:=Mem.RateLimitPolicy) (one l) 0 m;
      a ← address (sm_Annotations (Mem.rlp_ObjectMeta x));
      Some (<[a := CForeign [ {["owner" := "dev"]} ]]> m)
  | _ => None
  end.

Definition owner (m : gmap loc cell) (o : runtime_Object) : option string :=
  match denotes m o with
  | Some (RateLimitPolicyMeaning (Some x)) => entries (GetAnnotations (rlp_meant x)) !! "owner"
  | _ => None
  end.

Definition sample_copy : runtime_Object * gmap loc cell :=
  match DeepCopyObject sample_object sample_memory with
  | Some (Some o, m) => (o, m)
  | _ => (sample_object, ∅)
  end.

Lemma DeepCopyObject_independent_witness :
  denotes sample_copy.2 sample_copy.1 = denotes sample_memory sample_object ∧
  (w ← annotate sample_copy.1 sample_copy.2;
   Some (owner w sample_copy.1, owner w sample_object)) = Some (Some "dev", Some "ops").
Proof.
  split; [|vm_compute; reflexivity].
  destruct (denotes sample_memory sample_object) as [a|] eqn:Ha; [|by vm_compute in Ha].
  destruct (DeepCopyObject_independent sample_types sample_copies sample_copies_ok sample_memory
    sample_object a Ha) as (c & m' & Hc & Hm & _ & _ & Hcopy).
  assert (DeepCopyObject sample_object sample_memory = Some (Some sample_copy.1, sample_copy.2))
    as Heq by (vm_compute; reflexivity).
  revert Heq. generalize sample_copy. intros r Heq. rewrite Heq in Hc. injection Hc as <- <-.
  apply (Hcopy _ eq_refl). apply map_subseteq_difference_l. reflexivity.
Defined.
End sample.
