(* ===== verification/Hostname.v ===== *)
(** * Host names and wildcard subsets (pkg/common/hostname.go, common.go)

    [SubsetOf] is proved to decide inclusion of the sets of host names two
    (possibly wildcarded) names stand for; [ValidSubdomains] is the constraint
    both controllers put on the hosts of a policy. *)
From S2P Require Import Prelude GoStrings.

(** ** The code *)

Definition IsWildCarded (n : string) : bool :=
  match n with
  | EmptyString => false
  | String c _ => bool_decide (c = "*"%char)
  end.

Definition SubsetOf (n o : string) : bool :=
  let hWildcard := IsWildCarded n in
  let oWildcard := IsWildCarded o in
  if hWildcard then
    if oWildcard then
      if (String.length n <? String.length o)%nat then false
      else HasSuffix (string_tail n) (string_tail o)
    else false
  else if oWildcard then HasSuffix n (string_tail o)
  else bool_decide (n = o).

(** The inner loop of [ValidSubdomains], with its [break]. *)
Fixpoint subset_of_some (domains : list string) (subdomain : string) : bool :=
  match domains with
  | [] => false
  | domain :: domains =>
      if SubsetOf subdomain domain then true
      else subset_of_some domains subdomain
  end.

Fixpoint ValidSubdomains (domains subdomains : list string) : bool * string :=
  match subdomains with
  | [] => (true, empty_string)
  | subdomain :: subdomains =>
      if negb (subset_of_some domains subdomain) then (false, subdomain)
      else ValidSubdomains domains subdomains
  end.

(** ** The hosts a name stands for

    A name that begins with a star stands for every string that ends in what
    follows the star, any other name for itself. *)
Definition covers (n h : string) : Prop :=
  (∃ rest, n = String "*" rest ∧ ∃ p, h = p +:+ rest) ∨
  ((∀ rest, n ≠ String "*" rest) ∧ h = n).

Lemma wildcard_tail n : IsWildCarded n = true → n = String "*" (string_tail n).
Proof.
  destruct n as [|c n]; simpl; [done|]. intros Hc.
  apply bool_decide_eq_true in Hc. by subst.
Qed.

Lemma wildcard_length n :
  IsWildCarded n = true → String.length n = S (String.length (string_tail n)).
Proof. intros Hn. by rewrite (wildcard_tail n Hn) at 1. Qed.

Lemma covers_wildcard n h :
  IsWildCarded n = true → covers n h ↔ ∃ p, h = p +:+ string_tail n.
Proof.
  intros Hn%wildcard_tail. unfold covers. split.
  - intros [(rest & Hr & Hp)|[Hr _]]; [by subst n|by destruct (Hr _ Hn)].
  - intros Hp. left. eauto.
Qed.

Lemma covers_plain n h : IsWildCarded n = false → covers n h ↔ h = n.
Proof.
  intros Hn. assert (∀ rest, n ≠ String "*" rest) as Hr by (by intros rest ->).
  unfold covers. split.
  - intros [(rest & Heq & _)|[_ ->]]; [by destruct (Hr rest)|done].
  - intros ->. by right.
Qed.

(** If the hosts ending in [s] all end in [t], then [s] ends in [t]. *)
Lemma suffix_of_extensions s t :
  (∀ p, ∃ q, p +:+ s = q +:+ t) → ∃ p, s = p +:+ t.
Proof.
  intros H. destruct (H empty_string) as [q Hq]. by exists q.
Qed.

Lemma SubsetOf_covers n o :
  SubsetOf n o = true ↔ ∀ h, covers n h → covers o h.
Proof.
  unfold SubsetOf.
  destruct (IsWildCarded n) eqn:Hn; destruct (IsWildCarded o) eqn:Ho.
  - setoid_rewrite (covers_wildcard n); [|done].
    setoid_rewrite (covers_wildcard o); [|done].
    pose proof (wildcard_length n Hn) as Ln. pose proof (wildcard_length o Ho) as Lo.
    destruct (Nat.ltb_spec (String.length n) (String.length o)) as [Hlt|Hge].
    + split; [done|]. intros H. exfalso.
      destruct (suffix_of_extensions (string_tail n) (string_tail o)) as [p Hp].
      { intros p. destruct (H (p +:+ string_tail n)) as [q Hq]; eauto. }
      apply (f_equal String.length) in Hp.
      rewrite string_length_app in Hp. lia.
    + rewrite HasSuffix_spec. split.
      * intros [p Hp] h [q ->]. exists (q +:+ p). by rewrite string_app_assoc, <- Hp.
      * intros H. apply suffix_of_extensions. intros p. apply H. eauto.
  - setoid_rewrite (covers_wildcard n); [|done].
    setoid_rewrite (covers_plain o); [|done]. split; [done|]. intros H.
    pose proof (H (string_tail n) (ex_intro _ empty_string eq_refl)) as H1.
    pose proof (H (String "a" empty_string +:+ string_tail n)
                  (ex_intro _ _ eq_refl)) as H2.
    rewrite <- H1 in H2. apply (f_equal String.length) in H2.
    rewrite string_length_app in H2. simpl in H2. lia.
  - setoid_rewrite (covers_plain n); [|done].
    setoid_rewrite (covers_wildcard o); [|done].
    rewrite HasSuffix_spec. naive_solver.
  - setoid_rewrite (covers_plain n); [|done].
    setoid_rewrite (covers_plain o); [|done].
    rewrite bool_decide_eq_true. naive_solver.
Qed.

Lemma subset_of_some_spec domains s :
  subset_of_some domains s = true ↔ ∃ d, d ∈ domains ∧ SubsetOf s d = true.
Proof.
  induction domains as [|d domains IH]; simpl.
  - split; [done|]. by intros (d & ?%not_elem_of_nil & _).
  - setoid_rewrite elem_of_cons. destruct (SubsetOf s d) eqn:E.
    + split; [|done]. eauto.
    + rewrite IH. split; [naive_solver|]. intros (x & [->|Hx] & Hs); [congruence|eauto].
Qed.

(** Whatever [ValidSubdomains] answers is right: on success every subdomain is
    below some domain; on failure the reported name is the first one that is
    not. *)
Lemma ValidSubdomains_cases domains subs :
  (ValidSubdomains domains subs = (true, empty_string) ∧
    ∀ s, s ∈ subs → subset_of_some domains s = true) ∨
  (∃ pre s post, subs = pre ++ s :: post ∧
    ValidSubdomains domains subs = (false, s) ∧
    subset_of_some domains s = false ∧
    ∀ x, x ∈ pre → subset_of_some domains x = true).
Proof.
  induction subs as [|s subs IH]; simpl.
  - left. split; [done|]. by intros s ?%not_elem_of_nil.
  - destruct (subset_of_some domains s) eqn:E; simpl.
    + destruct IH as [[-> H]|(pre & t & post & -> & -> & Ht & H)].
      * left. split; [done|]. by intros x [->|?%H]%elem_of_cons.
      * right. exists (s :: pre), t, post. repeat split; [done|].
        by intros x [->|?%H]%elem_of_cons.
    + right. exists [], s, subs. repeat split; [done|].
      by intros x ?%not_elem_of_nil.
Qed.

#[export] Instance covers_subset_preorder :
  PreOrder (λ n o, ∀ h, covers n h → covers o h).
Proof. split; [by intros ? ?|intros x y z; naive_solver]. Qed.

(** ** Properties *)

(** C29: [SubsetOf] decides inclusion: it answers true exactly when every host
    name the first name stands for is one the second stands for, where a name
    that begins with a star stands for everything that ends in what follows the
    star ([*] alone for every name), and any other name for itself. *)
Theorem SubsetOf_decides_inclusion (n o : string) :
  SubsetOf n o = true ↔ ∀ h, covers n h → covers o h.
Proof. apply SubsetOf_covers. Qed.

(** C28: [ValidSubdomains] accepts exactly the lists whose every name is, as a
    set of hosts, inside one of the domains; otherwise it names the first
    offender. *)
Theorem ValidSubdomains_correct (domains subs : list string) :
  (ValidSubdomains domains subs = (true, empty_string) ↔
     ∀ s, s ∈ subs → ∃ d, d ∈ domains ∧ ∀ h, covers s h → covers d h) ∧
  (∀ s, ValidSubdomains domains subs = (false, s) →
     ∃ pre post, subs = pre ++ s :: post ∧
       (∀ x, x ∈ pre → ∃ d, d ∈ domains ∧ SubsetOf x d = true) ∧
       ∀ d, d ∈ domains → ¬ ∀ h, covers s h → covers d h).
Proof.
  setoid_rewrite <- SubsetOf_covers.
  setoid_rewrite <- subset_of_some_spec.
  destruct (ValidSubdomains_cases domains subs)
    as [[-> H]|(pre & t & post & -> & -> & Ht & H)].
  - naive_solver.
  - split; [split; [done|]|].
    + intros Hall. rewrite Hall in Ht; set_solver.
    + intros s [= <-]. exists pre, post. split; [done|]. split; [done|].
      intros d Hd Hs. assert (subset_of_some domains t = true); [|congruence].
      apply subset_of_some_spec; eauto.
Qed.
