(* ===== verification/CommonUtils.v ===== *)
(** * Shared helpers (pkg/common/common.go, k8s_utils.go,
      apimachinery_status_conditions.go)

    Encodings of object keys and limit namespaces, lists of keys, the deletion
    tag, map merging and the ordering of status conditions. *)
From S2P Require Import Prelude GoStrings KubeTypes.

(** ** Constants *)

Definition KuadrantNamespace : string := "kuadrant-system".
Definition KuadrantRateLimitClusterName : string := "kuadrant-rate-limiting-service".
Definition KuadrantRateLimitPolicyRefAnnotation : string := "kuadrant.io/ratelimitpolicies".
Definition RateLimitPolicyBackRefAnnotation : string :=
  "kuadrant.io/ratelimitpolicy-direct-backref".
Definition AuthPolicyBackRefAnnotation : string := "kuadrant.io/authpolicy-backref".
Definition NamespaceSeparator : ascii := "/".
Definition DeleteTagAnnotation : string := "kuadrant.io/delete".

(** [os.LookupEnv] is the argument [env]. *)
Definition FetchEnv (env : string → option string) (key def : string) : string :=
  match env key with
  | None => def
  | Some val => val
  end.

(** ** Keys as text *)

Definition NamespacedNameToObjectKey (namespacedName defaultNamespace : string) : ObjectKey :=
  match Split namespacedName "/" with
  | [ns; name] => {| Name := name; Namespace := ns |}
  | name :: _ => {| Namespace := defaultNamespace; Name := name |}
  | [] => {| Namespace := defaultNamespace; Name := empty_string |}
  end.

Definition UnMarshallObjectKey (keyStr : string) : outcome ObjectKey :=
  match Split keyStr NamespaceSeparator with
  | ns :: name :: _ => Ok {| Namespace := ns; Name := name |}
  | _ => Err (ErrText ("failed to split on /: '" +:+ keyStr +:+ "'"))
  end.

Definition MarshallNamespace (gwKey : ObjectKey) (domain : string) : string :=
  Namespace gwKey +:+ String "/" (Name gwKey +:+ String "#" domain).

Definition UnMarshallLimitNamespace (ns : string) : outcome (ObjectKey * string) :=
  match Split ns "#" with
  | [key; domain] =>
      (gwKey <-? UnMarshallObjectKey key ;; Ok (gwKey, domain))%go
  | _ => Err (ErrText "failed to split on #")
  end.

(** ** Lists *)

Fixpoint Contains (slice : list string) (target : string) : bool :=
  match slice with
  | [] => false
  | x :: slice => if decide (x = target) then true else Contains slice target
  end.

Fixpoint ContainsObjectKey (a : list ObjectKey) (x : ObjectKey) : bool :=
  match a with
  | [] => false
  | n :: a => if decide (x = n) then true else ContainsObjectKey a x
  end.

Fixpoint FindObjectKey (a : list ObjectKey) (x : ObjectKey) : nat :=
  match a with
  | [] => 0
  | n :: a => if decide (x = n) then 0 else S (FindObjectKey a x)
  end.

Definition ObjectKeyListDifference (a b : list ObjectKey) : list ObjectKey :=
  let target : gmap ObjectKey bool := foldl (λ m x, <[x:=true]> m) ∅ b in
  foldl (λ result x, match target !! x with
                     | None => result ++ [x]
                     | Some _ => result
                     end) [] a.

Definition HostnamesToStrings (hostnames : list string) : list string :=
  foldl (λ hosts h, hosts ++ [h]) [] hostnames.

(** ** Maps *)

(** The loop over [desired] threads [existing] and [modified]. *)
Definition MergeMapStringString `{MapRange} (existing : gomap string)
    (desired : gmap string string) : gomap string * bool :=
  let step (st : gmap string string * bool) (kv : string * string) :=
    match st.1 !! kv.1 with
    | Some existingVal =>
        if decide (kv.2 = existingVal) then st else (<[kv.1:=kv.2]> st.1, true)
    | None => (<[kv.1:=kv.2]> st.1, true)
    end in
  let '(m, modified) := foldl step (entries existing, false) (map_range desired) in
  (Some m, modified).

(** ** The deletion tag *)

Definition TagObjectToDelete {Sp St} (o : object Sp St) : object Sp St :=
  SetAnnotations o (<[DeleteTagAnnotation:="true"]> (entries (GetAnnotations o))).

Definition IsObjectTaggedToDelete {Sp St} (o : object Sp St) : bool :=
  match GetAnnotations o with
  | None => false
  | Some annotations =>
      match annotations !! DeleteTagAnnotation with
      | Some annotation => bool_decide (annotation = "true")
      | None => false
      end
  end.

(** ** Status conditions *)

Definition CopyConditions (conditions : list Condition) : list Condition :=
  foldl (λ new c, new ++ [c]) [] conditions.

(** [json.Marshal] of a slice of conditions is a parameter. *)
Class ConditionCodec := json_marshal_conditions : slice Condition → outcome string.

Definition condition_less (a b : Condition) : bool :=
  String.ltb (cond_Type a) (cond_Type b).

Definition ConditionMarshal `{GoSort, ConditionCodec} (conditions : list Condition) :
  outcome string :=
  let condCopy := slice_append None conditions in
  json_marshal_conditions (go_sort condition_less <$> condCopy).

Definition StatusConditionsMarshalJSON `{GoSort, ConditionCodec} (input : list Condition) :
  outcome string :=
  let conds := foldl (λ acc c, acc ++ [c]) [] input in
  json_marshal_conditions (Some (go_sort condition_less conds)).

(** ** Lemmas *)

Lemma CopyConditions_id l : CopyConditions l = l.
Proof. apply foldl_snoc. Qed.

Lemma HostnamesToStrings_id l : HostnamesToStrings l = l.
Proof. apply foldl_snoc. Qed.

Lemma ContainsObjectKey_elem a x : ContainsObjectKey a x = true ↔ x ∈ a.
Proof.
  induction a as [|n a IH]; simpl.
  - split; [done|]. by intros ?%not_elem_of_nil.
  - rewrite elem_of_cons. case_decide; [naive_solver|]. rewrite IH. naive_solver.
Qed.

Lemma ContainsObjectKey_false a x : ContainsObjectKey a x = false ↔ x ∉ a.
Proof. rewrite <- ContainsObjectKey_elem. by destruct (ContainsObjectKey a x). Qed.

Lemma Contains_elem l x : Contains l x = true ↔ x ∈ l.
Proof.
  induction l as [|n l IH]; simpl.
  - split; [done|]. by intros ?%not_elem_of_nil.
  - rewrite elem_of_cons. case_decide; [naive_solver|]. rewrite IH. naive_solver.
Qed.

(** The index is the first one, or the length. *)
Lemma FindObjectKey_spec a x :
  (FindObjectKey a x < length a ∧ a !! FindObjectKey a x = Some x ∧
     x ∉ take (FindObjectKey a x) a) ∨
  (FindObjectKey a x = length a ∧ x ∉ a).
Proof.
  induction a as [|n a IH]; simpl.
  - right. split; [done|]. apply not_elem_of_nil.
  - case_decide as Hn; simpl.
    + left. subst. repeat split; [lia|apply not_elem_of_nil].
    + rewrite !not_elem_of_cons. destruct IH as [(H1 & H2 & H3)|[H1 H2]].
      * left. repeat split; auto with lia.
      * right. auto with lia.
Qed.

(** Removing what [FindObjectKey] finds removes the first occurrence. *)
Lemma remove_found a x :
  x ∈ a →
  ∃ l1 l2, a = l1 ++ x :: l2 ∧ x ∉ l1 ∧ remove_at (FindObjectKey a x) a = l1 ++ l2.
Proof.
  intros Hx. destruct (FindObjectKey_spec a x) as [(Hlt & Hl & Hn)|[_ ?]]; [|done].
  exists (take (FindObjectKey a x) a), (drop (S (FindObjectKey a x)) a).
  repeat split; [|done]. by rewrite take_drop_middle.
Qed.

Lemma FindObjectKey_length a x : FindObjectKey a x = length a ↔ x ∉ a.
Proof.
  destruct (FindObjectKey_spec a x) as [(Hlt & Hl & Hn)|[? ?]]; [|naive_solver].
  split; [lia|]. intros []. by eapply list_elem_of_lookup_2.
Qed.

Lemma ObjectKeyListDifference_filter a b :
  ObjectKeyListDifference a b = filter (λ x, x ∉ b) a.
Proof.
  unfold ObjectKeyListDifference.
  set (target := foldl _ _ b).
  assert (Ht : ∀ x, target !! x = None ↔ x ∉ b).
  { subst target. cut (∀ (m : gmap ObjectKey bool) x,
      foldl (λ m x, <[x:=true]> m) m b !! x = None ↔ m !! x = None ∧ x ∉ b).
    { intros H x. rewrite H. rewrite lookup_empty. naive_solver. }
    induction b as [|y b IH]; intros m x; simpl.
    - split; [|naive_solver]. intros ->. split; [done|]. apply not_elem_of_nil.
    - rewrite IH, not_elem_of_cons, lookup_insert_None. naive_solver. }
  cut (∀ acc, foldl (λ result x, match target !! x with
                     | None => result ++ [x] | Some _ => result end) acc a
              = acc ++ filter (λ x, x ∉ b) a).
  { intros H. by rewrite H. }
  induction a as [|x a IH]; intros acc; simpl; [by rewrite app_nil_r|].
  rewrite IH. destruct (target !! x) eqn:E.
  - rewrite filter_cons_False; [done|]. rewrite <- Ht, E. done.
  - rewrite filter_cons_True by (by apply Ht). by rewrite <- app_assoc.
Qed.

Lemma UnMarshallObjectKey_ok s k :
  UnMarshallObjectKey s = Ok k →
  has_byte "/" (Namespace k) = false ∧ has_byte "/" (Name k) = false.
Proof.
  unfold UnMarshallObjectKey. pose proof (Split_parts s NamespaceSeparator) as HP.
  destruct (Split s NamespaceSeparator) as [|ns [|name rest]]; [done..|].
  intros [= <-]. inversion HP as [|?? Hns HP']. by inversion HP'.
Qed.

(** The keys and domains that survive the encoding of a limit namespace. *)
Definition marshallable (k : ObjectKey) (domain : string) : Prop :=
  has_byte "#" (Namespace k) = false ∧ has_byte "/" (Namespace k) = false ∧
  has_byte "#" (Name k) = false ∧ has_byte "/" (Name k) = false ∧
  has_byte "#" domain = false.

#[export] Instance marshallable_dec k d : Decision (marshallable k d).
Proof. unfold marshallable. apply _. Defined.

Lemma UnMarshall_Marshall k d :
  marshallable k d → UnMarshallLimitNamespace (MarshallNamespace k d) = Ok (k, d).
Proof.
  intros (H1 & H2 & H3 & H4 & H5). unfold UnMarshallLimitNamespace, MarshallNamespace.
  rewrite <- string_app_cons, <- string_app_assoc, Split_first, Split_none;
    [|done|by rewrite has_byte_app; simpl; rewrite H1, H3].
  unfold UnMarshallObjectKey, NamespaceSeparator.
  rewrite Split_first, Split_none by done. by destruct k.
Qed.

Lemma UnMarshall_marshallable s k d :
  UnMarshallLimitNamespace s = Ok (k, d) → marshallable k d.
Proof.
  unfold UnMarshallLimitNamespace.
  destruct (Split s "#") as [|key [|dom [|]]] eqn:E; try done. simpl.
  apply Split_two in E as (-> & Hk & Hd).
  unfold UnMarshallObjectKey. pose proof (Split_parts key NamespaceSeparator) as HP.
  pose proof (Join_Split key NamespaceSeparator) as HJ.
  destruct (Split key NamespaceSeparator) as [|ns [|name rest]]; [done..|].
  simpl. intros [= <- <-]. inversion HP as [|?? Hns HP']. inversion HP' as [|?? Hn _].
  rewrite <- HJ in Hk. simpl in Hk.
  destruct rest; rewrite ?has_byte_app in Hk; simpl in Hk;
    rewrite ?has_byte_app in Hk; unfold marshallable; simpl;
    repeat match goal with H : _ || _ = false |- _ => apply orb_false_iff in H as [??] end;
    done.
Qed.

#[export] Hint Resolve UnMarshall_marshallable : kuadrant.

(** Merging: the loop invariant over the entries seen so far. *)
Definition merge_step (st : gmap string string * bool) (kv : string * string) :=
  match st.1 !! kv.1 with
  | Some existingVal =>
      if decide (kv.2 = existingVal) then st else (<[kv.1:=kv.2]> st.1, true)
  | None => (<[kv.1:=kv.2]> st.1, true)
  end.

Lemma merge_step_spec m b k v :
  merge_step (m, b) (k, v) = (<[k:=v]> m, b || bool_decide (m !! k ≠ Some v)).
Proof.
  unfold merge_step. simpl. destruct (m !! k) as [w|] eqn:E.
  - case_decide as Hv.
    + subst. rewrite insert_id by done. rewrite bool_decide_false by naive_solver.
      by rewrite orb_false_r.
    + rewrite bool_decide_true by naive_solver. by rewrite orb_true_r.
  - rewrite bool_decide_true by done. by rewrite orb_true_r.
Qed.

Lemma merge_loop l m b :
  NoDup l.*1 →
  foldl merge_step (m, b) l =
    (list_to_map l ∪ m, b || existsb (λ kv, bool_decide (m !! kv.1 ≠ Some kv.2)) l).
Proof.
  revert m b. induction l as [|[k v] l IH]; intros m b Hnd; cbn [foldl].
  - simpl. by rewrite (left_id ∅ (∪)), orb_false_r.
  - inversion Hnd as [|?? Hk Hnd']; subst. rewrite merge_step_spec, IH by done.
    f_equal.
    + simpl. rewrite <- insert_union_l, insert_union_r; [done|].
      by apply not_elem_of_list_to_map_1.
    + simpl. rewrite <- orb_assoc. f_equal. f_equal.
      clear IH Hnd Hnd'. induction l as [|[k' v'] l IH]; [done|]. simpl.
      apply not_elem_of_cons in Hk as [Hne Hk]. simpl in Hne.
      rewrite lookup_insert_ne by done. by rewrite IH.
Qed.

Lemma MergeMapStringString_spec `{MapRangeOk} (existing : gomap string) desired :
  MergeMapStringString existing desired =
    (Some (desired ∪ entries existing), bool_decide (¬ desired ⊆ entries existing)).
Proof.
  unfold MergeMapStringString. fold merge_step.
  change (foldl _ _ _) with (foldl merge_step (entries existing, false) (map_range desired)).
  rewrite merge_loop by apply NoDup_map_range. simpl. f_equal.
  - do 2 f_equal. rewrite <- (list_to_map_to_list desired) at 2.
    apply list_to_map_proper; [apply NoDup_map_range|apply map_range_perm].
  - destruct (existsb _ _) eqn:E; symmetry.
    + apply existsb_exists in E
        as ([k v] & Hin%list_elem_of_In%elem_of_map_range & Hne%bool_decide_eq_true).
      apply bool_decide_eq_true. rewrite map_subseteq_spec. intros Hsub.
      by apply Hne, Hsub.
    + apply bool_decide_eq_false. intros Hn. apply Hn. apply map_subseteq_spec.
      intros k v Hkv. apply dec_stable. intros Hne.
      rewrite <- not_true_iff_false in E. apply E. apply existsb_exists.
      exists (k, v). split; [by apply list_elem_of_In, elem_of_map_range|].
      by apply bool_decide_eq_true.
Qed.

Lemma IsObjectTaggedToDelete_Tag {Sp St} (o : object Sp St) :
  IsObjectTaggedToDelete (TagObjectToDelete o) = true.
Proof.
  unfold IsObjectTaggedToDelete, TagObjectToDelete, SetAnnotations, GetAnnotations.
  simpl. by rewrite lookup_insert_eq.
Qed.

Lemma IsObjectTaggedToDelete_spec {Sp St} (o : object Sp St) :
  IsObjectTaggedToDelete o = true ↔
  entries (GetAnnotations o) !! DeleteTagAnnotation = Some "true".
Proof.
  unfold IsObjectTaggedToDelete. destruct (GetAnnotations o) as [a|]; simpl.
  - destruct (a !! DeleteTagAnnotation); [|done]. rewrite bool_decide_eq_true.
    naive_solver.
  - by rewrite lookup_empty.
Qed.

#[export] Hint Rewrite CopyConditions_id HostnamesToStrings_id
  @IsObjectTaggedToDelete_Tag : kuadrant.

(** Ordering of conditions by type. *)
Lemma condition_sort_le a b :
  sort_le condition_less a b ↔ String.le (cond_Type a) (cond_Type b).
Proof.
  unfold sort_le, condition_less, String.le, String.ltb, String.leb.
  rewrite (String.compare_antisym (cond_Type b)).
  destruct (String.compare (cond_Type a) (cond_Type b)); simpl; naive_solver.
Qed.

#[export] Instance condition_sort_le_trans : Transitive (sort_le condition_less).
Proof. intros a b c. rewrite !condition_sort_le. apply transitivity. Qed.

Lemma condition_sort_unique `{GoSortOk} l k :
  NoDup (cond_Type <$> l) → l ≡ₚ k →
  go_sort condition_less l = go_sort condition_less k.
Proof.
  intros Hnd Hp. apply go_sort_unique; [apply _| |done].
  intros a b Ha Hb. rewrite !condition_sort_le. intros H1 H2.
  assert (cond_Type a = cond_Type b) as Heq by (by apply (anti_symm String.le)).
  apply list_elem_of_lookup in Ha as [i Hi], Hb as [j Hj].
  assert (i = j) as ->; [|congruence].
  eapply (NoDup_lookup _ _ _ (cond_Type a) Hnd);
    rewrite list_lookup_fmap, ?Hi, ?Hj; simpl; congruence.
Qed.

(** ** Properties *)

(** A limit namespace decodes to the gateway key and domain it was made
    from exactly when the key holds neither [#] nor [/] and the domain no
    [#]; no other pair survives the encoding. *)
Theorem limit_namespace_roundtrip (k : ObjectKey) (d : string) :
  UnMarshallLimitNamespace (MarshallNamespace k d) = Ok (k, d) ↔ marshallable k d.
Proof.
  split; [apply UnMarshall_marshallable|apply UnMarshall_Marshall].
Qed.

(** The key and the domain read from any limit namespace encode back to a
    namespace that decodes to the same pair, so rewriting a limit is stable;
    and the text itself is preserved exactly when the part before [#] has one
    [/]. *)
Theorem limit_namespace_normalises (s : string) (k : ObjectKey) (d : string)
    (H : UnMarshallLimitNamespace s = Ok (k, d)) :
  UnMarshallLimitNamespace (MarshallNamespace k d) = Ok (k, d) ∧
  (MarshallNamespace k d = s ↔
   ∃ key, Split s "#" = [key; d] ∧ length (Split key "/") = 2).
Proof.
  pose proof (UnMarshall_marshallable _ _ _ H) as Hm.
  split; [by apply UnMarshall_Marshall|].
  destruct Hm as (H1 & H2 & H3 & H4 & H5). split.
  - intros <-. exists (Namespace k +:+ String "/" (Name k)).
    unfold MarshallNamespace. rewrite <- string_app_cons, <- string_app_assoc.
    rewrite Split_first, Split_none;
      [|done|by rewrite has_byte_app; simpl; rewrite H1, H3].
    by rewrite Split_first, Split_none.
  - intros (key & HS & HL). unfold UnMarshallLimitNamespace in H. rewrite HS in H.
    apply Split_two in HS as (-> & _ & _). unfold UnMarshallObjectKey in H.
    pose proof (Join_Split key "/") as HJ. unfold NamespaceSeparator in H.
    destruct (Split key "/") as [|ns [|name [|]]]; simpl in HL; try lia.
    simpl in H. simplify_eq. simpl. unfold MarshallNamespace. simpl.
    by rewrite <- string_app_cons, <- string_app_assoc.
Qed.

Lemma limit_namespace_normalises_witness :
  UnMarshallLimitNamespace "a/b/c#d" = Ok ({| Namespace := "a"; Name := "b" |}, "d") ∧
  UnMarshallLimitNamespace (MarshallNamespace {| Namespace := "a"; Name := "b" |} "d")
    = Ok ({| Namespace := "a"; Name := "b" |}, "d").
Proof.
  split; [reflexivity|].
  apply (limit_namespace_normalises "a/b/c#d" {| Namespace := "a"; Name := "b" |} "d").
  reflexivity.
Defined.

(** Merging makes the desired entries win over the existing ones, keeps
    all others, allocates the map when it was [nil], and reports a change
    exactly when some desired entry was missing or different, whatever the
    iteration order. *)
Theorem MergeMapStringString_correct (MR : MapRange) (MRok : MapRangeOk)
    (existing : gomap string) (desired : gmap string string) :
  ∃ m, MergeMapStringString existing desired =
         (Some m, bool_decide (m ≠ entries existing)) ∧
       ∀ k, m !! k = match desired !! k with
                     | Some v => Some v
                     | None => entries existing !! k
                     end.
Proof.
  exists (desired ∪ entries existing). rewrite MergeMapStringString_spec.
  split.
  - f_equal. apply bool_decide_ext. split; intros Hn Heq; apply Hn.
    + apply map_subseteq_spec. intros k v Hkv. rewrite <- Heq.
      by apply lookup_union_Some_l.
    + apply map_eq. intros k. destruct (desired !! k) eqn:E.
      * erewrite lookup_union_Some_l by done. symmetry. by eapply lookup_weaken.
      * by rewrite lookup_union_r.
  - intros k. rewrite lookup_union. by destruct (desired !! k), (entries existing !! k).
Qed.

(** The list difference keeps, in order and with duplicates, exactly the
    keys of the first list that are not in the second. *)
Theorem ObjectKeyListDifference_correct (a b : list ObjectKey) :
  ObjectKeyListDifference a b = filter (λ x, x ∉ b) a ∧
  ∀ x, ContainsObjectKey (ObjectKeyListDifference a b) x =
       ContainsObjectKey a x && negb (ContainsObjectKey b x).
Proof.
  split; [apply ObjectKeyListDifference_filter|]. intros x.
  apply eq_bool_prop_intro.
  rewrite ObjectKeyListDifference_filter, andb_True, negb_True, !Is_true_true,
    !ContainsObjectKey_elem, list_elem_of_filter. naive_solver.
Qed.

(** The marshalled conditions do not depend on the order the conditions
    come in, as long as no two have the same type. *)
Theorem ConditionMarshal_order_independent (GS : GoSort) (GSok : GoSortOk)
    (CC : ConditionCodec) (l k : list Condition)
    (Hnd : NoDup (cond_Type <$> l)) (Hp : l ≡ₚ k) :
  ConditionMarshal l = ConditionMarshal k.
Proof.
  unfold ConditionMarshal. pose proof (condition_sort_unique l k Hnd Hp) as Hs.
  destruct l as [|a l], k as [|b k]; simpl.
  - done.
  - by apply Permutation_nil_l in Hp.
  - symmetry in Hp. by apply Permutation_nil_l in Hp.
  - unfold elems in *. simpl. by rewrite Hs.
Qed.

(** Concatenates the types, enough to tell orders apart. *)
Definition sample_condition_codec : ConditionCodec :=
  λ s, Ok (foldr (λ c r, cond_Type c +:+ r) empty_string (elems s)).
Definition sample_condition (type : string) : Condition :=
  {| cond_Type := type; cond_Status := "True"; cond_ObservedGeneration := 0;
     cond_LastTransitionTime := 0; cond_Reason := "r"; cond_Message := "m" |}.

Lemma ConditionMarshal_order_independent_witness :
  @ConditionMarshal go_merge_sort sample_condition_codec
    [sample_condition "Ready"; sample_condition "Available"] = Ok "AvailableReady" ∧
  @ConditionMarshal go_merge_sort sample_condition_codec
    [sample_condition "Ready"; sample_condition "Available"] =
  @ConditionMarshal go_merge_sort sample_condition_codec
    [sample_condition "Available"; sample_condition "Ready"].
Proof.
  split; [vm_compute; reflexivity|].
  apply (ConditionMarshal_order_independent go_merge_sort go_merge_sort_ok).
  - apply (bool_decide_unpack _). vm_compute. exact I.
  - constructor.
Defined.
