(* ===== verification/RouteRules.v ===== *)
(** * Rules compiled from an HTTPRoute (pkg/common/gatewayapi_utils.go)

    Each match of a route rule becomes a rule with paths, methods and hosts;
    the compiled list is compared with a reading of the matches one by one. *)
From S2P Require Import Prelude GoStrings KubeTypes.

(** ** The code *)

Record HTTPRouteRule := {
  hr_Paths : slice string;
  hr_Methods : slice string;
  hr_Hosts : slice string
}.
#[export] Instance HTTPRouteRule_eq_dec : EqDecision HTTPRouteRule.
Proof. solve_decision. Defined.

Definition IsTargetRefHTTPRoute (targetRef : PolicyTargetReference) : bool :=
  bool_decide (tr_Kind targetRef = "HTTPRoute").

Definition IsTargetRefGateway (targetRef : PolicyTargetReference) : bool :=
  bool_decide (tr_Kind targetRef = "Gateway").

Definition RouteHTTPMethodToRuleMethod (httpMethod : option string) : slice string :=
  match httpMethod with
  | None => None
  | Some m => Some [m]
  end.

Definition RouteHostnames (route : option HTTPRoute) : slice string :=
  match route with
  | None => None
  | Some route =>
      if decide (length (Hostnames_ (spec route)) = 0) then Some ["*"]
      else Some (foldl (λ hosts h, hosts ++ [h]) [] (Hostnames_ (spec route)))
  end.

(** The Gateway API's names of the path match types. *)
Definition PathMatchPathPrefix : string := "PathPrefix".
Definition PathMatchExact : string := "Exact".

Definition routePathMatchToRulePath (pathMatch : option HTTPPathMatch) : slice string :=
  match pathMatch with
  | None => None
  | Some pathMatch =>
      let unsupported :=
        match path_Type pathMatch with
        | None => false
        | Some t => negb (bool_decide (t = PathMatchPathPrefix)) &&
                    negb (bool_decide (t = PathMatchExact))
        end in
      if unsupported then None
      else
        let suffix :=
          match path_Type pathMatch with
          | None => "*"
          | Some t => if decide (t = PathMatchPathPrefix) then "*" else empty_string
          end in
        let val := match path_Value pathMatch with
                   | None => "/"
                   | Some v => v
                   end in
        Some [val +:+ suffix]
  end.

(** The body of the inner loop: the rule of one match. *)
Definition rule_of_match (route : HTTPRoute) (m : HTTPRouteMatch) : HTTPRouteRule :=
  {| hr_Hosts := RouteHostnames (Some route);
     hr_Methods := RouteHTTPMethodToRuleMethod (match_Method m);
     hr_Paths := routePathMatchToRulePath (match_Path m) |}.

Definition RulesFromHTTPRoute (route : option HTTPRoute) : slice HTTPRouteRule :=
  match route with
  | None => None
  | Some r =>
      let rules :=
        foldl (λ rules matches,
          foldl (λ rules m,
            let rule := rule_of_match r m in
            if negb (length (elems (hr_Methods rule)) =? 0)%nat ||
               negb (length (elems (hr_Paths rule)) =? 0)%nat
            then slice_append rules [rule] else rules) rules matches)
          None (route_Rules (spec r)) in
      if (length (elems rules) =? 0)%nat
      then Some [{| hr_Paths := None; hr_Methods := None;
                    hr_Hosts := RouteHostnames (Some r) |}]
      else rules
  end.

(** ** Lemmas *)

Lemma IsTargetRefHTTPRoute_spec t : IsTargetRefHTTPRoute t = true ↔ tr_Kind t = "HTTPRoute".
Proof. apply bool_decide_eq_true. Qed.
Lemma IsTargetRefGateway_spec t : IsTargetRefGateway t = true ↔ tr_Kind t = "Gateway".
Proof. apply bool_decide_eq_true. Qed.
Lemma IsTargetRef_exclusive t :
  IsTargetRefHTTPRoute t = true → IsTargetRefGateway t = false.
Proof.
  rewrite IsTargetRefHTTPRoute_spec. intros Hk. unfold IsTargetRefGateway.
  by rewrite Hk.
Qed.

(** A match the controllers can express: it names a method, or a path of a
    supported type. *)
Definition expressible (m : HTTPRouteMatch) : Prop :=
  is_Some (match_Method m) ∨
  ∃ p, match_Path m = Some p ∧
       (path_Type p = None ∨ path_Type p = Some PathMatchPathPrefix ∨
        path_Type p = Some PathMatchExact).

Lemma routePathMatchToRulePath_cases p :
  length (elems (routePathMatchToRulePath p)) ≠ 0 ↔
  ∃ q, p = Some q ∧ (path_Type q = None ∨ path_Type q = Some PathMatchPathPrefix ∨
                     path_Type q = Some PathMatchExact).
Proof.
  destruct p as [[t v]|]; simpl; [|naive_solver].
  destruct t as [t|]; simpl; [|naive_solver].
  destruct (decide (t = PathMatchPathPrefix)) as [->|];
    [|destruct (decide (t = PathMatchExact)) as [->|]]; simpl.
  - naive_solver.
  - naive_solver.
  - rewrite !bool_decide_false by done. simpl. naive_solver.
Qed.

Definition keeps (r : HTTPRoute) (m : HTTPRouteMatch) : bool :=
  negb (length (elems (hr_Methods (rule_of_match r m))) =? 0)%nat ||
  negb (length (elems (hr_Paths (rule_of_match r m))) =? 0)%nat.

Lemma keeps_expressible r m : keeps r m = true ↔ expressible m.
Proof.
  unfold keeps, expressible. rewrite orb_true_iff, !negb_true_iff, !Nat.eqb_neq.
  rewrite <- routePathMatchToRulePath_cases. simpl.
  destruct (match_Method m); simpl; [|naive_solver].
  split; [|naive_solver]. intros _. left. eauto.
Qed.

#[export] Instance expressible_dec m : Decision (expressible m).
Proof.
  pose (r := Build_object (new_meta empty_string empty_string)
              {| ParentRefs := []; Hostnames_ := []; route_Rules := [] |}
              {| Parents := [] |} : HTTPRoute).
  destruct (keeps r m) eqn:E.
  - left. exact (proj1 (keeps_expressible r m) E).
  - right. intros H. apply (proj2 (keeps_expressible r m)) in H. congruence.
Defined.

Lemma matches_loop (P : HTTPRouteMatch → bool) f (acc : slice HTTPRouteRule) l :
  elems (foldl (λ rules (m : HTTPRouteMatch),
           if P m then slice_append rules [f m] else rules) acc l) =
  elems acc ++ (f <$> filter (λ m, P m = true) l).
Proof.
  revert acc. induction l as [|m l IH]; intros acc; simpl; [by rewrite app_nil_r|].
  rewrite IH. destruct (P m) eqn:E.
  - rewrite filter_cons_True by done. rewrite elems_slice_append, <- app_assoc. done.
  - by rewrite filter_cons_False by (by rewrite E).
Qed.

Lemma rules_loop r acc ls :
  elems (foldl (λ rules matches,
           foldl (λ rules m, if keeps r m then slice_append rules [rule_of_match r m]
                             else rules) rules matches) acc ls) =
  elems acc ++ (rule_of_match r <$> filter (λ m, keeps r m = true) (concat ls)).
Proof.
  revert acc. induction ls as [|l ls IH]; intros acc; simpl; [by rewrite app_nil_r|].
  by rewrite IH, matches_loop, filter_app, fmap_app, app_assoc.
Qed.

Lemma filter_keeps r (l : list HTTPRouteMatch) :
  filter (λ m, keeps r m = true) l = filter expressible l.
Proof. apply list_filter_iff. intros m. apply keeps_expressible. Qed.

Lemma RulesFromHTTPRoute_elems r :
  elems (RulesFromHTTPRoute (Some r)) =
  match rule_of_match r <$> filter expressible (concat (route_Rules (spec r))) with
  | [] => [{| hr_Paths := None; hr_Methods := None; hr_Hosts := RouteHostnames (Some r) |}]
  | rules => rules
  end.
Proof.
  unfold RulesFromHTTPRoute. pose proof (rules_loop r None (route_Rules (spec r))) as HL.
  unfold keeps in HL at 1. simpl in HL. rewrite filter_keeps in HL.
  simpl. rewrite <- HL.
  destruct (elems (foldl _ None _)) eqn:E; simpl; [done|]. by rewrite E.
Qed.

(** ** Properties *)

(** The path patterns of a match: a prefix is followed by [*], an exact path is
    taken as it is, another type of match gives none. *)
Definition path_patterns (m : HTTPRouteMatch) : list string :=
  match match_Path m with
  | None => []
  | Some p =>
      let v := default "/" (path_Value p) in
      match path_Type p with
      | None => [v +:+ "*"]
      | Some t => if decide (t = "PathPrefix") then [v +:+ "*"]
                  else if decide (t = "Exact") then [v] else []
      end
  end.

(** What a rule says, [nil] and empty slices alike: hosts, methods, paths. *)
Definition rule_view (rule : HTTPRouteRule) : list string * list string * list string :=
  (elems (hr_Hosts rule), elems (hr_Methods rule), elems (hr_Paths rule)).

Lemma RouteHostnames_elems r : elems (RouteHostnames (Some r)) = or_any (Hostnames_ (spec r)).
Proof.
  unfold RouteHostnames. rewrite foldl_snoc. by destruct (Hostnames_ (spec r)).
Qed.

Lemma append_empty (s : string) : s +:+ empty_string = s.
Proof. induction s as [|c s IH]; [done|]. change (String c (s +:+ empty_string) = String c s). by rewrite IH. Qed.

Lemma rule_view_match r m :
  rule_view (rule_of_match r m) =
  (or_any (Hostnames_ (spec r)), option_list (match_Method m), path_patterns m).
Proof.
  unfold rule_view, rule_of_match. cbn [hr_Hosts hr_Methods hr_Paths].
  rewrite RouteHostnames_elems. f_equal; [f_equal; by destruct (match_Method m)|].
  unfold routePathMatchToRulePath, path_patterns, PathMatchPathPrefix, PathMatchExact.
  destruct (match_Path m) as [p|]; [|done].
  destruct (path_Type p) as [t|]; [|by destruct (path_Value p)].
  destruct (decide (t = "PathPrefix")) as [->|Hp]; [by destruct (path_Value p)|].
  rewrite (bool_decide_false (t = "PathPrefix")) by done.
  destruct (decide (t = "Exact")) as [->|He];
    [by destruct (path_Value p); cbn; rewrite ?append_empty|].
  by rewrite (bool_decide_false (t = "Exact")) by done.
Qed.

(** C30: the rules of a route are never empty, all carry exactly the route's
    host names ([*] when it has none), and are, in order, those of the matches
    that name a method or a path of a supported type, with that method and the
    pattern of that path; a route without such a match gives the one rule that
    constrains hosts only. *)
Theorem RulesFromHTTPRoute_correct (r : HTTPRoute) :
  let ms := filter expressible (concat (route_Rules (spec r))) in
  let hosts := or_any (Hostnames_ (spec r)) in
  let rules := elems (RulesFromHTTPRoute (Some r)) in
  rules ≠ [] ∧
  (rule_view <$> rules =
     match ms with
     | [] => [(hosts, [], [])]
     | _ => (λ m, (hosts, option_list (match_Method m), path_patterns m)) <$> ms
     end) ∧
  (∀ m, m ∈ ms → option_list (match_Method m) ≠ [] ∨ path_patterns m ≠ []).
Proof.
  intros ms hosts rules. subst rules. rewrite RulesFromHTTPRoute_elems. fold ms.
  split; [by destruct ms|]. split.
  - destruct ms as [|m ms']; cbn [fmap list_fmap].
    + unfold rule_view. cbn [hr_Hosts hr_Methods hr_Paths]. by rewrite RouteHostnames_elems.
    + rewrite rule_view_match. f_equal. rewrite <- list_fmap_compose.
      apply list_fmap_ext. intros i m' _. apply rule_view_match.
  - intros m [Hm _]%list_elem_of_filter. apply (keeps_expressible r) in Hm. unfold keeps in Hm.
    rewrite orb_true_iff, !negb_true_iff, !Nat.eqb_neq, !length_zero_iff_nil in Hm.
    pose proof (rule_view_match r m) as [= _ <- <-]. exact Hm.
Qed.

(** A match whose path has an unsupported type and that names no method
    yields no rule once another match does: the requests it selects are left
    out of the compiled rules. *)
Theorem RulesFromHTTPRoute_drops_unsupported (r : HTTPRoute) (m good : HTTPRouteMatch)
    (p : HTTPPathMatch) (t : string)
    (Hgood : good ∈ concat (route_Rules (spec r))) (Hexp : expressible good)
    (Hm : match_Method m = None) (Hp : match_Path m = Some p)
    (Ht : path_Type p = Some t)
    (Hun : t ≠ PathMatchPathPrefix ∧ t ≠ PathMatchExact) :
  rule_of_match r m ∉ elems (RulesFromHTTPRoute (Some r)).
Proof.
  rewrite RulesFromHTTPRoute_elems.
  assert (Hin : good ∈ filter expressible (concat (route_Rules (spec r))))
    by (by apply list_elem_of_filter).
  assert (Hall : Forall expressible (filter expressible (concat (route_Rules (spec r))))).
  { apply Forall_forall. by intros x [? _]%list_elem_of_filter. }
  destruct (filter expressible _) as [|x xs]; [by apply not_elem_of_nil in Hin|].
  change (match rule_of_match r <$> x :: xs with [] => _ | _ => _ end)
    with (rule_of_match r <$> x :: xs).
  intros (y & Heq & Hy)%list_elem_of_fmap.
  rewrite Forall_forall in Hall. specialize (Hall y Hy).
  apply (keeps_expressible r) in Hall. unfold keeps in Hall. rewrite <- Heq in Hall.
  simpl in Hall. rewrite Hm, Hp in Hall. simpl in Hall. rewrite Ht in Hall.
  rewrite !bool_decide_false in Hall by naive_solver. done.
Qed.

Definition sample_route : HTTPRoute :=
  Build_object (new_meta "route" "ns")
    {| ParentRefs := []; Hostnames_ := ["*.example.com"];
       route_Rules := [[{| match_Path := None; match_Method := Some "GET" |};
         {| match_Path := Some {| path_Type := Some "RegularExpression";
                                  path_Value := Some "/admin.*" |};
            match_Method := None |}]] |}
    {| Parents := [] |}.

Lemma RulesFromHTTPRoute_drops_unsupported_witness :
  rule_of_match sample_route
    {| match_Path := Some {| path_Type := Some "RegularExpression";
                             path_Value := Some "/admin.*" |};
       match_Method := None |} ∉ elems (RulesFromHTTPRoute (Some sample_route)).
Proof.
  apply (RulesFromHTTPRoute_drops_unsupported sample_route _
           {| match_Path := None; match_Method := Some "GET" |}
           {| path_Type := Some "RegularExpression"; path_Value := Some "/admin.*" |}
           "RegularExpression").
  - simpl. left.
  - left. by eexists.
  - reflexivity.
  - reflexivity.
  - reflexivity.
  - split; discriminate.
Defined.
