(* ===== verification/PolicyTypes.v ===== *)
(** * Methods of the API types (apis/apim/v1alpha1)

    Validation, target keys, limits and status comparison of RateLimitPolicy
    and AuthPolicy. *)
From S2P Require Import Prelude GoStrings KubeTypes CommonUtils.

(** ** RateLimitPolicy *)

Definition gateway_api_group : string := "gateway.networking.k8s.io".

Definition LimitFromLimitadorRateLimit (limit : option LimitadorLimit) : option Limit :=
  match limit with
  | None => None
  | Some limit =>
      Some {| MaxValue := ll_MaxValue limit;
              Seconds := ll_Seconds limit;
              Conditions := match ll_Conditions limit with
                            | None => None
                            | Some c => Some c
                            end;
              Variables := match ll_Variables limit with
                           | None => None
                           | Some v => Some v
                           end |}
  end.

Module RLP.

Definition Validate (r : RateLimitPolicy) : outcome unit :=
  let t := rlp_TargetRef (spec r) in
  if negb (bool_decide (tr_Group t = gateway_api_group)) then
    Err (ErrText ("invalid targetRef.Group " +:+ tr_Group t +:+
      ". The only supported group is gateway.networking.k8s.io"))
  else if negb (bool_decide (tr_Kind t = "HTTPRoute")) &&
          negb (bool_decide (tr_Kind t = "Gateway")) then
    Err (ErrText ("invalid targetRef.Kind " +:+ tr_Kind t +:+
      ". The only supported kind types are HTTPRoute and Gateway"))
  else match tr_Namespace t with
       | Some ns =>
           if negb (bool_decide (ns = meta_Namespace (ometa r))) then
             Err (ErrText ("invalid targetRef.Namespace " +:+ ns +:+
               ". Currently only supporting references to the same namespace"))
           else Ok tt
       | None => Ok tt
       end.

Definition TargetKey (r : RateLimitPolicy) : ObjectKey :=
  let tmpNS := match tr_Namespace (rlp_TargetRef (spec r)) with
               | Some ns => ns
               | None => meta_Namespace (ometa r)
               end in
  {| Name := tr_Name (rlp_TargetRef (spec r)); Namespace := tmpNS |}.

Definition FlattenLimits (r : RateLimitPolicy) : list Limit :=
  foldl (λ flattenLimits rl, flattenLimits ++ elems (Limits rl))
    [] (elems (RateLimits (spec r))).

(** [string(b)] of a result whose error is dropped. *)
Definition marshalled (o : outcome string) : string :=
  match o with
  | Ok s => s
  | _ => empty_string
  end.

Definition Status_Equals `{GoSort, ConditionCodec}
    (s other : RateLimitPolicyStatus) : bool :=
  if negb (rlp_ObservedGeneration s =? rlp_ObservedGeneration other)%Z then false
  else if negb (bool_decide (marshalled (ConditionMarshal (rlp_Conditions s)) =
                             marshalled (ConditionMarshal (rlp_Conditions other))))
  then false
  else if negb (bool_decide (GatewaysRateLimits s = GatewaysRateLimits other))
  then false
  else true.

End RLP.

(** ** AuthPolicy *)

Module AP.

Definition Validate (ap : AuthPolicy) : outcome unit :=
  let t := ap_TargetRef (spec ap) in
  if negb (bool_decide (tr_Group t = gateway_api_group)) then
    Err (ErrText ("invalid targetRef.Group " +:+ tr_Group t +:+
      ". The only supported group is gateway.networking.k8s.io"))
  else if bool_decide (tr_Kind t = "HTTPRoute") || bool_decide (tr_Kind t = "Gateway")
  then
    match tr_Namespace t with
    | Some ns =>
        if negb (bool_decide (ns = meta_Namespace (ometa ap))) then
          Err (ErrText ("invalid targetRef.Namespace " +:+ ns +:+
            ". Currently only supporting references to the same namespace"))
        else Ok tt
    | None => Ok tt
    end
  else Err (ErrText ("invalid targetRef.Kind " +:+ tr_Kind t +:+
         ". The only supported kinds are HTTPRoute and Gateway")).

Definition Status_Equals `{GoSort, ConditionCodec} (s other : AuthPolicyStatus) : bool :=
  if negb (ap_ObservedGeneration s =? ap_ObservedGeneration other)%Z then false
  else if negb (bool_decide (RLP.marshalled (ConditionMarshal (ap_Conditions s)) =
                             RLP.marshalled (ConditionMarshal (ap_Conditions other))))
  then false
  else true.

End AP.

(** ** What the encoding of conditions is relied on for

    [json.Marshal] of conditions does not fail and tells different lists
    apart. *)
Class ConditionCodecOk {CC : ConditionCodec} := {
  json_marshal_total : ∀ l, ∃ s, json_marshal_conditions l = Ok s;
  json_marshal_inj : ∀ l k s,
    json_marshal_conditions l = Ok s → json_marshal_conditions k = Ok s → l = k
}.

(** A codec that satisfies both, for evaluation: the countable encoding of the
    list as a positive, written in decimal. *)
#[export] Program Instance Condition_countable : Countable Condition :=
  inj_countable'
    (λ c, (cond_Type c, cond_Status c, cond_ObservedGeneration c,
           cond_LastTransitionTime c, cond_Reason c, cond_Message c))
    (λ '(t, s, g, l, r, m),
       {| cond_Type := t; cond_Status := s; cond_ObservedGeneration := g;
          cond_LastTransitionTime := l; cond_Reason := r; cond_Message := m |}) _.
Next Obligation. by intros []. Qed.

Fixpoint positive_string (p : positive) : string :=
  match p with
  | xH => empty_string
  | xO p => String "0" (positive_string p)
  | xI p => String "1" (positive_string p)
  end.
#[export] Instance positive_string_inj : Inj (=) (=) positive_string.
Proof. intros p. induction p; intros [] [=]; f_equal; auto. Qed.

Definition binary_condition_codec : ConditionCodec :=
  λ l, Ok (positive_string (encode l)).
Lemma binary_condition_codec_ok : @ConditionCodecOk binary_condition_codec.
Proof.
  split.
  - intros l. by eexists.
  - intros l k s [= <-] [= Heq]. by apply (inj _), (inj _) in Heq.
Qed.

(** ** Lemmas *)

(** What both controllers accept as a target. *)
Definition valid_target (t : PolicyTargetReference) (ns : string) : Prop :=
  tr_Group t = gateway_api_group ∧
  (tr_Kind t = "HTTPRoute" ∨ tr_Kind t = "Gateway") ∧
  (tr_Namespace t = None ∨ tr_Namespace t = Some ns).

Lemma RLP_Validate_ok r :
  RLP.Validate r = Ok tt ↔ valid_target (rlp_TargetRef (spec r)) (meta_Namespace (ometa r)).
Proof.
  unfold RLP.Validate, valid_target.
  destruct (rlp_TargetRef (spec r)) as [g k n ns]; simpl.
  repeat case_bool_decide; simpl; try naive_solver;
    destruct ns; try case_bool_decide; simpl; naive_solver.
Qed.

Lemma AP_Validate_ok ap :
  AP.Validate ap = Ok tt ↔ valid_target (ap_TargetRef (spec ap)) (meta_Namespace (ometa ap)).
Proof.
  unfold AP.Validate, valid_target.
  destruct (ap_TargetRef (spec ap)) as [g k n ns]; simpl.
  repeat case_bool_decide; simpl; try naive_solver;
    destruct ns; try case_bool_decide; simpl; naive_solver.
Qed.

Lemma Validate_not_panic_RLP r p : RLP.Validate r ≠ Panic p.
Proof. unfold RLP.Validate. by repeat case_match. Qed.

Lemma FlattenLimits_concat r :
  RLP.FlattenLimits r = concat ((λ rl, elems (Limits rl)) <$> elems (RateLimits (spec r))).
Proof.
  unfold RLP.FlattenLimits.
  cut (∀ acc, foldl (λ acc rl, acc ++ elems (Limits rl)) acc (elems (RateLimits (spec r)))
    = acc ++ concat ((λ rl, elems (Limits rl)) <$> elems (RateLimits (spec r)))).
  { intros H. by rewrite H. }
  induction (elems (RateLimits (spec r))) as [|rl l IH]; intros acc; simpl.
  - by rewrite app_nil_r.
  - by rewrite IH, app_assoc.
Qed.

Lemma LimitFromLimitadorRateLimit_Some l :
  LimitFromLimitadorRateLimit (Some l) =
  Some {| MaxValue := ll_MaxValue l; Seconds := ll_Seconds l;
          Conditions := ll_Conditions l; Variables := ll_Variables l |}.
Proof. destruct l as [? ? ? [] []]; done. Qed.

Lemma go_sort_nil_inv `{GoSortOk} {A} (less : A → A → bool) l :
  go_sort less l = [] → l = [].
Proof. intros Hl. apply Permutation_nil_r. rewrite <- Hl. symmetry. apply go_sort_perm. Qed.

(** Equal encodings of conditions of distinct types are rearrangements. *)
Lemma ConditionMarshal_equal `{GoSortOk, ConditionCodecOk} l k :
  RLP.marshalled (ConditionMarshal l) = RLP.marshalled (ConditionMarshal k) → l ≡ₚ k.
Proof.
  unfold ConditionMarshal.
  destruct (json_marshal_total (go_sort condition_less <$> slice_append None l)) as [s Hs].
  destruct (json_marshal_total (go_sort condition_less <$> slice_append None k)) as [t Ht].
  rewrite Hs, Ht. simpl. intros ->.
  pose proof (json_marshal_inj _ _ _ Hs Ht) as Heq.
  destruct l as [|a l], k as [|b k]; try done.
  assert (go_sort condition_less (a :: l) = go_sort condition_less (b :: k)) as Hso
    by (by apply (inj Some)). clear Heq. rename Hso into Heq.
  by rewrite <- (go_sort_perm _ condition_less (a :: l)), Heq, go_sort_perm.
Qed.

(** ** Properties *)

(** The two [Validate] methods accept exactly the same targets: the
    Gateway API group, kind HTTPRoute or Gateway, and no namespace or the
    policy's own; an accepted RateLimitPolicy's target key lies in the
    policy's namespace. *)
Theorem Validate_accepts_same_targets (r : RateLimitPolicy) (a : AuthPolicy)
    (Ht : rlp_TargetRef (spec r) = ap_TargetRef (spec a))
    (Hns : meta_Namespace (ometa r) = meta_Namespace (ometa a)) :
  (RLP.Validate r = Ok tt ↔ AP.Validate a = Ok tt) ∧
  (RLP.Validate r = Ok tt ↔
     valid_target (rlp_TargetRef (spec r)) (meta_Namespace (ometa r))) ∧
  (RLP.Validate r = Ok tt → Namespace (RLP.TargetKey r) = meta_Namespace (ometa r)).
Proof.
  rewrite !RLP_Validate_ok, AP_Validate_ok, <- Ht, <- Hns. split; [done|]. split; [done|].
  intros (_ & _ & Hn). unfold RLP.TargetKey. simpl. by destruct Hn as [-> | ->].
Qed.

Definition sample_target : PolicyTargetReference :=
  {| tr_Group := "gateway.networking.k8s.io"; tr_Kind := "HTTPRoute";
     tr_Name := "route"; tr_Namespace := None |}.
Definition sample_rlp : RateLimitPolicy :=
  Build_object (new_meta "rlp" "ns")
    {| rlp_TargetRef := sample_target; RateLimits := None |}
    {| rlp_ObservedGeneration := 0; rlp_Conditions := []; GatewaysRateLimits := None |}.
Definition sample_ap : AuthPolicy :=
  Build_object (new_meta "ap" "ns")
    {| ap_TargetRef := sample_target; AuthRules := []; AuthScheme := None |}
    {| ap_ObservedGeneration := 0; ap_Conditions := [] |}.

Lemma Validate_accepts_same_targets_witness :
  RLP.Validate sample_rlp = Ok tt ∧
  (RLP.Validate sample_rlp = Ok tt ↔ AP.Validate sample_ap = Ok tt).
Proof.
  split; [reflexivity|].
  apply (Validate_accepts_same_targets sample_rlp sample_ap); reflexivity.
Defined.

(** Two RateLimitPolicy statuses with conditions of distinct types are
    equal exactly when the observed generations agree, the conditions are
    rearrangements of each other and the gateway rate limits are the same
    slice, [nil] and empty being different. *)
Theorem RLP_Status_Equals_correct (GS : GoSort) (GSok : GoSortOk)
    (CC : ConditionCodec) (CCok : ConditionCodecOk)
    (s other : RateLimitPolicyStatus)
    (Hnd : NoDup (cond_Type <$> rlp_Conditions s)) :
  RLP.Status_Equals s other = true ↔
  rlp_ObservedGeneration s = rlp_ObservedGeneration other ∧
  rlp_Conditions s ≡ₚ rlp_Conditions other ∧
  GatewaysRateLimits s = GatewaysRateLimits other.
Proof.
  unfold RLP.Status_Equals. split.
  - intros H. repeat case_match; try done.
    repeat match goal with E : negb _ = false |- _ => apply negb_false_iff in E end.
    split; [by apply Z.eqb_eq|]. split; [|by eapply bool_decide_eq_true].
    by eapply ConditionMarshal_equal, bool_decide_eq_true.
  - intros (Hg & Hc & Hl). rewrite Hg, Z.eqb_refl. simpl.
    rewrite (bool_decide_true (GatewaysRateLimits s = _)) by done.
    rewrite bool_decide_true; [done|]. f_equal. unfold ConditionMarshal.
    assert (slice_append None (rlp_Conditions s) = None ↔
            slice_append None (rlp_Conditions other) = None) as Hn.
    { destruct (rlp_Conditions s), (rlp_Conditions other); try done.
      - by apply Permutation_nil_l in Hc.
      - by apply Permutation_nil_r in Hc. }
    pose proof (condition_sort_unique _ _ Hnd Hc).
    destruct (rlp_Conditions s), (rlp_Conditions other); simpl in *; try naive_solver.
    unfold elems. simpl. by f_equal; f_equal.
Qed.

Lemma RLP_Status_Equals_correct_witness :
  @RLP.Status_Equals go_merge_sort binary_condition_codec
    {| rlp_ObservedGeneration := 1;
       rlp_Conditions := [sample_condition "Ready"; sample_condition "Available"];
       GatewaysRateLimits := None |}
    {| rlp_ObservedGeneration := 1;
       rlp_Conditions := [sample_condition "Available"; sample_condition "Ready"];
       GatewaysRateLimits := None |} = true.
Proof.
  apply (RLP_Status_Equals_correct go_merge_sort go_merge_sort_ok
           binary_condition_codec binary_condition_codec_ok).
  - apply (bool_decide_unpack _). vm_compute. exact I.
  - split; [reflexivity|]. split; [constructor|reflexivity].
Defined.
