(* ===== verification/Comparators.v ===== *)
(** * Three-way comparisons and their lexicographic products

    The order of [LimitList.Less] is a chain of comparisons; the laws of a
    total preorder are proved once, for each link and for chaining. *)
From S2P Require Import Prelude GoStrings.

(** A comparison function of a total preorder. *)
Class Comparator {A} (f : A → A → comparison) := {
  cmp_antisym : ∀ a b, f b a = CompOpp (f a b);
  cmp_lt_trans : ∀ a b c, f a b = Lt → f b c = Lt → f a c = Lt;
  cmp_eq_trans : ∀ a b c, f a b = Eq → f b c = f a c
}.

Definition lex {A} (f g : A → A → comparison) (a b : A) : comparison :=
  match f a b with
  | Eq => g a b
  | c => c
  end.

Definition on {A B} (p : A → B) (f : B → B → comparison) (a b : A) : comparison :=
  f (p a) (p b).

Section comparator.
Context {A : Type} (f : A → A → comparison) `{!Comparator f}.

Lemma cmp_refl a : f a a = Eq.
Proof. pose proof (cmp_antisym a a) as H. by destruct (f a a). Qed.

Lemma cmp_eq_sym a b : f a b = Eq → f b a = Eq.
Proof. intros H. by rewrite cmp_antisym, H. Qed.

Lemma cmp_eq_trans_r a b c : f b c = Eq → f a b = f a c.
Proof.
  intros H. rewrite (cmp_antisym b a), (cmp_antisym c a).
  f_equal. by rewrite (cmp_eq_trans b c a H).
Qed.

Definition at_least (a b : A) : bool :=
  match f a b with Lt => false | _ => true end.

Lemma at_least_total a b : at_least a b = true ∨ at_least b a = true.
Proof.
  unfold at_least. rewrite (cmp_antisym a b). destruct (f a b); auto.
Qed.

Lemma at_least_both a b : at_least a b = true → at_least b a = true → f a b = Eq.
Proof.
  unfold at_least. rewrite (cmp_antisym a b). by destruct (f a b).
Qed.

Lemma at_least_trans a b c :
  at_least a b = true → at_least b c = true → at_least a c = true.
Proof.
  unfold at_least. destruct (f a b) eqn:Hab, (f b c) eqn:Hbc; try done; intros _ _.
  - by rewrite <- (cmp_eq_trans a b c Hab), Hbc.
  - by rewrite <- (cmp_eq_trans a b c Hab), Hbc.
  - by rewrite <- (cmp_eq_trans_r a b c Hbc), Hab.
  - assert (f c a = Lt) as Hca.
    { apply (cmp_lt_trans c b a); rewrite cmp_antisym; [by rewrite Hbc|by rewrite Hab]. }
    rewrite cmp_antisym, Hca. done.
Qed.
End comparator.

#[export] Instance lex_comparator {A} (f g : A → A → comparison) :
  Comparator f → Comparator g → Comparator (lex f g).
Proof.
  intros Hf Hg. split; unfold lex.
  - intros a b. rewrite (cmp_antisym a b). destruct (f a b); simpl; try done.
    apply cmp_antisym.
  - intros a b c. destruct (f a b) eqn:Hab; try done.
    + rewrite (cmp_eq_trans a b c Hab). destruct (f a c); try done. apply cmp_lt_trans.
    + intros _. destruct (f b c) eqn:Hbc; try done.
      * intros _. by rewrite <- (cmp_eq_trans_r f a b c Hbc), Hab.
      * intros _. by rewrite (cmp_lt_trans a b c Hab Hbc).
  - intros a b c. destruct (f a b) eqn:Hab; try done.
    intros Hg'. rewrite (cmp_eq_trans a b c Hab). destruct (f a c); try done.
    by apply cmp_eq_trans.
Qed.

#[export] Instance on_comparator {A B} (p : A → B) (f : B → B → comparison) :
  Comparator f → Comparator (on p f).
Proof.
  intros Hf. unfold on. split.
  - intros a b. apply cmp_antisym.
  - intros a b c. apply cmp_lt_trans.
  - intros a b c. apply cmp_eq_trans.
Qed.

(** Comparisons that tell all values apart. *)
Lemma comparator_of_strict {A} (f : A → A → comparison) :
  (∀ a b, f b a = CompOpp (f a b)) →
  (∀ a b c, f a b = Lt → f b c = Lt → f a c = Lt) →
  (∀ a b, f a b = Eq → a = b) → Comparator f.
Proof.
  intros H1 H2 H3. split; [done..|]. intros a b c Hab. by rewrite (H3 a b Hab).
Qed.

#[export] Instance Z_comparator : Comparator Z.compare.
Proof.
  apply comparator_of_strict.
  - intros a b. apply Z.compare_antisym.
  - intros a b c. rewrite !Z.compare_lt_iff. lia.
  - intros a b. by rewrite Z.compare_eq_iff.
Qed.

#[export] Instance nat_comparator : Comparator Nat.compare.
Proof.
  apply comparator_of_strict.
  - intros a b. apply Nat.compare_antisym.
  - intros a b c. rewrite !Nat.compare_lt_iff. lia.
  - intros a b. by rewrite Nat.compare_eq_iff.
Qed.

#[export] Instance string_comparator : Comparator String.compare.
Proof.
  apply comparator_of_strict.
  - intros a b. apply String.compare_antisym.
  - intros a b c Hab Hbc.
    assert (Compare c a = 1%Z) as Hca.
    { apply (Compare_gt_trans c b a); unfold Compare;
        rewrite String.compare_antisym, ?Hab, ?Hbc; done. }
    unfold Compare in Hca. rewrite String.compare_antisym in Hca.
    by destruct (String.compare a c).
  - apply String.compare_eq_iff.
Qed.

(** Element-wise comparison of lists; the shorter of two lists that agree is
    the smaller. *)
Fixpoint cmp_list {A} (f : A → A → comparison) (l k : list A) : comparison :=
  match l, k with
  | [], [] => Eq
  | [], _ :: _ => Lt
  | _ :: _, [] => Gt
  | x :: l, y :: k =>
      match f x y with
      | Eq => cmp_list f l k
      | c => c
      end
  end.

#[export] Instance list_comparator {A} (f : A → A → comparison) :
  Comparator f → Comparator (cmp_list f).
Proof.
  intros Hf. split.
  - intros a. induction a as [|x a IH]; intros [|y b]; simpl; try done.
    rewrite (cmp_antisym x y). by destruct (f x y); simpl.
  - intros a. induction a as [|x a IH]; intros [|y b] [|z c]; simpl; try done.
    destruct (f x y) eqn:Hxy; try done.
    + rewrite (cmp_eq_trans x y z Hxy). destruct (f x z); try done. apply IH.
    + intros _. destruct (f y z) eqn:Hyz; try done.
      * intros _. by rewrite <- (cmp_eq_trans_r f x y z Hyz), Hxy.
      * intros _. by rewrite (cmp_lt_trans x y z Hxy Hyz).
  - intros a. induction a as [|x a IH]; intros [|y b] [|z c]; simpl; try done.
    destruct (f x y) eqn:Hxy; try done. rewrite (cmp_eq_trans x y z Hxy).
    destruct (f x z); try done. apply IH.
Qed.

Lemma cmp_list_eq {A} (f : A → A → comparison) l k :
  (∀ a b, f a b = Eq → a = b) → cmp_list f l k = Eq → l = k.
Proof.
  intros Hf. revert k. induction l as [|x l IH]; intros [|y k]; simpl; try done.
  destruct (f x y) eqn:Hxy; try done. intros Hl. f_equal; auto.
Qed.
