(* ===== verification/LimitIndex.v ===== *)
(** * The index of Limitador limits (pkg/rlptools/limit_index.go)

    Limits of the Limitador object, grouped by gateway and domain.  The
    abstract view is [limits_at], the list of limits of a gateway and domain;
    every operation is characterised on it. *)
From S2P Require Import Prelude GoStrings KubeTypes CommonUtils PolicyTypes Comparators.

(** ** Ordering and comparing lists of limits *)

(** The loop over the strings of two slices of one length: an answer, or
    [None] to go on. *)
Fixpoint less_strings (ci cj : list string) : option bool :=
  match ci, cj with
  | condI :: ci, condJ :: cj =>
      if (Compare condI condJ =? 1)%Z then Some true
      else if (Compare condI condJ =? -1)%Z then Some false
      else less_strings ci cj
  | _, _ => None
  end.

(** [LimitList.Less] on the limits at [i] and [j] *)
Definition Less (li lj : Limit) : bool :=
  if negb (MaxValue li =? MaxValue lj)%Z then (MaxValue lj <? MaxValue li)%Z
  else if negb (Seconds li =? Seconds lj)%Z then (Seconds lj <? Seconds li)%Z
  else
    let ci := elems (Conditions li) in let cj := elems (Conditions lj) in
    if negb (length ci =? length cj)%nat then (length cj <? length ci)%nat
    else match less_strings ci cj with
    | Some b => b
    | None =>
        let vi := elems (Variables li) in let vj := elems (Variables lj) in
        if negb (length vi =? length vj)%nat then (length vj <? length vi)%nat
        else match less_strings vi vj with
             | Some b => b
             | None => true
             end
    end.

Definition SameLimitList `{GoSort} (a b : list Limit) : bool :=
  if negb (length a =? length b)%nat then false
  else bool_decide (go_sort Less a = go_sort Less b).

(** ** Limits by domain and the index *)

Abbreviation LimitsByDomain := (gmap string (list Limit)).
Abbreviation LimitIndex := (gmap ObjectKey (gmap string (list Limit))).

Module LBD.
(** [other] may be [nil]. *)
Definition Equals `{GoSort, MapRange} (l : LimitsByDomain) (other : option LimitsByDomain) : bool :=
  match other with
  | None => false
  | Some other =>
      if negb (size l =? size other)%nat then false
      else forallb (λ '(domain, limits),
             match other !! domain with
             | None => false
             | Some limits' => SameLimitList limits limits'
             end) (map_range l)
  end.
End LBD.

Definition ToLimits `{MapRange} (l : LimitIndex) : list LimitadorLimit :=
  foldl (λ limits '(gwKey, limitsByDomain),
    foldl (λ limits '(domain, limitList),
      foldl (λ limits limit,
        limits ++ [{| ll_Namespace := MarshallNamespace gwKey domain;
                      ll_MaxValue := MaxValue limit;
                      ll_Seconds := Seconds limit;
                      ll_Variables := Variables limit;
                      ll_Conditions := Conditions limit |}])
        limits limitList)
      limits (map_range limitsByDomain))
    [] (map_range l).

Definition DeleteGateway (l : LimitIndex) (gwKey : ObjectKey) : LimitIndex :=
  delete gwKey l.

Definition AddLimit (l : LimitIndex) (gwKey : ObjectKey) (domain : string)
    (limit : Limit) : LimitIndex :=
  let l := match l !! gwKey with
           | None => <[gwKey:=∅]> l
           | Some _ => l
           end in
  let byDomain : LimitsByDomain := default ∅ (l !! gwKey) in
  <[gwKey:=<[domain:=default [] (byDomain !! domain) ++ [limit]]> byDomain]> l.

Definition AddGatewayLimits `{MapRange} (l : LimitIndex) (gwKey : ObjectKey)
    (gwLimits : LimitsByDomain) : LimitIndex :=
  foldl (λ l '(domain, limitList),
    foldl (λ l limit, AddLimit l gwKey domain limit) l limitList)
    l (map_range gwLimits).

Definition AddLimitFromRateLimit (l : LimitIndex) (limit : option LimitadorLimit) : LimitIndex :=
  match limit with
  | None => l
  | Some rl =>
      match UnMarshallLimitNamespace (ll_Namespace rl) with
      | Ok (gwKey, domain) =>
          match LimitFromLimitadorRateLimit (Some rl) with
          | Some lim => AddLimit l gwKey domain lim
          | None => l
          end
      | _ => l
      end
  end.

#[global] Arguments AddLimitFromRateLimit : simpl never.

Module LI.
Definition Equals `{GoSort, MapRange} (l : LimitIndex) (other : option LimitIndex) : bool :=
  match other with
  | None => false
  | Some other =>
      if negb (size l =? size other)%nat then false
      else forallb (λ '(gwKey, byDomain),
             match other !! gwKey with
             | None => false
             | Some byDomain' => LBD.Equals byDomain (Some byDomain')
             end) (map_range l)
  end.
End LI.

Definition NewLimitadorIndex (limitador : option Limitador) : LimitIndex :=
  match limitador with
  | None => ∅
  | Some limitador =>
      foldl (λ idx limit, AddLimitFromRateLimit idx (Some limit))
        ∅ (limitador_Limits (spec limitador))
  end.

(** ** [Less] as a comparison *)

Definition cmp_limit : Limit → Limit → comparison :=
  lex (on MaxValue Z.compare) (lex (on Seconds Z.compare)
    (lex (on (λ l, length (elems (Conditions l))) Nat.compare)
    (lex (on (λ l, elems (Conditions l)) (cmp_list String.compare))
    (lex (on (λ l, length (elems (Variables l))) Nat.compare)
         (on (λ l, elems (Variables l)) (cmp_list String.compare)))))).

#[export] Instance cmp_limit_comparator : Comparator cmp_limit.
Proof. unfold cmp_limit. apply _. Qed.

Lemma less_strings_cmp ci cj :
  length ci = length cj →
  less_strings ci cj = match cmp_list String.compare ci cj with
                       | Eq => None | Lt => Some false | Gt => Some true
                       end.
Proof.
  revert cj. induction ci as [|x ci IH]; intros [|y cj]; simpl; try done.
  intros [= Hl]. unfold Compare. destruct (String.compare x y); simpl; auto.
Qed.

Lemma Less_cmp a b : Less a b = at_least cmp_limit a b.
Proof.
  unfold Less, at_least, cmp_limit, lex, on.
  destruct (Z.compare_spec (MaxValue a) (MaxValue b)) as [E|E|E];
    [rewrite E, Z.eqb_refl; simpl; clear E | rewrite (proj2 (Z.eqb_neq _ _)) by lia; simpl; lia..].
  destruct (Z.compare_spec (Seconds a) (Seconds b)) as [E|E|E];
    [rewrite E, Z.eqb_refl; simpl; clear E | rewrite (proj2 (Z.eqb_neq _ _)) by lia; simpl; lia..].
  destruct (Nat.compare_spec (length (elems (Conditions a))) (length (elems (Conditions b)))) as [E|E|E];
    [rewrite (proj2 (Nat.eqb_eq _ _) E); simpl
    | rewrite (proj2 (Nat.eqb_neq _ _)) by lia; simpl;
      try (apply Nat.ltb_lt; lia); try (apply Nat.ltb_ge; lia)..].
  rewrite less_strings_cmp by done.
  destruct (cmp_list _ (elems (Conditions a)) _); try done.
  destruct (Nat.compare_spec (length (elems (Variables a))) (length (elems (Variables b)))) as [F|F|F];
    [rewrite (proj2 (Nat.eqb_eq _ _) F); simpl
    | rewrite (proj2 (Nat.eqb_neq _ _)) by lia; simpl;
      try (apply Nat.ltb_lt; lia); try (apply Nat.ltb_ge; lia)..].
  rewrite less_strings_cmp by done. by destruct (cmp_list _ (elems (Variables a)) _).
Qed.

(** What [Less] looks at. *)
Definition limit_key (l : Limit) : Z * Z * list string * list string :=
  (MaxValue l, Seconds l, elems (Conditions l), elems (Variables l)).

Lemma cmp_limit_eq a b : cmp_limit a b = Eq → limit_key a = limit_key b.
Proof.
  unfold cmp_limit, lex, on, limit_key. intros H.
  repeat match goal with
  | H : match ?c with Eq => _ | Lt => Lt | Gt => Gt end = Eq |- _ =>
      destruct c eqn:?; try discriminate H
  end.
  repeat match goal with
  | E : Z.compare _ _ = Eq |- _ => apply Z.compare_eq_iff in E
  | E : cmp_list _ _ _ = Eq |- _ =>
      apply cmp_list_eq in E; [|apply String.compare_eq_iff]
  end.
  congruence.
Qed.

Lemma Less_sort_le a b : sort_le Less a b ↔ Less a b = true.
Proof.
  unfold sort_le. rewrite !Less_cmp. split; [|auto].
  intros [|H]; [done|]. destruct (at_least_total cmp_limit a b); congruence.
Qed.

#[export] Instance Less_sort_le_trans : Transitive (sort_le Less).
Proof.
  intros a b c. rewrite !Less_sort_le, !Less_cmp. apply at_least_trans, _.
Qed.

(** Limits that [Less] cannot tell apart are the same: nothing mixes a [nil]
    and an empty list of conditions or variables. *)
Definition uniform (l : list Limit) : Prop :=
  ∀ a b, a ∈ l → b ∈ l → limit_key a = limit_key b → a = b.

Section same_limit_list.
Context `{GoSortOk}.

Lemma SameLimitList_sound a b : SameLimitList a b = true → a ≡ₚ b.
Proof.
  unfold SameLimitList. case_match; [done|]. intros Heq%bool_decide_eq_true.
  by rewrite <- (go_sort_perm _ Less a), Heq, go_sort_perm.
Qed.

Lemma SameLimitList_complete a b : uniform a → a ≡ₚ b → SameLimitList a b = true.
Proof.
  intros Hu Hp. unfold SameLimitList.
  rewrite (Permutation_length Hp), Nat.eqb_refl. simpl. apply bool_decide_eq_true.
  apply go_sort_unique; [apply _| |done].
  intros x y Hx Hy. rewrite !Less_sort_le, !Less_cmp. intros H1 H2.
  apply Hu; [done..|]. apply cmp_limit_eq. by apply (at_least_both cmp_limit).
Qed.
End same_limit_list.

(** ** The abstract view *)

Definition limits_at (l : LimitIndex) (gwKey : ObjectKey) (domain : string) : list Limit :=
  default [] (default (∅ : LimitsByDomain) (l !! gwKey) !! domain).

(** No empty entries: what the operations build from the empty index. *)
Definition index_wf (l : LimitIndex) : Prop :=
  map_Forall (λ _ (m : LimitsByDomain), m ≠ ∅ ∧ map_Forall (λ _ ls, ls ≠ []) m) l.

(** Every key of the index survives the encoding of limit namespaces. *)
Definition index_marshallable (l : LimitIndex) : Prop :=
  ∀ g d, limits_at l g d ≠ [] → marshallable g d.

Lemma limits_at_empty g d : limits_at ∅ g d = [].
Proof. unfold limits_at. by rewrite lookup_empty. Qed.

Lemma AddLimit_insert l g d x :
  AddLimit l g d x =
  <[g := <[d := limits_at l g d ++ [x]]> (default ∅ (l !! g))]> l.
Proof.
  unfold AddLimit, limits_at. destruct (l !! g) as [m|] eqn:E; simpl.
  - by rewrite E.
  - by rewrite lookup_insert_eq, insert_insert_eq.
Qed.

Lemma limits_at_AddLimit l g d x g' d' :
  limits_at (AddLimit l g d x) g' d' =
  limits_at l g' d' ++ (if decide (g = g' ∧ d = d') then [x] else []).
Proof.
  rewrite AddLimit_insert. unfold limits_at at 1. destruct (decide (g = g')) as [->|Hg].
  - rewrite lookup_insert_eq. simpl. destruct (decide (d = d')) as [->|Hd].
    + by rewrite lookup_insert_eq, decide_True.
    + rewrite lookup_insert_ne by done. rewrite decide_False by naive_solver.
      by rewrite app_nil_r.
  - rewrite lookup_insert_ne by done. rewrite decide_False by naive_solver.
    by rewrite app_nil_r.
Qed.

Lemma AddLimit_wf l g d x : index_wf l → index_wf (AddLimit l g d x).
Proof.
  intros Hwf. rewrite AddLimit_insert. apply map_Forall_insert_2; [|done].
  split; [apply insert_non_empty|]. apply map_Forall_insert_2.
  - by destruct (limits_at l g d).
  - destruct (l !! g) as [m|] eqn:E; simpl; [|apply map_Forall_empty].
    by apply (Hwf g m E).
Qed.

Lemma limits_at_AddLimits l g d xs g' d' :
  limits_at (foldl (λ l x, AddLimit l g d x) l xs) g' d' =
  limits_at l g' d' ++ (if decide (g = g' ∧ d = d') then xs else []).
Proof.
  revert l. induction xs as [|x xs IH]; intros l; simpl.
  - case_decide; by rewrite app_nil_r.
  - rewrite IH, limits_at_AddLimit, <- app_assoc. by case_decide.
Qed.

Lemma AddLimits_wf l g d xs : index_wf l → index_wf (foldl (λ l x, AddLimit l g d x) l xs).
Proof. revert l. induction xs; simpl; eauto using AddLimit_wf. Qed.

#[export] Hint Resolve AddLimit_wf AddLimits_wf : kuadrant.

Lemma limits_at_DeleteGateway l g g' d :
  limits_at (DeleteGateway l g) g' d = if decide (g = g') then [] else limits_at l g' d.
Proof.
  unfold limits_at, DeleteGateway. rewrite lookup_delete. by case_decide.
Qed.

Lemma DeleteGateway_wf l g : index_wf l → index_wf (DeleteGateway l g).
Proof. intros Hwf. by apply map_Forall_delete. Qed.

(** One loop over a map with distinct keys contributes one entry per key. *)
Lemma limits_at_AddGateway_loop l g (kvs : list (string * list Limit)) g' d' :
  NoDup kvs.*1 →
  limits_at (foldl (λ l '(domain, limitList),
               foldl (λ l limit, AddLimit l g domain limit) l limitList) l kvs) g' d' =
  limits_at l g' d' ++
    (if decide (g = g') then default [] (list_to_map (M:=gmap _ _) kvs !! d') else []).
Proof.
  revert l. induction kvs as [|[d xs] kvs IH]; intros l Hnd; simpl.
  - case_decide; by rewrite ?lookup_empty, app_nil_r.
  - inversion Hnd as [|?? Hd Hnd']; subst. rewrite IH by done.
    rewrite limits_at_AddLimits, <- app_assoc. f_equal.
    destruct (decide (g = g')) as [->|Hg].
    + destruct (decide (d = d')) as [->|Hdd].
      * rewrite decide_True by done. rewrite lookup_insert_eq.
        rewrite not_elem_of_list_to_map_1 by done. by rewrite app_nil_r.
      * rewrite decide_False by naive_solver. by rewrite lookup_insert_ne.
    + by rewrite decide_False by naive_solver.
Qed.

Lemma limits_at_AddGatewayLimits `{MapRangeOk} l g (m : LimitsByDomain) g' d' :
  limits_at (AddGatewayLimits l g m) g' d' =
  limits_at l g' d' ++ (if decide (g = g') then default [] (m !! d') else []).
Proof.
  unfold AddGatewayLimits. rewrite limits_at_AddGateway_loop by apply NoDup_map_range.
  by rewrite list_to_map_range.
Qed.

Lemma AddGatewayLimits_wf `{MapRange} l g (m : LimitsByDomain) :
  index_wf l → index_wf (AddGatewayLimits l g m).
Proof.
  unfold AddGatewayLimits. revert l.
  induction (map_range m) as [|[d xs] kvs IH]; simpl; eauto with kuadrant.
Qed.

Lemma limits_at_replace `{MapRangeOk} idx g (m : LimitsByDomain) g' d :
  limits_at (AddGatewayLimits (DeleteGateway idx g) g m) g' d =
  if decide (g = g') then default [] (m !! d) else limits_at idx g' d.
Proof.
  rewrite limits_at_AddGatewayLimits, limits_at_DeleteGateway.
  case_decide; [done|]. by rewrite app_nil_r.
Qed.

#[export] Hint Resolve DeleteGateway_wf AddGatewayLimits_wf : kuadrant.

(** The limit of the index a Limitador limit stands for. *)
Definition decode_limit (rl : LimitadorLimit) : Limit :=
  {| MaxValue := ll_MaxValue rl; Seconds := ll_Seconds rl;
     Conditions := ll_Conditions rl; Variables := ll_Variables rl |}.

Definition decodes_to (g : ObjectKey) (d : string) (rl : LimitadorLimit) : Prop :=
  UnMarshallLimitNamespace (ll_Namespace rl) = Ok (g, d).

#[export] Instance decodes_to_dec g d rl : Decision (decodes_to g d rl).
Proof. unfold decodes_to. apply _. Defined.

Lemma AddLimitFromRateLimit_eq l rl :
  AddLimitFromRateLimit l (Some rl) =
  match UnMarshallLimitNamespace (ll_Namespace rl) with
  | Ok (g, d) => AddLimit l g d (decode_limit rl)
  | _ => l
  end.
Proof.
  unfold AddLimitFromRateLimit.
  by rewrite LimitFromLimitadorRateLimit_Some.
Qed.

Lemma limits_at_loop acc rls g d :
  limits_at (foldl (λ idx limit, AddLimitFromRateLimit idx (Some limit)) acc rls) g d =
  limits_at acc g d ++ (decode_limit <$> filter (decodes_to g d) rls).
Proof.
  revert acc. induction rls as [|rl rls IH]; intros acc; simpl; [by rewrite app_nil_r|].
  rewrite IH. clear IH. rewrite AddLimitFromRateLimit_eq. unfold decodes_to at 2.
  destruct (decide (decodes_to g d rl)) as [Hd|Hd].
  - rewrite filter_cons_True by done. unfold decodes_to in Hd. rewrite Hd.
    rewrite limits_at_AddLimit, decide_True by done. by rewrite <- app_assoc.
  - rewrite filter_cons_False by done. unfold decodes_to in Hd.
    destruct (UnMarshallLimitNamespace _) as [[g' d']| |]; [|done..].
    rewrite limits_at_AddLimit, decide_False by naive_solver. by rewrite app_nil_r.
Qed.

Lemma limits_at_NewLimitadorIndex lim g d :
  limits_at (NewLimitadorIndex (Some lim)) g d =
  decode_limit <$> filter (decodes_to g d) (limitador_Limits (spec lim)).
Proof. unfold NewLimitadorIndex. by rewrite limits_at_loop, limits_at_empty. Qed.

Lemma NewLimitadorIndex_wf lim : index_wf (NewLimitadorIndex lim).
Proof.
  unfold NewLimitadorIndex. destruct lim as [lim|]; [|apply map_Forall_empty].
  cut (∀ acc, index_wf acc → index_wf (foldl (λ idx limit, AddLimitFromRateLimit idx (Some limit))
    acc (limitador_Limits (spec lim)))).
  { intros H. apply H, map_Forall_empty. }
  induction (limitador_Limits (spec lim)) as [|rl rls IH]; intros acc Hwf; simpl; [done|].
  apply IH. rewrite AddLimitFromRateLimit_eq.
  destruct (UnMarshallLimitNamespace _) as [[g d]| |]; eauto with kuadrant.
Qed.

Lemma NewLimitadorIndex_marshallable lim : index_marshallable (NewLimitadorIndex lim).
Proof.
  intros g d. destruct lim as [lim|]; [|by rewrite limits_at_empty].
  rewrite limits_at_NewLimitadorIndex. intros Hne.
  destruct (filter (decodes_to g d) _) as [|rl rls] eqn:E; [done|].
  assert (rl ∈ filter (decodes_to g d) (limitador_Limits (spec lim))) as Hin
    by (rewrite E; left).
  apply list_elem_of_filter in Hin as [Hd _]. by eapply UnMarshall_marshallable.
Qed.

#[export] Hint Resolve NewLimitadorIndex_wf NewLimitadorIndex_marshallable : kuadrant.

(** *** Writing the index back *)

Definition encode_limit (g : ObjectKey) (d : string) (x : Limit) : LimitadorLimit :=
  {| ll_Namespace := MarshallNamespace g d; ll_MaxValue := MaxValue x;
     ll_Seconds := Seconds x; ll_Variables := Variables x;
     ll_Conditions := Conditions x |}.

Lemma decode_encode_limit g d x : decode_limit (encode_limit g d x) = x.
Proof. by destruct x. Qed.

Lemma ToLimits_bind `{MapRange} l :
  ToLimits l = map_range l ≫= λ '(g, m), map_range m ≫= λ '(d, xs), encode_limit g d <$> xs.
Proof.
  unfold ToLimits.
  rewrite (foldl_app_bind _ (λ '(g, m), map_range m ≫= λ '(d, xs), encode_limit g d <$> xs));
    [done|].
  intros acc [g m]. apply foldl_app_bind. intros acc' [d xs].
  rewrite (foldl_app_bind _ (λ x, [encode_limit g d x])); [|done].
  f_equal.
Qed.

Lemma index_marshallable_lookup l g (m : LimitsByDomain) d xs :
  index_marshallable l → l !! g = Some m → m !! d = Some xs → xs ≠ [] → marshallable g d.
Proof.
  intros Hm Hg Hd Hne. apply Hm. unfold limits_at. rewrite Hg. simpl. by rewrite Hd.
Qed.

Lemma filter_encoded g d g' d' xs :
  (xs ≠ [] → marshallable g' d') →
  filter (decodes_to g d) (encode_limit g' d' <$> xs) =
    if decide (g' = g ∧ d' = d) then encode_limit g d <$> xs else [].
Proof.
  intros Hm. destruct xs as [|x xs]; [by case_decide|].
  specialize (Hm ltac:(done)).
  assert (∀ y, decodes_to g d (encode_limit g' d' y) ↔ g' = g ∧ d' = d) as Hdec.
  { intros y. unfold decodes_to. simpl. rewrite UnMarshall_Marshall by done. naive_solver. }
  destruct (decide (g' = g ∧ d' = d)) as [[-> ->]|Hne];
    induction (x :: xs) as [|y ys IH]; try done; rewrite !fmap_cons.
  - rewrite filter_cons_True by (by apply Hdec). by rewrite IH.
  - rewrite filter_cons_False by (by rewrite Hdec). apply IH.
Qed.

Lemma filter_ToLimits `{MapRangeOk} l g d :
  index_marshallable l →
  filter (decodes_to g d) (ToLimits l) = encode_limit g d <$> limits_at l g d.
Proof.
  intros Hm. rewrite ToLimits_bind, filter_bind.
  rewrite (bind_map_range _ l g).
  - unfold limits_at. destruct (l !! g) as [m|] eqn:Hg; simpl; [|by rewrite lookup_empty].
    rewrite filter_bind, (bind_map_range _ m d).
    + destruct (m !! d) as [xs|] eqn:Hd; simpl; [|done].
      rewrite filter_encoded by (intros; by eapply index_marshallable_lookup).
      by rewrite decide_True.
    + intros d' xs Hd Hne.
      rewrite filter_encoded by (intros; by eapply index_marshallable_lookup).
      by rewrite decide_False by naive_solver.
  - intros g' m Hg Hne. rewrite filter_bind. apply list_bind_nil.
    intros [d' xs] Hin%elem_of_map_range.
    rewrite filter_encoded by (intros; by eapply index_marshallable_lookup).
    by rewrite decide_False by naive_solver.
Qed.

(** Everything written is the encoding of a limit of some gateway and domain. *)
Lemma elem_of_ToLimits `{MapRangeOk} l rl :
  index_marshallable l → rl ∈ ToLimits l →
  ∃ g d x, marshallable g d ∧ rl = encode_limit g d x.
Proof.
  intros Hm. rewrite ToLimits_bind.
  intros ([g m] & Hrl & Hg%elem_of_map_range)%list_elem_of_bind.
  apply list_elem_of_bind in Hrl as ([d xs] & Hrl & Hd%elem_of_map_range).
  apply list_elem_of_fmap in Hrl as (x & -> & Hx). exists g, d, x. split; [|done].
  eapply index_marshallable_lookup; [done..|]. by intros ->; apply not_elem_of_nil in Hx.
Qed.

(** What is stored under the limit namespace of a gateway and a domain *)
Lemma filter_ToLimits_namespace `{MapRangeOk} l g d :
  index_marshallable l → marshallable g d →
  filter (λ rl, ll_Namespace rl = MarshallNamespace g d) (ToLimits l) =
  encode_limit g d <$> limits_at l g d.
Proof.
  intros Hm Hgd. rewrite <- filter_ToLimits by done. apply filter_agree.
  intros rl (g' & d' & x & Hgd' & ->)%elem_of_ToLimits; [|done].
  unfold decodes_to. cbn [encode_limit ll_Namespace]. split.
  - intros ->. by apply UnMarshall_Marshall.
  - rewrite UnMarshall_Marshall by done. by intros [= -> ->].
Qed.

(** Reading back what was written. *)
Definition with_limits (lim : Limitador) (ls : list LimitadorLimit) : Limitador :=
  set_spec lim {| limitador_Limits := ls |}.

Lemma limits_at_reread `{MapRangeOk} lim l g d :
  index_marshallable l →
  limits_at (NewLimitadorIndex (Some (with_limits lim (ToLimits l)))) g d = limits_at l g d.
Proof.
  intros Hm. rewrite limits_at_NewLimitadorIndex. simpl. rewrite filter_ToLimits by done.
  rewrite <- list_fmap_compose. rewrite <- (list_fmap_id (limits_at l g d)) at 2.
  apply list_fmap_ext. intros i x _. apply decode_encode_limit.
Qed.

(** *** Extensionality and equality of indexes *)

Lemma index_wf_lookup l g (m : LimitsByDomain) d :
  index_wf l → l !! g = Some m →
  m !! d = match limits_at l g d with [] => None | xs => Some xs end.
Proof.
  intros Hwf Hg. destruct (Hwf g m Hg) as [_ Hm]. unfold limits_at. rewrite Hg. simpl.
  destruct (m !! d) as [xs|] eqn:Hd; simpl; [|done].
  specialize (Hm d xs Hd). by destruct xs.
Qed.

Lemma index_wf_none l g :
  index_wf l → l !! g = None ↔ ∀ d, limits_at l g d = [].
Proof.
  intros Hwf. split.
  - intros Hg d. unfold limits_at. by rewrite Hg.
  - intros Hall. destruct (l !! g) as [m|] eqn:Hg; [|done].
    destruct (Hwf g m Hg) as [Hne Hm]. destruct Hne. apply map_eq. intros d.
    rewrite (index_wf_lookup l g m d), Hall by done. by rewrite lookup_empty.
Qed.

Lemma index_ext l k :
  index_wf l → index_wf k → (∀ g d, limits_at l g d = limits_at k g d) → l = k.
Proof.
  intros Hl Hk Heq. apply map_eq. intros g.
  destruct (l !! g) as [m|] eqn:Hlg.
  - destruct (k !! g) as [m'|] eqn:Hkg.
    + f_equal. apply map_eq. intros d.
      by rewrite (index_wf_lookup l g m d), (index_wf_lookup k g m' d), Heq.
    + rewrite (index_wf_none k g Hk) in Hkg.
      assert (l !! g = None); [|congruence]. apply index_wf_none; [done|].
      intros d. by rewrite Heq.
  - symmetry. apply index_wf_none; [done|]. intros d. rewrite <- Heq.
    by apply index_wf_none.
Qed.

(** Two indexes hold the same limits, in whatever order. *)
Definition index_equiv (l k : LimitIndex) : Prop :=
  ∀ g d, limits_at l g d ≡ₚ limits_at k g d.

#[export] Instance index_equiv_equivalence : Equivalence index_equiv.
Proof.
  split.
  - by intros l g d.
  - intros l k H g d. by symmetry.
  - intros l k j H1 H2 g d. by transitivity (limits_at k g d).
Qed.

#[export] Instance DeleteGateway_proper :
  Proper (index_equiv ==> eq ==> index_equiv) DeleteGateway.
Proof.
  intros l k H g _ <- g' d. rewrite !limits_at_DeleteGateway. by case_decide.
Qed.

#[export] Instance AddGatewayLimits_proper `{MapRangeOk} :
  Proper (index_equiv ==> eq ==> eq ==> index_equiv) AddGatewayLimits.
Proof.
  intros l k Hlk g _ <- m _ <- g' d. rewrite !limits_at_AddGatewayLimits.
  by rewrite (Hlk g' d).
Qed.

Definition uniform_index (l : LimitIndex) : Prop := ∀ g d, uniform (limits_at l g d).

Section index_equals.
Context `{GoSortOk, MapRangeOk}.

Definition same_by_domain (m1 m2 : LimitsByDomain) : Prop :=
  map_Forall2 (λ _ a b, SameLimitList a b = true) m1 m2.

Lemma LBD_Equals_Forall2 (m1 m2 : LimitsByDomain) :
  LBD.Equals m1 (Some m2) = true ↔
  same_by_domain m1 m2.
Proof.
  unfold same_by_domain. rewrite map_Forall2_by_size. unfold LBD.Equals.
  destruct (Nat.eqb_spec (size m1) (size m2)) as [Hs|Hs]; simpl; [|naive_solver].
  rewrite forallb_map_range. split.
  - intros HF. split; [done|]. intros d xs Hd. specialize (HF d xs Hd). simpl in HF.
    destruct (m2 !! d); [eauto|done].
  - intros [_ HF] d xs Hd. simpl. by destruct (HF d xs Hd) as (xs' & -> & ?).
Qed.

Lemma LI_Equals_Forall2 (l k : LimitIndex) :
  LI.Equals l (Some k) = true ↔
  map_Forall2 (λ _, same_by_domain) l k.
Proof.
  rewrite map_Forall2_by_size. unfold LI.Equals.
  destruct (Nat.eqb_spec (size l) (size k)) as [Hs|Hs]; simpl; [|naive_solver].
  rewrite forallb_map_range. split.
  - intros HF. split; [done|]. intros g m Hg. specialize (HF g m Hg). simpl in HF.
    destruct (k !! g); [|done]. eexists. split; [done|]. by apply LBD_Equals_Forall2.
  - intros [_ HF] g m Hg. simpl. destruct (HF g m Hg) as (m' & -> & ?).
    by apply LBD_Equals_Forall2.
Qed.

Lemma LI_Equals_sound l k : LI.Equals l (Some k) = true → index_equiv l k.
Proof.
  rewrite LI_Equals_Forall2. intros HF g d. specialize (HF g). unfold limits_at.
  inversion HF as [m m' Hm|]; simpl; [|by rewrite lookup_empty].
  specialize (Hm d). inversion Hm; simpl; [by apply SameLimitList_sound|done].
Qed.

Lemma SameLimitList_refl a : SameLimitList a a = true.
Proof. unfold SameLimitList. rewrite Nat.eqb_refl. cbn [negb]. by apply bool_decide_eq_true. Qed.

Lemma SameLimitList_length a b : SameLimitList a b = true → length a = length b.
Proof. unfold SameLimitList. by destruct (Nat.eqb_spec (length a) (length b)). Qed.

(** Equality of indexes, entry by entry. *)
Lemma LI_Equals_limits_at l k :
  index_wf l → index_wf k →
  LI.Equals l (Some k) = true ↔
  ∀ g d, SameLimitList (limits_at l g d) (limits_at k g d) = true.
Proof.
  intros Hl Hk. rewrite LI_Equals_Forall2. split.
  - intros HF g d. specialize (HF g). unfold limits_at.
    inversion HF as [m m' Hm|]; simpl; [|rewrite lookup_empty; apply SameLimitList_refl].
    specialize (Hm d). inversion Hm; [done|apply SameLimitList_refl].
  - intros Hs g. assert (∀ d, limits_at l g d = [] ↔ limits_at k g d = []) as Hnil.
    { intros d. specialize (Hs g d). apply SameLimitList_length in Hs.
      by rewrite <- !length_zero_iff_nil, Hs. }
    destruct (l !! g) as [m|] eqn:Hlg, (k !! g) as [m'|] eqn:Hkg.
    + constructor. intros d.
      rewrite (index_wf_lookup l g m d), (index_wf_lookup k g m' d) by done.
      generalize (Hs g d), (Hnil d).
      destruct (limits_at l g d), (limits_at k g d); intros Hsd Hd; try by constructor.
      * by discriminate (proj1 Hd eq_refl).
      * by discriminate (proj2 Hd eq_refl).
    + exfalso. rewrite (index_wf_none k g Hk) in Hkg.
      assert (l !! g = None); [|congruence]. apply index_wf_none; [done|].
      intros d. by apply Hnil.
    + exfalso. rewrite (index_wf_none l g Hl) in Hlg.
      assert (k !! g = None); [|congruence]. apply index_wf_none; [done|].
      intros d. by apply Hnil.
    + constructor.
Qed.

Lemma LI_Equals_complete l k :
  index_wf l → index_wf k → uniform_index l → index_equiv l k →
  LI.Equals l (Some k) = true.
Proof.
  intros Hl Hk Hu He. apply LI_Equals_limits_at; [done..|]. intros g d.
  by apply SameLimitList_complete.
Qed.
End index_equals.

(** The [nil]/empty distinction is invisible to [Less] but not to the final
    comparison: the same two limits in another order are not recognised. *)
Definition nil_limit : Limit :=
  {| MaxValue := 1; Seconds := 1; Conditions := None; Variables := None |}.
Definition empty_limit : Limit :=
  {| MaxValue := 1; Seconds := 1; Conditions := Some []; Variables := None |}.
Example SameLimitList_nil_empty :
  [nil_limit; empty_limit] ≡ₚ [empty_limit; nil_limit] ∧
  SameLimitList [nil_limit; empty_limit] [empty_limit; nil_limit] = false.
Proof. split; [constructor|vm_compute; reflexivity]. Qed.

(** ** Properties *)

(** [Less] is a total preorder, and two limits are tied exactly when they
    agree on maximum, seconds and the strings of their conditions and
    variables; so sorting with it is well defined up to such ties. *)
Theorem Less_total_preorder :
  (∀ a b, Less a b = true ∨ Less b a = true) ∧
  (∀ a b c, Less a b = true → Less b c = true → Less a c = true) ∧
  (∀ a b, (Less a b = true ∧ Less b a = true) ↔ limit_key a = limit_key b).
Proof.
  split; [|split].
  - intros a b. rewrite !Less_cmp. apply at_least_total, _.
  - intros a b c. rewrite !Less_cmp. apply at_least_trans, _.
  - intros a b. split.
    + rewrite !Less_cmp. intros [H1 H2]. by apply cmp_limit_eq, (at_least_both cmp_limit).
    + unfold limit_key. intros [= H1 H2 H3 H4].
      split; rewrite Less_cmp; unfold at_least, cmp_limit, lex, on;
        rewrite H1, H2, H3, H4, !cmp_refl by apply _; done.
Qed.

(** [SameLimitList] answers true only for lists that are rearrangements
    of each other, and for all of them when the limits do not mix [nil] and
    empty slices; the sorting function is arbitrary. *)
Theorem SameLimitList_correct (GS : GoSort) (GSok : GoSortOk) (a b : list Limit) :
  (SameLimitList a b = true → a ≡ₚ b) ∧
  (uniform a → SameLimitList a b = true ↔ a ≡ₚ b).
Proof.
  split; [apply SameLimitList_sound|]. intros Hu.
  split; [apply SameLimitList_sound|by apply SameLimitList_complete].
Qed.

Definition other_limit : Limit :=
  {| MaxValue := 2; Seconds := 1; Conditions := None; Variables := None |}.

Lemma SameLimitList_correct_witness :
  uniform [nil_limit; other_limit] ∧
  (SameLimitList [nil_limit; other_limit] [other_limit; nil_limit] = true ↔
   [nil_limit; other_limit] ≡ₚ [other_limit; nil_limit]).
Proof.
  assert (uniform [nil_limit; other_limit]) as Hu.
  { intros a b. rewrite !elem_of_cons. unfold limit_key. intros Ha Hb Hk.
    destruct_or!; subst; by (try apply elem_of_nil in Ha; try apply elem_of_nil in Hb). }
  split; [exact Hu|].
  apply (SameLimitList_correct go_merge_sort go_merge_sort_ok), Hu.
Defined.

(** Two indexes compare equal only if every gateway and domain holds the
    same limits up to order; for well-formed indexes of uniform limits the
    converse holds, whatever the sorting function and the map order. *)
Theorem LimitIndex_Equals_correct (GS : GoSort) (GSok : GoSortOk)
    (MR : MapRange) (MRok : MapRangeOk) (l k : LimitIndex) :
  (LI.Equals l (Some k) = true → index_equiv l k) ∧
  (index_wf l → index_wf k → uniform_index l →
   LI.Equals l (Some k) = true ↔ index_equiv l k) ∧
  LI.Equals l None = false.
Proof.
  split; [apply LI_Equals_sound|]. split; [|done]. intros Hl Hk Hu.
  split; [apply LI_Equals_sound|by apply LI_Equals_complete].
Qed.

Lemma LimitIndex_Equals_correct_witness :
  let l := AddLimit (AddLimit ∅ {| Namespace := "ns"; Name := "gw" |} "*.com" nil_limit)
             {| Namespace := "ns"; Name := "gw" |} "*.com" other_limit in
  let k := AddLimit (AddLimit ∅ {| Namespace := "ns"; Name := "gw" |} "*.com" other_limit)
             {| Namespace := "ns"; Name := "gw" |} "*.com" nil_limit in
  LI.Equals l (Some k) = true ∧ index_equiv l k ∧ LI.Equals l None = false.
Proof.
  intros l k. assert (LI.Equals l (Some k) = true) as Heq by (vm_compute; reflexivity).
  destruct (LimitIndex_Equals_correct go_merge_sort go_merge_sort_ok map_range_default
    map_range_default_ok l k) as (Hs & _ & Hn).
  split; [exact Heq|]. split; [exact (Hs Heq)|exact Hn].
Defined.

(** C22: writing an index to the Limitador object and indexing that object
    again gives the same index back, for every index built by the operations
    from encodable keys, and whatever order the maps are iterated in. *)
Theorem index_roundtrip (MR : MapRange) (MRok : MapRangeOk)
    (lim : Limitador) (l : LimitIndex)
    (Hwf : index_wf l) (Hm : index_marshallable l) :
  NewLimitadorIndex (Some (with_limits lim (ToLimits l))) = l.
Proof.
  apply index_ext; [apply NewLimitadorIndex_wf|done|].
  intros g d. by apply limits_at_reread.
Qed.

Definition sample_limitador (ls : list LimitadorLimit) : Limitador :=
  Build_object (new_meta "limitador" "kuadrant-system") {| limitador_Limits := ls |}
    {| limitador_Ready := true; limitador_Host := "limitador.svc"; limitador_GRPC := 8081 |}.
Definition sample_gw_key : ObjectKey := {| Namespace := "istio-system"; Name := "gw" |}.
Definition sample_index : LimitIndex :=
  AddLimit (AddLimit ∅ sample_gw_key "*.com" nil_limit) sample_gw_key "*.net" empty_limit.

Lemma index_roundtrip_witness :
  sample_index ≠ ∅ ∧
  NewLimitadorIndex (Some (with_limits (sample_limitador []) (ToLimits sample_index)))
    = sample_index.
Proof.
  split; [apply (bool_decide_unpack _); vm_compute; exact I|].
  apply (index_roundtrip map_range_default map_range_default_ok).
  - repeat apply AddLimit_wf. apply map_Forall_empty.
  - intros g d. unfold sample_index. rewrite !limits_at_AddLimit, limits_at_empty.
    intros H. destruct (decide (sample_gw_key = g ∧ "*.com" = d)) as [[<- <-]|_];
      [repeat split|].
    destruct (decide (sample_gw_key = g ∧ "*.net" = d)) as [[<- <-]|_];
      [repeat split|]. by destruct H.
Defined.

(** Indexing the limits of Limitador and writing the index back keeps, for
    every gateway and domain, exactly the limits that decode to it, in order,
    and drops every limit whose namespace does not decode: limits put there by
    somebody else do not survive an update. *)
Theorem foreign_limits_are_dropped (MR : MapRange) (MRok : MapRangeOk) (lim : Limitador) :
  let written := ToLimits (NewLimitadorIndex (Some lim)) in
  (∀ g d, decode_limit <$> filter (decodes_to g d) written =
          decode_limit <$> filter (decodes_to g d) (limitador_Limits (spec lim))) ∧
  (∀ rl, rl ∈ written → ∃ g d, decodes_to g d rl).
Proof.
  intros written. subst written. split.
  - intros g d. rewrite filter_ToLimits by apply NewLimitadorIndex_marshallable.
    rewrite <- limits_at_NewLimitadorIndex, <- list_fmap_compose.
    rewrite <- (list_fmap_id (limits_at _ g d)) at 2.
    apply list_fmap_ext. intros i x _. apply decode_encode_limit.
  - intros rl. rewrite ToLimits_bind.
    intros ([g m] & Hrl & Hg%elem_of_map_range)%list_elem_of_bind.
    apply list_elem_of_bind in Hrl as ([d xs] & Hrl & Hd%elem_of_map_range).
    apply list_elem_of_fmap in Hrl as (x & -> & Hx).
    exists g, d. apply UnMarshall_Marshall.
    eapply index_marshallable_lookup; [apply NewLimitadorIndex_marshallable|done|done|].
    by intros ->; apply not_elem_of_nil in Hx.
Qed.

(** C23: deleting a gateway and adding its recomputed limits replaces exactly
    that gateway's entries, for every iteration order, and keeps the index
    well formed; adding without deleting would append. *)
Theorem replace_gateway_limits (MR : MapRange) (MRok : MapRangeOk)
    (l : LimitIndex) (g : ObjectKey) (m : LimitsByDomain) :
  (index_wf l → index_wf (AddGatewayLimits (DeleteGateway l g) g m)) ∧
  (∀ g' d, limits_at (AddGatewayLimits (DeleteGateway l g) g m) g' d =
     if decide (g = g') then default [] (m !! d) else limits_at l g' d) ∧
  (∀ d, limits_at (AddGatewayLimits l g m) g d =
     limits_at l g d ++ default [] (m !! d)).
Proof.
  split; [eauto with kuadrant|]. split.
  - intros g' d. rewrite limits_at_AddGatewayLimits, limits_at_DeleteGateway.
    case_decide; [done|]. by rewrite app_nil_r.
  - intros d. by rewrite limits_at_AddGatewayLimits, decide_True.
Qed.

Lemma foreign_limits_are_dropped_witness :
  let foreign := {| ll_Namespace := "my-app"; ll_MaxValue := 5; ll_Seconds := 60;
                    ll_Conditions := None; ll_Variables := None |} in
  foreign ∉ ToLimits (NewLimitadorIndex (Some (sample_limitador [foreign]))).
Proof.
  intros foreign Hin.
  destruct (proj2 (foreign_limits_are_dropped map_range_default map_range_default_ok
    (sample_limitador [foreign])) foreign Hin) as (g & d & Hgd).
  discriminate Hgd.
Defined.

Lemma replace_gateway_limits_witness :
  limits_at (AddGatewayLimits (DeleteGateway sample_index sample_gw_key) sample_gw_key
               (<["api.com" := [other_limit]]> ∅)) sample_gw_key "*.com" = [] ∧
  limits_at (AddGatewayLimits (DeleteGateway sample_index sample_gw_key) sample_gw_key
               (<["api.com" := [other_limit]]> ∅)) sample_gw_key "api.com" = [other_limit].
Proof.
  destruct (replace_gateway_limits map_range_default map_range_default_ok sample_index
    sample_gw_key (<["api.com" := [other_limit]]> ∅)) as (_ & H & _).
  split; exact (H sample_gw_key _).
Defined.
