(* ===== verification/JsonText.v ===== *)
(** * JSON text

    JSON values, the compact text [json.Marshal] writes for one, and a parser;
    printing and then parsing gives the value back.  Strings are UTF-8 text, as
    everything the API server stores; their bytes from 0x80 on are copied but
    for U+2028 and U+2029, which [json.Marshal] escapes. *)
From S2P Require Import Prelude GoStrings.

(** ** JSON text *)

Inductive json :=
  | JNull
  | JBool (b : bool)
  | JNumber (n : string)
  | JString (s : string)
  | JArray (l : list json)
  | JObject (l : list (string * json)).

Definition quote : ascii := Ascii.ascii_of_nat 34.
Definition backslash : ascii := Ascii.ascii_of_nat 92.

Definition hex_digit (n : nat) : ascii :=
  Ascii.ascii_of_nat (if (n <? 10)%nat then 48 + n else 87 + n).

(** [\u00xy] *)
Definition unicode_escape (c : ascii) : string :=
  let n := Ascii.nat_of_ascii c in
  String backslash (String "u" (String "0" (String "0"
    (String (hex_digit (n / 16)) (String (hex_digit (n mod 16)) empty_string))))).

(** How one byte is written inside a string literal (HTML-safe, the default of
    [json.Marshal]). *)
Definition escape_byte (c : ascii) : string :=
  let n := Ascii.nat_of_ascii c in
  if (n =? 34)%nat || (n =? 92)%nat then String backslash (String c empty_string)
  else if (n =? 10)%nat then String backslash (String "n" empty_string)
  else if (n =? 13)%nat then String backslash (String "r" empty_string)
  else if (n =? 9)%nat then String backslash (String "t" empty_string)
  else if (n <? 32)%nat || (n =? 60)%nat || (n =? 62)%nat || (n =? 38)%nat
  then unicode_escape c
  else String c empty_string.

(** The two line separators in UTF-8: the last digit of their code point. *)
Definition separator_digit (a b c : ascii) : option ascii :=
  if bool_decide (a = "226"%char) && bool_decide (b = "128"%char) then
    if bool_decide (c = "168"%char) then Some "8"%char
    else if bool_decide (c = "169"%char) then Some "9"%char
    else None
  else None.

Fixpoint escape (s : string) : string :=
  match s with
  | EmptyString => empty_string
  | String a s1 =>
      match s1 with
      | String b (String c s3) =>
          match separator_digit a b c with
          | Some d => String backslash (String "u" (String "2" (String "0" (String "2"
                        (String d empty_string))))) +:+ escape s3
          | None => escape_byte a +:+ escape s1
          end
      | _ => escape_byte a +:+ escape s1
      end
  end.

Definition string_literal (s : string) : string :=
  String quote (escape s +:+ String quote empty_string).

Definition hex_value (c : ascii) : option N :=
  let n := Ascii.N_of_ascii c in
  if (48 <=? n)%N && (n <=? 57)%N then Some (n - 48)%N
  else if (97 <=? n)%N && (n <=? 102)%N then Some (n - 87)%N
  else if (65 <=? n)%N && (n <=? 70)%N then Some (n - 55)%N
  else None.

Definition hex4 (a b c d : ascii) : option N :=
  match hex_value a, hex_value b, hex_value c, hex_value d with
  | Some a, Some b, Some c, Some d => Some (((a * 16 + b) * 16 + c) * 16 + d)%N
  | _, _, _, _ => None
  end.

(** UTF-8 of a code point *)
Definition utf8 (n : N) : string :=
  let byte k := Ascii.ascii_of_N k in
  if (n <? 128)%N then String (byte n) empty_string
  else if (n <? 2048)%N then
    String (byte (192 + n / 64)%N) (String (byte (128 + n mod 64)%N) empty_string)
  else if (n <? 65536)%N then
    String (byte (224 + n / 4096)%N) (String (byte (128 + n / 64 mod 64)%N)
      (String (byte (128 + n mod 64)%N) empty_string))
  else
    String (byte (240 + n / 262144)%N) (String (byte (128 + n / 4096 mod 64)%N)
      (String (byte (128 + n / 64 mod 64)%N)
        (String (byte (128 + n mod 64)%N) empty_string))).

Definition replacement : string := utf8 65533.

Definition is_surrogate (n : N) : bool := (55296 <=? n)%N && (n <? 57344)%N.

(** [utf16.DecodeRune] of a surrogate half and an escape that follows it. *)
Definition surrogate_pair (n : N) (b u h1 h2 h3 h4 : ascii) : option N :=
  if bool_decide (b = backslash) && bool_decide (u = "u"%char) then
    match hex4 h1 h2 h3 h4 with
    | Some lo =>
        if (n <? 56320)%N && (56320 <=? lo)%N && (lo <? 57344)%N
        then Some (65536 + (n - 55296) * 1024 + (lo - 56320))%N else None
    | None => None
    end
  else None.

(** The rest of a string literal, after the opening quote.  Two escaped
    surrogate halves make one character, a half alone becomes the replacement
    character. *)
Fixpoint parse_string (s : string) : option (string * string) :=
  let cons1 (p : string) (r : option (string * string)) :=
    match r with Some (x, rest) => Some (p +:+ x, rest) | None => None end in
  match s with
  | EmptyString => None
  | String c s =>
      if decide (c = quote) then Some (empty_string, s)
      else if decide (c = backslash) then
        match s with
        | String e s =>
            let n := Ascii.nat_of_ascii e in
            if (n =? 34)%nat || (n =? 92)%nat || (n =? 47)%nat
            then cons1 (String e empty_string) (parse_string s)
            else if (n =? 98)%nat then cons1 (utf8 8) (parse_string s)
            else if (n =? 102)%nat then cons1 (utf8 12) (parse_string s)
            else if (n =? 110)%nat then cons1 (utf8 10) (parse_string s)
            else if (n =? 114)%nat then cons1 (utf8 13) (parse_string s)
            else if (n =? 116)%nat then cons1 (utf8 9) (parse_string s)
            else if (n =? 117)%nat then
              match s with
              | String h1 (String h2 (String h3 (String h4 s))) =>
                  match hex4 h1 h2 h3 h4 with
                  | Some n =>
                      if is_surrogate n then
                        match s with
                        | String b (String u (String g1 (String g2 (String g3 (String g4 s'))))) =>
                            match surrogate_pair n b u g1 g2 g3 g4 with
                            | Some r => cons1 (utf8 r) (parse_string s')
                            | None => cons1 replacement (parse_string s)
                            end
                        | _ => cons1 replacement (parse_string s)
                        end
                      else cons1 (utf8 n) (parse_string s)
                  | None => None
                  end
              | _ => None
              end
            else None
        | EmptyString => None
        end
      else if (Ascii.nat_of_ascii c <? 32)%nat then None
      else cons1 (String c empty_string) (parse_string s)
  end.

Fixpoint skip_ws (s : string) : string :=
  match s with
  | String c s' =>
      let n := Ascii.nat_of_ascii c in
      if (n =? 32)%nat || (n =? 9)%nat || (n =? 10)%nat || (n =? 13)%nat
      then skip_ws s' else s
  | EmptyString => s
  end.

Fixpoint strip_prefix (p s : string) : option string :=
  match p, s with
  | EmptyString, _ => Some s
  | String a p, String b s => if decide (a = b) then strip_prefix p s else None
  | _, _ => None
  end.

(** Numbers are read as text: a run of the characters numbers are made of. *)
Fixpoint span_number (s : string) : string * string :=
  match s with
  | String c s' =>
      let n := Ascii.nat_of_ascii c in
      if ((48 <=? n)%nat && (n <=? 57)%nat) || (n =? 45)%nat || (n =? 43)%nat ||
         (n =? 46)%nat || (n =? 101)%nat || (n =? 69)%nat
      then let '(d, r) := span_number s' in (String c d, r)
      else (empty_string, s)
  | EmptyString => (empty_string, s)
  end.

(** One value after white space; every call consumes a byte, so the length of
    the text is enough [fuel]. *)
Fixpoint parse_value (fuel : nat) (s : string) : option (json * string) :=
  match fuel with
  | O => None
  | S fuel =>
      match skip_ws s with
      | String c s' =>
          if decide (c = quote) then
            '(x, r) ← parse_string s'; Some (JString x, r)
          else if decide (c = "["%char) then
            match skip_ws s' with
            | String c' r =>
                if decide (c' = "]"%char) then Some (JArray [], r)
                else '(l, r) ← parse_elements fuel s'; Some (JArray l, r)
            | EmptyString => None
            end
          else if decide (c = "{"%char) then
            match skip_ws s' with
            | String c' r =>
                if decide (c' = "}"%char) then Some (JObject [], r)
                else '(l, r) ← parse_members fuel s'; Some (JObject l, r)
            | EmptyString => None
            end
          else
            match strip_prefix "null" (skip_ws s), strip_prefix "true" (skip_ws s),
                  strip_prefix "false" (skip_ws s) with
            | Some r, _, _ => Some (JNull, r)
            | _, Some r, _ => Some (JBool true, r)
            | _, _, Some r => Some (JBool false, r)
            | None, None, None =>
                match span_number (skip_ws s) with
                | (EmptyString, _) => None
                | (n, r) => Some (JNumber n, r)
                end
            end
      | EmptyString => None
      end
  end
with parse_elements (fuel : nat) (s : string) : option (list json * string) :=
  match fuel with
  | O => None
  | S fuel =>
      '(v, r) ← parse_value fuel s;
      match skip_ws r with
      | String c r =>
          if decide (c = ","%char) then
            '(l, r) ← parse_elements fuel r; Some (v :: l, r)
          else if decide (c = "]"%char) then Some ([v], r)
          else None
      | EmptyString => None
      end
  end
with parse_members (fuel : nat) (s : string) : option (list (string * json) * string) :=
  match fuel with
  | O => None
  | S fuel =>
      match skip_ws s with
      | String c s =>
          if decide (c = quote) then
            '(k, r) ← parse_string s;
            match skip_ws r with
            | String c r =>
                if decide (c = ":"%char) then
                  '(v, r) ← parse_value fuel r;
                  match skip_ws r with
                  | String c r =>
                      if decide (c = ","%char) then
                        '(l, r) ← parse_members fuel r; Some ((k, v) :: l, r)
                      else if decide (c = "}"%char) then Some ([(k, v)], r)
                      else None
                  | EmptyString => None
                  end
                else None
            | EmptyString => None
            end
          else None
      | EmptyString => None
      end
  end.

Definition parse_json (s : string) : option json :=
  match parse_value (S (String.length s)) s with
  | Some (v, r) => match skip_ws r with EmptyString => Some v | _ => None end
  | None => None
  end.

(** ** Printing *)

(** [a,b,c] and the closing bracket. *)
Fixpoint separated (texts : list string) (close : string) : string :=
  match texts with
  | [] => close
  | [t] => t +:+ close
  | t :: texts => t +:+ String "," (separated texts close)
  end.

Fixpoint print_json (j : json) : string :=
  match j with
  | JNull => "null"
  | JBool true => "true"
  | JBool false => "false"
  | JNumber n => n
  | JString s => string_literal s
  | JArray l => String "[" (separated (map print_json l) "]")
  | JObject l =>
      String "{" (separated (map (λ '(k, v), string_literal k +:+ String ":" (print_json v)) l)
                    "}")
  end.

(** ** The round trip *)

Definition push (p : string) (r : option (string * string)) : option (string * string) :=
  match r with Some (x, rest) => Some (p +:+ x, rest) | None => None end.

Lemma parse_plain_byte c t :
  c ≠ quote → c ≠ backslash → (Ascii.nat_of_ascii c <? 32)%nat = false →
  parse_string (String c t) = push (String c empty_string) (parse_string t).
Proof.
  intros Hq Hb Hc. cbn [parse_string]. by rewrite !decide_False, Hc.
Qed.

Lemma parse_unicode_escape c t :
  (Ascii.nat_of_ascii c <? 128)%nat = true →
  parse_string (unicode_escape c +:+ t) = push (String c empty_string) (parse_string t).
Proof.
  intros Hc. unfold unicode_escape. rewrite !string_app_cons, string_app_nil_l.
  assert (hex4 "0" "0" (hex_digit (Ascii.nat_of_ascii c / 16))
            (hex_digit (Ascii.nat_of_ascii c mod 16)) = Some (Ascii.N_of_ascii c) ∧
          utf8 (Ascii.N_of_ascii c) = String c empty_string ∧
          is_surrogate (Ascii.N_of_ascii c) = false)
    as (Hh & Hu & Hr).
  { destruct c as [[] [] [] [] [] [] [] []]; try discriminate Hc;
      (split; [|split]); vm_compute; reflexivity. }
  cbn [parse_string]. rewrite decide_False, decide_True by done.
  change (Ascii.nat_of_ascii "u") with 117. cbn [Nat.eqb orb].
  by rewrite Hh, Hr, Hu.
Qed.

Lemma parse_short_escape e c t :
  (e, c) ∈ [(quote, quote); (backslash, backslash); ("n", "010"); ("r", "013");
            ("t", "009")]%char →
  parse_string (String backslash (String e t)) = push (String c empty_string) (parse_string t).
Proof.
  intros H. cbn [parse_string]. rewrite decide_False, decide_True by done.
  repeat (apply elem_of_cons in H as [[= -> ->]|H]; [reflexivity|]).
  by apply not_elem_of_nil in H.
Qed.

Lemma ascii_code_inj c n : (Ascii.nat_of_ascii c =? n)%nat = true → c = Ascii.ascii_of_nat n.
Proof.
  intros <-%Nat.eqb_eq. by rewrite Ascii.ascii_nat_embedding.
Qed.

Lemma parse_escape_byte c t :
  parse_string (escape_byte c +:+ t) = push (String c empty_string) (parse_string t).
Proof.
  unfold escape_byte.
  destruct (Ascii.nat_of_ascii c =? 34)%nat eqn:E34; cbn [orb].
  { apply ascii_code_inj in E34 as ->. by apply parse_short_escape; left. }
  destruct (Ascii.nat_of_ascii c =? 92)%nat eqn:E92.
  { apply ascii_code_inj in E92 as ->. by apply parse_short_escape; right; left. }
  destruct (Ascii.nat_of_ascii c =? 10)%nat eqn:E10.
  { apply ascii_code_inj in E10 as ->. apply parse_short_escape. set_solver. }
  destruct (Ascii.nat_of_ascii c =? 13)%nat eqn:E13.
  { apply ascii_code_inj in E13 as ->. apply parse_short_escape. set_solver. }
  destruct (Ascii.nat_of_ascii c =? 9)%nat eqn:E9.
  { apply ascii_code_inj in E9 as ->. apply parse_short_escape. set_solver. }
  case_match eqn:Eu.
  - apply parse_unicode_escape. apply Nat.ltb_lt.
    rewrite !orb_true_iff, Nat.ltb_lt, !Nat.eqb_eq in Eu. lia.
  - rewrite !orb_false_iff in Eu. destruct Eu as [[[Hlt _] _] _].
    apply parse_plain_byte; [intros ->; done..|done].
Qed.

Lemma parse_separator a b c d t :
  separator_digit a b c = Some d →
  parse_string (String backslash (String "u" (String "2" (String "0" (String "2"
    (String d t)))))) = push (String a (String b (String c empty_string))) (parse_string t).
Proof.
  unfold separator_digit. intros H.
  destruct (bool_decide (a = _)) eqn:Ha; [|done]. destruct (bool_decide (b = _)) eqn:Hb; [|done].
  apply bool_decide_eq_true in Ha as ->. apply bool_decide_eq_true in Hb as ->. simpl in H.
  destruct (bool_decide (c = "168"%char)) eqn:Hc.
  { apply bool_decide_eq_true in Hc as ->. injection H as <-. reflexivity. }
  destruct (bool_decide (c = "169"%char)) eqn:Hc'; [|done].
  apply bool_decide_eq_true in Hc' as ->. injection H as <-. reflexivity.
Qed.

(** Escaping goes through a string by one byte or by a separator. *)
Lemma escape_ind (P : string → string → Prop) :
  P empty_string empty_string →
  (∀ c s, P s (escape s) → P (String c s) (escape_byte c +:+ escape s)) →
  (∀ a b c d s, separator_digit a b c = Some d → P s (escape s) →
     P (String a (String b (String c s)))
       (String backslash (String "u" (String "2" (String "0" (String "2"
          (String d empty_string))))) +:+ escape s)) →
  ∀ s, P s (escape s).
Proof.
  intros H0 H1 H3 s. remember (String.length s) as n eqn:Hn. revert s Hn.
  induction n as [n IH] using lt_wf_ind. intros s ->.
  destruct s as [|a s1]; [done|]. cbn [escape].
  destruct s1 as [|b [|c s3]]; try (apply H1, (IH _ (Nat.lt_succ_diag_r _)); done).
  destruct (separator_digit a b c) as [d|] eqn:Hd.
  - apply H3; [done|]. eapply IH; [|done]. simpl. lia.
  - apply H1. eapply IH; [|done]. simpl. lia.
Qed.

Lemma parse_escape s rest :
  parse_string (escape s +:+ String quote rest) = Some (s, rest).
Proof.
  revert s. refine (escape_ind (λ s e, parse_string (e +:+ String quote rest) = Some (s, rest))
    _ _ _); [done|..].
  - intros c s IH. by rewrite string_app_assoc, parse_escape_byte, IH.
  - intros a b c d s Hd IH. rewrite !string_app_cons, string_app_nil_l.
    by rewrite (parse_separator a b c d _ Hd), IH.
Qed.

Lemma string_literal_app s rest :
  string_literal s +:+ rest = String quote (escape s +:+ String quote rest).
Proof.
  unfold string_literal. rewrite string_app_cons, string_app_assoc. done.
Qed.

Lemma parse_value_literal f s rest :
  parse_value (S f) (string_literal s +:+ rest) = Some (JString s, rest).
Proof.
  rewrite string_literal_app.
  change (parse_value (S f) (String quote ?t)) with
    ('(x, r) ← parse_string t; Some (JString x, r)).
  by rewrite parse_escape.
Qed.

Lemma parse_member_more f k v r rest :
  parse_value f r = Some (v, String "," rest) →
  parse_members (S f) (string_literal k +:+ String ":" r) =
    ('(l, r) ← parse_members f rest; Some ((k, v) :: l, r)).
Proof.
  intros Hv. rewrite string_literal_app.
  cbn [parse_members]. change (skip_ws (String quote ?x)) with (String quote x).
  cbn beta iota. rewrite decide_True by done. rewrite parse_escape.
  cbn [mbind option_bind]. change (skip_ws (String ":" ?t)) with (String ":" t).
  cbn beta iota. rewrite decide_True by done. rewrite Hv. reflexivity.
Qed.

Lemma parse_member_last f k v r rest :
  parse_value f r = Some (v, String "}" rest) →
  parse_members (S f) (string_literal k +:+ String ":" r) = Some ([(k, v)], rest).
Proof.
  intros Hv. rewrite string_literal_app.
  cbn [parse_members]. change (skip_ws (String quote ?x)) with (String quote x).
  cbn beta iota. rewrite decide_True by done. rewrite parse_escape.
  cbn [mbind option_bind]. change (skip_ws (String ":" ?t)) with (String ":" t).
  cbn beta iota. rewrite decide_True by done. rewrite Hv. reflexivity.
Qed.

(** ** Values and their printed form *)

(** Induction through the lists of arrays and objects. *)
Lemma json_nested_ind (P : json → Prop) :
  P JNull → (∀ b, P (JBool b)) → (∀ n, P (JNumber n)) → (∀ s, P (JString s)) →
  (∀ l, Forall P l → P (JArray l)) →
  (∀ l, Forall (λ m, P m.2) l → P (JObject l)) →
  ∀ j, P j.
Proof.
  intros HN HB HNum HS HA HO. fix IH 1.
  intros [| | | |l|l]; [exact HN|apply HB|apply HNum|apply HS|apply HA|apply HO].
  - induction l as [|j l IHl]; constructor; [apply IH|exact IHl].
  - induction l as [|[k v] l IHl]; constructor; [apply IH|exact IHl].
Qed.

(** Numbers are the only values whose text the parser could read on. *)
Fixpoint no_numbers (j : json) : bool :=
  match j with
  | JNumber _ => false
  | JArray l => forallb no_numbers l
  | JObject l => forallb (λ '(_, v), no_numbers v) l
  | _ => true
  end.

(** No value starts with white space or with a closing bracket. *)
Definition starts_value (s : string) : Prop :=
  skip_ws s = s ∧ ∃ c t, s = String c t ∧ c ≠ "]"%char ∧ c ≠ "}"%char.

Lemma starts_value_app s t : starts_value s → starts_value (s +:+ t).
Proof.
  intros (Hs & c & r & -> & Hc). split; [|exists c, (r +:+ t); by rewrite string_app_cons].
  revert Hs. rewrite string_app_cons. cbn [skip_ws]. destruct (_ || _) eqn:Hw; [|done].
  intros Heq. exfalso. assert (String.length (skip_ws r) <= String.length r) as Hl.
  { clear. induction r as [|c r IH]; [done|]. cbn [skip_ws String.length].
    destruct (_ || _); [lia|done]. }
  rewrite Heq in Hl. simpl in Hl. lia.
Qed.

Lemma print_json_starts j : no_numbers j = true → starts_value (print_json j).
Proof.
  destruct j as [|[]| | | |]; try done; intros _; (split; [done|]); do 2 eexists; split;
    reflexivity || done.
Qed.

Lemma string_literal_starts s : starts_value (string_literal s).
Proof. exact (print_json_starts (JString s) eq_refl). Qed.

(** Parsing what was printed, by the length of the text. *)
Definition parses_back (j : json) : Prop :=
  ∀ f rest, String.length (print_json j) <= f →
  parse_value (S f) (print_json j +:+ rest) = Some (j, rest).

Lemma parses_back_lt j f rest :
  parses_back j → String.length (print_json j) < f →
  parse_value f (print_json j +:+ rest) = Some (j, rest).
Proof. intros Hj Hf. destruct f as [|f]; [lia|]. apply Hj. lia. Qed.

Lemma parse_separated_elements l f rest :
  l ≠ [] → Forall parses_back l → forallb no_numbers l = true →
  String.length (separated (map print_json l) "]") < f →
  parse_elements f (separated (map print_json l) "]" +:+ rest) = Some (l, rest).
Proof.
  intros Hne HF Hn Hf. revert f Hne Hn Hf. induction HF as [|j l Hj HF IH]; intros f Hne Hn Hf; [done|].
  cbn [forallb] in Hn. apply andb_true_iff in Hn as [Hnj Hn].
  destruct l as [|j' l].
  - cbn [map separated] in *. rewrite string_length_app in Hf. cbn [String.length] in Hf.
    destruct f as [|f]; [lia|]. cbn [parse_elements].
    rewrite string_app_assoc, parses_back_lt by (done || lia). reflexivity.
  - change (separated (map print_json (j :: j' :: l)) "]") with
      (print_json j +:+ String "," (separated (map print_json (j' :: l)) "]")) in *.
    rewrite string_length_app in Hf. cbn [String.length] in Hf.
    destruct f as [|f]; [lia|]. cbn [parse_elements].
    rewrite string_app_assoc, string_app_cons, parses_back_lt by (done || lia).
    cbn [mbind option_bind].
    change (skip_ws (String "," ?x)) with (String "," x). cbn beta iota.
    rewrite decide_True by done. rewrite IH; [done|done|done|lia].
Qed.

Definition member_text (m : string * json) : string :=
  string_literal m.1 +:+ String ":" (print_json m.2).

Lemma print_JObject l :
  print_json (JObject l) = String "{" (separated (map member_text l) "}").
Proof. cbn [print_json]. do 2 f_equal. apply map_ext. by intros [k v]. Qed.

Lemma parse_separated_members l f rest :
  l ≠ [] → Forall (λ m, parses_back m.2) l →
  String.length (separated (map member_text l) "}") < f →
  parse_members f (separated (map member_text l) "}" +:+ rest) = Some (l, rest).
Proof.
  intros Hne HF Hf. revert f Hne Hf. induction HF as [|[k v] l Hj HF IH]; intros f Hne Hf; [done|].
  cbn [snd] in Hj. destruct l as [|m l].
  - cbn [map separated] in *. unfold member_text in *. cbn [fst snd] in *.
    rewrite !string_length_app in Hf. cbn [String.length] in Hf.
    destruct f as [|f]; [lia|].
    rewrite !string_app_assoc, !string_app_cons, ?string_app_assoc, string_app_nil_l.
    apply parse_member_last. apply parses_back_lt; [done|lia].
  - change (separated (map member_text ((k, v) :: m :: l)) "}") with
      (member_text (k, v) +:+ String "," (separated (map member_text (m :: l)) "}")) in *.
    unfold member_text at 1. unfold member_text in Hf at 1. cbn [fst snd] in *.
    rewrite !string_length_app in Hf. cbn [String.length] in Hf.
    destruct f as [|f]; [lia|]. rewrite !string_app_assoc, !string_app_cons, ?string_app_assoc.
    erewrite parse_member_more; [|apply parses_back_lt; [done|lia]].
    rewrite IH; [done|done|lia].
Qed.

Lemma parse_value_array f t c r :
  t = String c r → skip_ws t = t → c ≠ "]"%char →
  parse_value (S f) (String "[" t) = ('(l, r) ← parse_elements f t; Some (JArray l, r)).
Proof.
  intros -> Hs Hc. cbn [parse_value]. change (skip_ws (String "[" ?x)) with (String "[" x).
  cbn beta iota. rewrite decide_False, decide_True by done. rewrite Hs. cbn beta iota.
  by rewrite decide_False.
Qed.

Lemma parse_value_object f t c r :
  t = String c r → skip_ws t = t → c ≠ "}"%char →
  parse_value (S f) (String "{" t) = ('(l, r) ← parse_members f t; Some (JObject l, r)).
Proof.
  intros -> Hs Hc. cbn [parse_value]. change (skip_ws (String "{" ?x)) with (String "{" x).
  cbn beta iota. rewrite !decide_False, decide_True by done. rewrite Hs. cbn beta iota.
  by rewrite decide_False.
Qed.

Lemma separated_starts t l close : starts_value t → starts_value (separated (t :: l) close).
Proof. intros Ht. destruct l; by apply starts_value_app. Qed.

Lemma print_parses_back j : no_numbers j = true → parses_back j.
Proof.
  induction j as [|b|n|s|l IH|l IH] using json_nested_ind; intros Hn f rest Hf.
  - reflexivity.
  - by destruct b.
  - done.
  - apply parse_value_literal.
  - cbn [print_json] in *. cbn [no_numbers] in Hn. destruct l as [|j l]; [reflexivity|].
    assert (starts_value (separated (map print_json (j :: l)) "]" +:+ rest)) as Hst.
    { apply starts_value_app, separated_starts, print_json_starts.
      by apply andb_true_iff in Hn as [? _]. }
    destruct Hst as (Hs & c & r & Ht & Hc & _).
    rewrite string_app_cons, (parse_value_array _ _ c r) by done.
    rewrite parse_separated_elements; [done|done| |done|].
    + apply Forall_forall. intros x Hx. rewrite Forall_forall in IH. apply IH; [done|].
      rewrite forallb_forall in Hn. by apply Hn, list_elem_of_In.
    + cbn [String.length] in Hf. lia.
  - rewrite print_JObject in *. cbn [no_numbers] in Hn. destruct l as [|[k v] l]; [reflexivity|].
    assert (starts_value (separated (map member_text ((k, v) :: l)) "}" +:+ rest)) as Hst.
    { apply starts_value_app, separated_starts. apply starts_value_app, string_literal_starts. }
    destruct Hst as (Hs & c & r & Ht & _ & Hc).
    rewrite string_app_cons, (parse_value_object _ _ c r) by done.
    rewrite parse_separated_members; [done|done| |].
    + apply Forall_forall. intros x Hx. rewrite Forall_forall in IH. apply IH; [done|].
      rewrite forallb_forall in Hn. destruct x as [k' v'].
      by apply (Hn (k', v')), list_elem_of_In.
    + cbn [String.length] in Hf. lia.
Qed.

(** The round trip of JSON text. *)
Lemma parse_print_json j : no_numbers j = true → parse_json (print_json j) = Some j.
Proof.
  intros Hn. unfold parse_json.
  rewrite <- (string_app_nil_r (print_json j)) at 2.
  by rewrite (print_parses_back j Hn) by lia.
Qed.
