(* ===== verification/JsonStruct.v ===== *)
(** * JSON of Go structs

    How [encoding/json] writes a struct as an object and reads it back, field
    by field: a field is found by its name whatever its case, [null] leaves a
    string or a bool as it is, fields tagged omitempty are left out when empty.
    A slice that is read twice is replaced.  A codec is good when reading what
    it wrote, with the members of every object in any order, gives the value
    up to what omitempty loses. *)
From S2P Require Import Prelude GoStrings JsonText.

Open Scope go_scope.

(** ** Reading members *)

Definition json_type_error (type : string) : error :=
  ErrText ("json: cannot unmarshal into Go value of type " +:+ type).

(** The members that set the field [name], each from the value so far. *)
Fixpoint member {A} (dec : A → json → outcome A) (name : string) (cur : A)
    (l : list (string * json)) : outcome A :=
  match l with
  | [] => Ok cur
  | (k, v) :: l =>
      if decide (lower k = lower name)
      then (cur <-? dec cur v ;; member dec name cur l)
      else member dec name cur l
  end.

Fixpoint decode_list {A} (dec : json → outcome A) (l : list json) : outcome (list A) :=
  match l with
  | [] => Ok []
  | v :: l => (x <-? dec v ;; xs <-? decode_list dec l ;; Ok (x :: xs))
  end.

(** ** Codecs *)

Record codec (A : Type) := Codec {
  enc : A → json;
  zero : A;
  dec : A → json → outcome A
}.
Arguments enc {A} _ _.
Arguments zero {A} _.
Arguments dec {A} _ _ _.

Definition string_codec : codec string :=
  {| enc := JString; zero := empty_string;
     dec cur v := match v with
                  | JString s => Ok s
                  | JNull => Ok cur
                  | _ => Err (json_type_error "string")
                  end |}.

Definition bool_codec : codec bool :=
  {| enc := JBool; zero := false;
     dec cur v := match v with
                  | JBool b => Ok b
                  | JNull => Ok cur
                  | _ => Err (json_type_error "bool")
                  end |}.

Definition slice_codec {A} (c : codec A) : codec (slice A) :=
  {| enc s := match s with None => JNull | Some l => JArray (map (enc c) l) end;
     zero := None;
     dec _ v := match v with
                | JNull => Ok None
                | JArray l => (l <-? decode_list (dec c (zero c)) l ;; Ok (Some l))
                | _ => Err (json_type_error "slice")
                end |}.

Definition pointer_codec {A} (c : codec A) : codec (option A) :=
  {| enc p := match p with None => JNull | Some a => enc c a end;
     zero := None;
     dec cur v := match v with
                  | JNull => Ok None
                  | _ => (a <-? dec c (default (zero c) cur) v ;; Ok (Some a))
                  end |}.

(** A struct: its fields, [None] for one that is left out, and how it is read
    from the members of an object. *)
Definition present (fs : list (string * option json)) : list (string * json) :=
  omap (λ '(k, o), (k,.) <$> o) fs.

Definition struct_codec {A} (type : string) (z : A) (fields : A → list (string * option json))
    (read : A → list (string * json) → outcome A) : codec A :=
  {| enc a := JObject (present (fields a)); zero := z;
     dec cur v := match v with
                  | JNull => Ok cur
                  | JObject l => read cur l
                  | _ => Err (json_type_error type)
                  end |}.

(** The field of [cur] that a struct reads: [read_field c name cur l]. *)
Definition read_field {A} (c : codec A) (name : string) (cur : A) (l : list (string * json)) :
  outcome A := member (dec c) name cur l.

(** omitempty of a slice, a pointer and a string *)
Definition omit_slice {A} (c : codec A) (s : slice A) : option json :=
  match s with None | Some [] => None | Some _ => Some (enc (slice_codec c) s) end.
Definition omit_pointer {A} (c : codec A) (p : option A) : option json := enc c <$> p.
Definition omit_string (s : string) : option json :=
  match s with EmptyString => None | _ => Some (JString s) end.

Definition json_marshal {A} (c : codec A) (a : A) : outcome string :=
  Ok (print_json (enc c a)).

Definition json_unmarshal {A} (c : codec A) (s : string) : outcome A :=
  match parse_json s with
  | None => Err (ErrText "invalid JSON")
  | Some v => dec c (zero c) v
  end.

(** Reading reports errors and never panics. *)
Class SafeCodec {A} (c : codec A) := dec_safe cur v : no_panic (dec c cur v).

#[export] Instance string_codec_safe : SafeCodec string_codec.
Proof. by intros cur []. Qed.
#[export] Instance bool_codec_safe : SafeCodec bool_codec.
Proof. by intros cur []. Qed.
#[export] Instance slice_codec_safe {A} (c : codec A) `{!SafeCodec c} : SafeCodec (slice_codec c).
Proof.
  intros cur []; try done. simpl. apply no_panic_bind; [|done].
  induction l as [|v l IH]; [done|]. simpl. apply no_panic_bind; [apply dec_safe|]. intros x.
  by apply no_panic_bind.
Qed.
#[export] Instance pointer_codec_safe {A} (c : codec A) `{!SafeCodec c} :
  SafeCodec (pointer_codec c).
Proof. intros cur v. simpl. destruct v; try done; (apply no_panic_bind; [apply dec_safe|done]). Qed.

Lemma read_field_safe {A} (c : codec A) `{!SafeCodec c} name cur l :
  no_panic (read_field c name cur l).
Proof.
  unfold read_field. revert cur. induction l as [|[k v] l IH]; intros cur; [done|]. simpl.
  case_decide; [|apply IH]. apply no_panic_bind; [apply dec_safe|apply IH].
Qed.

Lemma struct_codec_safe {A} type (z : A) fields read :
  (∀ cur l, no_panic (read cur l)) → SafeCodec (struct_codec type z fields read).
Proof. intros Hr cur []; try done. apply Hr. Qed.

Ltac safe_struct :=
  apply struct_codec_safe; intros ? ?;
  repeat (apply no_panic_bind; [apply read_field_safe, _|intros ?]); exact I.

Lemma json_unmarshal_safe {A} (c : codec A) `{!SafeCodec c} s : no_panic (json_unmarshal c s).
Proof. unfold json_unmarshal. destruct (parse_json s); [apply dec_safe|done]. Qed.

(** ** Objects whose members were put in another order *)

Definition member_le (m m' : string * json) : Prop := String.le m.1 m'.1.
#[export] Instance member_le_dec : RelDecision member_le.
Proof. intros m m'. unfold member_le, String.le. apply _. Defined.

(** The members of every object, by name. *)
Fixpoint sort_json (j : json) : json :=
  match j with
  | JArray l => JArray (map sort_json l)
  | JObject l => JObject (merge_sort member_le (map (λ '(k, v), (k, sort_json v)) l))
  | _ => j
  end.

(** No number, and no name twice in an object. *)
Fixpoint plain_json (j : json) : bool :=
  match j with
  | JNumber _ => false
  | JArray l => forallb plain_json l
  | JObject l => bool_decide (NoDup l.*1) && forallb (λ '(_, v), plain_json v) l
  | _ => true
  end.

Lemma plain_no_numbers j : plain_json j = true → no_numbers j = true.
Proof.
  induction j as [| | | |l IH|l IH] using json_nested_ind; simpl; try done.
  - intros Hl. rewrite forallb_forall in Hl |- *. intros x Hx. rewrite Forall_forall in IH.
    apply IH; [by apply list_elem_of_In|auto].
  - intros [_ Hl]%andb_true_iff. rewrite forallb_forall in Hl |- *. intros [k v] Hx.
    rewrite Forall_forall in IH. apply (IH (k, v)); [by apply list_elem_of_In|].
    by apply (Hl (k, v)).
Qed.

Lemma merge_sort_members l : merge_sort member_le l ≡ₚ l.
Proof. apply merge_sort_Permutation. Qed.

Lemma sort_json_plain j : plain_json j = true → plain_json (sort_json j) = true.
Proof.
  induction j as [| | | |l IH|l IH] using json_nested_ind; simpl; try done.
  - intros Hl. rewrite forallb_forall in Hl |- *.
    intros y (x & <- & Hx)%in_map_iff. rewrite Forall_forall in IH.
    apply IH; [by apply list_elem_of_In|auto].
  - intros [Hnd Hl]%andb_true_iff. apply bool_decide_eq_true in Hnd.
    apply andb_true_iff. split.
    + apply bool_decide_eq_true. rewrite merge_sort_members.
      assert ((map (λ '(k, v), (k, sort_json v)) l).*1 = l.*1) as ->; [|done].
      clear. induction l as [|[k v] l IH]; [done|]. simpl. by f_equal.
    + rewrite forallb_forall in Hl |- *. intros y Hy.
      apply list_elem_of_In in Hy. rewrite merge_sort_members in Hy.
      apply list_elem_of_In, in_map_iff in Hy as ([k v] & <- & Hx).
      rewrite Forall_forall in IH. apply (IH (k, v)); [by apply list_elem_of_In|].
      by apply (Hl (k, v)).
Qed.

(** A value as it was written, or with its members sorted. *)
Definition arrange (sorted : bool) (j : json) : json := if sorted then sort_json j else j.

Lemma arrange_array b l : arrange b (JArray l) = JArray (map (arrange b) l).
Proof. destruct b; [done|]. simpl. by rewrite map_id. Qed.

(** ** Good codecs *)

Class GoodCodec {A} (c : codec A) (canon : A → A) := {
  enc_plain a : plain_json (enc c a) = true;
  dec_enc b a : dec c (zero c) (arrange b (enc c a)) = Ok (canon a)
}.

#[export] Instance string_codec_good : GoodCodec string_codec id.
Proof. split; [done|by intros []]. Qed.
#[export] Instance bool_codec_good : GoodCodec bool_codec id.
Proof. split; [done|by intros []]. Qed.

#[export] Instance slice_codec_good {A} (c : codec A) canon `{!GoodCodec c canon} :
  GoodCodec (slice_codec c) (fmap (map canon)).
Proof.
  split.
  - intros [l|]; [|done]. simpl. apply forallb_forall.
    intros y (x & <- & _)%in_map_iff. apply enc_plain.
  - intros b [l|]; [|by destruct b]. cbn [enc slice_codec]. rewrite arrange_array. simpl.
    assert (decode_list (dec c (zero c)) (map (arrange b) (map (enc c) l)) = Ok (map canon l)) as ->;
      [|done].
    induction l as [|a l IH]; [done|]. simpl. rewrite dec_enc. simpl. by rewrite IH.
Qed.

(** Sorting keeps what kind of value it is. *)
Lemma arrange_null b j : arrange b j = JNull → j = JNull.
Proof. destruct b; by destruct j. Qed.

Lemma pointer_codec_good {A} (c : codec A) canon `{!GoodCodec c canon} :
  (∀ a, enc c a ≠ JNull) → GoodCodec (pointer_codec c) (fmap canon).
Proof.
  intros Hn. split; [intros [a|]; [exact (enc_plain a)|done]|].
  intros b [a|]; [|by destruct b]. cbn [enc dec zero pointer_codec default].
  pose proof (dec_enc b a) as Ha. pose proof (λ H, Hn a (arrange_null b _ H)) as Hs.
  by destruct (arrange b (enc c a)); rewrite ?Ha.
Qed.

(** *** Structs *)

(** Names as they are compared. *)
Definition folded {B} (l : list (string * B)) : list string := (λ m, lower m.1) <$> l.

Lemma present_folded fs : folded (present fs) `sublist_of` folded fs.
Proof.
  induction fs as [|[k [v|]] fs IH]; [done| |]; by constructor.
Qed.

Lemma member_skip {A} (d : A → json → outcome A) name cur l :
  lower name ∉ folded l → member d name cur l = Ok cur.
Proof.
  induction l as [|[k v] l IH]; [done|]. simpl. rewrite not_elem_of_cons. intros [Hk Hl].
  rewrite decide_False by (simpl in Hk; congruence). by apply IH.
Qed.

Lemma member_found {A} (d : A → json → outcome A) name cur l v :
  NoDup (folded l) → (name, v) ∈ l → member d name cur l = d cur v.
Proof.
  induction l as [|[k w] l IH]; [by intros _ ?%not_elem_of_nil|]. simpl.
  intros [Hk Hnd]%NoDup_cons [[= <- <-]|Hin]%elem_of_cons.
  - rewrite decide_True by done. destruct (d cur v) as [x| |]; simpl; [|done..].
    by apply member_skip.
  - rewrite decide_False; [by apply IH|]. intros Heq. apply Hk. cbn [fst]. rewrite Heq.
    apply list_elem_of_fmap. by exists (name, v).
Qed.

(** What a struct reads for the field [name] from its own members in any
    order. *)
Lemma read_present {A} (c : codec A) name cur fs o l :
  NoDup (folded fs) → (name, o) ∈ fs → l ≡ₚ present fs →
  read_field c name cur l = match o with Some v => dec c cur v | None => Ok cur end.
Proof.
  intros Hnd Hin Hl. unfold read_field.
  assert (NoDup (folded l)) as Hndl.
  { unfold folded. rewrite Hl. eapply sublist_NoDup; [exact Hnd|apply present_folded]. }
  destruct o as [v|].
  - apply member_found; [done|]. rewrite Hl. apply list_elem_of_omap. by exists (name, Some v).
  - apply member_skip. unfold folded. rewrite Hl. clear -Hnd Hin.
    induction fs as [|[k o] fs IH]; [by apply not_elem_of_nil in Hin|].
    apply NoDup_cons in Hnd as [Hk Hnd].
    assert (∀ n, n ∈ folded (present fs) → n ∈ folded fs) as Hsub
      by (intros n Hn; eapply elem_of_submseteq; [exact Hn|apply sublist_submseteq, present_folded]).
    apply elem_of_cons in Hin as [[= <- <-]|Hin].
    + simpl. intros Hn%Hsub. by apply Hk.
    + destruct o as [v|]; simpl; [|by apply IH].
      rewrite not_elem_of_cons. split; [|by apply IH]. intros Heq. apply Hk. simpl.
      rewrite <- Heq. apply list_elem_of_fmap. by exists (name, None).
Qed.

(** The members of a rearranged struct. *)
Definition arranged (b : bool) (fs : list (string * option json)) : list (string * option json) :=
  map (λ f, (f.1, arrange b <$> f.2)) fs.

Lemma arrange_present b fs :
  ∃ l, arrange b (JObject (present fs)) = JObject l ∧ l ≡ₚ present (arranged b fs).
Proof.
  assert (present (arranged b fs) = map (λ m, (m.1, arrange b m.2)) (present fs)) as ->
    by (induction fs as [|[k [v|]] fs IH]; [done| |]; simpl; [by f_equal|done]).
  destruct b.
  - exists (merge_sort member_le (map (λ '(k, v), (k, sort_json v)) (present fs))).
    split; [reflexivity|]. rewrite merge_sort_members. apply reflexive_eq, map_ext. by intros [].
  - exists (present fs). split; [done|]. apply reflexive_eq. symmetry. rewrite <- map_id.
    apply map_ext. by intros [].
Qed.

Lemma folded_arranged b fs : folded (arranged b fs) = folded fs.
Proof. induction fs as [|[k o] fs IH]; [done|]. simpl. by f_equal. Qed.

(** A field that is left out is plain. *)
Definition plain_field (o : option json) : Prop :=
  match o with Some v => plain_json v = true | None => True end.

Lemma present_plain fs :
  NoDup (folded fs) → Forall (λ f, plain_field f.2) fs →
  plain_json (JObject (present fs)) = true.
Proof.
  intros Hnd HF. simpl. apply andb_true_iff. split.
  - apply bool_decide_eq_true. apply (NoDup_fmap_1 lower).
    rewrite <- list_fmap_compose. eapply sublist_NoDup; [exact Hnd|apply present_folded].
  - apply forallb_forall. intros [k v] Hin%list_elem_of_In.
    apply list_elem_of_omap in Hin as ([k' o] & Hin & Ho). rewrite Forall_forall in HF.
    specialize (HF _ Hin). destruct o; simplify_eq/=. done.
Qed.

(** A struct codec is good when it reads every field back from its members,
    rearranged. *)
Lemma struct_codec_good {A} type (z : A) fields read canon :
  (∀ a, NoDup (folded (fields a))) →
  (∀ a, Forall (λ f, plain_field f.2) (fields a)) →
  (∀ b a l, l ≡ₚ present (arranged b (fields a)) → read z l = Ok (canon a)) →
  GoodCodec (struct_codec type z fields read) canon.
Proof.
  intros Hnd Hp Hr. split.
  - intros a. by apply present_plain.
  - intros b a. cbn [dec zero enc struct_codec].
    destruct (arrange_present b (fields a)) as (l & -> & Hl). by eapply Hr.
Qed.

(** *** The fields of a struct, read back *)

(** What omitempty does to a slice: the empty one comes back as [nil]. *)
Definition omit_empty {A} (s : slice A) : slice A :=
  match s with Some [] => None | _ => s end.

Lemma omit_empty_idempotent {A} (s : slice A) : omit_empty (omit_empty s) = omit_empty s.
Proof. by destruct s as [[]|]. Qed.
Lemma omit_empty_map {A} (f : A → A) (s : slice A) :
  (∀ x, f (f x) = f x) →
  omit_empty (map f <$> omit_empty (map f <$> s)) = omit_empty (map f <$> s).
Proof.
  intros Hf. destruct s as [[|x l]|]; try done. simpl. rewrite Hf, map_map.
  do 2 f_equal. by apply map_ext.
Qed.

Section read_back.
Context {A : Type} (c : codec A) (canon : A → A) `{!GoodCodec c canon}.
Context (fs : list (string * option json)) (b : bool) (l : list (string * json)).
Context (Hnd : NoDup (folded fs)) (Hl : l ≡ₚ present (arranged b fs)).

Lemma read_arranged {B} (d : codec B) name cur o :
  (name, o) ∈ fs →
  read_field d name cur l =
  match o with Some v => dec d cur (arrange b v) | None => Ok cur end.
Proof using Hl Hnd.
  clear GoodCodec0. intros Hin. rewrite (read_present d name cur (arranged b fs) (arrange b <$> o)).
  - by destruct o.
  - by rewrite folded_arranged.
  - apply list_elem_of_In, in_map_iff. exists (name, o). split; [done|].
    by apply list_elem_of_In.
  - exact Hl.
Qed.

Lemma read_required name cur x :
  cur = zero c → (name, Some (enc c x)) ∈ fs → read_field c name cur l = Ok (canon x).
Proof using All. intros -> Hin. rewrite (read_arranged c name _ _ Hin). apply dec_enc. Qed.

Lemma read_omitted_slice name cur x :
  cur = None → (name, omit_slice c x) ∈ fs →
  read_field (slice_codec c) name cur l = Ok (omit_empty (map canon <$> x)).
Proof using All.
  intros -> Hin. rewrite (read_arranged _ name _ _ Hin).
  destruct x as [[|y x]|]; [done| |done]. cbn [omit_slice].
  change None with (zero (slice_codec c)). by rewrite dec_enc.
Qed.

Lemma read_omitted_pointer name cur x :
  (∀ a, enc c a ≠ JNull) → cur = None → (name, omit_pointer c x) ∈ fs →
  read_field (pointer_codec c) name cur l = Ok (canon <$> x).
Proof using All.
  intros Hn -> Hin. rewrite (read_arranged _ name _ _ Hin). destruct x as [x|]; [|done].
  cbn [omit_pointer fmap option_fmap option_map].
  pose proof (pointer_codec_good c canon Hn) as Hg. change (enc c x) with (enc (pointer_codec c) (Some x)).
  change None with (zero (pointer_codec c)). by rewrite dec_enc.
Qed.

Lemma read_omitted_string name cur s :
  cur = empty_string → (name, omit_string s) ∈ fs → read_field string_codec name cur l = Ok s.
Proof using Hl Hnd.
  clear GoodCodec0. intros -> Hin. rewrite (read_arranged _ name _ _ Hin). destruct s; [done|].
  by destruct b.
Qed.
End read_back.

(** *** Whole texts *)

Lemma json_unmarshal_arranged {A} (c : codec A) canon `{!GoodCodec c canon} b (a : A) s :
  parse_json s = Some (arrange b (enc c a)) → json_unmarshal c s = Ok (canon a).
Proof. intros Hs. unfold json_unmarshal. rewrite Hs. apply dec_enc. Qed.

Lemma parse_marshalled {A} (c : codec A) canon `{!GoodCodec c canon} a s :
  json_marshal c a = Ok s → parse_json s = Some (enc c a).
Proof. intros [= <-]. apply parse_print_json, plain_no_numbers, enc_plain. Qed.

Lemma json_unmarshal_marshal {A} (c : codec A) canon `{!GoodCodec c canon} a s :
  json_marshal c a = Ok s → json_unmarshal c s = Ok (canon a).
Proof.
  intros Hs. apply (json_unmarshal_arranged c canon false). by eapply parse_marshalled.
Qed.


Lemma field_plain {A} (c : codec A) canon `{!GoodCodec c canon} x :
  plain_field (Some (enc c x)).
Proof. apply enc_plain. Qed.
Lemma omit_slice_plain {A} (c : codec A) canon `{!GoodCodec c canon} s :
  plain_field (omit_slice c s).
Proof.
  destruct s as [[|x l]|]; [done| |done]. exact (enc_plain (c:=slice_codec c) (Some (x :: l))).
Qed.
Lemma omit_pointer_plain {A} (c : codec A) canon `{!GoodCodec c canon} p :
  plain_field (omit_pointer c p).
Proof. destruct p as [x|]; [exact (enc_plain x)|done]. Qed.
Lemma omit_string_plain s : plain_field (omit_string s).
Proof. by destruct s. Qed.

Lemma map_id_slice {A} (s : slice A) : map id <$> s = s.
Proof. destruct s as [l|]; [|done]. simpl. by rewrite map_id. Qed.

(** Proves that a struct codec is good: its names are distinct, its fields are
    plain, and each field is read back by one of the lemmas above. *)
Ltac in_fields :=
  solve [repeat first [apply list_elem_of_here | apply list_elem_of_further]].
Ltac read_field_step Hnd Hl :=
  first
    [ erewrite (read_required _ _ _ _ _ Hnd Hl); [|reflexivity|in_fields]
    | erewrite (read_omitted_slice _ _ _ _ _ Hnd Hl); [|reflexivity|in_fields]
    | erewrite (read_omitted_pointer _ _ _ _ _ Hnd Hl); [|done|reflexivity|in_fields]
    | erewrite (read_omitted_string _ _ _ Hnd Hl); [|reflexivity|in_fields] ];
  cbn [outcome_bind].
Ltac plain_fields :=
  repeat first [apply Forall_nil_2 | apply Forall_cons_2]; cbn [snd];
  first [eapply field_plain; apply _ | eapply omit_slice_plain; apply _
        | eapply omit_pointer_plain; apply _
        | apply omit_string_plain].
Ltac good_struct :=
  let a := fresh "a" in let b := fresh "b" in let l := fresh "l" in
  let Hnd := fresh "Hnd" in let Hl := fresh "Hl" in
  apply struct_codec_good;
  [ intros a; apply (bool_decide_unpack _); reflexivity
  | intros a; plain_fields
  | intros b a l Hl;
    match type of Hl with Permutation _ (present (arranged _ ?fs)) =>
      assert (NoDup (folded fs)) as Hnd by (apply (bool_decide_unpack _); reflexivity)
    end; cbv beta in Hl, Hnd |- *; repeat read_field_step Hnd Hl;
    rewrite ?map_id_slice, ?option_fmap_id ].
