(* ===== verification/Json.v ===== *)
(** * JSON of object key lists

    The controller keeps the policies of a gateway as a JSON array in an
    annotation ([json.Marshal] and [json.Unmarshal] of [[]client.ObjectKey]).
    [RefCodec] is what the rest of the development relies on; the instance here
    is [encoding/json] on the struct, which has no field tags. *)
From S2P Require Import Prelude GoStrings KubeTypes JsonText JsonStruct.

Open Scope go_scope.

(** ** The interface *)

Class RefCodec := {
  marshal_refs : list ObjectKey → outcome string;
  unmarshal_refs : string → outcome (list ObjectKey)
}.

(** Encoding succeeds, and decoding undoes it. *)
Class RefCodecOk {RC : RefCodec} := {
  marshal_refs_total : ∀ l, ∃ s, marshal_refs l = Ok s;
  unmarshal_marshal_refs : ∀ l s, marshal_refs l = Ok s → unmarshal_refs s = Ok l
}.

(** ** The codec of [encoding/json] *)

Definition key_codec : codec ObjectKey :=
  struct_codec "types.NamespacedName" {| Namespace := empty_string; Name := empty_string |}
    (λ k, [("Namespace", Some (enc string_codec (Namespace k)));
           ("Name", Some (enc string_codec (Name k)))])
    (λ cur l,
       ns <-? read_field string_codec "Namespace" (Namespace cur) l ;;
       n <-? read_field string_codec "Name" (Name cur) l ;;
       Ok {| Namespace := ns; Name := n |}).

#[export] Instance json_ref_codec : RefCodec | 100 :=
  {| marshal_refs l := json_marshal (slice_codec key_codec) (Some l);
     unmarshal_refs s := outcome_map elems (json_unmarshal (slice_codec key_codec) s) |}.

#[export] Instance key_codec_good : GoodCodec key_codec id.
Proof. good_struct. by destruct a. Qed.

#[export] Instance json_ref_codec_ok : @RefCodecOk json_ref_codec.
Proof.
  split.
  - intros l. by eexists.
  - intros l s Hs. cbn. rewrite (json_unmarshal_marshal _ _ _ _ Hs). cbn. by rewrite map_id.
Qed.

Example encode_one :
  marshal_refs [{| Namespace := "ns"; Name := "a" |}] =
    Ok (String "[" (String "{" (string_literal "Namespace" +:+ ":" +:+ string_literal "ns" +:+
      "," +:+ string_literal "Name" +:+ ":" +:+ string_literal "a" +:+ "}]"))).
Proof. reflexivity. Qed.
Example decode_spaced :
  unmarshal_refs (String "[" (String " " (String "{" (string_literal "name" +:+ " : " +:+
    string_literal "a" +:+ " } ] ")))) = Ok [{| Namespace := empty_string; Name := "a" |}].
Proof. vm_compute. reflexivity. Qed.
