(* ===== verification/GatewayRefs.v ===== *)
(** * Policy references of gateways (pkg/rlptools/gateway_utils.go)

    The list of rate limit policies of a gateway, kept as JSON in an
    annotation, and the classification of gateways as new, same and left. *)
From S2P Require Import Prelude GoStrings KubeTypes CommonUtils Json.

(** ** The code *)

(** [GatewayWrapper] embeds a pointer. *)
Abbreviation GatewayWrapper := (option Gateway).

Section code.
Context `{RefCodec}.

Definition Key (g : GatewayWrapper) : ObjectKey :=
  match g with
  | None => {| Namespace := empty_string; Name := empty_string |}
  | Some gw => ObjectKeyFromObject gw
  end.

Definition RLPRefs (g : GatewayWrapper) : list ObjectKey :=
  match g with
  | None => []
  | Some gw =>
      match entries (GetAnnotations gw) !! KuadrantRateLimitPolicyRefAnnotation with
      | None => []
      | Some val =>
          match unmarshal_refs val with
          | Ok refs => refs
          | _ => []
          end
      end
  end.

Definition ContainsRLP (g : GatewayWrapper) (rlpKey : ObjectKey) : bool :=
  match g with
  | None => false
  | Some gw =>
      match entries (GetAnnotations gw) !! KuadrantRateLimitPolicyRefAnnotation with
      | None => false
      | Some val =>
          match unmarshal_refs val with
          | Ok refs => ContainsObjectKey refs rlpKey
          | _ => false
          end
      end
  end.

(** Returns the gateway as modified through the pointer. *)
Definition AddRLP (g : GatewayWrapper) (rlpKey : ObjectKey) : GatewayWrapper * bool :=
  match g with
  | None => (g, false)
  | Some gw =>
      let gwAnnotations := entries (GetAnnotations gw) in
      match gwAnnotations !! KuadrantRateLimitPolicyRefAnnotation with
      | None =>
          match marshal_refs [rlpKey] with
          | Ok serialized =>
              (Some (SetAnnotations gw
                 (<[KuadrantRateLimitPolicyRefAnnotation:=serialized]> gwAnnotations)), true)
          | _ => (g, false)
          end
      | Some val =>
          match unmarshal_refs val with
          | Ok refs =>
              if ContainsObjectKey refs rlpKey then (g, false)
              else match marshal_refs (refs ++ [rlpKey]) with
                   | Ok serialized =>
                       (Some (SetAnnotations gw
                          (<[KuadrantRateLimitPolicyRefAnnotation:=serialized]>
                             gwAnnotations)), true)
                   | _ => (g, false)
                   end
          | _ => (g, false)
          end
      end
  end.

Definition DeleteRLP (g : GatewayWrapper) (rlpKey : ObjectKey) : GatewayWrapper * bool :=
  match g with
  | None => (g, false)
  | Some gw =>
      let gwAnnotations := entries (GetAnnotations gw) in
      match gwAnnotations !! KuadrantRateLimitPolicyRefAnnotation with
      | None => (g, false)
      | Some val =>
          match unmarshal_refs val with
          | Ok refs =>
              let refID := FindObjectKey refs rlpKey in
              if negb (refID =? length refs)%nat then
                match marshal_refs (remove_at refID refs) with
                | Ok serialized =>
                    (Some (SetAnnotations gw
                       (<[KuadrantRateLimitPolicyRefAnnotation:=serialized]>
                          gwAnnotations)), true)
                | _ => (g, false)
                end
              else (g, false)
          | _ => (g, false)
          end
      end
  end.

Definition Hostnames (g : GatewayWrapper) : list string :=
  match g with
  | None => []
  | Some gw =>
      foldl (λ hostnames l, match listener_Hostname l with
                            | Some h => hostnames ++ [h]
                            | None => hostnames
                            end) [] (Listeners (spec gw))
  end.

Definition NewGateways (gwList : list Gateway) (rlpKey : ObjectKey)
    (rlpGwKeys : list ObjectKey) : list GatewayWrapper :=
  foldl (λ newGateways gw,
    if ContainsObjectKey rlpGwKeys (ObjectKeyFromObject gw) &&
       negb (ContainsRLP (Some gw) rlpKey)
    then newGateways ++ [Some gw] else newGateways) [] gwList.

Definition SameGateways (gwList : list Gateway) (rlpKey : ObjectKey)
    (rlpGwKeys : list ObjectKey) : list GatewayWrapper :=
  foldl (λ sameGateways gw,
    if ContainsObjectKey rlpGwKeys (ObjectKeyFromObject gw) &&
       ContainsRLP (Some gw) rlpKey
    then sameGateways ++ [Some gw] else sameGateways) [] gwList.

Definition LeftGateways (gwList : list Gateway) (rlpKey : ObjectKey)
    (rlpGwKeys : list ObjectKey) : list GatewayWrapper :=
  foldl (λ leftGateways gw,
    if negb (ContainsObjectKey rlpGwKeys (ObjectKeyFromObject gw)) &&
       ContainsRLP (Some gw) rlpKey
    then leftGateways ++ [Some gw] else leftGateways) [] gwList.
End code.

#[global] Arguments RLPRefs {_} _ : simpl never.
#[global] Arguments ContainsRLP {_} _ _ : simpl never.
#[global] Arguments AddRLP {_} _ _ : simpl never.
#[global] Arguments DeleteRLP {_} _ _ : simpl never.

(** ** Lemmas *)

(** The reference list can be read: the annotation is absent or decodes. *)
Definition refs_readable `{RefCodec} (gw : Gateway) : Prop :=
  match entries (GetAnnotations gw) !! KuadrantRateLimitPolicyRefAnnotation with
  | None => True
  | Some val => is_ok (unmarshal_refs val)
  end.

#[export] Instance refs_readable_dec `{RefCodec} gw : Decision (refs_readable gw).
Proof.
  unfold refs_readable. destruct (entries _ !! _) as [val|]; [|apply _].
  destruct (unmarshal_refs val); simpl; apply _.
Defined.

(** The gateway with another text for its references, and nothing else changed *)
Definition set_references (gw : Gateway) (v : string) : Gateway :=
  SetAnnotations gw (<[KuadrantRateLimitPolicyRefAnnotation:=v]> (entries (GetAnnotations gw))).

(** Two gateways that differ at most in the reference annotation. *)
Definition same_but_refs (g h : Gateway) : Prop :=
  ObjectKeyFromObject g = ObjectKeyFromObject h ∧ spec g = spec h ∧ status g = status h ∧
  ∀ a, a ≠ KuadrantRateLimitPolicyRefAnnotation →
    entries (GetAnnotations g) !! a = entries (GetAnnotations h) !! a.

Lemma foldl_filter {A B} (P : A → bool) (f : A → B) acc (l : list A) :
  foldl (λ acc x, if P x then acc ++ [f x] else acc) acc l =
  acc ++ (f <$> filter (λ x, P x = true) l).
Proof.
  revert acc. induction l as [|x l IH]; intros acc; simpl; [by rewrite app_nil_r|].
  rewrite IH. destruct (P x) eqn:E.
  - rewrite filter_cons_True by done. by rewrite <- app_assoc.
  - by rewrite filter_cons_False by (by rewrite E).
Qed.

Section lemmas.
Context `{RefCodec}.

Lemma ContainsRLP_refs g k : ContainsRLP g k = ContainsObjectKey (RLPRefs g) k.
Proof. unfold ContainsRLP, RLPRefs. by repeat case_match. Qed.

Lemma ContainsRLP_elem g k : ContainsRLP g k = true ↔ k ∈ RLPRefs g.
Proof. by rewrite ContainsRLP_refs, ContainsObjectKey_elem. Qed.

Lemma same_but_refs_refl g : same_but_refs g g.
Proof. by repeat split. Qed.

Lemma same_but_refs_set gw v :
  same_but_refs (SetAnnotations gw
    (<[KuadrantRateLimitPolicyRefAnnotation:=v]> (entries (GetAnnotations gw)))) gw.
Proof.
  repeat split. intros a Ha. unfold GetAnnotations, SetAnnotations. simpl.
  by rewrite lookup_insert_ne.
Qed.

Lemma RLPRefs_stored gw val :
  entries (GetAnnotations gw) !! KuadrantRateLimitPolicyRefAnnotation = Some val →
  RLPRefs (Some gw) = match unmarshal_refs val with Ok refs => refs | _ => [] end.
Proof. unfold RLPRefs. by intros ->. Qed.

Lemma RLPRefs_absent gw :
  entries (GetAnnotations gw) !! KuadrantRateLimitPolicyRefAnnotation = None →
  RLPRefs (Some gw) = [].
Proof. unfold RLPRefs. by intros ->. Qed.

Lemma RLPRefs_set gw v :
  RLPRefs (Some (SetAnnotations gw
    (<[KuadrantRateLimitPolicyRefAnnotation:=v]> (entries (GetAnnotations gw))))) =
  match unmarshal_refs v with Ok refs => refs | _ => [] end.
Proof.
  unfold RLPRefs, GetAnnotations, SetAnnotations. simpl. by rewrite lookup_insert_eq.
Qed.

Lemma NewGateways_filter gws k ks :
  NewGateways gws k ks =
  Some <$> filter (λ gw, ObjectKeyFromObject gw ∈ ks ∧ k ∉ RLPRefs (Some gw)) gws.
Proof.
  unfold NewGateways. rewrite foldl_filter, app_nil_l. f_equal.
  apply list_filter_iff. intros gw.
  by rewrite andb_true_iff, negb_true_iff, ContainsObjectKey_elem,
    ContainsRLP_refs, ContainsObjectKey_false.
Qed.

Lemma SameGateways_filter gws k ks :
  SameGateways gws k ks =
  Some <$> filter (λ gw, ObjectKeyFromObject gw ∈ ks ∧ k ∈ RLPRefs (Some gw)) gws.
Proof.
  unfold SameGateways. rewrite foldl_filter, app_nil_l. f_equal.
  apply list_filter_iff. intros gw.
  by rewrite andb_true_iff, ContainsObjectKey_elem, ContainsRLP_elem.
Qed.

Lemma LeftGateways_filter gws k ks :
  LeftGateways gws k ks =
  Some <$> filter (λ gw, ObjectKeyFromObject gw ∉ ks ∧ k ∈ RLPRefs (Some gw)) gws.
Proof.
  unfold LeftGateways. rewrite foldl_filter, app_nil_l. f_equal.
  apply list_filter_iff. intros gw.
  by rewrite andb_true_iff, negb_true_iff, ContainsObjectKey_false, ContainsRLP_elem.
Qed.

Lemma Hostnames_omap gw : Hostnames (Some gw) = omap listener_Hostname (Listeners (spec gw)).
Proof.
  unfold Hostnames. rewrite (foldl_app_bind _ (λ l, option_list (listener_Hostname l))).
  - simpl. induction (Listeners (spec gw)) as [|l ls IH]; [done|].
    rewrite bind_cons, IH. simpl. by destruct (listener_Hostname l).
  - intros acc l. destruct (listener_Hostname l); simpl; [done|by rewrite app_nil_r].
Qed.
End lemmas.

Lemma fmap_sublist {A B} (f : A → B) (l k : list A) :
  l `sublist_of` k → f <$> l `sublist_of` f <$> k.
Proof. induction 1; simpl; by constructor. Qed.

(** The part of a list before the first [k] is determined. *)
Lemma split_at_first {A} (k : A) (l1 l2 m1 m2 : list A) :
  l1 ++ k :: l2 = m1 ++ k :: m2 → k ∉ l1 → k ∉ m1 → l1 = m1 ∧ l2 = m2.
Proof.
  revert m1. induction l1 as [|x l1 IH]; intros [|y m1]; simpl; intros Heq Hn Hm; simplify_eq.
  - done.
  - by destruct Hm; left.
  - by destruct Hn; left.
  - apply not_elem_of_cons in Hn as [_ Hn], Hm as [_ Hm].
    by destruct (IH m1) as [-> ->].
Qed.

Section codec_lemmas.
Context `{RefCodecOk}.

(** A changed gateway, to the byte: one annotation is set, to the JSON text of
    the new references. *)
Lemma AddRLP_adds gw k :
  AddRLP (Some gw) k =
  if decide (refs_readable gw ∧ k ∉ RLPRefs (Some gw))
  then match marshal_refs (RLPRefs (Some gw) ++ [k]) with
       | Ok v => (Some (set_references gw v), true)
       | _ => (Some gw, false)
       end
  else (Some gw, false).
Proof.
  assert (∀ o, entries (GetAnnotations gw) !! KuadrantRateLimitPolicyRefAnnotation = o →
    refs_readable gw ↔ match o with None => True | Some v => is_ok (unmarshal_refs v) end)
    as Hread by (by unfold refs_readable; intros ? ->).
  unfold AddRLP, set_references.
  destruct (entries (GetAnnotations gw) !! _) as [val|] eqn:Ha; specialize (Hread _ eq_refl); simpl in Hread.
  - rewrite (RLPRefs_stored _ _ Ha).
    destruct (unmarshal_refs val) as [refs| |] eqn:Hu.
    2, 3: simpl in Hread; by rewrite decide_False by tauto.
    destruct (ContainsObjectKey refs k) eqn:Hc.
    + apply ContainsObjectKey_elem in Hc. by rewrite decide_False by tauto.
    + apply ContainsObjectKey_false in Hc. rewrite decide_True; [done|]. by split; [apply Hread|].
  - rewrite (RLPRefs_absent _ Ha).
    rewrite decide_True by (split; [by apply Hread|apply not_elem_of_nil]). done.
Qed.

Lemma DeleteRLP_deletes gw k :
  DeleteRLP (Some gw) k =
  if decide (k ∈ RLPRefs (Some gw))
  then match marshal_refs (remove_at (FindObjectKey (RLPRefs (Some gw)) k) (RLPRefs (Some gw))) with
       | Ok v => (Some (set_references gw v), true)
       | _ => (Some gw, false)
       end
  else (Some gw, false).
Proof.
  unfold DeleteRLP, set_references.
  destruct (entries (GetAnnotations gw) !! _) as [val|] eqn:Ha.
  - rewrite (RLPRefs_stored _ _ Ha).
    destruct (unmarshal_refs val) as [refs| |] eqn:Hu;
      [|by rewrite decide_False by apply not_elem_of_nil..].
    destruct (decide (k ∈ refs)) as [Hk|Hk].
    + destruct (Nat.eqb_spec (FindObjectKey refs k) (length refs)) as [Hf|_]; [|done].
      by apply FindObjectKey_length in Hf.
    + apply FindObjectKey_length in Hk. by rewrite Hk, Nat.eqb_refl.
  - rewrite (RLPRefs_absent _ Ha). by rewrite decide_False by apply not_elem_of_nil.
Qed.

(** [g'] differs from [g] in its references only, which are [refs]. *)
Definition with_references (refs : list ObjectKey) (g g' : Gateway) : Prop :=
  ∃ v, unmarshal_refs v = Ok refs ∧ g' = set_references g v.

(** What [AddRLP] does to a gateway whose references can be read. *)
Lemma AddRLP_spec gw k :
  refs_readable gw →
  (k ∈ RLPRefs (Some gw) ∧ AddRLP (Some gw) k = (Some gw, false)) ∨
  (k ∉ RLPRefs (Some gw) ∧ ∃ gw', AddRLP (Some gw) k = (Some gw', true) ∧
     RLPRefs (Some gw') = RLPRefs (Some gw) ++ [k] ∧ same_but_refs gw' gw).
Proof.
  unfold refs_readable, AddRLP.
  destruct (entries (GetAnnotations gw) !! _) as [val|] eqn:Ha.
  - rewrite (RLPRefs_stored _ _ Ha).
    destruct (unmarshal_refs val) as [refs| |] eqn:Hu; try done. intros _.
    destruct (ContainsObjectKey refs k) eqn:Hc.
    + left. by apply ContainsObjectKey_elem in Hc.
    + right. apply ContainsObjectKey_false in Hc. split; [done|].
      destruct (marshal_refs_total (refs ++ [k])) as [s Hs]. rewrite Hs.
      eexists. split; [done|]. split; [|apply same_but_refs_set].
      by rewrite RLPRefs_set, (unmarshal_marshal_refs _ _ Hs).
  - rewrite (RLPRefs_absent _ Ha). intros _. right. split; [apply not_elem_of_nil|].
    destruct (marshal_refs_total [k]) as [s Hs]. rewrite Hs.
    eexists. split; [done|]. split; [|apply same_but_refs_set].
    by rewrite RLPRefs_set, (unmarshal_marshal_refs _ _ Hs).
Qed.

Lemma DeleteRLP_spec gw k :
  (k ∉ RLPRefs (Some gw) ∧ DeleteRLP (Some gw) k = (Some gw, false)) ∨
  (∃ l1 l2 gw', RLPRefs (Some gw) = l1 ++ k :: l2 ∧ k ∉ l1 ∧
     DeleteRLP (Some gw) k = (Some gw', true) ∧
     RLPRefs (Some gw') = l1 ++ l2 ∧ same_but_refs gw' gw).
Proof.
  unfold DeleteRLP.
  destruct (entries (GetAnnotations gw) !! _) as [val|] eqn:Ha;
    [rewrite (RLPRefs_stored _ _ Ha)
    |rewrite (RLPRefs_absent _ Ha); left; split; [apply not_elem_of_nil|done]].
  destruct (unmarshal_refs val) as [refs| |] eqn:Hu;
    [|left; split; [apply not_elem_of_nil|done]..].
  destruct (decide (k ∈ refs)) as [Hk|Hk].
  - right. destruct (remove_found refs k Hk) as (l1 & l2 & -> & Hn & Hr).
    destruct (Nat.eqb_spec (FindObjectKey (l1 ++ k :: l2) k) (length (l1 ++ k :: l2)))
      as [Hf|_]; [by apply FindObjectKey_length in Hf|]. cbn [negb]. rewrite Hr.
    destruct (marshal_refs_total (l1 ++ l2)) as [s Hs]. rewrite Hs.
    exists l1, l2. eexists. split; [done|]. split; [done|]. split; [done|].
    split; [|apply same_but_refs_set].
    by rewrite RLPRefs_set, (unmarshal_marshal_refs _ _ Hs).
  - left. split; [done|]. apply FindObjectKey_length in Hk.
    by rewrite Hk, Nat.eqb_refl.
Qed.
End codec_lemmas.

(** ** Properties *)

(** Adding a policy to a gateway whose references can be read appends its
    key exactly when it was absent, reports precisely that, keeps the
    references duplicate free and touches nothing else; when they cannot be
    read it changes nothing and reports failure. *)
Theorem AddRLP_correct (RC : RefCodec) (RCok : RefCodecOk) (gw : Gateway) (k : ObjectKey) :
  (refs_readable gw → ∃ gw' added, AddRLP (Some gw) k = (Some gw', added) ∧
     (added = true ↔ k ∉ RLPRefs (Some gw)) ∧
     RLPRefs (Some gw') = RLPRefs (Some gw) ++ (if added then [k] else []) ∧
     (NoDup (RLPRefs (Some gw)) → NoDup (RLPRefs (Some gw'))) ∧
     ContainsRLP (Some gw') k = true ∧ same_but_refs gw' gw) ∧
  (¬ refs_readable gw → AddRLP (Some gw) k = (Some gw, false)).
Proof.
  split.
  - intros Hr. destruct (AddRLP_spec gw k Hr) as [[Hin Heq]|(Hin & gw' & Heq & Hrefs & Hs)].
    + exists gw, false. rewrite app_nil_r. repeat split; auto.
      * done.
      * by apply ContainsRLP_elem.
    + exists gw', true. rewrite ContainsRLP_elem, Hrefs. repeat split; auto; try apply Hs.
      * intros Hnd. apply NoDup_app. split; [done|]. split; [set_solver|apply NoDup_singleton].
      * set_solver.
  - unfold refs_readable, AddRLP. destruct (entries (GetAnnotations gw) !! _); [|naive_solver].
    destruct (unmarshal_refs _); simpl; naive_solver.
Qed.

(** Deleting a policy from a gateway removes the first occurrence of its
    key and reports whether there was one; on duplicate free references the
    key is gone afterwards, and the rest of the gateway is unchanged. *)
Theorem DeleteRLP_correct (RC : RefCodec) (RCok : RefCodecOk) (gw : Gateway) (k : ObjectKey) :
  ∃ gw' deleted, DeleteRLP (Some gw) k = (Some gw', deleted) ∧
    (deleted = true ↔ k ∈ RLPRefs (Some gw)) ∧
    RLPRefs (Some gw') =
      (if deleted then remove_at (FindObjectKey (RLPRefs (Some gw)) k) (RLPRefs (Some gw))
       else RLPRefs (Some gw)) ∧
    (NoDup (RLPRefs (Some gw)) →
       NoDup (RLPRefs (Some gw')) ∧ ContainsRLP (Some gw') k = false) ∧
    same_but_refs gw' gw.
Proof.
  destruct (DeleteRLP_spec gw k) as [[Hin Heq]|(l1 & l2 & gw' & Hl & Hn & Heq & Hrefs & Hs)].
  - exists gw, false. repeat split; auto; [done|].
    by rewrite ContainsRLP_refs, ContainsObjectKey_false.
  - exists gw', true.
    assert (Hk : k ∈ RLPRefs (Some gw)) by (rewrite Hl; set_solver).
    rewrite ContainsRLP_refs, ContainsObjectKey_false, Hrefs.
    destruct (remove_found _ k Hk) as (m1 & m2 & Hm & Hm1 & Hrem). rewrite Hrem.
    rewrite Hl in Hm. destruct (split_at_first _ _ _ _ _ Hm Hn Hm1) as [<- <-].
    split; [done|]. split; [done|]. split; [done|]. rewrite Hl.
    split; [|done]. rewrite NoDup_app, NoDup_cons. intros (H1 & H2 & H3 & H4).
    split; [apply NoDup_app|]; set_solver.
Qed.

(** Adding then deleting a policy a gateway did not reference restores its
    references, and [ContainsRLP] is membership in [RLPRefs] throughout. *)
Theorem AddRLP_DeleteRLP_roundtrip (RC : RefCodec) (RCok : RefCodecOk)
    (gw : Gateway) (k : ObjectKey)
    (Hr : refs_readable gw) (Hk : ContainsRLP (Some gw) k = false) :
  RLPRefs (DeleteRLP (AddRLP (Some gw) k).1 k).1 = RLPRefs (Some gw) ∧
  ∀ x, ContainsRLP (AddRLP (Some gw) k).1 x = true ↔
       x = k ∨ ContainsRLP (Some gw) x = true.
Proof.
  rewrite ContainsRLP_refs, ContainsObjectKey_false in Hk.
  destruct (AddRLP_spec gw k Hr) as [[? _]|(_ & gw' & -> & Hrefs & _)]; [done|]. simpl.
  split.
  - destruct (DeleteRLP_spec gw' k) as [[Hin _]|(l1 & l2 & gw2 & Hl & Hn & -> & Hrefs2 & _)].
    + rewrite Hrefs in Hin. set_solver.
    + simpl. rewrite Hrefs2. rewrite Hl in Hrefs.
      assert (l2 = []) as ->.
      { destruct l2 as [|y l2 _] using rev_ind; [done|].
        rewrite app_comm_cons, app_assoc in Hrefs. apply app_inj_tail in Hrefs as [Heq ->].
        rewrite <- Heq in Hk. set_solver. }
      apply app_inj_tail in Hrefs as [-> _]. by rewrite app_nil_r.
  - intros x. rewrite !ContainsRLP_elem, Hrefs. set_solver.
Qed.

Definition sample_gateway (a : gomap string) : Gateway :=
  Build_object (meta_set_annotations (new_meta "gw" "istio-system") a)
    {| Listeners := [{| listener_Hostname := Some "*.com" |}] |} {| gw_Conditions := [] |}.
Definition sample_rlp_key : ObjectKey := {| Namespace := "ns"; Name := "rlp" |}.

Lemma AddRLP_DeleteRLP_roundtrip_witness :
  ContainsRLP (Some (sample_gateway None)) sample_rlp_key = false ∧
  RLPRefs (DeleteRLP (AddRLP (Some (sample_gateway None)) sample_rlp_key).1 sample_rlp_key).1
    = [].
Proof.
  split; [reflexivity|].
  apply (AddRLP_DeleteRLP_roundtrip json_ref_codec json_ref_codec_ok
           (sample_gateway None) sample_rlp_key).
  - exact I.
  - reflexivity.
Defined.

(** The new, same and left gateways of a policy are pairwise disjoint,
    come in the order of the gateway list, and a gateway of the list is left
    out exactly when it is neither targeted nor references the policy. *)
Theorem gateway_diff_partition (RC : RefCodec) (gws : list Gateway) (k : ObjectKey)
    (ks : list ObjectKey) :
  let new := NewGateways gws k ks in
  let same := SameGateways gws k ks in
  let left_ := LeftGateways gws k ks in
  (∀ g, ¬ (g ∈ new ∧ g ∈ same) ∧ ¬ (g ∈ same ∧ g ∈ left_) ∧ ¬ (g ∈ new ∧ g ∈ left_)) ∧
  (∀ gw, gw ∈ gws →
     (Some gw ∈ new ↔ ObjectKeyFromObject gw ∈ ks ∧ ContainsRLP (Some gw) k = false) ∧
     (Some gw ∈ same ↔ ObjectKeyFromObject gw ∈ ks ∧ ContainsRLP (Some gw) k = true) ∧
     (Some gw ∈ left_ ↔ ObjectKeyFromObject gw ∉ ks ∧ ContainsRLP (Some gw) k = true)) ∧
  new `sublist_of` (Some <$> gws) ∧ same `sublist_of` (Some <$> gws) ∧
  left_ `sublist_of` (Some <$> gws).
Proof.
  cbv zeta. rewrite NewGateways_filter, SameGateways_filter, LeftGateways_filter.
  split; [|split].
  - intros g. rewrite !list_elem_of_fmap. setoid_rewrite list_elem_of_filter. naive_solver.
  - intros gw Hgw.
    rewrite !(list_elem_of_fmap_inj Some), !list_elem_of_filter.
    rewrite ContainsRLP_elem, ContainsRLP_refs, ContainsObjectKey_false. naive_solver.
  - split; [|split]; apply fmap_sublist, sublist_filter.
Qed.

Lemma AddRLP_correct_witness :
  ∃ gw', AddRLP (Some (sample_gateway None)) sample_rlp_key = (Some gw', true) ∧
    RLPRefs (Some gw') = [sample_rlp_key] ∧ same_but_refs gw' (sample_gateway None).
Proof.
  destruct (proj1 (AddRLP_correct json_ref_codec json_ref_codec_ok (sample_gateway None)
    sample_rlp_key) I) as (gw' & added & Heq & _ & Hrefs & _ & _ & Hsame).
  assert (added = true) as Ha by exact (f_equal snd (eq_sym Heq)).
  subst added. exists gw'. split; [exact Heq|]. split; [exact Hrefs|exact Hsame].
Defined.

Lemma DeleteRLP_correct_witness :
  ∃ gw', DeleteRLP (AddRLP (Some (sample_gateway None)) sample_rlp_key).1 sample_rlp_key
           = (Some gw', true) ∧ RLPRefs (Some gw') = [].
Proof.
  destruct (AddRLP (Some (sample_gateway None)) sample_rlp_key).1 as [gw|] eqn:Hgw;
    [|discriminate].
  destruct (DeleteRLP_correct json_ref_codec json_ref_codec_ok gw sample_rlp_key)
    as (gw' & deleted & Heq & Hiff & Hrefs & _).
  injection Hgw as <-.
  assert (deleted = true) as -> by (apply Hiff; apply (bool_decide_unpack _); vm_compute; exact I).
  exists gw'. split; [exact Heq|]. rewrite Hrefs. vm_compute. reflexivity.
Defined.
