(* ===== verification/Client.v ===== *)
(** * Programs that talk to the API server

    A reconciler is a [prog]: a finite tree of calls to the Kubernetes client,
    each continued by the answer.  Nothing is assumed of the answers, so a
    statement proved with [wp] holds whatever other actors do to the cluster
    between two calls.  [run] executes a program against a server given as a
    function; [memory_server] is such a server. *)
From S2P Require Import Prelude GoStrings KubeTypes.

(** ** Calls and answers *)

(** The methods of [client.Client] the controller uses. *)
Inductive call :=
  | Get (k : Kind) (key : ObjectKey)
  | ListGateways
  | Create (k : Kind) (o : obj k)
  | Update (k : Kind) (o : obj k)
  | UpdateStatus (k : Kind) (o : obj k)
  | Delete (k : Kind) (o : obj k).

(** What a call leaves in the object it was given: [Get] fills it, [Create],
    [Update] and [Status().Update] overwrite it with the server's version. *)
Definition result_of (c : call) : Type :=
  match c with
  | Get k _ | Create k _ | Update k _ | UpdateStatus k _ => obj k
  | ListGateways => list Gateway
  | Delete _ _ => unit
  end.

Inductive answer (A : Type) :=
  | Success (a : A)
  | Failure (e : error).
Arguments Success {A} _.
Arguments Failure {A} _.

Record event := Event {
  ev_call : call;
  ev_answer : answer (result_of ev_call)
}.

Definition is_write (c : call) : bool :=
  match c with Get _ _ | ListGateways => false | _ => true end.

Definition call_kind (c : call) : Kind :=
  match c with
  | Get k _ | Create k _ | Update k _ | UpdateStatus k _ | Delete k _ => k
  | ListGateways => KGateway
  end.

(** ** Programs *)

Inductive prog (A : Type) : Type :=
  | Ret (o : outcome A)
  | Do (c : call) (k : answer (result_of c) → prog A).
Arguments Ret {A} _.
Arguments Do {A} _ _.

Fixpoint prog_bind {A B} (p : prog A) (f : A → prog B) : prog B :=
  match p with
  | Ret (Ok a) => f a
  | Ret (Err e) => Ret (Err e)
  | Ret (Panic m) => Ret (Panic m)
  | Do c k => Do c (λ a, prog_bind (k a) f)
  end.

Notation "x <-- p ;; q" := (prog_bind p (λ x, q))
  (at level 100, p at next level, right associativity) : go_scope.
Notation "p ;;; q" := (prog_bind p (λ _, q))
  (at level 100, right associativity) : go_scope.

Definition ret {A} (a : A) : prog A := Ret (Ok a).
Definition fail {A} (e : error) : prog A := Ret (Err e).
Definition panic {A} (m : string) : prog A := Ret (Panic m).

(** Go's [v, err := f()] with the error inspected by the caller. *)
Fixpoint attempt {A} (p : prog A) : prog (answer A) :=
  match p with
  | Ret (Ok a) => Ret (Ok (Success a))
  | Ret (Err e) => Ret (Ok (Failure e))
  | Ret (Panic m) => Ret (Panic m)
  | Do c k => Do c (λ a, attempt (k a))
  end.

(** One call; its error is returned. *)
Definition request (c : call) : prog (result_of c) :=
  Do c (λ a, match a with Success r => ret r | Failure e => fail e end).

(** A [for] loop that threads [s] and leaves on an error. *)
Fixpoint loop {S X} (body : S → X → prog S) (s : S) (l : list X) : prog S :=
  match l with
  | [] => ret s
  | x :: l => prog_bind (body s x) (λ s, loop body s l)
  end.

(** ** Weakest preconditions

    [wp p Q]: for all answers, the events and the result of [p] satisfy [Q]. *)

Fixpoint wp {A} (p : prog A) (Q : list event → outcome A → Prop) : Prop :=
  match p with
  | Ret o => Q [] o
  | Do c k => ∀ a, wp (k a) (λ t o, Q (Event c a :: t) o)
  end.

Lemma wp_mono {A} (p : prog A) (Q R : list event → outcome A → Prop) :
  wp p Q → (∀ t o, Q t o → R t o) → wp p R.
Proof.
  revert Q R. induction p as [o|c k IH]; intros Q R HQ HR; simpl in *; [by apply HR|].
  intros a. eapply IH; [apply HQ|]. intros t o. apply HR.
Qed.

Lemma wp_and {A} (p : prog A) (Q R : list event → outcome A → Prop) :
  wp p Q → wp p R → wp p (λ t o, Q t o ∧ R t o).
Proof.
  revert Q R. induction p as [o|c k IH]; intros Q R HQ HR; simpl in *; [done|].
  intros a. apply IH; eauto.
Qed.

Lemma wp_always {A} (p : prog A) (Q : list event → outcome A → Prop) :
  (∀ t o, Q t o) → wp p Q.
Proof. revert Q. induction p as [o|c k IH]; intros Q HQ; simpl; auto. Qed.

(** What follows the events [t] and the result [o] of the first part. *)
Definition after {A B} (t : list event) (o : outcome A) (f : A → prog B)
    (Q : list event → outcome B → Prop) : Prop :=
  match o with
  | Ok a => wp (f a) (λ t' o', Q (t ++ t') o')
  | Err e => Q t (Err e)
  | Panic m => Q t (Panic m)
  end.

Lemma wp_bind {A B} (p : prog A) (f : A → prog B) Q :
  wp (prog_bind p f) Q ↔ wp p (λ t o, after t o f Q).
Proof.
  revert Q. induction p as [[a|e|m]|c k IH]; intros Q; simpl; [done..|].
  split; intros H a.
  - specialize (H a). apply IH in H. eapply wp_mono; [exact H|].
    by intros t [b|e|m].
  - apply IH. eapply wp_mono; [exact (H a)|]. by intros t [b|e|m].
Qed.

Lemma wp_attempt {A} (p : prog A) Q :
  wp (attempt p) Q ↔
  wp p (λ t o, match o with
               | Ok a => Q t (Ok (Success a))
               | Err e => Q t (Ok (Failure e))
               | Panic m => Q t (Panic m)
               end).
Proof.
  revert Q. induction p as [[a|e|m]|c k IH]; intros Q; simpl; [done..|].
  split; intros H a; specialize (H a).
  - apply IH in H. exact H.
  - apply IH. exact H.
Qed.

Lemma wp_request c Q :
  wp (request c) Q ↔
  (∀ r, Q [Event c (Success r)] (Ok r)) ∧ (∀ e, Q [Event c (Failure e)] (Err e)).
Proof.
  simpl. split.
  - intros H. split; [intros r; apply (H (Success r))|intros e; apply (H (Failure e))].
  - intros [Hs Hf] [r|e]; [apply Hs|apply Hf].
Qed.

(** A loop keeps an invariant on the events so far and the state. *)
Lemma wp_loop {S X} (I : list X → list event → S → Prop) (Q : list event → outcome S → Prop)
    (body : S → X → prog S) (l : list X) (s : S) :
  I [] [] s →
  (∀ done x todo t s, l = done ++ x :: todo → I done t s →
     wp (body s x) (λ t' o, match o with
                            | Ok s' => I (done ++ [x]) (t ++ t') s'
                            | Err e => Q (t ++ t') (Err e)
                            | Panic m => Q (t ++ t') (Panic m)
                            end)) →
  (∀ t s, I l t s → Q t (Ok s)) →
  wp (loop body s l) Q.
Proof.
  intros HI Hbody HQ.
  cut (∀ todo done t s, l = done ++ todo → I done t s →
         wp (loop body s todo) (λ t' o, Q (t ++ t') o)).
  { intros H. eapply wp_mono; [by apply (H l [] [])|done]. }
  induction todo as [|x todo IH]; intros done t s' Hl HI'; simpl.
  - rewrite app_nil_r in *. subst. by apply HQ.
  - apply wp_bind. eapply wp_mono; [by eapply Hbody|].
    intros t1 [s1|e|m] H1; simpl; [|done..].
    eapply wp_mono; [apply (IH (done ++ [x]) (t ++ t1)); [|exact H1]|].
    + by rewrite <- app_assoc.
    + intros t2 o2. by rewrite app_assoc.
Qed.

(** ** Programs that only emit certain calls *)

Definition emits {A} (P : call → Prop) (p : prog A) : Prop :=
  wp p (λ t _, Forall (λ e, P (ev_call e)) t).

Lemma emits_ret {A} P (o : outcome A) : emits P (Ret o).
Proof. constructor. Qed.

Lemma emits_do {A} (P : call → Prop) c (k : answer (result_of c) → prog A) :
  P c → (∀ a, emits P (k a)) → emits P (Do c k).
Proof.
  intros Hc Hk a. eapply wp_mono; [apply Hk|]. intros t o Ht. by constructor.
Qed.

Lemma emits_request (P : call → Prop) c : P c → emits P (request c).
Proof. intros Hc. apply emits_do; [done|]. intros [r|e]; apply emits_ret. Qed.

Lemma emits_bind {A B} P (p : prog A) (f : A → prog B) :
  emits P p → (∀ a, emits P (f a)) → emits P (prog_bind p f).
Proof.
  intros Hp Hf. apply wp_bind. eapply wp_mono; [exact Hp|].
  intros t [a|e|m] Ht; simpl; [|done..].
  eapply wp_mono; [apply Hf|]. intros t' o Ht'. by apply Forall_app.
Qed.

Lemma emits_attempt {A} P (p : prog A) : emits P p → emits P (attempt p).
Proof.
  intros Hp. apply wp_attempt. eapply wp_mono; [exact Hp|]. by intros t [a|e|m].
Qed.

Lemma emits_loop {S X} P (body : S → X → prog S) s l :
  (∀ s x, emits P (body s x)) → emits P (loop body s l).
Proof.
  intros Hb. revert s. induction l as [|x l IH]; intros s; simpl.
  - apply emits_ret.
  - apply emits_bind; auto.
Qed.

Lemma emits_mono {A} (P P' : call → Prop) (p : prog A) :
  (∀ c, P c → P' c) → emits P p → emits P' p.
Proof.
  intros HP Hp. eapply wp_mono; [exact Hp|]. intros t o Ht.
  eapply Forall_impl; [exact Ht|]. intros e. apply HP.
Qed.

(** [emits_auto]: goes through a program, case by case. *)
Ltac emits_step :=
  match goal with
  | |- ∀ _, _ => intro
  | |- emits _ (Ret _) => apply emits_ret
  | |- emits _ (ret _) => apply emits_ret
  | |- emits _ (fail _) => apply emits_ret
  | |- emits _ (panic _) => apply emits_ret
  | |- emits _ (prog_bind _ _) => apply emits_bind
  | |- emits _ (attempt _) => apply emits_attempt
  | |- emits _ (loop _ _ _) => apply emits_loop
  | |- emits _ (request _) => apply emits_request
  | |- emits _ (match ?x with _ => _ end) => destruct x
  | |- emits _ (if ?x then _ else _) => destruct x
  | |- emits _ (let '_ := ?x in _) => destruct x
  | |- emits _ _ => solve [auto 1 with kuadrant]
  end.
Ltac emits_auto := repeat emits_step; try solve [auto with kuadrant].

(** ** Running a program *)

Fixpoint run {W A} (server : W → ∀ c, W * answer (result_of c)) (p : prog A) (w : W) :
  W * list event * outcome A :=
  match p with
  | Ret o => (w, [], o)
  | Do c k =>
      let '(w, a) := server w c in
      let '(w, t, o) := run server (k a) w in
      (w, Event c a :: t, o)
  end.

(** What is proved for all answers holds of every run. *)
Lemma wp_run {W A} (server : W → ∀ c, W * answer (result_of c)) (p : prog A) Q w :
  wp p Q → Q (run server p w).1.2 (run server p w).2.
Proof.
  revert Q w. induction p as [o|c k IH]; intros Q w HQ; simpl; [done|].
  destruct (server w c) as [w' a].
  specialize (IH a (λ t o, Q (Event c a :: t) o) w' (HQ a)). simpl in IH.
  by destruct (run server (k a) w') as [[w'' t] o].
Qed.

Lemma run_bind {W A B} (server : W → ∀ c, W * answer (result_of c))
    (p : prog A) (f : A → prog B) w :
  run server (prog_bind p f) w =
  let '(w1, t1, o) := run server p w in
  match o with
  | Ok a => let '(w2, t2, o2) := run server (f a) w1 in (w2, t1 ++ t2, o2)
  | Err e => (w1, t1, Err e)
  | Panic m => (w1, t1, Panic m)
  end.
Proof.
  revert w. induction p as [[a|e|m]|c k IH]; intros w; simpl; [|done..|].
  - by destruct (run server (f a) w) as [[w2 t2] o2].
  - destruct (server w c) as [w' a]. rewrite IH.
    destruct (run server (k a) w') as [[w1 t1] [b|e|m]]; simpl; [|done..].
    by destruct (run server (f b) w1) as [[w2 t2] o2].
Qed.

Lemma run_attempt {W A} (server : W → ∀ c, W * answer (result_of c)) (p : prog A) w :
  run server (attempt p) w =
  let '(w1, t1, o) := run server p w in
  (w1, t1, match o with
           | Ok a => Ok (Success a)
           | Err e => Ok (Failure e)
           | Panic m => Panic m
           end).
Proof.
  revert w. induction p as [[a|e|m]|c k IH]; intros w; simpl; [done..|].
  destruct (server w c) as [w' a]. rewrite IH.
  by destruct (run server (k a) w') as [[w1 t1] o].
Qed.

(** ** A server in memory, with no other actor *)

Definition store : Type := ∀ k : Kind, gmap ObjectKey (obj k).

Definition store_put {k} (s : store) (o : obj k) : store := λ k',
  match decide (k = k') with
  | left e => eq_rect k (λ k', gmap ObjectKey (obj k'))
                (<[ObjectKeyFromObject o := o]> (s k)) k' e
  | right _ => s k'
  end.

Definition store_delete (k : Kind) (key : ObjectKey) (s : store) : store := λ k',
  if decide (k = k') then delete key (s k') else s k'.

Definition api_error (r : StatusReason) (msg : string) (key : ObjectKey) : error :=
  ErrStatus r (Name key +:+ " " +:+ msg).

Definition memory_server (s : store) (c : call) : store * answer (result_of c) :=
  match c with
  | Get k key =>
      (s, match s k !! key with
          | Some o => Success o
          | None => Failure (api_error ReasonNotFound "not found" key)
          end)
  | ListGateways => (s, Success (map_to_list (s KGateway)).*2)
  | Create k o =>
      match s k !! ObjectKeyFromObject o with
      | Some _ => (s, Failure (api_error ReasonAlreadyExists "already exists"
                                 (ObjectKeyFromObject o)))
      | None => (store_put s o, Success o)
      end
  | Update k o =>
      match s k !! ObjectKeyFromObject o with
      | Some _ => (store_put s o, Success o)
      | None => (s, Failure (api_error ReasonNotFound "not found" (ObjectKeyFromObject o)))
      end
  | UpdateStatus k o =>
      match s k !! ObjectKeyFromObject o with
      | Some old =>
          (store_put s (set_status old (status o)), Success (set_status old (status o)))
      | None => (s, Failure (api_error ReasonNotFound "not found" (ObjectKeyFromObject o)))
      end
  | Delete k o =>
      match s k !! ObjectKeyFromObject o with
      | Some _ => (store_delete k (ObjectKeyFromObject o) s, Success tt)
      | None => (s, Failure (api_error ReasonNotFound "not found" (ObjectKeyFromObject o)))
      end
  end.

Lemma store_put_same {k} (s : store) (o : obj k) :
  store_put s o k = <[ObjectKeyFromObject o := o]> (s k).
Proof.
  unfold store_put. destruct (decide (k = k)) as [e|]; [|done].
  by rewrite (Eqdep_dec.UIP_dec Kind_eq_dec e eq_refl).
Qed.

Lemma store_put_other {k} (s : store) (o : obj k) k' :
  k ≠ k' → store_put s o k' = s k'.
Proof. intros Hk. unfold store_put. by destruct (decide (k = k')). Qed.

Lemma store_delete_same k key s : store_delete k key s k = delete key (s k).
Proof. unfold store_delete. by destruct (decide (k = k)). Qed.

Lemma store_delete_other k key s k' : k ≠ k' → store_delete k key s k' = s k'.
Proof. intros Hk. unfold store_delete. by destruct (decide (k = k')). Qed.

Definition empty_store : store := λ _, ∅.

(** ** Programs that only read *)

Definition reads : call → Prop := λ c, is_write c = false.

#[export] Hint Extern 1 (reads _) => reflexivity : kuadrant.

Lemma emits_inv {A} (P : call → Prop) c (k : answer (result_of c) → prog A) :
  emits P (Do c k) → P c ∧ ∀ a, emits P (k a).
Proof.
  intros H. split.
  - pose proof (wp_run (λ (_ : unit) c, (tt, Failure (ErrText empty_string)))
                  _ _ tt (H (Failure (ErrText empty_string)))) as HF.
    by apply Forall_cons in HF as [? _].
  - intros a. eapply wp_mono; [exact (H a)|]. intros t o HF. by apply Forall_cons in HF as [_ ?].
Qed.

Lemma memory_server_reads s c : reads c → (memory_server s c).1 = s.
Proof. by destruct c. Qed.

(** A program that only reads leaves the store as it is. *)
Lemma run_reads {A} (p : prog A) s : emits reads p → (run memory_server p s).1.1 = s.
Proof.
  induction p as [o|c k IH]; simpl; [done|]. intros [Hc Hk]%emits_inv.
  pose proof (memory_server_reads s c Hc) as Hs.
  destruct (memory_server s c) as [s' a]. simpl in Hs. subst s'.
  specialize (IH a (Hk a)). by destruct (run memory_server (k a) s) as [[s2 t] o].
Qed.

(** What such a program sees is what the store holds. *)
Lemma run_answers {A} (p : prog A) s :
  emits reads p →
  Forall (λ e, ev_answer e = (memory_server s (ev_call e)).2) (run memory_server p s).1.2.
Proof.
  induction p as [o|c k IH]; simpl; [constructor|]. intros [Hc Hk]%emits_inv.
  pose proof (memory_server_reads s c Hc) as Hs.
  destruct (memory_server s c) as [s' a] eqn:Hm. simpl in Hs. subst s'.
  specialize (IH a (Hk a)). destruct (run memory_server (k a) s) as [[s2 t] o].
  constructor; [simpl; by rewrite Hm|done].
Qed.

Definition answered {A} (a : answer A) : outcome A :=
  match a with Success r => Ok r | Failure e => Err e end.

Lemma run_request {W} (server : W → ∀ c, W * answer (result_of c)) c w :
  run server (request c) w =
  ((server w c).1, [Event c (server w c).2], answered (server w c).2).
Proof. simpl. by destruct (server w c) as [w' [r|e]]. Qed.

(** What the server in memory has under a key. *)
Definition get_result (s : store) (k : Kind) (key : ObjectKey) : outcome (obj k) :=
  match s k !! key with
  | Some o => Ok o
  | None => Err (api_error ReasonNotFound "not found" key)
  end.

Lemma run_get s k key :
  run memory_server (request (Get k key)) s =
  (s, [Event (Get k key) (memory_server s (Get k key)).2], get_result s k key).
Proof. rewrite run_request. unfold get_result. simpl. by destruct (s k !! key). Qed.

(** ** Reads at the Go types *)

Definition get_gateway (key : ObjectKey) : prog Gateway := request (Get KGateway key).
Definition get_route (key : ObjectKey) : prog HTTPRoute := request (Get KHTTPRoute key).
Definition get_policy (key : ObjectKey) : prog RateLimitPolicy :=
  request (Get KRateLimitPolicy key).
Definition get_auth_policy (key : ObjectKey) : prog AuthPolicy := request (Get KAuthPolicy key).
Definition get_limitador (key : ObjectKey) : prog Limitador := request (Get KLimitador key).
Definition get_auth_config (key : ObjectKey) : prog AuthConfig := request (Get KAuthConfig key).
Definition list_gateways : prog (list Gateway) := request ListGateways.

Section typed_reads.
Implicit Types (key : ObjectKey).

Lemma wp_get_gateway key (Q : list event → outcome Gateway → Prop) :
  (∀ g : Gateway, Q [Event (Get KGateway key) (Success (g : obj KGateway))] (Ok g)) →
  (∀ e, Q [Event (Get KGateway key) (Failure e)] (Err e)) → wp (get_gateway key) Q.
Proof. intros Hs Hf. by apply (wp_request (Get KGateway key)). Qed.

Lemma wp_get_route key (Q : list event → outcome HTTPRoute → Prop) :
  (∀ r : HTTPRoute, Q [Event (Get KHTTPRoute key) (Success (r : obj KHTTPRoute))] (Ok r)) →
  (∀ e, Q [Event (Get KHTTPRoute key) (Failure e)] (Err e)) → wp (get_route key) Q.
Proof. intros Hs Hf. by apply (wp_request (Get KHTTPRoute key)). Qed.

Lemma wp_get_policy key (Q : list event → outcome RateLimitPolicy → Prop) :
  (∀ r : RateLimitPolicy,
     Q [Event (Get KRateLimitPolicy key) (Success (r : obj KRateLimitPolicy))] (Ok r)) →
  (∀ e, Q [Event (Get KRateLimitPolicy key) (Failure e)] (Err e)) → wp (get_policy key) Q.
Proof. intros Hs Hf. by apply (wp_request (Get KRateLimitPolicy key)). Qed.

Lemma wp_get_auth_policy key (Q : list event → outcome AuthPolicy → Prop) :
  (∀ p : AuthPolicy, Q [Event (Get KAuthPolicy key) (Success (p : obj KAuthPolicy))] (Ok p)) →
  (∀ e, Q [Event (Get KAuthPolicy key) (Failure e)] (Err e)) → wp (get_auth_policy key) Q.
Proof. intros Hs Hf. by apply (wp_request (Get KAuthPolicy key)). Qed.

Lemma wp_get_limitador key (Q : list event → outcome Limitador → Prop) :
  (∀ l : Limitador, Q [Event (Get KLimitador key) (Success (l : obj KLimitador))] (Ok l)) →
  (∀ e, Q [Event (Get KLimitador key) (Failure e)] (Err e)) → wp (get_limitador key) Q.
Proof. intros Hs Hf. by apply (wp_request (Get KLimitador key)). Qed.

Lemma wp_get_auth_config key (Q : list event → outcome AuthConfig → Prop) :
  (∀ c : AuthConfig, Q [Event (Get KAuthConfig key) (Success (c : obj KAuthConfig))] (Ok c)) →
  (∀ e, Q [Event (Get KAuthConfig key) (Failure e)] (Err e)) → wp (get_auth_config key) Q.
Proof. intros Hs Hf. by apply (wp_request (Get KAuthConfig key)). Qed.

Lemma wp_list_gateways (Q : list event → outcome (list Gateway) → Prop) :
  (∀ gws : list Gateway, Q [Event ListGateways (Success gws)] (Ok gws)) →
  (∀ e, Q [Event ListGateways (Failure e)] (Err e)) → wp list_gateways Q.
Proof. intros Hs Hf. by apply (wp_request ListGateways). Qed.

Context (P : call → Prop).
Lemma emits_get_gateway key : P (Get KGateway key) → emits P (get_gateway key).
Proof. apply (emits_request P (Get KGateway key)). Qed.
Lemma emits_get_route key : P (Get KHTTPRoute key) → emits P (get_route key).
Proof. apply (emits_request P (Get KHTTPRoute key)). Qed.
Lemma emits_get_policy key : P (Get KRateLimitPolicy key) → emits P (get_policy key).
Proof. apply (emits_request P (Get KRateLimitPolicy key)). Qed.
Lemma emits_get_auth_policy key : P (Get KAuthPolicy key) → emits P (get_auth_policy key).
Proof. apply (emits_request P (Get KAuthPolicy key)). Qed.
Lemma emits_get_limitador key : P (Get KLimitador key) → emits P (get_limitador key).
Proof. apply (emits_request P (Get KLimitador key)). Qed.
Lemma emits_get_auth_config key : P (Get KAuthConfig key) → emits P (get_auth_config key).
Proof. apply (emits_request P (Get KAuthConfig key)). Qed.
Lemma emits_list_gateways : P ListGateways → emits P list_gateways.
Proof. apply (emits_request P ListGateways). Qed.
End typed_reads.

#[export] Hint Resolve emits_get_gateway emits_get_route emits_get_policy
  emits_get_auth_policy emits_get_limitador emits_get_auth_config emits_list_gateways : kuadrant.
#[global] Arguments get_gateway : simpl never.
#[global] Arguments get_route : simpl never.
#[global] Arguments get_policy : simpl never.
#[global] Arguments get_auth_policy : simpl never.
#[global] Arguments get_limitador : simpl never.
#[global] Arguments get_auth_config : simpl never.
#[global] Arguments list_gateways : simpl never.

Lemma run_get_gateway s key :
  run memory_server (get_gateway key) s =
  (s, [Event (Get KGateway key) (memory_server s (Get KGateway key)).2],
   get_result s KGateway key).
Proof. exact (run_get s KGateway key). Qed.
Lemma run_get_route s key :
  run memory_server (get_route key) s =
  (s, [Event (Get KHTTPRoute key) (memory_server s (Get KHTTPRoute key)).2],
   get_result s KHTTPRoute key).
Proof. exact (run_get s KHTTPRoute key). Qed.

(** ** Errors of writes

    [checks p]: the error of any write of [p] is the result of [p]; in
    particular, when [p] succeeds, so did every write it made. *)

Definition ev_error (e : event) : option error :=
  match ev_answer e with Success _ => None | Failure err => Some err end.

Definition returned {A} (o : outcome A) (e : event) : Prop :=
  is_write (ev_call e) = true → ∀ err, ev_error e = Some err → o = Err err.

Definition checks {A} (p : prog A) : Prop := wp p (λ t o, Forall (returned o) t).

Definition write_ok (e : event) : Prop := is_write (ev_call e) = true → ev_error e = None.

Lemma returned_ok {A} (o : outcome A) t :
  is_ok o → Forall (returned o) t → Forall write_ok t.
Proof.
  intros Ho Ht. eapply Forall_impl; [exact Ht|]. intros e He Hw.
  destruct (ev_error e) as [err|] eqn:Herr; [|done]. by rewrite (He Hw err Herr) in Ho.
Qed.

Lemma write_ok_returned {A} (o : outcome A) t : Forall write_ok t → Forall (returned o) t.
Proof.
  intros Ht. eapply Forall_impl; [exact Ht|]. intros e He Hw err Herr.
  rewrite (He Hw) in Herr. done.
Qed.

Lemma checks_ret {A} (o : outcome A) : checks (Ret o).
Proof. constructor. Qed.

Lemma checks_request c : checks (request c).
Proof.
  apply wp_request. split; intros x; (constructor; [|constructor]); intros _ err; simpl.
  - by intros [=].
  - by intros [= <-].
Qed.

Lemma checks_bind {A B} (p : prog A) (f : A → prog B) :
  checks p → (∀ a, checks (f a)) → checks (prog_bind p f).
Proof.
  intros Hp Hf. apply wp_bind. eapply wp_mono; [exact Hp|].
  intros t [a|e|m] Ht; cbn [after].
  - eapply wp_mono; [apply Hf|]. intros t' o' Ht'. apply Forall_app. split; [|done].
    by apply write_ok_returned, (returned_ok (Ok a)).
  - eapply Forall_impl; [exact Ht|]. intros ev Hev Hw err Herr.
    specialize (Hev Hw err Herr). congruence.
  - eapply Forall_impl; [exact Ht|]. intros ev Hev Hw err Herr.
    specialize (Hev Hw err Herr). congruence.
Qed.

Lemma reads_write_ok t : Forall (λ e, reads (ev_call e)) t → Forall write_ok t.
Proof.
  intros Ht. eapply Forall_impl; [exact Ht|]. intros e Hr Hw. unfold reads in Hr. congruence.
Qed.

Lemma checks_attempt {A} (p : prog A) : emits reads p → checks (attempt p).
Proof.
  intros Hp. apply wp_attempt. eapply wp_mono; [exact Hp|].
  intros t [a|e|m] Ht; by apply write_ok_returned, reads_write_ok.
Qed.

Lemma checks_reads {A} (p : prog A) : emits reads p → checks p.
Proof.
  intros Hp. eapply wp_mono; [exact Hp|]. intros t o Ht.
  by apply write_ok_returned, reads_write_ok.
Qed.

Lemma checks_loop {S X} (body : S → X → prog S) s l :
  (∀ s x, checks (body s x)) → checks (loop body s l).
Proof.
  intros Hb. revert s. induction l as [|x l IH]; intros s; simpl; [apply checks_ret|].
  apply checks_bind; auto.
Qed.

Ltac checks_step :=
  match goal with
  | |- ∀ _, _ => intro
  | |- checks (Ret _) => apply checks_ret
  | |- checks (ret _) => apply checks_ret
  | |- checks (fail _) => apply checks_ret
  | |- checks (panic _) => apply checks_ret
  | |- checks (prog_bind _ _) => apply checks_bind
  | |- checks (loop _ _ _) => apply checks_loop
  | |- checks (request _) => apply checks_request
  | |- checks (match ?x with _ => _ end) => destruct x
  | |- checks (if ?x then _ else _) => destruct x
  | |- checks (let '_ := ?x in _) => destruct x
  | |- checks _ => solve [auto 1 with kuadrant]
  end.
Ltac checks_auto := repeat checks_step; try solve [auto with kuadrant].

(** ** Two phases

    [phased P R p]: the calls of [p] satisfy [P] first and [R] afterwards, and
    the second phase, or success, is reached only after successful writes. *)

Definition phased {A} (P R : call → Prop) (p : prog A) : Prop :=
  wp p (λ t o, ∃ b r, t = b ++ r ∧ Forall (λ e, P (ev_call e)) b ∧
    Forall (λ e, R (ev_call e)) r ∧ (r ≠ [] ∨ is_ok o → Forall write_ok b)).

Lemma phased_bind {A B} (P R : call → Prop) (p : prog A) (f : A → prog B) :
  emits P p → checks p → (∀ a, phased P R (f a)) → phased P R (prog_bind p f).
Proof.
  intros He Hc Hf. apply wp_bind. eapply wp_mono; [apply (wp_and _ _ _ He Hc)|].
  intros t [a|e|m] [HP HW]; cbn [after];
    [|exists t, []; rewrite app_nil_r; split; [done|]; split; [done|]; split; [done|];
      by intros [?|?]..].
  eapply wp_mono; [apply Hf|]. intros t' o (b & r & -> & Hb & Hr & Hw).
  exists (t ++ b), r. rewrite app_assoc. split; [done|].
  split; [by apply Forall_app|]. split; [done|].
  intros Ho. apply Forall_app. split; [by apply (returned_ok (Ok a))|auto].
Qed.

Lemma phased_last {A} (P R : call → Prop) (p : prog A) : emits R p → phased P R p.
Proof.
  intros He. eapply wp_mono; [exact He|]. intros t o Ht. exists [], t.
  split; [done|]. split; [done|]. split; [done|]. constructor.
Qed.

(** ** Programs that do not panic *)

Definition safe {A} (p : prog A) : Prop := wp p (λ _ o, no_panic o).

Lemma safe_ret {A} (o : outcome A) : no_panic o → safe (Ret o).
Proof. done. Qed.
Lemma safe_request c : safe (request c).
Proof. by apply wp_request. Qed.
Lemma safe_bind {A B} (p : prog A) (f : A → prog B) :
  safe p → (∀ a, safe (f a)) → safe (prog_bind p f).
Proof.
  intros Hp Hf. apply wp_bind. eapply wp_mono; [exact Hp|].
  intros t [a|e|m] Ht; cbn [after]; [|done..]. eapply wp_mono; [apply Hf|]. by intros t' o.
Qed.
Lemma safe_attempt {A} (p : prog A) : safe p → safe (attempt p).
Proof. intros Hp. apply wp_attempt. eapply wp_mono; [exact Hp|]. by intros t [a|e|m]. Qed.
Lemma safe_loop {S X} (body : S → X → prog S) s l :
  (∀ s x, safe (body s x)) → safe (loop body s l).
Proof.
  intros Hb. revert s. induction l as [|x l IH]; intros s; simpl; [done|].
  apply safe_bind; auto.
Qed.
Lemma safe_get_gateway key : safe (get_gateway key).
Proof. apply (safe_request (Get KGateway key)). Qed.
Lemma safe_get_route key : safe (get_route key).
Proof. apply (safe_request (Get KHTTPRoute key)). Qed.
Lemma safe_get_policy key : safe (get_policy key).
Proof. apply (safe_request (Get KRateLimitPolicy key)). Qed.
Lemma safe_get_auth_policy key : safe (get_auth_policy key).
Proof. apply (safe_request (Get KAuthPolicy key)). Qed.
Lemma safe_get_limitador key : safe (get_limitador key).
Proof. apply (safe_request (Get KLimitador key)). Qed.
Lemma safe_get_auth_config key : safe (get_auth_config key).
Proof. apply (safe_request (Get KAuthConfig key)). Qed.
Lemma safe_list_gateways : safe list_gateways.
Proof. apply (safe_request ListGateways). Qed.
#[export] Hint Resolve safe_get_gateway safe_get_route safe_get_policy safe_get_auth_policy
  safe_get_limitador safe_get_auth_config safe_list_gateways : kuadrant.

Ltac safe_step :=
  match goal with
  | |- ∀ _, _ => intro
  | |- safe (Ret (Ok _)) => exact I
  | |- safe (Ret (Err _)) => exact I
  | |- safe (ret _) => exact I
  | |- safe (fail _) => exact I
  | |- safe (prog_bind _ _) => apply safe_bind
  | |- safe (attempt _) => apply safe_attempt
  | |- safe (loop _ _ _) => apply safe_loop
  | |- safe (request _) => apply safe_request
  | |- safe (match ?x with _ => _ end) => destruct x
  | |- safe (if ?x then _ else _) => destruct x
  | |- safe (let '_ := ?x in _) => destruct x
  | |- safe _ => solve [auto 1 with kuadrant]
  end.
Ltac safe_auto := repeat safe_step; try solve [auto with kuadrant].

Lemma safe_loop_elem {S X} (body : S → X → prog S) s l :
  (∀ s x, x ∈ l → safe (body s x)) → safe (loop body s l).
Proof.
  revert s. induction l as [|x l IH]; intros s Hb; simpl; [done|].
  apply safe_bind; [apply Hb; left|]. intros s'. apply IH. intros s0 y Hy. apply Hb. by right.
Qed.

(** [returning R p]: [p] does not panic and what it returns satisfies [R]. *)
Definition returning {A} (R : A → Prop) (p : prog A) : Prop :=
  wp p (λ _ o, match o with Ok a => R a | Err _ => True | Panic _ => False end).

Lemma returning_bind {A B} (R : A → Prop) (S : B → Prop) (p : prog A) (f : A → prog B) :
  returning R p → (∀ a, R a → returning S (f a)) → returning S (prog_bind p f).
Proof.
  intros Hp Hf. apply wp_bind. eapply wp_mono; [exact Hp|].
  intros t [a|e|m] Ht; cbn [after]; [|done..]. eapply wp_mono; [by apply Hf|]. by intros t' o.
Qed.

Lemma returning_safe {A} (p : prog A) : returning (λ _, True) p ↔ safe p.
Proof. split; intros H; (eapply wp_mono; [exact H|]); by intros t [a|e|m]. Qed.

Lemma returning_mono {A} (R R' : A → Prop) (p : prog A) :
  (∀ a, R a → R' a) → returning R p → returning R' p.
Proof. intros HR Hp. eapply wp_mono; [exact Hp|]. intros t [a|e|m]; auto. Qed.

Lemma returning_loop {S X} (R : S → Prop) (body : S → X → prog S) s l :
  R s → (∀ s x, x ∈ l → R s → returning R (body s x)) → returning R (loop body s l).
Proof.
  revert s. induction l as [|x l IH]; intros s Hs Hb; simpl; [done|].
  apply (returning_bind R); [apply Hb; [left|done]|].
  intros s' Hs'. apply IH; [done|]. intros s0 y Hy. apply Hb. by right.
Qed.

(** [total p]: [p] returns a value whatever the answers. *)
Definition total {A} (p : prog A) : Prop := wp p (λ _ o, ∃ a, o = Ok a).

Lemma total_ret {A} (a : A) : total (ret a).
Proof. by exists a. Qed.
Lemma total_attempt {A} (p : prog A) : safe p → total (attempt p).
Proof.
  intros Hp. apply wp_attempt. eapply wp_mono; [exact Hp|]. intros t [a|e|m]; simpl; eauto. done.
Qed.
Lemma total_bind {A B} (p : prog A) (f : A → prog B) :
  total p → (∀ a, total (f a)) → total (prog_bind p f).
Proof.
  intros Hp Hf. apply wp_bind. eapply wp_mono; [exact Hp|].
  intros t o [a ->]. eapply wp_mono; [apply Hf|]. by intros t' o'.
Qed.

Ltac total_step :=
  match goal with
  | |- ∀ _, _ => intro
  | |- total (ret _) => apply total_ret
  | |- total (attempt _) => apply total_attempt
  | |- total (prog_bind _ _) => apply total_bind
  | |- total (match ?x with _ => _ end) => destruct x
  | |- total (if ?x then _ else _) => destruct x
  end.
Ltac total_auto := repeat total_step; auto with kuadrant.
