(* ===== verification/Guarantee.v ===== *)
(** * What a program guarantees, given what it is told

    Programs whose calls all satisfy a condition provided that the objects in
    the answers do: the rule of each construct, for the invariants of systems in
    which several programs run at once. *)
From S2P Require Import Prelude GoStrings KubeTypes Client.

Open Scope go_scope.

Section guarantee.
Context (told : ∀ k : Kind, obj k → Prop) (sends : call → Prop).

(** What is returned for an object has its key. *)
Definition result_in (c : call) : result_of c → Prop :=
  match c with
  | Get k key => λ o, told k o ∧ ObjectKeyFromObject o = key
  | Create k o | Update k o | UpdateStatus k o => λ o',
      told k o' ∧ ObjectKeyFromObject o' = ObjectKeyFromObject o
  | ListGateways => Forall (told KGateway)
  | Delete _ _ => λ _, True
  end.

Definition answer_ok {A} (R : A → Prop) (a : answer A) : Prop :=
  match a with Success r => R r | Failure _ => True end.

(** As long as the objects of the answers satisfy [told], the calls of [p]
    satisfy [sends], and what it returns satisfies [R]. *)
Fixpoint keeps {A} (R : A → Prop) (p : prog A) : Prop :=
  match p with
  | Ret (Ok a) => R a
  | Ret _ => True
  | Do c k => sends c ∧ ∀ a, answer_ok (result_in c) a → keeps R (k a)
  end.

Lemma keeps_mono {A} (R R' : A → Prop) p : (∀ a, R a → R' a) → keeps R p → keeps R' p.
Proof.
  intros HR. induction p as [[a|e|m]|c k IH]; simpl; auto.
  intros [Hc Hk]. split; [done|]. intros a Ha. by apply IH, Hk.
Qed.

Lemma keeps_bind {A B} (R : A → Prop) (R' : B → Prop) (p : prog A) (f : A → prog B) :
  keeps R p → (∀ a, R a → keeps R' (f a)) → keeps R' (prog_bind p f).
Proof.
  intros Hp Hf. induction p as [[a|e|m]|c k IH]; simpl in *; auto.
  destruct Hp as [Hc Hk]. split; [done|]. intros a Ha. by apply IH, Hk.
Qed.

Lemma keeps_attempt {A} (R : A → Prop) (p : prog A) :
  keeps R p → keeps (answer_ok R) (attempt p).
Proof.
  induction p as [[a|e|m]|c k IH]; simpl; auto.
  intros [Hc Hk]. split; [done|]. intros a Ha. by apply IH, Hk.
Qed.

Lemma keeps_request c : sends c → keeps (result_in c) (request c).
Proof. intros Hc. split; [done|]. by intros [r|e]. Qed.

Lemma keeps_loop {S X} (R : S → Prop) (Q : X → Prop) (body : S → X → prog S) s l :
  R s → Forall Q l → (∀ s x, R s → Q x → keeps R (body s x)) → keeps R (loop body s l).
Proof.
  intros Hs Hl Hb. revert s Hs. induction Hl as [|x l Hx Hl IH]; intros s Hs; simpl; [done|].
  eapply keeps_bind; [by apply Hb|]. apply IH.
Qed.

(** Programs that send nothing but what is well typed anyway. *)
Lemma keeps_emits {A} (p : prog A) : emits sends p → keeps (λ _, True) p.
Proof.
  induction p as [[a|e|m]|c k IH]; simpl; auto.
  intros [Hc Hk]%emits_inv. split; [done|]. intros a _. by apply IH.
Qed.

Lemma keeps_ignore {A B} (R : B → Prop) (p : prog A) (f : A → prog B) :
  keeps (λ _, True) p → (∀ a, keeps R (f a)) → keeps R (prog_bind p f).
Proof. intros Hp Hf. eapply keeps_bind; [exact Hp|]. auto. Qed.

Lemma keeps_any {A} (R : A → Prop) (p : prog A) : keeps R p → keeps (λ _, True) p.
Proof. by apply keeps_mono. Qed.

End guarantee.

#[global] Arguments keeps_mono {told sends A} R R' p _ _.
#[global] Arguments keeps_bind {told sends A B} R R' p f _ _.
#[global] Arguments keeps_attempt {told sends A} R p _.
#[global] Arguments keeps_request {told sends} c _.
#[global] Arguments keeps_loop {told sends S X} R Q body s l _ _ _.
#[global] Arguments keeps_emits {told sends A} p _.
#[global] Arguments keeps_ignore {told sends A B} R p f _ _.
#[global] Arguments keeps_any {told sends A} R p _.

(** [keeps_auto]: goes through a program whose results are not used. *)
Ltac keeps_step :=
  match goal with
  | |- ∀ _, _ => intro
  | |- keeps _ _ _ (Ret (Err _)) => exact I
  | |- keeps _ _ _ (ret _) => done
  | |- keeps _ _ _ (fail _) => exact I
  | |- keeps _ _ _ (panic _) => exact I
  | |- keeps _ _ _ (prog_bind _ _) => apply keeps_ignore
  | |- keeps _ _ _ (attempt _) => eapply keeps_any, keeps_attempt
  | |- keeps _ _ _ (match ?x with _ => _ end) => destruct x
  | |- keeps _ _ _ (if ?x then _ else _) => destruct x
  | |- keeps _ _ _ (let '_ := ?x in _) => destruct x
  | |- keeps _ _ _ _ => solve [auto 2 with kuadrant]
  end.
Ltac keeps_auto := repeat keeps_step.
