(* ===== verification/BaseReconciler.v ===== *)
(** * The base reconciler (pkg/reconcilers/base_reconciler.go)

    Thin wrappers of the client's methods and [ReconcileResource], which brings
    one object to its desired state. *)
From S2P Require Import Prelude GoStrings KubeTypes CommonUtils Client.

Open Scope go_scope.

(** ** The code *)

(** The struct and its accessors: the clients, the scheme, the logger and the
    recorder are third-party values.  The base reconciler itself reconciles
    nothing. *)
Module Base.
Section accessors.
Context {client_Client runtime_Scheme client_Reader logr_Logger record_EventRecorder : Type}.

Record BaseReconciler := {
  client : client_Client;
  scheme : runtime_Scheme;
  apiClientReader : client_Reader;
  logger : logr_Logger;
  recorder : record_EventRecorder
}.

Definition NewBaseReconciler (client : client_Client) (scheme : runtime_Scheme)
    (apiClientReader : client_Reader) (logger : logr_Logger)
    (recorder : record_EventRecorder) : BaseReconciler :=
  {| client := client; scheme := scheme; apiClientReader := apiClientReader;
     logger := logger; recorder := recorder |}.

Definition Reconcile (_ : BaseReconciler) (_ : ObjectKey) : prog unit := ret tt.

Definition Client (b : BaseReconciler) : client_Client := client b.
Definition APIClientReader (b : BaseReconciler) : client_Reader := apiClientReader b.
Definition Scheme (b : BaseReconciler) : runtime_Scheme := scheme b.
Definition Logger (b : BaseReconciler) : logr_Logger := logger b.
Definition EventRecorder (b : BaseReconciler) : record_EventRecorder := recorder b.
End accessors.
End Base.

(** A mutator gets the existing and the desired object, whatever their types,
    and returns the existing one as modified and whether to update it. *)
Definition MutateFn : Type :=
  ∀ ke kd : Kind, obj ke → obj kd → outcome (obj ke * bool).

Definition CreateOnlyMutator : MutateFn := λ ke kd existing desired, Ok (existing, false).

Definition GetResource (k : Kind) (key : ObjectKey) : prog (obj k) := request (Get k key).
Definition CreateResource {k} (o : obj k) : prog (obj k) := request (Create k o).
Definition UpdateResource {k} (o : obj k) : prog (obj k) := request (Update k o).
Definition DeleteResource {k} (o : obj k) : prog unit := request (Delete k o).
Definition UpdateResourceStatus {k} (o : obj k) : prog (obj k) := request (UpdateStatus k o).

(** [ko] is the type of the argument [obj], read by key. *)
Definition ReconcileResource (ko : Kind) {kd} (desired : obj kd) (mutateFn : MutateFn) :
  prog unit :=
  let key := ObjectKeyFromObject desired in
  found <-- attempt (request (Get ko key)) ;;
  match found with
  | Failure err =>
      if negb (IsNotFound err) then fail err
      else if negb (IsObjectTaggedToDelete desired) then
        CreateResource desired ;;; ret tt
      else ret tt
  | Success o =>
      if IsObjectTaggedToDelete desired then DeleteResource desired
      else
        mutated <-- Ret (mutateFn ko kd o desired) ;;
        if (mutated.2 : bool) then UpdateResource mutated.1 ;;; ret tt
        else ret tt
  end.

(** ** Lemmas *)

Section emits_lemmas.
Context (P : call → Prop).

Lemma emits_GetResource k key : P (Get k key) → emits P (GetResource k key).
Proof. apply emits_request. Qed.
Lemma emits_CreateResource k (o : obj k) : P (Create k o) → emits P (CreateResource o).
Proof. apply emits_request. Qed.
Lemma emits_UpdateResource k (o : obj k) : P (Update k o) → emits P (UpdateResource o).
Proof. apply emits_request. Qed.
Lemma emits_DeleteResource k (o : obj k) : P (Delete k o) → emits P (DeleteResource o).
Proof. apply emits_request. Qed.
Lemma emits_UpdateResourceStatus k (o : obj k) :
  P (UpdateStatus k o) → emits P (UpdateResourceStatus o).
Proof. apply emits_request. Qed.

(** What [ReconcileResource] may call, by the tag of the desired object. *)
Lemma emits_ReconcileResource_tagged ko kd (desired : obj kd) mutateFn :
  P (Get ko (ObjectKeyFromObject desired)) →
  (IsObjectTaggedToDelete desired = false → P (Create kd desired)) →
  (IsObjectTaggedToDelete desired = true → P (Delete kd desired)) →
  (∀ o o', mutateFn ko kd o desired = Ok (o', true) → P (Update ko o')) →
  emits P (ReconcileResource ko desired mutateFn).
Proof.
  intros HG HC HD HU. unfold ReconcileResource.
  apply emits_bind; [by apply emits_attempt, emits_request|]. intros [o|err].
  - case_match; [by apply emits_DeleteResource, HD|].
    destruct (mutateFn ko kd o desired) as [[o' []]|e|m] eqn:Hm; try apply emits_ret.
    cbn [prog_bind fst snd]. apply emits_bind; [by eapply emits_UpdateResource, HU|].
    intros _. apply emits_ret.
  - case_match; [apply emits_ret|]. destruct (IsObjectTaggedToDelete desired); [apply emits_ret|].
    apply emits_bind; [by apply emits_CreateResource, HC|]. intros _. apply emits_ret.
Qed.

(** Reconciling a resource calls the server for the kinds it is given. *)
Lemma emits_ReconcileResource ko kd (desired : obj kd) mutateFn :
  P (Get ko (ObjectKeyFromObject desired)) → P (Create kd desired) →
  P (Delete kd desired) → (∀ o, P (Update ko o)) →
  emits P (ReconcileResource ko desired mutateFn).
Proof. intros HG HC HD HU. apply emits_ReconcileResource_tagged; auto. Qed.
End emits_lemmas.

#[export] Hint Resolve emits_GetResource emits_CreateResource emits_UpdateResource
  emits_DeleteResource emits_UpdateResourceStatus emits_ReconcileResource : kuadrant.

Lemma checks_CreateResource k (o : obj k) : checks (CreateResource o).
Proof. apply (checks_request (Create k o)). Qed.
Lemma checks_UpdateResource k (o : obj k) : checks (UpdateResource o).
Proof. apply (checks_request (Update k o)). Qed.
Lemma checks_DeleteResource k (o : obj k) : checks (DeleteResource o).
Proof. apply (checks_request (Delete k o)). Qed.
#[export] Hint Resolve checks_CreateResource checks_UpdateResource checks_DeleteResource : kuadrant.

Lemma checks_ReconcileResource ko kd (desired : obj kd) mutateFn :
  checks (ReconcileResource ko desired mutateFn).
Proof.
  unfold ReconcileResource. apply checks_bind.
  - by apply checks_attempt, emits_request.
  - checks_auto.
Qed.
#[export] Hint Resolve checks_ReconcileResource : kuadrant.

Lemma safe_CreateResource k (o : obj k) : safe (CreateResource o).
Proof. apply (safe_request (Create k o)). Qed.
Lemma safe_UpdateResource k (o : obj k) : safe (UpdateResource o).
Proof. apply (safe_request (Update k o)). Qed.
Lemma safe_DeleteResource k (o : obj k) : safe (DeleteResource o).
Proof. apply (safe_request (Delete k o)). Qed.
Lemma safe_UpdateResourceStatus k (o : obj k) : safe (UpdateResourceStatus o).
Proof. apply (safe_request (UpdateStatus k o)). Qed.
#[export] Hint Resolve safe_CreateResource safe_UpdateResource safe_DeleteResource
  safe_UpdateResourceStatus : kuadrant.

Lemma safe_ReconcileResource ko kd (desired : obj kd) mutateFn :
  (∀ o : obj ko, no_panic (mutateFn ko kd o desired)) →
  safe (ReconcileResource ko desired mutateFn).
Proof.
  intros Hm. unfold ReconcileResource. safe_auto. apply Hm.
Qed.

(** ** The contract of [ReconcileResource]

    The abstract specification: the object that is to exist under the key of
    [desired], from the one that exists; [inr] says it is left alone. *)
Inductive goal (k : Kind) :=
  | Absent
  | Present (o : obj k)
  | Unchanged
  | Refused (e : error)
  | Crashed (m : string).
Arguments Absent {k}.
Arguments Present {k} _.
Arguments Unchanged {k}.
Arguments Refused {k} _.
Arguments Crashed {k} _.

Definition reconcile_goal {k} (existing : option (obj k)) (desired : obj k)
    (mutateFn : MutateFn) : goal k :=
  match existing, IsObjectTaggedToDelete desired with
  | None, true => Unchanged
  | None, false => Present desired
  | Some _, true => Absent
  | Some o, false =>
      match mutateFn k k o desired with
      | Ok (o', true) => Present o'
      | Ok (_, false) => Unchanged
      | Err e => Refused e
      | Panic m => Crashed m
      end
  end.

(** A mutator that leaves the identity of the object alone. *)
Definition keeps_key (mutateFn : MutateFn) : Prop :=
  ∀ ke kd (e : obj ke) (d : obj kd) e' b,
    mutateFn ke kd e d = Ok (e', b) → ObjectKeyFromObject e' = ObjectKeyFromObject e.

(** Every object is stored under its own key. *)
Definition store_wf (s : store) : Prop :=
  ∀ k key (o : obj k), s k !! key = Some o → ObjectKeyFromObject o = key.

Lemma store_put_wf {k} (s : store) (o : obj k) : store_wf s → store_wf (store_put s o).
Proof.
  intros Hs k' key o'. destruct (decide (k = k')) as [<-|Hk].
  - rewrite store_put_same. intros [[<- <-]|[_ Hl]]%lookup_insert_Some; [done|].
    by apply (Hs k).
  - rewrite store_put_other by done. apply Hs.
Qed.

(** The result of a program that ends with a write. *)
Definition write_result {A} (r : answer A) : outcome unit :=
  match r with Success _ => Ok tt | Failure e => Err e end.

(** ** Properties *)

(** C20: against a server without other actors, [ReconcileResource] implements
    its contract: the object under the key of [desired] ends as the goal says,
    every other object and every other kind is untouched, and an error of the
    mutator is returned with nothing written. *)
Theorem ReconcileResource_refines_goal (k : Kind) (desired : obj k) (mutateFn : MutateFn)
    (s : store) (Hwf : store_wf s) (Hkey : keeps_key mutateFn) :
  let key := ObjectKeyFromObject desired in
  let '(s', t, o) := run memory_server (ReconcileResource k desired mutateFn) s in
  (match reconcile_goal (s k !! key) desired mutateFn with
   | Absent => o = Ok tt ∧ s' k !! key = None
   | Present x => o = Ok tt ∧ s' k !! key = Some x
   | Unchanged => o = Ok tt ∧ s' k !! key = s k !! key
   | Refused e => o = Err e ∧ s' k !! key = s k !! key
   | Crashed m => o = Panic m ∧ s' k !! key = s k !! key
   end) ∧
  (∀ key', key' ≠ key → s' k !! key' = s k !! key') ∧
  (∀ k', k' ≠ k → s' k' = s k') ∧ length t ≤ 2.
Proof.
  unfold reconcile_goal, ReconcileResource. simpl.
  destruct (s k !! ObjectKeyFromObject desired) as [e|] eqn:He; simpl.
  - destruct (IsObjectTaggedToDelete desired) eqn:Ht; simpl.
    + rewrite He. simpl. rewrite store_delete_same, lookup_delete_eq.
      split; [done|]. split; [|split; [|lia]].
      * intros key' Hne. by rewrite lookup_delete_ne.
      * intros k' Hk. by rewrite store_delete_other.
    + destruct (mutateFn k k e desired) as [[e' []]|err|m] eqn:Hm; simpl;
        [|by repeat split; auto with lia..].
      assert (ObjectKeyFromObject e' = ObjectKeyFromObject desired) as Hk'
        by (rewrite (Hkey _ _ _ _ _ _ Hm); by eapply Hwf).
      rewrite Hk', He. simpl. rewrite store_put_same, Hk', lookup_insert_eq.
      split; [done|]. split; [|split; [|lia]].
      * intros key' Hne. by rewrite lookup_insert_ne.
      * intros k' Hk. by rewrite store_put_other.
  - destruct (IsObjectTaggedToDelete desired) eqn:Ht; simpl; [by repeat split; auto with lia|].
    rewrite He. simpl. rewrite store_put_same, lookup_insert_eq.
    split; [done|]. split; [|split; [|lia]].
    + intros key' Hne. by rewrite lookup_insert_ne.
    + intros k' Hk. by rewrite store_put_other.
Qed.

Definition sample_desired : obj KWasmPlugin :=
  Build_object (new_meta "kuadrant-gw" "istio-system")
    {| wp_Selector := ∅; wp_Url := "oci://shim"; wp_PluginConfig := None;
       wp_Phase := "STATS" |} tt.

Lemma ReconcileResource_refines_goal_witness :
  (run memory_server (ReconcileResource KWasmPlugin sample_desired CreateOnlyMutator)
     empty_store).1.1 KWasmPlugin !! ObjectKeyFromObject sample_desired = Some sample_desired.
Proof.
  pose proof (ReconcileResource_refines_goal KWasmPlugin sample_desired CreateOnlyMutator
                empty_store) as H.
  assert (store_wf empty_store) as Hwf by (intros k key o Ho; discriminate).
  assert (keeps_key CreateOnlyMutator) as Hk by (intros ke kd e d e' b [= <- _]; reflexivity).
  specialize (H Hwf Hk). cbv zeta in H.
  destruct (run _ _ _) as [[s' t] o]. exact (proj2 (proj1 H)).
Defined.

(** Whatever the server answers, [ReconcileResource] reads the key once and
    then does one of five things: return an error of the read other than
    NotFound; leave an absent object that is to be deleted; create; delete;
    or do what the mutator decides, which is an update, nothing, or an error.
    The error of the one write is the result. *)
Theorem ReconcileResource_table (k : Kind) (desired : obj k) (mutateFn : MutateFn) :
  wp (ReconcileResource k desired mutateFn) (λ t o,
    ∃ a w, t = Event (Get k (ObjectKeyFromObject desired)) a :: w ∧
    match a, IsObjectTaggedToDelete desired with
    | Failure err, true => w = [] ∧ o = (if IsNotFound err then Ok tt else Err err)
    | Failure err, false =>
        if IsNotFound err
        then ∃ r, w = [Event (Create k desired) r] ∧ o = write_result r
        else w = [] ∧ o = Err err
    | Success x, true => ∃ r, w = [Event (Delete k desired) r] ∧ o = write_result r
    | Success x, false =>
        match mutateFn k k x desired with
        | Ok (y, true) => ∃ r, w = [Event (Update k y) r] ∧ o = write_result r
        | Ok (_, false) => w = [] ∧ o = Ok tt
        | Err e => w = [] ∧ o = Err e
        | Panic m => w = [] ∧ o = Panic m
        end
    end).
Proof.
  intros [o|err]; simpl.
  - destruct (IsObjectTaggedToDelete desired) eqn:Ht; simpl.
    + intros [[]|e]; eexists _, _; (split; [done|]); simpl; eauto.
    + destruct (mutateFn k k o desired) as [[o' []]|e|m] eqn:Hm; simpl;
        [intros [x|e]; simpl|..]; eexists _, _; (split; [done|]); simpl; rewrite Hm; eauto.
  - destruct (IsNotFound err) eqn:Hn; simpl; [|eexists _, _; split; [done|]; simpl].
    + destruct (IsObjectTaggedToDelete desired) eqn:Ht; simpl; [|intros [x|e]; simpl];
        eexists _, _; (split; [done|]); simpl; rewrite Hn; eauto.
    + rewrite Hn. by destruct (IsObjectTaggedToDelete desired).
Qed.
