(* ===== verification/ApiServer.v ===== *)
(** * The API server with resource versions

    What the controllers rely on when other clients write at the same time: an
    interface with the laws the API documents (every write makes a new version,
    an update of an outdated version is a conflict, finalizers delay a deletion,
    a read may be answered from a cache), and a server that satisfies them. *)
From S2P Require Import Prelude GoStrings KubeTypes Client Guarantee BaseReconciler.

Open Scope go_scope.

(** ** The interface *)

Definition version {k} (o : obj k) : Z := meta_ResourceVersion (ometa o).

(** Metadata as the server stores it: the version, the generation and the time
    of the deletion are not the client's to choose. *)
Definition meta_served (m : ObjectMeta) (v gen : Z) (del : option Z) : ObjectMeta :=
  {| meta_Name := meta_Name m; meta_Namespace := meta_Namespace m; meta_UID := meta_UID m;
     meta_ResourceVersion := v; meta_OwnerReferences := meta_OwnerReferences m;
     meta_Labels := meta_Labels m; meta_Annotations := meta_Annotations m;
     meta_Finalizers := meta_Finalizers m; meta_Generation := gen;
     meta_DeletionTimestamp := del |}.

(** [o'] is [o] as the server stores it. *)
Definition stored_as {k} (o : obj k) (del : option Z) (o' : obj k) : Prop :=
  ∃ v gen, o' = set_meta o (meta_served (ometa o) v gen del).

Definition deletion {k} (o : obj k) : option Z := meta_DeletionTimestamp (ometa o).
Definition finalizers {k} (o : obj k) : list string := meta_Finalizers (ometa o).

(** What a call may do to what is stored under a key: an update replaces the
    version it is based on and no other. *)
Inductive change : call → ∀ k, ObjectKey → option (obj k) → option (obj k) → Prop :=
  | change_create k (o o' : obj k) :
      stored_as o None o' → change (Create k o) k (ObjectKeyFromObject o) None (Some o')
  | change_update k (o old o' : obj k) :
      version old = version o → stored_as (set_status o (status old)) (deletion old) o' →
      change (Update k o) k (ObjectKeyFromObject o) (Some old) (Some o')
  | change_last_finalizer k (o old : obj k) :
      version old = version o → is_Some (deletion old) →
      finalizers old ≠ [] → finalizers o = [] →
      change (Update k o) k (ObjectKeyFromObject o) (Some old) None
  | change_status k (o old o' : obj k) :
      version old = version o → stored_as (set_status old (status o)) (deletion old) o' →
      change (UpdateStatus k o) k (ObjectKeyFromObject o) (Some old) (Some o')
  | change_mark k (o old o' : obj k) t :
      finalizers old ≠ [] → stored_as old (Some t) o' →
      change (Delete k o) k (ObjectKeyFromObject o) (Some old) (Some o')
  | change_delete k (o old : obj k) :
      finalizers old = [] →
      change (Delete k o) k (ObjectKeyFromObject o) (Some old) None.

(** [seen w k o]: [o] is or was stored, so a read may return it. *)
Class ApiServer := {
  world : Type;
  current : world → store;
  seen : world → ∀ k, obj k → Prop;
  serves : world → ∀ c, world → answer (result_of c) → Prop
}.

Class ApiServerOk {A : ApiServer} := {
  world_ok : world → Prop;
  serves_ok w c w' a : world_ok w → serves w c w' a → world_ok w';
  current_seen w k key (o : obj k) :
    world_ok w → current w k !! key = Some o → seen w k o ∧ ObjectKeyFromObject o = key;
  seen_version w k (o o' : obj k) :
    world_ok w → seen w k o → seen w k o' →
    ObjectKeyFromObject o = ObjectKeyFromObject o' → version o = version o' → o = o';
  serves_seen w c w' a k (o : obj k) :
    world_ok w → serves w c w' a → seen w k o → seen w' k o;
  serves_answer w c w' a :
    world_ok w → serves w c w' a → answer_ok (result_in (seen w') c) a;
  serves_change w c w' a k key :
    world_ok w → serves w c w' a →
    current w' k !! key = current w k !! key ∨
    change c k key (current w k !! key) (current w' k !! key)
}.

(** ** A server in memory *)

(** The objects, and every version of an object there has been. *)
Definition versions : Type := ∀ k : Kind, gmap Z (obj k).

Record versioned := {
  objects : store;
  log : versions;
  revision : Z
}.

Definition log_put {k} (l : versions) (o : obj k) : versions := λ k',
  match decide (k = k') with
  | left e => eq_rect k (λ k', gmap Z (obj k')) (<[version o := o]> (l k)) k' e
  | right _ => l k'
  end.

(** Stores an object as the next version. *)
Definition commit {k} (w : versioned) (o : obj k) (del : option Z) : versioned * obj k :=
  let v := (revision w + 1)%Z in
  let o' : obj k := set_meta o (meta_served (ometa o) v (meta_Generation (ometa o)) del) in
  ({| objects := store_put (objects w) o'; log := log_put (log w) o'; revision := v |}, o').

Definition remove (w : versioned) (k : Kind) (key : ObjectKey) : versioned :=
  {| objects := store_delete k key (objects w); log := log w; revision := revision w |}.

(** The call is carried out on what is stored under the key of [o]. *)
Definition on_stored {k} {R : Type} (w : versioned) (o : obj k)
    (f : obj k → versioned * answer R) : versioned * answer R :=
  match objects w k !! ObjectKeyFromObject o with
  | None => (w, Failure (api_error ReasonNotFound "not found" (ObjectKeyFromObject o)))
  | Some old => f old
  end.

(** Outdated versions are refused. *)
Definition on_version {k} {R : Type} (w : versioned) (o : obj k)
    (f : obj k → versioned * answer R) : versioned * answer R :=
  on_stored w o (λ old,
    if decide (version old = version o) then f old
    else (w, Failure (api_error ReasonConflict "the object has been modified"
                        (ObjectKeyFromObject o)))).

Definition succeed {k} (r : versioned * obj k) : versioned * answer (obj k) :=
  (r.1, Success r.2).

Definition versioned_server (w : versioned) (c : call) : versioned * answer (result_of c) :=
  match c with
  | Get k key =>
      (w, match objects w k !! key with
          | Some o => Success o
          | None => Failure (api_error ReasonNotFound "not found" key)
          end)
  | ListGateways => (w, Success (map_to_list (objects w KGateway)).*2)
  | Create k o =>
      match objects w k !! ObjectKeyFromObject o with
      | Some _ => (w, Failure (api_error ReasonAlreadyExists "already exists"
                                 (ObjectKeyFromObject o)))
      | None => succeed (commit w o None)
      end
  | Update k o =>
      on_version w o (λ old,
        let r := commit w (set_status o (status old) : obj k) (deletion old) in
        if decide (is_Some (deletion old) ∧ finalizers old ≠ [] ∧ finalizers o = [])
        then (remove r.1 k (ObjectKeyFromObject o), Success r.2)
        else succeed r)
  | UpdateStatus k o =>
      on_version w o (λ old,
        succeed (commit w (set_status old (status o) : obj k) (deletion old)))
  | Delete k o =>
      on_stored w o (λ old,
        if decide (finalizers old = []) then (remove w k (ObjectKeyFromObject o), Success tt)
        else ((commit w old (Some (revision w))).1, Success tt))
  end.

(** A read may be answered with what was stored at some time before. *)
Inductive versioned_serves (w : versioned) : ∀ c, versioned → answer (result_of c) → Prop :=
  | served_now c : versioned_serves w c (versioned_server w c).1 (versioned_server w c).2
  | served_cached k (o : obj k) :
      log w k !! version o = Some o →
      versioned_serves w (Get k (ObjectKeyFromObject o)) w (Success o)
  | served_cached_list (gs : list Gateway) :
      Forall (λ g : obj KGateway, log w KGateway !! version g = Some g) gs →
      versioned_serves w ListGateways w (Success gs).

#[export] Instance versioned_api : ApiServer := {|
  world := versioned;
  current := objects;
  seen w k o := log w k !! version o = Some o;
  serves := versioned_serves
|}.

(** ** It satisfies the laws *)

Definition versioned_ok (w : versioned) : Prop :=
  store_wf (objects w) ∧
  (∀ k key (o : obj k), objects w k !! key = Some o → log w k !! version o = Some o) ∧
  (∀ k v (o : obj k), log w k !! v = Some o → version o = v ∧ (v ≤ revision w)%Z).

Lemma log_put_same {k} (l : versions) (o : obj k) : log_put l o k = <[version o := o]> (l k).
Proof.
  unfold log_put. destruct (decide (k = k)) as [e|]; [|done].
  by rewrite (Eqdep_dec.UIP_dec Kind_eq_dec e eq_refl).
Qed.

Lemma log_put_other {k} (l : versions) (o : obj k) k' : k ≠ k' → log_put l o k' = l k'.
Proof. intros Hk. unfold log_put. by destruct (decide (k = k')). Qed.

Section commit.
Context {k : Kind} (w : versioned) (o : obj k) (del : option Z) (Hw : versioned_ok w).

Lemma commit_log_keeps k' v (x : obj k') :
  log w k' !! v = Some x → log (commit w o del).1 k' !! v = Some x.
Proof.
  intros Hx. pose proof Hw as (_ & _ & Hlog). pose proof (Hlog k' v x Hx) as [_ Hv]. cbn [log commit fst].
  destruct (decide (k = k')) as [<-|Hk]; [|by rewrite log_put_other].
  rewrite log_put_same, lookup_insert_ne; [done|]. cbn. lia.
Qed.

Lemma commit_logged :
  log (commit w o del).1 k !! version (commit w o del).2 = Some (commit w o del).2.
Proof. cbn [log commit fst snd]. by rewrite log_put_same, lookup_insert_eq. Qed.

Lemma commit_ok : versioned_ok (commit w o del).1.
Proof.
  pose proof Hw as (Hwf & Hcur & Hlog). split; [by apply store_put_wf|]. split.
  - intros k' key x Hx. cbn [objects commit fst] in Hx.
    destruct (decide (k = k')) as [<-|Hk].
    + rewrite store_put_same in Hx. apply lookup_insert_Some in Hx as [[_ <-]|[_ Hx]];
        [apply commit_logged|by eapply commit_log_keeps, Hcur].
    + rewrite store_put_other in Hx by done. by eapply commit_log_keeps, Hcur.
  - intros k' v x Hx. cbn [log revision commit fst] in *. revert Hx.
    destruct (decide (k = k')) as [<-|Hk].
    + rewrite log_put_same, lookup_insert_Some. cbn.
      intros [[<- <-]|[_ Hx]]; [cbn; lia|apply Hlog in Hx; lia].
    + rewrite log_put_other by done. intros Hx. apply Hlog in Hx. lia.
Qed.

Lemma commit_current k' key :
  objects (commit w o del).1 k' !! key = objects w k' !! key ∨
  ∃ e : k = k', key = ObjectKeyFromObject o ∧
    objects (commit w o del).1 k' !! key =
      Some (eq_rect k (λ k, obj k) (commit w o del).2 k' e).
Proof.
  cbn [objects commit fst snd]. destruct (decide (k = k')) as [<-|Hk].
  - rewrite store_put_same. destruct (decide (key = ObjectKeyFromObject o)) as [->|Hkey].
    + right. exists eq_refl. split; [done|]. by rewrite lookup_insert_eq.
    + left. rewrite lookup_insert_ne; [done|]. by intros <-.
  - left. by rewrite store_put_other.
Qed.

Lemma commit_stored_as : stored_as o del (commit w o del).2.
Proof. by eexists _, _. Qed.
End commit.

Lemma remove_ok w k key : versioned_ok w → versioned_ok (remove w k key).
Proof.
  intros (Hwf & Hcur & Hlog). split; [|split; [|done]]; intros k' key' o; cbn [objects remove];
    unfold store_delete; case_decide; try (rewrite lookup_delete_Some; intros [_ Hl]); eauto.
Qed.

Lemma remove_current w k key k' key' :
  objects (remove w k key) k' !! key' = objects w k' !! key' ∨
  k' = k ∧ key' = key ∧ objects (remove w k key) k' !! key' = None.
Proof.
  cbn [objects remove]. destruct (decide (k = k')) as [<-|Hk].
  - rewrite store_delete_same. destruct (decide (key' = key)) as [->|Hkey].
    + right. by rewrite lookup_delete_eq.
    + left. rewrite lookup_delete_ne; [done|]. by intros <-.
  - left. by rewrite store_delete_other.
Qed.

Lemma on_stored_cases {k} {R : Type} w (o : obj k) (f : obj k → versioned * answer R) :
  (∃ e, on_stored w o f = (w, Failure e)) ∨
  (∃ old, objects w k !! ObjectKeyFromObject o = Some old ∧ on_stored w o f = f old).
Proof. unfold on_stored. destruct (objects w k !! _) as [old|]; eauto. Qed.

Lemma on_version_cases {k} {R : Type} w (o : obj k) (f : obj k → versioned * answer R) :
  (∃ e, on_version w o f = (w, Failure e)) ∨
  (∃ old, objects w k !! ObjectKeyFromObject o = Some old ∧ version old = version o ∧
     on_version w o f = f old).
Proof.
  unfold on_version. destruct (on_stored_cases w o (λ old, if decide (version old = version o)
    then f old else (w, Failure (api_error ReasonConflict "the object has been modified"
      (ObjectKeyFromObject o))))) as [[e ->]|(old & Hold & ->)]; [eauto|].
  case_decide; eauto.
Qed.

(** What has to be shown of a call: the world stays well formed and keeps its
    past, the answer has been stored, and at most one object changes. *)
Definition served_well (w : versioned) (c : call) (r : versioned * answer (result_of c)) : Prop :=
  versioned_ok r.1 ∧
  (∀ k v (o : obj k), log w k !! v = Some o → log r.1 k !! v = Some o) ∧
  answer_ok (result_in (λ k (o : obj k), log r.1 k !! version o = Some o) c) r.2 ∧
  ∀ k key, objects r.1 k !! key = objects w k !! key ∨
           change c k key (objects w k !! key) (objects r.1 k !! key).

(** Storing a new version of [o] in place of what is there. *)
Lemma commit_served_well {k} w (o : obj k) del c key :
  versioned_ok w → ObjectKeyFromObject o = key →
  change c k key (objects w k !! key) (Some (commit w o del).2) →
  versioned_ok (commit w o del).1 ∧
  (∀ k' v (x : obj k'), log w k' !! v = Some x → log (commit w o del).1 k' !! v = Some x) ∧
  ∀ k' key', objects (commit w o del).1 k' !! key' = objects w k' !! key' ∨
    change c k' key' (objects w k' !! key') (objects (commit w o del).1 k' !! key').
Proof.
  intros Hw Hkey Hc. split; [by apply commit_ok|].
  split; [intros k' v x; by apply commit_log_keeps|].
  intros k' key'. destruct (commit_current w o del k' key') as [Heq|(<- & -> & Heq)]; [by left|].
  right. rewrite Heq, Hkey. exact Hc.
Qed.

Lemma unserved w c e : versioned_ok w → served_well w c (w, Failure e).
Proof. intros Hw. split; [done|]. split; [done|]. split; [done|]. by left. Qed.

(** An update, or the removal of an object whose last finalizer it drops. *)
Lemma update_well k w (o old : obj k) :
  versioned_ok w → objects w k !! ObjectKeyFromObject o = Some old → version old = version o →
  served_well w (Update k o)
    (let r := commit w (set_status o (status old) : obj k) (deletion old) in
     if decide (is_Some (deletion old) ∧ finalizers old ≠ [] ∧ finalizers o = [])
     then (remove r.1 k (ObjectKeyFromObject o), Success r.2)
     else succeed r).
Proof.
  intros Hw Hold Hv. cbn zeta.
  destruct (commit_served_well w (set_status o (status old) : obj k) (deletion old)
    (Update k o) (ObjectKeyFromObject o)) as (H1 & H2 & H3);
    [done|done|rewrite Hold; constructor; [done|apply commit_stored_as]|].
  case_decide as Hd.
  - split; [by apply remove_ok|]. split; [done|]. split; [by split; [apply commit_logged|]|].
    intros k' key'. cbn [fst].
    edestruct (remove_current (commit w (set_status o (status old) : obj k) (deletion old)).1 k
      (ObjectKeyFromObject o) k' key') as [-> | (-> & -> & ->)]; [apply H3|].
    destruct Hd as (Hdel & Hfin & Hnone). right. rewrite Hold. by apply change_last_finalizer.
  - split; [done|]. split; [done|]. split; [|done]. by split; [apply commit_logged|].
Qed.

Lemma versioned_server_well w c : versioned_ok w → served_well w c (versioned_server w c).
Proof.
  intros Hw. pose proof Hw as (Hwf & Hcur & Hlog).
  destruct c as [k key| |k o|k o|k o|k o]; cbn [versioned_server].
  - destruct (objects w k !! key) as [o|] eqn:Ho; [|by apply unserved].
    split; [done|]. split; [done|]. split; [|by left]. split; [by eapply Hcur|by eapply Hwf].
  - split; [done|]. split; [done|]. split; [|by left].
    apply Forall_fmap, Forall_forall. intros [key g] Hg%elem_of_map_to_list.
    by eapply (Hcur KGateway).
  - destruct (objects w k !! ObjectKeyFromObject o) eqn:Ho; [by apply unserved|].
    destruct (commit_served_well w o None (Create k o) (ObjectKeyFromObject o)) as (H1 & H2 & H3);
      [done..|rewrite Ho; constructor; apply commit_stored_as|].
    split; [done|]. split; [done|]. split; [|done]. by split; [apply commit_logged|].
  - match goal with |- context [on_version w o ?f] =>
      destruct (on_version_cases w o f) as [[e ->]|(old & Hold & Hv & ->)]; [by apply unserved|]
    end.
    by apply update_well.
  - match goal with |- context [on_version w o ?f] =>
      destruct (on_version_cases w o f) as [[e ->]|(old & Hold & Hv & ->)]; [by apply unserved|]
    end.
    assert (ObjectKeyFromObject old = ObjectKeyFromObject o) as Hkey by (by eapply Hwf).
    destruct (commit_served_well w (set_status old (status o) : obj k) (deletion old)
      (UpdateStatus k o) (ObjectKeyFromObject o)) as (H1 & H2 & H3);
      [done|done|rewrite Hold; constructor; [done|apply commit_stored_as]|].
    split; [done|]. split; [done|]. split; [|done]. by split; [apply commit_logged|].
  - match goal with |- context [on_stored w o ?f] =>
      destruct (on_stored_cases w o f) as [[e ->]|(old & Hold & ->)]; [by apply unserved|]
    end.
    assert (ObjectKeyFromObject old = ObjectKeyFromObject o) as Hkey by (by eapply Hwf).
    case_decide as Hd.
    + split; [by apply remove_ok|]. split; [done|]. split; [done|]. intros k' key'. cbn [fst].
      destruct (remove_current w k (ObjectKeyFromObject o) k' key') as [-> | (-> & -> & ->)];
        [by left|]. right. rewrite Hold. by apply change_delete.
    + destruct (commit_served_well w old (Some (revision w)) (Delete k o) (ObjectKeyFromObject o))
        as (H1 & H2 & H3); [done|done|rewrite Hold; eapply change_mark; [done|apply commit_stored_as]|].
      by split; [|split].
Qed.

#[export] Instance versioned_api_ok : ApiServerOk (A:=versioned_api).
Proof.
  assert (∀ w c w' a, versioned_ok w → versioned_serves w c w' a → served_well w c (w', a)) as Hall.
  { intros w c w' a Hw. destruct 1 as [c|k o Ho|gs Hgs].
    - pose proof (versioned_server_well w c Hw) as Hs. by destruct (versioned_server w c).
    - split; [done|]. split; [done|]. by split; [split|left].
    - split; [done|]. split; [done|]. by split; [|left]. }
  apply (Build_ApiServerOk versioned_api versioned_ok).
  - intros w c w' a Hw Hs. by apply (Hall w c w' a).
  - intros w k key o (Hwf & Hcur & _) Ho. split; [by eapply Hcur|by eapply Hwf].
  - intros w k o o' _ Ho Ho' _ Hv. cbn in *. congruence.
  - intros w c w' a k o Hw Hs Ho. by apply (Hall w c w' a).
  - intros w c w' a Hw Hs. by apply (Hall w c w' a).
  - intros w c w' a k key Hw Hs. by apply (Hall w c w' a).
Defined.
