(* ===== verification/Apimachinery.v ===== *)
(** * Helpers of the Kubernetes libraries

    Functions of k8s.io/apimachinery and controller-runtime the controllers
    call, as an interface with the laws their documentation states, and one
    implementation. *)
From S2P Require Import Prelude GoStrings KubeTypes.

(** ** The interface *)

Class Apimachinery := {
  (** [meta.IsStatusConditionFalse] and [meta.SetStatusCondition] *)
  IsStatusConditionFalse : list Condition → string → bool;
  SetStatusCondition : list Condition → Condition → list Condition;
  (** [controllerutil.ContainsFinalizer], [AddFinalizer], [RemoveFinalizer] *)
  ContainsFinalizer : ObjectMeta → string → bool;
  AddFinalizer : ObjectMeta → string → ObjectMeta;
  RemoveFinalizer : ObjectMeta → string → ObjectMeta;
  (** [NamespacedName.String] *)
  key_String : ObjectKey → string;
  (** The text of a target reference and of a group, version and kind in an
      error message *)
  fmt_targetRef : PolicyTargetReference → string;
  fmt_gvk : Kind → string
}.

(** A condition but for the time of its last transition. *)
Definition same_condition (c d : Condition) : Prop :=
  cond_Type c = cond_Type d ∧ cond_Status c = cond_Status d ∧
  cond_ObservedGeneration c = cond_ObservedGeneration d ∧
  cond_Reason c = cond_Reason d ∧ cond_Message c = cond_Message d.

Class ApimachineryOk {AM : Apimachinery} := {
  IsStatusConditionFalse_iff cs t :
    NoDup (cond_Type <$> cs) →
    IsStatusConditionFalse cs t = true ↔
    ∃ c, c ∈ cs ∧ cond_Type c = t ∧ cond_Status c = "False";
  SetStatusCondition_sets cs c :
    ∃ d, d ∈ SetStatusCondition cs c ∧ same_condition d c;
  SetStatusCondition_others cs c d :
    cond_Type d ≠ cond_Type c → d ∈ SetStatusCondition cs c ↔ d ∈ cs;
  SetStatusCondition_types cs c :
    NoDup (cond_Type <$> cs) → NoDup (cond_Type <$> SetStatusCondition cs c);
  SetStatusCondition_settled cs c d :
    NoDup (cond_Type <$> cs) → d ∈ cs → same_condition d c → SetStatusCondition cs c = cs;
  ContainsFinalizer_iff m f : ContainsFinalizer m f = true ↔ f ∈ meta_Finalizers m;
  AddFinalizer_eq m f :
    f ∉ meta_Finalizers m →
    AddFinalizer m f = meta_set_finalizers m (meta_Finalizers m ++ [f]);
  RemoveFinalizer_eq m f :
    RemoveFinalizer m f = meta_set_finalizers m (filter (λ x, x ≠ f) (meta_Finalizers m));
  key_String_eq k : key_String k = Namespace k +:+ String "/" (Name k)
}.

(** ** One implementation *)

Fixpoint find_condition (cs : list Condition) (t : string) : option Condition :=
  match cs with
  | [] => None
  | c :: cs => if decide (cond_Type c = t) then Some c else find_condition cs t
  end.

(** [now] is the clock; the time changes with the status only. *)
Fixpoint set_condition (now : Z) (cs : list Condition) (c : Condition) : list Condition :=
  match cs with
  | [] => [{| cond_Type := cond_Type c; cond_Status := cond_Status c;
              cond_ObservedGeneration := cond_ObservedGeneration c;
              cond_LastTransitionTime := now; cond_Reason := cond_Reason c;
              cond_Message := cond_Message c |}]
  | e :: cs =>
      if decide (cond_Type e = cond_Type c) then
        {| cond_Type := cond_Type c; cond_Status := cond_Status c;
           cond_ObservedGeneration := cond_ObservedGeneration c;
           cond_LastTransitionTime :=
             (if decide (cond_Status e = cond_Status c)
              then cond_LastTransitionTime e else now);
           cond_Reason := cond_Reason c; cond_Message := cond_Message c |} :: cs
      else e :: set_condition now cs c
  end.

#[export] Instance default_apimachinery : Apimachinery | 100 := {|
  IsStatusConditionFalse cs t :=
    match find_condition cs t with
    | Some c => bool_decide (cond_Status c = "False")
    | None => false
    end;
  SetStatusCondition := set_condition 0;
  ContainsFinalizer m f := bool_decide (f ∈ meta_Finalizers m);
  AddFinalizer m f :=
    if decide (f ∈ meta_Finalizers m) then m
    else meta_set_finalizers m (meta_Finalizers m ++ [f]);
  RemoveFinalizer m f :=
    meta_set_finalizers m (filter (λ x, x ≠ f) (meta_Finalizers m));
  key_String k := Namespace k +:+ String "/" (Name k);
  fmt_targetRef t := tr_Kind t +:+ " " +:+ tr_Name t;
  fmt_gvk _ := ", Kind="
|}.

Lemma find_condition_Some cs t c :
  NoDup (cond_Type <$> cs) → find_condition cs t = Some c ↔ c ∈ cs ∧ cond_Type c = t.
Proof.
  induction cs as [|d cs IH]; simpl; intros Hnd.
  - split; [done|]. by intros [?%not_elem_of_nil _].
  - apply NoDup_cons in Hnd as [Hd Hnd]. rewrite elem_of_cons. case_decide as Ht.
    + split; [naive_solver|]. intros [[->|Hc] Hct]; [done|]. destruct Hd.
      rewrite Ht, <- Hct. by apply list_elem_of_fmap_2.
    + rewrite IH by done. naive_solver.
Qed.

Lemma set_condition_types now cs c :
  cond_Type <$> set_condition now cs c =
  if decide (cond_Type c ∈ cond_Type <$> cs) then cond_Type <$> cs
  else (cond_Type <$> cs) ++ [cond_Type c].
Proof.
  induction cs as [|d cs IH].
  { case_decide as Hc; [by apply not_elem_of_nil in Hc|done]. }
  rewrite fmap_cons. cbn [set_condition].
  destruct (decide (cond_Type d = cond_Type c)) as [Ht|Ht]; rewrite fmap_cons.
  - destruct (decide (cond_Type c ∈ cond_Type d :: _)) as [_|Hc]; [by rewrite Ht|].
    destruct Hc. rewrite <- Ht. by left.
  - rewrite IH. destruct (decide (cond_Type c ∈ cond_Type <$> cs)) as [Hin|Hin].
    + by rewrite decide_True by (by right).
    + rewrite decide_False; [done|]. rewrite not_elem_of_cons. auto.
Qed.

#[export] Instance default_apimachinery_ok : @ApimachineryOk default_apimachinery.
Proof.
  split; simpl.
  - intros cs t Hnd. destruct (find_condition cs t) as [c|] eqn:E.
    + pose proof (proj1 (find_condition_Some cs t c Hnd) E) as [Hin Ht].
      rewrite bool_decide_eq_true. split; [naive_solver|].
      intros (d & Hd & Hdt & Hs).
      assert (find_condition cs t = Some d) by (by apply find_condition_Some).
      congruence.
    + split; [done|]. intros (d & Hd & Hdt & _).
      assert (find_condition cs t = Some d) by (by apply find_condition_Some). congruence.
  - intros cs c. induction cs as [|d cs (x & Hx & Hs)]; simpl.
    + eexists. split; [left|done].
    + case_decide; [eexists; split; [left|done]|]. exists x. split; [by right|done].
  - intros cs c d Hd. induction cs as [|e cs IH]; simpl.
    + rewrite list_elem_of_singleton. split; [by intros ->|by intros ?%not_elem_of_nil].
    + case_decide as Ht; rewrite !elem_of_cons; [|naive_solver].
      split; (intros [->|?]; [done|auto]).
  - intros cs c Hnd. rewrite set_condition_types. case_decide; [done|].
    apply NoDup_app. split; [done|]. split; [|apply NoDup_singleton]. set_solver.
  - intros cs c d Hnd. induction cs as [|e cs IH]; simpl; [by intros ?%not_elem_of_nil|].
    apply NoDup_cons in Hnd as [He Hnd]. intros Hin (Ht & Hs & Hg & Hr & Hm).
    apply elem_of_cons in Hin as [->|Hin].
    + rewrite decide_True by done. rewrite decide_True by done.
      destruct e; simpl in *; subst; done.
    + rewrite decide_False; [by rewrite IH|].
      intros Heq. apply He. rewrite Heq, <- Ht. by apply list_elem_of_fmap_2.
  - intros m f. apply bool_decide_eq_true.
  - intros m f Hf. by rewrite decide_False.
  - done.
  - done.
Qed.
