(* ===== verification/Logging.v ===== *)
(** * Logging (pkg/log/log.go)

    The level and mode of the log, read from text, and the options a logger is
    made with.  The logger itself is zap, a parameter. *)
From S2P Require Import Prelude GoStrings.

Open Scope go_scope.

(** ** The code *)

(** [Level] is zap's, [Mode] is this package's; both are small integers. *)
Definition DebugLevel : Z := -1.
Definition InfoLevel : Z := 0.
Definition WarnLevel : Z := 1.
Definition ErrorLevel : Z := 2.
Definition DPanicLevel : Z := 3.
Definition PanicLevel : Z := 4.
Definition FatalLevel : Z := 5.
Definition ModeProd : Z := 0.
Definition ModeDev : Z := 1.

(** [zapcore.Level.UnmarshalText] *)
Class ZapLevels := UnmarshalText : string → outcome Z.

Definition ToLevel `{ZapLevels} (level : string) : outcome Z :=
  match UnmarshalText level with
  | Ok l => Ok l
  | Err err => Panic (error_string err)
  | Panic m => Panic m
  end.

Definition ToMode (mode : string) : outcome Z :=
  if decide (ToLower mode = "production") then Ok ModeProd
  else if decide (ToLower mode = "development") then Ok ModeDev
  else Panic ("unknown log mode: " +:+ mode).

Section logger.
(** [io.Writer], [logr.Logger] and the constructor of zap loggers *)
Context {Writer Logger : Type} (os_Stderr : Writer) (zap_New : Z → bool → Writer → Logger).

Record Options := { LogLevel : Z; LogMode : Z; DestWriter : option Writer }.
Definition Opts : Type := Options → Options.

Definition WriteTo (out : Writer) : Opts := λ o,
  {| LogLevel := LogLevel o; LogMode := LogMode o; DestWriter := Some out |}.
Definition SetLevel (level : Z) : Opts := λ o,
  {| LogLevel := level; LogMode := LogMode o; DestWriter := DestWriter o |}.
Definition SetMode (mode : Z) : Opts := λ o,
  {| LogLevel := LogLevel o; LogMode := mode; DestWriter := DestWriter o |}.

Definition NewLogger (opts : list Opts) : Logger :=
  let o := foldl (λ o opt, opt o) {| LogLevel := 0; LogMode := 0; DestWriter := None |} opts in
  let w := match DestWriter o with None => os_Stderr | Some w => w end in
  zap_New (LogLevel o) (bool_decide (LogMode o = ModeDev)) w.

(** The three places a logger is installed: this package's [Log], controller
    runtime and klog. *)
Record Loggers := { Log : Logger; ctrl_Log : Logger; klog_Log : Logger }.
Definition SetLogger (logger : Logger) (_ : Loggers) : Loggers :=
  {| Log := logger; ctrl_Log := logger; klog_Log := logger |}.

(** ** Lemmas *)

(** Settings as data, and the last one of a kind. *)
Inductive setting := ALevel (l : Z) | AMode (m : Z) | AWriter (w : Writer).
Definition option_of (s : setting) : Opts :=
  match s with ALevel l => SetLevel l | AMode m => SetMode m | AWriter w => WriteTo w end.
Definition level_of (s : setting) : option Z := match s with ALevel l => Some l | _ => None end.
Definition mode_of (s : setting) : option Z := match s with AMode m => Some m | _ => None end.
Definition writer_of (s : setting) : option Writer :=
  match s with AWriter w => Some w | _ => None end.

Definition last_of {A} (f : setting → option A) (l : list setting) : option A :=
  last (omap f l).

Lemma last_of_snoc {A} (f : setting → option A) l s :
  last_of f (l ++ [s]) = match f s with Some a => Some a | None => last_of f l end.
Proof.
  unfold last_of. rewrite omap_app. simpl. destruct (f s); [apply last_snoc|by rewrite app_nil_r].
Qed.

Lemma options_last l :
  foldl (λ o opt, opt o) {| LogLevel := 0; LogMode := 0; DestWriter := None |} (option_of <$> l) =
  {| LogLevel := default InfoLevel (last_of level_of l);
     LogMode := default ModeProd (last_of mode_of l); DestWriter := last_of writer_of l |}.
Proof.
  induction l as [|s l IH] using rev_ind; [done|].
  rewrite fmap_app, foldl_app, IH, !last_of_snoc. by destruct s.
Qed.
End logger.

(** ** Properties *)

(** The options of a logger.  Whatever their order and number, the last
    setting of each kind counts; without one the level is info, the mode is
    production and the output is the standard error. *)
Theorem NewLogger_last_option_wins {Writer Logger : Type} (os_Stderr : Writer)
    (zap_New : Z → bool → Writer → Logger) (l : list setting) :
  NewLogger os_Stderr zap_New (option_of <$> l) =
  zap_New (default InfoLevel (last_of level_of l))
    (bool_decide (default ModeProd (last_of mode_of l) = ModeDev))
    (default os_Stderr (last_of writer_of l)).
Proof.
  unfold NewLogger. rewrite options_last. simpl. by destruct (last_of writer_of l).
Qed.

Example ToMode_mixed_case : ToMode "ProDuction" = Ok ModeProd. Proof. reflexivity. Qed.
Example ToMode_invalid : ToMode "invalid" = Panic "unknown log mode: invalid".
Proof. reflexivity. Qed.
