(* ===== verification/KubeUtils.v ===== *)
(** * Owners and service ports
      (pkg/common/k8s_utils.go, pkg/reconcilers/base_reconciler.go)

    Owner references of objects, and the port number behind the name of a
    service port.  Library code: the reconcilers do not call it. *)
From S2P Require Import Prelude GoStrings GoNumbers KubeTypes Client BaseReconciler Apimachinery.

Open Scope go_scope.

(** ** The code *)

Record GroupVersionKind := { gvk_Group : string; gvk_Version : string; gvk_Kind : string }.

(** Third-party code on types: [obj.GetObjectKind().GroupVersionKind()],
    [schema.ParseGroupVersion] (group and version), and the owner references
    [controllerutil.SetControllerReference] leaves in its second argument. *)
Class TypeMeta := {
  GetGroupVersionKind : ∀ {k}, obj k → GroupVersionKind;
  ParseGroupVersion : string → outcome (string * string);
  SetControllerReference : ∀ {ko k}, obj ko → obj k → outcome (list OwnerReference)
}.

(** [intstr.IntOrString.IntValue] *)
Class PortValue := IntValue : IntOrString → Z.

Definition GetName {k} (o : obj k) : string := meta_Name (ometa o).
Definition GetOwnerReferences {k} (o : obj k) : list OwnerReference :=
  meta_OwnerReferences (ometa o).

Section code.
Context `{TypeMeta}.

Definition ObjectInfo {k} (o : obj k) : string :=
  gvk_Kind (GetGroupVersionKind o) +:+ "/" +:+ GetName o.

(** The loop leaves at a reference it cannot parse. *)
Fixpoint owner_among {ko} (owner : obj ko) (refs : list OwnerReference) : bool :=
  match refs with
  | [] => false
  | o :: refs =>
      match ParseGroupVersion (or_APIVersion o) with
      | Ok (oGroup, _) =>
          if bool_decide (oGroup = gvk_Group (GetGroupVersionKind owner)) &&
             bool_decide (or_Kind o = gvk_Kind (GetGroupVersionKind owner)) &&
             bool_decide (GetName owner = or_Name o)
          then true else owner_among owner refs
      | _ => false
      end
  end.

Definition IsOwnedBy {k ko} (owned : obj k) (owner : obj ko) : bool :=
  owner_among owner (GetOwnerReferences owned).

(** The owned object as it is afterwards. *)
Definition SetOwnerReference {ko k} (owner : obj ko) (o : obj k) : outcome (obj k) :=
  refs <-? SetControllerReference owner o ;;
  Ok (set_meta o (meta_set_owners (ometa o) refs)).

Definition EnsureOwnerReference {ko k} (owner : obj ko) (o : obj k) : outcome (obj k * bool) :=
  let originalSize := length (GetOwnerReferences o) in
  o' <-? SetOwnerReference owner o ;;
  let newSize := length (GetOwnerReferences o') in
  Ok (o', negb (originalSize =? newSize)%nat).
End code.

(** The first port with the name. *)
Fixpoint find_port (ports : list ServicePort) (name : string) : option ServicePort :=
  match ports with
  | [] => None
  | p :: ports => if decide (sp_Name p = name) then Some p else find_port ports name
  end.

Definition GetServicePortNumber `{Apimachinery, PortValue} (svcKey : ObjectKey)
    (svcPort : string) : prog Z :=
  match ParseInt 32 svcPort with
  | Some num => ret (wrap_int 32 num)
  | None =>
      svc <-- request (Get KService svcKey) ;;
      match find_port (Ports (spec svc)) svcPort with
      | Some p => ret (wrap_int 32 (IntValue (sp_TargetPort p)))
      | None => fail (ErrText ("service port " +:+ svcPort +:+ " was not found in " +:+
                               key_String svcKey))
      end
  end.

(** ** What the third-party code is relied on for *)

(** A reference to the owner, by group, kind and name. *)
Definition refers_to `{TypeMeta} {ko} (owner : obj ko) (r : OwnerReference) : Prop :=
  (∃ v, ParseGroupVersion (or_APIVersion r) = Ok (gvk_Group (GetGroupVersionKind owner), v)) ∧
  or_Kind r = gvk_Kind (GetGroupVersionKind owner) ∧ or_Name r = GetName owner.

(** [SetControllerReference] fails, or puts a reference to the owner in the
    place of an older one, or after the others when there is none. *)
Class TypeMetaOk {TM : TypeMeta} := {
  SetControllerReference_ok ko k (owner : obj ko) (o : obj k) refs :
    SetControllerReference owner o = Ok refs →
    ∃ r, refers_to owner r ∧
      ((Forall (λ x, ¬ refers_to owner x) (GetOwnerReferences o) ∧
        refs = GetOwnerReferences o ++ [r]) ∨
       ∃ l x l', GetOwnerReferences o = l ++ x :: l' ∧ refers_to owner x ∧ refs = l ++ r :: l')
}.

(** An int is itself, a text is converted by [strconv.Atoi]. *)
Class PortValueOk {PV : PortValue} := {
  IntValue_int n : IntValue (IntVal n) = n;
  IntValue_text s : IntValue (StrVal s) = Atoi s
}.

#[export] Instance port_value : PortValue | 100 := λ v,
  match v with IntVal n => n | StrVal s => Atoi s end.
#[export] Instance port_value_ok : @PortValueOk port_value.
Proof. by split. Qed.

(** ** Lemmas *)

Lemma find_port_Some ports name p :
  find_port ports name = Some p ↔
  ∃ l l', ports = l ++ p :: l' ∧ sp_Name p = name ∧ Forall (λ q, sp_Name q ≠ name) l.
Proof.
  induction ports as [|q ports IH]; simpl.
  { split; [done|]. by intros ([] & ? & ? & _). }
  case_decide as Hq.
  - split.
    + intros [= <-]. exists [], ports. by repeat split.
    + intros ([|q' l] & l' & [= -> ->] & Hp & HF); [done|].
      by apply Forall_cons in HF as [? _].
  - rewrite IH. split.
    + intros (l & l' & -> & Hp & HF). exists (q :: l), l'. repeat split; [done|]. by constructor.
    + intros ([|q' l] & l' & [= <- ->] & Hp & HF); [done|].
      apply Forall_cons in HF as [_ HF]. eauto.
Qed.

Lemma find_port_None ports name :
  find_port ports name = None ↔ Forall (λ q, sp_Name q ≠ name) ports.
Proof.
  induction ports as [|q ports IH]; simpl; [by split|].
  case_decide as Hq; rewrite Forall_cons; [naive_solver|]. rewrite IH. naive_solver.
Qed.

(** ** Properties *)

(** C39: port numbers.  A text that is a number of 32 bits is that number and no
    call is made; otherwise the service is read once, and the number is that of
    its first port with this name, its low 32 bits, 0 for a target port that is
    itself a name.  What is returned always fits 32 bits; the errors are those
    of the read, and of a name that no port has. *)
Theorem GetServicePortNumber_bounds (AM : Apimachinery) (PV : PortValue) (PVok : PortValueOk)
    (key : ObjectKey) (svcPort : string) :
  wp (GetServicePortNumber key svcPort) (λ t o,
    (∀ n, o = Ok n → in_range 32 n) ∧
    match ParseInt 32 svcPort with
    | Some n => t = [] ∧ o = Ok n
    | None => ∃ a, t = [Event (Get KService key) a] ∧
        match a with
        | Failure e => o = Err e
        | Success svc =>
            match o with
            | Ok n => ∃ l p l', Ports (spec svc) = l ++ p :: l' ∧ sp_Name p = svcPort ∧
                Forall (λ q, sp_Name q ≠ svcPort) l ∧
                (n mod 2 ^ 32 = (match sp_TargetPort p with
                                 | IntVal m => m
                                 | StrVal s => Atoi s
                                 end) mod 2 ^ 32)%Z
            | Err e => Forall (λ q, sp_Name q ≠ svcPort) (Ports (spec svc)) ∧
                error_reason e = None
            | Panic _ => False
            end
        end
    end).
Proof.
  unfold GetServicePortNumber. destruct (ParseInt 32 svcPort) as [n|] eqn:Hn.
  { apply ParseInt_in_range in Hn; [|done]. rewrite wrap_int_id by done.
    split; [|done]. by intros m [= <-]. }
  apply wp_bind, (wp_request (Get KService key)). split; [intros svc|intros e]; cbn [after].
  2: { split; [done|]. by eexists. }
  destruct (find_port (Ports (spec svc)) svcPort) as [p|] eqn:Hp; cbn [wp ret fail].
  - split; [intros n [= <-]; by apply wrap_int_in_range|].
    eexists. split; [done|]. apply find_port_Some in Hp as (l & l' & Hl & Hname & HF).
    exists l, p, l'. repeat split; try done. rewrite wrap_int_congr by done. f_equal.
    destruct (sp_TargetPort p); [by rewrite IntValue_int|by rewrite IntValue_text].
  - split; [done|]. eexists. split; [done|]. split; [by apply find_port_None|done].
Qed.

Definition sample_service : Service :=
  Build_object (new_meta "svc" "ns")
    {| Ports := [{| sp_Name := "http"; sp_TargetPort := IntVal 8080 |};
                 {| sp_Name := "web"; sp_TargetPort := StrVal "http" |}] |} tt.

Lemma GetServicePortNumber_bounds_witness :
  let s := store_put empty_store (k:=KService) sample_service in
  let key := ObjectKeyFromObject sample_service in
  (run memory_server (GetServicePortNumber key "http") s).2 = Ok 8080%Z ∧
  in_range 32 8080.
Proof.
  intros s key. assert ((run memory_server (GetServicePortNumber key "http") s).2 = Ok 8080%Z)
    as Hok by (vm_compute; reflexivity).
  split; [exact Hok|].
  exact (proj1 (wp_run memory_server _ _ s (GetServicePortNumber_bounds default_apimachinery
    port_value port_value_ok key "http")) _ Hok).
Defined.

(** The port [web] names another port of the pods: its number is not looked
    for, and 0 is returned without an error. *)
Example named_target_port_is_zero :
  (run memory_server (GetServicePortNumber (ObjectKeyFromObject sample_service) "web")
     (store_put empty_store (k:=KService) sample_service)).2 = Ok 0%Z.
Proof. vm_compute. reflexivity. Qed.

(** Ownership.  An object is reported as owned exactly when a reference
    agrees with the owner in group, kind and name and no reference before it
    has an API version that cannot be parsed. *)
Theorem IsOwnedBy_correct (TM : TypeMeta) {k ko} (owned : obj k) (owner : obj ko) :
  IsOwnedBy owned owner = true ↔
  ∃ l r l', GetOwnerReferences owned = l ++ r :: l' ∧ refers_to owner r ∧
            Forall (λ x, is_ok (ParseGroupVersion (or_APIVersion x))) l.
Proof.
  unfold IsOwnedBy. induction (GetOwnerReferences owned) as [|r refs IH]; cbn [owner_among].
  { split; [done|]. by intros ([] & ? & ? & ? & _). }
  destruct (ParseGroupVersion (or_APIVersion r)) as [[g v]|e|m] eqn:Hp.
  2, 3: split; [done|]; intros ([|x l] & y & l' & [= -> ->] & Hr & HF);
    [destruct Hr as ([v Hv] & _); congruence
    |apply Forall_cons in HF as [HF _]; by rewrite Hp in HF].
  destruct (bool_decide _ && _ && _) eqn:Hm.
  - split; [|done]. intros _. exists [], r, refs. split; [done|]. split; [|constructor].
    apply andb_true_iff in Hm as [[Hg%bool_decide_eq_true Hk%bool_decide_eq_true]%andb_true_iff
      Hn%bool_decide_eq_true].
    split; [exists v; by rewrite Hp, Hg|done].
  - rewrite IH. split.
    + intros (l & x & l' & -> & Hx & HF). exists (r :: l), x, l'. split; [done|].
      split; [done|]. constructor; [by rewrite Hp|done].
    + intros ([|y l] & x & l' & [= <- ->] & Hx & HF).
      * destruct Hx as ([v' Hv] & Hk & Hn). rewrite Hp in Hv. injection Hv as -> ->.
        rewrite Hk, Hn, !bool_decide_true in Hm by done. done.
      * apply Forall_cons in HF as [_ HF]. by exists l, x, l'.
Qed.

(** Setting an owner.  On success the object refers to the owner and is
    otherwise unchanged; the answer is true exactly when there was no reference
    to the owner before, so a reference that was replaced is not reported. *)
Theorem EnsureOwnerReference_correct (TM : TypeMeta) (TMok : TypeMetaOk) {ko k}
    (owner : obj ko) (o o' : obj k) (changed : bool)
    (Hok : EnsureOwnerReference owner o = Ok (o', changed)) :
  Exists (refers_to owner) (GetOwnerReferences o') ∧
  (changed = true ↔ Forall (λ r, ¬ refers_to owner r) (GetOwnerReferences o)) ∧
  (changed = true → length (GetOwnerReferences o') = S (length (GetOwnerReferences o))) ∧
  spec o' = spec o ∧ status o' = status o ∧
  meta_set_owners (ometa o') [] = meta_set_owners (ometa o) [].
Proof.
  unfold EnsureOwnerReference, SetOwnerReference in Hok.
  destruct (SetControllerReference owner o) as [refs|e|m] eqn:Hs; [|done..].
  cbn [outcome_bind] in Hok. injection Hok as <- <-.
  assert (GetOwnerReferences (set_meta o (meta_set_owners (ometa o) refs)) = refs) as Hrefs
    by done.
  rewrite !Hrefs, negb_true_iff, Nat.eqb_neq.
  destruct (SetControllerReference_ok ko k owner o refs Hs)
    as (r & Hr & [(HF & ->)|(l & x & l' & Hl & Hx & ->)]).
  - rewrite length_app. simpl. split; [apply Exists_app; right; by left|].
    split; [by split; [|lia]|]. split; [lia|done].
  - rewrite Hl, !length_app. simpl. split; [apply Exists_app; right; by left|].
    split; [|done]. split; [done|]. intros HF. exfalso.
    apply Forall_app in HF as [_ HF]. by apply Forall_cons in HF as [? _].
Qed.

(** One reading of API versions, in which the kind of an object names its
    group, and one way to set a controller. *)
Definition sample_group (k : Kind) : GroupVersionKind :=
  match k with
  | KRateLimitPolicy => {| gvk_Group := "apim.kuadrant.io"; gvk_Version := "v1alpha1";
                           gvk_Kind := "RateLimitPolicy" |}
  | _ => {| gvk_Group := empty_string; gvk_Version := "v1"; gvk_Kind := "Object" |}
  end.

Definition parse_group_version (s : string) : outcome (string * string) :=
  match Split s "/" with
  | [v] => Ok (empty_string, v)
  | [g; v] => Ok (g, v)
  | _ => Err (ErrText ("unexpected GroupVersion string: " +:+ s))
  end.

Definition same_owner (g : string) (r x : OwnerReference) : bool :=
  match parse_group_version (or_APIVersion x) with
  | Ok (g', _) => bool_decide (g' = g) && bool_decide (or_Kind x = or_Kind r) &&
                  bool_decide (or_Name x = or_Name r)
  | _ => false
  end.

Fixpoint upsert (g : string) (r : OwnerReference) (l : list OwnerReference) :
  list OwnerReference :=
  match l with
  | [] => [r]
  | x :: l => if same_owner g r x then r :: l else x :: upsert g r l
  end.

Definition sample_type_meta : TypeMeta := {|
  GetGroupVersionKind k _ := sample_group k;
  ParseGroupVersion := parse_group_version;
  SetControllerReference ko k owner o :=
    let g := sample_group ko in
    Ok (upsert (gvk_Group g)
      {| or_APIVersion := gvk_Group g +:+ "/" +:+ gvk_Version g; or_Kind := gvk_Kind g;
         or_Name := GetName owner; or_UID := meta_UID (ometa owner);
         or_Controller := Some true; or_BlockOwnerDeletion := Some true |}
      (GetOwnerReferences o))
|}.

Lemma sample_type_meta_ok : @TypeMetaOk sample_type_meta.
Proof.
  split. intros ko k owner o refs [= <-].
  set (r := Build_OwnerReference _ _ _ _ _ _). exists r.
  assert (@refers_to sample_type_meta ko owner r) as Hr
    by (split; [by destruct ko; eexists|done]).
  split; [exact Hr|].
  assert (∀ x, same_owner (gvk_Group (sample_group ko)) r x = true ↔
               @refers_to sample_type_meta ko owner x) as Hsame.
  { intros x. unfold same_owner, refers_to. cbn.
    destruct (parse_group_version (or_APIVersion x)) as [[g v]|e|m].
    - rewrite !andb_true_iff, !bool_decide_eq_true. split.
      + intros [[-> ?] ?]. by repeat split; [eexists|..].
      + intros ([v' [= -> _]] & ? & ?). done.
    - split; [done|]. by intros ([v' ?] & _).
    - split; [done|]. by intros ([v' ?] & _). }
  induction (GetOwnerReferences o) as [|x l IH]; cbn [upsert].
  { left. split; [constructor|done]. }
  destruct (same_owner (gvk_Group (sample_group ko)) r x) eqn:Hx.
  - right. exists [], x, l. split; [done|]. split; [by apply Hsame|done].
  - destruct IH as [[HF ->]|(l1 & y & l2 & -> & Hy & ->)].
    + left. split; [|done]. constructor; [|done]. rewrite <- Hsame. congruence.
    + right. by exists (x :: l1), y, l2.
Qed.

(** The sample service, owned by a policy that was made anew since. *)
Definition sample_owner (uid : string) : RateLimitPolicy :=
  Build_object
    {| meta_Name := "rlp"; meta_Namespace := "ns"; meta_UID := uid;
       meta_ResourceVersion := 0; meta_OwnerReferences := [];
       meta_Labels := ∅; meta_Annotations := None; meta_Finalizers := []; meta_Generation := 1;
       meta_DeletionTimestamp := None |}
    {| rlp_TargetRef := {| tr_Group := empty_string; tr_Kind := empty_string;
                           tr_Name := empty_string; tr_Namespace := None |};
       RateLimits := None |}
    {| rlp_ObservedGeneration := 0; rlp_Conditions := []; GatewaysRateLimits := None |}.
Definition owned_service : outcome (obj KService * bool) :=
  @EnsureOwnerReference sample_type_meta KRateLimitPolicy KService (sample_owner "old")
    sample_service.

Lemma EnsureOwnerReference_correct_witness :
  ∃ o', owned_service = Ok (o', true) ∧
    length (GetOwnerReferences (o' : obj KService)) = 1%nat ∧
    Exists (@refers_to sample_type_meta KRateLimitPolicy (sample_owner "old"))
      (GetOwnerReferences o').
Proof.
  eexists. split; [reflexivity|]. split; [reflexivity|].
  exact (proj1 (EnsureOwnerReference_correct sample_type_meta sample_type_meta_ok
    (ko:=KRateLimitPolicy) (k:=KService) (sample_owner "old") sample_service _ true eq_refl)).
Defined.

(** A reference to the old owner is replaced, and the change is not reported. *)
Example replaced_owner_not_reported :
  ∃ o1 o2, owned_service = Ok (o1, true) ∧
    @EnsureOwnerReference sample_type_meta KRateLimitPolicy KService (sample_owner "new") o1 =
      Ok (o2, false) ∧ o1 ≠ o2.
Proof. do 2 eexists. split; [reflexivity|]. split; [reflexivity|]. done. Qed.
