(* ===== verification/TargetRef.v ===== *)
(** * Targets of policies (pkg/reconcilers/targetref_reconciler.go)

    Fetching the Gateway or HTTPRoute a policy targets, the gateways behind it,
    and the back reference that reserves a target for one policy. *)
From S2P Require Import Prelude GoStrings KubeTypes CommonUtils RouteRules PolicyTypes.
From S2P Require Import GatewayRefs Client Apimachinery BaseReconciler.

Open Scope go_scope.

(** ** The code *)

(** [client.Object], an object of any kind *)
Inductive client_Object := AnObject (k : Kind) (o : obj k).

Section code.
Context `{Apimachinery}.

Definition FetchValidGateway (key : ObjectKey) : prog Gateway :=
  gw <-- get_gateway key ;;
  if IsStatusConditionFalse (gw_Conditions (status gw)) "Ready" then
    fail (ErrText ("FetchValidGateway: gateway (" +:+ key_String key +:+ ") not ready"))
  else ret gw.

Definition routeParentStatus (httpRoute : HTTPRoute) (pRef : ParentRef) :
  option RouteParentStatus :=
  find (λ p, bool_decide (pRef = rps_ParentRef p)) (Parents (status httpRoute)).

(** The loop over the parents leaves at the first that was not accepted. *)
Fixpoint parents_accepted (httpRoute : HTTPRoute) (refs : list ParentRef) : bool :=
  match refs with
  | [] => true
  | parentRef :: refs =>
      match routeParentStatus httpRoute parentRef with
      | None => parents_accepted httpRoute refs
      | Some st =>
          if IsStatusConditionFalse (rps_Conditions st) "Accepted" then false
          else parents_accepted httpRoute refs
      end
  end.

Definition FetchValidHTTPRoute (key : ObjectKey) : prog HTTPRoute :=
  httpRoute <-- get_route key ;;
  if parents_accepted httpRoute (ParentRefs (spec httpRoute)) then ret httpRoute
  else fail (ErrText ("FetchValidHTTPRoute: httproute (" +:+ key_String key +:+
                      ") not accepted")).

(** [Namespace] of the reference, or the default *)
Definition target_namespace (t : PolicyTargetReference) (defaultNs : string) : string :=
  match tr_Namespace t with
  | Some ns => ns
  | None => defaultNs
  end.

Definition FetchValidTargetRef (targetRef : PolicyTargetReference) (defaultNs : string) :
  prog client_Object :=
  let objKey := {| Name := tr_Name targetRef;
                   Namespace := target_namespace targetRef defaultNs |} in
  if IsTargetRefHTTPRoute targetRef then
    r <-- FetchValidHTTPRoute objKey ;; ret (AnObject KHTTPRoute r)
  else if IsTargetRefGateway targetRef then
    g <-- FetchValidGateway objKey ;; ret (AnObject KGateway g)
  else fail (ErrText ("FetchValidTargetRef: targetRef (" +:+ fmt_targetRef targetRef +:+
                      ") to unknown network resource")).

Definition parent_gateway_key (httpRoute : HTTPRoute) (parentRef : ParentRef) : ObjectKey :=
  {| Name := parent_Name parentRef;
     Namespace := match parent_Namespace parentRef with
                  | Some ns => ns
                  | None => meta_Namespace (ometa httpRoute)
                  end |}.

Definition TargetedGatewayKeys (targetRef : PolicyTargetReference) (defaultNs : string) :
  prog (list ObjectKey) :=
  if IsTargetRefHTTPRoute targetRef then
    httpRoute <-- FetchValidHTTPRoute {| Name := tr_Name targetRef;
                                         Namespace := target_namespace targetRef defaultNs |} ;;
    ret (foldl (λ gwKeys parentRef, gwKeys ++ [parent_gateway_key httpRoute parentRef])
           [] (ParentRefs (spec httpRoute)))
  else if IsTargetRefGateway targetRef then
    ret [{| Name := tr_Name targetRef; Namespace := target_namespace targetRef defaultNs |}]
  else ret [].

(** The host names of a fetched object, before the default. *)
Definition object_hostnames (o : client_Object) : list string :=
  match o with
  | AnObject k o =>
      match k return obj k → list string with
      | KHTTPRoute => λ netResource,
          foldl (λ hosts h, hosts ++ [h]) [] (Hostnames_ (spec netResource))
      | KGateway => λ netResource,
          foldl (λ hosts l, match listener_Hostname l with
                            | Some h => hosts ++ [h]
                            | None => hosts
                            end) [] (Listeners (spec netResource))
      | _ => λ _, []
      end o
  end.

Definition TargetHostnames (targetRef : PolicyTargetReference) (defaultNs : string) :
  prog (list string) :=
  targetObj <-- FetchValidTargetRef targetRef defaultNs ;;
  let netResourceHosts := object_hostnames targetObj in
  if (length netResourceHosts =? 0)%nat then ret (netResourceHosts ++ ["*"])
  else ret netResourceHosts.

Definition ReconcileTargetBackReference (policyKey : ObjectKey)
    (targetRef : PolicyTargetReference) (defaultNs annotationName : string) : prog unit :=
  target <-- FetchValidTargetRef targetRef defaultNs ;;
  match target with
  | AnObject k targetObj =>
      let objAnnotations := entries (GetAnnotations targetObj) in
      match objAnnotations !! annotationName with
      | Some val =>
          if negb (bool_decide (val = key_String policyKey)) then
            fail (ErrText ("the " +:+ fmt_gvk k +:+ " target " +:+
              key_String (ObjectKeyFromObject targetObj) +:+
              " is already referenced by policy " +:+ key_String policyKey))
          else ret tt
      | None =>
          UpdateResource (SetAnnotations targetObj
            (<[annotationName:=key_String policyKey]> objAnnotations)) ;;; ret tt
      end
  end.

Definition DeleteTargetBackReference (policyKey : ObjectKey)
    (targetRef : PolicyTargetReference) (defaultNs annotationName : string) : prog unit :=
  fetched <-- attempt (FetchValidTargetRef targetRef defaultNs) ;;
  match fetched with
  | Failure err => if IsNotFound err then ret tt else fail err
  | Success (AnObject k targetObj) =>
      let objAnnotations := entries (GetAnnotations targetObj) in
      match objAnnotations !! annotationName with
      | Some _ =>
          UpdateResource (SetAnnotations targetObj
            (delete annotationName objAnnotations)) ;;; ret tt
      | None => ret tt
      end
  end.
End code.

#[global] Arguments FetchValidGateway : simpl never.
#[global] Arguments FetchValidHTTPRoute : simpl never.
#[global] Arguments FetchValidTargetRef : simpl never.

(** ** Lemmas *)

Lemma AnObject_inv k (o : obj k) k' (o' : obj k') :
  AnObject k o = AnObject k' o' → ∃ e : k = k', eq_rect k (λ k, obj k) o k' e = o'.
Proof. intros Heq. inversion Heq. by exists eq_refl. Qed.

Section lemmas.
Context `{Apimachinery}.

Section emits_lemmas.
Context (P : call → Prop).
Context (HG : ∀ key, P (Get KGateway key)) (HR : ∀ key, P (Get KHTTPRoute key)).

Lemma emits_FetchValidGateway key : emits P (FetchValidGateway key).
Proof. unfold FetchValidGateway. emits_auto. Qed.
Lemma emits_FetchValidHTTPRoute key : emits P (FetchValidHTTPRoute key).
Proof. unfold FetchValidHTTPRoute. emits_auto. Qed.
Hint Resolve emits_FetchValidGateway emits_FetchValidHTTPRoute : kuadrant.
Lemma emits_FetchValidTargetRef t ns : emits P (FetchValidTargetRef t ns).
Proof. unfold FetchValidTargetRef. emits_auto. Qed.
Lemma emits_TargetedGatewayKeys t ns : emits P (TargetedGatewayKeys t ns).
Proof. unfold TargetedGatewayKeys. emits_auto. Qed.
Hint Resolve emits_FetchValidTargetRef : kuadrant.
Lemma emits_TargetHostnames t ns : emits P (TargetHostnames t ns).
Proof. unfold TargetHostnames. emits_auto. Qed.

Context (UG : ∀ o, P (Update KGateway o)) (UR : ∀ o, P (Update KHTTPRoute o)).
(** Only objects of the two kinds are ever fetched. *)
Lemma wp_FetchValidTargetRef_kind t ns :
  wp (FetchValidTargetRef t ns) (λ tr o,
    Forall (λ e, P (ev_call e)) tr ∧
    match o with Ok (AnObject k _) => k = KGateway ∨ k = KHTTPRoute | _ => True end).
Proof.
  apply wp_and; [apply emits_FetchValidTargetRef|].
  unfold FetchValidTargetRef.
  destruct (IsTargetRefHTTPRoute t); [|destruct (IsTargetRefGateway t); [|done]];
    apply wp_bind, wp_always; intros tr [o|e|m]; simpl; auto.
Qed.

Lemma emits_back_reference_update t ns (f : client_Object → prog unit) :
  (∀ k o, k = KGateway ∨ k = KHTTPRoute → emits P (f (AnObject k o))) →
  emits P (prog_bind (FetchValidTargetRef t ns) f).
Proof.
  intros Hf. apply wp_bind. eapply wp_mono;
    [apply wp_FetchValidTargetRef_kind|].
  intros tr [[k o]|e|m] [Ht Hk]; simpl; [|done..].
  eapply wp_mono; [by apply Hf|]. intros tr' o' Ht'. by apply Forall_app.
Qed.

Lemma emits_UpdateTarget k (o : obj k) :
  k = KGateway ∨ k = KHTTPRoute → emits P (UpdateResource o).
Proof. intros [-> | ->]; apply emits_UpdateResource; auto. Qed.

Lemma emits_ReconcileTargetBackReference pk t ns ann :
  emits P (ReconcileTargetBackReference pk t ns ann).
Proof.
  apply emits_back_reference_update. intros k o Hk. cbn zeta iota.
  destruct (entries _ !! ann); [case_match; apply emits_ret|]. apply emits_bind; [by apply emits_UpdateTarget|].
  intros _. apply emits_ret.
Qed.

Lemma emits_DeleteTargetBackReference pk t ns ann :
  emits P (DeleteTargetBackReference pk t ns ann).
Proof.
  unfold DeleteTargetBackReference, emits. rewrite wp_bind, wp_attempt.
  eapply wp_mono; [apply wp_FetchValidTargetRef_kind|].
  intros tr [[k o]|e|m] [Ht Hk]; cbn beta iota delta [after]; [| |done].
  - eapply (wp_mono _ (λ tr' _, Forall (λ e, P (ev_call e)) tr'));
      [|intros tr' o' Ht'; by apply Forall_app].
    case_match; [|apply emits_ret].
    apply emits_bind; [by apply emits_UpdateTarget|]. intros _. apply emits_ret.
  - case_match; simpl; by rewrite app_nil_r.
Qed.
End emits_lemmas.

Lemma reads_FetchValidTargetRef t ns : emits reads (FetchValidTargetRef t ns).
Proof. by apply emits_FetchValidTargetRef. Qed.

(** What [FetchValidTargetRef] finds in a store. *)
Definition target_key (t : PolicyTargetReference) (ns : string) : ObjectKey :=
  {| Name := tr_Name t; Namespace := target_namespace t ns |}.

Definition valid_object {k} (o : obj k) : bool :=
  match k return obj k → bool with
  | KHTTPRoute => λ r, parents_accepted r (ParentRefs (spec r))
  | KGateway => λ g, negb (IsStatusConditionFalse (gw_Conditions (status g)) "Ready")
  | _ => λ _, false
  end o.

(** The kind a target reference names. *)
Definition target_kind (t : PolicyTargetReference) : option Kind :=
  if IsTargetRefHTTPRoute t then Some KHTTPRoute
  else if IsTargetRefGateway t then Some KGateway else None.

Lemma run_FetchValidHTTPRoute s key :
  (run memory_server (FetchValidHTTPRoute key) s).2 =
  outcome_bind (get_result s KHTTPRoute key) (λ r,
    if valid_object (k:=KHTTPRoute) r then Ok r
    else Err (ErrText ("FetchValidHTTPRoute: httproute (" +:+ key_String key +:+
                       ") not accepted"))).
Proof.
  unfold FetchValidHTTPRoute. rewrite run_bind, run_get_route.
  destruct (get_result s KHTTPRoute key) as [r|e|m]; simpl; [|done..].
  by destruct (parents_accepted r _).
Qed.

Lemma run_FetchValidGateway s key :
  (run memory_server (FetchValidGateway key) s).2 =
  outcome_bind (get_result s KGateway key) (λ g,
    if valid_object (k:=KGateway) g then Ok g
    else Err (ErrText ("FetchValidGateway: gateway (" +:+ key_String key +:+ ") not ready"))).
Proof.
  unfold FetchValidGateway. rewrite run_bind, run_get_gateway.
  destruct (get_result s KGateway key) as [r|e|m]; simpl; [|done..].
  by destruct (IsStatusConditionFalse _ _).
Qed.

Lemma run_bind_2 {A B} (p : prog A) (f : A → prog B) s (g : A → outcome B) :
  (∀ a s', (run memory_server (f a) s').2 = g a) →
  (run memory_server (prog_bind p f) s).2 = outcome_bind (run memory_server p s).2 g.
Proof.
  intros Hg. rewrite run_bind. destruct (run memory_server p s) as [[s1 t1] [a|e|m]]; [|done..].
  simpl. rewrite <- (Hg a s1). by destruct (run memory_server (f a) s1) as [[s2 t2] o2].
Qed.

Lemma run_FetchValidTargetRef t ns s :
  (run memory_server (FetchValidTargetRef t ns) s).2 =
  match target_kind t with
  | Some KHTTPRoute =>
      outcome_map (AnObject KHTTPRoute)
        (run memory_server (FetchValidHTTPRoute (target_key t ns)) s).2
  | Some KGateway =>
      outcome_map (AnObject KGateway)
        (run memory_server (FetchValidGateway (target_key t ns)) s).2
  | _ => Err (ErrText ("FetchValidTargetRef: targetRef (" +:+ fmt_targetRef t +:+
                       ") to unknown network resource"))
  end.
Proof.
  unfold FetchValidTargetRef, target_kind, target_key.
  destruct (IsTargetRefHTTPRoute t); [by apply run_bind_2|].
  destruct (IsTargetRefGateway t); [by apply run_bind_2|done].
Qed.

Lemma fetch_in_store t ns s k (o : obj k) :
  target_kind t = Some k → s k !! target_key t ns = Some o → valid_object o = true →
  (run memory_server (FetchValidTargetRef t ns) s).2 = Ok (AnObject k o).
Proof.
  rewrite run_FetchValidTargetRef. intros -> Ho Hv. destruct k; try done.
  - rewrite run_FetchValidGateway. unfold get_result. rewrite Ho. cbn [outcome_bind].
    by rewrite Hv.
  - rewrite run_FetchValidHTTPRoute. unfold get_result. rewrite Ho. cbn [outcome_bind].
    by rewrite Hv.
Qed.

Lemma fetch_in_store_inv t ns s k (o : obj k) :
  (run memory_server (FetchValidTargetRef t ns) s).2 = Ok (AnObject k o) →
  target_kind t = Some k ∧ s k !! target_key t ns = Some o ∧ valid_object o = true.
Proof.
  rewrite run_FetchValidTargetRef.
  destruct (target_kind t) as [[]|]; try done;
    rewrite ?run_FetchValidGateway, ?run_FetchValidHTTPRoute; unfold get_result.
  - destruct (s KGateway !! target_key t ns) as [x|] eqn:Hx; [|done].
    cbn [outcome_bind]. destruct (valid_object (k:=KGateway) x) eqn:Hv; [|done].
    intros Ho%outcome_Ok_inj. destruct (AnObject_inv _ _ _ _ Ho) as [<- Heq].
    simpl in Heq. by subst o.
  - destruct (s KHTTPRoute !! target_key t ns) as [x|] eqn:Hx; [|done].
    cbn [outcome_bind]. destruct (valid_object (k:=KHTTPRoute) x) eqn:Hv; [|done].
    intros Ho%outcome_Ok_inj. destruct (AnObject_inv _ _ _ _ Ho) as [<- Heq].
    simpl in Heq. by subst o.
Qed.

Lemma run_fetch t ns s :
  ∃ tr, run memory_server (FetchValidTargetRef t ns) s =
        (s, tr, (run memory_server (FetchValidTargetRef t ns) s).2).
Proof.
  pose proof (run_reads _ s (reads_FetchValidTargetRef t ns)) as Hs.
  destruct (run memory_server _ s) as [[s' tr] o]. simpl in *. subst. by exists tr.
Qed.

(** A fetch is one read; what it returns was read and is valid. *)
Lemma wp_FetchValidTargetRef t ns (Q : list event → outcome client_Object → Prop) :
  (∀ k o, target_kind t = Some k → valid_object o = true →
     Q [Event (Get k (target_key t ns)) (Success o)] (Ok (AnObject k o))) →
  (∀ tr e, Forall (λ ev, reads (ev_call ev)) tr → Q tr (Err e)) →
  wp (FetchValidTargetRef t ns) Q.
Proof.
  intros Hok Herr. unfold target_kind, target_key in Hok.
  unfold FetchValidTargetRef, FetchValidHTTPRoute, FetchValidGateway.
  destruct (IsTargetRefHTTPRoute t); [|destruct (IsTargetRefGateway t)].
  - apply wp_bind, wp_bind, wp_get_route.
    + intros r. cbn [after]. destruct (parents_accepted r _) eqn:Hp; simpl.
      * by apply (Hok KHTTPRoute).
      * apply Herr. by repeat constructor.
    + intros e. apply Herr. by repeat constructor.
  - apply wp_bind, wp_bind, wp_get_gateway.
    + intros g. cbn [after]. destruct (IsStatusConditionFalse _ _) eqn:Hp; simpl.
      * apply Herr. by repeat constructor.
      * apply (Hok KGateway); [done|]. simpl. by rewrite Hp.
    + intros e. apply Herr. by repeat constructor.
  - apply Herr. constructor.
Qed.

Lemma wp_FetchValidHTTPRoute key (Q : list event → outcome HTTPRoute → Prop) :
  (∀ r : HTTPRoute, valid_object (k:=KHTTPRoute) r = true →
     Q [Event (Get KHTTPRoute key) (Success (r : obj KHTTPRoute))] (Ok r)) →
  (∀ tr e, Forall (λ ev, reads (ev_call ev)) tr → Q tr (Err e)) →
  wp (FetchValidHTTPRoute key) Q.
Proof.
  intros Hok Herr. apply wp_bind, wp_get_route.
  - intros r. cbn [after]. destruct (parents_accepted r _) eqn:Hp; simpl.
    + by apply Hok.
    + apply Herr. by repeat constructor.
  - intros e. apply Herr. by repeat constructor.
Qed.

Lemma target_kind_cases t k : target_kind t = Some k → k = KHTTPRoute ∨ k = KGateway.
Proof. unfold target_kind. repeat case_match; naive_solver. Qed.

Lemma foldl_parents (r : HTTPRoute) l :
  foldl (λ gwKeys parentRef, gwKeys ++ [parent_gateway_key r parentRef]) [] l =
  parent_gateway_key r <$> l.
Proof.
  rewrite (foldl_app_bind _ (λ p, [parent_gateway_key r p])) by done. simpl.
  induction l as [|p l IH]; [done|]. by rewrite bind_cons, IH.
Qed.
End lemmas.

#[global] Arguments valid_object {_ _} _ : simpl never.

(** The target is there, valid, and carries [v] under the annotation. *)
Definition held `{Apimachinery} (s : store) (t : PolicyTargetReference)
    (ns ann v : string) : Prop :=
  ∃ k (x : obj k), target_kind t = Some k ∧ s k !! target_key t ns = Some x ∧
    valid_object x = true ∧ entries (GetAnnotations x) !! ann = Some v.

(** The host names of an object as declared: those of a route, those of the
    listeners of a gateway that have one. *)
Definition served_hosts (o : client_Object) : list string :=
  match o with
  | AnObject k o =>
      match k return obj k → list string with
      | KHTTPRoute => λ r, Hostnames_ (spec r)
      | KGateway => λ g, omap listener_Hostname (Listeners (spec g))
      | _ => λ _, []
      end o
  end.

Lemma memory_server_wf s c : store_wf s → store_wf (memory_server s c).1.
Proof.
  intros Hs. destruct c as [k key| |k o|k o|k o|k o]; simpl; try done;
    destruct (s k !! ObjectKeyFromObject o) as [old|] eqn:Ho; simpl; try done;
    try by apply store_put_wf.
  intros k' key' x. destruct (decide (k = k')) as [<-|Hk].
  - rewrite store_delete_same. intros [_ Hx]%lookup_delete_Some. by apply Hs in Hx.
  - rewrite store_delete_other by done. apply Hs.
Qed.

Lemma run_memory_wf {A} (p : prog A) s : store_wf s → store_wf (run memory_server p s).1.1.
Proof.
  revert s. induction p as [o|c k IH]; intros s Hs; simpl; [done|].
  pose proof (memory_server_wf s c Hs) as Hs'. destruct (memory_server s c) as [s' a].
  specialize (IH a s' Hs'). by destruct (run memory_server (k a) s') as [[s2 t] o].
Qed.

Section store_lemmas.
Context `{Apimachinery}.

Lemma parents_accepted_status (r r' : HTTPRoute) l :
  status r = status r' → parents_accepted r l = parents_accepted r' l.
Proof.
  intros Hst. induction l as [|p l IH]; [done|]. simpl.
  unfold routeParentStatus. by rewrite Hst, IH.
Qed.

Lemma valid_object_annotations {k} (o : obj k) a :
  valid_object (SetAnnotations o a) = valid_object o.
Proof. destruct k; try done. by apply parents_accepted_status. Qed.

Lemma run_back_reference_held pk t ns ann s v :
  held s t ns ann v →
  (run memory_server (ReconcileTargetBackReference pk t ns ann) s).1.1 = s ∧
  Forall (λ e, reads (ev_call e))
    (run memory_server (ReconcileTargetBackReference pk t ns ann) s).1.2 ∧
  if decide (v = key_String pk)
  then (run memory_server (ReconcileTargetBackReference pk t ns ann) s).2 = Ok tt
  else ¬ is_ok (run memory_server (ReconcileTargetBackReference pk t ns ann) s).2.
Proof.
  intros (k & x & Hk & Hx & Hv & Ha). unfold ReconcileTargetBackReference.
  pose proof (wp_run memory_server _ _ s (reads_FetchValidTargetRef t ns)) as Htr.
  rewrite run_bind. destruct (run_fetch t ns s) as [tr Hf]. rewrite Hf in Htr |- *.
  rewrite (fetch_in_store t ns s k x) by done. cbn zeta. rewrite Ha.
  case_decide as Hd; [rewrite bool_decide_true by done|rewrite bool_decide_false by done];
    simpl in *; rewrite app_nil_r; auto.
Qed.

(** Storing the object with other annotations. *)
Lemma run_update_annotations {k} (x : obj k) a s key :
  store_wf s → s k !! key = Some x →
  let x' := SetAnnotations x a in
  run memory_server (UpdateResource x' ;;; ret tt) s =
  (store_put s x', [Event (Update k x') (Success x')], Ok tt) ∧
  store_put s x' k !! key = Some x'.
Proof.
  intros Hwf Hx x'. assert (ObjectKeyFromObject x' = key) as Hkey.
  { rewrite <- (Hwf _ _ _ Hx). done. }
  split; [|by rewrite store_put_same, Hkey, lookup_insert_eq].
  unfold UpdateResource. rewrite run_bind, (run_request _ (Update k x')). simpl.
  by rewrite Hkey, Hx.
Qed.

Lemma run_back_reference_free pk t ns ann s k (x : obj k) :
  store_wf s → target_kind t = Some k → s k !! target_key t ns = Some x →
  valid_object x = true → entries (GetAnnotations x) !! ann = None →
  let s1 := (run memory_server (ReconcileTargetBackReference pk t ns ann) s).1.1 in
  held s1 t ns ann (key_String pk) ∧
  (run memory_server (ReconcileTargetBackReference pk t ns ann) s).2 = Ok tt.
Proof.
  intros Hwf Hk Hx Hv Ha. unfold ReconcileTargetBackReference.
  rewrite run_bind. destruct (run_fetch t ns s) as [tr ->].
  rewrite (fetch_in_store t ns s k x) by done. cbn zeta. rewrite Ha.
  destruct (run_update_annotations x (<[ann:=key_String pk]> (entries (GetAnnotations x)))
              s (target_key t ns) Hwf Hx) as [-> Hs].
  split; [|done]. eexists k, _. split; [done|]. split; [exact Hs|].
  rewrite valid_object_annotations. split; [done|]. simpl. apply lookup_insert_eq.
Qed.

Lemma back_reference_holds pk t ns ann s :
  store_wf s →
  (run memory_server (ReconcileTargetBackReference pk t ns ann) s).2 = Ok tt →
  held (run memory_server (ReconcileTargetBackReference pk t ns ann) s).1.1
    t ns ann (key_String pk).
Proof.
  intros Hwf Hok. pose proof Hok as Hok'. unfold ReconcileTargetBackReference in Hok'.
  rewrite run_bind in Hok'. destruct (run_fetch t ns s) as [tr Hr]. rewrite Hr in Hok'.
  destruct (run memory_server (FetchValidTargetRef t ns) s).2 as [[k x]|e|m] eqn:Hf;
    try done. apply fetch_in_store_inv in Hf as (Hk & Hx & Hv).
  destruct (entries (GetAnnotations x) !! ann) as [v|] eqn:Ha.
  - assert (held s t ns ann v) as Hh by (by exists k, x).
    destruct (run_back_reference_held pk t ns ann s v Hh) as (-> & _ & Hd).
    case_decide; [by subst|]. rewrite Hok in Hd. by destruct Hd.
  - by apply (run_back_reference_free pk t ns ann s k x).
Qed.

Lemma run_delete_held pk t ns ann s v :
  store_wf s → held s t ns ann v →
  (run memory_server (DeleteTargetBackReference pk t ns ann) s).2 = Ok tt ∧
  ∃ k (x : obj k), target_kind t = Some k ∧
    (run memory_server (DeleteTargetBackReference pk t ns ann) s).1.1 k
      !! target_key t ns = Some x ∧
    valid_object x = true ∧ entries (GetAnnotations x) !! ann = None.
Proof.
  intros Hwf (k & x & Hk & Hx & Hv & Ha). unfold DeleteTargetBackReference.
  rewrite run_bind, run_attempt. destruct (run_fetch t ns s) as [tr ->].
  rewrite (fetch_in_store t ns s k x) by done. cbn zeta. rewrite Ha.
  destruct (run_update_annotations x (delete ann (entries (GetAnnotations x)))
              s (target_key t ns) Hwf Hx) as [-> Hs].
  split; [done|]. eexists k, _. split; [done|]. split; [exact Hs|].
  rewrite valid_object_annotations. split; [done|]. simpl. apply lookup_delete_eq.
Qed.

Lemma object_hostnames_served o : object_hostnames o = served_hosts o.
Proof. destruct o as [[] o]; try done; [apply Hostnames_omap|apply foldl_snoc]. Qed.

Lemma TargetHostnames_or_any o :
  (if (length (object_hostnames o) =? 0)%nat then ret (object_hostnames o ++ ["*"])
   else ret (object_hostnames o)) = ret (or_any (served_hosts o)).
Proof. rewrite <- object_hostnames_served. by destruct (object_hostnames o). Qed.
End store_lemmas.

Section safe_lemmas.
Context `{Apimachinery}.

Lemma safe_FetchValidHTTPRoute key : safe (FetchValidHTTPRoute key).
Proof. unfold FetchValidHTTPRoute. safe_auto. Qed.
Lemma safe_FetchValidGateway key : safe (FetchValidGateway key).
Proof. unfold FetchValidGateway. safe_auto. Qed.
Hint Resolve safe_FetchValidHTTPRoute safe_FetchValidGateway : kuadrant.
Lemma safe_FetchValidTargetRef t ns : safe (FetchValidTargetRef t ns).
Proof. unfold FetchValidTargetRef. safe_auto. Qed.
Hint Resolve safe_FetchValidTargetRef : kuadrant.
Lemma safe_TargetedGatewayKeys t ns : safe (TargetedGatewayKeys t ns).
Proof. unfold TargetedGatewayKeys. safe_auto. Qed.
Lemma safe_TargetHostnames t ns : safe (TargetHostnames t ns).
Proof. unfold TargetHostnames. safe_auto. Qed.
Lemma safe_ReconcileTargetBackReference pk t ns ann :
  safe (ReconcileTargetBackReference pk t ns ann).
Proof. unfold ReconcileTargetBackReference. safe_auto. Qed.
Lemma safe_DeleteTargetBackReference pk t ns ann :
  safe (DeleteTargetBackReference pk t ns ann).
Proof. unfold DeleteTargetBackReference. safe_auto. Qed.
End safe_lemmas.

#[export] Hint Resolve safe_FetchValidHTTPRoute safe_FetchValidGateway
  safe_FetchValidTargetRef safe_TargetedGatewayKeys safe_TargetHostnames
  safe_ReconcileTargetBackReference safe_DeleteTargetBackReference : kuadrant.

(** The keys of the gateways of a target, by the calls made. *)
Lemma wp_TargetedGatewayKeys (AM : Apimachinery) (t : PolicyTargetReference)
    (ns : string) :
  wp (TargetedGatewayKeys t ns) (λ tr o,
    match target_kind t with
    | Some KGateway => tr = [] ∧ o = Ok [target_key t ns]
    | Some KHTTPRoute => ∃ a, tr = [Event (Get KHTTPRoute (target_key t ns)) a] ∧
        match a with
        | Success r =>
            if valid_object (k:=KHTTPRoute) r
            then o = Ok (parent_gateway_key r <$> ParentRefs (spec r))
            else ∃ m, o = Err (ErrText m)
        | Failure e => o = Err e
        end
    | _ => tr = [] ∧ o = Ok []
    end).
Proof.
  unfold TargetedGatewayKeys, target_kind, target_key, FetchValidHTTPRoute.
  destruct (IsTargetRefHTTPRoute t); [|by destruct (IsTargetRefGateway t)].
  apply wp_bind, wp_bind, wp_get_route.
  - intros r. cbn [after]. unfold valid_object.
    destruct (parents_accepted r _) eqn:Hp; simpl; eexists; (split; [done|]); simpl;
      cbn [spec_of status_of] in *; rewrite Hp, ?foldl_parents; eauto.
  - intros e. simpl. eexists. done.
Qed.

(** ** Properties *)

(** The gateways behind a target.  A Gateway target is its own gateway and
    nothing is read; for an HTTPRoute exactly that route is read, and when it
    is there and accepted by its parents the keys are those of its parents, in
    order, each in the parent's namespace or the route's own; a route that is
    missing or not accepted gives an error. *)
Theorem TargetedGatewayKeys_correct (AM : Apimachinery) (t : PolicyTargetReference)
    (ns : string) :
  wp (TargetedGatewayKeys t ns) (λ tr o,
    match target_kind t with
    | Some KGateway => tr = [] ∧ o = Ok [target_key t ns]
    | Some KHTTPRoute => ∃ a, tr = [Event (Get KHTTPRoute (target_key t ns)) a] ∧
        match a with
        | Success r =>
            if valid_object (k:=KHTTPRoute) r
            then o = Ok (parent_gateway_key r <$> ParentRefs (spec r))
            else ∃ m, o = Err (ErrText m)
        | Failure e => o = Err e
        end
    | _ => tr = [] ∧ o = Ok []
    end).
Proof. apply wp_TargetedGatewayKeys. Qed.

(** The back reference, whatever the server answers.  Before the target is
    known to be free nothing is written; a target that carries another
    policy's key makes the call fail with no write at all; one that carries
    this policy's key needs none; a free target gets exactly one update, which
    adds the annotation with this policy's key and changes nothing else. *)
Theorem back_reference_table (AM : Apimachinery) (pk : ObjectKey)
    (t : PolicyTargetReference) (ns ann : string) :
  wp (ReconcileTargetBackReference pk t ns ann) (λ tr o,
    (Forall (λ ev, reads (ev_call ev)) tr ∧ ∃ e, o = Err e) ∨
    (∃ k (x : obj k), target_kind t = Some k ∧ valid_object x = true ∧
       let rd := Event (Get k (target_key t ns)) (Success x) in
       match entries (GetAnnotations x) !! ann with
       | Some v => tr = [rd] ∧ v = key_String pk ∧ o = Ok tt
       | None => ∃ r, o = write_result r ∧
           tr = [rd; Event (Update k (SetAnnotations x
                   (<[ann:=key_String pk]> (entries (GetAnnotations x))))) r]
       end)).
Proof.
  apply wp_bind, wp_FetchValidTargetRef; [|intros tr e Htr; left; split; [done|by exists e]].
  intros k x Hk Hv. simpl.
  destruct (entries (GetAnnotations x) !! ann) as [v|] eqn:Ha.
  - case_bool_decide as Hv'; simpl.
    + right. exists k, x. cbn zeta. rewrite Ha. auto 10.
    + left. split; [by repeat constructor|eauto].
  - intros [r|e]; simpl; right; exists k, x; cbn zeta; rewrite Ha;
      (split; [done|]); (split; [done|]); eexists; (split; [|done]); done.
Qed.

(** C19: at most one policy holds a target.  On a server without other actors,
    once one policy's back reference was reconciled, that of a policy with a
    different key fails on the same target, while the first policy's succeeds
    again; both only read, and leave the store as it is. *)
Theorem back_reference_exclusive (AM : Apimachinery) (p q : ObjectKey)
    (t : PolicyTargetReference) (ns ann : string) (s : store)
    (Hwf : store_wf s) (Hpq : key_String p ≠ key_String q)
    (Hp : (run memory_server (ReconcileTargetBackReference p t ns ann) s).2 = Ok tt) :
  let s1 := (run memory_server (ReconcileTargetBackReference p t ns ann) s).1.1 in
  let other := run memory_server (ReconcileTargetBackReference q t ns ann) s1 in
  let again := run memory_server (ReconcileTargetBackReference p t ns ann) s1 in
  (¬ is_ok other.2 ∧ Forall (λ e, reads (ev_call e)) other.1.2 ∧ other.1.1 = s1) ∧
  (again.2 = Ok tt ∧ Forall (λ e, reads (ev_call e)) again.1.2 ∧ again.1.1 = s1).
Proof.
  intros s1 other again. pose proof (back_reference_holds p t ns ann s Hwf Hp) as Hh. fold s1 in Hh.
  destruct (run_back_reference_held q t ns ann s1 _ Hh) as (Hq1 & Hq2 & Hq3).
  destruct (run_back_reference_held p t ns ann s1 _ Hh) as (Hp1 & Hp2 & Hp3).
  rewrite decide_False in Hq3 by done. rewrite decide_True in Hp3 by done. auto.
Qed.

Definition sample_store : store :=
  store_put empty_store (k:=KHTTPRoute) sample_route.

Lemma sample_store_wf : store_wf sample_store.
Proof. apply store_put_wf. by intros k key o. Defined.

Definition sample_policy (n : string) : ObjectKey := {| Namespace := "ns"; Name := n |}.

Lemma back_reference_exclusive_witness :
  let s1 := (run memory_server (ReconcileTargetBackReference (sample_policy "a")
               sample_target "ns" RateLimitPolicyBackRefAnnotation) sample_store).1.1 in
  ¬ is_ok (run memory_server (ReconcileTargetBackReference (sample_policy "b")
             sample_target "ns" RateLimitPolicyBackRefAnnotation) s1).2.
Proof.
  apply (back_reference_exclusive default_apimachinery (sample_policy "a") (sample_policy "b")
           sample_target "ns" RateLimitPolicyBackRefAnnotation sample_store
           sample_store_wf).
  - vm_compute. discriminate.
  - vm_compute. reflexivity.
Defined.

(** [DeleteTargetBackReference] does not look whose reference it is.  On a
    server without other actors, the call made for one policy removes the
    reference of another, and a third policy can take the target. *)
Theorem foreign_delete_frees_target (AM : Apimachinery) (p q r : ObjectKey)
    (t : PolicyTargetReference) (ns ann : string) (s : store)
    (Hwf : store_wf s) (Hh : held s t ns ann (key_String p)) :
  let s1 := (run memory_server (DeleteTargetBackReference q t ns ann) s).1.1 in
  (run memory_server (DeleteTargetBackReference q t ns ann) s).2 = Ok tt ∧
  ¬ held s1 t ns ann (key_String p) ∧
  (run memory_server (ReconcileTargetBackReference r t ns ann) s1).2 = Ok tt.
Proof.
  intros s1. destruct (run_delete_held q t ns ann s _ Hwf Hh) as (Hok & k & x & Hk & Hx & Hv & Ha).
  fold s1 in Hx. split; [done|]. split.
  - intros (k' & y & Hk' & Hy & _ & Hay). rewrite Hk in Hk'. injection Hk' as <-.
    rewrite Hx in Hy. injection Hy as <-. congruence.
  - destruct (run_back_reference_free r t ns ann s1 k x) as [_ ?]; try done.
    + by apply run_memory_wf.
Qed.

Lemma foreign_delete_frees_target_witness :
  let s := (run memory_server (ReconcileTargetBackReference (sample_policy "a")
              sample_target "ns" RateLimitPolicyBackRefAnnotation) sample_store).1.1 in
  let s1 := (run memory_server (DeleteTargetBackReference (sample_policy "b")
              sample_target "ns" RateLimitPolicyBackRefAnnotation) s).1.1 in
  (run memory_server (ReconcileTargetBackReference (sample_policy "c")
              sample_target "ns" RateLimitPolicyBackRefAnnotation) s1).2 = Ok tt.
Proof.
  apply (foreign_delete_frees_target default_apimachinery (sample_policy "a")
           (sample_policy "b") (sample_policy "c")).
  - apply run_memory_wf, sample_store_wf.
  - eexists KHTTPRoute, _. split; [reflexivity|]. split; [vm_compute; reflexivity|].
    split; vm_compute; reflexivity.
Defined.

(** The host names of a target are never empty: those of the HTTPRoute, or
    of the Gateway's listeners that have one, in order, and [*] when there is
    none; nothing is written. *)
Theorem TargetHostnames_correct (AM : Apimachinery) (t : PolicyTargetReference)
    (ns : string) :
  wp (TargetHostnames t ns) (λ tr o,
    Forall (λ ev, reads (ev_call ev)) tr ∧
    match o with
    | Ok hosts => hosts ≠ [] ∧
        ((∃ r : obj KHTTPRoute, tr = [Event (Get KHTTPRoute (target_key t ns)) (Success r)] ∧
            hosts = or_any (Hostnames_ (spec r))) ∨
         (∃ g : obj KGateway, tr = [Event (Get KGateway (target_key t ns)) (Success g)] ∧
            hosts = or_any (omap listener_Hostname (Listeners (spec g)))))
    | Err _ => True
    | Panic _ => False
    end).
Proof.
  apply wp_bind, wp_FetchValidTargetRef; [|done].
  intros k x Hk Hv. cbn [after]. rewrite TargetHostnames_or_any. unfold ret. cbn [wp app].
  split; [by repeat constructor|]. split; [by unfold or_any; case_match|].
  destruct (target_kind_cases t k Hk) as [-> | ->].
  - left. exists x. done.
  - right. exists x. done.
Qed.
