(* ===== verification/Runs.v ===== *)
(** * Successful runs on the server in memory

    Rules to take a successful run apart, step by step, and to put together a
    run that only reads. *)
From S2P Require Import Prelude GoStrings KubeTypes CommonUtils Client BaseReconciler TargetRef.

Open Scope go_scope.

(** ** Runs that succeed *)

(** From the store [s], [p] succeeds with [a] and leaves [s']. *)
Definition exec {A} (p : prog A) (s s' : store) (a : A) : Prop :=
  ∃ t, run memory_server p s = (s', t, Ok a).

(** From the store [s], [p] succeeds with [a] and calls no method that writes. *)
Definition steady {A} (p : prog A) (s : store) (a : A) : Prop :=
  ∃ t, run memory_server p s = (s, t, Ok a) ∧ Forall (λ e, reads (ev_call e)) t.

Section exec.
Context {A : Type}.
Implicit Types (p : prog A) (s : store) (a : A).

Lemma exec_run p s s' a :
  exec p s s' a ↔ (run memory_server p s).1.1 = s' ∧ (run memory_server p s).2 = Ok a.
Proof.
  unfold exec. destruct (run memory_server p s) as [[s1 t] o]. simpl. split.
  - by intros [t' [= -> _ ->]].
  - intros [-> ->]. by exists t.
Qed.

Lemma exec_det p s s1 s2 a b : exec p s s1 a → exec p s s2 b → s1 = s2 ∧ a = b.
Proof. rewrite !exec_run. intros [<- H1] [<- H2]. split; congruence. Qed.

Lemma exec_reads p s s' a : emits reads p → exec p s s' a → s' = s.
Proof. intros Hr [Hs _]%exec_run. by rewrite <- Hs, run_reads. Qed.

Lemma exec_wf p s s' a : store_wf s → exec p s s' a → store_wf s'.
Proof. intros Hwf [<- _]%exec_run. by apply run_memory_wf. Qed.

Lemma exec_Ret (o : outcome A) s s' a : exec (Ret o) s s' a ↔ s' = s ∧ o = Ok a.
Proof. rewrite exec_run. simpl. naive_solver. Qed.

Lemma steady_run p s a : steady p s a → (run memory_server p s).2 = Ok a.
Proof. by intros (t & -> & _). Qed.

Lemma steady_reads p s a :
  emits reads p → (run memory_server p s).2 = Ok a → steady p s a.
Proof.
  intros Hr Ha. pose proof (run_reads p s Hr) as Hs.
  pose proof (wp_run memory_server p _ s Hr) as Ht. unfold steady.
  destruct (run memory_server p s) as [[s1 t] o]. simpl in *. subst. eauto.
Qed.

Lemma steady_ret s a : steady (ret a) s a.
Proof. by exists []. Qed.
End exec.

Lemma exec_bind {A B} (p : prog A) (f : A → prog B) s s' b :
  exec (prog_bind p f) s s' b ↔ ∃ s1 a, exec p s s1 a ∧ exec (f a) s1 s' b.
Proof.
  unfold exec. setoid_rewrite run_bind. split.
  - destruct (run memory_server p s) as [[s1 t1] [a|e|m]] eqn:Hp; intros [t Ht]; [|done..].
    destruct (run memory_server (f a) s1) as [[s2 t2] o2] eqn:Hf.
    injection Ht as -> _ ->. exists s1, a. eauto.
  - intros (s1 & a & [t1 ->] & [t2 ->]). eauto.
Qed.

Lemma exec_request c s s' r : exec (request c) s s' r ↔ memory_server s c = (s', Success r).
Proof.
  rewrite exec_run, run_request. simpl.
  destruct (memory_server s c) as [s1 [x|e]]; simpl; naive_solver.
Qed.

(** The object under a key, as [attempt] of a [Get] gives it. *)
Lemma exec_attempt_get k key s s' found :
  exec (attempt (request (Get k key))) s s' found →
  s' = s ∧ found = match s k !! key with
                   | Some o => Success o
                   | None => Failure (api_error ReasonNotFound "not found" key)
                   end.
Proof.
  rewrite exec_run, run_attempt, run_get. unfold get_result. simpl.
  destruct (s k !! key); naive_solver.
Qed.

Lemma exec_UpdateResource k (o : obj k) s s' r :
  exec (UpdateResource o) s s' r → s' = store_put s o ∧ r = o.
Proof.
  intros Hr. apply (exec_request (Update k o)) in Hr. simpl in Hr. destruct (s k !! ObjectKeyFromObject o); [|done].
  by injection Hr as <- <-.
Qed.

Lemma exec_CreateResource k (o : obj k) s s' r :
  exec (CreateResource o) s s' r → s' = store_put s o ∧ r = o.
Proof.
  intros Hr. apply (exec_request (Create k o)) in Hr. simpl in Hr. destruct (s k !! ObjectKeyFromObject o); [done|].
  by injection Hr as <- <-.
Qed.

Lemma exec_loop_cons {S X} (body : S → X → prog S) st x l s s' st' :
  exec (loop body st (x :: l)) s s' st' ↔
  ∃ s1 st1, exec (body st x) s s1 st1 ∧ exec (loop body st1 l) s1 s' st'.
Proof. apply exec_bind. Qed.

Lemma steady_bind {A B} (p : prog A) (f : A → prog B) s a b :
  steady p s a → steady (f a) s b → steady (prog_bind p f) s b.
Proof.
  intros (t1 & H1 & Hr1) (t2 & H2 & Hr2). unfold steady. rewrite run_bind, H1, H2.
  eexists. split; [done|]. by apply Forall_app.
Qed.

Lemma steady_loop {S X} (body : S → X → prog S) st s l :
  (∀ x, x ∈ l → steady (body st x) s st) → steady (loop body st l) s st.
Proof.
  induction l as [|x l IH]; intros Hb; [apply steady_ret|]. cbn [loop].
  apply (steady_bind _ _ _ st); [apply Hb; left|]. apply IH. intros y Hy. apply Hb. by right.
Qed.

(** What a program may do from a store on which it succeeds: to read, at least,
    and what its parts may do. *)
Class Quiet (Q : ∀ {A}, prog A → store → A → Prop) : Prop := {
  quiet_steady {A} (p : prog A) s a : steady p s a → Q p s a;
  quiet_attempt {A} (p : prog A) s a : Q p s a → Q (attempt p) s (Success a);
  quiet_bind {A B} (p : prog A) (f : A → prog B) s a b :
    Q p s a → (∀ s1, exec p s s1 a → Q (f a) s1 b) → Q (prog_bind p f) s b
}.

Lemma quiet_bind_steady `{Quiet Q} {A B} (p : prog A) (f : A → prog B) s a b :
  steady p s a → Q _ (f a) s b → Q _ (prog_bind p f) s b.
Proof.
  intros Hp Hf. apply (quiet_bind p f s a); [by apply quiet_steady|]. intros s1 Hex.
  destruct Hp as (t & Hp & _). destruct (exec_det _ _ _ _ _ _ Hex (ex_intro _ t Hp)) as [-> _].
  done.
Qed.

(** ** What a run leaves alone *)

(** The kinds a program may write. *)
Definition writes_only {A} (K : Kind → Prop) (p : prog A) : Prop :=
  emits (λ c, is_write c = true → K (call_kind c)) p.

Lemma memory_server_frame s c k :
  (is_write c = true → call_kind c ≠ k) → (memory_server s c).1 k = s k.
Proof.
  intros Hk. destruct c as [| |kc o|kc o|kc o|kc o]; simpl in *; try done;
    specialize (Hk eq_refl); destruct (s kc !! ObjectKeyFromObject o); simpl; try done;
    by rewrite ?store_put_other, ?store_delete_other.
Qed.

Lemma run_frame {A} (K : Kind → Prop) (p : prog A) s k :
  writes_only K p → ¬ K k → (run memory_server p s).1.1 k = s k.
Proof.
  intros Hp Hk. revert s Hp. induction p as [o|c f IH]; intros s; simpl; [done|].
  intros [Hc Hf]%emits_inv.
  pose proof (memory_server_frame s c k ltac:(intros HK%Hc Heq; apply Hk; by rewrite <- Heq)) as Hs.
  destruct (memory_server s c) as [s1 a]. simpl in Hs. specialize (IH a s1 (Hf a)).
  destruct (run memory_server (f a) s1) as [[s2 t] o]. simpl in *. congruence.
Qed.

Lemma exec_frame {A} (K : Kind → Prop) (p : prog A) s s' a k :
  writes_only K p → exec p s s' a → ¬ K k → s' k = s k.
Proof. intros Hp [<- _]%exec_run Hk. by eapply run_frame. Qed.

(** ** Stores whose objects agree but for their metadata *)

Definition same_content {k} (o o' : obj k) : Prop :=
  ObjectKeyFromObject o = ObjectKeyFromObject o' ∧ spec o = spec o' ∧ status o = status o'.

#[export] Instance same_content_equivalence k : Equivalence (@same_content k).
Proof.
  split.
  - by intros o.
  - by intros o o' (? & ? & ?).
  - intros x y z (? & ? & ?) (? & ? & ?). split; [|split]; congruence.
Qed.

Definition similar (k : Kind) (s s' : store) : Prop :=
  ∀ key, option_Forall2 same_content (s k !! key) (s' k !! key).

Lemma similar_eq k s s' : s k = s' k → similar k s s'.
Proof. intros Hs key. rewrite Hs. by destruct (s' k !! key); constructor. Qed.

Lemma similar_Some k s s' key (o : obj k) :
  similar k s s' → s k !! key = Some o → ∃ o', s' k !! key = Some o' ∧ same_content o o'.
Proof. intros Hs Ho. specialize (Hs key). rewrite Ho in Hs. inversion Hs. eauto. Qed.

Lemma similar_sym k s s' : similar k s s' → similar k s' s.
Proof. intros Hs key. specialize (Hs key). by destruct Hs; constructor. Qed.

Lemma similar_trans k s1 s2 s3 : similar k s1 s2 → similar k s2 s3 → similar k s1 s3.
Proof.
  intros H12 H23 key. specialize (H12 key). specialize (H23 key).
  destruct H12; inversion H23; subst; constructor. by etransitivity.
Qed.

(** ** Reading from two stores

    Two programs that only read, run from two stores: what they return is
    related when what they read is. *)

Definition outcome_rel {A B} (R : A → B → Prop) (o : outcome A) (o' : outcome B) : Prop :=
  match o, o' with
  | Ok a, Ok b => R a b
  | Err e, Err e' => e = e'
  | Panic m, Panic m' => m = m'
  | _, _ => False
  end.

Lemma outcome_rel_eq {A} (o o' : outcome A) : outcome_rel eq o o' ↔ o = o'.
Proof. split; [destruct o, o'; simpl; try done; by intros ->|]. intros ->. by destruct o'. Qed.

Lemma rel_bind {A A' B B'} (R : A → A' → Prop) (S : B → B' → Prop)
    (p : prog A) (p' : prog A') (f : A → prog B) (f' : A' → prog B') s s' :
  emits reads p → emits reads p' →
  outcome_rel R (run memory_server p s).2 (run memory_server p' s').2 →
  (∀ a a', R a a' → outcome_rel S (run memory_server (f a) s).2 (run memory_server (f' a') s').2) →
  outcome_rel S (run memory_server (prog_bind p f) s).2 (run memory_server (prog_bind p' f') s').2.
Proof.
  intros Hp Hp' HR Hf. rewrite !run_bind.
  pose proof (run_reads p s Hp) as Hs. pose proof (run_reads p' s' Hp') as Hs'.
  destruct (run memory_server p s) as [[s1 t] o], (run memory_server p' s') as [[s1' t'] o'].
  simpl in Hs, Hs', HR. subst s1 s1'. destruct o as [a|e|m], o' as [a'|e'|m']; try done.
  simpl in HR. specialize (Hf a a' HR).
  destruct (run memory_server (f a) s) as [[? ?] ?], (run memory_server (f' a') s') as [[? ?] ?].
  done.
Qed.

Lemma rel_loop {S S' X} (R : S → S' → Prop) (body : S → X → prog S) (body' : S' → X → prog S')
    st st' l s s' :
  (∀ st x, emits reads (body st x)) → (∀ st x, emits reads (body' st x)) → R st st' →
  (∀ st st' x, R st st' →
     outcome_rel R (run memory_server (body st x) s).2 (run memory_server (body' st' x) s').2) →
  outcome_rel R (run memory_server (loop body st l) s).2 (run memory_server (loop body' st' l) s').2.
Proof.
  intros Hb Hb' HR Hstep. revert st st' HR. induction l as [|x l IH]; intros st st' HR; [exact HR|].
  cbn [loop]. eapply rel_bind; [apply Hb|apply Hb'|by apply Hstep|]. intros a a'. apply IH.
Qed.

(** The same, over two lists that are related. *)
Lemma rel_loop2 {S S' X X'} (R : S → S' → Prop) (Q : X → X' → Prop)
    (body : S → X → prog S) (body' : S' → X' → prog S') st st' l l' s s' :
  (∀ st x, emits reads (body st x)) → (∀ st x, emits reads (body' st x)) →
  R st st' → Forall2 Q l l' →
  (∀ st st' x x', R st st' → Q x x' →
     outcome_rel R (run memory_server (body st x) s).2 (run memory_server (body' st' x') s').2) →
  outcome_rel R (run memory_server (loop body st l) s).2 (run memory_server (loop body' st' l') s').2.
Proof.
  intros Hb Hb' HR Hl Hstep. revert st st' HR. induction Hl as [|x x' l l' Hx _ IH];
    intros st st' HR; [exact HR|].
  cbn [loop]. eapply rel_bind; [apply Hb|apply Hb'|by apply Hstep|]. intros a a'. apply IH.
Qed.

Lemma rel_get k key s s' :
  similar k s s' →
  outcome_rel same_content (run memory_server (request (Get k key)) s).2
    (run memory_server (request (Get k key)) s').2.
Proof.
  intros Hs. rewrite !run_get. unfold get_result. specialize (Hs key). by destruct Hs.
Qed.

(** ** Inspected errors *)

Definition answer_rel {A B} (R : A → B → Prop) (a : answer A) (b : answer B) : Prop :=
  match a, b with
  | Success x, Success y => R x y
  | Failure e, Failure e' => e = e'
  | _, _ => False
  end.

Lemma rel_attempt {A B} (R : A → B → Prop) (p : prog A) (p' : prog B) s s' :
  outcome_rel R (run memory_server p s).2 (run memory_server p' s').2 →
  outcome_rel (answer_rel R) (run memory_server (attempt p) s).2
    (run memory_server (attempt p') s').2.
Proof.
  rewrite !run_attempt.
  destruct (run memory_server p s) as [[? ?] []], (run memory_server p' s') as [[? ?] []]; done.
Qed.

Lemma exec_attempt_Success {A} (p : prog A) s s' a :
  exec (attempt p) s s' (Success a) ↔ exec p s s' a.
Proof.
  rewrite !exec_run, run_attempt.
  destruct (run memory_server p s) as [[s1 t] [b|e|m]]; simpl; naive_solver.
Qed.

Lemma steady_attempt {A} (p : prog A) s a : steady p s a → steady (attempt p) s (Success a).
Proof. intros (t & Hp & Ht). exists t. by rewrite run_attempt, Hp. Qed.

#[export] Instance steady_quiet : Quiet (@steady).
Proof.
  split; [done|intros A; apply steady_attempt|]. intros A B p f s a b (t & Hp & Ht) Hf. eapply steady_bind; [by exists t|].
  apply Hf. by exists t.
Qed.

Lemma exec_attempt_update k (o old : obj k) s s' a :
  s k !! ObjectKeyFromObject o = Some old →
  exec (attempt (UpdateResource o)) s s' a → s' = store_put s o ∧ a = Success o.
Proof.
  intros Hold [<- Ha]%exec_run. revert Ha. rewrite run_attempt.
  change (run memory_server (UpdateResource o) s) with
    (run memory_server (request (Update k o)) s).
  rewrite run_request. cbn [memory_server]. rewrite Hold. cbn [fst snd answered].
  by intros [= <-].
Qed.

Lemma get_found k key s (x : obj k) :
  s k !! key = Some x → (memory_server s (Get k key)).2 = Success x.
Proof. simpl. by intros ->. Qed.

Lemma get_missing k key s :
  s k !! key = None →
  (memory_server s (Get k key)).2 = Failure (api_error ReasonNotFound "not found" key).
Proof. simpl. by intros ->. Qed.

(** [ReconcileResource] writes the object it is given and no other. *)
Lemma exec_ReconcileResource_frame k (desired : obj k) mutateFn s s' :
  store_wf s → keeps_key mutateFn → exec (ReconcileResource k desired mutateFn) s s' tt →
  ∀ key, key ≠ ObjectKeyFromObject desired → s' k !! key = s k !! key.
Proof.
  intros Hwf Hkey (s1 & found & [-> ->]%exec_attempt_get & Hex)%exec_bind key Hne.
  cbn [result_of] in Hex.
  destruct (s k !! ObjectKeyFromObject desired) as [o|] eqn:Ho; cbn beta iota in Hex.
  - destruct (IsObjectTaggedToDelete desired).
    + apply (exec_request (Delete k desired)) in Hex. cbn [memory_server] in Hex. rewrite Ho in Hex.
      injection Hex as <-. by rewrite store_delete_same, lookup_delete_ne.
    + apply exec_bind in Hex as (s1 & [o' b] & [-> Hm]%exec_Ret & Hex).
      apply Hkey in Hm as Hk. rewrite (Hwf _ _ _ Ho) in Hk. destruct b; cbn [fst snd] in Hex.
      * apply exec_bind in Hex as (s2 & r & [-> _]%exec_UpdateResource & [-> _]%exec_Ret).
        by rewrite store_put_same, Hk, lookup_insert_ne.
      * by apply exec_Ret in Hex as [-> _].
  - change (IsNotFound _) with true in Hex. cbn [negb] in Hex.
    destruct (IsObjectTaggedToDelete desired); cbn [negb] in Hex; [by apply exec_Ret in Hex as [-> _]|].
    apply exec_bind in Hex as (s2 & r & [-> _]%exec_CreateResource & [-> _]%exec_Ret).
    by rewrite store_put_same, lookup_insert_ne.
Qed.
