(* ===== verification/WasmJson.v ===== *)
(** * The configuration of the wasm filter and its JSON
      (pkg/rlptools/wasm_utils.go, apis/apim/v1alpha1/ratelimitpolicy_types.go)

    The configuration object, how its struct tags make it JSON, and the
    protobuf struct it is kept in, a third-party type behind an interface. *)
From S2P Require Import Prelude GoStrings KubeTypes JsonText JsonStruct.

Open Scope go_scope.

(** ** The configuration object *)

Record GatewayAction := {
  ga_Configurations : slice Configuration;
  ga_Rules : slice Rule
}.
#[export] Instance GatewayAction_eq_dec : EqDecision GatewayAction.
Proof. solve_decision. Defined.

Module Wasm.
Record RateLimitPolicy := {
  Name : string;
  RateLimitDomain : string;
  UpstreamCluster : string;
  Hostnames : slice string;
  GatewayActions : slice GatewayAction
}.
#[global] Instance RateLimitPolicy_eq_dec : EqDecision RateLimitPolicy.
Proof. solve_decision. Defined.

Record WASMPlugin := {
  FailureModeDeny : bool;
  RateLimitPolicies : slice RateLimitPolicy
}.
#[global] Instance WASMPlugin_eq_dec : EqDecision WASMPlugin.
Proof. solve_decision. Defined.
End Wasm.

(** ** Its JSON, by the struct tags *)

Definition rule_codec : codec Rule :=
  struct_codec "v1alpha1.Rule" {| Paths := None; Methods := None; Hosts := None |}
    (λ r, [("paths", omit_slice string_codec (Paths r));
           ("methods", omit_slice string_codec (Methods r));
           ("hosts", omit_slice string_codec (Hosts r))])
    (λ cur l,
       p <-? read_field (slice_codec string_codec) "paths" (Paths cur) l ;;
       m <-? read_field (slice_codec string_codec) "methods" (Methods cur) l ;;
       h <-? read_field (slice_codec string_codec) "hosts" (Hosts cur) l ;;
       Ok {| Paths := p; Methods := m; Hosts := h |}).

Definition generic_key_codec : codec GenericKeySpec :=
  struct_codec "v1alpha1.GenericKeySpec"
    {| gk_DescriptorValue := empty_string; gk_DescriptorKey := None |}
    (λ g, [("descriptor_value", Some (enc string_codec (gk_DescriptorValue g)));
           ("descriptor_key", omit_pointer string_codec (gk_DescriptorKey g))])
    (λ cur l,
       v <-? read_field string_codec "descriptor_value" (gk_DescriptorValue cur) l ;;
       k <-? read_field (pointer_codec string_codec) "descriptor_key" (gk_DescriptorKey cur) l ;;
       Ok {| gk_DescriptorValue := v; gk_DescriptorKey := k |}).

(** [MetadataPathSegment] holds one struct, [MetadataPathSegmentKey]. *)
Definition segment_key_codec : codec string :=
  struct_codec "v1alpha1.MetadataPathSegmentKey" empty_string
    (λ k, [("key", Some (enc string_codec k))])
    (λ cur l, k <-? read_field string_codec "key" cur l ;; Ok k).

Definition segment_codec : codec MetadataPathSegment :=
  struct_codec "v1alpha1.MetadataPathSegment" {| segment_Key := empty_string |}
    (λ s, [("segment", Some (enc segment_key_codec (segment_Key s)))])
    (λ cur l,
       k <-? read_field segment_key_codec "segment" (segment_Key cur) l ;;
       Ok {| segment_Key := k |}).

Definition metadata_key_codec : codec MetadataKeySpec :=
  struct_codec "v1alpha1.MetadataKeySpec" {| mk_Key := empty_string; mk_Path := None |}
    (λ m, [("key", Some (enc string_codec (mk_Key m)));
           ("path", Some (enc (slice_codec segment_codec) (mk_Path m)))])
    (λ cur l,
       k <-? read_field string_codec "key" (mk_Key cur) l ;;
       p <-? read_field (slice_codec segment_codec) "path" (mk_Path cur) l ;;
       Ok {| mk_Key := k; mk_Path := p |}).

Definition metadata_codec : codec MetadataSpec :=
  struct_codec "v1alpha1.MetadataSpec"
    {| md_DescriptorKey := empty_string; md_MetadataKey := zero metadata_key_codec;
       md_DefaultValue := None; md_Source := empty_string |}
    (λ m, [("descriptor_key", Some (enc string_codec (md_DescriptorKey m)));
           ("metadata_key", Some (enc metadata_key_codec (md_MetadataKey m)));
           ("default_value", omit_pointer string_codec (md_DefaultValue m));
           ("source", omit_string (md_Source m))])
    (λ cur l,
       d <-? read_field string_codec "descriptor_key" (md_DescriptorKey cur) l ;;
       k <-? read_field metadata_key_codec "metadata_key" (md_MetadataKey cur) l ;;
       v <-? read_field (pointer_codec string_codec) "default_value" (md_DefaultValue cur) l ;;
       s <-? read_field string_codec "source" (md_Source cur) l ;;
       Ok {| md_DescriptorKey := d; md_MetadataKey := k; md_DefaultValue := v;
             md_Source := s |}).

Definition remote_address_codec : codec unit :=
  struct_codec "v1alpha1.RemoteAddressSpec" tt (λ _, []) (λ cur _, Ok cur).

Definition request_headers_codec : codec RequestHeadersSpec :=
  struct_codec "v1alpha1.RequestHeadersSpec"
    {| rh_HeaderName := empty_string; rh_DescriptorKey := empty_string;
       rh_SkipIfAbsent := None |}
    (λ r, [("header_name", Some (enc string_codec (rh_HeaderName r)));
           ("descriptor_key", Some (enc string_codec (rh_DescriptorKey r)));
           ("skip_if_absent", omit_pointer bool_codec (rh_SkipIfAbsent r))])
    (λ cur l,
       n <-? read_field string_codec "header_name" (rh_HeaderName cur) l ;;
       d <-? read_field string_codec "descriptor_key" (rh_DescriptorKey cur) l ;;
       s <-? read_field (pointer_codec bool_codec) "skip_if_absent" (rh_SkipIfAbsent cur) l ;;
       Ok {| rh_HeaderName := n; rh_DescriptorKey := d; rh_SkipIfAbsent := s |}).

Definition action_codec : codec ActionSpecifier :=
  struct_codec "v1alpha1.ActionSpecifier"
    {| GenericKey := None; Metadata := None; RemoteAddress := None; RequestHeaders := None |}
    (λ a, [("generic_key", omit_pointer generic_key_codec (GenericKey a));
           ("metadata", omit_pointer metadata_codec (Metadata a));
           ("remote_address", omit_pointer remote_address_codec (RemoteAddress a));
           ("request_headers", omit_pointer request_headers_codec (RequestHeaders a))])
    (λ cur l,
       g <-? read_field (pointer_codec generic_key_codec) "generic_key" (GenericKey cur) l ;;
       m <-? read_field (pointer_codec metadata_codec) "metadata" (Metadata cur) l ;;
       a <-? read_field (pointer_codec remote_address_codec) "remote_address"
               (RemoteAddress cur) l ;;
       r <-? read_field (pointer_codec request_headers_codec) "request_headers"
               (RequestHeaders cur) l ;;
       Ok {| GenericKey := g; Metadata := m; RemoteAddress := a; RequestHeaders := r |}).

Definition configuration_codec : codec Configuration :=
  struct_codec "v1alpha1.Configuration" {| Actions := None |}
    (λ c, [("actions", Some (enc (slice_codec action_codec) (Actions c)))])
    (λ cur l,
       a <-? read_field (slice_codec action_codec) "actions" (Actions cur) l ;;
       Ok {| Actions := a |}).

Definition gateway_action_codec : codec GatewayAction :=
  struct_codec "rlptools.GatewayAction" {| ga_Configurations := None; ga_Rules := None |}
    (λ g, [("configurations", Some (enc (slice_codec configuration_codec) (ga_Configurations g)));
           ("rules", omit_slice rule_codec (ga_Rules g))])
    (λ cur l,
       c <-? read_field (slice_codec configuration_codec) "configurations"
               (ga_Configurations cur) l ;;
       r <-? read_field (slice_codec rule_codec) "rules" (ga_Rules cur) l ;;
       Ok {| ga_Configurations := c; ga_Rules := r |}).

Definition wasm_policy_codec : codec Wasm.RateLimitPolicy :=
  struct_codec "rlptools.RateLimitPolicy"
    {| Wasm.Name := empty_string; Wasm.RateLimitDomain := empty_string;
       Wasm.UpstreamCluster := empty_string; Wasm.Hostnames := None;
       Wasm.GatewayActions := None |}
    (λ p, [("name", Some (enc string_codec (Wasm.Name p)));
           ("rate_limit_domain", Some (enc string_codec (Wasm.RateLimitDomain p)));
           ("upstream_cluster", Some (enc string_codec (Wasm.UpstreamCluster p)));
           ("hostnames", Some (enc (slice_codec string_codec) (Wasm.Hostnames p)));
           ("gateway_actions", omit_slice gateway_action_codec (Wasm.GatewayActions p))])
    (λ cur l,
       n <-? read_field string_codec "name" (Wasm.Name cur) l ;;
       d <-? read_field string_codec "rate_limit_domain" (Wasm.RateLimitDomain cur) l ;;
       u <-? read_field string_codec "upstream_cluster" (Wasm.UpstreamCluster cur) l ;;
       h <-? read_field (slice_codec string_codec) "hostnames" (Wasm.Hostnames cur) l ;;
       a <-? read_field (slice_codec gateway_action_codec) "gateway_actions"
               (Wasm.GatewayActions cur) l ;;
       Ok {| Wasm.Name := n; Wasm.RateLimitDomain := d; Wasm.UpstreamCluster := u;
             Wasm.Hostnames := h; Wasm.GatewayActions := a |}).

Definition plugin_codec : codec Wasm.WASMPlugin :=
  struct_codec "rlptools.WASMPlugin"
    {| Wasm.FailureModeDeny := false; Wasm.RateLimitPolicies := None |}
    (λ w, [("failure_mode_deny", Some (enc bool_codec (Wasm.FailureModeDeny w)));
           ("rate_limit_policies",
             Some (enc (slice_codec wasm_policy_codec) (Wasm.RateLimitPolicies w)))])
    (λ cur l,
       f <-? read_field bool_codec "failure_mode_deny" (Wasm.FailureModeDeny cur) l ;;
       p <-? read_field (slice_codec wasm_policy_codec) "rate_limit_policies"
               (Wasm.RateLimitPolicies cur) l ;;
       Ok {| Wasm.FailureModeDeny := f; Wasm.RateLimitPolicies := p |}).

(** ** What comes back: empty slices that omitempty leaves out are [nil] *)

Definition canonical_rule (r : Rule) : Rule :=
  {| Paths := omit_empty (Paths r); Methods := omit_empty (Methods r);
     Hosts := omit_empty (Hosts r) |}.
Definition canonical_action (a : GatewayAction) : GatewayAction :=
  {| ga_Configurations := ga_Configurations a;
     ga_Rules := omit_empty (map canonical_rule <$> ga_Rules a) |}.
Definition canonical_policy (p : Wasm.RateLimitPolicy) : Wasm.RateLimitPolicy :=
  {| Wasm.Name := Wasm.Name p; Wasm.RateLimitDomain := Wasm.RateLimitDomain p;
     Wasm.UpstreamCluster := Wasm.UpstreamCluster p; Wasm.Hostnames := Wasm.Hostnames p;
     Wasm.GatewayActions := omit_empty (map canonical_action <$> Wasm.GatewayActions p) |}.
Definition canonical (w : Wasm.WASMPlugin) : Wasm.WASMPlugin :=
  {| Wasm.FailureModeDeny := Wasm.FailureModeDeny w;
     Wasm.RateLimitPolicies := map canonical_policy <$> Wasm.RateLimitPolicies w |}.

(** ** The codecs are good *)

#[export] Instance rule_codec_good : GoodCodec rule_codec canonical_rule.
Proof. by good_struct. Qed.
#[export] Instance generic_key_codec_good : GoodCodec generic_key_codec id.
Proof. good_struct. by destruct a. Qed.
#[export] Instance segment_key_codec_good : GoodCodec segment_key_codec id.
Proof. by good_struct. Qed.
#[export] Instance segment_codec_good : GoodCodec segment_codec id.
Proof. good_struct. by destruct a. Qed.
#[export] Instance metadata_key_codec_good : GoodCodec metadata_key_codec id.
Proof. good_struct. by destruct a. Qed.
#[export] Instance metadata_codec_good : GoodCodec metadata_codec id.
Proof. good_struct. by destruct a. Qed.
#[export] Instance remote_address_codec_good : GoodCodec remote_address_codec id.
Proof. good_struct. by destruct a. Qed.
#[export] Instance request_headers_codec_good : GoodCodec request_headers_codec id.
Proof. good_struct. by destruct a. Qed.
#[export] Instance action_codec_good : GoodCodec action_codec id.
Proof. good_struct. by destruct a. Qed.
#[export] Instance configuration_codec_good : GoodCodec configuration_codec id.
Proof. good_struct. by destruct a. Qed.
#[export] Instance gateway_action_codec_good : GoodCodec gateway_action_codec canonical_action.
Proof. by good_struct. Qed.
#[export] Instance wasm_policy_codec_good : GoodCodec wasm_policy_codec canonical_policy.
Proof. by good_struct. Qed.
#[export] Instance plugin_codec_good : GoodCodec plugin_codec canonical.
Proof. by good_struct. Qed.

#[export] Instance rule_codec_safe : SafeCodec rule_codec.
Proof. safe_struct. Qed.
#[export] Instance generic_key_codec_safe : SafeCodec generic_key_codec.
Proof. safe_struct. Qed.
#[export] Instance segment_key_codec_safe : SafeCodec segment_key_codec.
Proof. safe_struct. Qed.
#[export] Instance segment_codec_safe : SafeCodec segment_codec.
Proof. safe_struct. Qed.
#[export] Instance metadata_key_codec_safe : SafeCodec metadata_key_codec.
Proof. safe_struct. Qed.
#[export] Instance metadata_codec_safe : SafeCodec metadata_codec.
Proof. safe_struct. Qed.
#[export] Instance remote_address_codec_safe : SafeCodec remote_address_codec.
Proof. safe_struct. Qed.
#[export] Instance request_headers_codec_safe : SafeCodec request_headers_codec.
Proof. safe_struct. Qed.
#[export] Instance action_codec_safe : SafeCodec action_codec.
Proof. safe_struct. Qed.
#[export] Instance configuration_codec_safe : SafeCodec configuration_codec.
Proof. safe_struct. Qed.
#[export] Instance gateway_action_codec_safe : SafeCodec gateway_action_codec.
Proof. safe_struct. Qed.
#[export] Instance wasm_policy_codec_safe : SafeCodec wasm_policy_codec.
Proof. safe_struct. Qed.
#[export] Instance plugin_codec_safe : SafeCodec plugin_codec.
Proof. safe_struct. Qed.

(** ** Protobuf structs

    [google.protobuf.Struct] and its JSON methods are third-party code.  They
    are relied on for the JSON mapping of the type: a JSON object in which no
    name occurs twice becomes the struct with the same fields, kept by name,
    and a struct becomes some text of the same object. *)

Class StructCodec := {
  Struct_UnmarshalJSON : string → outcome PValue;
  Struct_MarshalJSON : PValue → outcome string
}.

Fixpoint value_of_json (j : json) : PValue :=
  match j with
  | JNull => PNull
  | JBool b => PBool b
  | JNumber n => PNumber n
  | JString s => PString s
  | JArray l => PList (map value_of_json l)
  | JObject l => PStruct (map (λ '(k, v), (k, value_of_json v)) l)
  end.

Fixpoint json_of_value (v : PValue) : json :=
  match v with
  | PNull => JNull
  | PBool b => JBool b
  | PNumber n => JNumber n
  | PString s => JString s
  | PList l => JArray (map json_of_value l)
  | PStruct l => JObject (map (λ '(k, v), (k, json_of_value v)) l)
  end.

Definition is_object (j : json) : bool := match j with JObject _ => true | _ => false end.

Class StructCodecOk {SC : StructCodec} := {
  Struct_UnmarshalJSON_ok s j :
    parse_json s = Some j → is_object j = true → plain_json j = true →
    Struct_UnmarshalJSON s = Ok (value_of_json (sort_json j));
  Struct_MarshalJSON_ok j :
    is_object j = true → plain_json j = true →
    ∃ s, Struct_MarshalJSON (value_of_json (sort_json j)) = Ok s ∧
         parse_json s = Some (sort_json j)
}.

(** One implementation, which writes compact text. *)
#[export] Instance compact_struct_codec : StructCodec | 100 := {|
  Struct_UnmarshalJSON s :=
    match parse_json s with
    | Some (JObject l) => Ok (value_of_json (sort_json (JObject l)))
    | _ => Err (ErrText "not a JSON object")
    end;
  Struct_MarshalJSON v := Ok (print_json (json_of_value v))
|}.

Lemma json_of_value_of_json j : json_of_value (value_of_json j) = j.
Proof.
  induction j as [| | | |l IH|l IH] using json_nested_ind; simpl; try done; f_equal;
    rewrite map_map.
  - induction IH as [|j l Hj _ IH]; [done|]. simpl. by rewrite Hj, IH.
  - induction IH as [|[k j] l Hj _ IH]; [done|]. simpl in *. by rewrite Hj, IH.
Qed.

#[export] Instance compact_struct_codec_ok : @StructCodecOk compact_struct_codec.
Proof.
  split; cbn.
  - intros s j -> Ho _. by destruct j.
  - intros j _ Hp. eexists. split; [done|]. rewrite json_of_value_of_json.
    by apply parse_print_json, plain_no_numbers, sort_json_plain.
Qed.
