(* ===== verification/WasmConfig.v ===== *)
(** * Configuration of the wasm filter and of the Envoy cluster
      (pkg/rlptools/wasm_utils.go, pkg/istio/envoy_filters.go)

    The actions a policy contributes to a gateway, the configuration object of
    the wasm filter with its conversion from and to a protobuf struct, and the
    mutators of the Istio objects. *)
From stdpp Require Import pretty.
From S2P Require Import Prelude GoStrings KubeTypes CommonUtils RouteRules PolicyTypes.
From S2P Require Import JsonText JsonStruct WasmJson Client BaseReconciler.

Open Scope go_scope.

(** ** Actions *)

Definition HTTPRouteRulesToRLPRules (httpRouteRules : list HTTPRouteRule) : list Rule :=
  foldl (λ rlpRules r,
    rlpRules ++ [{| Paths := slice_append None (elems (hr_Paths r));
                    Methods := slice_append None (elems (hr_Methods r));
                    Hosts := slice_append None (elems (hr_Hosts r)) |}]) [] httpRouteRules.

Definition GatewayActionsFromRateLimitPolicy (rlp : option RateLimitPolicy)
    (route : option HTTPRoute) : list GatewayAction :=
  match rlp with
  | None => []
  | Some rlp =>
      foldl (λ flattenActions rl,
        let rules :=
          if bool_decide (is_Some route) && (length (elems (Rules rl)) =? 0)%nat
          then Some (HTTPRouteRulesToRLPRules (elems (RulesFromHTTPRoute route)))
          else Rules rl in
        flattenActions ++ [{| ga_Configurations := Configurations rl; ga_Rules := rules |}])
        [] (elems (RateLimits (spec rlp)))
  end.

#[global] Arguments RulesFromHTTPRoute : simpl never.
#[global] Arguments HTTPRouteRulesToRLPRules : simpl never.
#[global] Arguments GatewayActionsFromRateLimitPolicy : simpl never.

(** [EnvoyFilter_Patch.UnmarshalJSON] on the JSON text of a value. *)
Class PatchCodec := unmarshal_patch : PValue → outcome PValue.

(** The dynamic type of an object, as [%T] prints it. *)
Definition type_name (k : Kind) : string :=
  match k with
  | KGateway => "*v1alpha2.Gateway" | KHTTPRoute => "*v1alpha2.HTTPRoute"
  | KRateLimitPolicy => "*v1alpha1.RateLimitPolicy" | KAuthPolicy => "*v1alpha1.AuthPolicy"
  | KLimitador => "*v1alpha1.Limitador" | KWasmPlugin => "*v1alpha1.WasmPlugin"
  | KEnvoyFilter => "*v1alpha3.EnvoyFilter"
  | KAuthorizationPolicy => "*v1beta1.AuthorizationPolicy"
  | KAuthConfig => "*v1beta1.AuthConfig" | KService => "*v1.Service"
  end.

Section code.
Context `{StructCodec}.

Definition ToStruct (w : Wasm.WASMPlugin) : outcome PValue :=
  wasmPluginJSON <-? json_marshal plugin_codec w ;;
  pluginConfigStruct <-? Struct_UnmarshalJSON wasmPluginJSON ;;
  Ok pluginConfigStruct.

Definition WASMPluginFromStruct (structure : option PValue) : outcome Wasm.WASMPlugin :=
  match structure with
  | None => Err (ErrText "cannot desestructure WASMPlugin from nil")
  | Some structure =>
      configJSON <-? Struct_MarshalJSON structure ;;
      wasmPlugin <-? json_unmarshal plugin_codec configJSON ;;
      Ok wasmPlugin
  end.

(** [existing.Spec.PluginConfig = c] *)
Definition set_PluginConfig (wp : WasmPlugin) (c : option PValue) : WasmPlugin :=
  set_spec wp {| wp_Selector := wp_Selector (spec wp); wp_Url := wp_Url (spec wp);
                 wp_PluginConfig := c; wp_Phase := wp_Phase (spec wp) |}.

(** The part after the type assertions. *)
Definition mutate_wasm_plugin (existing desired : WasmPlugin) : outcome (WasmPlugin * bool) :=
  existingWASMPlugin <-? WASMPluginFromStruct (wp_PluginConfig (spec existing)) ;;
  desiredWASMPlugin <-? WASMPluginFromStruct (wp_PluginConfig (spec desired)) ;;
  if decide (desiredWASMPlugin = existingWASMPlugin) then Ok (existing, false)
  else Ok (set_PluginConfig existing (wp_PluginConfig (spec desired)), true).

Definition WASMPluginMutator : MutateFn := λ ke kd,
  match ke return obj ke → obj kd → outcome (obj ke * bool) with
  | KWasmPlugin =>
      match kd return obj KWasmPlugin → obj kd → outcome (obj KWasmPlugin * bool) with
      | KWasmPlugin => mutate_wasm_plugin
      | kd => λ _ _, Err (ErrText (type_name kd +:+
                       " is not a *istioclientgoextensionv1alpha1.WasmPlugin"))
      end
  | ke => λ _ _, Err (ErrText (type_name ke +:+
                   " is not a *istioclientgoextensionv1alpha1.WasmPlugin"))
  end.
End code.

#[global] Arguments ToStruct {_} _ : simpl never.
#[global] Arguments WASMPluginFromStruct {_} _ : simpl never.

(** ** The Envoy cluster of Limitador *)

(** The JSON object of the patch. *)
Definition limitador_cluster_value (limitadorSvcHost : string) (limitadorGRPCPort : Z) : PValue :=
  PStruct
    [("operation", PString "ADD");
     ("value", PStruct
       [("name", PString KuadrantRateLimitClusterName);
        ("type", PString "STRICT_DNS");
        ("connect_timeout", PString "1s");
        ("lb_policy", PString "ROUND_ROBIN");
        ("http2_protocol_options", PStruct []);
        ("load_assignment", PStruct
          [("cluster_name", PString KuadrantRateLimitClusterName);
           ("endpoints", PList [PStruct
             [("lb_endpoints", PList [PStruct
               [("endpoint", PStruct
                 [("address", PStruct
                   [("socket_address", PStruct
                     [("address", PString limitadorSvcHost);
                      ("port_value", PNumber (pretty limitadorGRPCPort))])])])]])]])])])].

Definition LimitadorClusterPatch `{PatchCodec} (limitadorSvcHost : string)
    (limitadorGRPCPort : Z) : outcome (list EnvoyConfigObjectPatch) :=
  patch <-? unmarshal_patch (limitador_cluster_value limitadorSvcHost limitadorGRPCPort) ;;
  Ok [{| ep_ApplyTo := "CLUSTER"; ep_MatchClusterService := limitadorSvcHost;
         ep_Patch := patch |}].

Definition AlwaysUpdateEnvoyFilter : MutateFn := λ ke kd,
  match ke return obj ke → obj kd → outcome (obj ke * bool) with
  | KEnvoyFilter =>
      match kd return obj KEnvoyFilter → obj kd → outcome (obj KEnvoyFilter * bool) with
      | KEnvoyFilter => λ existing desired,
          Ok (set_spec existing
                {| ef_WorkloadSelector := ef_WorkloadSelector (spec desired);
                   ef_ConfigPatches := ef_ConfigPatches (spec desired);
                   ef_Priority := ef_Priority (spec desired) |}, true)
      | kd => λ _ _, Err (ErrText (type_name kd +:+
                       " is not a *istionetworkingv1alpha3.EnvoyFilter"))
      end
  | ke => λ _ _, Err (ErrText (type_name ke +:+
                   " is not a *istionetworkingv1alpha3.EnvoyFilter"))
  end.

(** ** Lemmas *)

Lemma HTTPRouteRulesToRLPRules_fmap l :
  HTTPRouteRulesToRLPRules l =
  (λ r, {| Paths := slice_append None (elems (hr_Paths r));
           Methods := slice_append None (elems (hr_Methods r));
           Hosts := slice_append None (elems (hr_Hosts r)) |}) <$> l.
Proof.
  unfold HTTPRouteRulesToRLPRules.
  rewrite (foldl_app_bind _ (λ r, [{| Paths := slice_append None (elems (hr_Paths r));
    Methods := slice_append None (elems (hr_Methods r));
    Hosts := slice_append None (elems (hr_Hosts r)) |}])) by done.
  simpl. induction l as [|r l IH]; [done|]. by rewrite bind_cons, IH.
Qed.

(** The action of one rate limit of a policy. *)
Definition action_of (route : option HTTPRoute) (rl : RateLimit) : GatewayAction :=
  {| ga_Configurations := Configurations rl;
     ga_Rules := match route with
                 | Some r => match elems (Rules rl) with
                             | [] => Some (HTTPRouteRulesToRLPRules
                                             (elems (RulesFromHTTPRoute (Some r))))
                             | _ => Rules rl
                             end
                 | None => Rules rl
                 end |}.

Lemma GatewayActions_fmap rlp route :
  GatewayActionsFromRateLimitPolicy (Some rlp) route =
  action_of route <$> elems (RateLimits (spec rlp)).
Proof.
  unfold GatewayActionsFromRateLimitPolicy.
  rewrite (foldl_app_bind _ (λ rl, [action_of route rl])).
  - simpl. induction (elems (RateLimits (spec rlp))) as [|rl l IH]; [done|].
    by rewrite bind_cons, IH.
  - intros acc rl. unfold action_of. destruct route; simpl; [|done].
    by destruct (elems (Rules rl)).
Qed.

Lemma mutate_wasm_plugin_key `{StructCodec} e d e' b :
  mutate_wasm_plugin e d = Ok (e', b) → ObjectKeyFromObject e' = ObjectKeyFromObject e.
Proof.
  unfold mutate_wasm_plugin.
  destruct (WASMPluginFromStruct (wp_PluginConfig (spec e))) as [we| |]; try done.
  destruct (WASMPluginFromStruct (wp_PluginConfig (spec d))) as [wd| |]; try done.
  cbn [outcome_bind]. by destruct (decide (wd = we)); intros [= <- <-].
Qed.

Lemma WASMPluginMutator_keeps_key `{StructCodec} : keeps_key WASMPluginMutator.
Proof.
  intros ke kd e d e' b. destruct ke; try done. destruct kd; try done.
  apply mutate_wasm_plugin_key.
Qed.

Lemma AlwaysUpdateEnvoyFilter_keeps_key : keeps_key AlwaysUpdateEnvoyFilter.
Proof.
  intros ke kd e d e' b. destruct ke; try done. destruct kd; try done. simpl.
  intros Heq%outcome_Ok_inj%(f_equal fst). simpl in Heq. by rewrite <- Heq.
Qed.

#[export] Hint Resolve WASMPluginMutator_keeps_key AlwaysUpdateEnvoyFilter_keeps_key : kuadrant.

Section codec_lemmas.
Context `{StructCodecOk}.

Lemma ToStruct_eq w : ToStruct w = Ok (value_of_json (sort_json (enc plugin_codec w))).
Proof.
  unfold ToStruct. cbn [json_marshal outcome_bind].
  rewrite (Struct_UnmarshalJSON_ok _ (enc plugin_codec w)); [done| |done|apply enc_plain].
  by apply (parse_marshalled plugin_codec canonical w).
Qed.

(** The round trip of the configuration through the protobuf struct. *)
Lemma ToStruct_FromStruct w v :
  ToStruct w = Ok v → WASMPluginFromStruct (Some v) = Ok (canonical w).
Proof.
  rewrite ToStruct_eq. intros Hv%outcome_Ok_inj. subst v. unfold WASMPluginFromStruct.
  destruct (Struct_MarshalJSON_ok (enc plugin_codec w) eq_refl (enc_plain w)) as (s & Hs & Hp).
  rewrite Hs. cbn [outcome_bind].
  by rewrite (json_unmarshal_arranged plugin_codec canonical true w s Hp).
Qed.
End codec_lemmas.

(** ** Properties *)

(** A gateway action for each rate limit of the policy, in order, with its
    configurations; rules given by the policy are kept, and a rate limit
    without rules gets those of the route, at least one, when a route is
    given. *)
Theorem GatewayActions_default_rules (rlp : RateLimitPolicy) (route : HTTPRoute) :
  let rls := elems (RateLimits (spec rlp)) in
  let with_route := GatewayActionsFromRateLimitPolicy (Some rlp) (Some route) in
  let without := GatewayActionsFromRateLimitPolicy (Some rlp) None in
  (ga_Configurations <$> with_route = Configurations <$> rls) ∧
  (ga_Configurations <$> without = Configurations <$> rls) ∧
  (ga_Rules <$> without = Rules <$> rls) ∧
  Forall (λ a, elems (ga_Rules a) ≠ []) with_route ∧
  Forall2 (λ rl a, elems (Rules rl) ≠ [] → ga_Rules a = Rules rl) rls with_route.
Proof.
  cbv zeta. rewrite !GatewayActions_fmap, <- !list_fmap_compose.
  split; [done|]. split; [done|]. split; [done|]. split.
  - apply Forall_fmap, Forall_true. intros rl. simpl.
    destruct (elems (Rules rl)) eqn:Hr; [|by rewrite Hr].
    simpl. rewrite HTTPRouteRulesToRLPRules_fmap, RulesFromHTTPRoute_elems.
    by destruct (rule_of_match route <$> _).
  - apply Forall2_fmap_r, Forall_Forall2_diag, Forall_true. intros rl Hr. simpl.
    by destruct (elems (Rules rl)).
Qed.

(** The mutator of wasm plugins on configurations made by [ToStruct]:
    it updates exactly when the two objects differ by more than omitted empty
    lists, the update installs the desired configuration and nothing else,
    and a second pass finds nothing to do. *)
Theorem WASMPluginMutator_settles (SC : StructCodec) (SCok : StructCodecOk)
    (we wd : Wasm.WASMPlugin) (ve vd : PValue) (existing desired : WasmPlugin)
    (He : ToStruct we = Ok ve) (Hd : ToStruct wd = Ok vd)
    (Hce : wp_PluginConfig (spec existing) = Some ve)
    (Hcd : wp_PluginConfig (spec desired) = Some vd) :
  ∃ o' b, WASMPluginMutator KWasmPlugin KWasmPlugin existing desired = Ok (o', b) ∧
    (b = true ↔ canonical we ≠ canonical wd) ∧
    (o' = if b then set_PluginConfig existing (Some vd) else existing) ∧
    WASMPluginMutator KWasmPlugin KWasmPlugin o' desired = Ok (o', false).
Proof.
  pose proof (ToStruct_FromStruct we ve He) as Hwe. pose proof (ToStruct_FromStruct wd vd Hd) as Hwd.
  simpl. unfold mutate_wasm_plugin. rewrite Hce, Hcd, Hwe, Hwd. simpl.
  destruct (decide (canonical wd = canonical we)) as [Heq|Hne].
  - exists existing, false. rewrite Hce, Hwe. simpl. rewrite decide_True by done.
    split; [done|]. split; [|done]. split; [done|]. by intros [].
  - exists (set_PluginConfig existing (Some vd)), true. simpl. rewrite Hwd. simpl.
    rewrite decide_True by done. split; [done|]. split; [|done]. split; [|done].
    intros _ Heq. by apply Hne.
Qed.

Lemma canonical_idempotent w : canonical (canonical w) = canonical w.
Proof.
  assert (∀ r, canonical_rule (canonical_rule r) = canonical_rule r) as Hr.
  { intros [p m h]. unfold canonical_rule. simpl. by rewrite !omit_empty_idempotent. }
  assert (∀ a, canonical_action (canonical_action a) = canonical_action a) as Ha.
  { intros [c r]. unfold canonical_action. simpl. by rewrite omit_empty_map. }
  assert (∀ p, canonical_policy (canonical_policy p) = canonical_policy p) as Hp.
  { intros [n d u h a]. unfold canonical_policy. simpl. by rewrite omit_empty_map. }
  destruct w as [f [l|]]; [|done]. unfold canonical. simpl. do 2 f_equal.
  rewrite map_map. by apply map_ext.
Qed.

(** C33: every configuration can be written to the protobuf struct of a
    WasmPlugin and read back; what comes back is the configuration with its
    empty optional lists left out, which is all that is lost: reading is stable
    from then on, and two configurations with one struct differ only there. *)
Theorem plugin_config_roundtrip (SC : StructCodec) (SCok : StructCodecOk) (w : Wasm.WASMPlugin) :
  ∃ v, ToStruct w = Ok v ∧ WASMPluginFromStruct (Some v) = Ok (canonical w) ∧
       canonical (canonical w) = canonical w ∧
       ∀ w', ToStruct w' = Ok v → canonical w' = canonical w.
Proof.
  eexists. split; [apply ToStruct_eq|]. pose proof (ToStruct_FromStruct w _ (ToStruct_eq w)) as Hw.
  split; [exact Hw|]. split; [apply canonical_idempotent|].
  intros w' Hw'%ToStruct_FromStruct. rewrite Hw in Hw'. by apply outcome_Ok_inj in Hw'.
Qed.

Definition sample_plugin (b : bool) : Wasm.WASMPlugin :=
  {| Wasm.FailureModeDeny := b; Wasm.RateLimitPolicies := Some [] |}.
Definition sample_wasm (v : PValue) : WasmPlugin :=
  Build_object (new_meta "kuadrant-gw" "istio-system")
    {| wp_Selector := ∅; wp_Url := "oci://shim"; wp_PluginConfig := Some v;
       wp_Phase := "STATS" |} tt.
Definition plugin_value (b : bool) : PValue :=
  value_of_json (sort_json (enc plugin_codec (sample_plugin b))).

Lemma WASMPluginMutator_settles_witness :
  ∃ o' b, WASMPluginMutator KWasmPlugin KWasmPlugin
    (sample_wasm (plugin_value false)) (sample_wasm (plugin_value true)) = Ok (o', b) ∧
    (b = true ↔ canonical (sample_plugin false) ≠ canonical (sample_plugin true)).
Proof.
  destruct (WASMPluginMutator_settles compact_struct_codec compact_struct_codec_ok
    (sample_plugin false) (sample_plugin true) (plugin_value false) (plugin_value true)
    (sample_wasm (plugin_value false)) (sample_wasm (plugin_value true))
    eq_refl eq_refl eq_refl eq_refl) as (o' & b & H1 & H2 & _).
  exists o', b. split; [exact H1|exact H2].
Defined.

(** A policy with an action that has an empty list of rules: it comes back
    without the list. *)
Definition sample_config (rules : slice Rule) : Wasm.WASMPlugin :=
  {| Wasm.FailureModeDeny := true;
     Wasm.RateLimitPolicies := Some
       [{| Wasm.Name := "*.toystore.com"; Wasm.RateLimitDomain := "istio-system/gw#*";
           Wasm.UpstreamCluster := KuadrantRateLimitClusterName;
           Wasm.Hostnames := Some ["*.toystore.com"];
           Wasm.GatewayActions := Some [{| ga_Configurations := None; ga_Rules := rules |}] |}] |}.

Lemma plugin_config_roundtrip_witness :
  ∃ v, ToStruct (sample_config (Some [])) = Ok v ∧
       WASMPluginFromStruct (Some v) = Ok (sample_config None).
Proof.
  destruct (plugin_config_roundtrip compact_struct_codec compact_struct_codec_ok
    (sample_config (Some []))) as (v & Hv & Hr & _).
  exists v. split; [exact Hv|exact Hr].
Defined.
