(* ===== verification/Samples.v ===== *)
(** * A sample cluster

    One gateway, one route behind it, a policy with one limit for the route and
    a Limitador object: the concrete inputs of the witnesses about whole
    reconciliations. *)
From S2P Require Import Prelude GoStrings KubeTypes RouteRules PolicyTypes LimitIndex.
From S2P Require Import Json GatewayRefs Client BaseReconciler Apimachinery TargetRef WasmConfig.

Definition cluster_gateway : Gateway := sample_gateway None.

Definition cluster_policy : RateLimitPolicy :=
  Build_object (new_meta "rlp" "ns")
    {| rlp_TargetRef := sample_target;
       RateLimits := Some [{| Configurations := None; Rules := None;
                              Limits := Some [empty_limit] |}] |}
    {| rlp_ObservedGeneration := 0; rlp_Conditions := []; GatewaysRateLimits := None |}.

(** A policy that is being deleted and still has its finalizer. *)
Definition terminating (finalizer : string) (m : ObjectMeta) : ObjectMeta :=
  {| meta_Name := meta_Name m; meta_Namespace := meta_Namespace m;
     meta_UID := meta_UID m;
     meta_ResourceVersion := meta_ResourceVersion m; meta_OwnerReferences := meta_OwnerReferences m;
     meta_Labels := meta_Labels m; meta_Annotations := meta_Annotations m;
     meta_Finalizers := [finalizer]; meta_Generation := meta_Generation m;
     meta_DeletionTimestamp := Some 1%Z |}.

Definition cluster_route : HTTPRoute :=
  let parent := {| parent_Group := None; parent_Kind := None;
                   parent_Namespace := Some "istio-system"; parent_Name := "gw";
                   parent_SectionName := None |} in
  Build_object (new_meta "route" "ns")
    {| ParentRefs := [parent]; Hostnames_ := ["api.com"]; route_Rules := [] |}
    {| Parents := [{| rps_ParentRef := parent;
                      rps_Conditions :=
                        [{| cond_Type := "Accepted"; cond_Status := "True";
                            cond_ObservedGeneration := 0; cond_LastTransitionTime := 0;
                            cond_Reason := "Accepted"; cond_Message := empty_string |}] |}] |}.

Definition cluster : store :=
  store_put (store_put (store_put (store_put (store_put empty_store
    (k:=KGateway) cluster_gateway)
    (k:=KHTTPRoute) cluster_route)
    (k:=KRateLimitPolicy) cluster_policy)
    (k:=KAuthPolicy) sample_ap)
    (k:=KLimitador) (sample_limitador []).

Lemma cluster_wf : store_wf cluster.
Proof. repeat apply store_put_wf. by intros k key o. Qed.

(** An environment in which no variable is set. *)
Definition no_environment (name : string) : option string := None.

(** A patch conversion that keeps the value as it is. *)
Definition plain_patch : PatchCodec := λ v, Ok v.
