(* ===== verification/RateLimitLimits.v ===== *)
(** * Limits of a gateway and the Limitador object
      (controllers/apim/ratelimitpolicy_limits.go, pkg/rlptools/limitador_utils.go)

    The limits a gateway's policies define, by domain, and the update of the
    Limitador object. *)
From S2P Require Import Prelude GoStrings KubeTypes CommonUtils RouteRules PolicyTypes.
From S2P Require Import LimitIndex Json GatewayRefs Client Apimachinery.
From S2P Require Import BaseReconciler TargetRef WasmConfig Samples.

Open Scope go_scope.

(** ** The code *)

(** The process environment ([os.LookupEnv]). *)
Class Environment := lookup_env : string → option string.

(** The gateways a reconciliation works on (ratelimitpolicy_controller.go). *)
Record gatewayDiff := {
  gd_New : list GatewayWrapper;
  gd_Same : list GatewayWrapper;
  gd_Left : list GatewayWrapper
}.

(** [m[key] = append(m[key], l...)] *)
Definition append_at {V} (m : gmap string (list V)) (key : string) (l : list V) :
  gmap string (list V) := <[key:=default [] (m !! key) ++ l]> m.

Definition mergeLimits (routeRLP : RateLimitPolicy) (gwRLP : option RateLimitPolicy) : list Limit :=
  let limits := RLP.FlattenLimits routeRLP in
  match gwRLP with
  | None => limits
  | Some gwRLP => limits ++ RLP.FlattenLimits gwRLP
  end.

Section code.
Context `{Apimachinery, Environment, RefCodec, MapRange, GoSort}.

Definition LimitadorNamespace : string :=
  FetchEnv lookup_env "LIMITADOR_NAMESPACE" KuadrantNamespace.
Definition LimitadorName : string := FetchEnv lookup_env "LIMITADOR_NAME" "limitador".
Definition limitadorKey : ObjectKey :=
  {| Name := LimitadorName; Namespace := LimitadorNamespace |}.

(** [%v] of a slice of keys *)
Definition fmt_keys (keys : list ObjectKey) : string :=
  "[" +:+ Join (key_String <$> keys) " " +:+ "]".

(** The loop that [gatewayLimits] and [wasmPluginConfig] share: the policies
    that target routes, and the one that targets the gateway. *)
Definition load_policy (who : string) (rlpRefs : list ObjectKey)
    (st : list RateLimitPolicy * option RateLimitPolicy) (rlpKey : ObjectKey) :
  prog (list RateLimitPolicy * option RateLimitPolicy) :=
  rlp <-- get_policy rlpKey ;;
  if IsTargetRefHTTPRoute (rlp_TargetRef (spec rlp)) then ret (st.1 ++ [rlp], st.2)
  else if IsTargetRefGateway (rlp_TargetRef (spec rlp)) then
    match st.2 with
    | None => ret (st.1, Some rlp)
    | Some _ => fail (ErrText (who +:+
        ": multiple gateway RLP found and only one expected. rlp keys: " +:+ fmt_keys rlpRefs))
    end
  else ret st.

Definition load_policies (who : string) (rlpRefs : list ObjectKey) :
  prog (list RateLimitPolicy * option RateLimitPolicy) :=
  loop (load_policy who rlpRefs) ([], None) rlpRefs.

(** Limits of the gateway level policy for each host name of the gateway. *)
Definition gateway_level_limits (gw : GatewayWrapper) (gwRLP : option RateLimitPolicy) :
  LimitsByDomain :=
  match gwRLP with
  | None => ∅
  | Some gwRLP =>
      if (length (Hostnames gw) =? 0)%nat then append_at ∅ "*" (RLP.FlattenLimits gwRLP)
      else foldl (λ limits gwHostname, append_at limits gwHostname (RLP.FlattenLimits gwRLP))
             ∅ (Hostnames gw)
  end.

Definition add_route_limits (gwRLP : option RateLimitPolicy) (limits : LimitsByDomain)
    (httpRouteRLP : RateLimitPolicy) : prog LimitsByDomain :=
  httpRoute <-- FetchValidHTTPRoute (RLP.TargetKey httpRouteRLP) ;;
  let mergedLimits := mergeLimits httpRouteRLP gwRLP in
  ret (foldl (λ limits hostname, append_at limits hostname mergedLimits)
         limits (Hostnames_ (spec httpRoute))).

Definition gatewayLimits (gw : GatewayWrapper) (rlpRefs : list ObjectKey) :
  prog LimitsByDomain :=
  policies <-- load_policies "gatewayLimits" rlpRefs ;;
  let '(routeRLPList, gwRLP) := policies in
  loop (add_route_limits gwRLP) (gateway_level_limits gw gwRLP) routeRLPList.

(** The body of the loops over same and new gateways. *)
Definition replace_limits (refs : GatewayWrapper → list ObjectKey) (limitIdx : LimitIndex)
    (gw : GatewayWrapper) : prog LimitIndex :=
  gwLimits <-- gatewayLimits gw (refs gw) ;;
  ret (AddGatewayLimits (DeleteGateway limitIdx (Key gw)) (Key gw) gwLimits).

Definition reconcileLimits (rlp : RateLimitPolicy) (gwDiffObj : gatewayDiff) : prog unit :=
  limitador <-- get_limitador limitadorKey ;;
  let limitIdx := NewLimitadorIndex (Some limitador) in
  let limitIdx := foldl (λ limitIdx leftGateway, DeleteGateway limitIdx (Key leftGateway))
                    limitIdx (gd_Left gwDiffObj) in
  limitIdx <-- loop (replace_limits RLPRefs) limitIdx (gd_Same gwDiffObj) ;;
  limitIdx <-- loop (replace_limits (λ g, RLPRefs g ++ [ObjectKeyFromObject rlp]))
                 limitIdx (gd_New gwDiffObj) ;;
  let originalLimitIndex := NewLimitadorIndex (Some limitador) in
  let equalIndexes := LI.Equals originalLimitIndex (Some limitIdx) in
  if negb equalIndexes then
    UpdateResource (k:=KLimitador) (with_limits limitador (ToLimits limitIdx)) ;;; ret tt
  else ret tt.
End code.

(** ** Lemmas *)

(** The calls of [reconcileLimits]. *)
Definition limits_calls (c : call) : Prop :=
  match c with
  | Get (KRateLimitPolicy | KHTTPRoute | KLimitador) _ | Update KLimitador _ => True
  | _ => False
  end.

Section emits_lemmas.
Context `{Apimachinery, Environment, RefCodec, MapRange, GoSort}.
Context (P : call → Prop).
Context (HP : ∀ key, P (Get KRateLimitPolicy key)) (HR : ∀ key, P (Get KHTTPRoute key)).

Lemma emits_load_policies who keys : emits P (load_policies who keys).
Proof. unfold load_policies, load_policy. emits_auto. Qed.
Hint Resolve emits_load_policies emits_FetchValidHTTPRoute : kuadrant.

Lemma emits_gatewayLimits gw refs : emits P (gatewayLimits gw refs).
Proof. unfold gatewayLimits, add_route_limits. emits_auto. Qed.
Hint Resolve emits_gatewayLimits : kuadrant.

Lemma emits_reconcileLimits rlp d :
  (∀ key, P (Get KLimitador key)) → (∀ o, P (Update KLimitador o)) →
  emits P (reconcileLimits rlp d).
Proof. intros HL HU. unfold reconcileLimits, replace_limits. emits_auto. Qed.
End emits_lemmas.

(** [l] once for every occurrence of [d]. *)
Definition occurrences (d : string) (hosts : list string) (l : list Limit) : list Limit :=
  hosts ≫= (λ h, if decide (h = d) then l else []).

Lemma append_at_lookup (m : LimitsByDomain) h l d :
  default [] (append_at m h l !! d) = default [] (m !! d) ++ (if decide (h = d) then l else []).
Proof.
  unfold append_at. destruct (decide (h = d)) as [->|Hd].
  - by rewrite lookup_insert_eq.
  - by rewrite lookup_insert_ne, app_nil_r.
Qed.

Lemma append_all_lookup hosts (m : LimitsByDomain) l d :
  default [] (foldl (λ m h, append_at m h l) m hosts !! d) =
  default [] (m !! d) ++ occurrences d hosts l.
Proof.
  revert m. induction hosts as [|h hosts IH]; intros m; cbn [foldl].
  - simpl. by rewrite app_nil_r.
  - rewrite IH, append_at_lookup, <- app_assoc. done.
Qed.

(** The limits a policy declares, over all its rate limits. *)
Definition declared_limits (r : RateLimitPolicy) : list Limit :=
  elems (RateLimits (spec r)) ≫= (λ rl, elems (Limits rl)).

Lemma FlattenLimits_declared r : RLP.FlattenLimits r = declared_limits r.
Proof. unfold RLP.FlattenLimits, declared_limits. by rewrite (foldl_app_bind _ (λ rl, elems (Limits rl))). Qed.

(** The limits of a policy targeting the gateway. *)
Definition gateway_part (gw : GatewayWrapper) (gwRLP : option RateLimitPolicy) (d : string) :
  list Limit :=
  match gwRLP with
  | None => []
  | Some r => occurrences d (or_any (Hostnames gw)) (declared_limits r)
  end.

(** The limits of a policy targeting the route of the pair. *)
Definition route_part (gwRLP : option RateLimitPolicy) (d : string)
    (pr : RateLimitPolicy * HTTPRoute) : list Limit :=
  occurrences d (Hostnames_ (spec pr.2))
    (declared_limits pr.1 ++ from_option declared_limits [] gwRLP).

Lemma mergeLimits_declared r gwRLP :
  mergeLimits r gwRLP = declared_limits r ++ from_option declared_limits [] gwRLP.
Proof.
  unfold mergeLimits. rewrite FlattenLimits_declared.
  destruct gwRLP; simpl; by rewrite ?FlattenLimits_declared, ?app_nil_r.
Qed.

Lemma gateway_level_limits_lookup gw gwRLP d :
  default [] (gateway_level_limits gw gwRLP !! d) = gateway_part gw gwRLP d.
Proof.
  unfold gateway_level_limits, gateway_part. destruct gwRLP as [r|]; [|by rewrite lookup_empty].
  destruct (Hostnames gw) as [|h hs] eqn:Hh; cbn [length Nat.eqb or_any].
  - rewrite append_at_lookup, lookup_empty, FlattenLimits_declared. unfold occurrences. simpl.
    by rewrite app_nil_r.
  - by rewrite append_all_lookup, lookup_empty, FlattenLimits_declared.
Qed.

(** The domains of a gateway: its own when a policy targets it, and those of
    the routes. *)
Definition domains_of (gw : GatewayWrapper) (gwRLP : option RateLimitPolicy)
    (routes : list HTTPRoute) : list string :=
  match gwRLP with Some _ => or_any (Hostnames gw) | None => [] end ++
  (routes ≫= λ r, Hostnames_ (spec r)).

Lemma append_all_dom hosts (m : LimitsByDomain) l d :
  is_Some (foldl (λ m h, append_at m h l) m hosts !! d) ↔ is_Some (m !! d) ∨ d ∈ hosts.
Proof.
  revert m. induction hosts as [|h hosts IH]; intros m; cbn [foldl].
  - split; [auto|]. intros [?|?%not_elem_of_nil]; done.
  - rewrite IH, elem_of_cons. unfold append_at. rewrite lookup_insert_is_Some.
    destruct (decide (h = d)); naive_solver.
Qed.

Lemma gateway_level_limits_dom gw gwRLP d :
  is_Some (gateway_level_limits gw gwRLP !! d) ↔ d ∈ domains_of gw gwRLP [].
Proof.
  unfold gateway_level_limits, domains_of. simpl. rewrite app_nil_r.
  destruct gwRLP as [r|].
  - destruct (Hostnames gw) as [|h hs] eqn:Hh; cbn [length Nat.eqb or_any].
    + unfold append_at. rewrite lookup_insert_is_Some, lookup_empty, list_elem_of_singleton.
      split; [intros [?|[_ [? ?]]]; [by subst|done]|auto].
    + rewrite append_all_dom, lookup_empty. split; [intros [[? ?]|?]; done|auto].
  - rewrite lookup_empty. split; [by intros [? ?]|by intros ?%not_elem_of_nil].
Qed.

(** What was read of the policies and routes of a gateway. *)
Definition policy_reads (keys : list ObjectKey) (rlps : list RateLimitPolicy) : list event :=
  zip_with (λ k (r : RateLimitPolicy), Event (Get KRateLimitPolicy k) (Success r)) keys rlps.
Definition route_reads (prs : list (RateLimitPolicy * HTTPRoute)) : list event :=
  (λ pr, Event (Get KHTTPRoute (RLP.TargetKey pr.1)) (Success (pr.2 : obj KHTTPRoute))) <$> prs.

Lemma policy_reads_read keys rlps :
  Forall (λ ev, reads (ev_call ev)) (policy_reads keys rlps).
Proof.
  revert rlps. induction keys as [|k keys IH]; intros [|r rlps]; try constructor; [done|].
  apply IH.
Qed.

Definition targets_route (r : RateLimitPolicy) : Prop :=
  IsTargetRefHTTPRoute (rlp_TargetRef (spec r)) = true.
Definition targets_gateway (r : RateLimitPolicy) : Prop :=
  IsTargetRefGateway (rlp_TargetRef (spec r)) = true.

(** The policies split by their target. *)
Definition split_policies (rlps : list RateLimitPolicy)
    (st : list RateLimitPolicy * option RateLimitPolicy) : Prop :=
  st.1 = filter targets_route rlps ∧ filter targets_gateway rlps = option_list st.2.

Section lemmas.
Context `{Apimachinery, Environment, RefCodec}.

Lemma wp_load_policies who keys (Q : list event → outcome _ → Prop) :
  (∀ rlps st, length rlps = length keys → split_policies rlps st →
     Q (policy_reads keys rlps) (Ok st)) →
  (∀ t e, Forall (λ ev, reads (ev_call ev)) t → Q t (Err e)) →
  wp (load_policies who keys) Q.
Proof.
  intros Hok Herr. unfold load_policies.
  apply (wp_loop (λ done t st, ∃ rlps, length rlps = length done ∧
                    t = policy_reads done rlps ∧ split_policies rlps st)).
  - by exists [].
  - intros dn k todo t st _ (rlps & Hl & -> & Hs & Hg).
    pose proof (policy_reads_read dn rlps) as Hr.
    unfold load_policy. apply wp_bind, wp_get_policy.
    2: { intros e. cbn [after]. apply Herr. apply Forall_app. by repeat constructor. }
    intros r. cbn [after].
    assert (policy_reads (dn ++ [k]) (rlps ++ [r]) =
            policy_reads dn rlps ++ [Event (Get KRateLimitPolicy k) (Success r)]) as Ht.
    { unfold policy_reads. by rewrite zip_with_app by done. }
    unfold split_policies. destruct st as [rs g]. simpl in Hs, Hg.
    destruct (IsTargetRefHTTPRoute (rlp_TargetRef (spec r))) eqn:Hrt.
    + exists (rlps ++ [r]). rewrite !length_app, Ht, !filter_app. split; [simpl; lia|].
      split; [done|]. simpl. rewrite filter_cons_True, filter_cons_False by
        (unfold targets_route, targets_gateway; try done;
         by rewrite (IsTargetRef_exclusive _ Hrt)).
      by rewrite Hs, !filter_nil, app_nil_r.
    + destruct (IsTargetRefGateway (rlp_TargetRef (spec r))) eqn:Hgt; [destruct g as [g|]|].
      * cbn [wp fail]. apply Herr. apply Forall_app. by repeat constructor.
      * exists (rlps ++ [r]). rewrite !length_app, Ht, !filter_app. split; [simpl; lia|].
        split; [done|]. simpl. rewrite filter_cons_False, filter_cons_True by
          (unfold targets_route, targets_gateway; congruence).
        simpl in Hg. by rewrite Hs, Hg, !filter_nil, app_nil_r.
      * exists (rlps ++ [r]). rewrite !length_app, Ht, !filter_app. split; [simpl; lia|].
        split; [done|]. simpl. rewrite !filter_cons_False by
          (unfold targets_route, targets_gateway; congruence).
        by rewrite Hs, Hg, !filter_nil, !app_nil_r.
  - intros t st (rlps & Hl & -> & Hs). by apply Hok.
Qed.

Lemma wp_add_route_limits gwRLP limits r (Q : list event → outcome LimitsByDomain → Prop) :
  (∀ (route : HTTPRoute) m,
     (∀ d, default [] (m !! d) = default [] (limits !! d) ++ route_part gwRLP d (r, route)) →
     (∀ d, is_Some (m !! d) ↔ is_Some (limits !! d) ∨ d ∈ Hostnames_ (spec route)) →
     valid_object (k:=KHTTPRoute) route = true → Q (route_reads [(r, route)]) (Ok m)) →
  (∀ t e, Forall (λ ev, reads (ev_call ev)) t → Q t (Err e)) →
  wp (add_route_limits gwRLP limits r) Q.
Proof.
  intros Hok Herr. apply wp_bind, wp_FetchValidHTTPRoute; [|by auto].
  intros route Hv. apply Hok; [| |done]; intros d.
  - by rewrite append_all_lookup, mergeLimits_declared.
  - apply append_all_dom.
Qed.

Lemma wp_gatewayLimits gw refs (Q : list event → outcome LimitsByDomain → Prop) :
  (∀ rlps prs gwRLP (m : LimitsByDomain),
     length rlps = length refs → split_policies rlps (prs.*1, gwRLP) →
     Forall (λ pr, valid_object (k:=KHTTPRoute) pr.2 = true) prs →
     (∀ d, default [] (m !! d) = gateway_part gw gwRLP d ++ (prs ≫= route_part gwRLP d)) →
     (∀ d, is_Some (m !! d) ↔ d ∈ domains_of gw gwRLP prs.*2) →
     Q (policy_reads refs rlps ++ route_reads prs) (Ok m)) →
  (∀ t e, Forall (λ ev, reads (ev_call ev)) t → Q t (Err e)) →
  wp (gatewayLimits gw refs) Q.
Proof.
  intros Hok Herr. apply wp_bind, wp_load_policies; [|by auto].
  intros rlps [rs gwRLP] Hl Hs. cbn [after].
  pose proof (policy_reads_read refs rlps) as Hr.
  eapply (wp_loop (λ dn t m, ∃ prs, prs.*1 = dn ∧ t = route_reads prs ∧
    Forall (λ pr, valid_object (k:=KHTTPRoute) pr.2 = true) prs ∧
    (∀ d, default [] (m !! d) = gateway_part gw gwRLP d ++ (prs ≫= route_part gwRLP d)) ∧
    ∀ d, is_Some (m !! d) ↔ d ∈ domains_of gw gwRLP prs.*2)).
  - exists []. split; [done|]. split; [done|]. split; [constructor|]. split; intros d.
    + by rewrite gateway_level_limits_lookup, app_nil_r.
    + apply gateway_level_limits_dom.
  - intros dn r todo t m _ (prs & <- & -> & Hv & Hm & Hd). apply wp_add_route_limits.
    + intros route m' Hm' Hd' Hvr. exists (prs ++ [(r, route)]).
      unfold route_reads. rewrite !fmap_app. split; [done|]. split; [done|].
      split; [by apply Forall_app; repeat constructor|].
      split; intros d.
      * rewrite Hm', Hm, bind_app, <- app_assoc. simpl. by rewrite app_nil_r.
      * rewrite Hd', Hd. unfold domains_of. rewrite bind_app, !elem_of_app.
        simpl. rewrite app_nil_r. naive_solver.
    + intros t' e Ht'. apply Herr. apply Forall_app. split; [done|].
      apply Forall_app. split; [|done]. apply Forall_fmap, Forall_true. by intros.
  - intros t m (prs & <- & -> & Hv & Hm & Hd). by apply (Hok _ _ gwRLP).
Qed.
End lemmas.

(** [f] gives the limits by domain of [gw] from policies and routes that were
    read in [t]. *)
Definition limits_from `{RefCodec} (t : list event) (gw : GatewayWrapper)
    (refs : list ObjectKey) (f : string → list Limit) : Prop :=
  ∃ rlps prs gwRLP,
    policy_reads refs rlps ++ route_reads prs ⊆ t ∧ length rlps = length refs ∧
    split_policies rlps (prs.*1, gwRLP) ∧
    ∀ d, f d = gateway_part gw gwRLP d ++ (prs ≫= route_part gwRLP d).

Section reconcile_lemmas.
Context `{Apimachinery, Environment, RefCodec, MapRangeOk}.

Lemma limits_from_mono t t' gw refs f : t ⊆ t' → limits_from t gw refs f → limits_from t' gw refs f.
Proof. intros Ht (rlps & prs & g & Hin & ?). exists rlps, prs, g. split; [set_solver|done]. Qed.

(** The state of a loop over gateways after [dn]. *)
Definition replaced (refs : GatewayWrapper → list ObjectKey) (idx0 : LimitIndex)
    (dn : list GatewayWrapper) (t : list event) (idx : LimitIndex) : Prop :=
  Forall (λ ev, reads (ev_call ev)) t ∧
  (∀ g d, g ∉ Key <$> dn → limits_at idx g d = limits_at idx0 g d) ∧
  (NoDup (Key <$> dn) → ∀ gw, gw ∈ dn → limits_from t gw (refs gw) (limits_at idx (Key gw))).

Lemma replaced_step refs idx0 dn t idx gw rlps prs gwRLP m :
  replaced refs idx0 dn t idx →
  length rlps = length (refs gw) → split_policies rlps (prs.*1, gwRLP) →
  (∀ d, default [] (m !! d) = gateway_part gw gwRLP d ++ (prs ≫= route_part gwRLP d)) →
  replaced refs idx0 (dn ++ [gw]) (t ++ policy_reads (refs gw) rlps ++ route_reads prs)
    (AddGatewayLimits (DeleteGateway idx (Key gw)) (Key gw) m).
Proof.
  intros (Hr & Hother & Hin) Hl Hs Hm.
  assert (∀ g d, limits_at (AddGatewayLimits (DeleteGateway idx (Key gw)) (Key gw) m) g d =
            if decide (Key gw = g) then default [] (m !! d) else limits_at idx g d) as Hat.
  { intros g d. rewrite limits_at_AddGatewayLimits, limits_at_DeleteGateway.
    case_decide; [done|]. by rewrite app_nil_r. }
  split; [|split].
  - apply Forall_app. split; [done|]. apply Forall_app. split; [apply policy_reads_read|].
    apply Forall_fmap, Forall_true. by intros.
  - intros g d. rewrite fmap_app, not_elem_of_app. simpl. rewrite list_elem_of_singleton.
    intros [Hg Hne]. rewrite Hat, decide_False by auto. by apply Hother.
  - rewrite fmap_app. intros (Hnd & Hd & _)%NoDup_app gw' [Hgw|Hgw]%elem_of_app.
    + assert (Key gw ≠ Key gw') as Hne.
      { intros Heq. apply (Hd (Key gw')); [by apply list_elem_of_fmap_2|].
        rewrite <- Heq. by left. }
      eapply (limits_from_mono t); [set_solver|].
      destruct (Hin Hnd gw' Hgw) as (rs & ps & g & H1' & H2' & H3' & H4').
      exists rs, ps, g. split; [done|]. split; [done|]. split; [done|].
      intros d. by rewrite Hat, decide_False.
    + apply list_elem_of_singleton in Hgw as ->. exists rlps, prs, gwRLP.
      split; [set_solver|]. split; [done|]. split; [done|].
      intros d. by rewrite Hat, decide_True.
Qed.

Lemma wp_replace_loop refs idx0 gws (Q : list event → outcome LimitIndex → Prop) :
  (∀ t idx, replaced refs idx0 gws t idx → Q t (Ok idx)) →
  (∀ t e, Forall (λ ev, reads (ev_call ev)) t → Q t (Err e)) →
  wp (loop (replace_limits refs) idx0 gws) Q.
Proof.
  intros Hok Herr. apply (wp_loop (replaced refs idx0)).
  - split; [constructor|]. split; [done|]. intros _ gw ?%not_elem_of_nil. done.
  - intros dn gw todo t idx _ Hrep. apply wp_bind, wp_gatewayLimits.
    + intros rlps prs gwRLP m Hl Hs _ Hm _. cbn [after ret wp]. rewrite app_nil_r.
      by eapply replaced_step.
    + intros t' e Ht'. cbn [after]. apply Herr. apply Forall_app. split; [|done]. apply Hrep.
  - exact Hok.
Qed.

Lemma limits_at_delete_all gws idx g d :
  limits_at (foldl (λ limitIdx gw, DeleteGateway limitIdx (Key gw)) idx gws) g d =
  if decide (g ∈ Key <$> gws) then [] else limits_at idx g d.
Proof.
  revert idx. induction gws as [|gw gws IH]; intros idx; [done|]. cbn [foldl].
  rewrite IH, limits_at_DeleteGateway, fmap_cons.
  destruct (decide (g ∈ Key gw :: (Key <$> gws))) as [Hin|Hin];
    destruct (decide (g ∈ Key <$> gws)) as [Hin'|Hin']; try done.
  - apply elem_of_cons in Hin as [->|]; [|done]. by rewrite decide_True.
  - destruct Hin. by right.
  - apply not_elem_of_cons in Hin as [Hne _]. by rewrite decide_False by auto.
Qed.
End reconcile_lemmas.

(** ** Properties *)

(** C10: the limits of a gateway.  The call reads every referenced policy and
    then the route of every policy that targets one, and nothing else; when it
    succeeds at most one policy targets the gateway, every route was accepted,
    and each domain holds, in order: the limits of the gateway's own policy,
    once per listener that names the domain ([*] for a gateway without host
    names), then, for each route policy, its limits followed by those of the
    gateway's policy, once per host name of the route equal to the domain. *)
Theorem gatewayLimits_correct (AM : Apimachinery) (gw : GatewayWrapper)
    (refs : list ObjectKey) :
  wp (gatewayLimits gw refs) (λ t o,
    Forall (λ ev, reads (ev_call ev)) t ∧
    match o with
    | Ok m => ∃ rlps prs gwRLP,
        t = policy_reads refs rlps ++ route_reads prs ∧ length rlps = length refs ∧
        prs.*1 = filter targets_route rlps ∧
        filter targets_gateway rlps = option_list gwRLP ∧
        Forall (λ pr, valid_object (k:=KHTTPRoute) pr.2 = true) prs ∧
        (∀ d, default [] (m !! d) =
              gateway_part gw gwRLP d ++ (prs ≫= route_part gwRLP d)) ∧
        ∀ d, is_Some (m !! d) ↔ d ∈ domains_of gw gwRLP prs.*2
    | Err _ => True
    | Panic _ => False
    end).
Proof.
  apply wp_gatewayLimits; [|done].
  intros rlps prs gwRLP m Hl [Hs Hg] Hv Hm Hd. split.
  - apply Forall_app. split; [apply policy_reads_read|].
    apply Forall_fmap, Forall_true. by intros.
  - exists rlps, prs, gwRLP. auto 10.
Qed.

(** A route without host names gets no limits at all.  When none of the
    routes read has a host name and no policy targets the gateway, every
    domain is empty, whatever limits the route policies define. *)
Theorem gatewayLimits_route_without_hostnames (AM : Apimachinery) (gw : GatewayWrapper)
    (refs : list ObjectKey) :
  wp (gatewayLimits gw refs) (λ t o, ∀ m, o = Ok m →
    (∀ r : obj KRateLimitPolicy, ∀ k, Event (Get KRateLimitPolicy k) (Success r) ∈ t →
       ¬ targets_gateway r) →
    (∀ r : obj KHTTPRoute, ∀ k, Event (Get KHTTPRoute k) (Success r) ∈ t →
       Hostnames_ (spec r) = []) →
    ∀ d, default [] (m !! d) = []).
Proof.
  apply wp_gatewayLimits; [|done].
  intros rlps prs gwRLP m Hl [Hs Hg] _ Hm _ m' [= <-] Hgw Hroute d. rewrite Hm.
  assert (gwRLP = None) as ->.
  { destruct gwRLP as [g|]; [|done]. exfalso.
    assert (g ∈ filter targets_gateway rlps) as [Ht Hin]%list_elem_of_filter
      by (simpl in Hg; rewrite Hg; left).
    apply list_elem_of_lookup in Hin as [i Hi].
    destruct (lookup_lt_is_Some_2 refs i) as [k Hk];
      [rewrite <- Hl; by eapply lookup_lt_Some|].
    apply (Hgw g k); [|done]. apply elem_of_app. left.
    apply list_elem_of_lookup. exists i. unfold policy_reads.
    by rewrite lookup_zip_with, Hk, Hi. }
  simpl. apply list_bind_nil. intros [r route] Hpr. unfold route_part, occurrences. simpl.
  assert (Hostnames_ (spec route) = []) as ->; [|done].
  apply (Hroute route (RLP.TargetKey r)). apply elem_of_app. right.
  unfold route_reads. apply list_elem_of_fmap. by exists (r, route).
Qed.

(** C9: the update of the Limitador object.  All reads come first, the
    Limitador object the first of them; after an error of a read nothing is
    written.  Otherwise the call computes an index in which the left gateways
    have no limits, the same and the new gateways exactly those recomputed
    from policies and routes it has read (the new ones with this policy), and
    every other gateway what Limitador had.  Nothing is written only if that
    is what Limitador had up to the order of limits; else the object is
    updated once, with that index. *)
Theorem reconcileLimits_correct (AM : Apimachinery) (Env : Environment) (RC : RefCodec)
    (MR : MapRange) (MRok : MapRangeOk) (GS : GoSort) (GSok : GoSortOk)
    (rlp : RateLimitPolicy) (gwDiff : gatewayDiff) :
  let key := ObjectKeyFromObject rlp in
  let recomputed := Key <$> gd_Same gwDiff ++ gd_New gwDiff in
  wp (reconcileLimits rlp gwDiff) (λ t o, ∃ rd w,
    t = rd ++ w ∧ Forall (λ ev, reads (ev_call ev)) rd ∧
    ((w = [] ∧ ∃ e, o = Err e) ∨
     ∃ (lim : obj KLimitador) rd' idx,
       rd = Event (Get KLimitador limitadorKey) (Success lim) :: rd' ∧
       (∀ g d, g ∉ Key <$> gd_Left gwDiff → g ∉ recomputed →
          limits_at idx g d = limits_at (NewLimitadorIndex (Some lim)) g d) ∧
       (∀ g d, g ∈ Key <$> gd_Left gwDiff → g ∉ recomputed → limits_at idx g d = []) ∧
       (NoDup recomputed →
          (∀ gw, gw ∈ gd_Same gwDiff →
             limits_from rd gw (RLPRefs gw) (limits_at idx (Key gw))) ∧
          (∀ gw, gw ∈ gd_New gwDiff →
             limits_from rd gw (RLPRefs gw ++ [key]) (limits_at idx (Key gw)))) ∧
       ((w = [] ∧ o = Ok tt ∧ index_equiv (NewLimitadorIndex (Some lim)) idx) ∨
        ∃ r, w = [Event (Update KLimitador (with_limits lim (ToLimits idx))) r] ∧
             o = write_result r))).
Proof.
  intros key recomputed. apply wp_bind, wp_get_limitador.
  2: { intros e. eexists [_], []. split; [done|]. split; [by repeat constructor|]. eauto. }
  intros lim. cbn [after]. set (ev0 := Event (Get KLimitador limitadorKey) _).
  set (before := NewLimitadorIndex (Some lim)).
  apply wp_bind, wp_replace_loop.
  2: { intros t e Ht. exists (ev0 :: t), []. cbn [after]. rewrite app_nil_r.
       split; [done|]. split; [by constructor|]. eauto. }
  intros t1 idx1 (Hr1 & Hother1 & Hin1). cbn [after]. apply wp_bind, wp_replace_loop.
  2: { intros t e Ht. exists (ev0 :: t1 ++ t), []. cbn [after]. rewrite app_nil_r.
       split; [done|]. split; [constructor; [done|by apply Forall_app]|]. eauto. }
  intros t2 idx2 (Hr2 & Hother2 & Hin2). cbn [after].
  assert (Forall (λ ev, reads (ev_call ev)) (ev0 :: t1 ++ t2)) as Hr
    by (constructor; [done|by apply Forall_app]).
  assert (∀ g d, g ∉ recomputed → limits_at idx2 g d =
            if decide (g ∈ Key <$> gd_Left gwDiff) then [] else limits_at before g d) as Hd.
  { intros g d. subst recomputed. rewrite fmap_app, not_elem_of_app. intros [Hs Hn].
    by rewrite Hother2, Hother1, limits_at_delete_all. }
  assert (NoDup recomputed →
          (∀ gw, gw ∈ gd_Same gwDiff →
             limits_from (ev0 :: t1 ++ t2) gw (RLPRefs gw) (limits_at idx2 (Key gw))) ∧
          (∀ gw, gw ∈ gd_New gwDiff →
             limits_from (ev0 :: t1 ++ t2) gw (RLPRefs gw ++ [key]) (limits_at idx2 (Key gw))))
    as Hre.
  { subst recomputed. rewrite fmap_app. intros (Hns & Hdisj & Hnn)%NoDup_app. split; intros gw Hgw.
    - apply (limits_from_mono t1); [set_solver|].
      destruct (Hin1 Hns gw Hgw) as (rs & ps & g & ? & ? & ? & Hf). exists rs, ps, g.
      split; [done|]. split; [done|]. split; [done|].
      intros d. rewrite Hother2; [apply Hf|].
      apply Hdisj. by apply list_elem_of_fmap_2.
    - apply (limits_from_mono t2); [set_solver|]. by apply Hin2. }
  eapply (wp_mono _ (λ w o, (w = [] ∧ o = Ok tt ∧ index_equiv before idx2) ∨
            ∃ r, w = [Event (Update KLimitador (with_limits lim (ToLimits idx2))) r] ∧
                 o = write_result r)).
  - destruct (LI.Equals before (Some idx2)) eqn:Heq; cbn [negb].
    + left. split; [done|]. split; [done|]. by apply LI_Equals_sound.
    + intros [x|e]; right; eexists; split; done.
  - intros w o Hw. exists (ev0 :: t1 ++ t2), w. split; [by simpl; rewrite <- ?app_assoc|].
    split; [exact Hr|]. right. exists lim, (t1 ++ t2), idx2. split; [done|].
    split; [intros g d Hl Hrec; by rewrite Hd, decide_False|].
    split; [intros g d Hl Hrec; by rewrite Hd, decide_True|].
    split; [exact Hre|exact Hw].
Qed.

(** *** A concrete reconciliation *)

Definition sample_environment : Environment := no_environment.
#[local] Existing Instance sample_environment.
Definition sample_diff : gatewayDiff :=
  {| gd_New := [Some cluster_gateway]; gd_Same := []; gd_Left := [] |}.

Lemma reconcileLimits_correct_witness :
  let r := run memory_server (reconcileLimits cluster_policy sample_diff) cluster in
  r.2 = Ok tt ∧ ∃ rd idx (lim : obj KLimitador) x,
    r.1.2 = rd ++ [Event (Update KLimitador (with_limits lim (ToLimits idx))) x] ∧
    limits_from rd (Some cluster_gateway) [ObjectKeyFromObject cluster_policy]
      (limits_at idx (Key (Some cluster_gateway))).
Proof.
  intros r. assert (r.2 = Ok tt) as Hok by (vm_compute; reflexivity). split; [exact Hok|].
  destruct (wp_run memory_server _ _ cluster
    (reconcileLimits_correct default_apimachinery sample_environment json_ref_codec
       map_range_default map_range_default_ok go_merge_sort go_merge_sort_ok
       cluster_policy sample_diff))
    as (rd & w & Ht & Hr & [(_ & e & He)|(lim & rd' & idx & _ & _ & _ & Hre & Hw)]).
  { fold r in He. congruence. }
  destruct (Hre (NoDup_singleton _)) as [_ Hnew].
  specialize (Hnew (Some cluster_gateway) (list_elem_of_here _ _)).
  destruct Hw as [(-> & _ & _)|(x & -> & _)].
  - exfalso. fold r in Ht. rewrite app_nil_r in Ht. rewrite <- Ht in Hr.
    assert (existsb (λ e, is_write (ev_call e)) r.1.2 = true) as (e & Hin & He)%existsb_exists
      by (vm_compute; reflexivity).
    rewrite Forall_forall in Hr. apply list_elem_of_In, Hr in Hin. unfold reads in Hin. congruence.
  - exists rd, idx, lim, x. split; [exact Ht|exact Hnew].
Defined.
