(* ===== verification/RateLimitIstio.v ===== *)
(** * Istio objects of a gateway
      (controllers/apim/ratelimitpolicy_wasm_plugins.go,
       controllers/apim/ratelimitpolicy_cluster_envoy_filter.go)

    The configuration of the wasm filter and the Envoy filter that adds the
    Limitador cluster. *)
From S2P Require Import Prelude GoStrings KubeTypes CommonUtils RouteRules PolicyTypes.
From S2P Require Import LimitIndex Json GatewayRefs Client Apimachinery.
From S2P Require Import BaseReconciler TargetRef JsonText JsonStruct WasmJson WasmConfig Samples RateLimitLimits.

Open Scope go_scope.

(** ** The code *)

(** [m[key] = append(m[key], l...)] for a map of slices *)
Definition append_actions (m : gmap string (slice GatewayAction)) (key : string)
    (l : list GatewayAction) : gmap string (slice GatewayAction) :=
  <[key:=slice_append (default None (m !! key)) l]> m.

Definition mergeGatewayActions (routeRLP : RateLimitPolicy) (gwRLP : option RateLimitPolicy)
    (route : HTTPRoute) : list GatewayAction :=
  let gatewayActions := GatewayActionsFromRateLimitPolicy (Some routeRLP) (Some route) in
  match gwRLP with
  | None => gatewayActions
  | Some gwRLP => gatewayActions ++ GatewayActionsFromRateLimitPolicy (Some gwRLP) None
  end.

(** The references of a left gateway without the policy, and of a new gateway
    with it. *)
Definition refs_without (rlpRefs : list ObjectKey) (rlpKey : ObjectKey) : list ObjectKey :=
  let refID := FindObjectKey rlpRefs rlpKey in
  if negb (refID =? length rlpRefs)%nat then remove_at refID rlpRefs else rlpRefs.

Definition refs_with (rlpRefs : list ObjectKey) (rlpKey : ObjectKey) : list ObjectKey :=
  if negb (ContainsObjectKey rlpRefs rlpKey) then rlpRefs ++ [rlpKey] else rlpRefs.

Section code.
Context `{Apimachinery, Environment, RefCodec, MapRange, StructCodec, PatchCodec}.

Definition WASMFilterImageURL : string :=
  FetchEnv lookup_env "WASM_FILTER_IMAGE" "oci://quay.io/kuadrant/wasm-shim:latest".

Definition gateway_level_actions (gw : GatewayWrapper) (gwRLP : option RateLimitPolicy) :
  gmap string (slice GatewayAction) :=
  match gwRLP with
  | None => ∅
  | Some _ =>
      if (length (Hostnames gw) =? 0)%nat
      then append_actions ∅ "*" (GatewayActionsFromRateLimitPolicy gwRLP None)
      else foldl (λ gatewayActions gwHostname,
             append_actions gatewayActions gwHostname
               (GatewayActionsFromRateLimitPolicy gwRLP None)) ∅ (Hostnames gw)
  end.

Definition add_route_actions (gwRLP : option RateLimitPolicy)
    (gatewayActions : gmap string (slice GatewayAction)) (httpRouteRLP : RateLimitPolicy) :
  prog (gmap string (slice GatewayAction)) :=
  httpRoute <-- FetchValidHTTPRoute (RLP.TargetKey httpRouteRLP) ;;
  let mergedGatewayActions := mergeGatewayActions httpRouteRLP gwRLP httpRoute in
  ret (foldl (λ gatewayActions hostname,
         append_actions gatewayActions hostname mergedGatewayActions)
         gatewayActions (Hostnames_ (spec httpRoute))).

Definition domain_policy (gw : GatewayWrapper) (domain : string)
    (gatewayActionList : slice GatewayAction) : Wasm.RateLimitPolicy :=
  {| Wasm.Name := domain;
     Wasm.RateLimitDomain := MarshallNamespace (Key gw) domain;
     Wasm.UpstreamCluster := KuadrantRateLimitClusterName;
     Wasm.Hostnames := Some [domain];
     Wasm.GatewayActions := gatewayActionList |}.

Definition wasmPluginConfig (gw : GatewayWrapper) (rlpRefs : list ObjectKey) :
  prog (option Wasm.WASMPlugin) :=
  policies <-- load_policies "wasmPluginConfig" rlpRefs ;;
  let '(routeRLPList, gwRLP) := policies in
  gatewayActions <-- loop (add_route_actions gwRLP) (gateway_level_actions gw gwRLP)
                       routeRLPList ;;
  ret (Some {| Wasm.FailureModeDeny := true;
               Wasm.RateLimitPolicies :=
                 Some (foldl (λ policies '(domain, gatewayActionList),
                         policies ++ [domain_policy gw domain gatewayActionList])
                         [] (map_range gatewayActions)) |}).

Definition gatewayWASMPlugin (gw : GatewayWrapper) (rlpRefs : list ObjectKey) :
  prog WasmPlugin :=
  match gw with
  | None => panic "invalid memory address or nil pointer dereference"
  | Some g =>
      let wasmPlugin : WasmPlugin :=
        Build_object (new_meta ("kuadrant-" +:+ meta_Name (ometa g)) (meta_Namespace (ometa g)))
          {| wp_Selector := meta_Labels (ometa g); wp_Url := WASMFilterImageURL;
             wp_PluginConfig := None; wp_Phase := "STATS" |} tt in
      if (length rlpRefs <? 1)%nat then ret (TagObjectToDelete wasmPlugin)
      else
        pluginConfig <-- wasmPluginConfig gw rlpRefs ;;
        match pluginConfig with
        | None => ret (TagObjectToDelete wasmPlugin)
        | Some pluginConfig =>
            pluginConfigStruct <-- Ret (ToStruct pluginConfig) ;;
            ret (set_PluginConfig wasmPlugin (Some pluginConfigStruct))
        end
  end.

(** The common tail of the three loops. *)
Definition reconcile_wasm_plugin (refs : GatewayWrapper → list ObjectKey)
    (_ : unit) (gw : GatewayWrapper) : prog unit :=
  wp <-- gatewayWASMPlugin gw (refs gw) ;;
  ReconcileResource KWasmPlugin (kd:=KWasmPlugin) wp WASMPluginMutator.

Definition reconcileWASMPluginConf (rlp : RateLimitPolicy) (gwDiffObj : gatewayDiff) :
  prog unit :=
  let rlpKey := ObjectKeyFromObject rlp in
  loop (reconcile_wasm_plugin (λ g, refs_without (RLPRefs g) rlpKey)) tt (gd_Left gwDiffObj) ;;;
  loop (reconcile_wasm_plugin RLPRefs) tt (gd_Same gwDiffObj) ;;;
  loop (reconcile_wasm_plugin (λ g, refs_with (RLPRefs g) rlpKey)) tt (gd_New gwDiffObj) ;;;
  ret tt.

Definition gatewayRateLimitingClusterEnvoyFilter (gw : GatewayWrapper)
    (rlpRefs : list ObjectKey) : prog EnvoyFilter :=
  match gw with
  | None => panic "invalid memory address or nil pointer dereference"
  | Some g =>
      let ef (configPatches : list EnvoyConfigObjectPatch) : EnvoyFilter :=
        Build_object
          (new_meta ("kuadrant-ratelimiting-cluster-" +:+ meta_Name (ometa g))
             (meta_Namespace (ometa g)))
          {| ef_WorkloadSelector := meta_Labels (ometa g);
             ef_ConfigPatches := configPatches; ef_Priority := 0 |} tt in
      if (length rlpRefs <? 1)%nat then ret (TagObjectToDelete (ef []))
      else
        limitador <-- get_limitador limitadorKey ;;
        if negb (limitador_Ready (status limitador)) then
          fail (ErrText "limitador Status not ready")
        else
          configPatches <-- Ret (LimitadorClusterPatch (limitador_Host (status limitador))
                                   (limitador_GRPC (status limitador))) ;;
          ret (ef configPatches)
  end.

Definition reconcile_envoy_filter (refs : GatewayWrapper → list ObjectKey)
    (_ : unit) (gw : GatewayWrapper) : prog unit :=
  ef <-- gatewayRateLimitingClusterEnvoyFilter gw (refs gw) ;;
  ReconcileResource KEnvoyFilter (kd:=KEnvoyFilter) ef AlwaysUpdateEnvoyFilter.

(** Nothing to do for the same gateways. *)
Definition reconcileRateLimitingClusterEnvoyFilter (rlp : RateLimitPolicy)
    (gwDiffObj : gatewayDiff) : prog unit :=
  let rlpKey := ObjectKeyFromObject rlp in
  loop (reconcile_envoy_filter (λ g, refs_without (RLPRefs g) rlpKey)) tt (gd_Left gwDiffObj) ;;;
  loop (reconcile_envoy_filter (λ g, refs_with (RLPRefs g) rlpKey)) tt (gd_New gwDiffObj) ;;;
  ret tt.
End code.

(** ** Lemmas *)

Section emits_lemmas.
Context `{Apimachinery, Environment, RefCodec, MapRange, StructCodec, PatchCodec}.
Context (P : call → Prop).

Section wasm.
Context (HP : ∀ key, P (Get KRateLimitPolicy key)) (HR : ∀ key, P (Get KHTTPRoute key)).
Context (HG : ∀ key, P (Get KWasmPlugin key)) (HC : ∀ o, P (Create KWasmPlugin o))
  (HU : ∀ o, P (Update KWasmPlugin o)) (HD : ∀ o, P (Delete KWasmPlugin o)).

Lemma emits_wasmPluginConfig gw refs : emits P (wasmPluginConfig gw refs).
Proof.
  unfold wasmPluginConfig, add_route_actions.
  pose proof (emits_load_policies P HP). pose proof (emits_FetchValidHTTPRoute P HR).
  emits_auto.
Qed.

Lemma emits_reconcileWASMPluginConf rlp d : emits P (reconcileWASMPluginConf rlp d).
Proof.
  unfold reconcileWASMPluginConf, reconcile_wasm_plugin, gatewayWASMPlugin.
  pose proof emits_wasmPluginConfig. emits_auto.
Qed.
End wasm.

Lemma emits_reconcileRateLimitingClusterEnvoyFilter rlp d :
  (∀ key, P (Get KLimitador key)) → (∀ key, P (Get KEnvoyFilter key)) →
  (∀ o, P (Create KEnvoyFilter o)) → (∀ o, P (Update KEnvoyFilter o)) →
  (∀ o, P (Delete KEnvoyFilter o)) →
  emits P (reconcileRateLimitingClusterEnvoyFilter rlp d).
Proof.
  intros HL HG HC HU HD. unfold reconcileRateLimitingClusterEnvoyFilter,
    reconcile_envoy_filter, gatewayRateLimitingClusterEnvoyFilter.
  emits_auto.
Qed.
End emits_lemmas.

Section checks_lemmas.
Context `{Apimachinery, Environment, RefCodec, MapRange, StructCodec, PatchCodec}.

Lemma checks_reconcileWASMPluginConf rlp d : checks (reconcileWASMPluginConf rlp d).
Proof.
  unfold reconcileWASMPluginConf, reconcile_wasm_plugin, gatewayWASMPlugin.
  assert (∀ gw refs, checks (wasmPluginConfig gw refs))
    by (intros; by apply checks_reads, emits_wasmPluginConfig).
  checks_auto.
Qed.

Lemma checks_reconcileRateLimitingClusterEnvoyFilter rlp d :
  checks (reconcileRateLimitingClusterEnvoyFilter rlp d).
Proof.
  unfold reconcileRateLimitingClusterEnvoyFilter, reconcile_envoy_filter,
    gatewayRateLimitingClusterEnvoyFilter.
  assert (∀ key, checks (get_limitador key))
    by (intros; by apply checks_reads, emits_get_limitador).
  checks_auto.
Qed.

Lemma checks_reconcileLimits `{GoSort} rlp d : checks (reconcileLimits rlp d).
Proof.
  unfold reconcileLimits, replace_limits.
  assert (∀ key, checks (get_limitador key))
    by (intros; by apply checks_reads, emits_get_limitador).
  assert (∀ gw refs, checks (gatewayLimits gw refs))
    by (intros; by apply checks_reads, emits_gatewayLimits).
  checks_auto.
Qed.
End checks_lemmas.

#[export] Hint Resolve checks_reconcileWASMPluginConf
  checks_reconcileRateLimitingClusterEnvoyFilter checks_reconcileLimits : kuadrant.

(** *** The configuration by domain *)

(** [l] once for every occurrence of [d]. *)
Definition action_occurrences (d : string) (hosts : list string) (l : list GatewayAction) :
  list GatewayAction := hosts ≫= (λ h, if decide (h = d) then l else []).

Definition actions_at (m : gmap string (slice GatewayAction)) (d : string) : list GatewayAction :=
  elems (default None (m !! d)).

Lemma append_actions_at m h l d :
  actions_at (append_actions m h l) d = actions_at m d ++ (if decide (h = d) then l else []).
Proof.
  unfold append_actions, actions_at. destruct (decide (h = d)) as [->|Hd].
  - rewrite lookup_insert_eq. simpl. by rewrite elems_slice_append.
  - by rewrite lookup_insert_ne, app_nil_r.
Qed.

Lemma append_all_actions_at hosts m l d :
  actions_at (foldl (λ m h, append_actions m h l) m hosts) d =
  actions_at m d ++ action_occurrences d hosts l.
Proof.
  revert m. induction hosts as [|h hosts IH]; intros m; cbn [foldl].
  - simpl. by rewrite app_nil_r.
  - rewrite IH, append_actions_at, <- app_assoc. done.
Qed.

Lemma append_all_actions_dom hosts (m : gmap string (slice GatewayAction)) l d :
  is_Some (foldl (λ m h, append_actions m h l) m hosts !! d) ↔ is_Some (m !! d) ∨ d ∈ hosts.
Proof.
  revert m. induction hosts as [|h hosts IH]; intros m; cbn [foldl].
  - split; [auto|]. intros [?|?%not_elem_of_nil]; done.
  - rewrite IH, elem_of_cons. unfold append_actions. rewrite lookup_insert_is_Some.
    destruct (decide (h = d)); naive_solver.
Qed.

(** The actions a policy declares; with a route, rate limits without rules take
    the rules compiled from it. *)
Definition declared_actions (route : option HTTPRoute) (r : RateLimitPolicy) :
  list GatewayAction := action_of route <$> elems (RateLimits (spec r)).

Definition gateway_actions_part (gw : GatewayWrapper) (gwRLP : option RateLimitPolicy)
    (d : string) : list GatewayAction :=
  match gwRLP with
  | None => []
  | Some r => action_occurrences d (or_any (Hostnames gw)) (declared_actions None r)
  end.

Definition route_actions_part (gwRLP : option RateLimitPolicy) (d : string)
    (pr : RateLimitPolicy * HTTPRoute) : list GatewayAction :=
  action_occurrences d (Hostnames_ (spec pr.2))
    (declared_actions (Some pr.2) pr.1 ++ from_option (declared_actions None) [] gwRLP).

Lemma mergeGatewayActions_declared r gwRLP route :
  mergeGatewayActions r gwRLP route =
  declared_actions (Some route) r ++ from_option (declared_actions None) [] gwRLP.
Proof.
  unfold mergeGatewayActions. rewrite GatewayActions_fmap.
  destruct gwRLP; simpl; by rewrite ?GatewayActions_fmap, ?app_nil_r.
Qed.

Lemma gateway_level_actions_at gw gwRLP d :
  actions_at (gateway_level_actions gw gwRLP) d = gateway_actions_part gw gwRLP d.
Proof.
  unfold gateway_level_actions, gateway_actions_part.
  destruct gwRLP as [r|]; [|done].
  destruct (Hostnames gw) as [|h hs] eqn:Hh; cbn [length Nat.eqb or_any].
  - rewrite append_actions_at, GatewayActions_fmap. unfold action_occurrences. simpl.
    by rewrite app_nil_r.
  - by rewrite append_all_actions_at, GatewayActions_fmap.
Qed.

Lemma gateway_level_actions_dom gw gwRLP d :
  is_Some (gateway_level_actions gw gwRLP !! d) ↔ d ∈ domains_of gw gwRLP [].
Proof.
  unfold gateway_level_actions, domains_of. simpl. rewrite app_nil_r.
  destruct gwRLP as [r|].
  - destruct (Hostnames gw) as [|h hs] eqn:Hh; cbn [length Nat.eqb or_any].
    + unfold append_actions. rewrite lookup_insert_is_Some, lookup_empty, list_elem_of_singleton.
      split; [intros [?|[_ [? ?]]]; [by subst|done]|auto].
    + rewrite append_all_actions_dom, lookup_empty. split; [intros [[? ?]|?]; done|auto].
  - rewrite lookup_empty. split; [by intros [? ?]|by intros ?%not_elem_of_nil].
Qed.

Lemma domain_policies_fmap gw kvs :
  foldl (λ policies '(domain, l), policies ++ [domain_policy gw domain l]) [] kvs =
  (λ kv, domain_policy gw kv.1 kv.2) <$> kvs.
Proof.
  rewrite (foldl_app_bind _ (λ kv, [domain_policy gw kv.1 kv.2])) by by intros ? [].
  simpl. induction kvs as [|kv kvs IH]; [done|]. by rewrite bind_cons, IH.
Qed.

(** A configuration object for the policies and routes read. *)
Definition config_of (gw : GatewayWrapper) (gwRLP : option RateLimitPolicy)
    (prs : list (RateLimitPolicy * HTTPRoute)) (w : Wasm.WASMPlugin) : Prop :=
  Wasm.FailureModeDeny w = true ∧ ∃ ps, Wasm.RateLimitPolicies w = Some ps ∧
    NoDup (Wasm.Name <$> ps) ∧
    (∀ d, d ∈ Wasm.Name <$> ps ↔ d ∈ domains_of gw gwRLP prs.*2) ∧
    Forall (λ p, Wasm.RateLimitDomain p = MarshallNamespace (Key gw) (Wasm.Name p) ∧
      Wasm.UpstreamCluster p = KuadrantRateLimitClusterName ∧
      Wasm.Hostnames p = Some [Wasm.Name p] ∧
      elems (Wasm.GatewayActions p) =
        gateway_actions_part gw gwRLP (Wasm.Name p) ++
        (prs ≫= route_actions_part gwRLP (Wasm.Name p))) ps.

Section config_lemmas.
Context `{Apimachinery, RefCodec, MapRangeOk}.

Lemma config_of_actions gw gwRLP prs m :
  (∀ d, actions_at m d = gateway_actions_part gw gwRLP d ++ (prs ≫= route_actions_part gwRLP d)) →
  (∀ d, is_Some (m !! d) ↔ d ∈ domains_of gw gwRLP prs.*2) →
  config_of gw gwRLP prs
    {| Wasm.FailureModeDeny := true;
       Wasm.RateLimitPolicies :=
         Some (foldl (λ policies '(domain, l), policies ++ [domain_policy gw domain l])
                 [] (map_range m)) |}.
Proof.
  intros Hat Hdom. split; [done|]. eexists. split; [done|].
  rewrite domain_policies_fmap, <- list_fmap_compose.
  assert (Wasm.Name ∘ (λ kv, domain_policy gw kv.1 kv.2) <$> map_range m = (map_range m).*1)
    as -> by (apply list_fmap_ext; by intros ? []).
  split; [apply NoDup_map_range|]. split.
  - intros d. rewrite <- Hdom, list_elem_of_fmap. split.
    + intros ([k v] & -> & Hkv%elem_of_map_range). eauto.
    + intros [v Hv]. exists (d, v). split; [done|]. by apply elem_of_map_range.
  - apply Forall_fmap, Forall_forall. intros [d l] Hdl%elem_of_map_range. simpl.
    do 3 (split; [done|]). rewrite <- Hat. unfold actions_at. by rewrite Hdl.
Qed.

Lemma wp_wasmPluginConfig gw refs (Q : list event → outcome (option Wasm.WASMPlugin) → Prop) :
  (∀ rlps prs gwRLP w,
     length rlps = length refs → split_policies rlps (prs.*1, gwRLP) →
     config_of gw gwRLP prs w →
     Q (policy_reads refs rlps ++ route_reads prs) (Ok (Some w))) →
  (∀ t e, Forall (λ ev, reads (ev_call ev)) t → Q t (Err e)) →
  wp (wasmPluginConfig gw refs) Q.
Proof.
  intros Hok Herr. apply wp_bind, wp_load_policies; [|by auto].
  intros rlps [rs gwRLP] Hl Hs. cbn [after].
  pose proof (policy_reads_read refs rlps) as Hr. apply wp_bind.
  eapply (wp_loop (λ dn t m, ∃ prs, prs.*1 = dn ∧ t = route_reads prs ∧
    (∀ d, actions_at m d =
       gateway_actions_part gw gwRLP d ++ (prs ≫= route_actions_part gwRLP d)) ∧
    ∀ d, is_Some (m !! d) ↔ d ∈ domains_of gw gwRLP prs.*2)).
  - exists []. split; [done|]. split; [done|]. split; intros d.
    + by rewrite gateway_level_actions_at, app_nil_r.
    + apply gateway_level_actions_dom.
  - intros dn r todo t m _ (prs & <- & -> & Hm & Hd). unfold add_route_actions.
    apply wp_bind, wp_FetchValidHTTPRoute.
    + intros route _. cbn [after wp ret]. exists (prs ++ [(r, route)]).
      unfold route_reads. rewrite !fmap_app. split; [done|]. split; [done|]. split; intros d.
      * rewrite append_all_actions_at, Hm, mergeGatewayActions_declared, bind_app, <- app_assoc.
        simpl. by rewrite app_nil_r.
      * rewrite append_all_actions_dom, Hd. unfold domains_of.
        rewrite bind_app, !elem_of_app. simpl. rewrite app_nil_r. naive_solver.
    + intros t' e Ht'. cbn [after]. apply Herr. apply Forall_app. split; [done|].
      apply Forall_app. split; [|done]. apply Forall_fmap, Forall_true. by intros.
  - intros t m (prs & <- & -> & Hm & Hd). cbn [after wp ret]. rewrite app_nil_r.
    apply (Hok _ _ gwRLP); [done|done|by apply config_of_actions].
Qed.

Lemma run_gatewayLimits gw refs s m :
  (run memory_server (gatewayLimits gw refs) s).2 = Ok m →
  ∃ rlps prs gwRLP,
    (run memory_server (gatewayLimits gw refs) s).1.2 =
      policy_reads refs rlps ++ route_reads prs ∧
    length rlps = length refs ∧ split_policies rlps (prs.*1, gwRLP) ∧
    ∀ d, is_Some (m !! d) ↔ d ∈ domains_of gw gwRLP prs.*2.
Proof.
  apply (wp_run memory_server (gatewayLimits gw refs) (λ t o, o = Ok m →
    ∃ rlps prs gwRLP, t = policy_reads refs rlps ++ route_reads prs ∧
      length rlps = length refs ∧ split_policies rlps (prs.*1, gwRLP) ∧
      ∀ d, is_Some (m !! d) ↔ d ∈ domains_of gw gwRLP prs.*2)).
  apply wp_gatewayLimits; [|done].
  intros rlps prs gwRLP m' Hl Hs _ _ Hd [= <-]. by exists rlps, prs, gwRLP.
Qed.

Lemma run_wasmPluginConfig gw refs s w :
  (run memory_server (wasmPluginConfig gw refs) s).2 = Ok (Some w) →
  ∃ rlps prs gwRLP,
    (run memory_server (wasmPluginConfig gw refs) s).1.2 =
      policy_reads refs rlps ++ route_reads prs ∧
    length rlps = length refs ∧ split_policies rlps (prs.*1, gwRLP) ∧
    config_of gw gwRLP prs w.
Proof.
  apply (wp_run memory_server (wasmPluginConfig gw refs) (λ t o, o = Ok (Some w) →
    ∃ rlps prs gwRLP, t = policy_reads refs rlps ++ route_reads prs ∧
      length rlps = length refs ∧ split_policies rlps (prs.*1, gwRLP) ∧
      config_of gw gwRLP prs w)).
  apply wp_wasmPluginConfig; [|done].
  intros rlps prs gwRLP w' Hl Hs Hc [= <-]. by exists rlps, prs, gwRLP.
Qed.

(** Reads answered by one store agree. *)
Lemma policy_reads_determined s keys rlps rlps' :
  length rlps = length keys → length rlps' = length keys →
  Forall (λ e, ev_answer e = (memory_server s (ev_call e)).2) (policy_reads keys rlps) →
  Forall (λ e, ev_answer e = (memory_server s (ev_call e)).2) (policy_reads keys rlps') →
  rlps = rlps'.
Proof.
  revert rlps rlps'. induction keys as [|k keys IH]; intros [|r rlps] [|r' rlps'] Hl Hl';
    simpl in *; try done.
  intros [Hr Hrs]%Forall_cons [Hr' Hrs']%Forall_cons.
  cbn [ev_answer ev_call] in Hr, Hr'. rewrite <- Hr' in Hr. injection Hr as ->.
  f_equal. by apply IH; [lia|lia|..].
Qed.

Lemma route_reads_determined s prs prs' :
  prs.*1 = prs'.*1 →
  Forall (λ e, ev_answer e = (memory_server s (ev_call e)).2) (route_reads prs) →
  Forall (λ e, ev_answer e = (memory_server s (ev_call e)).2) (route_reads prs') →
  prs = prs'.
Proof.
  revert prs'. induction prs as [|[r x] prs IH]; intros [|[r' x'] prs'] Heq; try done.
  injection Heq as <- Heq. unfold route_reads. rewrite !fmap_cons.
  intros [Hr Hrs]%Forall_cons [Hr' Hrs']%Forall_cons.
  cbn [ev_answer ev_call fst snd] in Hr, Hr'. rewrite <- Hr' in Hr. injection Hr as ->.
  f_equal. by apply IH.
Qed.
End config_lemmas.

(** The limits and the configuration of a gateway have the same domains. *)
Section same_domains.
Context `{Apimachinery, RefCodec, MapRangeOk}.
Context (gw : GatewayWrapper) (refs : list ObjectKey) (s : store).

Lemma config_domain w p :
  (run memory_server (wasmPluginConfig gw refs) s).2 = Ok (Some w) →
  p ∈ elems (Wasm.RateLimitPolicies w) →
  Wasm.RateLimitDomain p = MarshallNamespace (Key gw) (Wasm.Name p).
Proof.
  intros Hw. destruct (run_wasmPluginConfig gw refs s w Hw)
    as (rlps & prs & g & _ & _ & _ & _ & ps & -> & _ & _ & Hp).
  simpl. rewrite Forall_forall in Hp. intros Hin. by destruct (Hp p Hin).
Qed.

Lemma same_domains m w :
  (run memory_server (gatewayLimits gw refs) s).2 = Ok m →
  (run memory_server (wasmPluginConfig gw refs) s).2 = Ok (Some w) →
  ∀ d, is_Some (m !! d) ↔
       ∃ p, p ∈ elems (Wasm.RateLimitPolicies w) ∧ Wasm.Name p = d ∧
            Wasm.Hostnames p = Some [d] ∧ Wasm.RateLimitDomain p = MarshallNamespace (Key gw) d.
Proof.
  intros Hm Hw.
  pose proof (run_answers (gatewayLimits gw refs) s) as Ha1.
  pose proof (run_answers (wasmPluginConfig gw refs) s) as Ha2.
  specialize (Ha1 ltac:(by apply emits_gatewayLimits)).
  specialize (Ha2 ltac:(by apply emits_wasmPluginConfig)).
  destruct (run_gatewayLimits gw refs s m Hm) as (rlps & prs & g & Ht & Hl & [Hs Hg] & Hd).
  destruct (run_wasmPluginConfig gw refs s w Hw)
    as (rlps' & prs' & g' & Ht' & Hl' & [Hs' Hg'] & _ & ps & Hps & _ & Hn & Hp).
  rewrite Ht in Ha1. rewrite Ht' in Ha2. apply Forall_app in Ha1 as [Hp1 Hr1].
  apply Forall_app in Ha2 as [Hp2 Hr2]. cbn [fst snd] in *.
  assert (rlps = rlps') as <- by (by eapply policy_reads_determined).
  assert (prs = prs') as <- by (eapply route_reads_determined; [congruence|done..]).
  assert (g = g') as <- by (rewrite Hg in Hg'; by destruct g, g'; simplify_eq).
  intros d. rewrite Hd, <- Hn, Hps. simpl. rewrite list_elem_of_fmap.
  rewrite Forall_forall in Hp. split.
  - intros (p & -> & Hin). exists p. destruct (Hp p Hin) as (Hdom & _ & Hh & _). auto.
  - intros (p & Hin & <- & _). eauto.
Qed.

Lemma replaced_marshallable lim (m : LimitsByDomain) :
  (∀ d, is_Some (m !! d) → marshallable (Key gw) d) →
  index_marshallable (AddGatewayLimits (DeleteGateway (NewLimitadorIndex (Some lim)) (Key gw)) (Key gw) m).
Proof.
  intros Hm g d. rewrite limits_at_replace. case_decide as Hg.
  - subst g. intros Hne. apply Hm. by destruct (m !! d).
  - apply NewLimitadorIndex_marshallable.
Qed.
End same_domains.

(** ** Properties *)

(** C11: the configuration of the wasm filter.  A successful call reads the
    referenced policies and the routes of those that target one, never
    answers that there is nothing to configure, and gives one policy per
    domain with a distinct name: its rate limit domain is the limit namespace
    of that gateway and domain, it applies to that host, and its actions are
    those of the gateway's policy, once per listener naming the domain, and
    then for each route policy its own (with rules from the route where it has
    none) followed by the gateway policy's, once per host name of the route. *)
Theorem wasmPluginConfig_correct (AM : Apimachinery) (RC : RefCodec)
    (MR : MapRange) (MRok : MapRangeOk) (gw : GatewayWrapper) (refs : list ObjectKey) :
  wp (wasmPluginConfig gw refs) (λ t o,
    Forall (λ ev, reads (ev_call ev)) t ∧
    match o with
    | Ok w => ∃ rlps prs gwRLP w', w = Some w' ∧
        t = policy_reads refs rlps ++ route_reads prs ∧ length rlps = length refs ∧
        split_policies rlps (prs.*1, gwRLP) ∧ config_of gw gwRLP prs w'
    | Err _ => True
    | Panic _ => False
    end).
Proof.
  apply wp_wasmPluginConfig; [|done]. intros rlps prs gwRLP w Hl Hs Hc. split.
  - apply Forall_app. split; [apply policy_reads_read|].
    apply Forall_fmap, Forall_true. by intros.
  - exists rlps, prs, gwRLP, w. auto 10.
Qed.


(** Another lawful order of iteration. *)
Definition reverse_order (MR : MapRange) : MapRange := λ K _ _ V m, reverse (map_range m).

Lemma reverse_order_ok (MR : MapRange) (MRok : MapRangeOk) : @MapRangeOk (reverse_order MR).
Proof.
  intros K dec count V m. unfold map_range, reverse_order.
  rewrite reverse_Permutation. apply MRok.
Qed.

Lemma reverse_neq {A B} (f : A → B) (l : list A) :
  NoDup (f <$> l) → (2 ≤ length l)%nat → f <$> reverse l ≠ f <$> l.
Proof.
  destruct l as [|x l]; simpl; [lia|]. intros [Hx Hnd]%NoDup_cons Hl.
  destruct l as [|y l _] using rev_ind; simpl in *; [lia|].
  rewrite reverse_cons, reverse_snoc. simpl. intros [= Heq _]. apply Hx.
  rewrite <- Heq, fmap_app. apply elem_of_app. right. left.
Qed.

Lemma reversed_config `{Apimachinery, RefCodec, MapRangeOk} gw refs s w :
  (run memory_server (wasmPluginConfig gw refs) s).2 = Ok (Some w) →
  (2 ≤ length (elems (Wasm.RateLimitPolicies w)))%nat →
  ∃ w', (run memory_server (@wasmPluginConfig _ (reverse_order _) gw refs) s).2 =
          Ok (Some w') ∧
    elems (Wasm.RateLimitPolicies w') ≡ₚ elems (Wasm.RateLimitPolicies w) ∧
    canonical w' ≠ canonical w.
Proof.
  intros Hw Hmany.
  pose proof (run_wasmPluginConfig gw refs s w Hw) as (rlps & prs & g & _ & _ & _ & _ & ps & Hps & Hnd & _).
  revert Hw. unfold wasmPluginConfig. rewrite !run_bind.
  destruct (run memory_server (load_policies _ refs) s) as [[s1 t1] [[rs gr]|e|m]]; [|done..].
  rewrite !run_bind.
  destruct (run memory_server (loop _ _ rs) s1) as [[s2 t2] [acts|e|m]]; [|done..].
  cbn [run ret snd]. intros [= <-]. eexists. split; [reflexivity|].
  cbn [Wasm.RateLimitPolicies elems] in *. injection Hps as <-.
  rewrite !domain_policies_fmap in *.
  change (@map_range (reverse_order MR) string _ _ _ acts) with (reverse (map_range acts)).
  split; [exact (fmap_Permutation _ _ _ (reverse_Permutation (map_range acts)))|].
  unfold canonical. cbn [Wasm.RateLimitPolicies Wasm.FailureModeDeny]. intros [= Heq].
  apply (f_equal (fmap Wasm.Name)) in Heq.
  apply (reverse_neq (λ kv, Wasm.Name (domain_policy gw kv.1 kv.2)) (map_range acts)).
  - by rewrite <- list_fmap_compose in Hnd.
  - simpl in Hmany. by rewrite length_fmap in Hmany.
  - revert Heq. by rewrite <- !list_fmap_compose.
Qed.

(** C12: the configuration of the filter depends on the order in which Go
    iterates over a map.  Whenever the configuration has more than one domain,
    there is an allowed order of iteration for which the same call, with the
    same answers, returns the same policies in another order; and the mutator
    takes a plugin with the one for changed when the other is desired, and asks
    for an update that installs it. *)
Theorem wasm_order_unspecified (AM : Apimachinery) (RC : RefCodec)
    (SC : StructCodec) (SCok : StructCodecOk)
    (MR : MapRange) (MRok : MapRangeOk) (gw : GatewayWrapper) (refs : list ObjectKey)
    (s : store) (w : Wasm.WASMPlugin)
    (Hw : (run memory_server (wasmPluginConfig gw refs) s).2 = Ok (Some w))
    (Hmany : (2 ≤ length (elems (Wasm.RateLimitPolicies w)))%nat) :
  ∃ MR' : MapRange, @MapRangeOk MR' ∧ ∃ w' v v',
    (run memory_server (@wasmPluginConfig AM MR' gw refs) s).2 = Ok (Some w') ∧
    elems (Wasm.RateLimitPolicies w') ≡ₚ elems (Wasm.RateLimitPolicies w) ∧
    ToStruct w = Ok v ∧ ToStruct w' = Ok v' ∧
    ∀ existing desired : WasmPlugin,
      wp_PluginConfig (spec existing) = Some v → wp_PluginConfig (spec desired) = Some v' →
      WASMPluginMutator KWasmPlugin KWasmPlugin existing desired =
      Ok (set_PluginConfig existing (Some v'), true).
Proof.
  exists (reverse_order MR). split; [by apply reverse_order_ok|].
  destruct (reversed_config gw refs s w Hw Hmany) as (w' & Hw' & Hperm & Hne).
  exists w'. do 2 eexists. split; [exact Hw'|]. split; [exact Hperm|].
  split; [apply ToStruct_eq|]. split; [apply ToStruct_eq|]. intros existing desired He Hd.
  destruct (WASMPluginMutator_settles SC SCok w w' _ _ existing desired
    (ToStruct_eq w) (ToStruct_eq w') He Hd) as (o' & b & -> & Hb & Ho & _).
  destruct b; [by rewrite Ho|]. assert (false = true) by (by apply Hb, not_eq_sym). done.
Qed.

Lemma wasmPluginConfig_correct_witness :
  let gw := Some cluster_gateway in
  let r := run memory_server (wasmPluginConfig gw [ObjectKeyFromObject cluster_policy]) cluster in
  ∃ w' prs gwRLP, r.2 = Ok (Some w') ∧ config_of gw gwRLP prs w' ∧
    Wasm.Name <$> elems (Wasm.RateLimitPolicies w') = ["api.com"].
Proof.
  intros gw r.
  destruct (wp_run memory_server _ _ cluster
    (wasmPluginConfig_correct default_apimachinery json_ref_codec map_range_default
       map_range_default_ok gw [ObjectKeyFromObject cluster_policy])) as [_ Hr].
  fold r in Hr.
  assert (match r.2 with
          | Ok (Some w) => Wasm.Name <$> elems (Wasm.RateLimitPolicies w) = ["api.com"]
          | _ => False
          end) as Hn by (vm_compute; reflexivity).
  destruct r.2 as [[w|]|e|m]; [|destruct Hn..].
  destruct Hr as (rlps & prs & gwRLP & w' & Hw & _ & _ & _ & Hc). injection Hw as <-.
  exists w, prs, gwRLP. split; [reflexivity|]. split; [exact Hc|exact Hn].
Defined.


(** The sample cluster, its route with two host names. *)
Definition two_host_route : HTTPRoute :=
  set_spec cluster_route {| ParentRefs := ParentRefs (spec cluster_route);
                            Hostnames_ := ["api.com"; "web.com"]; route_Rules := [] |}.
Definition two_host_config : outcome (option Wasm.WASMPlugin) :=
  (run memory_server
     (wasmPluginConfig (Some cluster_gateway) [ObjectKeyFromObject cluster_policy])
     (store_put cluster (k:=KHTTPRoute) two_host_route)).2.

Lemma wasm_order_unspecified_witness :
  ∃ w, two_host_config = Ok (Some w) ∧ ∃ (MR' : MapRange) w' v v',
    (run memory_server
       (@wasmPluginConfig default_apimachinery MR' (Some cluster_gateway)
          [ObjectKeyFromObject cluster_policy])
       (store_put cluster (k:=KHTTPRoute) two_host_route)).2 = Ok (Some w') ∧
    ToStruct w = Ok v ∧ ToStruct w' = Ok v' ∧
    WASMPluginMutator KWasmPlugin KWasmPlugin (sample_wasm v) (sample_wasm v') =
    Ok (set_PluginConfig (sample_wasm v) (Some v'), true).
Proof.
  assert (match two_host_config with
          | Ok (Some w) => length (elems (Wasm.RateLimitPolicies w)) = 2%nat
          | _ => False
          end) as Hl by (vm_compute; reflexivity).
  destruct two_host_config as [[w|]|e|m] eqn:Hw; [|destruct Hl..].
  exists w. split; [reflexivity|].
  destruct (wasm_order_unspecified default_apimachinery json_ref_codec compact_struct_codec
    compact_struct_codec_ok map_range_default
    map_range_default_ok (Some cluster_gateway) [ObjectKeyFromObject cluster_policy]
    (store_put cluster (k:=KHTTPRoute) two_host_route) w Hw)
    as (MR' & Hok & w' & v & v' & Hw' & _ & Hv & Hv' & Hmut).
  - rewrite Hl. lia.
  - exists MR', w', v, v'. split; [exact Hw'|]. split; [exact Hv|]. split; [exact Hv'|].
    apply Hmut; reflexivity.
Defined.
