(* ===== verification/LimitadorSteady.v ===== *)
(** * The Limitador object reaches a steady state
      (controllers/apim/ratelimitpolicy_limits.go)

    What [reconcileLimits] computes as a function of the cluster, and that on a
    cluster nobody else changes a second call finds nothing to write. *)
From S2P Require Import Prelude GoStrings KubeTypes CommonUtils RouteRules PolicyTypes.
From S2P Require Import LimitIndex Json GatewayRefs Client Apimachinery.
From S2P Require Import BaseReconciler TargetRef WasmConfig Samples RateLimitLimits RateLimitIstio.

Open Scope go_scope.

(** ** Reading from stores that agree *)

(** A program that only reads kinds on which two stores agree sees the same. *)
Lemma run_agree {A} (p : prog A) (s s' : store) :
  emits (λ c, reads c ∧ s (call_kind c) = s' (call_kind c)) p →
  (run memory_server p s).2 = (run memory_server p s').2.
Proof.
  induction p as [o|c k IH]; simpl; [done|]. intros [[Hr Hs] Hk]%emits_inv.
  assert ((memory_server s c).2 = (memory_server s' c).2) as Ha.
  { destruct c; try done; simpl in *; by rewrite Hs. }
  pose proof (memory_server_reads s c Hr) as H1. pose proof (memory_server_reads s' c Hr) as H2.
  destruct (memory_server s c) as [s1 a], (memory_server s' c) as [s2 a'].
  simpl in Ha, H1, H2. subst s1 s2 a'. specialize (IH a (Hk a)).
  destruct (run memory_server (k a) s) as [[? ?] ?], (run memory_server (k a) s') as [[? ?] ?].
  done.
Qed.

Lemma memory_server_get s k key (x : obj k) :
  (memory_server s (Get k key)).2 = Success x → s k !! key = Some x.
Proof. simpl. destruct (s k !! key); congruence. Qed.

Lemma run_get_limitador s key :
  run memory_server (get_limitador key) s =
  (s, [Event (Get KLimitador key) (memory_server s (Get KLimitador key)).2],
   get_result s KLimitador key).
Proof. exact (run_get s KLimitador key). Qed.

Lemma run_UpdateResource k (o : obj k) s :
  run memory_server (UpdateResource o) s =
  ((memory_server s (Update k o)).1, [Event (Update k o) (memory_server s (Update k o)).2],
   (answered (memory_server s (Update k o)).2 : outcome (obj k))).
Proof. exact (run_request memory_server (Update k o) s). Qed.

(** ** The index the reconciliation computes *)

Section computed.
Context `{Apimachinery, Environment, RefCodec, MapRangeOk, GoSortOk}.

Definition computed (s : store) (gw : GatewayWrapper) (refs : list ObjectKey) :
  outcome LimitsByDomain := (run memory_server (gatewayLimits gw refs) s).2.

Fixpoint replace_all (s : store) (refs : GatewayWrapper → list ObjectKey) (idx : LimitIndex)
    (gws : list GatewayWrapper) : outcome LimitIndex :=
  match gws with
  | [] => Ok idx
  | gw :: gws =>
      m <-? computed s gw (refs gw) ;;
      replace_all s refs (AddGatewayLimits (DeleteGateway idx (Key gw)) (Key gw) m) gws
  end.

Lemma reads_gatewayLimits gw refs : emits reads (gatewayLimits gw refs).
Proof. by apply emits_gatewayLimits. Qed.

Lemma reads_replace_loop refs idx gws : emits reads (loop (replace_limits refs) idx gws).
Proof. unfold replace_limits. pose proof reads_gatewayLimits. emits_auto. Qed.

Lemma run_replace_loop s refs idx gws :
  ∃ t, run memory_server (loop (replace_limits refs) idx gws) s = (s, t, replace_all s refs idx gws) ∧
       Forall (λ e, reads (ev_call e)) t.
Proof.
  pose proof (run_reads _ s (reads_replace_loop refs idx gws)) as Hs.
  pose proof (wp_run memory_server _ _ s (reads_replace_loop refs idx gws)) as Ht.
  assert ((run memory_server (loop (replace_limits refs) idx gws) s).2 =
          replace_all s refs idx gws) as Ho.
  { clear Hs Ht. revert idx. induction gws as [|gw gws IH]; intros idx; [done|].
    cbn [loop replace_all]. unfold replace_limits at 1. rewrite !run_bind. unfold computed.
    pose proof (run_reads _ s (reads_gatewayLimits gw (refs gw))) as Hs.
    destruct (run memory_server (gatewayLimits gw (refs gw)) s) as [[s1 t1] [m|e|m]];
      simpl in Hs; subst s1; [|done..].
    cbn [run ret outcome_bind snd]. specialize (IH (AddGatewayLimits (DeleteGateway idx (Key gw)) (Key gw) m)).
    by destruct (run memory_server (loop _ _ gws) s) as [[? ?] ?]. }
  destruct (run memory_server _ s) as [[s1 t] o]. simpl in *. subst. eauto.
Qed.

(** The entries of the gateways replaced do not depend on the index. *)
Lemma replace_all_spec s refs gws idx r :
  replace_all s refs idx gws = Ok r →
  ∃ f : ObjectKey → string → list Limit,
    (∀ gw d, gw ∈ gws → f (Key gw) d ≠ [] →
       ∃ gw' m, gw' ∈ gws ∧ Key gw' = Key gw ∧ computed s gw' (refs gw') = Ok m ∧
                is_Some (m !! d)) ∧
    ∀ idx', ∃ r', replace_all s refs idx' gws = Ok r' ∧ (index_wf idx' → index_wf r') ∧
      ∀ g d, limits_at r' g d =
             if decide (g ∈ Key <$> gws) then f g d else limits_at idx' g d.
Proof.
  revert idx. induction gws as [|gw gws IH]; intros idx; cbn [replace_all].
  { intros _. exists (λ _ _, []). split; [by intros ? ? ?%not_elem_of_nil|].
    intros idx'. exists idx'. auto. }
  destruct (computed s gw (refs gw)) as [m|e|e] eqn:Hm; cbn [outcome_bind]; [|done..].
  intros (f & Hf & Hall)%IH.
  exists (λ g d, if decide (g ∈ Key <$> gws) then f g d else default [] (m !! d)).
  split.
  - intros gw' d Hgw'. case_decide as Hin.
    + apply list_elem_of_fmap in Hin as (gw2 & Heq & Hgw2). rewrite Heq. intros Hne.
      destruct (Hf gw2 d Hgw2 Hne) as (gw3 & m3 & ? & ? & ? & ?). exists gw3, m3.
      split; [by right|]. auto.
    + intros Hne. exists gw, m. split; [left|].
      apply elem_of_cons in Hgw' as [->|Hgw'];
        [|by destruct Hin; apply list_elem_of_fmap_2].
      split; [done|]. split; [done|]. by destruct (m !! d).
  - intros idx'.
    destruct (Hall (AddGatewayLimits (DeleteGateway idx' (Key gw)) (Key gw) m))
      as (r' & Hr' & Hwf & Hat).
    exists r'. split; [done|]. split; [intros Hi; apply Hwf; eauto with kuadrant|].
    intros g d. rewrite Hat, limits_at_replace, fmap_cons.
    destruct (decide (g ∈ Key <$> gws)) as [Hin|Hin].
    + by rewrite decide_True by (by right).
    + destruct (decide (Key gw = g)) as [<-|Hne]; [by rewrite decide_True by left|].
      rewrite decide_False; [done|]. by intros [->|?]%elem_of_cons.
Qed.

(** *** The whole computation *)

Definition new_refs (rlp : RateLimitPolicy) (g : GatewayWrapper) : list ObjectKey :=
  RLPRefs g ++ [ObjectKeyFromObject rlp].

Definition goal_index (s : store) (rlp : RateLimitPolicy) (d : gatewayDiff)
    (before : LimitIndex) : outcome LimitIndex :=
  idx <-? replace_all s RLPRefs
            (foldl (λ idx g, DeleteGateway idx (Key g)) before (gd_Left d)) (gd_Same d) ;;
  replace_all s (new_refs rlp) idx (gd_New d).

(** A run of [reconcileLimits], by what it computes. *)
Lemma run_reconcileLimits s rlp d (lim : obj KLimitador) :
  s KLimitador !! limitadorKey = Some lim →
  let before := NewLimitadorIndex (Some (lim : Limitador)) in
  ∃ t, Forall (λ e, reads (ev_call e)) t ∧
  run memory_server (reconcileLimits rlp d) s =
  match goal_index s rlp d before with
  | Ok idx =>
      if LI.Equals before (Some idx) then (s, t, Ok tt)
      else let lim' : obj KLimitador := with_limits lim (ToLimits idx) in
           let '(s', a) := memory_server s (Update KLimitador lim') in
           (s', t ++ [Event (Update KLimitador lim') a], outcome_map (λ _, tt) (answered a))
  | Err e => (s, t, Err e)
  | Panic m => (s, t, Panic m)
  end.
Proof.
  intros Hlim before. unfold reconcileLimits. rewrite run_bind, run_get_limitador.
  unfold get_result. rewrite Hlim. cbv beta iota.
  set (ev0 := Event (Get KLimitador limitadorKey) _). fold before.
  set (idx0 := foldl _ before (gd_Left d)). rewrite run_bind.
  destruct (run_replace_loop s RLPRefs idx0 (gd_Same d)) as (t1 & -> & Ht1).
  unfold goal_index. fold idx0.
  destruct (replace_all s RLPRefs idx0 (gd_Same d)) as [idx1|e|m]; cbn [outcome_bind].
  2, 3: exists (ev0 :: t1); split; [by constructor|done].
  rewrite run_bind. fold (new_refs rlp).
  destruct (run_replace_loop s (new_refs rlp) idx1 (gd_New d)) as (t2 & -> & Ht2).
  destruct (replace_all s (new_refs rlp) idx1 (gd_New d)) as [idx2|e|m].
  2, 3: exists (ev0 :: t1 ++ t2); split; [by constructor; [|apply Forall_app]|done].
  exists (ev0 :: t1 ++ t2). split; [by constructor; [|apply Forall_app]|].
  destruct (LI.Equals before (Some idx2)); cbn [negb].
  - cbn [run ret]. by rewrite app_nil_r.
  - rewrite run_bind, run_UpdateResource.
    destruct (memory_server s (Update KLimitador _)) as [s' [r|e]]; cbn [fst snd answered run ret];
      cbn [app]; by rewrite ?app_nil_r, <- ?app_assoc.
Qed.

(** The limits of every gateway and domain in the goal, as a function of what
    the index was, and for any other start. *)
Lemma goal_index_spec s rlp d before idx :
  goal_index s rlp d before = Ok idx →
  ∃ f : ObjectKey → string → list Limit,
    (∀ g dom, f g dom ≠ [] → ∃ gw refs m, gw ∈ gd_Same d ++ gd_New d ∧ Key gw = g ∧
       computed s gw refs = Ok m ∧ is_Some (m !! dom)) ∧
    ∀ before', ∃ idx', goal_index s rlp d before' = Ok idx' ∧
      (index_wf before' → index_wf idx') ∧
      ∀ g dom, limits_at idx' g dom =
        if decide (g ∈ Key <$> gd_Same d ++ gd_New d) then f g dom
        else if decide (g ∈ Key <$> gd_Left d) then [] else limits_at before' g dom.
Proof.
  unfold goal_index.
  destruct (replace_all s RLPRefs _ (gd_Same d)) as [idx1|e|m] eqn:Hs1; cbn [outcome_bind]; [|done..].
  intros Hs2. apply replace_all_spec in Hs1 as (f1 & Hf1 & Hall1).
  apply replace_all_spec in Hs2 as (f2 & Hf2 & Hall2).
  exists (λ g dom, if decide (g ∈ Key <$> gd_New d) then f2 g dom
                   else if decide (g ∈ Key <$> gd_Same d) then f1 g dom else []).
  split.
  - intros g dom. case_decide as Hn; [|case_decide as Hs; [|done]]; intros Hne.
    + apply list_elem_of_fmap in Hn as (gw & -> & Hgw).
      destruct (Hf2 gw dom Hgw Hne) as (gw' & m & ? & ? & ? & ?). exists gw', (new_refs rlp gw'), m.
      split; [set_solver|]. auto.
    + apply list_elem_of_fmap in Hs as (gw & -> & Hgw).
      destruct (Hf1 gw dom Hgw Hne) as (gw' & m & ? & ? & ? & ?). exists gw', (RLPRefs gw'), m.
      split; [set_solver|]. auto.
  - intros before'.
    destruct (Hall1 (foldl (λ idx g, DeleteGateway idx (Key g)) before' (gd_Left d)))
      as (r1 & Hr1 & Hw1 & Hat1).
    destruct (Hall2 r1) as (r2 & Hr2 & Hw2 & Hat2).
    exists r2. rewrite Hr1. cbn [outcome_bind]. split; [done|]. split.
    + intros Hw. apply Hw2, Hw1. clear -Hw. revert before' Hw.
      induction (gd_Left d) as [|g l IH]; intros b Hw; [done|]. cbn [foldl]. apply IH.
      by apply DeleteGateway_wf.
    + intros g dom. rewrite Hat2, Hat1, limits_at_delete_all, fmap_app.
      destruct (decide (g ∈ Key <$> gd_New d)) as [Hn|Hn];
        [by rewrite decide_True by (apply elem_of_app; auto)|].
      destruct (decide (g ∈ Key <$> gd_Same d)) as [Hs|Hs];
        [by rewrite decide_True by (apply elem_of_app; auto)|].
      by rewrite (decide_False (P:=g ∈ (Key <$> gd_Same d) ++ (Key <$> gd_New d)))
        by (by intros [?|?]%elem_of_app).
Qed.

(** The computation looks at policies and routes only. *)
Lemma replace_all_agree s s' refs idx gws :
  s KRateLimitPolicy = s' KRateLimitPolicy → s KHTTPRoute = s' KHTTPRoute →
  replace_all s refs idx gws = replace_all s' refs idx gws.
Proof.
  intros Hp Hr. revert idx. induction gws as [|gw gws IH]; intros idx; [done|].
  cbn [replace_all]. unfold computed. rewrite (run_agree _ s s').
  - by destruct (run memory_server _ s').2; cbn [outcome_bind].
  - by apply emits_gatewayLimits.
Qed.

Lemma goal_index_agree s s' rlp d before :
  s KRateLimitPolicy = s' KRateLimitPolicy → s KHTTPRoute = s' KHTTPRoute →
  goal_index s rlp d before = goal_index s' rlp d before.
Proof.
  intros Hp Hr. unfold goal_index. rewrite (replace_all_agree s s') by done.
  destruct (replace_all s' _ _ (gd_Same d)); cbn [outcome_bind]; [|done..].
  by apply replace_all_agree.
Qed.

Lemma LI_Equals_refl l : LI.Equals l (Some l) = true.
Proof.
  apply LI_Equals_Forall2. intros g. destruct (l !! g) as [m|]; constructor.
  intros d. destruct (m !! d) as [ls|]; constructor. apply SameLimitList_refl.
Qed.
End computed.

(** ** Properties *)

(** The names the API server admits: gateways and their listeners, and the host
    names of routes, hold no separator of limit namespaces. *)
Definition names_valid (s : store) (gws : list GatewayWrapper) : Prop :=
  (∀ gw d, gw ∈ gws → d ∈ or_any (Hostnames gw) → marshallable (Key gw) d) ∧
  (∀ k (r : obj KHTTPRoute) d, s KHTTPRoute !! k = Some r → d ∈ Hostnames_ (spec r) →
     has_byte "#" d = false).

Lemma computed_marshallable `{Apimachinery, RefCodec} s gws gw refs m d :
  names_valid s gws → gw ∈ gws → computed s gw refs = Ok m → is_Some (m !! d) →
  marshallable (Key gw) d.
Proof.
  intros [Hg Hr] Hgw Hm Hd.
  pose proof (run_answers _ s (reads_gatewayLimits gw refs)) as Ha.
  destruct (run_gatewayLimits gw refs s m Hm) as (rlps & prs & g & Ht & _ & _ & Hdom).
  rewrite Ht in Ha. apply Forall_app in Ha as [_ Ha]. apply Hdom in Hd.
  unfold domains_of in Hd. apply elem_of_app in Hd as [Hd|Hd].
  - destruct g; [by apply Hg|by apply not_elem_of_nil in Hd].
  - apply list_elem_of_bind in Hd as (route & Hd & Hroute).
    apply list_elem_of_fmap in Hroute as ([r route'] & -> & Hpr). cbn [snd] in Hd.
    unfold route_reads in Ha. rewrite Forall_fmap, Forall_forall in Ha.
    specialize (Ha _ Hpr).
    assert ((memory_server s (Get KHTTPRoute (RLP.TargetKey r))).2 = Success route') as Ha'
      by (symmetry; exact Ha).
    pose proof (memory_server_get s KHTTPRoute (RLP.TargetKey r) route' Ha') as Hk.
    pose proof (Hr _ route' d Hk Hd) as Hh.
    assert (∃ x, x ∈ or_any (Hostnames gw)) as [x Hx].
    { destruct (Hostnames gw) as [|x l]; [exists "*"|exists x]; left. }
    destruct (Hg gw x Hgw Hx) as (? & ? & ? & ? & _). repeat split; done.
Qed.

(** Read back from the object it was written to, the goal is the same. *)
Lemma goal_index_reread `{Apimachinery, RefCodec, MapRangeOk} s rlp d lim idx :
  names_valid s (gd_Same d ++ gd_New d) →
  goal_index s rlp d (NewLimitadorIndex (Some lim)) = Ok idx →
  index_wf idx ∧ NewLimitadorIndex (Some (with_limits lim (ToLimits idx))) = idx.
Proof.
  intros Hnames Hgoal. pose proof (goal_index_spec s rlp d _ idx Hgoal) as (f & Hf & Hall).
  set (before := NewLimitadorIndex (Some lim)) in *.
  destruct (Hall before) as (idx0 & Hidx0 & Hwf0 & Hat0).
  rewrite Hgoal in Hidx0. injection Hidx0 as <-.
  assert (index_wf idx) as Hw by apply Hwf0, NewLimitadorIndex_wf. split; [done|].
  assert (index_marshallable idx) as Hmar.
  { intros g dom. rewrite Hat0. case_decide as Hin.
    - intros Hne. destruct (Hf g dom Hne) as (gw & refs & m & Hgw & <- & Hm & Hd).
      by eapply computed_marshallable.
    - case_decide; [done|]. apply NewLimitadorIndex_marshallable. }
  apply index_ext; [apply NewLimitadorIndex_wf|done|]. intros g dom. by apply limits_at_reread.
Qed.

(** *** The order of map iteration, which may differ from run to run *)

Section orders.
Context `{Apimachinery, RefCodec, GoSortOk}.
Context (MR MR' : MapRange) (MRok : @MapRangeOk MR) (MRok' : @MapRangeOk MR').

Lemma AddGatewayLimits_order idx g m :
  index_wf idx → @AddGatewayLimits MR idx g m = @AddGatewayLimits MR' idx g m.
Proof.
  intros Hwf. apply index_ext; [by apply AddGatewayLimits_wf..|].
  intros g' d. by rewrite !limits_at_AddGatewayLimits.
Qed.

Lemma replace_all_order s refs gws idx :
  index_wf idx →
  replace_all (MR:=MR) s refs idx gws = replace_all (MR:=MR') s refs idx gws.
Proof.
  revert idx. induction gws as [|gw gws IH]; intros idx Hwf; [done|]. cbn [replace_all].
  destruct (computed s gw (refs gw)) as [m|e|e]; cbn [outcome_bind]; [|done..].
  rewrite AddGatewayLimits_order by (by apply DeleteGateway_wf). apply IH.
  by apply AddGatewayLimits_wf, DeleteGateway_wf.
Qed.

Lemma replace_all_wf s refs gws idx r :
  replace_all (MR:=MR) s refs idx gws = Ok r → index_wf idx → index_wf r.
Proof.
  revert idx. induction gws as [|gw gws IH]; intros idx; cbn [replace_all]; [by intros [= <-]|].
  destruct (computed s gw (refs gw)) as [m|e|e]; cbn [outcome_bind]; [|done..].
  intros Hr Hwf. apply (IH _ Hr). by apply AddGatewayLimits_wf, DeleteGateway_wf.
Qed.

Lemma delete_all_wf (gws : list GatewayWrapper) idx :
  index_wf idx → index_wf (foldl (λ idx g, DeleteGateway idx (Key g)) idx gws).
Proof.
  revert idx. induction gws as [|g gws IH]; intros idx Hwf; [done|]. cbn [foldl].
  by apply IH, DeleteGateway_wf.
Qed.

Lemma goal_index_order s rlp d before :
  index_wf before → goal_index (MR:=MR) s rlp d before = goal_index (MR:=MR') s rlp d before.
Proof.
  intros Hwf. unfold goal_index. pose proof (delete_all_wf (gd_Left d) before Hwf) as Hd.
  rewrite <- replace_all_order by done.
  destruct (replace_all (MR:=MR) s RLPRefs _ (gd_Same d)) as [idx|e|m] eqn:Hs; [|done..].
  cbn [outcome_bind]. apply replace_all_order. by eapply replace_all_wf.
Qed.

Lemma LI_Equals_order l k :
  @LI.Equals _ MR l (Some k) = @LI.Equals _ MR' l (Some k).
Proof.
  apply eq_true_iff_eq. rewrite (LI_Equals_Forall2 (MR:=MR)), (LI_Equals_Forall2 (MR:=MR')). done.
Qed.
End orders.

(** After a call that succeeded the goal is what Limitador has. *)
Lemma reconcileLimits_reaches `{Apimachinery, Environment, RefCodec, MapRangeOk, GoSortOk}
    rlp d s :
  store_wf s → names_valid s (gd_Same d ++ gd_New d) →
  (run memory_server (reconcileLimits rlp d) s).2 = Ok tt →
  let s1 := (run memory_server (reconcileLimits rlp d) s).1.1 in
  ∃ (lim : obj KLimitador) idx, s1 KLimitador !! limitadorKey = Some lim ∧
    let before := NewLimitadorIndex (Some (lim : Limitador)) in
    goal_index s1 rlp d before = Ok idx ∧ LI.Equals before (Some idx) = true.
Proof.
  intros Hwf Hnames Hok s1.
  destruct (s KLimitador !! limitadorKey) as [lim|] eqn:Hlim.
  2: { exfalso. revert Hok. unfold reconcileLimits. rewrite run_bind, run_get_limitador.
       unfold get_result. by rewrite Hlim. }
  destruct (run_reconcileLimits s rlp d lim Hlim) as (t & Ht & Hrun).
  revert Hok. subst s1. rewrite Hrun.
  destruct (goal_index s rlp d _) as [idx|e|m] eqn:Hgoal; [|done..].
  destruct (LI.Equals _ (Some idx)) eqn:Heq; [by exists lim, idx|].
  set (lim' := with_limits lim (ToLimits idx) : obj KLimitador).
  assert (ObjectKeyFromObject lim' = limitadorKey) as Hkey by exact (Hwf KLimitador limitadorKey lim Hlim).
  cbn [memory_server]. rewrite Hkey, Hlim. cbn [fst snd]. intros _.
  set (s1 := store_put s lim').
  pose proof (goal_index_spec s rlp d _ idx Hgoal) as (f & Hf & Hall).
  set (before := NewLimitadorIndex (Some (lim : Limitador))) in *.
  destruct (Hall before) as (idx0 & Hidx0 & Hwf0 & Hat0).
  rewrite Hgoal in Hidx0. injection Hidx0 as <-.
  destruct (goal_index_reread s rlp d lim idx Hnames Hgoal) as [Hw Hre].
  change (NewLimitadorIndex (Some (lim' : Limitador)) = idx) in Hre.
  exists lim', idx. split.
  { unfold s1. rewrite store_put_same, Hkey. apply lookup_insert_eq. }
  cbn zeta. rewrite Hre. split; [|apply LI_Equals_refl].
  rewrite (goal_index_agree s1 s) by (unfold s1; by rewrite store_put_other).
  destruct (Hall idx) as (idx2 & -> & Hwf2 & Hat2). f_equal.
  apply index_ext; [auto|done|]. intros g dom. rewrite Hat2, Hat0. by repeat case_decide.
Qed.

(** C14: the limits reach a steady state.  On a server without other actors,
    once [reconcileLimits] succeeded, calling it again for the same policy and
    gateways succeeds and only reads, whatever Limitador held before, and
    although Go may iterate over its maps in another order the second time. *)
Theorem reconcileLimits_settles (AM : Apimachinery) (Env : Environment) (RC : RefCodec)
    (MR MR' : MapRange) (MRok : @MapRangeOk MR) (MRok' : @MapRangeOk MR')
    (GS : GoSort) (GSok : GoSortOk) (rlp : RateLimitPolicy) (d : gatewayDiff) (s : store)
    (Hwf : store_wf s) (Hnames : names_valid s (gd_Same d ++ gd_New d))
    (Hok : (run memory_server (@reconcileLimits AM Env RC MR GS rlp d) s).2 = Ok tt) :
  let s1 := (run memory_server (@reconcileLimits AM Env RC MR GS rlp d) s).1.1 in
  let second := run memory_server (@reconcileLimits AM Env RC MR' GS rlp d) s1 in
  second.2 = Ok tt ∧ second.1.1 = s1 ∧ Forall (λ e, reads (ev_call e)) second.1.2.
Proof.
  cbn zeta.
  destruct (reconcileLimits_reaches rlp d s Hwf Hnames Hok) as (lim & idx & Hlim & Hgoal & Heq).
  destruct (run_reconcileLimits (MR:=MR') _ rlp d lim Hlim) as (t & Ht & Hrun).
  rewrite (goal_index_order MR MR' MRok MRok') in Hgoal by apply NewLimitadorIndex_wf.
  rewrite (LI_Equals_order MR MR' MRok MRok') in Heq.
  by rewrite Hrun, Hgoal, Heq.
Qed.

(** The sample cluster: the first call writes, so the second one meets an
    index that was read back from the object written. *)
Lemma cluster_names_valid : names_valid cluster (gd_Same sample_diff ++ gd_New sample_diff).
Proof.
  split.
  - intros gw d ->%list_elem_of_singleton Hd. change (d ∈ ["*.com"]) in Hd.
    apply list_elem_of_singleton in Hd as ->. by vm_compute.
  - intros k r d Hr Hd.
    change (({[ {| Namespace := "ns"; Name := "route" |} := cluster_route ]} :
              gmap ObjectKey HTTPRoute) !! k = Some r) in Hr.
    apply lookup_singleton_Some in Hr as [_ <-].
    change (d ∈ ["api.com"]) in Hd. by apply list_elem_of_singleton in Hd as ->.
Qed.

Lemma reconcileLimits_settles_witness :
  let first := run (@memory_server) (@reconcileLimits default_apimachinery sample_environment
      json_ref_codec map_range_default go_merge_sort cluster_policy sample_diff) cluster in
  first.2 = Ok tt ∧ existsb (λ e, is_write (ev_call e)) first.1.2 = true ∧
  Forall (λ e, reads (ev_call e))
    (run memory_server (@reconcileLimits default_apimachinery sample_environment
      json_ref_codec map_range_reverse go_merge_sort cluster_policy sample_diff) first.1.1).1.2.
Proof.
  intros first. assert (first.2 = Ok tt) as Hok by (vm_compute; reflexivity).
  split; [exact Hok|]. split; [vm_compute; reflexivity|].
  destruct (reconcileLimits_settles default_apimachinery sample_environment json_ref_codec
    map_range_default map_range_reverse map_range_default_ok map_range_reverse_ok
    go_merge_sort go_merge_sort_ok cluster_policy sample_diff cluster cluster_wf cluster_names_valid Hok) as (_ & _ & Hr).
  exact Hr.
Defined.
