(* ===== verification/RateLimitController.v ===== *)
(** * The RateLimitPolicy reconciler
      (controllers/apim/ratelimitpolicy_controller.go,
       ratelimitpolicy_finalizers.go, ratelimitpolicy_status.go) *)
From S2P Require Import Prelude GoStrings Hostname KubeTypes CommonUtils RouteRules PolicyTypes.
From S2P Require Import LimitIndex Json GatewayRefs Client Apimachinery.
From S2P Require Import BaseReconciler TargetRef JsonText JsonStruct WasmJson WasmConfig Samples RateLimitLimits RateLimitIstio.

Open Scope go_scope.

(** ** The code *)

(** [ctrl.Result] *)
Record Result := { Requeue : bool }.
Definition no_requeue : Result := {| Requeue := false |}.

(** [client.IgnoreNotFound] of the error of a call *)
Definition IgnoreNotFound (err : error) : option error :=
  if IsNotFound err then None else Some err.

Definition rateLimitPolicyFinalizer : string := "ratelimitpolicy.kuadrant.io/finalizer".
Definition RLPAvailableConditionType : string := "Available".

Section code.
Context `{Apimachinery, Environment, RefCodec, MapRange, GoSort}.
Context `{StructCodec, PatchCodec, ConditionCodec}.

(** *** Gateway diffs and references *)

Definition computeGatewayDiffs (rlp : RateLimitPolicy) : prog (option gatewayDiff) :=
  gwKeys <-- TargetedGatewayKeys (rlp_TargetRef (spec rlp)) (meta_Namespace (ometa rlp)) ;;
  allGwList <-- list_gateways ;;
  ret (Some {| gd_New := NewGateways allGwList (ObjectKeyFromObject rlp) gwKeys;
               gd_Same := SameGateways allGwList (ObjectKeyFromObject rlp) gwKeys;
               gd_Left := LeftGateways allGwList (ObjectKeyFromObject rlp) gwKeys |}).

Definition reconcileDirectBackReference (rlp : RateLimitPolicy) : prog unit :=
  ReconcileTargetBackReference (ObjectKeyFromObject rlp) (rlp_TargetRef (spec rlp))
    (meta_Namespace (ometa rlp)) RateLimitPolicyBackRefAnnotation.

(** One gateway; [change] is [DeleteRLP] or [AddRLP].  The wrapped object is
    changed in place, and by the update: [acc] collects the gateways as they
    are afterwards. *)
Definition update_references (change : GatewayWrapper → GatewayWrapper * bool)
    (acc : list GatewayWrapper) (g : GatewayWrapper) : prog (list GatewayWrapper) :=
  match change g with
  | (g, false) => ret (acc ++ [g])
  | (Some gw, true) =>
      gw <-- UpdateResource (k:=KGateway) gw ;; ret (acc ++ [Some (gw : Gateway)])
  | (None, true) => panic "invalid memory address or nil pointer dereference"
  end.

Definition reconcileGatewayRLPReferences (rlp : RateLimitPolicy) (gwDiffObj : gatewayDiff) :
  prog gatewayDiff :=
  left_ <-- loop (update_references (λ g, DeleteRLP g (ObjectKeyFromObject rlp))) []
              (gd_Left gwDiffObj) ;;
  new <-- loop (update_references (λ g, AddRLP g (ObjectKeyFromObject rlp))) []
            (gd_New gwDiffObj) ;;
  ret {| gd_New := new; gd_Same := gd_Same gwDiffObj; gd_Left := left_ |}.

(** The hosts collected by the two loops of [validateRuleHosts] *)
Definition ruleHosts (rlp : RateLimitPolicy) : list string :=
  foldl (λ ruleHosts rl,
    foldl (λ ruleHosts rule, ruleHosts ++ elems (Hosts rule)) ruleHosts (elems (Rules rl)))
    [] (elems (RateLimits (spec rlp))).

Definition validateRuleHosts (rlp : RateLimitPolicy) : prog unit :=
  targetHostnames <-- TargetHostnames (rlp_TargetRef (spec rlp)) (meta_Namespace (ometa rlp)) ;;
  match ValidSubdomains targetHostnames (ruleHosts rlp) with
  | (true, _) => ret tt
  | (false, invalidHost) => fail (ErrText ("rule host (" +:+ invalidHost +:+ ") not valid"))
  end.

Definition reconcileGatewayDiffs (rlp : RateLimitPolicy) : prog unit :=
  gatewayDiffObj <-- computeGatewayDiffs rlp ;;
  match gatewayDiffObj with
  | None => ret tt
  | Some gatewayDiffObj =>
      reconcileLimits rlp gatewayDiffObj ;;;
      reconcileRateLimitingClusterEnvoyFilter rlp gatewayDiffObj ;;;
      reconcileWASMPluginConf rlp gatewayDiffObj ;;;
      reconcileGatewayRLPReferences rlp gatewayDiffObj ;;;
      ret tt
  end.

Definition reconcileSpec (rlp : RateLimitPolicy) : prog Result :=
  Ret (RLP.Validate rlp) ;;;
  validateRuleHosts rlp ;;;
  reconcileDirectBackReference rlp ;;;
  reconcileGatewayDiffs rlp ;;;
  ret no_requeue.

(** *** Finalizing *)

Definition fetch_left_gateway (acc : list GatewayWrapper) (gwKey : ObjectKey) :
  prog (list GatewayWrapper) :=
  gw <-- attempt (get_gateway gwKey) ;;
  match gw with
  | Failure err => if IsNotFound err then ret acc else fail err
  | Success gw => ret (acc ++ [Some gw])
  end.

Definition computeFinalizeGatewayDiff (rlp : RateLimitPolicy) : prog (option gatewayDiff) :=
  keys <-- attempt (TargetedGatewayKeys (rlp_TargetRef (spec rlp)) (meta_Namespace (ometa rlp))) ;;
  gwKeys <-- match keys with
             | Failure err => if IsNotFound err then ret [] else fail err
             | Success gwKeys => ret gwKeys
             end ;;
  left_ <-- loop fetch_left_gateway [] gwKeys ;;
  ret (Some {| gd_New := []; gd_Same := []; gd_Left := left_ |}).

Definition deleteNetworkResourceBackReference (rlp : RateLimitPolicy) : prog unit :=
  DeleteTargetBackReference (ObjectKeyFromObject rlp) (rlp_TargetRef (spec rlp))
    (meta_Namespace (ometa rlp)) RateLimitPolicyBackRefAnnotation.

Definition finalizeRLP (rlp : RateLimitPolicy) : prog unit :=
  gatewayDiffObj <-- computeFinalizeGatewayDiff rlp ;;
  match gatewayDiffObj with
  | None => ret tt
  | Some gatewayDiffObj =>
      gatewayDiffObj <-- reconcileGatewayRLPReferences rlp gatewayDiffObj ;;
      reconcileWASMPluginConf rlp gatewayDiffObj ;;;
      reconcileRateLimitingClusterEnvoyFilter rlp gatewayDiffObj ;;;
      (limits <-- attempt (reconcileLimits rlp gatewayDiffObj) ;;
       match limits with
       | Failure err => if IsNotFound err then ret tt else fail err
       | Success _ => ret tt
       end) ;;;
      deleteNetworkResourceBackReference rlp
  end.

(** *** Status *)

Definition availableCondition (specErr : option error) : Condition :=
  match specErr with
  | None =>
      {| cond_Type := RLPAvailableConditionType; cond_Status := "True";
         cond_ObservedGeneration := 0; cond_LastTransitionTime := 0;
         cond_Reason := "HTTPRouteProtected"; cond_Message := "HTTPRoute is ratelimited" |}
  | Some err =>
      {| cond_Type := RLPAvailableConditionType; cond_Status := "False";
         cond_ObservedGeneration := 0; cond_LastTransitionTime := 0;
         cond_Reason := "ReconcilliationError"; cond_Message := error_string err |}
  end.

Definition gateway_rate_limits (result : list GatewayRateLimits) (gwKey : ObjectKey) :
  prog (list GatewayRateLimits) :=
  gw <-- attempt (get_gateway gwKey) ;;
  match gw with
  | Failure err => if IsNotFound err then ret result else fail err
  | Success gw =>
      match GetAnnotations gw with
      | None => ret result
      | Some annotations =>
          match annotations !! RateLimitPolicyBackRefAnnotation with
          | None => ret result
          | Some rlpKeyStr =>
              match UnMarshallObjectKey rlpKeyStr with
              | Ok rlpKey =>
                  gwRLP <-- attempt (get_policy rlpKey) ;;
                  match gwRLP with
                  | Failure err => if IsNotFound err then ret result else fail err
                  | Success gwRLP =>
                      ret (result ++ [{| GatewayName := key_String gwKey;
                                         grl_RateLimits := RateLimits (spec gwRLP) |}])
                  end
              | _ => ret result
              end
          end
      end
  end.

Definition gatewaysRateLimits (rlp : RateLimitPolicy) : prog (list GatewayRateLimits) :=
  keys <-- attempt (TargetedGatewayKeys (rlp_TargetRef (spec rlp)) (meta_Namespace (ometa rlp))) ;;
  gwKeys <-- match keys with
             | Failure err => if IsNotFound err then ret [] else fail err
             | Success gwKeys => ret gwKeys
             end ;;
  loop gateway_rate_limits [] gwKeys.

Definition calculateStatus (rlp : RateLimitPolicy) (specErr : option error) :
  prog RateLimitPolicyStatus :=
  gwRateLimits <-- (if IsTargetRefHTTPRoute (rlp_TargetRef (spec rlp)) then
                      l <-- gatewaysRateLimits rlp ;; ret (Some l)
                    else ret None) ;;
  ret {| rlp_ObservedGeneration := rlp_ObservedGeneration (status rlp);
         rlp_Conditions :=
           SetStatusCondition (CopyConditions (rlp_Conditions (status rlp)))
             (availableCondition specErr);
         GatewaysRateLimits := gwRateLimits |}.

Definition reconcileStatus (rlp : RateLimitPolicy) (specErr : option error) : prog Result :=
  newStatus <-- calculateStatus rlp specErr ;;
  let equalStatus := RLP.Status_Equals (status rlp) newStatus in
  if equalStatus &&
     (meta_Generation (ometa rlp) =? rlp_ObservedGeneration (status rlp))%Z
  then ret no_requeue
  else
    let newStatus := {| rlp_ObservedGeneration := meta_Generation (ometa rlp);
                        rlp_Conditions := rlp_Conditions newStatus;
                        GatewaysRateLimits := GatewaysRateLimits newStatus |} in
    updated <-- attempt (UpdateResourceStatus (k:=KRateLimitPolicy) (set_status rlp newStatus)) ;;
    match updated with
    | Failure updateErr =>
        if IsConflict updateErr then ret {| Requeue := true |}
        else fail (ErrWrap "failed to update status: " updateErr)
    | Success _ => ret no_requeue
    end.

(** *** The reconciliation *)

(** The part after the finalizer was added. *)
Definition reconcile_live (rlp : RateLimitPolicy) : prog (Result * option error) :=
  specRes <-- attempt (reconcileSpec rlp) ;;
  let specErr := match specRes with Failure e => Some e | Success _ => None end in
  let specResult := match specRes with Failure _ => no_requeue | Success r => r end in
  if bool_decide (specErr = None) && Requeue specResult then ret (specResult, None)
  else
    statusRes <-- attempt (reconcileStatus rlp specErr) ;;
    match specErr with
    | Some specErr => ret (no_requeue, Some specErr)
    | None =>
        match statusRes with
        | Failure statusErr => ret (no_requeue, Some statusErr)
        | Success statusResult =>
            if Requeue statusResult then ret (statusResult, None)
            else ret (no_requeue, None)
        end
    end.

Definition Reconcile (req : ObjectKey) : prog (Result * option error) :=
  found <-- attempt (get_policy req) ;;
  match found with
  | Failure err =>
      if IsNotFound err then ret (no_requeue, None) else ret (no_requeue, Some err)
  | Success rlp =>
      if bool_decide (is_Some (meta_DeletionTimestamp (ometa rlp))) &&
         ContainsFinalizer (ometa rlp) rateLimitPolicyFinalizer then
        finalized <-- attempt (finalizeRLP rlp) ;;
        match finalized with
        | Failure err => ret (no_requeue, Some err)
        | Success _ =>
            let rlp := set_meta rlp (RemoveFinalizer (ometa rlp) rateLimitPolicyFinalizer) in
            updated <-- attempt (UpdateResource (k:=KRateLimitPolicy) rlp) ;;
            match updated with
            | Failure err => ret (no_requeue, IgnoreNotFound err)
            | Success _ => ret (no_requeue, None)
            end
        end
      else if bool_decide (is_Some (meta_DeletionTimestamp (ometa rlp))) then
        ret (no_requeue, None)
      else if negb (ContainsFinalizer (ometa rlp) rateLimitPolicyFinalizer) then
        let rlp := set_meta rlp (AddFinalizer (ometa rlp) rateLimitPolicyFinalizer) in
        updated <-- attempt (UpdateResource (k:=KRateLimitPolicy) rlp) ;;
        match updated with
        | Failure err =>
            match IgnoreNotFound err with
            | Some err => ret ({| Requeue := true |}, Some err)
            | None => reconcile_live rlp
            end
        | Success rlp => reconcile_live (rlp : RateLimitPolicy)
        end
      else reconcile_live rlp
  end.
End code.

(** ** The role of the controller

    The kubebuilder markers above [Reconcile]; those on finalizers and config
    maps name no call of the client. *)

Inductive verb := VGet | VList | VWatch | VCreate | VUpdate | VPatch | VDelete.
#[export] Instance verb_eq_dec : EqDecision verb.
Proof. solve_decision. Defined.

Definition all_verbs : list verb := [VGet; VList; VWatch; VCreate; VUpdate; VPatch; VDelete].

(** Resource, whether its status subresource, and the verbs. *)
Definition ratelimitpolicy_role : list (Kind * bool * list verb) :=
  [(KRateLimitPolicy, false, all_verbs);
   (KRateLimitPolicy, true, [VGet; VUpdate; VPatch]);
   (KLimitador, false, all_verbs);
   (KEnvoyFilter, false, all_verbs);
   (KWasmPlugin, false, all_verbs);
   (KHTTPRoute, false, [VGet; VList; VWatch; VUpdate; VPatch]);
   (KGateway, false, [VGet; VList; VWatch; VUpdate; VPatch])].

(** What the API server asks of a role for a call. *)
Definition required (c : call) : Kind * bool * verb :=
  match c with
  | Get k _ => (k, false, VGet)
  | ListGateways => (KGateway, false, VList)
  | Create k _ => (k, false, VCreate)
  | Update k _ => (k, false, VUpdate)
  | UpdateStatus k _ => (k, true, VUpdate)
  | Delete k _ => (k, false, VDelete)
  end.

Definition granted (role : list (Kind * bool * list verb)) (c : call) : bool :=
  let '(k, st, v) := required c in
  existsb (λ '(k', st', vs), bool_decide (k = k') && Bool.eqb st st' && bool_decide (v ∈ vs)) role.

(** ** Lemmas *)

Section emits_lemmas.
Context `{Apimachinery, Environment, RefCodec, MapRange, GoSort}.
Context `{StructCodec, PatchCodec, ConditionCodec}.
Context (P : call → Prop).
Context (HG : ∀ key, P (Get KGateway key)) (HR : ∀ key, P (Get KHTTPRoute key)).

Lemma emits_computeGatewayDiffs rlp : P ListGateways → emits P (computeGatewayDiffs rlp).
Proof.
  intros HL. unfold computeGatewayDiffs.
  pose proof (emits_TargetedGatewayKeys P HR). emits_auto.
Qed.

Lemma emits_reconcileGatewayRLPReferences rlp d :
  (∀ o, P (Update KGateway o)) → emits P (reconcileGatewayRLPReferences rlp d).
Proof.
  intros HU. unfold reconcileGatewayRLPReferences, update_references. emits_auto.
Qed.

Lemma emits_validateRuleHosts rlp : emits P (validateRuleHosts rlp).
Proof.
  unfold validateRuleHosts. pose proof (emits_TargetHostnames P HG HR). emits_auto.
Qed.

Lemma emits_computeFinalizeGatewayDiff rlp : emits P (computeFinalizeGatewayDiff rlp).
Proof.
  unfold computeFinalizeGatewayDiff, fetch_left_gateway.
  pose proof (emits_TargetedGatewayKeys P HR). emits_auto.
Qed.

Context (HP : ∀ key, P (Get KRateLimitPolicy key)).

Lemma emits_calculateStatus rlp e : emits P (calculateStatus rlp e).
Proof.
  unfold calculateStatus, gatewaysRateLimits, gateway_rate_limits.
  pose proof (emits_TargetedGatewayKeys P HR). emits_auto.
Qed.

Lemma emits_reconcileStatus rlp e :
  (∀ o, P (UpdateStatus KRateLimitPolicy o)) → emits P (reconcileStatus rlp e).
Proof.
  intros HU. unfold reconcileStatus. pose proof emits_calculateStatus. emits_auto.
Qed.

Context (HL : ∀ key, P (Get KLimitador key)) (HUL : ∀ o, P (Update KLimitador o)).
Context (HGW : ∀ key, P (Get KWasmPlugin key)) (HCW : ∀ o, P (Create KWasmPlugin o))
  (HUW : ∀ o, P (Update KWasmPlugin o)) (HDW : ∀ o, P (Delete KWasmPlugin o)).
Context (HGE : ∀ key, P (Get KEnvoyFilter key)) (HCE : ∀ o, P (Create KEnvoyFilter o))
  (HUE : ∀ o, P (Update KEnvoyFilter o)) (HDE : ∀ o, P (Delete KEnvoyFilter o)).
Context (HUG : ∀ o, P (Update KGateway o)) (HUR : ∀ o, P (Update KHTTPRoute o)).
Context (HLG : P ListGateways).
Hint Resolve emits_computeGatewayDiffs emits_reconcileGatewayRLPReferences
  emits_validateRuleHosts emits_reconcileLimits emits_reconcileWASMPluginConf
  emits_reconcileRateLimitingClusterEnvoyFilter emits_ReconcileTargetBackReference
  emits_DeleteTargetBackReference emits_computeFinalizeGatewayDiff
  emits_reconcileStatus : kuadrant.

Lemma emits_reconcileSpec rlp : emits P (reconcileSpec rlp).
Proof.
  unfold reconcileSpec, reconcileDirectBackReference, reconcileGatewayDiffs. emits_auto.
Qed.

Lemma emits_finalizeRLP rlp : emits P (finalizeRLP rlp).
Proof. unfold finalizeRLP, deleteNetworkResourceBackReference. emits_auto. Qed.
Hint Resolve emits_reconcileSpec emits_finalizeRLP : kuadrant.

Context (HUS : ∀ o, P (UpdateStatus KRateLimitPolicy o)).

Lemma emits_reconcile_live rlp : emits P (reconcile_live rlp).
Proof. unfold reconcile_live. emits_auto. Qed.
Hint Resolve emits_reconcile_live : kuadrant.

Lemma emits_Reconcile req :
  (∀ o, P (Update KRateLimitPolicy o)) → emits P (Reconcile req).
Proof. intros HUP. unfold Reconcile. emits_auto. Qed.
End emits_lemmas.

Lemma checks_ReconcileTargetBackReference `{Apimachinery} pk t ns ann :
  checks (ReconcileTargetBackReference pk t ns ann).
Proof.
  unfold ReconcileTargetBackReference.
  assert (checks (FetchValidTargetRef t ns)) by (by apply checks_reads, reads_FetchValidTargetRef).
  checks_auto.
Qed.

Lemma checks_DeleteTargetBackReference `{Apimachinery} pk t ns ann :
  checks (DeleteTargetBackReference pk t ns ann).
Proof.
  unfold DeleteTargetBackReference.
  pose proof (checks_attempt _ (reads_FetchValidTargetRef t ns)). checks_auto.
Qed.

Section checks_lemmas.
Context `{Apimachinery, Environment, RefCodec, MapRange, GoSort}.
Context `{StructCodec, PatchCodec, ConditionCodec}.

Lemma checks_reconcileGatewayRLPReferences rlp d :
  checks (reconcileGatewayRLPReferences rlp d).
Proof. unfold reconcileGatewayRLPReferences, update_references. checks_auto. Qed.

Lemma checks_reconcileSpec rlp : checks (reconcileSpec rlp).
Proof.
  unfold reconcileSpec, reconcileDirectBackReference, reconcileGatewayDiffs.
  assert (checks (validateRuleHosts rlp)) by (by apply checks_reads, emits_validateRuleHosts).
  assert (checks (computeGatewayDiffs rlp)) by (by apply checks_reads, emits_computeGatewayDiffs).
  pose proof checks_ReconcileTargetBackReference.
  pose proof checks_reconcileGatewayRLPReferences. checks_auto.
Qed.
End checks_lemmas.

Lemma ruleHosts_elem rlp h :
  h ∈ ruleHosts rlp ↔
  ∃ rl rule, rl ∈ elems (RateLimits (spec rlp)) ∧ rule ∈ elems (Rules rl) ∧
             h ∈ elems (Hosts rule).
Proof.
  unfold ruleHosts.
  rewrite (foldl_app_bind _ (λ rl, elems (Rules rl) ≫= λ rule, elems (Hosts rule))).
  - simpl. rewrite list_elem_of_bind. setoid_rewrite list_elem_of_bind. naive_solver.
  - intros acc rl. by rewrite (foldl_app_bind _ (λ rule, elems (Hosts rule))).
Qed.

(** Every host of the policy's rules lies inside a host name of the object. *)
Definition hosts_inside (rlp : RateLimitPolicy) (o : client_Object) : Prop :=
  ∀ rl rule s, rl ∈ elems (RateLimits (spec rlp)) → rule ∈ elems (Rules rl) →
    s ∈ elems (Hosts rule) →
    ∃ d, d ∈ or_any (served_hosts o) ∧ ∀ h, covers s h → covers d h.

Section wp_lemmas.
Context `{Apimachinery, Environment, RefCodec, MapRange, GoSort}.
Context `{StructCodec, PatchCodec, ConditionCodec}.

Lemma wp_validateRuleHosts rlp (Q : list event → outcome unit → Prop) :
  (∀ k (x : obj k), valid_object x = true → hosts_inside rlp (AnObject k x) →
     Q [Event (Get k (target_key (rlp_TargetRef (spec rlp)) (meta_Namespace (ometa rlp))))
          (Success x)] (Ok tt)) →
  (∀ t e, Forall (λ ev, reads (ev_call ev)) t → Q t (Err e)) →
  wp (validateRuleHosts rlp) Q.
Proof.
  intros Hok Herr. apply wp_bind, wp_bind, wp_FetchValidTargetRef.
  - intros k x Hk Hv. cbn [after]. rewrite TargetHostnames_or_any.
    unfold ret. cbn [wp after app].
    destruct (ValidSubdomains_cases (or_any (served_hosts (AnObject k x))) (ruleHosts rlp))
      as [[-> Hall]|(pre & s & post & _ & -> & _ & _)].
    + apply Hok; [done|]. intros rl rule s Hrl Hrule Hs.
      specialize (Hall s (proj2 (ruleHosts_elem rlp s) (ex_intro _ rl
        (ex_intro _ rule (conj Hrl (conj Hrule Hs)))))).
      apply subset_of_some_spec in Hall as (d & Hd & Hsub). exists d. split; [done|].
      by apply SubsetOf_covers.
    + apply Herr. by repeat constructor.
  - intros t e Ht. cbn [after]. by apply Herr.
Qed.

Lemma Status_Equals_differ s s' :
  GatewaysRateLimits s ≠ GatewaysRateLimits s' → RLP.Status_Equals s s' = false.
Proof.
  intros Hne. unfold RLP.Status_Equals. rewrite (bool_decide_false (GatewaysRateLimits s = _)) by done.
  by repeat case_match.
Qed.

(** The status computed, with the gateway limits [gwl] read for a route. *)
Lemma wp_calculateStatus rlp specErr (Q : list event → outcome RateLimitPolicyStatus → Prop) :
  (∀ t gwl, Forall (λ ev, reads (ev_call ev)) t →
     (is_Some gwl ↔ target_kind (rlp_TargetRef (spec rlp)) = Some KHTTPRoute) →
     Q t (Ok {| rlp_ObservedGeneration := rlp_ObservedGeneration (status rlp);
                rlp_Conditions :=
                  SetStatusCondition (CopyConditions (rlp_Conditions (status rlp)))
                    (availableCondition specErr);
                GatewaysRateLimits := gwl |})) →
  (∀ t e, Forall (λ ev, reads (ev_call ev)) t → Q t (Err e)) →
  wp (calculateStatus rlp specErr) Q.
Proof.
  intros Hok Herr. unfold calculateStatus. apply wp_bind. unfold target_kind in Hok.
  destruct (IsTargetRefHTTPRoute (rlp_TargetRef (spec rlp))).
  - apply wp_bind.
    assert (emits reads (gatewaysRateLimits rlp)) as He.
    { unfold gatewaysRateLimits, gateway_rate_limits.
      assert (∀ t ns, emits reads (TargetedGatewayKeys t ns))
        by (intros; by apply emits_TargetedGatewayKeys).
      emits_auto. }
    assert (safe (gatewaysRateLimits rlp)) as Hs
      by (unfold gatewaysRateLimits, gateway_rate_limits; safe_auto).
    eapply wp_mono; [apply (wp_and _ _ _ He Hs)|].
    intros t [l|e|m] [Ht Hp]; cbn [after wp ret]; [|by apply Herr|done].
    rewrite !app_nil_r. apply Hok; [done|]. split; [done|eauto].
  - cbn [wp ret after]. apply Hok; [constructor|]. split; [by intros [? ?]|].
    by destruct (IsTargetRefGateway _).
Qed.

(** The finalizer is removed by an update of the policy, and only there. *)
Definition keeps_finalizer (c : call) : Prop :=
  match c with
  | Update k o =>
      match k return obj k → Prop with
      | KRateLimitPolicy => λ o, ContainsFinalizer (ometa o) rateLimitPolicyFinalizer = true
      | _ => λ _, True
      end o
  | _ => True
  end.

Lemma emits_reconcile_live_keeps rlp : emits keeps_finalizer (reconcile_live rlp).
Proof. by apply emits_reconcile_live. Qed.

(** A write succeeded, or was refused because an object of kind [gone] is not
    there any more. *)
Definition write_ok_or_gone (gone : Kind) (e : event) : Prop :=
  is_write (ev_call e) = true →
  ev_error e = None ∨
  (call_kind (ev_call e) = gone ∧ ∃ err, ev_error e = Some err ∧ IsNotFound err = true).

Definition finalizes {A} (gone : Kind) (p : prog A) : Prop :=
  wp p (λ t o, is_ok o → Forall (write_ok_or_gone gone) t).

Lemma finalizes_checks {A} gone (p : prog A) : checks p → finalizes gone p.
Proof.
  intros Hp. eapply wp_mono; [exact Hp|]. intros t o Ht Ho.
  pose proof (returned_ok o t Ho Ht) as Hw. eapply Forall_impl; [exact Hw|].
  intros e He Hwr. left. auto.
Qed.

Lemma finalizes_bind {A B} gone (p : prog A) (f : A → prog B) :
  finalizes gone p → (∀ a, finalizes gone (f a)) → finalizes gone (prog_bind p f).
Proof.
  intros Hp Hf. apply wp_bind. eapply wp_mono; [exact Hp|].
  intros t [a|e|m] Ht; cbn [after]; [|done..].
  eapply wp_mono; [apply Hf|]. intros t' o Ht' Ho. apply Forall_app. split; [by apply Ht|auto].
Qed.

(** Ignoring that an object of kind [gone] is not found. *)
Lemma finalizes_ignore gone (p : prog unit) :
  emits (λ c, is_write c = true → call_kind c = gone) p → checks p →
  finalizes gone (r <-- attempt p ;;
                  match r with
                  | Failure err => if IsNotFound err then ret tt else fail err
                  | Success _ => ret tt
                  end).
Proof.
  intros He Hc. unfold finalizes. rewrite wp_bind, wp_attempt.
  eapply wp_mono; [apply (wp_and _ _ _ He Hc)|].
  intros t [u|e|m] [Hk Hr]; cbn [after]; [| |done].
  - cbn [wp ret]. rewrite app_nil_r. intros _.
    pose proof (returned_ok (Ok u) t I Hr) as Hw. eapply Forall_impl; [exact Hw|].
    intros ev Hev Hwr. left. auto.
  - destruct (IsNotFound e) eqn:Hn; cbn [wp ret fail]; rewrite app_nil_r; [|done].
    intros _. apply Forall_forall. intros ev Hev Hwr.
    rewrite Forall_forall in Hk, Hr. destruct (ev_error ev) as [err|] eqn:Herr; [|by left].
    right. split; [by apply Hk|]. exists err. split; [done|].
    specialize (Hr ev Hev Hwr err Herr). congruence.
Qed.

Lemma finalizes_finalizeRLP rlp : finalizes KLimitador (finalizeRLP rlp).
Proof.
  unfold finalizeRLP. apply finalizes_bind.
  { by apply finalizes_checks, checks_reads, emits_computeFinalizeGatewayDiff. }
  intros [d|]; [|apply finalizes_checks, checks_ret].
  apply finalizes_bind; [apply finalizes_checks, checks_reconcileGatewayRLPReferences|].
  intros d'. apply finalizes_bind; [apply finalizes_checks, checks_reconcileWASMPluginConf|].
  intros _. apply finalizes_bind;
    [apply finalizes_checks, checks_reconcileRateLimitingClusterEnvoyFilter|].
  intros _. apply finalizes_bind.
  { apply finalizes_ignore; [by apply emits_reconcileLimits|apply checks_reconcileLimits]. }
  intros _. apply finalizes_checks, checks_DeleteTargetBackReference.
Qed.
End wp_lemmas.

(** ** Properties *)

(** C32: every call a reconciliation of a RateLimitPolicy can make, whatever
    the server answers, is granted by the role its markers declare; and what the
    role grants beyond need is not used: nothing is created or deleted but wasm
    plugins and Envoy filters, so no gateway, route, policy or Limitador object,
    and a status is written for policies only. *)
Theorem Reconcile_within_role (AM : Apimachinery) (Env : Environment) (RC : RefCodec)
    (MR : MapRange) (GS : GoSort) (SC : StructCodec) (PAC : PatchCodec) (CC : ConditionCodec)
    (req : ObjectKey) :
  wp (Reconcile req) (λ t _, Forall (λ e, granted ratelimitpolicy_role (ev_call e) = true ∧
    (∀ k o, ev_call e = Create k o ∨ ev_call e = Delete k o → k = KWasmPlugin ∨ k = KEnvoyFilter) ∧
    (∀ k o, ev_call e = UpdateStatus k o → k = KRateLimitPolicy)) t).
Proof.
  apply (emits_Reconcile (λ c, granted ratelimitpolicy_role c = true ∧
    (∀ k o, c = Create k o ∨ c = Delete k o → k = KWasmPlugin ∨ k = KEnvoyFilter) ∧
    (∀ k o, c = UpdateStatus k o → k = KRateLimitPolicy)));
    intros; (split; [reflexivity|]); split; intros k' o'; try intros [Heq|Heq]; try intros Heq;
    inversion Heq; auto.
Qed.

(** C16: an update of a gateway's references comes after everything else.
    Within one [reconcileGatewayDiffs] the calls are first those on limits,
    Envoy filters and wasm plugins, with no write to a gateway, and then only
    updates of gateways; the latter happen only if every earlier write
    succeeded. *)
Theorem references_updated_last (AM : Apimachinery) (Env : Environment) (RC : RefCodec)
    (MR : MapRange) (GS : GoSort) (SC : StructCodec) (PAC : PatchCodec)
    (rlp : RateLimitPolicy) :
  wp (reconcileGatewayDiffs rlp) (λ t o, ∃ before refs, t = before ++ refs ∧
    Forall (λ e, is_write (ev_call e) = true → call_kind (ev_call e) ≠ KGateway) before ∧
    Forall (λ e, ∃ g, ev_call e = Update KGateway g) refs ∧
    (refs ≠ [] ∨ is_ok o → Forall write_ok before)).
Proof.
  apply (phased_bind (λ c, is_write c = true → call_kind c ≠ KGateway)
           (λ c, ∃ g, c = Update KGateway g)).
  { by apply emits_computeGatewayDiffs. }
  { by apply checks_reads, emits_computeGatewayDiffs. }
  intros [d|]; [|apply phased_last, emits_ret].
  apply phased_bind; [by apply emits_reconcileLimits|apply checks_reconcileLimits|intros _].
  apply phased_bind; [by apply emits_reconcileRateLimitingClusterEnvoyFilter
    |apply checks_reconcileRateLimitingClusterEnvoyFilter|intros _].
  apply phased_bind; [by apply emits_reconcileWASMPluginConf
    |apply checks_reconcileWASMPluginConf|intros _].
  apply phased_last, emits_bind; [|intros _; apply emits_ret].
  apply emits_reconcileGatewayRLPReferences. eauto.
Qed.

(** C17: the finalizer is removed last.  Any update of the policy that lacks the
    finalizer is the last call of the reconciliation, is made only for an
    object read with a deletion timestamp and the finalizer, and comes after
    all writes of [finalizeRLP] succeeded, but for updates of a Limitador
    object that is gone. *)
Theorem finalizer_removed_last (AM : Apimachinery) (AMok : ApimachineryOk)
    (Env : Environment) (RC : RefCodec) (MR : MapRange) (GS : GoSort) (SC : StructCodec)
    (PAC : PatchCodec) (CC : ConditionCodec) (req : ObjectKey) :
  wp (Reconcile req) (λ t o, ∀ ev, ev ∈ t → ¬ keeps_finalizer (ev_call ev) →
    ∃ (rlp : obj KRateLimitPolicy) pre r,
      t = Event (Get KRateLimitPolicy req) (Success rlp) :: pre ++
          [Event (Update KRateLimitPolicy
             (set_meta rlp (RemoveFinalizer (ometa rlp) rateLimitPolicyFinalizer))) r] ∧
      is_Some (meta_DeletionTimestamp (ometa rlp)) ∧
      ContainsFinalizer (ometa rlp) rateLimitPolicyFinalizer = true ∧
      Forall (write_ok_or_gone KLimitador) pre).
Proof.
  assert (∀ A (p : prog A) (Q : list event → outcome A → Prop), emits keeps_finalizer p →
    (∀ t o, Forall (λ e, keeps_finalizer (ev_call e)) t → Q t o) → wp p Q) as Hkeeps
    by (intros A p Q He HQ; eapply wp_mono; [exact He|auto]).
  assert (∀ t (R : event → Prop), Forall (λ e, keeps_finalizer (ev_call e)) t →
    ∀ ev, ev ∈ t → ¬ keeps_finalizer (ev_call ev) → R ev) as Hno.
  { intros t R Ht ev Hev Hn. rewrite Forall_forall in Ht. by destruct Hn; apply Ht. }
  unfold Reconcile. rewrite wp_bind, wp_attempt. apply wp_get_policy; cycle 1.
  { intros err. cbn [after]. apply Hkeeps; [emits_auto|]. intros t o Ht.
    refine (Hno _ (λ _, _) _). by constructor. }
  intros rlp. cbn [after]. destruct (bool_decide _) eqn:Hd;
    [destruct (ContainsFinalizer (ometa rlp) rateLimitPolicyFinalizer) eqn:Hf|]; cbn [andb].
  - rewrite wp_bind, wp_attempt.
    assert (emits keeps_finalizer (finalizeRLP rlp)) as He by (by apply emits_finalizeRLP).
    eapply wp_mono; [apply (wp_and _ _ _ He (finalizes_finalizeRLP rlp))|].
    intros t1 [u|e|m] [Hk Hw]; cbn [after].
    + rewrite wp_bind, wp_attempt. unfold UpdateResource.
      apply (wp_request (Update KRateLimitPolicy _)). split; intros a; cbn [after wp ret app];
        intros ev Hev Hn; exists rlp, t1; eexists; (split; [done|]);
        (split; [by apply bool_decide_eq_true in Hd|]); (split; [done|]); by apply Hw.
    + refine (Hno _ (λ _, _) _). constructor; [done|]. by rewrite app_nil_r.
    + refine (Hno _ (λ _, _) _). by constructor.
  - refine (Hno _ (λ _, _) _). repeat constructor.
  - apply Hkeeps; [|intros t o Ht; refine (Hno _ (λ _, _) _); by constructor].
    pose proof emits_reconcile_live_keeps.
    destruct (ContainsFinalizer (ometa rlp) rateLimitPolicyFinalizer) eqn:Hf; cbn [negb];
      [apply emits_reconcile_live_keeps|].
    emits_auto. apply emits_UpdateResource. simpl. apply ContainsFinalizer_iff.
    rewrite AddFinalizer_eq; [simpl; set_solver|].
    by rewrite <- ContainsFinalizer_iff, Hf.
Qed.

(** C3: nothing is written for a policy that is not valid.  If reconciling the
    spec writes at all, the policy's target reference is one the controllers
    accept, the first call read that target, the target is ready, and every
    host of every rule stands only for hosts the target serves. *)
Theorem reconcileSpec_writes_only_valid (AM : Apimachinery) (Env : Environment)
    (RC : RefCodec) (MR : MapRange) (GS : GoSort) (SC : StructCodec) (PAC : PatchCodec)
    (rlp : RateLimitPolicy) :
  let t_ := rlp_TargetRef (spec rlp) in
  let ns := meta_Namespace (ometa rlp) in
  wp (reconcileSpec rlp) (λ t o, Exists (λ e, is_write (ev_call e) = true) t →
    valid_target t_ ns ∧
    ∃ k (x : obj k) t', t = Event (Get k (target_key t_ ns)) (Success x) :: t' ∧
      valid_object x = true ∧ hosts_inside rlp (AnObject k x)).
Proof.
  intros t_ ns.
  assert (∀ t, Forall (λ ev, reads (ev_call ev)) t →
            ¬ Exists (λ e, is_write (ev_call e) = true) t) as Hno.
  { intros t Ht (e & He & Hw)%Exists_exists. rewrite Forall_forall in Ht.
    specialize (Ht e He). unfold reads in Ht. congruence. }
  unfold reconcileSpec. apply wp_bind. cbn [wp].
  destruct (RLP.Validate rlp) as [[]|e|m] eqn:Hv; cbn [after];
    [|by intros ?%Exists_nil..].
  apply RLP_Validate_ok in Hv. apply wp_bind, wp_validateRuleHosts.
  - intros k x Hx Hin. cbn [after]. apply wp_always. intros t o _. split; [done|].
    exists k, x, t. done.
  - intros t e Ht. cbn [after]. by intros ?%Hno.
Qed.

(** What happens to the status, in full.  The new conditions are the old
    ones with the availability set from the error of the spec; gateway limits
    are reported for routes only.  The status is written exactly when it
    differs from the old one, as [Status_Equals] tells, generation included;
    a conflict asks for a new round instead of failing, and another error of
    the write is wrapped. *)
Theorem reconcileStatus_table (AM : Apimachinery) (GS : GoSort) (CC : ConditionCodec)
    (rlp : RateLimitPolicy) (specErr : option error) :
  wp (reconcileStatus rlp specErr) (λ t o, ∃ rd w,
    t = rd ++ w ∧ Forall (λ ev, reads (ev_call ev)) rd ∧
    ((w = [] ∧ ∃ e, o = Err e) ∨
     ∃ gwl, let new := {| rlp_ObservedGeneration := meta_Generation (ometa rlp);
                          rlp_Conditions := SetStatusCondition (rlp_Conditions (status rlp))
                                              (availableCondition specErr);
                          GatewaysRateLimits := gwl |} in
       (is_Some gwl ↔ target_kind (rlp_TargetRef (spec rlp)) = Some KHTTPRoute) ∧
       if RLP.Status_Equals (status rlp) new then w = [] ∧ o = Ok no_requeue
       else ∃ r, w = [Event (UpdateStatus KRateLimitPolicy (set_status rlp new)) r] ∧
         o = match r with
             | Success _ => Ok no_requeue
             | Failure e => if IsConflict e then Ok {| Requeue := true |}
                            else Err (ErrWrap "failed to update status: " e)
             end)).
Proof.
  unfold reconcileStatus. apply wp_bind, wp_calculateStatus.
  2: { intros t e Ht. exists t, []. cbn [after]. rewrite app_nil_r.
       split; [done|]. split; [done|]. left. split; [done|]. by exists e. }
  intros t gwl Ht Hg. cbn [after].
  set (new := {| rlp_ObservedGeneration := meta_Generation (ometa rlp);
                 rlp_Conditions := SetStatusCondition (rlp_Conditions (status rlp))
                                     (availableCondition specErr);
                 GatewaysRateLimits := gwl |}).
  assert (RLP.Status_Equals (status rlp)
            {| rlp_ObservedGeneration := rlp_ObservedGeneration (status rlp);
               rlp_Conditions := rlp_Conditions new; GatewaysRateLimits := gwl |} &&
          (meta_Generation (ometa rlp) =? rlp_ObservedGeneration (status rlp))%Z =
          RLP.Status_Equals (status rlp) new) as Heq.
  { unfold RLP.Status_Equals, new. cbn [rlp_ObservedGeneration].
    rewrite Z.eqb_refl, (Z.eqb_sym (rlp_ObservedGeneration (status rlp))). cbn [negb].
    destruct (meta_Generation (ometa rlp) =? _)%Z; cbn [negb]; [by rewrite andb_true_r|].
    by rewrite andb_false_r. }
  rewrite CopyConditions_id. fold new. cbn [rlp_Conditions GatewaysRateLimits].
  change (SetStatusCondition (rlp_Conditions (status rlp)) (availableCondition specErr))
    with (rlp_Conditions new). rewrite Heq.
  destruct (RLP.Status_Equals (status rlp) new) eqn:Hs.
  - cbn [wp ret]. exists t, []. rewrite app_nil_r. split; [done|]. split; [done|].
    right. exists gwl. cbv zeta.
    change (RLP.Status_Equals (status rlp) _) with (RLP.Status_Equals (status rlp) new).
    rewrite Hs. done.
  - rewrite wp_bind, wp_attempt. apply (wp_request (UpdateStatus KRateLimitPolicy _)).
    split; intros a; cbn [after]; [|destruct (IsConflict a) eqn:Hc]; cbn [wp ret fail app];
      eexists t, _; (split; [done|]); (split; [done|]); right; exists gwl;
      cbv zeta; change (RLP.Status_Equals (status rlp) _) with (RLP.Status_Equals (status rlp) new);
      rewrite Hs; (split; [done|]); eexists; (split; [done|]);
      cbn; by rewrite ?Hc.
Qed.

(** C38: a policy on a route whose stored status lists no gateway limits never
    reaches a steady state: an absent list is not an empty one, so every
    successful status reconciliation writes the status again. *)
Theorem status_without_gateways_never_steady (AM : Apimachinery) (GS : GoSort)
    (CC : ConditionCodec) (rlp : RateLimitPolicy) (specErr : option error)
    (Hroute : target_kind (rlp_TargetRef (spec rlp)) = Some KHTTPRoute)
    (Habsent : GatewaysRateLimits (status rlp) = None) :
  wp (reconcileStatus rlp specErr) (λ t o, o = Ok no_requeue →
    Exists (λ e, is_write (ev_call e) = true) t).
Proof.
  unfold reconcileStatus. apply wp_bind, wp_calculateStatus; [|done].
  intros t gwl Ht Hg. cbn [after]. destruct (proj2 Hg Hroute) as [l ->].
  rewrite Status_Equals_differ by (by rewrite Habsent). cbn [andb].
  rewrite wp_bind, wp_attempt. apply (wp_request (UpdateStatus KRateLimitPolicy _)).
  split; intros a; cbn [after]; [|destruct (IsConflict a)]; cbn [wp ret fail app]; intros _;
    by apply Exists_app; right; left.
Qed.

(** ** No panic *)

(** The conversions report errors and do not panic. *)
Class CodecsSafe {SC : StructCodec} {PAC : PatchCodec} := {
  Struct_UnmarshalJSON_safe s : no_panic (Struct_UnmarshalJSON s);
  Struct_MarshalJSON_safe v : no_panic (Struct_MarshalJSON v);
  unmarshal_patch_safe v : no_panic (unmarshal_patch v)
}.

Definition all_some (l : list GatewayWrapper) : Prop := Forall is_Some l.
Definition diff_some (d : gatewayDiff) : Prop :=
  all_some (gd_New d) ∧ all_some (gd_Same d) ∧ all_some (gd_Left d).

Section safe_lemmas.
Context `{Apimachinery, Environment, RefCodec, MapRange, GoSort}.
Context `{!StructCodec, !PatchCodec, !ConditionCodec, !CodecsSafe}.

Lemma ToStruct_safe w : no_panic (ToStruct w).
Proof.
  apply no_panic_bind; [done|]. intros s.
  apply no_panic_bind; [apply Struct_UnmarshalJSON_safe|done].
Qed.

Lemma WASMPluginFromStruct_safe v : no_panic (WASMPluginFromStruct v).
Proof.
  destruct v; [|done]. apply no_panic_bind; [apply Struct_MarshalJSON_safe|]. intros s'.
  apply no_panic_bind; [apply json_unmarshal_safe, _|done].
Qed.

Lemma mutate_wasm_plugin_safe e d : no_panic (mutate_wasm_plugin e d).
Proof.
  apply no_panic_bind; [apply WASMPluginFromStruct_safe|]. intros we.
  apply no_panic_bind; [apply WASMPluginFromStruct_safe|]. intros wd. by case_decide.
Qed.

Lemma safe_load_policies who keys : safe (load_policies who keys).
Proof. unfold load_policies, load_policy. safe_auto. Qed.
Hint Resolve safe_load_policies : kuadrant.

Lemma safe_gatewayLimits gw refs : safe (gatewayLimits gw refs).
Proof. unfold gatewayLimits, add_route_limits. safe_auto. Qed.
Hint Resolve safe_gatewayLimits : kuadrant.

Lemma safe_reconcileLimits rlp d : safe (reconcileLimits rlp d).
Proof. unfold reconcileLimits, replace_limits. safe_auto. Qed.

Lemma safe_reconcile_wasm_plugin refs u gw :
  is_Some gw → safe (reconcile_wasm_plugin refs u gw).
Proof.
  intros [g ->]. unfold reconcile_wasm_plugin. apply safe_bind.
  - unfold gatewayWASMPlugin. case_match; [exact I|]. apply safe_bind.
    + unfold wasmPluginConfig, add_route_actions. safe_auto.
    + intros [w|]; [|exact I]. apply safe_bind; [apply safe_ret, ToStruct_safe|].
      intros v. exact I.
  - intros wp. apply safe_ReconcileResource. intros o. apply mutate_wasm_plugin_safe.
Qed.

Lemma safe_reconcileWASMPluginConf rlp d : diff_some d → safe (reconcileWASMPluginConf rlp d).
Proof.
  intros (Hn & Hs & Hl). unfold all_some in *. rewrite Forall_forall in Hn, Hs, Hl.
  repeat (apply safe_bind; [apply safe_loop_elem; intros s x Hx;
    apply safe_reconcile_wasm_plugin; auto|intros _]). exact I.
Qed.

Lemma safe_reconcile_envoy_filter refs u gw :
  is_Some gw → safe (reconcile_envoy_filter refs u gw).
Proof.
  intros [g ->]. unfold reconcile_envoy_filter. apply safe_bind.
  - unfold gatewayRateLimitingClusterEnvoyFilter. safe_auto.
    apply safe_ret, no_panic_bind; [apply unmarshal_patch_safe|done].
  - intros ef. by apply safe_ReconcileResource.
Qed.

Lemma safe_reconcileEnvoyFilter rlp d :
  diff_some d → safe (reconcileRateLimitingClusterEnvoyFilter rlp d).
Proof.
  intros (Hn & _ & Hl). unfold all_some in *. rewrite Forall_forall in Hn, Hl.
  repeat (apply safe_bind; [apply safe_loop_elem; intros s x Hx;
    apply safe_reconcile_envoy_filter; auto|intros _]). exact I.
Qed.

Lemma AddRLP_some gw k : is_Some (AddRLP (Some gw) k).1.
Proof. unfold AddRLP. by repeat case_match. Qed.
Lemma DeleteRLP_some gw k : is_Some (DeleteRLP (Some gw) k).1.
Proof. unfold DeleteRLP. by repeat case_match. Qed.

Lemma returning_update_references change l :
  (∀ gw, is_Some (change (Some gw)).1) → all_some l →
  returning all_some (loop (update_references change) [] l).
Proof.
  intros Hc Hl. apply returning_loop; [constructor|].
  intros acc g Hg Hacc. unfold all_some in Hl. rewrite Forall_forall in Hl.
  destruct (Hl g Hg) as [gw ->]. unfold update_references.
  specialize (Hc gw). destruct (change (Some gw)) as [[gw'|] []]; try by destruct Hc.
  - apply (returning_bind (λ _, True)); [by apply returning_safe, safe_UpdateResource|].
    intros gw'' _. apply Forall_app. repeat constructor; eauto.
  - apply Forall_app. repeat constructor; eauto.
Qed.

Lemma returning_references rlp d :
  diff_some d → returning diff_some (reconcileGatewayRLPReferences rlp d).
Proof.
  intros (Hn & Hs & Hl). unfold reconcileGatewayRLPReferences.
  apply (returning_bind all_some);
    [apply returning_update_references; [intros; apply DeleteRLP_some|done]|].
  intros l Hl'. apply (returning_bind all_some);
    [apply returning_update_references; [intros; apply AddRLP_some|done]|].
  intros n Hn'. done.
Qed.

Lemma all_some_fmap (l : list Gateway) : all_some (Some <$> l).
Proof. apply Forall_fmap, Forall_true. intros g. simpl. eauto. Qed.

Lemma returning_computeGatewayDiffs rlp :
  returning (λ d, match d with Some d => diff_some d | None => True end)
    (computeGatewayDiffs rlp).
Proof.
  apply (returning_bind (λ _, True)); [by apply returning_safe, safe_TargetedGatewayKeys|].
  intros ks _. apply (returning_bind (λ _, True)); [by apply returning_safe, safe_list_gateways|].
  intros gws _. unfold diff_some. cbn [returning wp ret gd_New gd_Same gd_Left].
  split; [|split].
  - rewrite NewGateways_filter. apply all_some_fmap.
  - rewrite SameGateways_filter. apply all_some_fmap.
  - rewrite LeftGateways_filter. apply all_some_fmap.
Qed.

Lemma returning_computeFinalize rlp :
  returning (λ d, match d with Some d => diff_some d | None => True end)
    (computeFinalizeGatewayDiff rlp).
Proof.
  apply (returning_bind (λ _, True)); [apply returning_safe; safe_auto|]. intros ks _.
  apply (returning_bind (λ _, True)); [apply returning_safe; safe_auto|]. intros gwKeys _.
  apply (returning_bind all_some).
  - apply returning_loop; [constructor|]. intros acc k _ Hacc. unfold fetch_left_gateway.
    apply (returning_bind (λ _, True)); [apply returning_safe; safe_auto|].
    intros [g|e] _; [|by destruct (IsNotFound e)].
    apply Forall_app. repeat constructor; eauto.
  - intros l Hl. repeat split; try done; constructor.
Qed.

Lemma safe_reconcileSpec rlp : safe (reconcileSpec rlp).
Proof.
  unfold reconcileSpec. apply safe_bind.
  { apply safe_ret. unfold RLP.Validate. by repeat case_match. }
  intros _. apply safe_bind; [unfold validateRuleHosts; safe_auto|]. intros _.
  apply safe_bind; [apply safe_ReconcileTargetBackReference|]. intros _.
  apply safe_bind; [|intros _; exact I]. unfold reconcileGatewayDiffs.
  apply returning_safe. eapply returning_bind; [apply returning_computeGatewayDiffs|].
  intros [d|] Hd; [|done]. apply returning_safe.
  apply safe_bind; [apply safe_reconcileLimits|intros _].
  apply safe_bind; [by apply safe_reconcileEnvoyFilter|intros _].
  apply safe_bind; [by apply safe_reconcileWASMPluginConf|intros _].
  apply safe_bind; [|intros _; exact I]. apply returning_safe.
  eapply returning_mono; [|by apply returning_references]. done.
Qed.

Lemma safe_finalizeRLP rlp : safe (finalizeRLP rlp).
Proof.
  unfold finalizeRLP. apply returning_safe.
  eapply returning_bind; [apply returning_computeFinalize|].
  intros [d|] Hd; [|done]. eapply returning_bind; [by apply returning_references|].
  intros d' Hd'. apply returning_safe.
  apply safe_bind; [by apply safe_reconcileWASMPluginConf|intros _].
  apply safe_bind; [by apply safe_reconcileEnvoyFilter|intros _].
  apply safe_bind; [|intros _; apply safe_DeleteTargetBackReference].
  pose proof safe_reconcileLimits. safe_auto.
Qed.

Lemma safe_reconcileStatus rlp e : safe (reconcileStatus rlp e).
Proof.
  unfold reconcileStatus, calculateStatus, gatewaysRateLimits, gateway_rate_limits. safe_auto.
Qed.
End safe_lemmas.

(** C15: a reconciliation of a RateLimitPolicy never dereferences a missing
    gateway: with conversions that report errors instead of panicking, it ends
    with a result for every server and every object it reads. *)
Theorem Reconcile_never_panics (AM : Apimachinery) (Env : Environment) (RC : RefCodec)
    (MR : MapRange) (GS : GoSort) (SC : StructCodec) (PAC : PatchCodec) (CC : ConditionCodec)
    (Hsafe : CodecsSafe) (req : ObjectKey) :
  wp (Reconcile req) (λ _ o, ∃ res, o = Ok res).
Proof.
  assert (∀ rlp, total (reconcile_live rlp)) as Hlive.
  { intros rlp. unfold reconcile_live.
    pose proof safe_reconcileSpec. pose proof safe_reconcileStatus. total_auto. }
  pose proof safe_finalizeRLP. change (total (Reconcile req)). unfold Reconcile. total_auto.
Qed.

(** C31: no error of a write is lost while the spec is reconciled: when a
    create, update or delete fails, [reconcileSpec] returns that very error, so
    nothing is written after it. *)
Theorem reconcileSpec_reports_write_errors (AM : Apimachinery) (Env : Environment)
    (RC : RefCodec) (MR : MapRange) (GS : GoSort) (SC : StructCodec) (PAC : PatchCodec)
    (rlp : RateLimitPolicy) :
  wp (reconcileSpec rlp) (λ t o, ∀ ev err, ev ∈ t → is_write (ev_call ev) = true →
    ev_error ev = Some err → o = Err err).
Proof.
  eapply wp_mono; [apply checks_reconcileSpec|]. intros t o Ht ev err Hev Hw Herr.
  rewrite Forall_forall in Ht. by apply (Ht ev Hev Hw err).
Qed.

(** A policy that is gone, or is being deleted without our finalizer, is
    left alone: the read is the only call.  A read that fails otherwise is
    reported as the error. *)
Theorem Reconcile_leaves_gone_policies (AM : Apimachinery) (Env : Environment)
    (RC : RefCodec) (MR : MapRange) (GS : GoSort) (SC : StructCodec) (PAC : PatchCodec)
    (CC : ConditionCodec) (req : ObjectKey) :
  wp (Reconcile req) (λ t o, ∃ a t', t = Event (Get KRateLimitPolicy req) a :: t' ∧
    match a with
    | Failure err => t' = [] ∧ o = Ok (no_requeue, IgnoreNotFound err)
    | Success rlp =>
        is_Some (meta_DeletionTimestamp (ometa rlp)) →
        ContainsFinalizer (ometa rlp) rateLimitPolicyFinalizer = false →
        t' = [] ∧ o = Ok (no_requeue, None)
    end).
Proof.
  unfold Reconcile. rewrite wp_bind, wp_attempt. apply wp_get_policy.
  - intros rlp. cbn [after].
    destruct (bool_decide (is_Some (meta_DeletionTimestamp (ometa rlp)))) eqn:Hd;
      destruct (ContainsFinalizer (ometa rlp) rateLimitPolicyFinalizer) eqn:Hf; cbn [andb negb].
    1: apply wp_always; intros t o.
    2: cbn [wp ret app].
    3, 4: apply wp_always; intros t o; apply bool_decide_eq_false in Hd.
    all: eexists _, _; (split; [done|]); cbn; intros Hd' Hf'; try done; congruence.
  - intros err. cbn [after].
    destruct (IsNotFound err) eqn:Hn; cbn [wp ret app]; eexists _, _; (split; [done|]);
      unfold IgnoreNotFound; cbn; by rewrite Hn.
Qed.

(** The gateways a loop over references updates. *)
Definition changed (change : GatewayWrapper → GatewayWrapper * bool)
    (l : list GatewayWrapper) : list Gateway :=
  omap (λ g, match change g with (Some gw, true) => Some gw | _ => None end) l.

Lemma changed_app change l k : changed change (l ++ k) = changed change l ++ changed change k.
Proof. apply omap_app. Qed.

Lemma wp_update_references change l (Q : list event → outcome (list GatewayWrapper) → Prop) :
  (∀ gw, is_Some (change (Some gw)).1) → all_some l →
  (∀ t gws, ev_call <$> t = (λ g : Gateway, Update KGateway g) <$> changed change l →
     length gws = length l → Q t (Ok gws)) →
  (∀ t e, (∃ n, ev_call <$> t = (λ g : Gateway, Update KGateway g) <$> take n (changed change l)) →
     Q t (Err e)) →
  wp (loop (update_references change) [] l) Q.
Proof.
  intros Hc Hl Hok Herr.
  apply (wp_loop (λ dn t acc, length acc = length dn ∧
    ev_call <$> t = (λ g : Gateway, Update KGateway g) <$> changed change dn)).
  - done.
  - intros dn g todo t acc Heq [Hlen Ht].
    assert (is_Some g) as [gw ->].
    { unfold all_some in Hl. rewrite Forall_forall in Hl. apply Hl. rewrite Heq. set_solver. }
    pose proof (changed_app change dn [Some gw]) as Happ.
    unfold update_references. specialize (Hc gw).
    destruct (change (Some gw)) as [[gw'|] []] eqn:Hch; try by destruct Hc.
    + apply wp_bind. unfold UpdateResource. apply (wp_request (Update KGateway gw')).
      assert (changed change [Some gw] = [gw']) as Hone by (unfold changed; simpl; by rewrite Hch).
      split; intros a; cbn [after wp ret].
      * rewrite app_nil_r, Happ, Hone, !length_app, !fmap_app, Ht. split; [simpl; lia|done].
      * apply Herr. exists (length (changed change dn) + 1).
        rewrite Heq, (cons_middle (Some gw)), !changed_app, Hone, app_assoc.
        rewrite (take_app_length' (changed change dn ++ [gw'])) by (by rewrite length_app).
        rewrite !fmap_app, Ht. done.
    + cbn [wp ret]. rewrite app_nil_r, Happ.
      assert (changed change [Some gw] = []) as -> by (unfold changed; simpl; by rewrite Hch).
      rewrite !length_app, app_nil_r. split; [simpl; lia|done].
  - intros t acc [Hlen Ht]. by apply Hok.
Qed.

(** The gateways that are updated, by what becomes of them *)
Section changed.
Context `{RefCodecOk} (key : ObjectKey).

Lemma changed_AddRLP_exactly (gs : list Gateway) :
  Forall2 (λ g g', with_references (RLPRefs (Some g) ++ [key]) g g')
    (filter (λ g, refs_readable g ∧ key ∉ RLPRefs (Some g)) gs)
    (changed (λ g, AddRLP g key) (Some <$> gs)).
Proof.
  induction gs as [|g gs IH]; [constructor|]. unfold changed. rewrite fmap_cons. cbn [omap list_omap].
  rewrite AddRLP_adds, filter_cons. case_decide as Hd; [|exact IH].
  destruct (marshal_refs_total (RLPRefs (Some g) ++ [key])) as [v Hv]. rewrite Hv.
  constructor; [|exact IH]. exists v. split; [|done]. by apply unmarshal_marshal_refs.
Qed.

Lemma changed_DeleteRLP_exactly (gs : list Gateway) :
  Forall2 (λ g g', ∃ before after, RLPRefs (Some g) = before ++ key :: after ∧ key ∉ before ∧
             with_references (before ++ after) g g')
    (filter (λ g, key ∈ RLPRefs (Some g)) gs)
    (changed (λ g, DeleteRLP g key) (Some <$> gs)).
Proof.
  induction gs as [|g gs IH]; [constructor|]. unfold changed. rewrite fmap_cons. cbn [omap list_omap].
  rewrite DeleteRLP_deletes, filter_cons. case_decide as Hd; [|exact IH].
  destruct (remove_found _ key Hd) as (l1 & l2 & Hl & Hn & ->).
  destruct (marshal_refs_total (l1 ++ l2)) as [v Hv]. rewrite Hv.
  constructor; [|exact IH]. exists l1, l2. split; [done|]. split; [done|].
  exists v. split; [|done]. by apply unmarshal_marshal_refs.
Qed.
End changed.

Lemma wp_reconcileGatewayRLPReferences `{Apimachinery, RefCodec} rlp d :
  diff_some d →
  let key := ObjectKeyFromObject rlp in
  let expected := changed (λ g, DeleteRLP g key) (gd_Left d) ++
                  changed (λ g, AddRLP g key) (gd_New d) in
  wp (reconcileGatewayRLPReferences rlp d) (λ t o,
    ∃ n, ev_call <$> t = (λ g : Gateway, Update KGateway g) <$> take n expected ∧
         (is_ok o → n = length expected)).
Proof.
  intros (Hn & _ & Hl) key expected.
  apply wp_bind, wp_update_references; [intros; apply DeleteRLP_some|done|..].
  - intros t gws Ht _. cbn [after].
    apply wp_bind, wp_update_references; [intros; apply AddRLP_some|done|..].
    + intros t' gws' Ht' _. cbn [after wp ret]. exists (length expected).
      rewrite firstn_all. split; [|done]. by rewrite app_nil_r, fmap_app, Ht, Ht', <- fmap_app.
    + intros t' e (n & Ht'). cbn [after].
      exists (length (changed (λ g, DeleteRLP g key) (gd_Left d)) + n).
      split; [|done]. subst expected. rewrite take_app_add, fmap_app, Ht, Ht', fmap_app. done.
  - intros t e (n & Ht). cbn [after].
    exists (n `min` length (changed (λ g, DeleteRLP g key) (gd_Left d))).
    split; [|done]. subst expected. rewrite take_app_le by lia.
    rewrite Ht. f_equal. destruct (Nat.min_spec n (length (changed (λ g, DeleteRLP g key) (gd_Left d))))
      as [[_ ->]|[Hge ->]]; [done|]. rewrite !take_ge by (subst key; lia). done.
Qed.

(** C18: the update of references.  The calls are one update for each left
    gateway that references the policy, without the first occurrence of its key,
    then one for each new gateway whose references can be read and that does not
    reference it, with its key appended; each update sets the annotation with the
    references, to a text that decodes to them, and nothing else, and they come in
    the order of the diff.  No other call is made, and after an error the calls
    are a prefix of these. *)
Theorem reconcileGatewayRLPReferences_calls (AM : Apimachinery) (RC : RefCodec)
    (RCok : RefCodecOk) (rlp : RateLimitPolicy) (d : gatewayDiff) (left_ new : list Gateway)
    (Hleft : gd_Left d = Some <$> left_) (Hnew : gd_New d = Some <$> new)
    (Hsame : all_some (gd_Same d)) :
  let key := ObjectKeyFromObject rlp in
  ∃ released referenced : list Gateway,
    Forall2 (λ g g', ∃ before after, RLPRefs (Some g) = before ++ key :: after ∧ key ∉ before ∧
               with_references (before ++ after) g g')
      (filter (λ g, key ∈ RLPRefs (Some g)) left_) released ∧
    Forall2 (λ g g', with_references (RLPRefs (Some g) ++ [key]) g g')
      (filter (λ g, refs_readable g ∧ key ∉ RLPRefs (Some g)) new) referenced ∧
    wp (reconcileGatewayRLPReferences rlp d) (λ t o, ∃ n,
      ev_call <$> t = (λ g : Gateway, Update KGateway g) <$> take n (released ++ referenced) ∧
      (is_ok o → n = length (released ++ referenced))).
Proof.
  intros key. do 2 eexists. split; [apply changed_DeleteRLP_exactly|].
  split; [apply changed_AddRLP_exactly|]. rewrite <- Hleft, <- Hnew.
  apply wp_reconcileGatewayRLPReferences. split; [|split; [done|]].
  - rewrite Hnew. apply Forall_fmap, Forall_true. by eexists.
  - rewrite Hleft. apply Forall_fmap, Forall_true. by eexists.
Qed.

(** ** Concrete reconciliations *)

#[local] Existing Instances sample_environment compact_struct_codec plain_patch
  binary_condition_codec.

Lemma binary_codecs_safe : CodecsSafe.
Proof. split; cbn; [intros s; by repeat case_match|done|done]. Qed.

Definition sample_request : ObjectKey := ObjectKeyFromObject cluster_policy.

Lemma Reconcile_never_panics_witness :
  (∃ res, (run memory_server (Reconcile sample_request) empty_store).2 = Ok res) ∧
  (∃ res, (run memory_server (Reconcile sample_request) cluster).2 = Ok res).
Proof.
  split; apply (wp_run memory_server _ _ _ (Reconcile_never_panics default_apimachinery
    sample_environment json_ref_codec map_range_default go_merge_sort compact_struct_codec
    plain_patch binary_condition_codec binary_codecs_safe sample_request)).
Defined.

(** The sample policy, being deleted. *)
Definition leaving_policy : RateLimitPolicy :=
  set_meta cluster_policy (terminating rateLimitPolicyFinalizer (ometa cluster_policy)).

Lemma finalizer_removed_last_witness :
  let s := store_put cluster (k:=KRateLimitPolicy) leaving_policy in
  let t := (run memory_server (Reconcile sample_request) s).1.2 in
  ∃ (rlp : obj KRateLimitPolicy) pre r,
    t = Event (Get KRateLimitPolicy sample_request) (Success rlp) :: pre ++
        [Event (Update KRateLimitPolicy
           (set_meta rlp (RemoveFinalizer (ometa rlp) rateLimitPolicyFinalizer))) r] ∧
    Forall (write_ok_or_gone KLimitador) pre.
Proof.
  intros s t.
  pose proof (wp_run memory_server _ _ s (finalizer_removed_last default_apimachinery
    default_apimachinery_ok sample_environment json_ref_codec map_range_default go_merge_sort
    compact_struct_codec plain_patch binary_condition_codec sample_request)) as Hrun.
  cbv beta in Hrun. fold t in Hrun.
  destruct (last t) as [ev|] eqn:Hev; [|vm_compute in Hev; discriminate].
  destruct (Hrun ev) as (rlp & pre & r & Ht & _ & _ & Hw).
  - apply last_Some in Hev as [l ->]. apply elem_of_app. right. left.
  - vm_compute in Hev. injection Hev as <-. vm_compute. discriminate.
  - exists rlp, pre, r. split; [exact Ht|exact Hw].
Defined.

Lemma reconcileGatewayRLPReferences_calls_witness :
  RLPRefs (Some cluster_gateway) = [] ∧
  ∃ g', with_references [sample_request] cluster_gateway g' ∧
    ev_call <$> (run memory_server (reconcileGatewayRLPReferences cluster_policy sample_diff)
                   cluster).1.2 = [Update KGateway g'].
Proof.
  split; [reflexivity|].
  destruct (reconcileGatewayRLPReferences_calls default_apimachinery json_ref_codec
    json_ref_codec_ok cluster_policy sample_diff [] [cluster_gateway] eq_refl eq_refl)
    as (released & referenced & Hrel & Hrefd & Hwp); [repeat constructor|].
  rewrite filter_cons_True in Hrefd by (split; [exact I|apply not_elem_of_nil]).
  inversion Hrel; subst. inversion Hrefd as [|? g' ? ? Hg Hnil]; subst.
  inversion Hnil; subst. exists g'. split; [exact Hg|].
  destruct (wp_run memory_server _ _ cluster Hwp) as (n & -> & Hn).
  rewrite Hn by (vm_compute; exact I). reflexivity.
Defined.

Lemma status_without_gateways_never_steady_witness :
  Exists (λ e, is_write (ev_call e) = true)
    (run memory_server (reconcileStatus cluster_policy None) cluster).1.2.
Proof.
  apply (wp_run memory_server _ _ cluster
    (status_without_gateways_never_steady default_apimachinery go_merge_sort
       binary_condition_codec cluster_policy None eq_refl eq_refl)).
  vm_compute. reflexivity.
Defined.

(** Reconciling the sample twice: the first run protects the route, the second
    finds nothing to write. *)
Example sample_settles :
  let first := run memory_server (Reconcile sample_request) cluster in
  let second := run memory_server (Reconcile sample_request) first.1.1 in
  first.2 = Ok (no_requeue, None) ∧ second.2 = Ok (no_requeue, None) ∧
  existsb (λ e, is_write (ev_call e)) first.1.2 = true ∧
  existsb (λ e, is_write (ev_call e)) second.1.2 = false.
Proof. vm_compute. auto. Qed.
