(* ===== verification/SteadyState.v ===== *)
(** * The steady state of a rate limit policy

    What the cluster looks like once the specification of a policy has been
    reconciled, as an invariant [settled] on its state: a successful
    reconciliation establishes it, and in such a state a reconciliation of the
    policy that iterates over maps in the same order only reads. *)
From S2P Require Import Prelude GoStrings Hostname KubeTypes CommonUtils RouteRules PolicyTypes.
From S2P Require Import LimitIndex Json GatewayRefs Client Apimachinery.
From S2P Require Import BaseReconciler TargetRef Runs JsonText JsonStruct WasmJson WasmConfig.
From S2P Require Import Samples RateLimitLimits RateLimitIstio LimitadorSteady RateLimitController.

Open Scope go_scope.

(** ** Targets read from similar stores *)

Section targets.
Context `{Apimachinery}.

Lemma valid_object_content {k} (o o' : obj k) :
  same_content o o' → valid_object o = valid_object o'.
Proof.
  intros (_ & Hs & Hst). unfold valid_object. destruct k; try done.
  - by rewrite Hst.
  - rewrite Hs. by apply parents_accepted_status.
Qed.

Lemma served_hosts_content {k} (o o' : obj k) :
  same_content o o' → served_hosts (AnObject k o) = served_hosts (AnObject k o').
Proof.
  intros (_ & Hs & _). destruct k; try done.
  - by apply (f_equal (λ x, omap listener_Hostname (Listeners x))).
  - by apply (f_equal Hostnames_).
Qed.

Lemma fetch_similar t ns s s' k (o : obj k) :
  similar KGateway s s' → similar KHTTPRoute s s' →
  (run memory_server (FetchValidTargetRef t ns) s).2 = Ok (AnObject k o) →
  ∃ o', (run memory_server (FetchValidTargetRef t ns) s').2 = Ok (AnObject k o') ∧
        same_content o o'.
Proof.
  intros Hg Hr (Hk & Ho & Hv)%fetch_in_store_inv.
  assert (similar k s s') as Hs by (by destruct (target_kind_cases t k Hk) as [-> | ->]).
  destruct (similar_Some k s s' _ o Hs Ho) as (o' & Ho' & Hc).
  exists o'. split; [|done]. apply fetch_in_store; [done..|]. by rewrite <- (valid_object_content o o').
Qed.

Definition hosts_valid (rlp : RateLimitPolicy) (o : client_Object) : outcome unit :=
  match ValidSubdomains (or_any (served_hosts o)) (ruleHosts rlp) with
  | (true, _) => Ok tt
  | (false, invalidHost) => Err (ErrText ("rule host (" +:+ invalidHost +:+ ") not valid"))
  end.

Lemma run_validateRuleHosts rlp s :
  (run memory_server (validateRuleHosts rlp) s).2 =
  outcome_bind (run memory_server (FetchValidTargetRef (rlp_TargetRef (spec rlp))
                                     (meta_Namespace (ometa rlp))) s).2 (hosts_valid rlp).
Proof.
  unfold validateRuleHosts, TargetHostnames. rewrite run_bind, run_bind.
  destruct (run memory_server (FetchValidTargetRef _ _) s) as [[s1 t] [o|e|m]]; [|done..].
  cbn zeta. rewrite TargetHostnames_or_any. cbn [run ret snd outcome_bind]. unfold hosts_valid.
  by destruct (ValidSubdomains _ _) as [[] ?].
Qed.

Lemma validateRuleHosts_similar rlp s s' :
  similar KGateway s s' → similar KHTTPRoute s s' →
  (run memory_server (validateRuleHosts rlp) s).2 = Ok tt →
  (run memory_server (validateRuleHosts rlp) s').2 = Ok tt.
Proof.
  intros Hg Hr. rewrite !run_validateRuleHosts.
  destruct (run memory_server (FetchValidTargetRef _ _) s).2 as [[k o]|e|m] eqn:Hf; [|done..].
  destruct (fetch_similar _ _ s s' k o Hg Hr Hf) as (o' & -> & Hc). cbn [outcome_bind].
  unfold hosts_valid. by rewrite (served_hosts_content o o' Hc).
Qed.

(** A target that carries the policy's key needs no update. *)
Lemma steady_back_reference pk t ns ann s :
  held s t ns ann (key_String pk) → steady (ReconcileTargetBackReference pk t ns ann) s tt.
Proof.
  intros (k & x & Hk & Hx & Hv & Ha). unfold ReconcileTargetBackReference.
  eapply steady_bind; [apply steady_reads; [apply reads_FetchValidTargetRef|]|].
  - by apply (fetch_in_store t ns s k x).
  - cbn zeta iota. rewrite Ha, bool_decide_true by done. apply steady_ret.
Qed.
End targets.

(** ** The limits *)

Section limits.
Context `{Apimachinery, Environment, RefCodec, MapRangeOk, GoSortOk}.

(** The Limitador object has the limits the policies [refs] define for the
    gateway, in whatever order. *)
Definition limits_settled (s : store) (lim : Limitador) (gw : GatewayWrapper)
    (refs : list ObjectKey) : Prop :=
  ∃ m, computed s gw refs = Ok m ∧
    ∀ d, SameLimitList (limits_at (NewLimitadorIndex (Some lim)) (Key gw) d)
           (default [] (m !! d)) = true.

Lemma computed_agree s s' gw refs :
  s KRateLimitPolicy = s' KRateLimitPolicy → s KHTTPRoute = s' KHTTPRoute →
  computed s gw refs = computed s' gw refs.
Proof. intros Hp Hr. apply run_agree. by apply emits_gatewayLimits. Qed.

Lemma replace_all_at s refs idx gws r :
  replace_all s refs idx gws = Ok r → NoDup (Key <$> gws) →
  (index_wf idx → index_wf r) ∧
  (∀ gw, gw ∈ gws → ∃ m, computed s gw (refs gw) = Ok m ∧
     ∀ d, limits_at r (Key gw) d = default [] (m !! d)) ∧
  (∀ g d, g ∉ Key <$> gws → limits_at r g d = limits_at idx g d).
Proof.
  revert idx. induction gws as [|gw gws IH]; intros idx; cbn [replace_all].
  { intros [= <-] _. split; [done|]. split; [by intros ? ?%not_elem_of_nil|done]. }
  destruct (computed s gw (refs gw)) as [m|e|e] eqn:Hm; cbn [outcome_bind]; [|done..].
  rewrite fmap_cons. intros Hr [Hnin Hnd]%NoDup_cons.
  destruct (IH _ Hr Hnd) as (Hwf & Hin & Hother). split; [eauto with kuadrant|]. split.
  - intros gw' [->|Hgw']%elem_of_cons; [|by apply Hin].
    exists m. split; [done|]. intros d. by rewrite Hother, limits_at_replace, decide_True.
  - intros g d [Hne Hg]%not_elem_of_cons.
    by rewrite Hother, limits_at_replace, decide_False by auto.
Qed.

Lemma replace_all_total s refs idx gws :
  (∀ gw, gw ∈ gws → is_ok (computed s gw (refs gw))) → is_ok (replace_all s refs idx gws).
Proof.
  revert idx. induction gws as [|gw gws IH]; intros idx Hok; [done|]. cbn [replace_all].
  destruct (is_ok_inv _ (Hok gw (list_elem_of_here _ _))) as [m ->]. cbn [outcome_bind].
  apply IH. intros gw' Hgw'. apply Hok. by right.
Qed.

Lemma steady_reconcileLimits s rlp d (lim : obj KLimitador) :
  gd_New d = [] → gd_Left d = [] → NoDup (Key <$> gd_Same d) →
  s KLimitador !! limitadorKey = Some lim →
  (∀ gw, gw ∈ gd_Same d → limits_settled s lim gw (RLPRefs gw)) →
  steady (reconcileLimits rlp d) s tt.
Proof.
  intros Hn Hl Hnd Hlim Hs.
  destruct (run_reconcileLimits s rlp d lim Hlim) as (t & Ht & Hrun).
  set (before := NewLimitadorIndex (Some (lim : Limitador))) in *.
  assert (is_ok (replace_all s RLPRefs before (gd_Same d))) as [idx Hidx]%is_ok_inv.
  { apply replace_all_total. intros gw Hgw. by destruct (Hs gw Hgw) as (m & -> & _). }
  destruct (replace_all_at _ _ _ _ _ Hidx Hnd) as (Hwf & Hin & Hother).
  assert (goal_index s rlp d before = Ok idx) as Hgoal
    by (unfold goal_index; rewrite Hn, Hl; cbn [foldl]; by rewrite Hidx).
  assert (LI.Equals before (Some idx) = true) as Heq.
  { apply LI_Equals_limits_at; [apply NewLimitadorIndex_wf|apply Hwf, NewLimitadorIndex_wf|].
    intros g dom.
    destruct (decide (g ∈ Key <$> gd_Same d)) as [(gw & -> & Hgw)%list_elem_of_fmap|Hg].
    - destruct (Hs gw Hgw) as (m & Hm & Hsame), (Hin gw Hgw) as (m' & Hm' & ->).
      rewrite Hm in Hm'. injection Hm' as <-. apply Hsame.
    - rewrite Hother by done. apply SameLimitList_refl. }
  rewrite Hgoal, Heq in Hrun. by exists t.
Qed.

(** The Limitador object of a successful run has the limits of the index. *)
Lemma exec_limits_index s s' rlp d :
  store_wf s → names_valid s (gd_Same d ++ gd_New d) → exec (reconcileLimits rlp d) s s' tt →
  ∃ (lim lim' : obj KLimitador) idx,
    s KLimitador !! limitadorKey = Some lim ∧ s' KLimitador !! limitadorKey = Some lim' ∧
    goal_index s rlp d (NewLimitadorIndex (Some (lim : Limitador))) = Ok idx ∧
    (∀ g dom, SameLimitList (limits_at (NewLimitadorIndex (Some (lim' : Limitador))) g dom)
                (limits_at idx g dom) = true) ∧
    ∀ k, k ≠ KLimitador → s' k = s k.
Proof.
  intros Hwf Hnames [t Hrun].
  destruct (s KLimitador !! limitadorKey) as [lim|] eqn:Hlim.
  2: { exfalso. revert Hrun. unfold reconcileLimits. rewrite run_bind, run_get_limitador.
       unfold get_result. by rewrite Hlim. }
  destruct (run_reconcileLimits s rlp d lim Hlim) as (t' & _ & Hrun'). rewrite Hrun in Hrun'.
  destruct (goal_index s rlp d _) as [idx|e|m] eqn:Hgoal; [|done..].
  destruct (goal_index_reread s rlp d lim idx Hnames Hgoal) as [Hw Hre].
  assert (∃ lim2 : obj KLimitador, s' KLimitador !! limitadorKey = Some lim2 ∧
    LI.Equals (NewLimitadorIndex (Some (lim2 : Limitador))) (Some idx) = true ∧
    ∀ k, k ≠ KLimitador → s' k = s k) as (lim' & Hlim' & Heq & Hframe).
  { destruct (LI.Equals _ (Some idx)) eqn:Heq.
    - injection Hrun' as -> _. eauto.
    - set (lim' := with_limits lim (ToLimits idx) : obj KLimitador) in *. exists lim'.
      assert (ObjectKeyFromObject lim' = limitadorKey) as Hkey by exact (Hwf KLimitador limitadorKey lim Hlim).
      cbn [memory_server] in Hrun'. rewrite Hkey, Hlim in Hrun'. injection Hrun' as -> _.
      rewrite store_put_same, Hkey. split; [apply lookup_insert_eq|].
      split; [rewrite Hre; apply LI_Equals_refl|]. intros k Hk. by rewrite store_put_other. }
  exists lim, lim', idx. rewrite LI_Equals_limits_at in Heq; [|apply NewLimitadorIndex_wf|done].
  done.
Qed.

Lemma SameLimitList_trans a b c :
  SameLimitList a b = true → SameLimitList b c = true → SameLimitList a c = true.
Proof.
  unfold SameLimitList.
  destruct (Nat.eqb_spec (length a) (length b)) as [Hab|]; [|done].
  destruct (Nat.eqb_spec (length b) (length c)) as [Hbc|]; [|done].
  rewrite Hab, Hbc, Nat.eqb_refl. cbn [negb]. rewrite !bool_decide_eq_true. congruence.
Qed.

(** The gateways of the diff get the limits of their policies; for a gateway
    that is not in it nothing changes. *)
Lemma exec_reconcileLimits s s' rlp d :
  store_wf s → names_valid s (gd_Same d ++ gd_New d) →
  NoDup (Key <$> gd_Same d ++ gd_New d) →
  exec (reconcileLimits rlp d) s s' tt →
  ∃ lim lim' : obj KLimitador,
    s KLimitador !! limitadorKey = Some lim ∧ s' KLimitador !! limitadorKey = Some lim' ∧
    (∀ gw, gw ∈ gd_Same d → limits_settled s' lim' gw (RLPRefs gw)) ∧
    (∀ gw, gw ∈ gd_New d → limits_settled s' lim' gw (new_refs rlp gw)) ∧
    (∀ gw refs, Key gw ∉ Key <$> gd_Same d ++ gd_New d → Key gw ∉ Key <$> gd_Left d →
       limits_settled s lim gw refs → limits_settled s' lim' gw refs).
Proof.
  intros Hwf Hnames Hnd Hex.
  destruct (exec_limits_index s s' rlp d Hwf Hnames Hex)
    as (lim & lim' & idx & Hlim & Hlim' & Hgoal & Heq & Hframe).
  exists lim, lim'. split; [done|]. split; [done|].
  assert (∀ gw refs, computed s' gw refs = computed s gw refs) as Hcomp
    by (intros; apply computed_agree; by apply Hframe).
  revert Hgoal. unfold goal_index. rewrite fmap_app in *.
  apply NoDup_app in Hnd as (Hns & Hdisj & Hnn).
  destruct (replace_all s RLPRefs _ (gd_Same d)) as [idx1|e|m] eqn:Hr1; [|done..].
  cbn [outcome_bind]. intros Hgoal.
  destruct (replace_all_at _ _ _ _ _ Hr1 Hns) as (_ & Hin1 & Hother1).
  destruct (replace_all_at _ _ _ _ _ Hgoal Hnn) as (_ & Hin2 & Hother2).
  split; [|split]; [intros gw Hgw..|intros gw refs [Hs Hn]%not_elem_of_app Hl (m & Hm & Hat)].
  - destruct (Hin1 gw Hgw) as (m & Hm & Hat). exists m. rewrite Hcomp. split; [done|]. intros dom.
    rewrite <- Hat, <- Hother2; [apply Heq|]. apply Hdisj. by apply list_elem_of_fmap_2.
  - destruct (Hin2 gw Hgw) as (m & Hm & Hat). exists m. rewrite Hcomp. split; [done|]. intros dom.
    rewrite <- Hat. apply Heq.
  - exists m. rewrite Hcomp. split; [done|]. intros dom.
    eapply SameLimitList_trans; [apply Heq|].
    rewrite Hother2, Hother1, limits_at_delete_all, decide_False by done. apply Hat.
Qed.
End limits.

(** ** The wasm plugins *)

Definition plugin_key (gw : GatewayWrapper) : ObjectKey :=
  {| Namespace := Namespace (Key gw); Name := "kuadrant-" +:+ Name (Key gw) |}.

Lemma plugin_key_inj gw gw' : plugin_key gw = plugin_key gw' → Key gw = Key gw'.
Proof.
  unfold plugin_key. destruct (Key gw), (Key gw'). simpl.
  intros Heq. injection Heq. rewrite !string_app_nil_l. congruence.
Qed.

Section plugins.
Context `{Apimachinery, Environment, RefCodec, MapRangeOk, StructCodecOk, PatchCodec}.

Definition config_computed (s : store) (gw : GatewayWrapper) (refs : list ObjectKey) :
  outcome (option Wasm.WASMPlugin) := (run memory_server (wasmPluginConfig gw refs) s).2.

(** The plugin of the gateway is there and configured as the policies [refs]
    and their routes define. *)
Definition plugin_settled (s : store) (gw : GatewayWrapper) (refs : list ObjectKey) : Prop :=
  ∃ w (plug : obj KWasmPlugin), config_computed s gw refs = Ok (Some w) ∧
    s KWasmPlugin !! plugin_key gw = Some plug ∧
    WASMPluginFromStruct (wp_PluginConfig (spec (plug : WasmPlugin))) = Ok (canonical w).

Lemma reads_wasmPluginConfig gw refs : emits reads (wasmPluginConfig gw refs).
Proof. by apply emits_wasmPluginConfig. Qed.

Lemma plugin_settled_agree s s' gw refs :
  s KRateLimitPolicy = s' KRateLimitPolicy → s KHTTPRoute = s' KHTTPRoute →
  s KWasmPlugin !! plugin_key gw = s' KWasmPlugin !! plugin_key gw →
  plugin_settled s gw refs → plugin_settled s' gw refs.
Proof.
  intros Hp Hr Hw (w & plug & Hc & Hplug & Hcfg). exists w, plug.
  split; [|by rewrite <- Hw]. unfold config_computed in *. rewrite <- Hc. symmetry.
  apply run_agree. by apply emits_wasmPluginConfig.
Qed.

(** The object [gatewayWASMPlugin] builds for a gateway with references. *)
Definition desires (g : Gateway) (w : Wasm.WASMPlugin) (wp : obj KWasmPlugin) : Prop :=
  ObjectKeyFromObject wp = plugin_key (Some g) ∧ IsObjectTaggedToDelete wp = false ∧
  ∃ v, wp_PluginConfig (spec (wp : WasmPlugin)) = Some v ∧ ToStruct w = Ok v.

Lemma run_gatewayWASMPlugin (g : Gateway) refs s :
  refs ≠ [] →
  match config_computed s (Some g) refs with
  | Ok (Some w) => ∃ wp, (run memory_server (gatewayWASMPlugin (Some g) refs) s).2 = Ok wp ∧
                         desires g w wp
  | _ => ¬ is_ok (run memory_server (gatewayWASMPlugin (Some g) refs) s).2
  end.
Proof.
  intros Hrefs. unfold gatewayWASMPlugin. cbn zeta.
  assert ((length refs <? 1)%nat = false) as -> by (destruct refs; done).
  rewrite run_bind. unfold config_computed.
  pose proof (wp_run memory_server (wasmPluginConfig (Some g) refs)
    (λ _ o, ∀ w, o = Ok w → is_Some w) s) as Hsome.
  destruct (run memory_server (wasmPluginConfig (Some g) refs) s) as [[s1 t] [[w|]|e|m]] eqn:Hrun;
    [|exfalso|by intros []|by intros []].
  - cbn [snd]. rewrite ToStruct_eq. eexists. split; [reflexivity|].
    split; [reflexivity|]. split; [reflexivity|]. eexists. split; [reflexivity|]. apply ToStruct_eq.
  - destruct (Hsome) with (w := @None Wasm.WASMPlugin) as [? ?]; [|done..].
    apply wp_wasmPluginConfig; [|done]. intros rlps prs gwRLP w _ _ _ w' [= <-]. by eexists.
Qed.

Lemma exec_gatewayWASMPlugin g refs s s' wp :
  refs ≠ [] → exec (gatewayWASMPlugin (Some g) refs) s s' wp →
  s' = s ∧ ∃ w, config_computed s (Some g) refs = Ok (Some w) ∧ desires g w wp.
Proof.
  intros Hrefs Hex. assert (s' = s) as ->.
  { eapply exec_reads; [|exact Hex]. unfold gatewayWASMPlugin. pose proof reads_wasmPluginConfig.
    emits_auto. }
  apply exec_run in Hex as [_ Hwp]. split; [done|].
  pose proof (run_gatewayWASMPlugin g refs s Hrefs) as Hrun.
  destruct (config_computed s (Some g) refs) as [[w|]|e|m].
  2-4: by rewrite Hwp in Hrun.
  destruct Hrun as (wp' & Hwp' & Hd). exists w. split; [done|]. congruence.
Qed.

(** What the plugin is once [ReconcileResource] succeeded. *)
Lemma exec_ReconcileResource_plugin g w (wp : obj KWasmPlugin) s s' :
  store_wf s → desires g w wp →
  exec (ReconcileResource KWasmPlugin wp WASMPluginMutator) s s' tt →
  ∃ plug : obj KWasmPlugin, s' KWasmPlugin !! plugin_key (Some g) = Some plug ∧
    WASMPluginFromStruct (wp_PluginConfig (spec (plug : WasmPlugin))) = Ok (canonical w).
Proof.
  intros Hwf (Hkey & Htag & v & Hcfg & Hv). pose proof (ToStruct_FromStruct w v Hv) as Hw.
  unfold ReconcileResource. rewrite Hkey, Htag. cbn zeta.
  intros (s1 & found & [-> ->]%exec_attempt_get & Hrun)%exec_bind.
  destruct (s KWasmPlugin !! plugin_key (Some g)) as [plug|] eqn:Hplug.
  - apply exec_bind in Hrun as (s1 & [plug' b] & [-> Hmut]%exec_Ret & Hrun).
    change (mutate_wasm_plugin plug wp = Ok (plug', b)) in Hmut.
    assert (ObjectKeyFromObject (plug' : obj KWasmPlugin) = plugin_key (Some g)) as Hkey'
      by exact (eq_trans (mutate_wasm_plugin_key _ _ _ _ Hmut) (Hwf KWasmPlugin _ plug Hplug)).
    revert Hmut. unfold mutate_wasm_plugin. rewrite Hcfg, Hw.
    destruct (WASMPluginFromStruct (wp_PluginConfig (spec (plug : WasmPlugin)))) as [we|e|m] eqn:Hwe;
      [|done..].
    cbn [outcome_bind]. case_decide as Hd; intros [= <- <-]; cbn [fst snd] in Hrun.
    + apply exec_Ret in Hrun as [-> _]. exists plug. by rewrite Hwe, Hd.
    + apply exec_bind in Hrun as (s2 & r & [-> _]%exec_UpdateResource & [-> _]%exec_Ret).
      eexists. rewrite store_put_same, Hkey', lookup_insert_eq. split; [done|]. by rewrite <- Hw.
  - cbn [negb] in Hrun. change (IsNotFound _) with true in Hrun. cbn [negb] in Hrun.
    apply exec_bind in Hrun as (s2 & r & [-> _]%exec_CreateResource & [-> _]%exec_Ret).
    exists wp. rewrite store_put_same, Hkey, lookup_insert_eq. split; [done|]. by rewrite Hcfg.
Qed.

Lemma writes_plugins refs u gw : writes_only (eq KWasmPlugin) (reconcile_wasm_plugin refs u gw).
Proof.
  unfold writes_only, reconcile_wasm_plugin, gatewayWASMPlugin.
  emits_auto; try apply emits_wasmPluginConfig; by intros.
Qed.

(** The object of a gateway has a name of its own, whatever it is for. *)
Lemma gatewayWASMPlugin_key (g : Gateway) refs s s' wp :
  exec (gatewayWASMPlugin (Some g) refs) s s' wp →
  s' = s ∧ ObjectKeyFromObject wp = plugin_key (Some g).
Proof.
  intros Hex. assert (emits reads (gatewayWASMPlugin (Some g) refs)) as Hr
    by (unfold gatewayWASMPlugin; pose proof reads_wasmPluginConfig; emits_auto).
  pose proof (exec_reads _ _ _ _ Hr Hex) as ->. split; [done|].
  revert Hex. unfold gatewayWASMPlugin.
  destruct (length refs <? 1)%nat; [by intros [_ [= <-]]%exec_Ret|].
  intros (s1 & [w|] & _ & Hex)%exec_bind; [|by apply exec_Ret in Hex as [_ [= <-]]].
  apply exec_bind in Hex as (s2 & v & _ & Hex). by apply exec_Ret in Hex as [_ [= <-]].
Qed.

Lemma exec_plugin_frame refs g s s' :
  store_wf s → exec (reconcile_wasm_plugin refs tt (Some g)) s s' tt →
  ∀ key, key ≠ plugin_key (Some g) → s' KWasmPlugin !! key = s KWasmPlugin !! key.
Proof.
  intros Hwf (s1 & wp & [-> Hkey]%gatewayWASMPlugin_key & Hex)%exec_bind. rewrite <- Hkey.
  by apply (exec_ReconcileResource_frame KWasmPlugin wp WASMPluginMutator);
    [|apply WASMPluginMutator_keeps_key|].
Qed.

Lemma exec_plugin_loop_frame refs (gs : list Gateway) s s' :
  store_wf s → exec (loop (reconcile_wasm_plugin refs) tt (Some <$> gs)) s s' tt →
  ∀ key, key ∉ plugin_key <$> (Some <$> gs) → s' KWasmPlugin !! key = s KWasmPlugin !! key.
Proof.
  revert s. induction gs as [|g gs IH]; intros s Hwf Hex key.
  { by apply exec_Ret in Hex as [-> _]. }
  rewrite !fmap_cons in *. apply exec_loop_cons in Hex as (s1 & [] & Hstep & Hex).
  intros [Hne Hin]%not_elem_of_cons.
  rewrite (IH s1) by (try done; by eapply exec_wf). by eapply exec_plugin_frame.
Qed.

Lemma exec_plugin_step refs g s s' :
  store_wf s → refs (Some g) ≠ [] → exec (reconcile_wasm_plugin refs tt (Some g)) s s' tt →
  plugin_settled s' (Some g) (refs (Some g)).
Proof.
  intros Hwf Hrefs Hex.
  assert (∀ k, KWasmPlugin ≠ k → s' k = s k) as Hframe
    by (intros k; eapply exec_frame; [apply writes_plugins|exact Hex]).
  apply exec_bind in Hex as (s1 & wp & Hwp & Hex).
  apply exec_gatewayWASMPlugin in Hwp as (-> & w & Hc & Hd); [|done].
  destruct (exec_ReconcileResource_plugin g w wp s s' Hwf Hd Hex) as (plug & Hplug & Hcfg).
  exists w, plug. split; [|done]. rewrite <- Hc. unfold config_computed.
  apply run_agree. apply emits_wasmPluginConfig; intros key; (split; [done|]); by apply Hframe.
Qed.

Lemma exec_plugin_loop refs (gs : list Gateway) s s' :
  store_wf s → NoDup (ObjectKeyFromObject <$> gs) → (∀ g, g ∈ gs → refs (Some g) ≠ []) →
  exec (loop (reconcile_wasm_plugin refs) tt (Some <$> gs)) s s' tt →
  ∀ g, g ∈ gs → plugin_settled s' (Some g) (refs (Some g)).
Proof.
  revert s. induction gs as [|g gs IH]; intros s Hwf Hnd Hrefs Hex.
  { by intros ? ?%not_elem_of_nil. }
  rewrite !fmap_cons in *. apply NoDup_cons in Hnd as [Hnin Hnd].
  apply exec_loop_cons in Hex as (s1 & [] & Hstep & Hex).
  pose proof (exec_wf _ _ _ _ Hwf Hstep) as Hwf1.
  assert (∀ k, KWasmPlugin ≠ k → s' k = s1 k) as Hframe.
  { intros k. eapply exec_frame; [|exact Hex]. apply emits_loop. intros u gw. apply writes_plugins. }
  apply exec_plugin_step in Hstep as Hset; [|done|apply Hrefs; left].
  intros g' [->|Hg']%elem_of_cons; [|apply (IH s1); auto; by intros x Hx; apply Hrefs; right].
  eapply (plugin_settled_agree s1); [by rewrite Hframe..| |exact Hset].
  symmetry. eapply exec_plugin_loop_frame; [done|exact Hex|].
  intros (gw & Hk & (g' & -> & Hg')%list_elem_of_fmap)%list_elem_of_fmap.
  apply plugin_key_inj in Hk. apply Hnin. simpl in Hk. rewrite Hk. by apply list_elem_of_fmap_2.
Qed.

Lemma steady_reconcile_wasm_plugin refs g s :
  refs (Some g) ≠ [] → plugin_settled s (Some g) (refs (Some g)) →
  steady (reconcile_wasm_plugin refs tt (Some g)) s tt.
Proof.
  intros Hrefs (w & plug & Hc & Hplug & Hcfg).
  pose proof (run_gatewayWASMPlugin g (refs (Some g)) s Hrefs) as Hrun. rewrite Hc in Hrun.
  destruct Hrun as (wp & Hwp & Hkey & Htag & v & Hv & Hw).
  eapply steady_bind.
  { apply steady_reads; [|exact Hwp]. unfold gatewayWASMPlugin. pose proof reads_wasmPluginConfig.
    emits_auto. }
  unfold ReconcileResource. rewrite Htag. cbn zeta.
  eapply steady_bind.
  { apply steady_reads; [apply emits_attempt, emits_request; done|].
    rewrite run_attempt, run_get. unfold get_result. rewrite Hkey, Hplug. reflexivity. }
  cbn beta iota.
  assert (mutate_wasm_plugin plug wp = Ok ((plug : WasmPlugin), false)) as Hmut.
  { unfold mutate_wasm_plugin. rewrite Hcfg. cbn [outcome_bind].
    pose proof (ToStruct_FromStruct w v Hw) as Hd. rewrite <- Hv in Hd. rewrite Hd.
    cbn [outcome_bind]. by rewrite decide_True. }
  change (WASMPluginMutator KWasmPlugin KWasmPlugin plug wp) with (mutate_wasm_plugin plug wp).
  rewrite Hmut. apply (steady_bind _ _ _ (plug, false)); apply steady_ret.
Qed.
End plugins.

(** ** The references of the gateways *)

Definition gateways (s : store) : list Gateway := (map_to_list (s KGateway)).*2.

Lemma elem_of_gateways s (g : Gateway) :
  store_wf s → g ∈ gateways s ↔ s KGateway !! ObjectKeyFromObject g = Some g.
Proof.
  intros Hwf. unfold gateways. rewrite list_elem_of_fmap. split.
  - intros ([key x] & -> & Hx%elem_of_map_to_list). cbn [snd].
    assert (ObjectKeyFromObject (x : Gateway) = key) as -> by exact (Hwf KGateway key x Hx). done.
  - intros Hg. exists (ObjectKeyFromObject g, g). split; [done|]. by apply elem_of_map_to_list.
Qed.

Lemma NoDup_gateway_keys s : store_wf s → NoDup (ObjectKeyFromObject <$> gateways s).
Proof.
  intros Hwf. assert (ObjectKeyFromObject <$> gateways s = (map_to_list (s KGateway)).*1) as ->;
    [|apply NoDup_fst_map_to_list].
  assert (∀ key x, (key, x) ∈ map_to_list (s KGateway) → ObjectKeyFromObject (x : Gateway) = key)
    as Hkeys by (intros key x Hx%elem_of_map_to_list; exact (Hwf KGateway key x Hx)).
  unfold gateways. induction (map_to_list (s KGateway)) as [|[key x] l IH]; [done|].
  rewrite !fmap_cons. f_equal; [apply Hkeys; left|]. apply IH. intros key' x' Hin. apply Hkeys.
  by right.
Qed.

(** What [AddRLP] or [DeleteRLP] leaves of a gateway. *)
Definition changed_gateway (change : GatewayWrapper → GatewayWrapper * bool) (g : Gateway) : Gateway :=
  default g (change (Some g)).1.

(** [change] keeps the gateway, or changes its references and says so. *)
Definition changes_refs (change : GatewayWrapper → GatewayWrapper * bool) (g : Gateway) : Prop :=
  ∃ g' b, change (Some g) = (Some g', b) ∧ same_but_refs g' g ∧ (b = false → g' = g).

Lemma exec_update_loop change (gs : list Gateway) acc acc' s s' :
  NoDup (ObjectKeyFromObject <$> gs) →
  (∀ g, g ∈ gs → s KGateway !! ObjectKeyFromObject g = Some g ∧ changes_refs change g) →
  exec (loop (update_references change) acc (Some <$> gs)) s s' acc' →
  (∀ g, g ∈ gs → s' KGateway !! ObjectKeyFromObject g = Some (changed_gateway change g)) ∧
  (∀ key, key ∉ ObjectKeyFromObject <$> gs → s' KGateway !! key = s KGateway !! key).
Proof.
  revert acc s. induction gs as [|g gs IH]; intros acc s Hnd Hgs Hex.
  { apply exec_Ret in Hex as [-> _]. split; [by intros ? ?%not_elem_of_nil|done]. }
  rewrite !fmap_cons in *. apply NoDup_cons in Hnd as [Hnin Hnd].
  apply exec_loop_cons in Hex as (s1 & acc1 & Hstep & Hex).
  destruct (Hgs g (list_elem_of_here _ _)) as [Hg (g' & b & Hch & (Hkey & _) & Hsame)].
  assert (s1 KGateway = <[ObjectKeyFromObject g := changed_gateway change g]> (s KGateway)) as Hs1.
  { unfold changed_gateway. rewrite Hch. cbn [fst default]. unfold update_references in Hstep.
    rewrite Hch in Hstep. destruct b.
    - apply exec_bind in Hstep as (s2 & r & Hup & [-> _]%exec_Ret).
      apply (exec_UpdateResource KGateway) in Hup as [-> _].
      rewrite store_put_same. by f_equal.
    - apply exec_Ret in Hstep as [-> _]. rewrite Hsame by done. by rewrite insert_id. }
  destruct (IH acc1 s1 Hnd) as [Hin Hother]; [|done|].
  - intros g2 Hg2. destruct (Hgs g2) as [? ?]; [by right|]. split; [|done].
    rewrite Hs1, lookup_insert_ne; [done|]. intros Heq. apply Hnin. rewrite Heq.
    by apply list_elem_of_fmap_2.
  - split.
    + intros g2 [->|Hg2]%elem_of_cons; [|by apply Hin].
      rewrite Hother by done. rewrite Hs1. apply lookup_insert_eq.
    + intros key [Hne Hk]%not_elem_of_cons. rewrite Hother, Hs1 by done. by rewrite lookup_insert_ne.
Qed.

Section references.
Context `{RefCodecOk}.

Lemma filter_ne_absent {A} `{EqDecision A} (k : A) (l : list A) :
  k ∉ l → filter (λ x, x ≠ k) l = l.
Proof.
  induction l as [|x l IH]; intros Hk; [done|]. apply not_elem_of_cons in Hk as [Hx Hk].
  by rewrite filter_cons_True, IH by auto.
Qed.

Lemma AddRLP_changes g k : refs_readable g → changes_refs (λ g, AddRLP g k) g.
Proof.
  intros Hr. destruct (AddRLP_spec g k Hr) as [[_ Heq]|(_ & g' & Heq & _ & Hs)].
  - exists g, false. split; [done|]. split; [apply same_but_refs_refl|done].
  - by exists g', true.
Qed.

Lemma DeleteRLP_changes g k : changes_refs (λ g, DeleteRLP g k) g.
Proof.
  destruct (DeleteRLP_spec g k) as [[_ Heq]|(l1 & l2 & g' & _ & _ & Heq & _ & Hs)].
  - exists g, false. split; [done|]. split; [apply same_but_refs_refl|done].
  - by exists g', true.
Qed.

Lemma changed_same_but_refs change g : changes_refs change g → same_but_refs (changed_gateway change g) g.
Proof. intros (g' & b & Heq & Hs & _). unfold changed_gateway. by rewrite Heq. Qed.

Lemma changed_AddRLP g k :
  refs_readable g → RLPRefs (Some (changed_gateway (λ g, AddRLP g k) g)) = refs_with (RLPRefs (Some g)) k.
Proof.
  intros Hr. unfold changed_gateway, refs_with.
  destruct (AddRLP_spec g k Hr) as [[Hin ->]|(Hin & g' & -> & Hrefs & _)]; simpl.
  - apply ContainsObjectKey_elem in Hin. by rewrite Hin.
  - apply ContainsObjectKey_false in Hin. by rewrite Hin.
Qed.

Lemma changed_DeleteRLP g k :
  NoDup (RLPRefs (Some g)) →
  RLPRefs (Some (changed_gateway (λ g, DeleteRLP g k) g)) = filter (λ x, x ≠ k) (RLPRefs (Some g)).
Proof.
  intros Hnd. unfold changed_gateway.
  destruct (DeleteRLP_spec g k) as [[Hin ->]|(l1 & l2 & g' & Hl & Hn & -> & Hrefs & _)]; simpl.
  - symmetry. by apply filter_ne_absent.
  - rewrite Hrefs, Hl in *. apply NoDup_app in Hnd as (_ & _ & [Hk _]%NoDup_cons).
    rewrite filter_app, filter_cons_False by (by intros []). by rewrite !filter_ne_absent.
Qed.
End references.

(** ** The gateways of a policy *)

Section diff.
Context `{Apimachinery, RefCodecOk}.

Definition policy_key (rlp : RateLimitPolicy) : ObjectKey := ObjectKeyFromObject rlp.

Definition targeted_keys (rlp : RateLimitPolicy) (s : store) : outcome (list ObjectKey) :=
  (run memory_server (TargetedGatewayKeys (rlp_TargetRef (spec rlp))
                        (meta_Namespace (ometa rlp))) s).2.

Definition diff_of (rlp : RateLimitPolicy) (ks : list ObjectKey) (s : store) : gatewayDiff :=
  {| gd_New := NewGateways (gateways s) (policy_key rlp) ks;
     gd_Same := SameGateways (gateways s) (policy_key rlp) ks;
     gd_Left := LeftGateways (gateways s) (policy_key rlp) ks |}.

Lemma reads_computeGatewayDiffs rlp : emits reads (computeGatewayDiffs rlp).
Proof. by apply emits_computeGatewayDiffs. Qed.

Lemma run_computeGatewayDiffs rlp s :
  (run memory_server (computeGatewayDiffs rlp) s).2 =
  outcome_map (λ ks, Some (diff_of rlp ks s)) (targeted_keys rlp s).
Proof.
  unfold computeGatewayDiffs, targeted_keys. rewrite run_bind.
  assert (emits reads (TargetedGatewayKeys (rlp_TargetRef (spec rlp)) (meta_Namespace (ometa rlp))))
    as Hr by (by apply emits_TargetedGatewayKeys).
  pose proof (run_reads _ s Hr) as Hs.
  destruct (run memory_server (TargetedGatewayKeys _ _) s) as [[s1 t] [ks|e|m]]; [|done..].
  simpl in Hs. subst s1. done.
Qed.

(** The references of a gateway when the policy has been reconciled. *)
Definition refs_after (rlp : RateLimitPolicy) (ks : list ObjectKey) (g g' : Gateway) : Prop :=
  same_but_refs g' g ∧
  if decide (ObjectKeyFromObject g ∈ ks)
  then RLPRefs (Some g') = refs_with (RLPRefs (Some g)) (policy_key rlp)
  else RLPRefs (Some g') = filter (λ x, x ≠ policy_key rlp) (RLPRefs (Some g)).

(** The references can be read, and none occurs twice. *)
Definition refs_ok (s : store) : Prop :=
  ∀ g, g ∈ gateways s → refs_readable g ∧ NoDup (RLPRefs (Some g)).

(** The gateways of a part of the diff. *)
Definition part (P : Gateway → Prop) `{!∀ g, Decision (P g)} (s : store) : list Gateway :=
  filter P (gateways s).

Lemma NoDup_part_keys (P : Gateway → Prop) `{!∀ g, Decision (P g)} s :
  store_wf s → NoDup (ObjectKeyFromObject <$> part P s).
Proof.
  intros Hwf. eapply sublist_NoDup; [by apply (NoDup_gateway_keys s)|].
  apply fmap_sublist, sublist_filter.
Qed.

Lemma part_key_inj s g g' :
  store_wf s → g ∈ gateways s → g' ∈ gateways s →
  ObjectKeyFromObject g = ObjectKeyFromObject g' → g = g'.
Proof.
  intros Hwf Hg%elem_of_gateways Hg'%elem_of_gateways Heq; [|done..].
  rewrite Heq, Hg' in Hg. by injection Hg.
Qed.

(** The two loops over gateways that are stored and have distinct keys. *)
Lemma exec_reference_loops rlp (d d' : gatewayDiff) (ls ns : list Gateway) s s' :
  gd_Left d = Some <$> ls → gd_New d = Some <$> ns →
  NoDup (ObjectKeyFromObject <$> ls ++ ns) →
  (∀ g, g ∈ ls ++ ns → s KGateway !! ObjectKeyFromObject g = Some g ∧ refs_readable g) →
  exec (reconcileGatewayRLPReferences rlp d) s s' d' →
  (∀ g, g ∈ ls → s' KGateway !! ObjectKeyFromObject g =
                 Some (changed_gateway (λ g, DeleteRLP g (policy_key rlp)) g)) ∧
  (∀ g, g ∈ ns → s' KGateway !! ObjectKeyFromObject g =
                 Some (changed_gateway (λ g, AddRLP g (policy_key rlp)) g)) ∧
  (∀ key, key ∉ ObjectKeyFromObject <$> ls ++ ns → s' KGateway !! key = s KGateway !! key).
Proof.
  intros Hl Hn Hnd Hst Hex. unfold reconcileGatewayRLPReferences in Hex. rewrite Hl, Hn in Hex.
  fold (policy_key rlp) in Hex. rewrite fmap_app in *. apply NoDup_app in Hnd as (Hnl & Hdisj & Hnn).
  apply exec_bind in Hex as (s1 & a1 & Hleft & (s2 & a2 & Hnew & [-> _]%exec_Ret)%exec_bind).
  apply exec_update_loop in Hleft as [Hl1 Hl2]; [|done|].
  2: { intros g Hg. split; [apply Hst, elem_of_app; by left|apply DeleteRLP_changes]. }
  apply exec_update_loop in Hnew as [Hn1 Hn2]; [|done|].
  2: { intros g Hg. destruct (Hst g) as [Hs Hr]; [apply elem_of_app; by right|].
       split; [|by apply AddRLP_changes]. rewrite Hl2; [done|]. intros Hin.
       apply (Hdisj _ Hin). by apply list_elem_of_fmap_2. }
  split; [|split; [done|]].
  - intros g Hg. rewrite Hn2; [by apply Hl1|]. by apply Hdisj, list_elem_of_fmap_2.
  - intros key [Hkl Hkn]%not_elem_of_app. by rewrite Hn2, Hl2.
Qed.

Lemma exec_references rlp ks d' s s' :
  store_wf s → refs_ok s →
  exec (reconcileGatewayRLPReferences rlp (diff_of rlp ks s)) s s' d' →
  ∀ key, option_Forall2 (λ g' g : obj KGateway, refs_after rlp ks g g')
           (s' KGateway !! key) (s KGateway !! key).
Proof.
  intros Hwf Hok Hex.
  set (L := λ g : Gateway, ObjectKeyFromObject g ∉ ks ∧ policy_key rlp ∈ RLPRefs (Some g)).
  set (N := λ g : Gateway, ObjectKeyFromObject g ∈ ks ∧ policy_key rlp ∉ RLPRefs (Some g)).
  assert (∀ P Q `{!∀ g, Decision (P g), !∀ g, Decision (Q g)} g, g ∈ gateways s →
    ObjectKeyFromObject g ∈ ObjectKeyFromObject <$> part P s ++ part Q s → P g ∨ Q g) as Hin.
  { intros P Q ? ? g Hg (g2 & Heq & [[Hp Hg2]%list_elem_of_filter
      |[Hq Hg2]%list_elem_of_filter]%elem_of_app)%list_elem_of_fmap;
      rewrite (part_key_inj s g g2) by done; auto. }
  destruct (exec_reference_loops rlp (diff_of rlp ks s) d' (part L s) (part N s) s s')
    as (Hl & Hn & Hother); [..|exact Hex|].
  - apply LeftGateways_filter.
  - apply NewGateways_filter.
  - rewrite fmap_app. apply NoDup_app. split; [by apply NoDup_part_keys|].
    split; [|by apply NoDup_part_keys].
    intros key (g & -> & [[Hg _] _]%list_elem_of_filter)%list_elem_of_fmap
      (g2 & Heq & [[Hg2 _] _]%list_elem_of_filter)%list_elem_of_fmap. by rewrite Heq in Hg.
  - intros g Hg. assert (g ∈ gateways s) as Hgs
      by (by apply elem_of_app in Hg as [[_ ?]%list_elem_of_filter|[_ ?]%list_elem_of_filter]).
    split; [by apply elem_of_gateways|by apply Hok].
  - intros key. destruct (s KGateway !! key) as [g|] eqn:Hg.
    + change Gateway in (type of g).
      assert (ObjectKeyFromObject g = key) as <- by exact (Hwf KGateway key g Hg).
      pose proof (proj2 (elem_of_gateways s g Hwf) Hg) as Hgs. destruct (Hok g Hgs) as [Hr Hnd].
      destruct (decide (N g)) as [HN|HN]; [|destruct (decide (L g)) as [HL|HL]].
      * rewrite Hn by (by apply list_elem_of_filter). constructor.
        split; [by apply changed_same_but_refs, AddRLP_changes|].
        rewrite decide_True by apply HN. by apply changed_AddRLP.
      * rewrite Hl by (by apply list_elem_of_filter). constructor.
        split; [by apply changed_same_but_refs, DeleteRLP_changes|].
        rewrite decide_False by apply HL. by apply changed_DeleteRLP.
      * rewrite Hother, Hg by (by intros [?|?]%Hin). constructor.
        split; [apply same_but_refs_refl|]. unfold refs_with.
        destruct (ContainsObjectKey (RLPRefs (Some g)) (policy_key rlp)) eqn:Hc; cbn [negb].
        -- apply ContainsObjectKey_elem in Hc. case_decide; [done|]. by destruct HL.
        -- apply ContainsObjectKey_false in Hc. case_decide; [by destruct HN|by rewrite filter_ne_absent].
    + rewrite Hother, Hg; [constructor|].
      intros (g2 & -> & [[_ Hg2]%list_elem_of_filter
        |[_ Hg2]%list_elem_of_filter]%elem_of_app)%list_elem_of_fmap;
        apply elem_of_gateways in Hg2; try done; by discriminate (eq_trans (eq_sym Hg) Hg2).
Qed.
End diff.

(** ** Gateways that differ in their metadata *)

Section same_gateway.
Context `{Apimachinery, Environment, RefCodec, MapRange}.

Lemma computed_same_hosts s gw gw' refs :
  Hostnames gw = Hostnames gw' → computed s gw refs = computed s gw' refs.
Proof.
  intros Hh. unfold computed, gatewayLimits. rewrite !run_bind.
  destruct (run memory_server (load_policies _ refs) s) as [[s1 t] [[rs g]|e|m]]; [|done..].
  unfold gateway_level_limits. by rewrite Hh.
Qed.

Lemma config_same_gateway s gw gw' refs :
  Hostnames gw = Hostnames gw' → Key gw = Key gw' →
  config_computed s gw refs = config_computed s gw' refs.
Proof.
  intros Hh Hk. unfold config_computed, wasmPluginConfig. rewrite !run_bind.
  destruct (run memory_server (load_policies _ refs) s) as [[s1 t] [[rs g]|e|m]]; [|done..].
  unfold gateway_level_actions, domain_policy. by rewrite Hh, Hk.
Qed.

Lemma same_but_refs_hosts (g g' : Gateway) :
  same_but_refs g' g → Hostnames (Some g) = Hostnames (Some g') ∧ Key (Some g) = Key (Some g').
Proof. intros (Hk & Hs & _). rewrite !Hostnames_omap. simpl. by rewrite Hs, Hk. Qed.
End same_gateway.

(** Content and annotations but for the back reference. *)
Definition same_but_back {k} (o' o : obj k) : Prop :=
  same_content o o' ∧
  ∀ a, a ≠ RateLimitPolicyBackRefAnnotation →
    entries (GetAnnotations o') !! a = entries (GetAnnotations o) !! a.

Lemma same_but_back_refl {k} (x : option (obj k)) : option_Forall2 same_but_back x x.
Proof. destruct x; by repeat constructor. Qed.

Section back.
Context `{Apimachinery}.

Lemma exec_back_reference pk t ns s s' :
  store_wf s →
  exec (ReconcileTargetBackReference pk t ns RateLimitPolicyBackRefAnnotation) s s' tt →
  ∀ k key, option_Forall2 same_but_back (s' k !! key) (s k !! key).
Proof.
  intros Hwf (s1 & [k x] & Hf & Hex)%exec_bind k' key.
  pose proof (exec_reads _ _ _ _ (reads_FetchValidTargetRef t ns) Hf) as ->.
  apply exec_run in Hf as [_ (_ & Hx & _)%fetch_in_store_inv]. cbn zeta iota in Hex.
  destruct (entries (GetAnnotations x) !! RateLimitPolicyBackRefAnnotation) as [val|] eqn:Ha.
  - destruct (negb _); apply exec_Ret in Hex as [-> ?]; [done|apply same_but_back_refl].
  - apply exec_bind in Hex as (s2 & r & [-> _]%exec_UpdateResource & [-> _]%exec_Ret).
    destruct (decide (k = k')) as [<-|Hk];
      [|rewrite store_put_other by done; apply same_but_back_refl].
    assert (ObjectKeyFromObject (SetAnnotations x
      (<[RateLimitPolicyBackRefAnnotation:=key_String pk]> (entries (GetAnnotations x)))) =
      target_key t ns) as Hkey by exact (Hwf k _ x Hx).
    rewrite store_put_same, Hkey. destruct (decide (target_key t ns = key)) as [<-|Hne].
    + rewrite lookup_insert_eq, Hx. constructor. split; [done|]. intros a Hne.
      change (<[RateLimitPolicyBackRefAnnotation:=key_String pk]> (entries (GetAnnotations x)) !! a =
              entries (GetAnnotations x) !! a). by rewrite lookup_insert_ne.
    + rewrite lookup_insert_ne by done. apply same_but_back_refl.
Qed.

Lemma back_similar k s s' :
  (∀ key, option_Forall2 (@same_but_back k) (s' k !! key) (s k !! key)) → similar k s s'.
Proof. intros Hall key. specialize (Hall key). destruct Hall as [? ? [Hc _]|]; by constructor. Qed.

(** The back reference outlives a change of other annotations. *)
Lemma held_transfer s s' t ns v :
  s KHTTPRoute = s' KHTTPRoute →
  (∀ key, option_Forall2 (λ g' g : obj KGateway, same_but_refs g' g) (s' KGateway !! key) (s KGateway !! key)) →
  held s t ns RateLimitPolicyBackRefAnnotation v → held s' t ns RateLimitPolicyBackRefAnnotation v.
Proof.
  intros Hr Hg (k & x & Hk & Hx & Hv & Ha).
  destruct (target_kind_cases t k Hk) as [-> | ->].
  - exists KHTTPRoute, x. by rewrite <- Hr.
  - specialize (Hg (target_key t ns)). rewrite Hx in Hg.
    inversion Hg as [x' ? (Hkey & Hs & Hst & Han) Hx'|]; subst.
    exists KGateway, x'. split; [done|]. split; [done|]. split.
    + rewrite (valid_object_content (k:=KGateway) x' x); [done|]. by repeat split.
    + rewrite <- Ha. by apply Han.
Qed.
End back.

(** ** The invariant *)

(** What is asked of the plugin of a gateway with the policies [refs]. *)
Abbreviation plugin_condition := (store → GatewayWrapper → list ObjectKey → Prop).

Section settled.
Context `{Apimachinery, Environment, RefCodecOk, MapRangeOk, GoSortOk, StructCodecOk, PatchCodec}.

(** The limits of a gateway are those of the policies [refs], and so is its
    filter, by the condition [filter_ok]. *)
Definition gateway_settled_by (filter_ok : plugin_condition) (s : store) (lim : Limitador)
    (g : Gateway) (refs : list ObjectKey) : Prop :=
  limits_settled s lim (Some g) refs ∧ filter_ok s (Some g) refs.

Record settled_by (filter_ok : plugin_condition) (rlp : RateLimitPolicy) (s : store) : Prop := {
  settled_valid : RLP.Validate rlp = Ok tt;
  settled_hosts : (run memory_server (validateRuleHosts rlp) s).2 = Ok tt;
  settled_back : held s (rlp_TargetRef (spec rlp)) (meta_Namespace (ometa rlp))
                   RateLimitPolicyBackRefAnnotation (key_String (policy_key rlp));
  settled_gateways : ∃ ks (lim : obj KLimitador),
    targeted_keys rlp s = Ok ks ∧ s KLimitador !! limitadorKey = Some lim ∧
    ∀ g, g ∈ gateways s →
      (ObjectKeyFromObject g ∈ ks ↔ policy_key rlp ∈ RLPRefs (Some g)) ∧
      (ObjectKeyFromObject g ∈ ks → gateway_settled_by filter_ok s lim g (RLPRefs (Some g)))
}.

(** The steady state of a policy, for one order of iteration over maps. *)
Definition gateway_settled := gateway_settled_by plugin_settled.
Definition settled := settled_by plugin_settled.

Lemma diff_settled rlp ks s :
  (∀ g, g ∈ gateways s → ObjectKeyFromObject g ∈ ks ↔ policy_key rlp ∈ RLPRefs (Some g)) →
  gd_New (diff_of rlp ks s) = [] ∧ gd_Left (diff_of rlp ks s) = [].
Proof.
  intros Hiff. unfold diff_of. cbn [gd_New gd_Left].
  rewrite NewGateways_filter, LeftGateways_filter.
  assert (∀ P `{!∀ g, Decision (P g)}, (∀ g, g ∈ gateways s → ¬ P g) →
    Some <$> filter P (gateways s) = []) as Hnil.
  { intros P ? HP. destruct (filter P (gateways s)) as [|g l] eqn:Hf; [done|]. exfalso.
    assert (g ∈ filter P (gateways s)) as [HPg Hg]%list_elem_of_filter by (rewrite Hf; left).
    by apply (HP g). }
  split; apply Hnil; intros g Hg; specialize (Hiff g Hg); tauto.
Qed.

Lemma elem_of_Same rlp ks s gw :
  gw ∈ gd_Same (diff_of rlp ks s) → ∃ g, gw = Some g ∧ g ∈ gateways s ∧
    ObjectKeyFromObject g ∈ ks ∧ policy_key rlp ∈ RLPRefs (Some g).
Proof.
  unfold diff_of. cbn [gd_Same]. rewrite SameGateways_filter.
  intros (g & -> & [[Hk Hr] Hg]%list_elem_of_filter)%list_elem_of_fmap. by exists g.
Qed.

Lemma elem_of_New rlp ks s gw :
  gw ∈ gd_New (diff_of rlp ks s) → ∃ g, gw = Some g ∧ g ∈ gateways s ∧
    ObjectKeyFromObject g ∈ ks ∧ policy_key rlp ∉ RLPRefs (Some g).
Proof.
  unfold diff_of. cbn [gd_New]. rewrite NewGateways_filter.
  intros (g & -> & [[Hk Hr] Hg]%list_elem_of_filter)%list_elem_of_fmap. by exists g.
Qed.

(** The keys of the same and the new gateways are distinct. *)
Lemma NoDup_diff_keys rlp ks s :
  store_wf s → NoDup (Key <$> gd_Same (diff_of rlp ks s) ++ gd_New (diff_of rlp ks s)).
Proof.
  intros Hwf. rewrite fmap_app. apply NoDup_app. split; [|split].
  - unfold diff_of. cbn [gd_Same]. rewrite SameGateways_filter, <- list_fmap_compose.
    by apply NoDup_part_keys.
  - intros key (gw & -> & (g & -> & Hg & _ & Hr)%elem_of_Same)%list_elem_of_fmap.
    intros (gw' & Heq & (g' & -> & Hg' & _ & Hr')%elem_of_New)%list_elem_of_fmap.
    by rewrite (part_key_inj s g g' Hwf Hg Hg' Heq) in Hr.
  - unfold diff_of. cbn [gd_New]. rewrite NewGateways_filter, <- list_fmap_compose.
    by apply NoDup_part_keys.
Qed.

(** In a settled state the reconciliation of the specification only reads, but
    for what is done to the filters. *)
Lemma quiet_reconcileSpec `{Quiet Q} filter_ok rlp s :
  store_wf s → settled_by filter_ok rlp s →
  (∀ gws : list GatewayWrapper,
     (∀ gw, gw ∈ gws → ∃ g, gw = Some g ∧ RLPRefs gw ≠ [] ∧ filter_ok s gw (RLPRefs gw)) →
     Q _ (loop (reconcile_wasm_plugin RLPRefs) tt gws) s tt) →
  Q _ (reconcileSpec rlp) s no_requeue.
Proof.
  intros Hwf [Hvalid Hhosts Hback (ks & lim & Hks & Hlim & Hgs)] Hfilters.
  destruct (diff_settled rlp ks s) as [HN HL]; [by intros g Hg; apply Hgs|].
  pose proof (NoDup_diff_keys rlp ks s Hwf) as Hnd. rewrite HN, app_nil_r in Hnd.
  unfold reconcileSpec. eapply quiet_bind_steady; [rewrite Hvalid; apply steady_ret|].
  eapply quiet_bind_steady; [apply steady_reads; [by apply emits_validateRuleHosts|done]|].
  eapply quiet_bind_steady; [by apply steady_back_reference|].
  eapply quiet_bind; [|intros s1 _; apply quiet_steady, steady_ret]. unfold reconcileGatewayDiffs.
  eapply quiet_bind_steady.
  { apply steady_reads; [apply reads_computeGatewayDiffs|].
    rewrite run_computeGatewayDiffs, Hks. reflexivity. }
  cbn iota. eapply quiet_bind_steady.
  { apply (steady_reconcileLimits _ _ _ lim); [done..|].
    intros gw (g & -> & Hg & Hk & _)%elem_of_Same. by apply Hgs. }
  eapply quiet_bind_steady.
  { unfold reconcileRateLimitingClusterEnvoyFilter. rewrite HN, HL. apply steady_ret. }
  eapply quiet_bind.
  { unfold reconcileWASMPluginConf. rewrite HN, HL. eapply quiet_bind_steady; [apply steady_ret|].
    eapply quiet_bind;
      [|intros s1 _; apply quiet_steady; eapply steady_bind; apply steady_ret].
    apply Hfilters. intros gw (g & -> & Hg & Hk & Hr)%elem_of_Same. exists g. split; [done|].
    split; [|by apply Hgs]. intros Hnil. rewrite Hnil in Hr. by apply not_elem_of_nil in Hr. }
  intros s1 _. apply quiet_steady. eapply steady_bind; [|apply steady_ret].
  unfold reconcileGatewayRLPReferences. rewrite HN, HL. apply steady_ret.
Qed.

(** With the filters as they are computed, it only reads. *)
Lemma settled_steady rlp s :
  store_wf s → settled rlp s → steady (reconcileSpec rlp) s no_requeue.
Proof.
  intros Hwf Hset. apply (quiet_reconcileSpec (Q:=@steady) plugin_settled rlp s Hwf Hset).
  intros gws Hgws. apply steady_loop. intros gw Hgw. destruct (Hgws gw Hgw) as (g & -> & Hr & Hf).
  by apply steady_reconcile_wasm_plugin.
Qed.

(** *** What each part of the reconciliation writes *)

Lemma writes_limits rlp d : writes_only (eq KLimitador) (reconcileLimits rlp d).
Proof. apply emits_reconcileLimits; by intros. Qed.
Lemma writes_envoy rlp d :
  writes_only (eq KEnvoyFilter) (reconcileRateLimitingClusterEnvoyFilter rlp d).
Proof. apply emits_reconcileRateLimitingClusterEnvoyFilter; by intros. Qed.
Lemma writes_wasm rlp d : writes_only (eq KWasmPlugin) (reconcileWASMPluginConf rlp d).
Proof. apply emits_reconcileWASMPluginConf; by intros. Qed.
Lemma writes_references rlp d :
  writes_only (eq KGateway) (reconcileGatewayRLPReferences rlp d).
Proof. apply emits_reconcileGatewayRLPReferences; by intros. Qed.

Lemma writes_plugin_loop refs gws :
  writes_only (eq KWasmPlugin) (loop (reconcile_wasm_plugin refs) tt gws).
Proof. apply emits_loop. intros u gw. apply writes_plugins. Qed.

Lemma refs_with_elem refs k : k ∈ refs_with refs k.
Proof.
  unfold refs_with. destruct (ContainsObjectKey refs k) eqn:Hc; cbn [negb]; [|set_solver].
  by apply ContainsObjectKey_elem.
Qed.

Lemma refs_with_present refs k : k ∈ refs → refs_with refs k = refs.
Proof. intros Hk%ContainsObjectKey_elem. unfold refs_with. by rewrite Hk. Qed.

Lemma refs_with_absent refs k : k ∉ refs → refs_with refs k = refs ++ [k].
Proof. intros Hk%ContainsObjectKey_false. unfold refs_with. by rewrite Hk. Qed.

(** The gateways were listed in the store [s0]. *)
Lemma exec_wasm rlp ks s0 s s' :
  store_wf s0 → store_wf s →
  exec (reconcileWASMPluginConf rlp (diff_of rlp ks s0)) s s' tt →
  ∀ g, g ∈ gateways s0 → ObjectKeyFromObject g ∈ ks →
    plugin_settled s' (Some g) (refs_with (RLPRefs (Some g)) (policy_key rlp)).
Proof.
  intros Hwf0 Hwf Hex g Hg Hk. unfold reconcileWASMPluginConf in Hex. cbn zeta in Hex.
  fold (policy_key rlp) in Hex.
  apply exec_bind in Hex as (s1 & [] & Hleft & (s2 & [] & Hsame &
    (s3 & [] & Hnew & [-> _]%exec_Ret)%exec_bind)%exec_bind).
  pose proof (exec_wf _ _ _ _ Hwf Hleft) as Hwf1. pose proof (exec_wf _ _ _ _ Hwf1 Hsame) as Hwf2.
  assert (∀ k, KWasmPlugin ≠ k → s3 k = s2 k) as Hframe
    by (intros k; eapply exec_frame; [apply writes_plugin_loop|exact Hnew]).
  unfold diff_of in Hsame, Hnew. cbn [gd_Same gd_New] in Hsame, Hnew.
  rewrite SameGateways_filter in Hsame. rewrite NewGateways_filter in Hnew.
  destruct (decide (policy_key rlp ∈ RLPRefs (Some g))) as [Hr|Hr].
  - rewrite refs_with_present by done.
    eapply (plugin_settled_agree s2); [by rewrite Hframe..| |].
    + symmetry. eapply exec_plugin_loop_frame; [done|exact Hnew|].
      intros (gw & Heq%plugin_key_inj &
        (x & -> & [[_ Hx] Hxg]%list_elem_of_filter)%list_elem_of_fmap)%list_elem_of_fmap.
      apply Hx. by rewrite <- (part_key_inj s0 g x).
    + refine (exec_plugin_loop RLPRefs _ s1 s2 Hwf1 _ _ Hsame g _);
        [by apply NoDup_part_keys| |by apply list_elem_of_filter].
      intros x [[_ Hx] _]%list_elem_of_filter Hnil. rewrite Hnil in Hx.
      by apply not_elem_of_nil in Hx.
  - refine (exec_plugin_loop (λ g, refs_with (RLPRefs g) (policy_key rlp)) _ s2 s3 Hwf2 _ _ Hnew g _);
      [by apply NoDup_part_keys| |by apply list_elem_of_filter].
    intros x _ Hnil. pose proof (refs_with_elem (RLPRefs (Some x)) (policy_key rlp)) as Hx.
    rewrite Hnil in Hx. by apply not_elem_of_nil in Hx.
Qed.

(** A gateway that is neither targeted nor referenced keeps its plugin. *)
Lemma exec_wasm_frame rlp ks s0 s s' :
  store_wf s0 → store_wf s →
  exec (reconcileWASMPluginConf rlp (diff_of rlp ks s0)) s s' tt →
  ∀ g, g ∈ gateways s0 → ObjectKeyFromObject g ∉ ks → policy_key rlp ∉ RLPRefs (Some g) →
    s' KWasmPlugin !! plugin_key (Some g) = s KWasmPlugin !! plugin_key (Some g).
Proof.
  intros Hwf0 Hwf Hex g Hg Hk Hr. unfold reconcileWASMPluginConf in Hex. cbn zeta in Hex.
  fold (policy_key rlp) in Hex.
  apply exec_bind in Hex as (s1 & [] & Hleft & (s2 & [] & Hsame &
    (s3 & [] & Hnew & [-> _]%exec_Ret)%exec_bind)%exec_bind).
  pose proof (exec_wf _ _ _ _ Hwf Hleft) as Hwf1. pose proof (exec_wf _ _ _ _ Hwf1 Hsame) as Hwf2.
  assert (∀ P `{!∀ g, Decision (P g)}, ¬ P g →
    plugin_key (Some g) ∉ plugin_key <$> (Some <$> filter P (gateways s0))) as Hout.
  { intros P ? HP (gw & Heq%plugin_key_inj &
      (x & -> & [Hx Hxg]%list_elem_of_filter)%list_elem_of_fmap)%list_elem_of_fmap.
    apply HP. by rewrite (part_key_inj s0 g x). }
  unfold diff_of in Hleft, Hsame, Hnew. cbn [gd_Same gd_New gd_Left] in Hleft, Hsame, Hnew.
  rewrite LeftGateways_filter in Hleft. rewrite SameGateways_filter in Hsame.
  rewrite NewGateways_filter in Hnew.
  etransitivity; [eapply exec_plugin_loop_frame; [exact Hwf2|exact Hnew|apply Hout; tauto]|].
  etransitivity; [eapply exec_plugin_loop_frame; [exact Hwf1|exact Hsame|apply Hout; tauto]|].
  eapply exec_plugin_loop_frame; [exact Hwf|exact Hleft|apply Hout; tauto].
Qed.

Lemma exec_limits rlp ks s0 s s' :
  store_wf s0 → store_wf s →
  names_valid s (gd_Same (diff_of rlp ks s0) ++ gd_New (diff_of rlp ks s0)) →
  exec (reconcileLimits rlp (diff_of rlp ks s0)) s s' tt →
  ∃ lim lim' : obj KLimitador,
    s KLimitador !! limitadorKey = Some lim ∧ s' KLimitador !! limitadorKey = Some lim' ∧
    (∀ g, g ∈ gateways s0 → ObjectKeyFromObject g ∈ ks →
       limits_settled s' lim' (Some g) (refs_with (RLPRefs (Some g)) (policy_key rlp))) ∧
    (∀ g refs, g ∈ gateways s0 → ObjectKeyFromObject g ∉ ks → policy_key rlp ∉ RLPRefs (Some g) →
       limits_settled s lim (Some g) refs → limits_settled s' lim' (Some g) refs).
Proof.
  intros Hwf0 Hwf Hnames Hex.
  apply exec_reconcileLimits in Hex as (lim & lim' & Hlim & Hlim' & Hs & Hn & Hother);
    [|done..|by apply NoDup_diff_keys].
  exists lim, lim'. split; [done|]. split; [done|]. split; [intros g Hg Hk|intros g refs Hg Hk Hr].
  - destruct (decide (policy_key rlp ∈ RLPRefs (Some g))) as [Hr|Hr].
    + rewrite refs_with_present by done. apply Hs. unfold diff_of. cbn [gd_Same].
      rewrite SameGateways_filter. by apply list_elem_of_fmap_2, list_elem_of_filter.
    + rewrite refs_with_absent by done. apply Hn. unfold diff_of. cbn [gd_New].
      rewrite NewGateways_filter. by apply list_elem_of_fmap_2, list_elem_of_filter.
  - apply Hother.
    + rewrite fmap_app. intros [(gw & Heq & (x & -> & Hx & Hxk & _)%elem_of_Same)%list_elem_of_fmap
        |(gw & Heq & (x & -> & Hx & Hxk & _)%elem_of_New)%list_elem_of_fmap]%elem_of_app;
        rewrite <- (part_key_inj s0 g x) in Hxk by done; done.
    + unfold diff_of. cbn [gd_Left]. rewrite LeftGateways_filter.
      intros (gw & Heq & (x & -> & [[_ Hx] Hxg]%list_elem_of_filter)%list_elem_of_fmap)%list_elem_of_fmap.
      by rewrite <- (part_key_inj s0 g x) in Hx.
Qed.

(** *** Establishing the invariant *)

(** The names the API server admits, for all gateways and routes. *)
Definition names_ok (s : store) : Prop := names_valid s (Some <$> gateways s).

Lemma names_ok_diff rlp ks s :
  names_ok s → names_valid s (gd_Same (diff_of rlp ks s) ++ gd_New (diff_of rlp ks s)).
Proof.
  intros [Hg Hr]. split; [|done]. intros gw d Hgw. apply Hg.
  apply elem_of_app in Hgw as [(g & -> & Hin & _)%elem_of_Same|(g & -> & Hin & _)%elem_of_New];
    by apply list_elem_of_fmap_2.
Qed.

Lemma limits_settled_agree s s' lim gw refs :
  s KRateLimitPolicy = s' KRateLimitPolicy → s KHTTPRoute = s' KHTTPRoute →
  limits_settled s lim gw refs → limits_settled s' lim gw refs.
Proof. intros Hp Hr (m & Hm & Hs). exists m. by rewrite <- (computed_agree s s'). Qed.

Lemma exec_reconcileGatewayDiffs rlp s s' :
  store_wf s → refs_ok s → names_ok s → exec (reconcileGatewayDiffs rlp) s s' tt →
  ∃ ks (lim lim' : obj KLimitador), targeted_keys rlp s = Ok ks ∧
    s' KRateLimitPolicy = s KRateLimitPolicy ∧ s' KHTTPRoute = s KHTTPRoute ∧
    (∀ key, option_Forall2 (λ g' g : obj KGateway, refs_after rlp ks g g')
              (s' KGateway !! key) (s KGateway !! key)) ∧
    s KLimitador !! limitadorKey = Some lim ∧ s' KLimitador !! limitadorKey = Some lim' ∧
    (∀ g, g ∈ gateways s → ObjectKeyFromObject g ∈ ks →
       gateway_settled s' lim' g (refs_with (RLPRefs (Some g)) (policy_key rlp))) ∧
    (∀ g, g ∈ gateways s → ObjectKeyFromObject g ∉ ks → policy_key rlp ∉ RLPRefs (Some g) →
       s' KWasmPlugin !! plugin_key (Some g) = s KWasmPlugin !! plugin_key (Some g) ∧
       ∀ refs, limits_settled s lim (Some g) refs → limits_settled s' lim' (Some g) refs).
Proof.
  intros Hwf Hrefs Hnames (s0 & d & Hd & Hex)%exec_bind.
  pose proof (exec_reads _ _ _ _ (reads_computeGatewayDiffs rlp) Hd) as ->.
  apply exec_run in Hd as [_ Hd]. rewrite run_computeGatewayDiffs in Hd.
  destruct (targeted_keys rlp s) as [ks|e|m] eqn:Hks; [|done..].
  apply outcome_Ok_inj in Hd. subst d.
  apply exec_bind in Hex as (s1 & [] & Hlim & (s2 & [] & Henvoy & (s3 & [] & Hwasm &
    (s4 & d' & Hupd & [-> _]%exec_Ret)%exec_bind)%exec_bind)%exec_bind).
  assert (∀ k, KLimitador ≠ k → s1 k = s k) as F1
    by (intros k; eapply exec_frame; [apply writes_limits|exact Hlim]).
  assert (∀ k, KEnvoyFilter ≠ k → s2 k = s1 k) as F2
    by (intros k; eapply exec_frame; [apply writes_envoy|exact Henvoy]).
  assert (∀ k, KWasmPlugin ≠ k → s3 k = s2 k) as F3
    by (intros k; eapply exec_frame; [apply writes_wasm|exact Hwasm]).
  assert (∀ k, KGateway ≠ k → s4 k = s3 k) as F4
    by (intros k; eapply exec_frame; [apply writes_references|exact Hupd]).
  pose proof (exec_wf _ _ _ _ Hwf Hlim) as W1. pose proof (exec_wf _ _ _ _ W1 Henvoy) as W2.
  pose proof (exec_wf _ _ _ _ W2 Hwasm) as W3.
  assert (gateways s3 = gateways s) as Hgs by (unfold gateways; by rewrite F3, F2, F1).
  apply exec_limits in Hlim as (lim & lim' & Hlim & Hlim' & Hlims & Hkeep);
    [|done|done|by apply names_ok_diff].
  assert (diff_of rlp ks s = diff_of rlp ks s3) as Hdiff by (unfold diff_of; by rewrite Hgs).
  pose proof (exec_wasm rlp ks s s2 s3 Hwf W2 Hwasm) as Hplugins. rewrite Hdiff in Hupd.
  assert (refs_ok s3) as Hrefs3 by (intros g Hg; apply Hrefs; by rewrite <- Hgs).
  pose proof (exec_references rlp ks d' s3 s4 W3 Hrefs3 Hupd) as Hafter.
  exists ks, lim, lim'. split; [done|]. split; [by rewrite F4, F3, F2, F1|].
  split; [by rewrite F4, F3, F2, F1|].
  split; [intros key; specialize (Hafter key); by rewrite F3, F2, F1 in Hafter|].
  split; [done|]. split; [by rewrite F4, F3, F2|].
  split; [intros g Hg Hk|intros g Hg Hk Hr]; split.
  - apply (limits_settled_agree s1); [by rewrite F4, F3, F2..|by apply Hlims].
  - apply (plugin_settled_agree s3); [by rewrite F4..|by apply Hplugins].
  - rewrite F4 by done. rewrite (exec_wasm_frame rlp ks s s2 s3) by done. by rewrite F2, F1.
  - intros refs Hl. apply (limits_settled_agree s1); [by rewrite F4, F3, F2..|by apply Hkeep].
Qed.

Lemma gateways_related (R : Gateway → Gateway → Prop) s s' g' :
  store_wf s → store_wf s' →
  (∀ key, option_Forall2 (λ g' g : obj KGateway, R g' g) (s' KGateway !! key) (s KGateway !! key)) →
  g' ∈ gateways s' →
  ∃ g, g ∈ gateways s ∧ R g' g ∧ ObjectKeyFromObject g = ObjectKeyFromObject g'.
Proof.
  intros Hwf Hwf' HR Hg'%elem_of_gateways; [|done].
  specialize (HR (ObjectKeyFromObject g')).
  assert (s' KGateway !! ObjectKeyFromObject g' = Some (g' : obj KGateway)) as Hg2 by exact Hg'.
  rewrite Hg2 in HR. destruct (s KGateway !! ObjectKeyFromObject g') as [g|] eqn:Hg;
    [|by inversion HR].
  assert (ObjectKeyFromObject (g : Gateway) = ObjectKeyFromObject g') as Hk
    by exact (Hwf KGateway _ g Hg).
  exists g. split; [|by inversion HR]. apply elem_of_gateways; [done|]. by rewrite Hk.
Qed.

Lemma gateway_settled_same s lim g g' refs :
  Hostnames (Some g) = Hostnames (Some g') → Key (Some g) = Key (Some g') →
  gateway_settled s lim g refs → gateway_settled s lim g' refs.
Proof.
  intros Hh Hk [(m & Hm & Hs) (w & plug & Hw & Hp)]. split.
  - exists m. by rewrite <- (computed_same_hosts s (Some g)), <- Hk.
  - exists w, plug. unfold plugin_key in *. by rewrite <- (config_same_gateway s (Some g)), <- Hk.
Qed.

(** The references are in another annotation than the back reference. *)
Lemma same_but_back_refs (g' g : obj KGateway) :
  same_but_back g' g →
  RLPRefs (Some (g' : Gateway)) = RLPRefs (Some (g : Gateway)) ∧ (refs_readable g → refs_readable g').
Proof.
  intros [_ Ha]. specialize (Ha KuadrantRateLimitPolicyRefAnnotation ltac:(done)).
  change (entries (GetAnnotations (g' : Gateway)) !! KuadrantRateLimitPolicyRefAnnotation =
          entries (GetAnnotations (g : Gateway)) !! KuadrantRateLimitPolicyRefAnnotation) in Ha.
  unfold RLPRefs, refs_readable. by rewrite Ha.
Qed.

Lemma back_refs_ok s s' :
  store_wf s → store_wf s' →
  (∀ key, option_Forall2 (@same_but_back KGateway) (s' KGateway !! key) (s KGateway !! key)) →
  refs_ok s → refs_ok s'.
Proof.
  intros Hwf Hwf' Hback Hok g' Hg'.
  destruct (gateways_related (@same_but_back KGateway) s s' g' Hwf Hwf' Hback Hg') as (g & Hg & Hb & _).
  apply same_but_back_refs in Hb as [-> Hr]. destruct (Hok g Hg). auto.
Qed.

Lemma same_content_hosts (g' g : obj KGateway) :
  same_content g' g →
  Hostnames (Some (g' : Gateway)) = Hostnames (Some (g : Gateway)) ∧
  Key (Some (g' : Gateway)) = Key (Some (g : Gateway)).
Proof.
  intros (Hk & Hs & _). rewrite !Hostnames_omap.
  change (spec (g' : Gateway) = spec (g : Gateway)) in Hs. by rewrite Hs.
Qed.

Lemma names_ok_similar s s' :
  store_wf s → store_wf s' → similar KGateway s' s → similar KHTTPRoute s' s →
  names_ok s → names_ok s'.
Proof.
  intros Hwf Hwf' Hsg Hsr [Hg Hr]. split.
  - intros gw d (g' & -> & Hg')%list_elem_of_fmap.
    destruct (gateways_related (@same_content KGateway) s s' g' Hwf Hwf' Hsg Hg')
      as (g & Hin & Hc & _). apply same_content_hosts in Hc as [Hh Hk].
    specialize (Hg (Some g) d (list_elem_of_fmap_2 _ _ _ Hin)).
    rewrite <- Hh, <- Hk in Hg. exact Hg.
  - intros k r' d Hr' Hd. specialize (Hsr k). rewrite Hr' in Hsr.
    destruct (s KHTTPRoute !! k) as [r|] eqn:Hrk; [|by inversion Hsr].
    assert (same_content r' r) as (_ & Hspec & _) by (by inversion Hsr).
    change (spec (r' : HTTPRoute) = spec (r : HTTPRoute)) in Hspec.
    apply (Hr k r d Hrk). exact (eq_ind _ (λ x, d ∈ Hostnames_ x) Hd _ Hspec).
Qed.

(** A successful reconciliation: the checks, the back reference, the gateways. *)
Lemma exec_reconcileSpec_parts rlp s s' r :
  store_wf s → refs_ok s → names_ok s → exec (reconcileSpec rlp) s s' r →
  RLP.Validate rlp = Ok tt ∧ (run memory_server (validateRuleHosts rlp) s).2 = Ok tt ∧
  ∃ s2, exec (reconcileDirectBackReference rlp) s s2 tt ∧
    (∀ k key, option_Forall2 (@same_but_back k) (s2 k !! key) (s k !! key)) ∧
    (store_wf s2 ∧ refs_ok s2 ∧ names_ok s2 ∧ store_wf s') ∧
    exec (reconcileGatewayDiffs rlp) s2 s' tt.
Proof.
  intros Hwf Hrefs Hnames (s0 & [] & [-> Hvalid]%exec_Ret & (s1 & [] & Hhosts &
    (s2 & [] & Hback & (s3 & [] & Hdiff & [-> _]%exec_Ret)%exec_bind)%exec_bind)%exec_bind)%exec_bind.
  assert (s1 = s) as -> by (eapply exec_reads; [by apply emits_validateRuleHosts|exact Hhosts]).
  apply exec_run in Hhosts as [_ Hhosts].
  pose proof (exec_wf _ _ _ _ Hwf Hback) as Hwf2. pose proof (exec_wf _ _ _ _ Hwf2 Hdiff) as Hwf3.
  pose proof (exec_back_reference _ _ _ _ _ Hwf Hback) as Hrel.
  split; [done|]. split; [done|]. exists s2. split; [done|]. split; [done|]. split; [|done].
  split; [done|]. split; [by apply (back_refs_ok s); [..|apply Hrel|]|].
  split; [by apply (names_ok_similar s); [..|by apply similar_sym, back_similar|by apply similar_sym, back_similar|]|done].
Qed.

(** A successful reconciliation of the specification establishes the invariant. *)
Lemma exec_reconcileSpec_settled rlp s s3 r :
  store_wf s → refs_ok s → names_ok s → exec (reconcileSpec rlp) s s3 r → settled rlp s3.
Proof.
  intros Hwf Hrefs Hnames Hex.
  destruct (exec_reconcileSpec_parts rlp s s3 r Hwf Hrefs Hnames Hex)
    as (Hvalid & Hhosts & s2 & Hback & Hrel & (Hwf2 & Hrefs2 & Hnames2 & Hwf3) & Hdiff).
  assert (held s2 (rlp_TargetRef (spec rlp)) (meta_Namespace (ometa rlp))
            RateLimitPolicyBackRefAnnotation (key_String (policy_key rlp))) as Hheld.
  { apply exec_run in Hback as [<- Hok]. by apply back_reference_holds. }
  destruct (exec_reconcileGatewayDiffs rlp s2 s3 Hwf2 Hrefs2 Hnames2 Hdiff)
    as (ks & _ & lim & Hks & Hp & Hr & Hg & _ & Hlim & Hset & _).
  assert (∀ key, option_Forall2 (λ g' g : obj KGateway, same_but_refs g' g)
            (s3 KGateway !! key) (s2 KGateway !! key)) as Hsame
    by (intros key; destruct (Hg key) as [? ? [? _]|]; by constructor).
  split; [done| | |].
  - apply (validateRuleHosts_similar rlp s); [| |done].
    + apply (similar_trans _ _ s2); [by apply back_similar|]. intros key.
      destruct (Hsame key) as [g' g (Hk & Hs & Hst & _)|]; constructor. by repeat split.
    + apply (similar_trans _ _ s2); [by apply back_similar|by apply similar_eq].
  - by apply (held_transfer s2).
  - exists ks, lim. split; [|split; [done|]].
    + rewrite <- Hks. unfold targeted_keys. apply run_agree.
      apply emits_TargetedGatewayKeys. by intros.
    + intros g' Hg'.
      destruct (gateways_related _ s2 s3 g' Hwf2 Hwf3 Hg Hg') as (g & Hin & [Hsg Hafter] & Hk).
      rewrite Hk in Hafter. case_decide as Hd.
      * split; [|intros _; rewrite Hafter; by apply (gateway_settled_same _ _ g); [apply same_but_refs_hosts..|apply Hset; rewrite ?Hk]].
        split; [intros _; rewrite Hafter; apply refs_with_elem|done].
      * rewrite Hafter. split; [|done]. split; [done|]. by intros [? _]%list_elem_of_filter.
Qed.
End settled.

(** ** Properties *)

(** C4: what a reconciliation of the specification achieves.  On a server
    without other actors, where the references of the gateways can be read and
    names are admissible, once [reconcileSpec] succeeded: the policy holds its
    target; exactly the gateways it targets reference it; Limitador has, for
    each of them, the limits of all the policies it references, up to order;
    and its wasm plugin is there with the configuration of those policies and
    their routes. *)
Theorem reconcileSpec_establishes_settled (AM : Apimachinery) (Env : Environment)
    (RC : RefCodec) (RCok : RefCodecOk) (MR : MapRange) (MRok : MapRangeOk)
    (GS : GoSort) (GSok : GoSortOk) (SC : StructCodec) (SCok : StructCodecOk) (PC : PatchCodec)
    (rlp : RateLimitPolicy) (s : store) (r : Result)
    (Hwf : store_wf s) (Hrefs : refs_ok s) (Hnames : names_ok s)
    (Hok : (run memory_server (reconcileSpec rlp) s).2 = Ok r) :
  settled rlp (run memory_server (reconcileSpec rlp) s).1.1.
Proof. apply (exec_reconcileSpec_settled rlp s _ r); [done..|]. by apply exec_run. Qed.

(** *** The sample cluster *)

Lemma cluster_refs_ok : @refs_ok json_ref_codec cluster.
Proof.
  intros g Hg. change (g ∈ [cluster_gateway]) in Hg. apply list_elem_of_singleton in Hg as ->.
  split; [exact I|constructor].
Qed.

Lemma cluster_names_ok : names_ok cluster.
Proof. exact cluster_names_valid. Qed.

Definition sample_spec_run :=
  run memory_server (@reconcileSpec default_apimachinery sample_environment json_ref_codec
    map_range_default go_merge_sort compact_struct_codec plain_patch cluster_policy) cluster.

Lemma reconcileSpec_establishes_settled_witness :
  sample_spec_run.2 = Ok no_requeue ∧
  @settled default_apimachinery sample_environment json_ref_codec map_range_default go_merge_sort
    compact_struct_codec cluster_policy sample_spec_run.1.1.
Proof.
  assert (sample_spec_run.2 = Ok no_requeue) as Hok by (vm_compute; reflexivity).
  split; [exact Hok|].
  exact (reconcileSpec_establishes_settled default_apimachinery sample_environment
    json_ref_codec json_ref_codec_ok map_range_default map_range_default_ok go_merge_sort
    go_merge_sort_ok compact_struct_codec compact_struct_codec_ok plain_patch cluster_policy
    cluster no_requeue cluster_wf cluster_refs_ok cluster_names_ok Hok).
Defined.
