(* ===== verification/SteadyInvariance.v ===== *)
(** * What the steady state does not depend on

    The status of policies, the annotations of routes, and the order in which Go
    iterates over maps, which may differ from one run to the next.  In a steady
    state that was reached with some order, a reconciliation with another one
    may arrange the domains of a filter anew, and does nothing else. *)
From S2P Require Import Prelude GoStrings Hostname KubeTypes CommonUtils RouteRules PolicyTypes.
From S2P Require Import LimitIndex Json GatewayRefs Client Apimachinery.
From S2P Require Import BaseReconciler TargetRef Runs JsonText JsonStruct WasmJson WasmConfig.
From S2P Require Import Samples RateLimitLimits RateLimitIstio LimitadorSteady RateLimitController.
From S2P Require Import SteadyState.

Open Scope go_scope.

(** ** Policies that differ in their status

    What is computed for a gateway does not depend on the status, the
    annotations and the finalizers of the policies read. *)

(** The content of a policy but for its status. *)
Definition same_policy (r r' : RateLimitPolicy) : Prop :=
  ObjectKeyFromObject r = ObjectKeyFromObject r' ∧ spec r = spec r'.

Definition similar_policies (s s' : store) : Prop :=
  ∀ key, option_Forall2 (λ r r' : obj KRateLimitPolicy, same_policy r r')
           (s KRateLimitPolicy !! key) (s' KRateLimitPolicy !! key).

Section same_policy.
Context `{Apimachinery}.
Implicit Types (r : RateLimitPolicy).

Lemma FlattenLimits_same r r' : same_policy r r' → RLP.FlattenLimits r = RLP.FlattenLimits r'.
Proof. intros [_ Hs]. unfold RLP.FlattenLimits. by rewrite Hs. Qed.

Lemma GatewayActions_same r r' route :
  same_policy r r' →
  GatewayActionsFromRateLimitPolicy (Some r) route =
  GatewayActionsFromRateLimitPolicy (Some r') route.
Proof. intros [_ Hs]. rewrite !GatewayActions_fmap. by rewrite Hs. Qed.

Lemma TargetKey_same r r' : same_policy r r' → RLP.TargetKey r = RLP.TargetKey r'.
Proof.
  intros [Hk Hs]. unfold RLP.TargetKey. rewrite Hs. by injection Hk as -> _.
Qed.

Lemma get_policy_same key s s' :
  similar_policies s s' →
  outcome_rel same_policy (run memory_server (get_policy key) s).2
    (run memory_server (get_policy key) s').2.
Proof.
  intros Hs.
  assert (∀ s, (run memory_server (get_policy key) s).2 = get_result s KRateLimitPolicy key)
    as Hrun by (intros x; exact (f_equal snd (run_get x KRateLimitPolicy key))).
  rewrite !Hrun. unfold get_result. specialize (Hs key). by destruct Hs.
Qed.

(** The policies of a gateway, pairwise. *)
Definition same_policies (x x' : list RateLimitPolicy * option RateLimitPolicy) : Prop :=
  Forall2 same_policy x.1 x'.1 ∧ option_Forall2 same_policy x.2 x'.2.

Lemma load_policies_same who refs s s' :
  similar_policies s s' →
  outcome_rel same_policies (run memory_server (load_policies who refs) s).2
    (run memory_server (load_policies who refs) s').2.
Proof.
  intros Hs. unfold load_policies.
  assert (∀ st x, emits reads (load_policy who refs st x)) as Hr
    by (intros; unfold load_policy; emits_auto).
  apply rel_loop; [done|done|by repeat constructor|].
  intros [rs g] [rs' g'] key [Hrs Hg]. simpl in Hrs, Hg. unfold load_policy.
  eapply (rel_bind same_policy); [by apply emits_get_policy..|by apply get_policy_same|].
  intros r r' Hrr. destruct Hrr as [Hk Hspec]. rewrite Hspec. cbn [fst snd].
  destruct (IsTargetRefHTTPRoute _); [|destruct (IsTargetRefGateway _)].
  - split; [|done]. apply Forall2_app; [done|]. by repeat constructor.
  - destruct Hg; [done|]. split; [done|]. by repeat constructor.
  - by split.
Qed.
End same_policy.

Section same_results.
Context `{Apimachinery, Environment, RefCodec, MapRange}.

(** Nor on the annotations of routes. *)
Lemma fetch_route_similar key s s' :
  similar KHTTPRoute s s' →
  outcome_rel (@same_content KHTTPRoute) (run memory_server (FetchValidHTTPRoute key) s).2
    (run memory_server (FetchValidHTTPRoute key) s').2.
Proof.
  intros Hr. rewrite !run_FetchValidHTTPRoute. unfold get_result.
  specialize (Hr key). destruct Hr as [x x' Hx|]; [|done]. cbn [outcome_bind].
  rewrite (valid_object_content x x' Hx). by destruct (valid_object x').
Qed.

Lemma RulesFromHTTPRoute_spec (r r' : HTTPRoute) :
  spec r = spec r' → RulesFromHTTPRoute (Some r) = RulesFromHTTPRoute (Some r').
Proof. destruct r, r'. simpl. by intros ->. Qed.

Lemma GatewayActions_route (p : RateLimitPolicy) (r r' : HTTPRoute) :
  spec r = spec r' →
  GatewayActionsFromRateLimitPolicy (Some p) (Some r) =
  GatewayActionsFromRateLimitPolicy (Some p) (Some r').
Proof.
  intros Hs. unfold GatewayActionsFromRateLimitPolicy. by rewrite (RulesFromHTTPRoute_spec r r' Hs).
Qed.

Lemma computed_similar s s' gw refs :
  similar_policies s s' → similar KHTTPRoute s s' →
  computed s gw refs = computed s' gw refs.
Proof.
  intros Hp Hr. apply outcome_rel_eq. unfold computed, gatewayLimits.
  eapply (rel_bind same_policies); [by apply emits_load_policies..|by apply load_policies_same|].
  intros [rs g] [rs' g'] [Hrs Hg]. simpl in Hrs, Hg.
  assert (∀ g st x, emits reads (add_route_limits g st x)) as Hread
    by (intros; unfold add_route_limits; pose proof emits_FetchValidHTTPRoute; emits_auto).
  apply (rel_loop2 eq same_policy); [apply Hread|apply Hread| |done|].
  - unfold gateway_level_limits. destruct Hg as [r r' Hg|]; [|done].
    by rewrite (FlattenLimits_same r r' Hg).
  - intros st _ r r' <- Hrr. unfold add_route_limits.
    eapply (rel_bind (@same_content KHTTPRoute)); [by apply emits_FetchValidHTTPRoute..| |].
    + rewrite (TargetKey_same r r' Hrr). by apply fetch_route_similar.
    + intros route route' (_ & Hs & _). change (spec (route : HTTPRoute) = spec (route' : HTTPRoute)) in Hs.
      simpl. unfold mergeLimits. rewrite Hs.
      rewrite (FlattenLimits_same r r' Hrr).
      destruct Hg as [x x' Hg|]; [|done]. by rewrite (FlattenLimits_same x x' Hg).
Qed.

Lemma config_similar s s' gw refs :
  similar_policies s s' → similar KHTTPRoute s s' →
  config_computed s gw refs = config_computed s' gw refs.
Proof.
  intros Hp Hr. apply outcome_rel_eq. unfold config_computed, wasmPluginConfig.
  eapply (rel_bind same_policies); [by apply emits_load_policies..|by apply load_policies_same|].
  intros [rs g] [rs' g'] [Hrs Hg]. simpl in Hrs, Hg.
  assert (∀ g st x, emits reads (add_route_actions g st x)) as Hread
    by (intros; unfold add_route_actions; pose proof emits_FetchValidHTTPRoute; emits_auto).
  eapply (rel_bind eq); [apply emits_loop, Hread..| |by intros m _ <-].
  apply (rel_loop2 eq same_policy); [apply Hread|apply Hread| |done|].
  - unfold gateway_level_actions. destruct Hg as [r r' Hg|]; [|done].
    by rewrite (GatewayActions_same r r' None Hg).
  - intros st _ r r' <- Hrr. unfold add_route_actions.
    eapply (rel_bind (@same_content KHTTPRoute)); [by apply emits_FetchValidHTTPRoute..| |].
    + rewrite (TargetKey_same r r' Hrr). by apply fetch_route_similar.
    + intros route route' (_ & Hs & _). change (spec (route : HTTPRoute) = spec (route' : HTTPRoute)) in Hs.
      simpl. unfold mergeGatewayActions. rewrite Hs, (GatewayActions_route r route route' Hs).
      rewrite (GatewayActions_same r r' (Some (route' : HTTPRoute)) Hrr).
      destruct Hg as [x x' Hg|]; [|done]. by rewrite (GatewayActions_same x x' None Hg).
Qed.
End same_results.

(** ** Conditions on a filter *)

Section transfer.
Context `{Apimachinery, Environment, RefCodecOk, GoSortOk}.

Lemma same_policy_namespace (r r' : RateLimitPolicy) :
  same_policy r r' → meta_Namespace (ometa r) = meta_Namespace (ometa r').
Proof. intros [Hk _]. by injection Hk. Qed.

Lemma limits_settled_similar s s' lim gw refs :
  similar_policies s s' → similar KHTTPRoute s s' →
  limits_settled s lim gw refs → limits_settled s' lim gw refs.
Proof. intros Hp Hr (m & Hm & Hs). exists m. by rewrite <- (computed_similar s s'). Qed.

(** The invariant in another store, with another condition on the filters: it
    does not look at the status of policies, and at the filters only by the
    condition. *)
Lemma settled_by_transfer ok ok' rlp rlp' s s' :
  same_policy rlp rlp' → similar_policies s s' →
  (∀ k, k ≠ KRateLimitPolicy → k ≠ KWasmPlugin → s k = s' k) →
  (∀ g refs, ok s (Some g) refs → ok' s' (Some g) refs) →
  settled_by ok rlp s → settled_by ok' rlp' s'.
Proof.
  intros Hsame Hp Hk Hok [Hvalid Hhosts Hback (ks & lim & Hks & Hlim & Hgs)].
  pose proof (same_policy_namespace _ _ Hsame) as Hns. destruct Hsame as [Hkey Hspec].
  assert (gateways s' = gateways s) as Hg by (unfold gateways; by rewrite <- Hk).
  split.
  - unfold RLP.Validate in *. by rewrite <- Hspec, <- Hns.
  - rewrite run_validateRuleHosts in *. unfold hosts_valid, ruleHosts in *.
    rewrite <- Hspec, <- Hns. refine (eq_trans _ Hhosts). f_equal. symmetry. apply run_agree.
    apply emits_FetchValidTargetRef; intros key; (split; [done|]); by apply Hk.
  - rewrite <- Hspec, <- Hns. unfold policy_key in *. rewrite <- Hkey.
    destruct Hback as (k & x & Ht & Hx & Hv & Ha). exists k, x. split; [done|].
    split; [|done]. by destruct (target_kind_cases _ k Ht) as [-> | ->]; rewrite <- Hk.
  - exists ks, lim. split; [|split; [by rewrite <- Hk|]].
    + rewrite <- Hks. unfold targeted_keys. rewrite <- Hspec, <- Hns. symmetry. apply run_agree.
      apply emits_TargetedGatewayKeys. intros key. split; [done|]. by apply Hk.
    + intros g Hin. rewrite Hg in Hin. unfold policy_key in *. rewrite <- Hkey.
      destruct (Hgs g Hin) as [Hiff Hset]. split; [done|]. intros Hkg.
      destruct (Hset Hkg) as [Hl Hf]. split; [|by apply Hok].
      apply (limits_settled_similar s); [done|by apply similar_eq, Hk|done].
Qed.

Lemma similar_policies_refl s : similar_policies s s.
Proof. intros key. destruct (s KRateLimitPolicy !! key); by repeat constructor. Qed.

Lemma settled_by_mono ok ok' rlp s :
  (∀ g refs, ok s (Some g) refs → ok' s (Some g) refs) →
  settled_by ok rlp s → settled_by ok' rlp s.
Proof. intros Hok. by apply settled_by_transfer; [|apply similar_policies_refl|..]. Qed.
End transfer.

(** What a condition on the filter of a gateway may look at: the plugin, the
    content of policies and routes, and the hosts of the gateway. *)
Class FilterCondition `{Apimachinery} (ok : plugin_condition) : Prop := {
  filter_similar s s' gw refs :
    similar_policies s s' → similar KHTTPRoute s s' →
    s KWasmPlugin !! plugin_key gw = s' KWasmPlugin !! plugin_key gw →
    ok s gw refs → ok s' gw refs;
  filter_same_gateway s gw gw' refs :
    Hostnames gw = Hostnames gw' → Key gw = Key gw' → ok s gw refs → ok s gw' refs
}.

#[export] Instance plugin_settled_condition `{Apimachinery, MapRange, StructCodec} :
  FilterCondition plugin_settled.
Proof.
  split.
  - intros s s' gw refs Hp Hr Hw (w & plug & Hc & Hplug & Hcfg). exists w, plug.
    by rewrite <- (config_similar s s'), <- Hw.
  - intros s gw gw' refs Hh Hk (w & plug & Hc & Hp). exists w, plug.
    unfold plugin_key in *. by rewrite <- (config_same_gateway s gw), <- Hk.
Qed.

Section condition.
Context `{Apimachinery, Environment, RefCodecOk, GoSortOk} (ok : plugin_condition) `{!FilterCondition ok}.

Lemma gateway_settled_by_same s lim g g' refs :
  Hostnames (Some g) = Hostnames (Some g') → Key (Some g) = Key (Some g') →
  gateway_settled_by ok s lim g refs → gateway_settled_by ok s lim g' refs.
Proof.
  intros Hh Hk [(m & Hm & Hs) Hf]. split; [|by eapply filter_same_gateway].
  exists m. by rewrite <- (computed_same_hosts s (Some g)), <- Hk.
Qed.

Lemma gateway_settled_by_similar s s' lim g refs :
  similar_policies s s' → similar KHTTPRoute s s' →
  s KWasmPlugin !! plugin_key (Some g) = s' KWasmPlugin !! plugin_key (Some g) →
  gateway_settled_by ok s lim g refs → gateway_settled_by ok s' lim g refs.
Proof.
  intros Hp Hr Hw [Hl Hf]. split; [by apply (limits_settled_similar s)|by eapply filter_similar].
Qed.

(** The invariant does not look at the status of policies. *)
Lemma settled_similar rlp rlp' s s' :
  same_policy rlp rlp' → similar_policies s s' → (∀ k, k ≠ KRateLimitPolicy → s k = s' k) →
  settled_by ok rlp s → settled_by ok rlp' s'.
Proof.
  intros Hsame Hp Hk. apply settled_by_transfer; [done..|by auto|]. intros g refs.
  apply filter_similar; [done|by apply similar_eq, Hk|by rewrite Hk].
Qed.
End condition.

(** ** Orders of iteration

    An order for one run; every run may have its own. *)

Record iteration := {
  iteration_order : MapRange;
  iteration_ok : @MapRangeOk iteration_order
}.

(** The same configuration with its domains in another order. *)
Definition reordered (w w' : Wasm.WASMPlugin) : Prop :=
  Wasm.FailureModeDeny w = Wasm.FailureModeDeny w' ∧
  option_Forall2 Permutation (Wasm.RateLimitPolicies w) (Wasm.RateLimitPolicies w').

#[export] Instance reordered_equivalence : Equivalence reordered.
Proof.
  split.
  - intros w. by split.
  - intros w w' [Hf Hp]. by split.
  - intros w1 w2 w3 [Hf Hp] [Hf' Hp']. split; [congruence|by etransitivity].
Qed.

#[export] Instance canonical_proper : Proper (reordered ==> reordered) canonical.
Proof.
  intros w w' [Hf Hp]. split; [done|]. cbn [canonical Wasm.RateLimitPolicies].
  destruct Hp as [l l' Hl|]; constructor. by apply Permutation_map.
Qed.

(** With one domain at most there is one order only. *)
Lemma reordered_single w w' :
  reordered w w' → (length (elems (Wasm.RateLimitPolicies w)) ≤ 1)%nat → w = w'.
Proof.
  destruct w as [f l], w' as [f' l']. intros [Hf Hp]. cbn in *. subst f'. intros Hl. f_equal.
  destruct Hp as [x x' Hx|]; [|done]. cbn in Hl. f_equal. destruct x as [|a [|]]; simpl in *; [| |lia].
  - by apply Permutation_nil in Hx.
  - by apply Permutation_length_1_inv in Hx.
Qed.

Section orders.
Context `{Apimachinery, Environment, RefCodecOk, GoSortOk, StructCodecOk, PatchCodec}.

Lemma config_reordered (MR MR' : MapRange) (MRok : @MapRangeOk MR) (MRok' : @MapRangeOk MR')
    gw refs s w :
  config_computed (MR:=MR) s gw refs = Ok (Some w) →
  ∃ w', config_computed (MR:=MR') s gw refs = Ok (Some w') ∧ reordered w w'.
Proof.
  unfold config_computed, wasmPluginConfig. rewrite !run_bind.
  destruct (run memory_server (load_policies _ refs) s) as [[s1 t1] [[rs gr]|e|m]]; [|done..].
  rewrite !run_bind.
  destruct (run memory_server (loop _ _ rs) s1) as [[s2 t2] [acts|e|m]]; [|done..].
  cbn [run ret snd]. intros [= <-]. eexists. split; [reflexivity|]. split; [done|].
  cbn [Wasm.RateLimitPolicies]. constructor. rewrite !domain_policies_fmap.
  apply fmap_Permutation. by rewrite (MRok _ _ _ _ acts), (MRok' _ _ _ _ acts).
Qed.

(** The plugin of the gateway is there and configured as the policies [refs] and
    their routes define, with the domains in whatever order. *)
Definition plugin_settled_unordered : plugin_condition := λ s gw refs,
  ∃ (i : iteration) w w' (plug : obj KWasmPlugin),
    config_computed (MR:=iteration_order i) s gw refs = Ok (Some w) ∧
    s KWasmPlugin !! plugin_key gw = Some plug ∧
    WASMPluginFromStruct (wp_PluginConfig (spec (plug : WasmPlugin))) = Ok w' ∧
    reordered (canonical w) w'.

(** The steady state of a policy, whatever the order of iteration. *)
Definition settled_unordered := settled_by plugin_settled_unordered.

Lemma plugin_unordered (MR : MapRange) (MRok : @MapRangeOk MR) s gw refs :
  plugin_settled (MR:=MR) s gw refs → plugin_settled_unordered s gw refs.
Proof. intros (w & plug & Hc & Hp & Hw). by exists {| iteration_ok := MRok |}, w, (canonical w), plug. Qed.

Lemma settled_is_unordered (MR : MapRange) (MRok : @MapRangeOk MR) rlp s :
  settled (MR:=MR) rlp s → settled_unordered rlp s.
Proof. apply settled_by_mono. intros g refs. by apply plugin_unordered. Qed.

(** The order in which the configuration is computed makes no difference. *)
Lemma plugin_unordered_in (MR : MapRange) (MRok : @MapRangeOk MR) s gw refs :
  plugin_settled_unordered s gw refs →
  ∃ w w' (plug : obj KWasmPlugin), config_computed (MR:=MR) s gw refs = Ok (Some w) ∧
    s KWasmPlugin !! plugin_key gw = Some plug ∧
    WASMPluginFromStruct (wp_PluginConfig (spec (plug : WasmPlugin))) = Ok w' ∧
    reordered (canonical w) w'.
Proof.
  intros ([MR0 Hok0] & w0 & w' & plug & Hc & Hp & Hw & Hr).
  destruct (config_reordered MR0 MR _ MRok gw refs s w0 Hc) as (w & Hc' & Hrw).
  exists w, w', plug. split; [done|]. split; [done|]. split; [done|]. by rewrite <- Hrw.
Qed.

#[export] Instance plugin_unordered_condition : FilterCondition plugin_settled_unordered.
Proof.
  split.
  - intros s s' gw refs Hp Hr Hw (i & w & w' & plug & Hc & Hplug & Hcfg). exists i, w, w', plug.
    by rewrite <- (config_similar (H2:=iteration_order i) s s'), <- Hw.
  - intros s gw gw' refs Hh Hk (i & w & w' & plug & Hc & Hp). exists i, w, w', plug.
    unfold plugin_key in *.
    by rewrite <- (config_same_gateway (H2:=iteration_order i) s gw), <- Hk.
Qed.

(** No filter is configured for more than one domain. *)
Definition single_domains (s : store) : Prop :=
  ∀ key (plug : obj KWasmPlugin) w, s KWasmPlugin !! key = Some plug →
    WASMPluginFromStruct (wp_PluginConfig (spec (plug : WasmPlugin))) = Ok w →
    (length (elems (Wasm.RateLimitPolicies w)) ≤ 1)%nat.

Lemma plugin_single (MR : MapRange) (MRok : @MapRangeOk MR) s gw refs :
  single_domains s → plugin_settled_unordered s gw refs → plugin_settled (MR:=MR) s gw refs.
Proof.
  intros Hs (w & w' & plug & Hc & Hp & Hw & Hr)%(plugin_unordered_in MR MRok).
  exists w, plug. split; [done|]. split; [done|]. rewrite Hw. f_equal.
  apply reordered_single; [by symmetry|]. by eapply Hs.
Qed.

Lemma settled_single (MR : MapRange) (MRok : @MapRangeOk MR) rlp s :
  single_domains s → settled_unordered rlp s → settled (MR:=MR) rlp s.
Proof. intros Hs. apply settled_by_mono. intros g refs. by apply plugin_single. Qed.
End orders.

(** ** Runs that rearrange filters *)

Section tidy.
Context `{StructCodec}.

(** The same plugin, but for the order of the domains in its configuration. *)
Definition plugin_reordered (o o' : obj KWasmPlugin) : Prop :=
  o' = o ∨ ∃ w w' v,
    WASMPluginFromStruct (wp_PluginConfig (spec (o : WasmPlugin))) = Ok w ∧
    WASMPluginFromStruct v = Ok w' ∧ reordered w w' ∧ o' = set_PluginConfig o v.

(** The stores differ in that only. *)
Definition reorder_only (s s' : store) : Prop :=
  (∀ k, k ≠ KWasmPlugin → s' k = s k) ∧
  ∀ key, option_Forall2 plugin_reordered (s KWasmPlugin !! key) (s' KWasmPlugin !! key).

(** A call that reads, or that rearranges a plugin of [s]. *)
Definition rearranges (s : store) (c : call) : Prop :=
  reads c ∨ ∃ key (o o' : obj KWasmPlugin),
    s KWasmPlugin !! key = Some o ∧ plugin_reordered o o' ∧ c = Update KWasmPlugin o'.

#[export] Instance plugin_reordered_preorder : PreOrder plugin_reordered.
Proof.
  split; [by left|]. intros o1 o2 o3 [-> | (w & w' & v & Hw & Hw' & Hr & ->)]; [done|].
  intros [-> | (x & x' & v' & Hx & Hx' & Hr' & ->)]; right.
  - by exists w, w', v.
  - cbn in Hx. rewrite Hw' in Hx. injection Hx as ->. exists w, x', v'.
    split; [done|]. split; [done|]. split; [by etransitivity|done].
Qed.

#[export] Instance reorder_only_preorder : PreOrder reorder_only.
Proof.
  split.
  - intros s. split; [done|]. intros key. destruct (s KWasmPlugin !! key); by constructor.
  - intros s1 s2 s3 [Hk Hp] [Hk' Hp']. split; [by intros k Hne; rewrite Hk', Hk|].
    intros key. by transitivity (s2 KWasmPlugin !! key).
Qed.

Lemma reorder_lookup s s' key plug :
  reorder_only s s' → s KWasmPlugin !! key = Some plug →
  ∃ plug', s' KWasmPlugin !! key = Some plug' ∧ plugin_reordered plug plug'.
Proof.
  intros [_ Hp] Hplug. specialize (Hp key). rewrite Hplug in Hp.
  destruct (s' KWasmPlugin !! key) as [plug'|]; inversion Hp. eauto.
Qed.

Lemma reorder_lookup_inv s s' key plug' :
  reorder_only s s' → s' KWasmPlugin !! key = Some plug' →
  ∃ plug, s KWasmPlugin !! key = Some plug ∧ plugin_reordered plug plug'.
Proof.
  intros [_ Hp] Hplug. specialize (Hp key). rewrite Hplug in Hp.
  destruct (s KWasmPlugin !! key) as [plug|]; inversion Hp. eauto.
Qed.

Lemma rearranges_before s s1 c : reorder_only s s1 → rearranges s1 c → rearranges s c.
Proof.
  intros Hre [Hr|(key & o & o' & Ho & Hr & ->)]; [by left|]. right.
  destruct (reorder_lookup_inv s s1 key o Hre Ho) as (x & Hx & Hxo).
  exists key, x, o'. split; [done|]. split; [by etransitivity|done].
Qed.

(** From [s], [p] succeeds with [a] and does nothing but rearrange plugins. *)
Definition tidy {A} (p : prog A) (s : store) (a : A) : Prop :=
  ∃ s' t, run memory_server p s = (s', t, Ok a) ∧ reorder_only s s' ∧
          Forall (λ e, rearranges s (ev_call e)) t.

Lemma steady_tidy {A} (p : prog A) s a : steady p s a → tidy p s a.
Proof.
  intros (t & Hp & Ht). exists s, t. split; [done|]. split; [done|].
  eapply Forall_impl; [exact Ht|]. intros e He. by left.
Qed.

Lemma tidy_bind {A B} (p : prog A) (f : A → prog B) s a b :
  tidy p s a → (∀ s1, reorder_only s s1 → exec p s s1 a → tidy (f a) s1 b) →
  tidy (prog_bind p f) s b.
Proof.
  intros (s1 & t1 & Hp & Hs1 & Ht1) Hf.
  destruct (Hf s1 Hs1 (ex_intro _ t1 Hp)) as (s2 & t2 & Hq & Hs2 & Ht2).
  exists s2, (t1 ++ t2). rewrite run_bind, Hp, Hq. split; [done|]. split; [by etransitivity|].
  apply Forall_app. split; [done|]. eapply Forall_impl; [exact Ht2|].
  intros e. by apply rearranges_before.
Qed.

Lemma tidy_loop {S X} (I : store → Prop) (body : S → X → prog S) st s l :
  (∀ s s1, reorder_only s s1 → store_wf s1 → I s → I s1) → store_wf s → I s →
  (∀ x s1, x ∈ l → store_wf s1 → I s1 → tidy (body st x) s1 st) → tidy (loop body st l) s st.
Proof.
  intros HI. revert s. induction l as [|x l IH]; intros s Hwf Hs Hb; [apply steady_tidy, steady_ret|].
  cbn [loop]. eapply tidy_bind; [apply Hb; [left|done..]|]. intros s1 Hs1 Hex.
  assert (store_wf s1) by (by eapply exec_wf).
  apply IH; [done|by eapply HI|]. intros y s2 Hy. apply Hb. by right.
Qed.

Lemma tidy_attempt {A} (p : prog A) s a : tidy p s a → tidy (attempt p) s (Success a).
Proof. intros (s' & t & Hp & Ht). exists s', t. by rewrite run_attempt, Hp. Qed.

#[export] Instance tidy_quiet : Quiet (@tidy).
Proof.
  split; [intros A; apply steady_tidy|intros A; apply tidy_attempt|]. intros A B p f s a b Hp Hf.
  eapply tidy_bind; [exact Hp|]. intros s1 _. apply Hf.
Qed.

(** Without two domains in a filter, nothing is rearranged. *)
Lemma single_reorder s s' : single_domains s → reorder_only s s' → single_domains s'.
Proof.
  intros Hs Hre key plug' w' Hplug Hw.
  destruct (reorder_lookup_inv s s' key plug' Hre Hplug) as (plug & Heq & Hr).
  destruct Hr as [-> | (w & w1 & v & Hw1 & Hv & Hr & ->)]; [by eapply Hs|].
  cbn in Hw. rewrite Hv in Hw. injection Hw as ->. pose proof (Hs _ _ _ Heq Hw1) as Hl.
  by rewrite <- (reordered_single w w').
Qed.
End tidy.

(** ** The steady state, whatever the order *)

Section steady_unordered.
Context `{Apimachinery, Environment, RefCodecOk, GoSortOk, StructCodecOk, PatchCodec}.

Lemma reorder_similar s s' :
  reorder_only s s' → similar_policies s s' ∧ similar KHTTPRoute s s'.
Proof.
  intros [Hk _]. split; [|by apply similar_eq; rewrite Hk].
  intros key. rewrite Hk by done. apply similar_policies_refl.
Qed.

Lemma plugin_unordered_reorder s s' gw refs :
  reorder_only s s' → plugin_settled_unordered s gw refs → plugin_settled_unordered s' gw refs.
Proof.
  intros Hre (i & w & w' & plug & Hc & Hplug & Hcfg & Hr).
  destruct (reorder_similar s s' Hre) as [Hp Hrt].
  rewrite (config_similar (H2:=iteration_order i) s s') in Hc by done.
  destruct (reorder_lookup s s' _ plug Hre Hplug) as (plug' & Heq & Hpp).
  destruct Hpp as [-> | (x & x' & v & Hx & Hv & Hxr & ->)].
  - by exists i, w, w', plug.
  - rewrite Hcfg in Hx. injection Hx as <-. exists i, w, x', (set_PluginConfig (plug : WasmPlugin) v).
    split; [done|]. split; [done|]. split; [done|]. by etransitivity.
Qed.

Lemma settled_reorder rlp s s' :
  reorder_only s s' → settled_unordered rlp s → settled_unordered rlp s'.
Proof.
  intros Hre. destruct (reorder_similar s s' Hre) as [Hp _].
  apply settled_by_transfer; [done|done| |].
  - intros k _ Hk. symmetry. by apply Hre.
  - intros g refs. by apply plugin_unordered_reorder.
Qed.

Context {MR : MapRange} {MRok : @MapRangeOk MR}.

(** The plugin that is there, or the one that is put there, for the desired one. *)
Lemma mutate_reordered (plug wp : WasmPlugin) w w' v :
  wp_PluginConfig (spec wp) = Some v → ToStruct w = Ok v →
  WASMPluginFromStruct (wp_PluginConfig (spec plug)) = Ok w' → reordered (canonical w) w' →
  ∃ plug' b, mutate_wasm_plugin plug wp = Ok (plug', b) ∧
    plugin_reordered plug plug' ∧ (b = false → plug' = plug).
Proof.
  intros Hv Hw Hcfg Hr. pose proof (ToStruct_FromStruct w v Hw) as Hd. rewrite <- Hv in Hd.
  unfold mutate_wasm_plugin. rewrite Hcfg, Hd. cbn [outcome_bind]. case_decide.
  - exists plug, false. split; [done|]. split; [by left|done].
  - do 2 eexists. split; [reflexivity|]. split; [|done]. right.
    exists w', (canonical w), (wp_PluginConfig (spec wp)). split_and!; [done|done|by symmetry|done].
Qed.

Lemma reorder_put s (plug plug' : obj KWasmPlugin) :
  s KWasmPlugin !! ObjectKeyFromObject plug' = Some plug → plugin_reordered plug plug' →
  reorder_only s (store_put s plug').
Proof.
  intros Hplug Hr. split; [intros k Hk; by rewrite store_put_other|]. intros key.
  rewrite store_put_same. destruct (decide (ObjectKeyFromObject plug' = key)) as [<-|Hne].
  - rewrite Hplug, lookup_insert_eq. by constructor.
  - rewrite lookup_insert_ne by done. destruct (s KWasmPlugin !! key); by constructor.
Qed.

Lemma tidy_update s (plug plug' : obj KWasmPlugin) :
  s KWasmPlugin !! ObjectKeyFromObject plug' = Some plug → plugin_reordered plug plug' →
  tidy (UpdateResource plug') s plug'.
Proof.
  intros Hplug Hr. exists (store_put s plug'), [Event (Update KWasmPlugin plug') (Success plug')].
  split.
  - change (run memory_server (UpdateResource plug') s) with
      (run memory_server (request (Update KWasmPlugin plug')) s).
    rewrite run_request. cbn [memory_server]. by rewrite Hplug.
  - split; [by eapply reorder_put|]. apply Forall_singleton. right.
    by exists (ObjectKeyFromObject plug'), plug, plug'.
Qed.

Lemma tidy_reconcile_wasm_plugin refs g s :
  store_wf s → refs (Some g) ≠ [] → plugin_settled_unordered s (Some g) (refs (Some g)) →
  tidy (reconcile_wasm_plugin refs tt (Some g)) s tt.
Proof.
  intros Hwf Hrefs (w & w' & plug & Hc & Hplug & Hcfg & Hr)%(plugin_unordered_in MR MRok).
  pose proof (run_gatewayWASMPlugin g (refs (Some g)) s Hrefs) as Hrun. rewrite Hc in Hrun.
  destruct Hrun as (wp & Hwp & Hkey & Htag & v & Hv & Hw).
  eapply quiet_bind_steady.
  { apply steady_reads; [|exact Hwp]. unfold gatewayWASMPlugin. pose proof reads_wasmPluginConfig.
    emits_auto. }
  unfold ReconcileResource. rewrite Htag. cbn zeta.
  eapply quiet_bind_steady.
  { apply steady_reads; [apply emits_attempt, emits_request; done|].
    rewrite run_attempt, run_get. unfold get_result. rewrite Hkey, Hplug. reflexivity. }
  cbn beta iota.
  change (WASMPluginMutator KWasmPlugin KWasmPlugin plug wp) with (mutate_wasm_plugin plug wp).
  destruct (mutate_reordered plug wp w w' v Hv Hw Hcfg Hr) as (plug' & b & Hmut & Hre & Hb).
  pose proof (mutate_wasm_plugin_key _ _ _ _ Hmut) as Hk. rewrite Hmut.
  eapply quiet_bind_steady; [apply (steady_ret s (plug', b))|]. cbn [fst snd]. destruct b.
  - eapply tidy_bind; [|intros s1 _ _; apply steady_tidy, steady_ret].
    eapply (tidy_update s plug); [|exact Hre].
    rewrite <- Hplug. f_equal. refine (eq_trans Hk _). exact (Hwf KWasmPlugin _ plug Hplug).
  - apply steady_tidy, steady_ret.
Qed.

Lemma tidy_reconcileSpec rlp s :
  store_wf s → settled_unordered rlp s → tidy (reconcileSpec rlp) s no_requeue.
Proof.
  intros Hwf Hset. apply (quiet_reconcileSpec (Q:=@tidy _) _ rlp s Hwf Hset). intros gws Hgws.
  apply (tidy_loop (λ s1, ∀ gw, gw ∈ gws → plugin_settled_unordered s1 gw (RLPRefs gw))); [|done|..].
  - intros s1 s2 Hre _ Hs1 gw Hgw. by eapply plugin_unordered_reorder, Hs1.
  - intros gw Hgw. by destruct (Hgws gw Hgw) as (g & -> & _ & Hf).
  - intros gw s1 Hgw Hwf1 Hs1. destruct (Hgws gw Hgw) as (g & -> & Hr & _).
    by apply tidy_reconcile_wasm_plugin; [..|apply Hs1].
Qed.
End steady_unordered.

(** ** Properties *)

(** C7: that state is a fixed point, up to the order of iteration over maps.
    From any state in which it holds with the domains of the filters in any
    order, however it was reached, [reconcileSpec] succeeds without a requeue
    for every order of iteration, and it holds again afterwards.  The only
    writes there can be are updates of plugins that put the domains of their
    configuration in another order, and this is all that changes in the
    cluster.  There are none, and the cluster stays as it is, if the filters are
    arranged as the order of this run has it, or none has more than one
    domain. *)
Theorem settled_is_steady (AM : Apimachinery) (Env : Environment)
    (RC : RefCodec) (RCok : RefCodecOk) (GS : GoSort) (GSok : GoSortOk)
    (SC : StructCodec) (SCok : StructCodecOk) (PC : PatchCodec)
    (MR : MapRange) (MRok : MapRangeOk)
    (rlp : RateLimitPolicy) (s : store) (Hwf : store_wf s) (Hset : settled_unordered rlp s) :
  let again := run memory_server (reconcileSpec rlp) s in
  again.2 = Ok no_requeue ∧ settled_unordered rlp again.1.1 ∧
  reorder_only s again.1.1 ∧ Forall (λ e, rearranges s (ev_call e)) again.1.2 ∧
  (settled rlp s ∨ single_domains s →
     again.1.1 = s ∧ Forall (λ e, reads (ev_call e)) again.1.2).
Proof.
  intros again. destruct (tidy_reconcileSpec rlp s Hwf Hset) as (s' & t & Hrun & Hre & Ht).
  subst again. rewrite Hrun. cbn [fst snd]. split; [done|].
  split; [by eapply settled_reorder|]. split; [done|]. split; [done|]. intros Hcase.
  assert (settled rlp s) as Hexact by (destruct Hcase; [done|by apply settled_single]).
  destruct (settled_steady rlp s Hwf Hexact) as (t' & Hrun' & Ht').
  rewrite Hrun in Hrun'. by injection Hrun' as -> ->.
Qed.

(** *** Two domains on the sample gateway *)

Definition two_domains : store := store_put cluster (k:=KHTTPRoute) two_host_route.

Lemma two_domains_wf : store_wf two_domains.
Proof. apply store_put_wf, cluster_wf. Qed.

Lemma two_domains_refs_ok : @refs_ok json_ref_codec two_domains.
Proof. exact cluster_refs_ok. Qed.

Lemma two_domains_names_ok : names_ok two_domains.
Proof.
  split; [apply cluster_names_ok|]. intros k r d Hr Hd.
  change (({[ {| Namespace := "ns"; Name := "route" |} := two_host_route ]} :
            gmap ObjectKey HTTPRoute) !! k = Some r) in Hr.
  apply lookup_singleton_Some in Hr as [_ <-].
  change (d ∈ ["api.com"; "web.com"]) in Hd.
  by apply elem_of_cons in Hd as [-> | ->%list_elem_of_singleton].
Qed.

Definition spec_run (MR : MapRange) (s : store) :=
  run memory_server (@reconcileSpec default_apimachinery sample_environment json_ref_codec
    MR go_merge_sort compact_struct_codec plain_patch cluster_policy) s.
Definition writes_of {A} (r : store * list event * outcome A) : nat :=
  length (filter (λ e, is_write (ev_call e) = true) r.1.2).

(** The first run writes five objects.  The second iterates in the reverse order
    and writes the plugin once more; a third in the same order does not. *)
Lemma settled_is_steady_witness :
  let first := spec_run map_range_default two_domains in
  let second := spec_run map_range_reverse first.1.1 in
  let third := spec_run map_range_reverse second.1.1 in
  writes_of first = 5%nat ∧ writes_of second = 1%nat ∧ writes_of third = 0%nat ∧
  second.2 = Ok no_requeue ∧
  @reorder_only compact_struct_codec first.1.1 second.1.1.
Proof.
  intros first second third. split; [vm_compute; reflexivity|].
  split; [vm_compute; reflexivity|]. split; [vm_compute; reflexivity|].
  assert (exec (@reconcileSpec default_apimachinery sample_environment json_ref_codec
    map_range_default go_merge_sort compact_struct_codec plain_patch cluster_policy)
    two_domains first.1.1 no_requeue) as Hex
    by (apply exec_run; split; [reflexivity|vm_compute; reflexivity]).
  destruct (settled_is_steady default_apimachinery sample_environment
    json_ref_codec json_ref_codec_ok go_merge_sort go_merge_sort_ok compact_struct_codec
    compact_struct_codec_ok plain_patch map_range_reverse map_range_reverse_ok cluster_policy
    first.1.1 (exec_wf _ _ _ _ two_domains_wf Hex)
    (settled_is_unordered map_range_default map_range_default_ok _ _
       (exec_reconcileSpec_settled _ _ _ _ two_domains_wf two_domains_refs_ok
          two_domains_names_ok Hex))) as (H2 & _ & Hre & _).
  split; [exact H2|exact Hre].
Defined.
