(* ===== verification/SteadyReconcile.v ===== *)
(** * A rate limit policy comes to rest

    The whole [Reconcile], with the finalizer and the status: on a server
    without other actors a second reconciliation of a policy only reads, but for
    filters whose domains it puts in the order of its own run. *)
From S2P Require Import Prelude GoStrings Hostname KubeTypes CommonUtils RouteRules PolicyTypes.
From S2P Require Import LimitIndex Json GatewayRefs Client Apimachinery.
From S2P Require Import BaseReconciler TargetRef Runs JsonText JsonStruct WasmJson WasmConfig.
From S2P Require Import Samples RateLimitLimits RateLimitIstio LimitadorSteady RateLimitController.
From S2P Require Import SteadyState SteadyInvariance.

Open Scope go_scope.

(** ** The invariant and the status *)

Section invariant.
Context `{Apimachinery, Environment, RefCodecOk, MapRangeOk, GoSortOk, StructCodecOk, PatchCodec}.

Lemma gatewaysRateLimits_similar rlp rlp' s s' :
  same_policy rlp rlp' → similar_policies s s' →
  (∀ k, k ≠ KRateLimitPolicy → k ≠ KWasmPlugin → s k = s' k) →
  (run memory_server (gatewaysRateLimits rlp) s).2 =
  (run memory_server (gatewaysRateLimits rlp') s').2.
Proof.
  intros Hsame Hp Hk. pose proof (same_policy_namespace _ _ Hsame) as Hns.
  destruct Hsame as [_ Hspec]. unfold gatewaysRateLimits. rewrite <- Hspec, <- Hns.
  assert (∀ t ns, emits reads (TargetedGatewayKeys t ns)) as Hr
    by (intros; by apply emits_TargetedGatewayKeys).
  assert (∀ st x, emits reads (gateway_rate_limits st x)) as Hb
    by (intros; unfold gateway_rate_limits; emits_auto).
  apply outcome_rel_eq. eapply (rel_bind eq); [apply emits_attempt, Hr..| |].
  { apply outcome_rel_eq, run_agree, emits_attempt, emits_TargetedGatewayKeys.
    intros key. split; [done|]. by apply Hk. }
  intros keys _ <-. eapply (rel_bind eq).
  1, 2: destruct keys; emits_auto.
  { destruct keys as [ks|e]; [done|]. by destruct (IsNotFound e). }
  intros ks _ <-. apply rel_loop; [apply Hb..|done|].
  intros result _ key <-. unfold gateway_rate_limits.
  eapply (rel_bind eq); [by apply emits_attempt, emits_get_gateway..| |].
  { apply outcome_rel_eq, run_agree, emits_attempt, emits_get_gateway. split; [done|].
    by apply Hk. }
  intros gw _ <-. destruct gw as [gw|e]; [|by destruct (IsNotFound e)].
  destruct (GetAnnotations gw) as [an|]; [|done].
  destruct (an !! RateLimitPolicyBackRefAnnotation) as [v|]; [|done].
  destruct (UnMarshallObjectKey v) as [k|e|m]; [|done..].
  eapply (rel_bind (answer_rel same_policy)); [by apply emits_attempt, emits_get_policy..| |].
  { by apply rel_attempt, get_policy_same. }
  intros [r|e] [r'|e'] Hrr; try done.
  - destruct Hrr as [_ Hs]. simpl. by rewrite Hs.
  - simpl in Hrr. subst e'. by destruct (IsNotFound e).
Qed.
End invariant.

(** ** The whole reconciliation *)

Lemma Status_Equals_refl `{GoSort, ConditionCodec} s : RLP.Status_Equals s s = true.
Proof. unfold RLP.Status_Equals. by rewrite Z.eqb_refl, !bool_decide_true. Qed.

Section reconcile.
Context `{ApimachineryOk, Environment, RefCodecOk, MapRangeOk, GoSortOk, StructCodecOk}.
Context `{PatchCodec, ConditionCodec}.

(** The gateway limits of the status, for a route. *)
Definition status_limits (rlp : RateLimitPolicy) (s : store) :
  outcome (option (list GatewayRateLimits)) :=
  if IsTargetRefHTTPRoute (rlp_TargetRef (spec rlp))
  then outcome_map Some (run memory_server (gatewaysRateLimits rlp) s).2 else Ok None.

Definition status_with (rlp : RateLimitPolicy) (gen : Z) (e : option error)
    (gwl : option (list GatewayRateLimits)) : RateLimitPolicyStatus :=
  {| rlp_ObservedGeneration := gen;
     rlp_Conditions := SetStatusCondition (rlp_Conditions (status rlp)) (availableCondition e);
     GatewaysRateLimits := gwl |}.

Lemma reads_gatewaysRateLimits rlp : emits reads (gatewaysRateLimits rlp).
Proof.
  unfold gatewaysRateLimits, gateway_rate_limits.
  assert (∀ t ns, emits reads (TargetedGatewayKeys t ns))
    by (intros; by apply emits_TargetedGatewayKeys).
  emits_auto.
Qed.

Lemma run_calculateStatus rlp e s :
  (run memory_server (calculateStatus rlp e) s).2 =
  outcome_map (status_with rlp (rlp_ObservedGeneration (status rlp)) e) (status_limits rlp s).
Proof.
  unfold calculateStatus, status_limits, status_with. rewrite CopyConditions_id.
  destruct (IsTargetRefHTTPRoute _); [|done]. rewrite !run_bind.
  by destruct (run memory_server (gatewaysRateLimits rlp) s) as [[? ?] []].
Qed.

(** The status is the one a reconciliation computes. *)
Definition status_settled (rlp : RateLimitPolicy) (s : store) : Prop :=
  ∃ gwl, status_limits rlp s = Ok gwl ∧
    RLP.Status_Equals (status rlp)
      (status_with rlp (rlp_ObservedGeneration (status rlp)) None gwl) = true ∧
    meta_Generation (ometa rlp) = rlp_ObservedGeneration (status rlp).

Lemma steady_reconcileStatus rlp s :
  status_settled rlp s → steady (reconcileStatus rlp None) s no_requeue.
Proof.
  intros (gwl & Hgwl & Heq & Hgen). unfold reconcileStatus.
  eapply steady_bind.
  { apply steady_reads; [by apply emits_calculateStatus|].
    rewrite run_calculateStatus, Hgwl. reflexivity. }
  cbn zeta. rewrite Heq, Hgen, Z.eqb_refl. apply steady_ret.
Qed.

Lemma similar_policies_put s (r r' : obj KRateLimitPolicy) :
  s KRateLimitPolicy !! ObjectKeyFromObject r' = Some r → same_policy r r' →
  similar_policies s (store_put s r').
Proof.
  intros Hr Hsame key. rewrite store_put_same.
  destruct (decide (ObjectKeyFromObject r' = key)) as [<-|Hne].
  - rewrite Hr, lookup_insert_eq. by constructor.
  - rewrite lookup_insert_ne by done. apply similar_policies_refl.
Qed.

Lemma exec_attempt_status (o old : obj KRateLimitPolicy) s s' a :
  s KRateLimitPolicy !! ObjectKeyFromObject o = Some old →
  exec (attempt (UpdateResourceStatus o)) s s' a →
  s' = store_put s (set_status old (status o)) ∧ ∃ r, a = Success r.
Proof.
  intros Hold [<- Ha]%exec_run. revert Ha. rewrite run_attempt.
  change (run memory_server (UpdateResourceStatus o) s) with
    (run memory_server (request (UpdateStatus KRateLimitPolicy o)) s).
  rewrite run_request. cbn [memory_server]. rewrite Hold. cbn [fst snd answered].
  intros [= <-]. eauto.
Qed.

(** A condition that was set is not changed by setting it again. *)
Lemma SetStatusCondition_again cs c :
  NoDup (cond_Type <$> cs) →
  SetStatusCondition (SetStatusCondition cs c) c = SetStatusCondition cs c.
Proof.
  intros Hnd. destruct (SetStatusCondition_sets cs c) as (d & Hd & Hs).
  by apply (SetStatusCondition_settled _ _ d); [apply SetStatusCondition_types|..].
Qed.

(** The policy is stored under the key, with the status of a settled one. *)
Definition at_rest (filter_ok : plugin_condition) (req : ObjectKey) (m : ObjectMeta) (s : store) :
  Prop :=
  ∃ rlp : obj KRateLimitPolicy, s KRateLimitPolicy !! req = Some rlp ∧ ometa rlp = m ∧
    settled_by filter_ok rlp s ∧ status_settled rlp s.

Lemma exec_reconcileStatus (rlp : RateLimitPolicy) req s s' res :
  store_wf s → NoDup (cond_Type <$> rlp_Conditions (status rlp)) →
  s KRateLimitPolicy !! req = Some (rlp : obj KRateLimitPolicy) → settled rlp s →
  exec (reconcileStatus rlp None) s s' res →
  res = no_requeue ∧ at_rest plugin_settled req (ometa rlp) s'.
Proof.
  intros Hwf Hnd Hreq Hset (s1 & new & Hcalc & Hex)%exec_bind.
  assert (s1 = s) as -> by (eapply exec_reads; [by apply emits_calculateStatus|exact Hcalc]).
  apply exec_run in Hcalc as [_ Hcalc]. rewrite run_calculateStatus in Hcalc.
  destruct (status_limits rlp s) as [gwl|e|m] eqn:Hgwl; [|done..].
  apply outcome_Ok_inj in Hcalc. subst new. cbn zeta in Hex.
  destruct (RLP.Status_Equals _ _ && _) eqn:Heq.
  { apply exec_Ret in Hex as [-> [= <-]]. split; [done|]. exists rlp.
    apply andb_true_iff in Heq as [Heq Hgen%Z.eqb_eq]. split; [done|]. split; [done|].
    split; [done|]. by exists gwl. }
  set (st := status_with rlp (meta_Generation (ometa rlp)) None gwl).
  set (rlp' := set_status rlp st : obj KRateLimitPolicy).
  assert (ObjectKeyFromObject rlp' = req) as Hkey by exact (Hwf KRateLimitPolicy req rlp Hreq).
  apply exec_bind in Hex as (s2 & upd & Hupd & Hex).
  apply (exec_attempt_status rlp' rlp) in Hupd as [-> [r ->]]; [|by rewrite Hkey].
  apply exec_Ret in Hex as [-> [= <-]]. split; [done|].
  change (set_status rlp (status rlp')) with rlp'.
  assert (same_policy rlp rlp') as Hsame by done.
  assert (similar_policies s (store_put s rlp')) as Hsim
    by (apply (similar_policies_put s rlp); [by rewrite Hkey|done]).
  assert (∀ k, k ≠ KRateLimitPolicy → s k = store_put s rlp' k) as Hk
    by (intros k Hne; by rewrite store_put_other).
  exists rlp'. split; [by rewrite store_put_same, Hkey, lookup_insert_eq|]. split; [done|].
  split; [by apply (settled_similar plugin_settled rlp _ s)|]. exists gwl. split; [|split; [|done]].
  - rewrite <- Hgwl. unfold status_limits. change (spec rlp') with (spec rlp).
    rewrite (gatewaysRateLimits_similar rlp rlp' s (store_put s rlp')); [done..|]. by auto.
  - assert (status_with rlp' (meta_Generation (ometa rlp)) None gwl = st) as Hst.
    { pose proof (SetStatusCondition_again _ (availableCondition None) Hnd) as Hag.
      unfold st, status_with. f_equal. exact Hag. }
    change (RLP.Status_Equals st (status_with rlp' (meta_Generation (ometa rlp)) None gwl) = true).
    rewrite Hst. apply Status_Equals_refl.
Qed.

Lemma spec_keeps_policies rlp s s' r :
  exec (reconcileSpec rlp) s s' r → s' KRateLimitPolicy = s KRateLimitPolicy.
Proof.
  intros Hex. eapply (exec_frame (λ k, k ≠ KRateLimitPolicy)); [|exact Hex|by intros []].
  apply emits_reconcileSpec; by intros.
Qed.

Lemma exec_reconcile_live (rlp : RateLimitPolicy) req s s' :
  store_wf s → refs_ok s → names_ok s → NoDup (cond_Type <$> rlp_Conditions (status rlp)) →
  s KRateLimitPolicy !! req = Some (rlp : obj KRateLimitPolicy) →
  exec (reconcile_live rlp) s s' (no_requeue, None) → at_rest plugin_settled req (ometa rlp) s'.
Proof.
  intros Hwf Hrefs Hnames Hnd Hreq (s1 & specRes & Hspec & Hex)%exec_bind.
  destruct specRes as [r|e]; cbn zeta in Hex.
  2: { rewrite bool_decide_false in Hex by done. cbn [andb] in Hex.
       by apply exec_bind in Hex as (s2 & st & _ & [_ [=]]%exec_Ret). }
  rewrite exec_attempt_Success in Hspec. rewrite bool_decide_true in Hex by done. cbn [andb] in Hex.
  destruct (Requeue r) eqn:Hr; [apply exec_Ret in Hex as [_ [= ->]]; done|].
  apply exec_bind in Hex as (s2 & [st|e] & Hst & Hex); [|by apply exec_Ret in Hex as [_ [=]]].
  rewrite exec_attempt_Success in Hst.
  assert (s' = s2) as -> by (destruct (Requeue st); by apply exec_Ret in Hex as [-> _]).
  eapply (exec_reconcileStatus rlp req s1); [by eapply exec_wf|done| | |exact Hst].
  - by rewrite (spec_keeps_policies _ _ _ _ Hspec).
  - by eapply exec_reconcileSpec_settled.
Qed.

(** What a status depends on. *)
Lemma status_settled_frame rlp s s' :
  (∀ k, k ≠ KWasmPlugin → s' k = s k) → status_settled rlp s → status_settled rlp s'.
Proof.
  intros Hk (gwl & Hgwl & Hst). exists gwl. split; [|done]. rewrite <- Hgwl. unfold status_limits.
  rewrite (gatewaysRateLimits_similar rlp rlp s' s); [done|done| |by auto].
  intros key. rewrite Hk by done. apply similar_policies_refl.
Qed.

Lemma quiet_reconcile_live `{Quiet Q} rlp s :
  Q _ (reconcileSpec rlp) s no_requeue →
  (∀ s1, exec (reconcileSpec rlp) s s1 no_requeue → status_settled rlp s1) →
  Q _ (reconcile_live rlp) s (no_requeue, None).
Proof.
  intros Hspec Hst. unfold reconcile_live.
  eapply quiet_bind; [by apply quiet_attempt|]. intros s1 Hex.
  rewrite exec_attempt_Success in Hex. cbn zeta.
  rewrite bool_decide_true by done. cbn [andb Requeue no_requeue].
  eapply quiet_bind_steady.
  { apply steady_attempt, steady_reconcileStatus. by apply Hst. }
  apply quiet_steady, steady_ret.
Qed.

Lemma steady_get_policy req s (a : answer RateLimitPolicy) :
  (memory_server s (Get KRateLimitPolicy req)).2 = (a : answer (obj KRateLimitPolicy)) →
  steady (attempt (get_policy req)) s a.
Proof.
  intros Ha. exists [Event (Get KRateLimitPolicy req) a]. split; [|by repeat constructor].
  rewrite run_attempt. change (run memory_server (get_policy req) s) with
    (run memory_server (request (Get KRateLimitPolicy req)) s).
  rewrite run_request, Ha. by destruct a.
Qed.

Lemma exec_get_policy req s s1 found :
  exec (attempt (get_policy req)) s s1 found →
  s1 = s ∧ found = (memory_server s (Get KRateLimitPolicy req)).2.
Proof.
  intros Hex. apply (exec_attempt_get KRateLimitPolicy req) in Hex as [-> ->]. split; [done|].
  simpl. by destruct (s KRateLimitPolicy !! req).
Qed.

(** The state after a reconciliation: the policy is gone, or on its way out
    without the finalizer, or at rest. *)
Definition rests (filter_ok : plugin_condition) (req : ObjectKey) (s : store) : Prop :=
  s KRateLimitPolicy !! req = None ∨
  (∃ rlp : obj KRateLimitPolicy, s KRateLimitPolicy !! req = Some rlp ∧
     is_Some (meta_DeletionTimestamp (ometa rlp)) ∧
     ContainsFinalizer (ometa rlp) rateLimitPolicyFinalizer = false) ∨
  (∃ m, meta_DeletionTimestamp m = None ∧
     ContainsFinalizer m rateLimitPolicyFinalizer = true ∧ at_rest filter_ok req m s).

Lemma rests_mono ok ok' req s :
  (∀ g refs, ok s (Some g) refs → ok' s (Some g) refs) → rests ok req s → rests ok' req s.
Proof.
  intros Hok [Hnone|[Hgone|(m & Hdel & Hfin & rlp & Hreq & Hm & Hset & Hst)]];
    [by left|by right; left|]. right. right. exists m. split; [done|]. split; [done|].
  exists rlp. split; [done|]. split; [done|]. split; [by eapply settled_by_mono|done].
Qed.

(** Where the filters may be left to [reconcileSpec], so may everything. *)
Lemma quiet_rests `{Quiet Q} ok req s :
  (∀ rlp, settled_by ok rlp s → Q _ (reconcileSpec rlp) s no_requeue ∧
     ∀ s1, exec (reconcileSpec rlp) s s1 no_requeue → ∀ k, k ≠ KWasmPlugin → s1 k = s k) →
  rests ok req s → Q _ (Reconcile req) s (no_requeue, None).
Proof.
  intros HQ [Hnone|[(rlp & Hreq & Hdel & Hfin)|(m & Hdel & Hfin & rlp & Hreq & Hm & Hset & Hst)]];
    unfold Reconcile.
  - eapply quiet_bind_steady;
      [exact (steady_get_policy _ _ _ (get_missing KRateLimitPolicy req s Hnone))|].
    apply quiet_steady, steady_ret.
  - eapply quiet_bind_steady;
      [exact (steady_get_policy _ _ (Success rlp) (get_found KRateLimitPolicy req s rlp Hreq))|].
    cbn iota. change (ContainsFinalizer (ometa (rlp : RateLimitPolicy)) rateLimitPolicyFinalizer
      = false) in Hfin. rewrite Hfin, andb_false_r.
    rewrite bool_decide_true by done. apply quiet_steady, steady_ret.
  - eapply quiet_bind_steady;
      [exact (steady_get_policy _ _ (Success rlp) (get_found KRateLimitPolicy req s rlp Hreq))|].
    cbn iota. assert (ometa (rlp : RateLimitPolicy) = m) as Hm' by done. rewrite Hm', Hdel, Hfin.
    rewrite bool_decide_false by (by intros [? ?]). cbn [andb negb].
    destruct (HQ rlp Hset) as [Hspec Hframe]. apply quiet_reconcile_live; [done|].
    intros s1 Hex. by eapply status_settled_frame; [apply Hframe|].
Qed.

Lemma steady_rests req s :
  store_wf s → rests plugin_settled req s → steady (Reconcile req) s (no_requeue, None).
Proof.
  intros Hwf. apply (quiet_rests (Q:=@steady)). intros rlp Hset.
  pose proof (settled_steady rlp s Hwf Hset) as Hst. split; [done|]. intros s1 Hex k _.
  destruct Hst as (t & Ht & _). by destruct (exec_det _ _ _ _ _ _ Hex (ex_intro _ t Ht)) as [-> _].
Qed.

Lemma tidy_rests req s :
  store_wf s → rests plugin_settled_unordered req s → tidy (Reconcile req) s (no_requeue, None).
Proof.
  intros Hwf. apply (quiet_rests (Q:=@tidy _)). intros rlp Hset.
  pose proof (tidy_reconcileSpec rlp s Hwf Hset) as Hst. split; [done|]. intros s1 Hex.
  destruct Hst as (s' & t & Ht & Hre & _).
  destruct (exec_det _ _ _ _ _ _ Hex (ex_intro _ t Ht)) as [-> _]. apply Hre.
Qed.

Lemma finalize_keeps_policies rlp s s' u :
  exec (finalizeRLP rlp) s s' u → s' KRateLimitPolicy = s KRateLimitPolicy.
Proof.
  intros Hex. eapply (exec_frame (λ k, k ≠ KRateLimitPolicy)); [|exact Hex|by intros []].
  apply emits_finalizeRLP; by intros.
Qed.

Lemma refs_ok_frame s s' : s KGateway = s' KGateway → refs_ok s → refs_ok s'.
Proof. intros Hg Hr g. unfold gateways. rewrite <- Hg. apply Hr. Qed.

Lemma names_ok_frame s s' :
  s KGateway = s' KGateway → s KHTTPRoute = s' KHTTPRoute → names_ok s → names_ok s'.
Proof.
  intros Hg Hr. unfold names_ok, names_valid, gateways. by rewrite Hg, Hr.
Qed.

(** Removing the finalizer of a policy. *)
Lemma exec_remove_finalizer (rlp : RateLimitPolicy) req s s' :
  ObjectKeyFromObject rlp = req → is_Some (meta_DeletionTimestamp (ometa rlp)) →
  s KRateLimitPolicy !! req = Some (rlp : obj KRateLimitPolicy) →
  let rlp' := set_meta rlp (RemoveFinalizer (ometa rlp) rateLimitPolicyFinalizer) in
  exec (attempt (UpdateResource (k:=KRateLimitPolicy) rlp') ;;; ret tt) s s' tt →
  rests plugin_settled req s'.
Proof.
  intros Hkey Hdel Hreq rlp' (s1 & a & Hup & [-> _]%exec_Ret)%exec_bind.
  assert (ObjectKeyFromObject (rlp' : obj KRateLimitPolicy) = req) as Hkey'.
  { rewrite <- Hkey. unfold rlp'. rewrite RemoveFinalizer_eq. reflexivity. }
  apply (exec_attempt_update KRateLimitPolicy rlp' rlp) in Hup as [-> _]; [|by rewrite Hkey'].
  right. left. exists rlp'. split; [by rewrite store_put_same, Hkey', lookup_insert_eq|].
  change (ometa (rlp' : obj KRateLimitPolicy)) with
    (RemoveFinalizer (ometa rlp) rateLimitPolicyFinalizer).
  rewrite RemoveFinalizer_eq. split; [exact Hdel|].
  apply not_true_iff_false. rewrite ContainsFinalizer_iff.
  by intros [? _]%list_elem_of_filter.
Qed.

Lemma exec_Reconcile_rests req s s' :
  store_wf s → refs_ok s → names_ok s →
  (∀ rlp : obj KRateLimitPolicy, s KRateLimitPolicy !! req = Some rlp →
     NoDup (cond_Type <$> rlp_Conditions (status rlp))) →
  exec (Reconcile req) s s' (no_requeue, None) → rests plugin_settled req s'.
Proof.
  intros Hwf Hrefs Hnames Hconds (s1 & found & [-> Hfound]%exec_get_policy & Hex)%exec_bind.
  destruct (s KRateLimitPolicy !! req) as [rlp|] eqn:Hreq.
  2: { rewrite (get_missing _ _ _ Hreq) in Hfound. subst found.
       apply exec_Ret in Hex as [-> _]. by left. }
  rewrite (get_found _ _ _ _ Hreq) in Hfound. subst found. cbn iota in Hex.
  change RateLimitPolicy in (type of rlp).
  assert (ObjectKeyFromObject rlp = req) as Hkey by exact (Hwf KRateLimitPolicy req rlp Hreq).
  specialize (Hconds rlp eq_refl).
  destruct (bool_decide (is_Some (meta_DeletionTimestamp (ometa rlp)))) eqn:Hdel; cbn [andb] in Hex.
  - apply bool_decide_eq_true in Hdel. destruct (ContainsFinalizer _ _) eqn:Hfin.
    2: { apply exec_Ret in Hex as [-> _]. right. left. by exists rlp. }
    apply exec_bind in Hex as (s2 & [u|e] & Hf & Hex); [|by apply exec_Ret in Hex as [_ [=]]].
    rewrite exec_attempt_Success in Hf. apply finalize_keeps_policies in Hf.
    cbn zeta in Hex. apply exec_bind in Hex as (s3 & upd & Hup & Hex).
    apply (exec_remove_finalizer rlp req s2); [done|done|by rewrite Hf|].
    apply exec_bind. exists s3, upd. split; [exact Hup|].
    destruct upd; apply exec_Ret in Hex as [-> _]; by apply exec_Ret.
  - assert (meta_DeletionTimestamp (ometa rlp) = None) as Hnone.
    { apply bool_decide_eq_false in Hdel. by destruct (meta_DeletionTimestamp _); [destruct Hdel|]. }
    destruct (ContainsFinalizer _ _) eqn:Hfin; cbn [negb] in Hex; right; right.
    + exists (ometa rlp). split; [done|]. split; [done|]. by eapply exec_reconcile_live.
    + cbn zeta in Hex. apply exec_bind in Hex as (s2 & upd & Hup & Hex).
      set (m := AddFinalizer (ometa rlp) rateLimitPolicyFinalizer) in *.
      assert (m = meta_set_finalizers (ometa rlp)
                    (meta_Finalizers (ometa rlp) ++ [rateLimitPolicyFinalizer])) as Hm.
      { apply AddFinalizer_eq. rewrite <- ContainsFinalizer_iff. by rewrite Hfin. }
      assert (ObjectKeyFromObject (set_meta rlp m : obj KRateLimitPolicy) = req) as Hkey'
        by (rewrite <- Hkey, Hm; done).
      apply (exec_attempt_update KRateLimitPolicy _ rlp) in Hup as [-> ->]; [|by rewrite Hkey'].
      exists m. rewrite Hm at 1. split; [done|].
      split; [apply ContainsFinalizer_iff; rewrite Hm; set_solver|].
      apply (exec_reconcile_live (set_meta rlp m) req) in Hex; [done|..].
      * by apply store_put_wf.
      * eapply refs_ok_frame; [|done]. by rewrite store_put_other.
      * eapply names_ok_frame; [..|done]; by rewrite store_put_other.
      * exact Hconds.
      * by rewrite store_put_same, Hkey', lookup_insert_eq.
Qed.
End reconcile.

(** ** Properties *)


(** *** The sample cluster, with one domain and with two *)

Definition sample_reconcile (MR : MapRange) : prog (Result * option error) :=
  @Reconcile default_apimachinery sample_environment json_ref_codec MR
    go_merge_sort compact_struct_codec plain_patch binary_condition_codec sample_request.

