(* ===== verification/AuthController.v ===== *)
(** * The AuthPolicy reconciler
      (controllers/apim/authpolicy_controller.go, authpolicy_status.go,
       authpolicy_utils.go) *)
From S2P Require Import Prelude GoStrings Hostname KubeTypes CommonUtils RouteRules PolicyTypes.
From S2P Require Import Client Apimachinery BaseReconciler TargetRef WasmConfig Samples.
From S2P Require Import LimitIndex Json GatewayRefs RateLimitLimits RateLimitController.

Open Scope go_scope.

Definition nil_dereference : string := "invalid memory address or nil pointer dereference".

(** ** Names and mutators *)

Definition authConfigName (objKey : ObjectKey) : string :=
  "ap-" +:+ Namespace objKey +:+ "-" +:+ Name objKey.

Definition getAuthPolicyName (gwName networkName networkKind : string) : string :=
  if bool_decide (networkKind = "Gateway") then "on-" +:+ gwName
  else "on-" +:+ gwName +:+ "-using-" +:+ networkName.

(** [existing.Spec = desired.Spec], [existing.Annotations = desired.Annotations] *)
Definition overwrite {Sp St} (existing desired : object Sp St) : object Sp St :=
  {| ometa := meta_set_annotations (ometa existing) (meta_Annotations (ometa desired));
     spec := spec desired; status := status existing |}.

Definition alwaysUpdateAuthPolicy : MutateFn := λ ke kd,
  match ke return obj ke → obj kd → outcome (obj ke * bool) with
  | KAuthorizationPolicy =>
      match kd return obj KAuthorizationPolicy → obj kd →
                      outcome (obj KAuthorizationPolicy * bool) with
      | KAuthorizationPolicy => λ existing desired,
          let spec' := {| iap_Action := iap_Action (spec desired);
                          iap_Rules := iap_Rules (spec desired);
                          iap_SelectorMatchLabels := iap_SelectorMatchLabels (spec desired);
                          iap_ProviderName := iap_ProviderName (spec desired) |} in
          Ok (set_meta (set_spec existing spec')
                (meta_set_annotations (ometa existing) (meta_Annotations (ometa desired))), true)
      | kd => λ _ _, Err (ErrText (type_name kd +:+
                       " is not a *istiosecurityv1beta1.AuthorizationPolicy"))
      end
  | ke => λ _ _, Err (ErrText (type_name ke +:+
                   " is not a *istiosecurityv1beta1.AuthorizationPolicy"))
  end.

Definition alwaysUpdateAuthConfig : MutateFn := λ ke kd,
  match ke return obj ke → obj kd → outcome (obj ke * bool) with
  | KAuthConfig =>
      match kd return obj KAuthConfig → obj kd → outcome (obj KAuthConfig * bool) with
      | KAuthConfig => λ existing desired, Ok (overwrite existing desired, true)
      | kd => λ _ _, Err (ErrText (type_name kd +:+
                       " is not a *authorinov1beta1.AuthConfig"))
      end
  | ke => λ _ _, Err (ErrText (type_name ke +:+ " is not a *authorinov1beta1.AuthConfig"))
  end.

Definition authPolicyFinalizer : string := "authpolicy.kuadrant.io/finalizer".
Definition APAvailableConditionType : string := "Available".

(** ** The reconciler *)

Module Auth.
Section code.
Context `{Apimachinery, Environment, GoSort, ConditionCodec}.

Definition AuthProvider : string :=
  FetchEnv lookup_env "AUTH_PROVIDER" "kuadrant-authorization".

(** The hosts of the rules; a [nil] rule is dereferenced. *)
Definition rule_hosts (rules : list (option AuthRule)) : prog (list string) :=
  loop (λ ruleHosts rule,
    match rule with
    | Some rule => ret (ruleHosts ++ elems (ar_Hosts rule))
    | None => panic nil_dereference
    end) [] rules.

Definition enforceHierarchicalConstraints (ap : AuthPolicy) : prog unit :=
  targetHostnames <-- TargetHostnames (ap_TargetRef (spec ap)) (meta_Namespace (ometa ap)) ;;
  ruleHosts <-- rule_hosts (AuthRules (spec ap)) ;;
  match ValidSubdomains targetHostnames ruleHosts with
  | (false, invalidHost) =>
      fail (ErrText ("rule host (" +:+ invalidHost +:+
                     ") does not follow any hierarchical constraints"))
  | (true, _) =>
      match AuthScheme (spec ap) with
      | None => panic nil_dereference
      | Some authScheme =>
          match ValidSubdomains targetHostnames (acs_Hosts authScheme) with
          | (false, invalidHost) =>
              fail (ErrText ("host defined in authscheme (" +:+ invalidHost +:+
                             ") does not follow any hierarchical constraints"))
          | (true, _) => ret tt
          end
      end
  end.

Definition reconcileAuthSchemes (ap : AuthPolicy) : prog unit :=
  match AuthScheme (spec ap) with
  | None => panic nil_dereference
  | Some authScheme =>
      let authConfig : AuthConfig :=
        Build_object (new_meta (authConfigName (ObjectKeyFromObject ap)) KuadrantNamespace)
          authScheme {| authconfig_Ready := false |} in
      r <-- attempt (ReconcileResource KAuthConfig (kd:=KAuthConfig) authConfig
                       alwaysUpdateAuthConfig) ;;
      match r with
      | Failure err => if negb (IsAlreadyExists err) then fail err else ret tt
      | Success _ => ret tt
      end
  end.

(** The operations of the rules given by the policy. *)
Definition rules_of_policy (rules : list (option AuthRule)) : prog (list Operation) :=
  loop (λ toRules rule,
    match rule with
    | Some rule => ret (toRules ++ [{| op_Hosts := ar_Hosts rule;
                                       op_Methods := ar_Methods rule;
                                       op_Paths := ar_Paths rule |}])
    | None => panic nil_dereference
    end) [] rules.

(** The operations compiled from a route; a gateway gives none. *)
Definition rules_of_target (toRules : list Operation) (target : client_Object) :
  list Operation :=
  match target with
  | AnObject k o =>
      match k return obj k → list Operation with
      | KHTTPRoute => λ route,
          foldl (λ toRules rule,
            toRules ++ [{| op_Hosts := slice_append None (elems (hr_Hosts rule));
                           op_Methods := slice_append None (elems (hr_Methods rule));
                           op_Paths := slice_append None (elems (hr_Paths rule)) |}])
            toRules (elems (RulesFromHTTPRoute (Some route)))
      | _ => λ _, toRules
      end o
  end.

Definition target_object_kind (ap : AuthPolicy) : string :=
  if IsTargetRefHTTPRoute (ap_TargetRef (spec ap)) then "HTTPRoute" else "Gateway".

(** The AuthorizationPolicy of a gateway, by key. *)
Definition istio_policy_meta (ap : AuthPolicy) (gwKey : ObjectKey) : ObjectMeta :=
  new_meta (getAuthPolicyName (Name gwKey) (tr_Name (ap_TargetRef (spec ap)))
              (target_object_kind ap)) (Namespace gwKey).

Definition reconcile_istio_policy (ap : AuthPolicy) (toRules : list Operation)
    (_ : unit) (gwKey : ObjectKey) : prog unit :=
  let authPolicy : AuthorizationPolicy :=
    Build_object (istio_policy_meta ap gwKey)
      {| iap_Action := "CUSTOM"; iap_Rules := [toRules];
         iap_SelectorMatchLabels := ∅; iap_ProviderName := AuthProvider |} tt in
  r <-- attempt (ReconcileResource KAuthorizationPolicy (kd:=KAuthorizationPolicy)
                   authPolicy alwaysUpdateAuthPolicy) ;;
  match r with
  | Failure err => if negb (IsAlreadyExists err) then fail err else ret tt
  | Success _ => ret tt
  end.

Definition reconcileAuthRules (ap : AuthPolicy) : prog unit :=
  toRules <-- rules_of_policy (AuthRules (spec ap)) ;;
  toRules <-- (if (length toRules =? 0)%nat then
                 target <-- FetchValidTargetRef (ap_TargetRef (spec ap))
                              (meta_Namespace (ometa ap)) ;;
                 ret (rules_of_target toRules target)
               else ret toRules) ;;
  keys <-- attempt (TargetedGatewayKeys (ap_TargetRef (spec ap)) (meta_Namespace (ometa ap))) ;;
  match keys with
  | Failure err => ret tt
  | Success gwKeys => loop (reconcile_istio_policy ap toRules) tt gwKeys
  end.

Definition reconcileNetworkResourceBackReference (ap : AuthPolicy) : prog unit :=
  ReconcileTargetBackReference (ObjectKeyFromObject ap) (ap_TargetRef (spec ap))
    (meta_Namespace (ometa ap)) AuthPolicyBackRefAnnotation.

Definition reconcileSpec (ap : AuthPolicy) : prog Result :=
  Ret (AP.Validate ap) ;;;
  enforceHierarchicalConstraints ap ;;;
  reconcileNetworkResourceBackReference ap ;;;
  reconcileAuthRules ap ;;;
  reconcileAuthSchemes ap ;;;
  ret no_requeue.

(** *** Removal *)

Definition removeAuthSchemes (ap : AuthPolicy) : prog unit :=
  let authConfig : AuthConfig :=
    Build_object (new_meta (authConfigName (ObjectKeyFromObject ap)) KuadrantNamespace)
      {| acs_Hosts := []; acs_rest := empty_string |} {| authconfig_Ready := false |} in
  r <-- attempt (DeleteResource (k:=KAuthConfig) authConfig) ;;
  match r with
  | Failure err => if IsNotFound err then ret tt else fail err
  | Success _ => ret tt
  end.

Definition remove_istio_policy (ap : AuthPolicy) (_ : unit) (gwKey : ObjectKey) : prog unit :=
  DeleteResource (k:=KAuthorizationPolicy)
    (Build_object (istio_policy_meta ap gwKey)
       {| iap_Action := empty_string; iap_Rules := []; iap_SelectorMatchLabels := ∅;
          iap_ProviderName := empty_string |} tt).

Definition removeIstioAuthPolicy (ap : AuthPolicy) : prog unit :=
  keys <-- attempt (TargetedGatewayKeys (ap_TargetRef (spec ap)) (meta_Namespace (ometa ap))) ;;
  match keys with
  | Failure err => ret tt
  | Success gwKeys => loop (remove_istio_policy ap) tt gwKeys
  end.

Definition deleteNetworkResourceBackReference (ap : AuthPolicy) : prog unit :=
  DeleteTargetBackReference (ObjectKeyFromObject ap) (ap_TargetRef (spec ap))
    (meta_Namespace (ometa ap)) AuthPolicyBackRefAnnotation.

(** *** Status *)

Definition availableCondition (targetObjectKind : string) (specErr : option error)
    (authConfigReady : bool) : Condition :=
  let cond st reason message :=
    {| cond_Type := APAvailableConditionType; cond_Status := st;
       cond_ObservedGeneration := 0; cond_LastTransitionTime := 0;
       cond_Reason := reason; cond_Message := message |} in
  match specErr with
  | Some err => cond "False" "ReconciliationError" (error_string err)
  | None =>
      if negb authConfigReady then
        cond "False" "AuthSchemeNotReady" "AuthScheme is not ready yet"
      else cond "True" (targetObjectKind +:+ "Protected") (targetObjectKind +:+ " is protected")
  end.

Definition calculateStatus (ap : AuthPolicy) (specErr : option error)
    (authConfigReady : bool) : AuthPolicyStatus :=
  {| ap_ObservedGeneration := meta_Generation (ometa ap);
     ap_Conditions :=
       SetStatusCondition (CopyConditions (ap_Conditions (status ap)))
         (availableCondition (tr_Kind (ap_TargetRef (spec ap))) specErr authConfigReady) |}.

Definition reconcileStatus (ap : AuthPolicy) (specErr : option error) : prog Result :=
  isAuthConfigReady <--
    match specErr with
    | Some _ => ret true
    | None =>
        authConfig <-- get_auth_config {| Namespace := KuadrantNamespace;
                                          Name := authConfigName (ObjectKeyFromObject ap) |} ;;
        ret (authconfig_Ready (status authConfig))
    end ;;
  let newStatus := calculateStatus ap specErr isAuthConfigReady in
  let equalStatus := AP.Status_Equals (status ap) newStatus in
  if equalStatus && (meta_Generation (ometa ap) =? ap_ObservedGeneration (status ap))%Z
  then ret no_requeue
  else
    updated <-- attempt (UpdateResourceStatus (k:=KAuthPolicy) (set_status ap newStatus)) ;;
    match updated with
    | Failure updateErr =>
        if IsConflict updateErr then ret {| Requeue := true |}
        else fail (ErrWrap "failed to update status: " updateErr)
    | Success _ => ret no_requeue
    end.

(** *** The reconciliation *)

Definition reconcile_live (ap : AuthPolicy) : prog (Result * option error) :=
  specRes <-- attempt (reconcileSpec ap) ;;
  let specErr := match specRes with Failure e => Some e | Success _ => None end in
  let specResult := match specRes with Failure _ => no_requeue | Success r => r end in
  if bool_decide (specErr = None) && Requeue specResult then ret (specResult, None)
  else
    statusRes <-- attempt (reconcileStatus ap specErr) ;;
    match specErr with
    | Some specErr => ret (no_requeue, Some specErr)
    | None =>
        match statusRes with
        | Failure statusErr => ret (no_requeue, Some statusErr)
        | Success statusResult =>
            if Requeue statusResult then ret (statusResult, None)
            else ret (no_requeue, None)
        end
    end.

(** The three removals, before the finalizer goes. *)
Definition remove_all (ap : AuthPolicy) : prog unit :=
  removeIstioAuthPolicy ap ;;;
  removeAuthSchemes ap ;;;
  deleteNetworkResourceBackReference ap.

Definition Reconcile (req : ObjectKey) : prog (Result * option error) :=
  found <-- attempt (get_auth_policy req) ;;
  match found with
  | Failure err =>
      if IsNotFound err then ret (no_requeue, None) else ret (no_requeue, Some err)
  | Success ap =>
      if bool_decide (is_Some (meta_DeletionTimestamp (ometa ap))) &&
         ContainsFinalizer (ometa ap) authPolicyFinalizer then
        removed <-- attempt (remove_all ap) ;;
        match removed with
        | Failure err => ret (no_requeue, Some err)
        | Success _ =>
            let ap := set_meta ap (RemoveFinalizer (ometa ap) authPolicyFinalizer) in
            updated <-- attempt (UpdateResource (k:=KAuthPolicy) ap) ;;
            match updated with
            | Failure err => ret (no_requeue, IgnoreNotFound err)
            | Success _ => ret (no_requeue, None)
            end
        end
      else if bool_decide (is_Some (meta_DeletionTimestamp (ometa ap))) then
        ret (no_requeue, None)
      else if negb (ContainsFinalizer (ometa ap) authPolicyFinalizer) then
        let ap := set_meta ap (AddFinalizer (ometa ap) authPolicyFinalizer) in
        updated <-- attempt (UpdateResource (k:=KAuthPolicy) ap) ;;
        match updated with
        | Failure err =>
            match IgnoreNotFound err with
            | Some err => ret ({| Requeue := true |}, Some err)
            | None => reconcile_live ap
            end
        | Success ap => reconcile_live (ap : AuthPolicy)
        end
      else reconcile_live ap
  end.
End code.
End Auth.

(** ** Lemmas *)

(** The markers above the reconciler; the reads and updates of routes and
    gateways are granted to the same service account by the markers of the
    RateLimitPolicy reconciler. *)
Definition authpolicy_role : list (Kind * bool * list verb) :=
  [(KAuthPolicy, false, all_verbs);
   (KAuthPolicy, true, [VGet; VUpdate; VPatch]);
   (KAuthorizationPolicy, false, all_verbs);
   (KAuthConfig, false, all_verbs)] ++ ratelimitpolicy_role.

Section emits_lemmas.
Context `{Apimachinery, Environment, GoSort, ConditionCodec}.
Context (P : call → Prop).
Context (HG : ∀ key, P (Get KGateway key)) (HR : ∀ key, P (Get KHTTPRoute key)).

Lemma emits_rule_hosts rules : emits P (Auth.rule_hosts rules).
Proof. unfold Auth.rule_hosts. emits_auto. Qed.
Lemma emits_rules_of_policy rules : emits P (Auth.rules_of_policy rules).
Proof. unfold Auth.rules_of_policy. emits_auto. Qed.
Hint Resolve emits_rule_hosts emits_rules_of_policy emits_TargetHostnames
  emits_FetchValidTargetRef emits_TargetedGatewayKeys : kuadrant.

Lemma emits_enforceHierarchicalConstraints ap :
  emits P (Auth.enforceHierarchicalConstraints ap).
Proof. unfold Auth.enforceHierarchicalConstraints. emits_auto. Qed.

Context (HGA : ∀ key, P (Get KAuthConfig key)) (HCA : ∀ o, P (Create KAuthConfig o))
  (HUA : ∀ o, P (Update KAuthConfig o)) (HDA : ∀ o, P (Delete KAuthConfig o)).
Context (HGI : ∀ key, P (Get KAuthorizationPolicy key))
  (HCI : ∀ o, P (Create KAuthorizationPolicy o))
  (HUI : ∀ o, P (Update KAuthorizationPolicy o))
  (HDI : ∀ o, P (Delete KAuthorizationPolicy o)).

Lemma emits_reconcileAuthSchemes ap : emits P (Auth.reconcileAuthSchemes ap).
Proof. unfold Auth.reconcileAuthSchemes. emits_auto. Qed.
Lemma emits_reconcileAuthRules ap : emits P (Auth.reconcileAuthRules ap).
Proof. unfold Auth.reconcileAuthRules, Auth.reconcile_istio_policy. emits_auto. Qed.
Lemma emits_removeIstioAuthPolicy ap : emits P (Auth.removeIstioAuthPolicy ap).
Proof. unfold Auth.removeIstioAuthPolicy, Auth.remove_istio_policy. emits_auto. Qed.
Lemma emits_removeAuthSchemes ap : emits P (Auth.removeAuthSchemes ap).
Proof. unfold Auth.removeAuthSchemes. emits_auto. Qed.
Lemma emits_auth_reconcileStatus ap e :
  (∀ o, P (UpdateStatus KAuthPolicy o)) → emits P (Auth.reconcileStatus ap e).
Proof. intros HU. unfold Auth.reconcileStatus. emits_auto. Qed.

Context (HUG : ∀ o, P (Update KGateway o)) (HUR : ∀ o, P (Update KHTTPRoute o)).
Hint Resolve emits_enforceHierarchicalConstraints emits_reconcileAuthSchemes
  emits_reconcileAuthRules emits_removeIstioAuthPolicy emits_removeAuthSchemes
  emits_auth_reconcileStatus emits_ReconcileTargetBackReference
  emits_DeleteTargetBackReference : kuadrant.

Lemma emits_auth_reconcileSpec ap : emits P (Auth.reconcileSpec ap).
Proof.
  unfold Auth.reconcileSpec, Auth.reconcileNetworkResourceBackReference. emits_auto.
Qed.
Lemma emits_remove_all ap : emits P (Auth.remove_all ap).
Proof. unfold Auth.remove_all, Auth.deleteNetworkResourceBackReference. emits_auto. Qed.
Hint Resolve emits_auth_reconcileSpec emits_remove_all : kuadrant.

Context (HUS : ∀ o, P (UpdateStatus KAuthPolicy o)).
Lemma emits_auth_reconcile_live ap : emits P (Auth.reconcile_live ap).
Proof. unfold Auth.reconcile_live. emits_auto. Qed.
Hint Resolve emits_auth_reconcile_live : kuadrant.
Lemma emits_auth_Reconcile req :
  (∀ key, P (Get KAuthPolicy key)) → (∀ o, P (Update KAuthPolicy o)) →
  emits P (Auth.Reconcile req).
Proof. intros HGP HUP. unfold Auth.Reconcile. emits_auto. Qed.
End emits_lemmas.

(** The hosts of the rules and of the authentication scheme lie inside a host
    name of the object. *)
Definition auth_hosts_inside (ap : AuthPolicy) (o : client_Object) : Prop :=
  ∃ authScheme, AuthScheme (spec ap) = Some authScheme ∧
    ∀ s, (∃ r, Some r ∈ AuthRules (spec ap) ∧ s ∈ elems (ar_Hosts r)) ∨ s ∈ acs_Hosts authScheme →
      ∃ d, d ∈ or_any (served_hosts o) ∧ ∀ h, covers s h → covers d h.

Lemma ValidSubdomains_inside domains subs :
  ValidSubdomains domains subs = (true, empty_string) →
  ∀ s, s ∈ subs → ∃ d, d ∈ domains ∧ ∀ h, covers s h → covers d h.
Proof.
  intros Hv s Hs. destruct (ValidSubdomains_cases domains subs)
    as [[_ Hall]|(? & ? & ? & _ & Hf & _)]; [|congruence].
  specialize (Hall s Hs). apply subset_of_some_spec in Hall as (d & Hd & Hsub).
  exists d. split; [done|]. by apply SubsetOf_covers.
Qed.

Lemma ValidSubdomains_true domains subs x :
  ValidSubdomains domains subs = (true, x) → x = empty_string.
Proof.
  destruct (ValidSubdomains_cases domains subs) as [[-> _]|(? & ? & ? & _ & -> & _)]; congruence.
Qed.

(** ** Ignored errors

    [checks_except ex p]: the error of a write of [p] is the result of [p],
    unless it is one that [ex] accepts. *)
Section checks_except.
Context (ex : error → bool).

Definition checks_except {A} (p : prog A) : Prop :=
  wp p (λ t o, Forall (λ ev, is_write (ev_call ev) = true → ∀ err, ev_error ev = Some err →
    ex err = true ∨ o = Err err) t).

Lemma checks_except_of {A} (p : prog A) : checks p → checks_except p.
Proof.
  intros Hp. eapply wp_mono; [exact Hp|]. intros t o Ht. eapply Forall_impl; [exact Ht|].
  intros ev Hev Hw err Herr. right. by apply (Hev Hw).
Qed.

Lemma checks_except_bind {A B} (p : prog A) (f : A → prog B) :
  checks_except p → (∀ a, checks_except (f a)) → checks_except (prog_bind p f).
Proof.
  intros Hp Hf. apply wp_bind. eapply wp_mono; [exact Hp|].
  intros t [a|e|m] Ht; cbn [after].
  - eapply wp_mono; [apply Hf|]. intros t' o' Ht'. apply Forall_app. split; [|done].
    eapply Forall_impl; [exact Ht|]. intros ev Hev Hw err Herr.
    by destruct (Hev Hw err Herr); [left|].
  - eapply Forall_impl; [exact Ht|]. intros ev Hev Hw err Herr.
    destruct (Hev Hw err Herr) as [?|[= ->]]; auto.
  - eapply Forall_impl; [exact Ht|]. intros ev Hev Hw err Herr.
    by destruct (Hev Hw err Herr); [left|].
Qed.

Lemma checks_except_loop {S X} (body : S → X → prog S) s l :
  (∀ s x, checks_except (body s x)) → checks_except (loop body s l).
Proof.
  intros Hb. revert s. induction l as [|x l IH]; intros s; simpl; [constructor|].
  apply checks_except_bind; auto.
Qed.

(** The test of the error after the call. *)
Lemma checks_except_match {A} (p : prog A) :
  checks p →
  checks_except (r <-- attempt p ;;
                 match r with
                 | Failure err => if negb (ex err) then fail err else ret tt
                 | Success _ => ret tt
                 end).
Proof.
  intros Hp. unfold checks_except. rewrite wp_bind, wp_attempt.
  eapply wp_mono; [exact Hp|]. intros t [a|e|m] Ht; cbn [after].
  - cbn [wp ret]. rewrite app_nil_r. eapply Forall_impl; [exact Ht|].
    intros ev Hev Hw err Herr. by specialize (Hev Hw err Herr).
  - destruct (ex e) eqn:Hex; cbn [negb wp ret fail]; rewrite app_nil_r;
      (eapply Forall_impl; [exact Ht|]); intros ev Hev Hw err Herr;
      injection (Hev Hw err Herr) as <-; auto.
  - eapply Forall_impl; [exact Ht|]. intros ev Hev Hw err Herr. by specialize (Hev Hw err Herr).
Qed.
End checks_except.

Section wp_lemmas.
Context `{Apimachinery, Environment, GoSort, ConditionCodec}.

(** The hosts are collected without a call, or the loop panics. *)
Lemma wp_rule_hosts rules (Q : list event → outcome (list string) → Prop) :
  (∀ hosts, (∀ s, s ∈ hosts ↔ ∃ r, Some r ∈ rules ∧ s ∈ elems (ar_Hosts r)) →
     Forall is_Some rules → Q [] (Ok hosts)) →
  (¬ Forall is_Some rules → Q [] (Panic nil_dereference)) →
  wp (Auth.rule_hosts rules) Q.
Proof.
  intros Hok Hp. unfold Auth.rule_hosts.
  apply (wp_loop (λ dn t hosts, t = [] ∧ Forall is_Some dn ∧
    ∀ s, s ∈ hosts ↔ ∃ r, Some r ∈ dn ∧ s ∈ elems (ar_Hosts r))).
  - split; [done|]. split; [constructor|]. intros s.
    split; [by intros ?%not_elem_of_nil|by intros (r & ?%not_elem_of_nil & _)].
  - intros dn [r|] todo t hosts -> (-> & Hs & Hh); cbn [wp ret panic app].
    + split; [done|]. split; [apply Forall_app; repeat constructor; eauto|].
      intros s. rewrite elem_of_app, Hh. setoid_rewrite elem_of_app.
      setoid_rewrite list_elem_of_singleton. split; [naive_solver|].
      intros (r' & [Hr|Hr] & Hin); [left; eauto|]. injection Hr as ->. by right.
    + apply Hp. intros HF. rewrite Forall_forall in HF.
      destruct (HF None) as [? ?]; [set_solver|done].
  - intros t hosts (-> & Hs & Hh). by apply Hok.
Qed.

Lemma wp_enforceHierarchicalConstraints ap (Q : list event → outcome unit → Prop) :
  (∀ k (x : obj k), valid_object x = true → auth_hosts_inside ap (AnObject k x) →
     Q [Event (Get k (target_key (ap_TargetRef (spec ap)) (meta_Namespace (ometa ap))))
          (Success x)] (Ok tt)) →
  (∀ t e, Forall (λ ev, reads (ev_call ev)) t → Q t (Err e)) →
  (∀ t, Forall (λ ev, reads (ev_call ev)) t →
     ¬ Forall is_Some (AuthRules (spec ap)) ∨ AuthScheme (spec ap) = None →
     Q t (Panic nil_dereference)) →
  wp (Auth.enforceHierarchicalConstraints ap) Q.
Proof.
  intros Hok Herr Hp. apply wp_bind, wp_bind, wp_FetchValidTargetRef.
  2: { intros t e Ht. cbn [after]. by apply Herr. }
  intros k x Hk Hv. cbn [after]. rewrite TargetHostnames_or_any. unfold ret at 1.
  cbn [wp after app].
  apply wp_bind, wp_rule_hosts; cycle 1.
  { intros Hn. cbn [after]. apply Hp; [by repeat constructor|by left]. }
  intros hosts Hh Hs. cbn [after].
  destruct (ValidSubdomains _ hosts) as [[] s1] eqn:Hv1; cbn [wp fail];
    [|apply Herr; by repeat constructor].
  destruct (AuthScheme (spec ap)) as [authScheme|] eqn:Ha; cbn [wp panic];
    [|apply Hp; [by repeat constructor|by right]].
  destruct (ValidSubdomains _ (acs_Hosts authScheme)) as [[] s2] eqn:Hv2; cbn [wp fail ret];
    [|apply Herr; by repeat constructor].
  pose proof (ValidSubdomains_true _ _ _ Hv1) as ->.
  pose proof (ValidSubdomains_true _ _ _ Hv2) as ->.
  apply Hok; [done|]. exists authScheme. split; [done|].
  intros s [Hin|Hin].
  - eapply ValidSubdomains_inside; [exact Hv1|]. by apply Hh.
  - by eapply ValidSubdomains_inside; [exact Hv2|].
Qed.

(** What removing everything leaves behind: nothing about the policy itself,
    and a failed write of an AuthorizationPolicy is the result. *)
Definition removal_event (o : outcome unit) (ev : event) : Prop :=
  call_kind (ev_call ev) ≠ KAuthPolicy ∧
  (call_kind (ev_call ev) = KAuthorizationPolicy → returned o ev).

Lemma checks_removeIstioAuthPolicy ap : checks (Auth.removeIstioAuthPolicy ap).
Proof.
  unfold Auth.removeIstioAuthPolicy. apply checks_bind.
  { apply checks_attempt, emits_TargetedGatewayKeys; done. }
  intros [keys|err]; [|apply checks_ret]. apply checks_loop. intros u key.
  apply checks_request.
Qed.

Lemma wp_remove_all ap : wp (Auth.remove_all ap) (λ t o, Forall (removal_event o) t).
Proof.
  unfold Auth.remove_all. apply wp_bind.
  eapply wp_mono; [apply (wp_and _ _ _ (checks_removeIstioAuthPolicy ap)
    (emits_removeIstioAuthPolicy (λ c, call_kind c ≠ KAuthPolicy) ltac:(done) ltac:(done)
       ap))|].
  intros t o [Hc He].
  assert (∀ o', (∀ err, o = Err err → o' = Err err) → Forall (removal_event o') t) as Ht.
  { intros o' Ho. apply Forall_forall. intros ev Hev. rewrite Forall_forall in Hc, He.
    split; [by apply He|]. intros _ Hw err Herr. by apply Ho, (Hc ev Hev Hw). }
  destruct o as [u|e|m]; cbn [after]; [|by apply Ht..].
  eapply wp_mono.
  { apply (emits_bind (λ c, call_kind c ≠ KAuthPolicy ∧ call_kind c ≠ KAuthorizationPolicy)).
    - by apply emits_removeAuthSchemes.
    - intros _. by apply emits_DeleteTargetBackReference. }
  intros t' o' Ht'. apply Forall_app. split; [by apply Ht|].
  eapply Forall_impl; [exact Ht'|]. intros ev [Hk1 Hk2]. by split.
Qed.

(** *** The finalizer *)

Definition auth_keeps_finalizer (c : call) : Prop :=
  match c with
  | Update k o =>
      match k return obj k → Prop with
      | KAuthPolicy => λ o, ContainsFinalizer (ometa o) authPolicyFinalizer = true
      | _ => λ _, True
      end o
  | _ => True
  end.

Lemma finalizes_remove_all ap : finalizes KAuthConfig (Auth.remove_all ap).
Proof.
  unfold Auth.remove_all. apply finalizes_bind;
    [apply finalizes_checks, checks_removeIstioAuthPolicy|].
  intros _. apply finalizes_bind; [|intros _; apply finalizes_checks; apply checks_DeleteTargetBackReference].
  unfold Auth.removeAuthSchemes. apply finalizes_ignore; [by apply emits_DeleteResource|].
  apply checks_DeleteResource.
Qed.

(** *** The rules *)

(** The operations a policy spells out. *)
Definition policy_operations (ap : AuthPolicy) : list Operation :=
  omap (option_map (λ rule, {| op_Hosts := ar_Hosts rule; op_Methods := ar_Methods rule;
                               op_Paths := ar_Paths rule |})) (AuthRules (spec ap)).

Lemma wp_rules_of_policy rules (Q : list event → outcome (list Operation) → Prop) :
  (Forall is_Some rules →
   Q [] (Ok (omap (option_map (λ rule, {| op_Hosts := ar_Hosts rule;
                                          op_Methods := ar_Methods rule;
                                          op_Paths := ar_Paths rule |})) rules))) →
  (¬ Forall is_Some rules → Q [] (Panic nil_dereference)) →
  wp (Auth.rules_of_policy rules) Q.
Proof.
  intros Hok Hp. unfold Auth.rules_of_policy.
  apply (wp_loop (λ done t ops, t = [] ∧ Forall is_Some done ∧
    ops = omap (option_map (λ rule, {| op_Hosts := ar_Hosts rule;
                                       op_Methods := ar_Methods rule;
                                       op_Paths := ar_Paths rule |})) done)).
  - done.
  - intros done [rule|] todo t ops Hl (-> & Hd & ->); cbn [wp ret panic app].
    + split; [reflexivity|]. split; [apply Forall_app; by repeat constructor|].
      by rewrite omap_app.
    + apply Hp. rewrite Hl, Forall_app, Forall_cons. by intros (_ & [? [=]] & _).
  - intros t ops (-> & Hd & ->). by apply Hok.
Qed.

(** The operations compiled from a target. *)
Definition target_operations (target : client_Object) : list Operation :=
  match target with
  | AnObject k o =>
      match k return obj k → list Operation with
      | KHTTPRoute => λ route,
          (λ rule, {| op_Hosts := slice_append None (elems (hr_Hosts rule));
                      op_Methods := slice_append None (elems (hr_Methods rule));
                      op_Paths := slice_append None (elems (hr_Paths rule)) |})
          <$> elems (RulesFromHTTPRoute (Some route))
      | _ => λ _, []
      end o
  end.

Lemma rules_of_target_eq ops target :
  Auth.rules_of_target ops target = ops ++ target_operations target.
Proof.
  destruct target as [k o]. destruct k; cbn; try by rewrite app_nil_r.
  generalize (elems (RulesFromHTTPRoute (Some (o : HTTPRoute)))) as l. intros l.
  revert ops. induction l as [|r l IH]; intros ops; cbn; [by rewrite app_nil_r|].
  rewrite IH. by rewrite <- app_assoc.
Qed.

Definition policy_write (ops : list Operation) (c : call) : Prop :=
  ∃ p : obj KAuthorizationPolicy,
    (c = Create KAuthorizationPolicy p ∨ c = Update KAuthorizationPolicy p) ∧
    spec p = {| iap_Action := "CUSTOM"; iap_Rules := [ops]; iap_SelectorMatchLabels := ∅;
                iap_ProviderName := Auth.AuthProvider |}.

Lemma wp_write_policies ap ops :
  wp (keys <-- attempt (TargetedGatewayKeys (ap_TargetRef (spec ap))
        (meta_Namespace (ometa ap))) ;;
      match keys with
      | Failure err => ret tt
      | Success gwKeys => loop (Auth.reconcile_istio_policy ap ops) tt gwKeys
      end) (λ t o, ∀ ev, ev ∈ t → is_write (ev_call ev) = true →
    ∃ p : obj KAuthorizationPolicy,
      (ev_call ev = Create KAuthorizationPolicy p ∨ ev_call ev = Update KAuthorizationPolicy p) ∧
      spec p = {| iap_Action := "CUSTOM"; iap_Rules := [ops]; iap_SelectorMatchLabels := ∅;
                  iap_ProviderName := Auth.AuthProvider |} ∧
      ∀ err, ev_error ev = Some err → IsAlreadyExists err = true ∨ o = Err err).
Proof.
  eapply wp_mono; [apply wp_and|].
  - refine (_ : emits (λ c, is_write c = true → policy_write ops c) _).
    apply emits_bind; [apply emits_attempt, emits_TargetedGatewayKeys; done|].
    intros [keys|err]; [|apply emits_ret]. apply emits_loop. intros u key.
    unfold Auth.reconcile_istio_policy. apply emits_bind; [|intros [r|err]; emits_auto].
    apply emits_attempt, emits_ReconcileResource_tagged; [done| |done|].
    + intros _ _. eexists. split; [by left|done].
    + intros o o' Hm _. eexists. split; [by right|]. cbn in Hm. by injection Hm as <-.
  - refine (_ : checks_except IsAlreadyExists _). apply checks_except_bind.
    { apply checks_except_of, checks_attempt, emits_TargetedGatewayKeys; done. }
    intros [keys|err]; [|apply checks_except_of, checks_ret].
    apply checks_except_loop. intros u key. apply checks_except_match.
    apply checks_ReconcileResource.
  - intros t o [He Hc] ev Hev Hw. rewrite Forall_forall in He, Hc.
    destruct (He ev Hev Hw) as (p & Hp & Hs). exists p. split; [done|]. split; [done|].
    intros err. by apply (Hc ev Hev).
Qed.
End wp_lemmas.

(** ** Properties *)

(** Every call a reconciliation of an AuthPolicy can make, whatever the
    server answers, is granted by the declared role, and it deletes nothing
    but authorization policies and the one AuthConfig object. *)
Theorem Auth_Reconcile_within_role (AM : Apimachinery) (Env : Environment) (GS : GoSort)
    (CC : ConditionCodec) (req : ObjectKey) :
  wp (Auth.Reconcile req) (λ t _, Forall (λ e, granted authpolicy_role (ev_call e) = true ∧
    (∀ k o, ev_call e = Delete k o → k = KAuthorizationPolicy ∨ k = KAuthConfig)) t).
Proof.
  apply (emits_auth_Reconcile (λ c, granted authpolicy_role c = true ∧
    (∀ k o, c = Delete k o → k = KAuthorizationPolicy ∨ k = KAuthConfig)));
    intros; (split; [reflexivity|]); intros k' o' Heq; inversion Heq; auto.
Qed.

(** C24: nothing is written for an AuthPolicy that is not valid: if reconciling
    the spec writes at all, the target reference is acceptable, the first call
    read the target, which is ready, and the hosts of the rules and of the
    authentication scheme stand only for hosts the target serves, be it a route
    or a gateway.  (The proposal doc/proposals/authpolicy-crd.md has it another
    way: no restriction of rules for a gateway, and the hosts of the scheme
    within those of the policy.) *)
Theorem Auth_reconcileSpec_writes_only_valid (AM : Apimachinery) (Env : Environment)
    (ap : AuthPolicy) :
  let t_ := ap_TargetRef (spec ap) in
  let ns := meta_Namespace (ometa ap) in
  wp (Auth.reconcileSpec ap) (λ t o, Exists (λ e, is_write (ev_call e) = true) t →
    valid_target t_ ns ∧
    ∃ k (x : obj k) t', t = Event (Get k (target_key t_ ns)) (Success x) :: t' ∧
      valid_object x = true ∧ auth_hosts_inside ap (AnObject k x)).
Proof.
  intros t_ ns.
  assert (∀ t, Forall (λ ev, reads (ev_call ev)) t →
            ¬ Exists (λ e, is_write (ev_call e) = true) t) as Hno.
  { intros t Ht (e & He & Hw)%Exists_exists. rewrite Forall_forall in Ht.
    specialize (Ht e He). unfold reads in Ht. congruence. }
  unfold Auth.reconcileSpec. apply wp_bind. cbn [wp].
  destruct (AP.Validate ap) as [[]|e|m] eqn:Hv; cbn [after]; [|by intros ?%Exists_nil..].
  apply AP_Validate_ok in Hv. apply wp_bind, wp_enforceHierarchicalConstraints.
  - intros k x Hx Hin. cbn [after]. apply wp_always. intros t o _. split; [done|].
    exists k, x, t. done.
  - intros t e Ht. cbn [after]. by intros ?%Hno.
  - intros t Ht _. cbn [after]. by intros ?%Hno.
Qed.

(** C36: an AuthPolicy without an authentication scheme, which its schema
    allows, can never be reconciled: whatever the server answers, nothing is
    written and the reconciliation of its spec ends in an error or, once the
    hosts of its rules are accepted, in a nil dereference. *)
Theorem missing_auth_scheme_never_reconciles (AM : Apimachinery) (Env : Environment)
    (ap : AuthPolicy) (Hnone : AuthScheme (spec ap) = None) :
  wp (Auth.reconcileSpec ap) (λ t o,
    Forall (λ ev, reads (ev_call ev)) t ∧
    ((∃ e, o = Err e) ∨ o = Panic nil_dereference)).
Proof.
  unfold Auth.reconcileSpec. apply wp_bind. cbn [wp].
  destruct (AP.Validate ap) as [[]|e|m] eqn:Hv; cbn [after]; [|eauto|].
  2: { exfalso. revert Hv. unfold AP.Validate. by repeat case_match. }
  apply wp_bind, wp_enforceHierarchicalConstraints.
  - intros k x Hx (a & Ha & _). congruence.
  - intros t e Ht. cbn [after]. eauto.
  - intros t Ht _. cbn [after]. auto.
Qed.

Lemma String_app_cancel (a b c : string) : a +:+ b = a +:+ c → b = c.
Proof. induction a as [|x a IH]; [done|]. cbn. intros [= H]. auto. Qed.

(** Two AuthPolicies share the name of their AuthConfig object only if
    they are the same policy or one of their namespaces contains a dash; with
    a dash they can, although the objects all live in one namespace. *)
Theorem authConfigName_clashes (k1 k2 : ObjectKey) :
  (has_byte "-" (Namespace k1) = false → has_byte "-" (Namespace k2) = false →
   authConfigName k1 = authConfigName k2 → k1 = k2) ∧
  (∃ a b, a ≠ b ∧ authConfigName a = authConfigName b).
Proof.
  split.
  - intros H1 H2. unfold authConfigName. intros Heq.
    assert (Namespace k1 +:+ String "-" (Name k1) = Namespace k2 +:+ String "-" (Name k2)) as Hn.
    { change ("ap-" +:+ Namespace k1 +:+ "-" +:+ Name k1) with
        (String "a" (String "p" (String "-" (Namespace k1 +:+ String "-" (Name k1))))) in Heq.
      change ("ap-" +:+ Namespace k2 +:+ "-" +:+ Name k2) with
        (String "a" (String "p" (String "-" (Namespace k2 +:+ String "-" (Name k2))))) in Heq.
      congruence. }
    pose proof (f_equal (λ s, Split s "-") Hn) as Hs. cbn beta in Hs.
    rewrite !Split_first in Hs by done. injection Hs as Hns _.
    destruct k1 as [n1 a1], k2 as [n2 a2]. cbn [Namespace Name] in *. subst n2.
    f_equal. injection (String_app_cancel n1 _ _ Hn) as ->. done.
  - exists {| Namespace := "a-b"; Name := "c" |}, {| Namespace := "a"; Name := "b-c" |}.
    split; [discriminate|reflexivity].
Qed.

(** C35: an AuthPolicy being deleted is stuck once an AuthorizationPolicy of one
    of its gateways is gone: any failed delete of one, NotFound included, is
    the result of the reconciliation, and the policy keeps its finalizer. *)
Theorem missing_authorization_policy_blocks_removal (AM : Apimachinery) (Env : Environment)
    (GS : GoSort) (CC : ConditionCodec) (req : ObjectKey) :
  wp (Auth.Reconcile req) (λ t o, ∃ a t', t = Event (Get KAuthPolicy req) a :: t' ∧
    match a with
    | Failure _ => True
    | Success ap =>
        is_Some (meta_DeletionTimestamp (ometa ap)) →
        ContainsFinalizer (ometa ap) authPolicyFinalizer = true →
        ∀ ev err, ev ∈ t' → is_write (ev_call ev) = true →
          call_kind (ev_call ev) = KAuthorizationPolicy → ev_error ev = Some err →
          o = Ok (no_requeue, Some err) ∧ ∀ ev', ev' ∈ t' → call_kind (ev_call ev') ≠ KAuthPolicy
    end).
Proof.
  unfold Auth.Reconcile. rewrite wp_bind, wp_attempt. apply wp_get_auth_policy; cycle 1.
  { intros e. cbn [after]. apply wp_always. intros t o. by eexists _, _. }
  intros ap. cbn [after].
  destruct (bool_decide (is_Some _)) eqn:Hd;
    [destruct (ContainsFinalizer (ometa ap) authPolicyFinalizer) eqn:Hf|]; cbn [andb].
  2: { apply wp_always. intros t o. eexists _, _. split; [done|]. cbn. congruence. }
  2: { apply wp_always. intros t o. eexists _, _. split; [done|]. cbn. intros Hd'.
       by apply bool_decide_eq_false in Hd. }
  rewrite wp_bind, wp_attempt. eapply wp_mono; [apply wp_remove_all|].
  intros t o Ht. rewrite Forall_forall in Ht.
  destruct o as [u|e|m]; cbn [after].
  - rewrite wp_bind, wp_attempt.
    apply (wp_request (Update KAuthPolicy _)). split; [intros r|intros e]; cbn [after wp ret];
      (eexists _, _; split; [done|]); intros _ _ ev err Hev Hw Hk He;
      apply elem_of_app in Hev as [Hev|[= ->]%list_elem_of_singleton]; [|done| |done];
      by destruct (Ht ev Hev) as [_ Hr]; specialize (Hr Hk Hw err He).
  - cbn [wp ret]. rewrite app_nil_r.
    eexists _, _. split; [done|]. cbn. intros _ _ ev err Hev Hw Hk He.
    destruct (Ht ev Hev) as [_ Hr]. specialize (Hr Hk Hw err He) as [= ->].
    split; [done|]. intros ev' Hev'. apply (Ht ev' Hev').
  - eexists _, _. split; [done|]. cbn. intros _ _ ev err Hev Hw Hk He.
    destruct (Ht ev Hev) as [_ Hr]. by specialize (Hr Hk Hw err He).
Qed.

(** C27: the finalizer of an AuthPolicy is removed last: any update of the policy
    that lacks it is the last call, is made only for an object read with a
    deletion timestamp and the finalizer, and comes after all the writes of the
    removal succeeded, but for the delete of an AuthConfig that is gone. *)
Theorem auth_finalizer_removed_last (AM : Apimachinery) (AMok : ApimachineryOk)
    (Env : Environment) (GS : GoSort) (CC : ConditionCodec) (req : ObjectKey) :
  wp (Auth.Reconcile req) (λ t o, ∀ ev, ev ∈ t → ¬ auth_keeps_finalizer (ev_call ev) →
    ∃ (ap : obj KAuthPolicy) pre r,
      t = Event (Get KAuthPolicy req) (Success ap) :: pre ++
          [Event (Update KAuthPolicy
             (set_meta ap (RemoveFinalizer (ometa ap) authPolicyFinalizer))) r] ∧
      is_Some (meta_DeletionTimestamp (ometa ap)) ∧
      ContainsFinalizer (ometa ap) authPolicyFinalizer = true ∧
      Forall (write_ok_or_gone KAuthConfig) pre).
Proof.
  assert (∀ t (R : event → Prop), Forall (λ e, auth_keeps_finalizer (ev_call e)) t →
    ∀ ev, ev ∈ t → ¬ auth_keeps_finalizer (ev_call ev) → R ev) as Hno.
  { intros t R Ht ev Hev Hn. rewrite Forall_forall in Ht. by destruct Hn; apply Ht. }
  unfold Auth.Reconcile. rewrite wp_bind, wp_attempt. apply wp_get_auth_policy; cycle 1.
  { intros err. cbn [after]. destruct (IsNotFound err); cbn [wp ret];
      refine (Hno _ (λ _, _) _); by repeat constructor. }
  intros ap. cbn [after]. destruct (bool_decide _) eqn:Hd;
    [destruct (ContainsFinalizer (ometa ap) authPolicyFinalizer) eqn:Hf|]; cbn [andb].
  - rewrite wp_bind, wp_attempt.
    assert (emits auth_keeps_finalizer (Auth.remove_all ap)) as He by (by apply emits_remove_all).
    eapply wp_mono; [apply (wp_and _ _ _ He (finalizes_remove_all ap))|].
    intros t1 [u|e|m] [Hk Hw]; cbn [after].
    + rewrite wp_bind, wp_attempt. unfold UpdateResource.
      apply (wp_request (Update KAuthPolicy _)). split; intros a; cbn [after wp ret app];
        intros ev Hev Hn; exists ap, t1; eexists; (split; [done|]);
        (split; [by apply bool_decide_eq_true in Hd|]); (split; [done|]); by apply Hw.
    + refine (Hno _ (λ _, _) _). constructor; [done|]. by rewrite app_nil_r.
    + refine (Hno _ (λ _, _) _). by constructor.
  - refine (Hno _ (λ _, _) _). repeat constructor.
  - assert (∀ p : prog (Result * option error), emits auth_keeps_finalizer p → wp p (λ t o,
      Forall (λ e, auth_keeps_finalizer (ev_call e)) t)) as Hkeeps by done.
    assert (∀ ap', emits auth_keeps_finalizer (Auth.reconcile_live ap')) as Hlive
      by (intros; by apply emits_auth_reconcile_live).
    eapply wp_mono; [apply Hkeeps|intros t o Ht; refine (Hno _ (λ _, _) _); by constructor].
    destruct (ContainsFinalizer (ometa ap) authPolicyFinalizer) eqn:Hf; cbn [negb]; [apply Hlive|].
    emits_auto. apply emits_UpdateResource. simpl. apply ContainsFinalizer_iff.
    rewrite AddFinalizer_eq; [simpl; set_solver|].
    by rewrite <- ContainsFinalizer_iff, Hf.
Qed.

(** What is written, for rules that are all there *)
Lemma wp_reconcileAuthRules_writes `{Apimachinery, Environment} (ap : AuthPolicy) :
  wp (Auth.reconcileAuthRules ap) (λ t o,
    ∀ ev, ev ∈ t → is_write (ev_call ev) = true →
      ∃ (p : obj KAuthorizationPolicy) ops,
        (ev_call ev = Create KAuthorizationPolicy p ∨ ev_call ev = Update KAuthorizationPolicy p) ∧
        spec p = {| iap_Action := "CUSTOM"; iap_Rules := [ops]; iap_SelectorMatchLabels := ∅;
                    iap_ProviderName := Auth.AuthProvider |} ∧
        ((AuthRules (spec ap) ≠ [] ∧ ops = policy_operations ap) ∨
         (AuthRules (spec ap) = [] ∧ ∃ k (x : obj k),
            Event (Get k (target_key (ap_TargetRef (spec ap)) (meta_Namespace (ometa ap))))
              (Success x) ∈ t ∧ valid_object x = true ∧
            ops = target_operations (AnObject k x))) ∧
        ∀ err, ev_error ev = Some err → IsAlreadyExists err = true ∨ o = Err err).
Proof.
  unfold Auth.reconcileAuthRules. apply wp_bind, wp_rules_of_policy; cycle 1.
  { intros _. cbn [after]. by intros ev ?%elem_of_nil. }
  intros Hsome. cbn [after app]. fold (policy_operations ap).
  destruct (length (policy_operations ap) =? 0)%nat eqn:Hlen.
  - assert (AuthRules (spec ap) = []) as Hnil.
    { revert Hlen Hsome. unfold policy_operations.
      destruct (AuthRules (spec ap)) as [|[r|] l]; [done|done|].
      by intros _ [[? [=]] _]%Forall_cons. }
    apply wp_bind, wp_bind, wp_FetchValidTargetRef.
    2: { intros t e Ht. cbn [after]. intros ev Hev Hw. rewrite Forall_forall in Ht.
         specialize (Ht ev Hev). unfold reads in Ht. congruence. }
    intros k x Hk Hv. cbn [after wp ret app].
    assert (policy_operations ap = []) as -> by (by apply length_zero_iff_nil, Nat.eqb_eq).
    eapply wp_mono; [apply wp_write_policies|].
    intros t o Ht ev Hev Hw.
    apply elem_of_cons in Hev as [->|Hev]; [done|].
    destruct (Ht ev Hev Hw) as (p & Hc & Hs & He). exists p, (target_operations (AnObject k x)).
    rewrite rules_of_target_eq in Hs. split; [done|]. split; [done|]. split; [|done].
    right. split; [done|]. exists k, x. split; [left|done].
  - cbn [prog_bind]. apply wp_bind. cbn [wp ret after app].
    eapply wp_mono; [apply wp_write_policies|].
    intros t o Ht ev Hev Hw. destruct (Ht ev Hev Hw) as (p & Hc & Hs & He).
    exists p, (policy_operations ap). split; [done|]. split; [done|]. split; [|done]. left.
    split; [|done]. intros Hnil. revert Hlen. unfold policy_operations. by rewrite Hnil.
Qed.

Lemma safe_reconcileAuthRules `{Apimachinery, Environment} (ap : AuthPolicy) :
  Forall is_Some (AuthRules (spec ap)) → safe (Auth.reconcileAuthRules ap).
Proof.
  intros Hr. unfold Auth.reconcileAuthRules. apply safe_bind; [by apply wp_rules_of_policy|].
  intros ops. apply safe_bind; [safe_auto|]. intros toRules. apply safe_bind; [safe_auto|].
  intros [gwKeys|e]; [|exact I]. apply safe_loop. intros [] gwKey.
  unfold Auth.reconcile_istio_policy. apply safe_bind; [|intros []; safe_auto].
  by apply safe_attempt, safe_ReconcileResource.
Qed.

(** C26: what the gateways are told to authorize.  A [nil] among the rules of the
    policy is dereferenced: the call panics and asks the server for nothing.
    Otherwise it does not panic, and it writes only AuthorizationPolicies, each
    delegating to the configured provider the operations of the policy's own
    rules, or, for a policy without rules, those compiled from the target that
    was read; it stops at the first write error that is not AlreadyExists. *)
Theorem authorization_policies_written (AM : Apimachinery) (Env : Environment)
    (ap : AuthPolicy) :
  wp (Auth.reconcileAuthRules ap) (λ t o,
    (¬ Forall is_Some (AuthRules (spec ap)) → t = [] ∧ o = Panic nil_dereference) ∧
    (Forall is_Some (AuthRules (spec ap)) → no_panic o) ∧
    ∀ ev, ev ∈ t → is_write (ev_call ev) = true →
      ∃ (p : obj KAuthorizationPolicy) ops,
        (ev_call ev = Create KAuthorizationPolicy p ∨ ev_call ev = Update KAuthorizationPolicy p) ∧
        spec p = {| iap_Action := "CUSTOM"; iap_Rules := [ops]; iap_SelectorMatchLabels := ∅;
                    iap_ProviderName := Auth.AuthProvider |} ∧
        ((AuthRules (spec ap) ≠ [] ∧ ops = policy_operations ap) ∨
         (AuthRules (spec ap) = [] ∧ ∃ k (x : obj k),
            Event (Get k (target_key (ap_TargetRef (spec ap)) (meta_Namespace (ometa ap))))
              (Success x) ∈ t ∧ valid_object x = true ∧
            ops = target_operations (AnObject k x))) ∧
        ∀ err, ev_error ev = Some err → IsAlreadyExists err = true ∨ o = Err err).
Proof.
  pose proof (wp_reconcileAuthRules_writes ap) as Hw.
  destruct (decide (Forall is_Some (AuthRules (spec ap)))) as [Hr|Hr].
  - pose proof (safe_reconcileAuthRules ap Hr) as Hs.
    eapply wp_mono; [apply (wp_and _ _ _ Hs Hw)|]. by intros t o [Hp Ht].
  - assert (wp (Auth.reconcileAuthRules ap) (λ t o, t = [] ∧ o = Panic nil_dereference)) as Hn
      by (by apply wp_bind, wp_rules_of_policy).
    eapply wp_mono; [apply (wp_and _ _ _ Hn Hw)|]. by intros t o [Hp Ht].
Qed.

(** C37: a policy whose target route cannot be read keeps what it had, silently:
    when the policy has its own rules, reconciling them, like removing the
    AuthorizationPolicies of a deleted policy, reports success without writing
    anything. *)
Theorem unread_route_reported_as_success (AM : Apimachinery) (Env : Environment)
    (ap : AuthPolicy)
    (Hroute : IsTargetRefHTTPRoute (ap_TargetRef (spec ap)) = true)
    (Hrules : AuthRules (spec ap) ≠ []) (Hsome : Forall is_Some (AuthRules (spec ap))) :
  let silent := λ (t : list event) (o : outcome unit), ∃ a t',
    t = Event (Get KHTTPRoute (target_key (ap_TargetRef (spec ap)) (meta_Namespace (ometa ap)))) a
          :: t' ∧ ∀ e, a = Failure e → t' = [] ∧ o = Ok tt in
  wp (Auth.reconcileAuthRules ap) silent ∧ wp (Auth.removeIstioAuthPolicy ap) silent.
Proof.
  intros silent.
  assert (∀ cont, wp (keys <-- attempt (TargetedGatewayKeys (ap_TargetRef (spec ap))
    (meta_Namespace (ometa ap))) ;;
    match keys with Failure err => ret tt | Success gwKeys => cont gwKeys end) silent) as Hgen.
  { intros cont. rewrite wp_bind, wp_attempt. eapply wp_mono; [apply wp_TargetedGatewayKeys|].
    intros t o. unfold target_kind. rewrite Hroute. intros ([r|e] & -> & Ho).
    - destruct (valid_object (k:=KHTTPRoute) r); [subst o|destruct Ho as [m ->]]; cbn [after wp ret];
        [apply wp_always; intros t' o'|]; by eexists _, _.
    - subst o. cbn [after wp ret]. eexists _, _. split; [done|]. by intros. }
  split; [|apply Hgen].
  unfold Auth.reconcileAuthRules. apply wp_bind, wp_rules_of_policy; [|done].
  intros _. cbn [after app]. fold (policy_operations ap).
  assert (length (policy_operations ap) =? 0 = false)%nat as ->.
  { unfold policy_operations. destruct (AuthRules (spec ap)) as [|[r|] l]; [done|done|].
    by apply Forall_cons in Hsome as [[? [=]] _]. }
  cbn [prog_bind]. apply Hgen.
Qed.

(** ** Concrete reconciliations *)

#[local] Existing Instances sample_environment binary_condition_codec.

Lemma missing_auth_scheme_never_reconciles_witness :
  (run memory_server (Auth.reconcileSpec sample_ap) cluster).2 = Panic nil_dereference ∧
  Forall (λ ev, reads (ev_call ev))
    (run memory_server (Auth.reconcileSpec sample_ap) cluster).1.2.
Proof.
  split; [vm_compute; reflexivity|].
  apply (wp_run memory_server _ _ cluster (missing_auth_scheme_never_reconciles
    default_apimachinery sample_environment sample_ap eq_refl)).
Defined.

(** A policy with one rule and a scheme, for the sample route. *)
Definition protecting_ap : AuthPolicy :=
  set_spec sample_ap
    {| ap_TargetRef := sample_target;
       AuthRules := [Some {| ar_Hosts := Some ["api.com"]; ar_Methods := None;
                             ar_Paths := None |}];
       AuthScheme := Some {| acs_Hosts := ["api.com"]; acs_rest := empty_string |} |}.

Lemma unread_route_reported_as_success_witness :
  (run memory_server (Auth.reconcileAuthRules protecting_ap) empty_store).2 = Ok tt ∧
  (run memory_server (Auth.removeIstioAuthPolicy protecting_ap) empty_store).2 = Ok tt.
Proof.
  destruct (unread_route_reported_as_success default_apimachinery sample_environment
    protecting_ap eq_refl) as [Hr Hd].
  - discriminate.
  - repeat constructor. by eexists.
  - split.
    + destruct (wp_run memory_server _ _ empty_store Hr) as (a & t' & Ht & Ha).
      destruct a as [r|e]; [|apply (Ha e eq_refl)]. vm_compute in Ht. discriminate Ht.
    + destruct (wp_run memory_server _ _ empty_store Hd) as (a & t' & Ht & Ha).
      destruct a as [r|e]; [|apply (Ha e eq_refl)]. vm_compute in Ht. discriminate Ht.
Defined.

Definition leaving_ap : AuthPolicy :=
  set_meta protecting_ap (terminating authPolicyFinalizer (ometa protecting_ap)).

Lemma auth_finalizer_removed_last_witness :
  let req := ObjectKeyFromObject leaving_ap in
  let protected := (run memory_server (Auth.Reconcile req)
                      (store_put cluster (k:=KAuthPolicy) protecting_ap)).1.1 in
  let s := store_put protected (k:=KAuthPolicy) leaving_ap in
  let t := (run memory_server (Auth.Reconcile req) s).1.2 in
  ∃ (ap : obj KAuthPolicy) pre r,
    t = Event (Get KAuthPolicy req) (Success ap) :: pre ++
        [Event (Update KAuthPolicy
           (set_meta ap (RemoveFinalizer (ometa ap) authPolicyFinalizer))) r] ∧
    Forall (write_ok_or_gone KAuthConfig) pre.
Proof.
  intros req protected s t.
  pose proof (wp_run memory_server _ _ s (auth_finalizer_removed_last default_apimachinery
    default_apimachinery_ok sample_environment go_merge_sort binary_condition_codec req)) as Hrun.
  cbv beta in Hrun. fold t in Hrun.
  destruct (last t) as [ev|] eqn:Hev; [|vm_compute in Hev; discriminate].
  destruct (Hrun ev) as (ap & pre & r & Ht & _ & _ & Hw).
  - apply last_Some in Hev as [l ->]. apply elem_of_app. right. left.
  - vm_compute in Hev. injection Hev as <-. vm_compute. discriminate.
  - exists ap, pre, r. split; [exact Ht|exact Hw].
Defined.

(** Reconciling the sample policy: the route is protected, and a second run
    finds an AuthConfig that is not ready yet. *)
Example sample_protected :
  let req := ObjectKeyFromObject protecting_ap in
  let first := run memory_server (Auth.Reconcile req)
                 (store_put cluster (k:=KAuthPolicy) protecting_ap) in
  first.2 = Ok (no_requeue, None) ∧
  is_Some (first.1.1 KAuthorizationPolicy
    !! {| Namespace := "istio-system"; Name := "on-gw-using-route" |}) ∧
  is_Some (first.1.1 KAuthConfig !! {| Namespace := "kuadrant-system"; Name := "ap-ns-ap" |}).
Proof. vm_compute. eauto. Qed.
