(* ===== verification/AuthSteady.v ===== *)
(** * The steady state of an authorization policy

    What a successful reconciliation of an AuthPolicy leaves in the cluster, and
    that another one leaves it as it is, although, unlike that of a
    RateLimitPolicy, it writes every object again. *)
From Stdlib Require Import FunctionalExtensionality.
From S2P Require Import Prelude GoStrings Hostname KubeTypes CommonUtils RouteRules PolicyTypes.
From S2P Require Import LimitIndex Json GatewayRefs Client Apimachinery.
From S2P Require Import BaseReconciler TargetRef Runs Samples LimitadorSteady RateLimitController.
From S2P Require Import RateLimitLimits RateLimitIstio SteadyState AuthController.

Open Scope go_scope.

(** ** Runs that write what is there *)

(** A call that leaves the store as it is: it reads, or it updates an object to
    what is stored. *)
Definition idle (s : store) (c : call) : Prop :=
  match c with
  | Update k o => s k !! ObjectKeyFromObject o = Some o
  | c => reads c
  end.

(** The calls of a trace that write, in order. *)
Definition write_calls (t : list event) : list call :=
  filter (λ c, is_write c = true) (ev_call <$> t).

Lemma write_calls_app t1 t2 : write_calls (t1 ++ t2) = write_calls t1 ++ write_calls t2.
Proof. unfold write_calls. by rewrite fmap_app, filter_app. Qed.

Lemma write_calls_reads t : Forall (λ e, reads (ev_call e)) t → write_calls t = [].
Proof.
  induction 1 as [|e t He _ IH]; [done|]. unfold write_calls in *. rewrite fmap_cons.
  rewrite filter_cons_False; [done|]. unfold reads in He. by rewrite He.
Qed.

(** From the store [s], [p] succeeds with [a] and makes only such calls; those
    that write are [ws]. *)
Definition rewrites {A} (p : prog A) (s : store) (a : A) (ws : list call) : Prop :=
  ∃ t, run memory_server p s = (s, t, Ok a) ∧ Forall (λ e, idle s (ev_call e)) t ∧
       write_calls t = ws.

Lemma store_put_id {k} (s : store) (o : obj k) :
  s k !! ObjectKeyFromObject o = Some o → store_put s o = s.
Proof.
  intros Ho. apply functional_extensionality_dep. intros k'.
  destruct (decide (k = k')) as [<-|Hk]; [|by apply store_put_other].
  rewrite store_put_same. by apply insert_id.
Qed.

Lemma rewrites_steady {A} (p : prog A) s a : steady p s a → rewrites p s a [].
Proof.
  intros (t & Hp & Ht). exists t. split; [done|]. split; [|by apply write_calls_reads].
  eapply Forall_impl; [exact Ht|]. intros [[]]; done.
Qed.

Lemma rewrites_bind {A B} (p : prog A) (f : A → prog B) s a b ws1 ws2 :
  rewrites p s a ws1 → rewrites (f a) s b ws2 → rewrites (prog_bind p f) s b (ws1 ++ ws2).
Proof.
  intros (t1 & H1 & Hr1 & <-) (t2 & H2 & Hr2 & <-). unfold rewrites. rewrite run_bind, H1, H2.
  eexists. split; [done|]. split; [by apply Forall_app|apply write_calls_app].
Qed.

(** After a part that only reads *)
Lemma rewrites_then {A B} (p : prog A) (f : A → prog B) s a b ws :
  steady p s a → rewrites (f a) s b ws → rewrites (prog_bind p f) s b ws.
Proof. intros Hp Hf. apply (rewrites_bind p f s a b [] ws); [by apply rewrites_steady|done]. Qed.

Lemma rewrites_loop {X} (body : unit → X → prog unit) s l ws :
  Forall2 (λ x w, rewrites (body tt x) s tt [w]) l ws → rewrites (loop body tt l) s tt ws.
Proof.
  induction 1 as [|x w l ws Hx _ IH]; [by exists []|]. cbn [loop].
  by apply (rewrites_bind _ _ s tt tt [w] ws).
Qed.

(** ** Objects that are always updated *)

(** An object with the specification and the annotations of [d] is there. *)
Definition written {k} (d : obj k) (s : store) : Prop :=
  ∃ o : obj k, s k !! ObjectKeyFromObject d = Some o ∧
    spec o = spec d ∧ meta_Annotations (ometa o) = meta_Annotations (ometa d).

Section always.
Context {k : Kind} (desired : obj k) (mutateFn : MutateFn) (f : obj k → obj k).
Context (Hkeep : IsObjectTaggedToDelete desired = false).
Context (Hmutate : ∀ o, mutateFn k k o desired = Ok (f o, true)).
Context (Hkey : ∀ o, ObjectKeyFromObject (f o) = ObjectKeyFromObject o).

Local Abbreviation key := (ObjectKeyFromObject desired).

(** The error of a creation that came too late is ignored. *)
Definition create_or_update : prog unit :=
  r <-- attempt (ReconcileResource k desired mutateFn) ;;
  match r with
  | Failure err => if negb (IsAlreadyExists err) then fail err else ret tt
  | Success _ => ret tt
  end.

Lemma run_create_or_update s :
  store_wf s →
  run memory_server create_or_update s =
  match s k !! key with
  | Some o => (store_put s (f o), [Event (Get k key) (Success o);
                                   Event (Update k (f o)) (Success (f o))], Ok tt)
  | None => (store_put s desired,
             [Event (Get k key) (Failure (api_error ReasonNotFound "not found" key));
              Event (Create k desired) (Success desired)], Ok tt)
  end.
Proof.
  intros Hwf. unfold create_or_update, ReconcileResource.
  cbn [attempt request prog_bind run memory_server].
  destruct (s k !! key) as [o|] eqn:Ho; cbn [attempt prog_bind ret fail].
  - rewrite Hkeep, Hmutate. cbn [prog_bind attempt fst snd UpdateResource request run].
    cbn [memory_server]. rewrite Hkey, (Hwf _ _ _ Ho).
    by replace (s k !! key) with (Some o : option (obj k)) by exact (eq_sym Ho).
  - change (IsNotFound _) with true. cbn [negb]. rewrite Hkeep.
    cbn [negb prog_bind attempt CreateResource request run memory_server].
    by replace (s k !! key) with (None : option (obj k)) by exact (eq_sym Ho).
Qed.

Context (Hspec : ∀ o, spec (f o) = spec desired).
Context (Hann : ∀ o, meta_Annotations (ometa (f o)) = meta_Annotations (ometa desired)).
Context (Hid : ∀ o, spec o = spec desired →
                    meta_Annotations (ometa o) = meta_Annotations (ometa desired) → f o = o).

Lemma exec_create_or_update s s' :
  store_wf s → exec create_or_update s s' tt →
  written desired s' ∧ ∀ key', key' ≠ key → s' k !! key' = s k !! key'.
Proof.
  intros Hwf (t & Ht). rewrite (run_create_or_update s Hwf) in Ht.
  destruct (s k !! key) as [o|] eqn:Ho; injection Ht as <- _; rewrite store_put_same.
  - assert (ObjectKeyFromObject (f o) = key) as Hk by (rewrite Hkey; by eapply Hwf).
    rewrite Hk. split.
    + exists (f o). rewrite store_put_same, Hk, lookup_insert_eq. auto.
    + intros key' Hne. by rewrite lookup_insert_ne.
  - split.
    + exists desired. by rewrite store_put_same, lookup_insert_eq.
    + intros key' Hne. by rewrite lookup_insert_ne.
Qed.

Lemma rewrites_create_or_update s :
  store_wf s → written desired s →
  ∃ o, s k !! key = Some o ∧ rewrites create_or_update s tt [Update k o].
Proof.
  intros Hwf (o & Ho & Hs & Ha). exists o. split; [done|].
  eexists. rewrite (run_create_or_update s Hwf), Ho.
  rewrite (Hid o Hs Ha). pose proof (Hwf _ _ _ Ho) as Hk.
  rewrite store_put_id by (by rewrite Hk). split; [done|]. split; [|done].
  constructor; [done|]. constructor; [|done]. simpl. by rewrite Hk.
Qed.
End always.

(** ** The targets *)

Section targets.
Context `{Apimachinery}.

(** Taking a target changes annotations only. *)
Lemma exec_back_similar pk t ns ann s s' k :
  store_wf s → exec (ReconcileTargetBackReference pk t ns ann) s s' tt → similar k s s'.
Proof.
  intros Hwf (s1 & [k' x] & Hf & Hex)%exec_bind.
  pose proof (exec_reads _ _ _ _ (reads_FetchValidTargetRef t ns) Hf) as ->.
  apply exec_run in Hf as [_ (_ & Hx & _)%fetch_in_store_inv]. cbn zeta iota in Hex.
  destruct (entries (GetAnnotations x) !! ann) as [val|].
  - destruct (negb _); apply exec_Ret in Hex as [-> ?]; [done|by apply similar_eq].
  - apply exec_bind in Hex as (s2 & r & [-> _]%exec_UpdateResource & [-> _]%exec_Ret).
    destruct (decide (k' = k)) as [<-|Hk]; [|apply similar_eq; by rewrite store_put_other].
    intros key. rewrite store_put_same.
    assert (ObjectKeyFromObject (SetAnnotations x
      (<[ann:=key_String pk]> (entries (GetAnnotations x)))) = target_key t ns)
      as Hkey by exact (Hwf k' _ x Hx).
    rewrite Hkey. destruct (decide (target_key t ns = key)) as [<-|Hne].
    + rewrite lookup_insert_eq, Hx. by repeat constructor.
    + rewrite lookup_insert_ne by done. by destruct (s k' !! key); repeat constructor.
Qed.

Lemma held_agree s s' t ns ann v :
  s KGateway = s' KGateway → s KHTTPRoute = s' KHTTPRoute →
  held s t ns ann v → held s' t ns ann v.
Proof.
  intros Hg Hr (k & x & Hk & Hx & Hv & Ha). exists k, x. split; [done|]. split; [|done].
  by destruct (target_kind_cases t k Hk) as [-> | ->]; rewrite <- ?Hg, <- ?Hr.
Qed.

(** A target that is held has its gateways. *)
Lemma held_keys s t ns ann v :
  held s t ns ann v → ∃ ks, (run memory_server (TargetedGatewayKeys t ns) s).2 = Ok ks.
Proof.
  intros (k & x & Hk & Hx & Hv & _). unfold target_kind, TargetedGatewayKeys in *.
  destruct (IsTargetRefHTTPRoute t); [|destruct (IsTargetRefGateway t); [|done]].
  - injection Hk as <-. rewrite run_bind.
    pose proof (run_FetchValidHTTPRoute s (target_key t ns)) as Hf.
    unfold get_result in Hf. rewrite Hx in Hf. cbn [outcome_bind] in Hf. rewrite Hv in Hf.
    unfold target_key in Hf. destruct (run memory_server (FetchValidHTTPRoute _) s) as [[s1 tr] o].
    simpl in Hf. subst o. by eexists.
  - by eexists.
Qed.

Lemma TargetHostnames_similar t ns s s' hosts :
  similar KGateway s s' → similar KHTTPRoute s s' →
  (run memory_server (TargetHostnames t ns) s).2 = Ok hosts →
  (run memory_server (TargetHostnames t ns) s').2 = Ok hosts.
Proof.
  intros Hg Hr. unfold TargetHostnames. rewrite !run_bind.
  destruct (run memory_server (FetchValidTargetRef t ns) s) as [[s1 tr] [[k o]|e|m]] eqn:Hf;
    [|done..].
  destruct (fetch_similar t ns s s' k o Hg Hr) as (o' & Hf' & Hc); [by rewrite Hf|].
  destruct (run memory_server (FetchValidTargetRef t ns) s') as [[s1' tr'] out].
  simpl in Hf'. subst out. cbn zeta. rewrite !TargetHostnames_or_any.
  by rewrite (served_hosts_content o o' Hc).
Qed.
End targets.

(** ** What an AuthPolicy leaves in the cluster *)

Section auth.
Context `{Apimachinery, Environment}.
Context (ap : AuthPolicy).

Local Abbreviation target := (ap_TargetRef (spec ap)).
Local Abbreviation ns := (meta_Namespace (ometa ap)).

(** What may be done on the target: the rules of the policy, or, when it has
    none, those of the target. *)
Definition authorized_operations (toRules : list Operation) : prog (list Operation) :=
  if (length toRules =? 0)%nat then
    target <-- FetchValidTargetRef target ns ;;
    ret (Auth.rules_of_target toRules target)
  else ret toRules.

Definition authorization_policy (toRules : list Operation) (gwKey : ObjectKey) :
    obj KAuthorizationPolicy :=
  Build_object (Auth.istio_policy_meta ap gwKey)
    {| iap_Action := "CUSTOM"; iap_Rules := [toRules];
       iap_SelectorMatchLabels := ∅; iap_ProviderName := Auth.AuthProvider |} tt.

(** The name of the AuthorizationPolicy of a gateway *)
Definition istio_policy_key (gwKey : ObjectKey) : ObjectKey :=
  let m := Auth.istio_policy_meta ap gwKey in
  {| Namespace := meta_Namespace m; Name := meta_Name m |}.
Definition auth_config_key : ObjectKey :=
  {| Namespace := KuadrantNamespace; Name := authConfigName (ObjectKeyFromObject ap) |}.

Definition auth_config (authScheme : AuthConfigSpec) : obj KAuthConfig :=
  Build_object (new_meta (authConfigName (ObjectKeyFromObject ap)) KuadrantNamespace)
    authScheme {| authconfig_Ready := false |}.

Record auth_settled (s : store) : Prop := {
  auth_valid : AP.Validate ap = Ok tt;
  auth_hosts : (run memory_server (Auth.enforceHierarchicalConstraints ap) s).2 = Ok tt;
  auth_back : held s target ns AuthPolicyBackRefAnnotation (key_String (ObjectKeyFromObject ap));
  auth_rules : ∃ own toRules ks,
    (run memory_server (Auth.rules_of_policy (AuthRules (spec ap))) s).2 = Ok own ∧
    (run memory_server (authorized_operations own) s).2 = Ok toRules ∧
    (run memory_server (TargetedGatewayKeys target ns) s).2 = Ok ks ∧
    ∀ gwKey, gwKey ∈ ks → written (authorization_policy toRules gwKey) s;
  auth_scheme : ∃ authScheme, AuthScheme (spec ap) = Some authScheme ∧
    written (auth_config authScheme) s
}.

(** *** The objects that are written *)

Lemma istio_policy_step toRules gwKey :
  Auth.reconcile_istio_policy ap toRules tt gwKey =
  create_or_update (authorization_policy toRules gwKey) alwaysUpdateAuthPolicy.
Proof. done. Qed.

Definition update_policy (toRules : list Operation) (o : obj KAuthorizationPolicy) :
    obj KAuthorizationPolicy :=
  set_meta (set_spec o (spec (authorization_policy toRules {| Namespace := ""; Name := "" |})))
    (meta_set_annotations (ometa o) None).

Lemma set_same {k} (o : obj k) sp :
  spec o = sp → meta_Annotations (ometa o) = None →
  set_meta (set_spec o sp) (meta_set_annotations (ometa o) None) = o.
Proof. destruct o as [[] ? ?]. simpl. by intros -> ->. Qed.

Section policies.
Context (toRules : list Operation).

Lemma exec_istio_policy gwKey s s' :
  store_wf s → exec (Auth.reconcile_istio_policy ap toRules tt gwKey) s s' tt →
  written (authorization_policy toRules gwKey) s' ∧
  ∀ key, key ≠ ObjectKeyFromObject (authorization_policy toRules gwKey) →
    s' KAuthorizationPolicy !! key = s KAuthorizationPolicy !! key.
Proof. by apply (exec_create_or_update _ _ (update_policy toRules)). Qed.

Lemma rewrites_istio_policy gwKey s :
  store_wf s → written (authorization_policy toRules gwKey) s →
  ∃ o, s KAuthorizationPolicy !! istio_policy_key gwKey = Some o ∧
    rewrites (Auth.reconcile_istio_policy ap toRules tt gwKey) s tt
      [Update KAuthorizationPolicy o].
Proof.
  intros Hwf Hw.
  apply (rewrites_create_or_update (authorization_policy toRules gwKey) alwaysUpdateAuthPolicy
    (update_policy toRules)); try done.
  intros o. apply (set_same (k:=KAuthorizationPolicy)).
Qed.

Lemma exec_istio_policy_keeps gwKey gwKey' s s' :
  store_wf s → exec (Auth.reconcile_istio_policy ap toRules tt gwKey) s s' tt →
  written (authorization_policy toRules gwKey') s →
  written (authorization_policy toRules gwKey') s'.
Proof.
  intros Hwf Hex (o & Ho & Hs & Ha).
  destruct (exec_istio_policy gwKey s s' Hwf Hex) as [(o' & Ho' & Hs' & Ha') Hframe].
  destruct (decide (ObjectKeyFromObject (authorization_policy toRules gwKey') =
                    ObjectKeyFromObject (authorization_policy toRules gwKey))) as [Hk|Hk].
  - exists o'. by rewrite Hk.
  - exists o. by rewrite Hframe.
Qed.

Lemma exec_istio_policies ks s s' :
  store_wf s → exec (loop (Auth.reconcile_istio_policy ap toRules) tt ks) s s' tt →
  (∀ gwKey, gwKey ∈ ks → written (authorization_policy toRules gwKey) s') ∧
  ∀ gwKey, written (authorization_policy toRules gwKey) s →
           written (authorization_policy toRules gwKey) s'.
Proof.
  revert s. induction ks as [|k ks IH]; intros s Hwf Hex.
  { apply exec_Ret in Hex as [-> _]. split; [by intros ? ?%not_elem_of_nil|done]. }
  apply exec_loop_cons in Hex as (s1 & [] & Hk & Hex).
  pose proof (exec_wf _ _ _ _ Hwf Hk) as Hwf1.
  destruct (IH s1 Hwf1 Hex) as [Hall Hkeep]. split.
  - intros gwKey [->|Hin]%elem_of_cons; [|by apply Hall].
    apply Hkeep. by apply (exec_istio_policy k s s1).
  - intros gwKey Hw. apply Hkeep. by apply (exec_istio_policy_keeps k gwKey s s1).
Qed.
End policies.

Definition update_config (authScheme : AuthConfigSpec) (o : obj KAuthConfig) : obj KAuthConfig :=
  overwrite o (auth_config authScheme).

Lemma update_config_same authScheme (o : obj KAuthConfig) :
  spec o = spec (auth_config authScheme) →
  meta_Annotations (ometa o) = meta_Annotations (ometa (auth_config authScheme)) →
  update_config authScheme o = o.
Proof.
  unfold update_config, overwrite. destruct o as [[] sp st]. cbn. intros Hs Ha. by subst.
Qed.

Lemma reconcileAuthSchemes_step authScheme :
  AuthScheme (spec ap) = Some authScheme →
  Auth.reconcileAuthSchemes ap = create_or_update (auth_config authScheme) alwaysUpdateAuthConfig.
Proof. unfold Auth.reconcileAuthSchemes. by intros ->. Qed.

(** *** The whole reconciliation *)

Definition network_kind (k : Kind) : Prop := k = KGateway ∨ k = KHTTPRoute.

(** Programs that read gateways and routes only. *)
Lemma network_agree {A} (p : prog A) s s' :
  s KGateway = s' KGateway → s KHTTPRoute = s' KHTTPRoute →
  emits (λ c, reads c ∧ network_kind (call_kind c)) p →
  (run memory_server p s).2 = (run memory_server p s').2.
Proof.
  intros Hg Hr Hp. apply run_agree. eapply emits_mono; [|exact Hp].
  by intros c [Hc [Hk|Hk]]; rewrite Hk.
Qed.

Lemma emits_authorized_operations P own :
  (∀ key, P (Get KGateway key)) → (∀ key, P (Get KHTTPRoute key)) →
  emits P (authorized_operations own).
Proof. intros HG HR. unfold authorized_operations. emits_auto. by apply emits_FetchValidTargetRef. Qed.

Lemma writes_istio_policies toRules ks :
  writes_only (λ k, k = KAuthorizationPolicy)
    (loop (Auth.reconcile_istio_policy ap toRules) tt ks).
Proof. apply emits_loop. intros [] k. unfold Auth.reconcile_istio_policy. emits_auto. Qed.

Lemma writes_auth_scheme :
  writes_only (λ k, k = KAuthConfig) (Auth.reconcileAuthSchemes ap).
Proof. apply emits_reconcileAuthSchemes; try (by intros); by intros ? ?. Qed.

(** Programs that make no call *)
Lemma run_silent {A} (p : prog A) s s' :
  emits (λ _, False) p → (run memory_server p s).2 = (run memory_server p s').2.
Proof. intros Hp. apply run_agree. by eapply emits_mono; [|exact Hp]. Qed.

Lemma enforce_similar s s' :
  similar KGateway s s' → similar KHTTPRoute s s' →
  (run memory_server (Auth.enforceHierarchicalConstraints ap) s).2 = Ok tt →
  (run memory_server (Auth.enforceHierarchicalConstraints ap) s').2 = Ok tt.
Proof.
  intros Hg Hr Hok. apply outcome_rel_eq. rewrite <- Hok. apply outcome_rel_eq. symmetry.
  revert Hok. unfold Auth.enforceHierarchicalConstraints. rewrite !run_bind.
  destruct (run memory_server (TargetHostnames target ns) s) as [[s1 tr] [hs|e|m]] eqn:Hf; [|done..].
  pose proof (TargetHostnames_similar target ns s s' hs Hg Hr) as Hhs. rewrite Hf in Hhs.
  specialize (Hhs eq_refl).
  destruct (run memory_server (TargetHostnames target ns) s') as [[s1' tr'] out].
  simpl in Hhs. subst out. intros Hok.
  match goal with |- context [run memory_server ?p s1] =>
    assert ((run memory_server p s1).2 = (run memory_server p s1').2) as Heq
  end.
  { apply run_silent, emits_bind; [apply emits_rule_hosts|]. intros hosts. emits_auto. }
  destruct (run memory_server _ s1) as [[? ?] ?], (run memory_server _ s1') as [[? ?] ?]. done.
Qed.

Lemma written_agree {k} (d : obj k) s s' : s k = s' k → written d s → written d s'.
Proof. unfold written. by intros ->. Qed.

Lemma exec_reconcileAuthRules s s' :
  store_wf s → exec (Auth.reconcileAuthRules ap) s s' tt →
  (∃ ks, (run memory_server (TargetedGatewayKeys target ns) s).2 = Ok ks) →
  (∀ k, k ≠ KAuthorizationPolicy → s' k = s k) ∧
  ∃ own toRules ks,
    (run memory_server (Auth.rules_of_policy (AuthRules (spec ap))) s).2 = Ok own ∧
    (run memory_server (authorized_operations own) s).2 = Ok toRules ∧
    (run memory_server (TargetedGatewayKeys target ns) s).2 = Ok ks ∧
    ∀ gwKey, gwKey ∈ ks → written (authorization_policy toRules gwKey) s'.
Proof.
  intros Hwf Hex [ks Hks].
  apply exec_bind in Hex as (s1 & own & Hown & Hex).
  assert (s1 = s) as -> by (eapply exec_reads; [apply emits_rules_of_policy|exact Hown]).
  apply exec_bind in Hex as (s1 & toRules & Hrules & Hex).
  assert (s1 = s) as ->.
  { eapply exec_reads; [|exact Hrules]. by apply (emits_authorized_operations reads own). }
  apply exec_bind in Hex as (s1 & keys & Hkeys & Hex).
  assert (s1 = s) as ->.
  { eapply exec_reads; [|exact Hkeys]. by apply emits_attempt, emits_TargetedGatewayKeys. }
  apply exec_run in Hown as [_ Hown], Hrules as [_ Hrules], Hkeys as [_ Hkeys].
  rewrite run_attempt in Hkeys.
  destruct (run memory_server (TargetedGatewayKeys target ns) s) as [[? ?] out] eqn:Hrun.
  simpl in Hks. subst out. injection Hkeys as <-. cbn iota in Hex. split.
  - intros k Hk. by eapply exec_frame; [apply writes_istio_policies|exact Hex|].
  - exists own, toRules, ks. split; [done|]. split; [done|]. split; [done|].
    by apply (exec_istio_policies toRules ks s s').
Qed.

Lemma exec_auth_reconcileSpec s s' r :
  store_wf s → exec (Auth.reconcileSpec ap) s s' r →
  auth_settled s' ∧ store_wf s' ∧ r = no_requeue.
Proof.
  intros Hwf Hex. pose proof (exec_wf _ _ _ _ Hwf Hex) as Hwf'.
  revert Hex. intros (s4 & [] & [-> Hvalid]%exec_Ret & (s0 & [] & Hhosts &
    (s1 & [] & Hback & (s2 & [] & Hrules & (s3 & [] & Hscheme &
      [-> [= <-]]%exec_Ret)%exec_bind)%exec_bind)%exec_bind)%exec_bind)%exec_bind.
  assert (s0 = s) as ->.
  { eapply exec_reads; [|exact Hhosts]. by apply emits_enforceHierarchicalConstraints. }
  apply exec_run in Hhosts as [_ Hhosts].
  pose proof (exec_wf _ _ _ _ Hwf Hback) as Hwf1.
  pose proof (λ k, exec_back_similar _ _ _ _ _ _ k Hwf Hback) as Hsim.
  assert (held s1 target ns AuthPolicyBackRefAnnotation
            (key_String (ObjectKeyFromObject ap))) as Hheld.
  { apply exec_run in Hback as [<- Hok]. by apply back_reference_holds. }
  destruct (exec_reconcileAuthRules s1 s2 Hwf1 Hrules (held_keys _ _ _ _ _ Hheld))
    as (Hframe1 & own & toRules & ks & Hown & Hrun & Hks & Hall).
  pose proof (exec_wf _ _ _ _ Hwf1 Hrules) as Hwf2.
  assert (∀ k, k ≠ KAuthConfig → s3 k = s2 k) as Hframe2.
  { intros k Hk. by eapply exec_frame; [apply writes_auth_scheme|exact Hscheme|]. }
  assert (s1 KGateway = s3 KGateway) as Hg by (by rewrite Hframe2, Hframe1).
  assert (s1 KHTTPRoute = s3 KHTTPRoute) as Hr by (by rewrite Hframe2, Hframe1).
  split; [|done]. split; [done| | | |].
  - apply (enforce_similar s); [| |done];
      (apply (similar_trans _ _ s1); [apply Hsim|by apply similar_eq]).
  - by apply (held_agree s1).
  - exists own, toRules, ks. rewrite <- Hown, <- Hrun, <- Hks. split.
    { apply run_silent, emits_rules_of_policy. }
    split; [symmetry; apply network_agree; [done..|];
            apply emits_authorized_operations; intros key; (split; [done|]); [by left|by right]|].
    split; [symmetry; apply network_agree; [done..|];
            apply emits_TargetedGatewayKeys; intros key; (split; [done|]); by right|].
    intros gwKey Hin. apply (written_agree _ s2); [by rewrite Hframe2|by apply Hall].
  - destruct (AuthScheme (spec ap)) as [authScheme|] eqn:Has.
    + exists authScheme. split; [done|]. rewrite (reconcileAuthSchemes_step _ Has) in Hscheme.
      by apply (exec_create_or_update _ _ (update_config authScheme)) in Hscheme as [? _].
    + unfold Auth.reconcileAuthSchemes in Hscheme. rewrite Has in Hscheme. by destruct Hscheme.
Qed.

(** The objects that are stored for the policy, and the calls that write them. *)
Definition rewritten (s : store) (ws : list call) : Prop :=
  ∃ ks (policies : list (obj KAuthorizationPolicy)) (config : obj KAuthConfig),
    (run memory_server (TargetedGatewayKeys target ns) s).2 = Ok ks ∧
    Forall2 (λ gwKey o, s KAuthorizationPolicy !! istio_policy_key gwKey = Some o) ks policies ∧
    s KAuthConfig !! auth_config_key = Some config ∧
    ws = (Update KAuthorizationPolicy <$> policies) ++ [Update KAuthConfig config].

Lemma rewrites_istio_policies toRules ks s :
  store_wf s → (∀ gwKey, gwKey ∈ ks → written (authorization_policy toRules gwKey) s) →
  ∃ policies : list (obj KAuthorizationPolicy),
    Forall2 (λ gwKey o, s KAuthorizationPolicy !! istio_policy_key gwKey = Some o) ks policies ∧
    rewrites (loop (Auth.reconcile_istio_policy ap toRules) tt ks) s tt
      (Update KAuthorizationPolicy <$> policies).
Proof.
  intros Hwf Hall.
  assert (∃ policies, Forall2 (λ gwKey o,
    s KAuthorizationPolicy !! istio_policy_key gwKey = Some o ∧
    rewrites (Auth.reconcile_istio_policy ap toRules tt gwKey) s tt [Update KAuthorizationPolicy o])
    ks policies) as [policies Hps].
  { apply Forall_exists_Forall2_l, Forall_forall. intros gwKey Hin.
    by apply rewrites_istio_policy, Hall. }
  exists policies. split; [by eapply Forall2_impl; [exact Hps|]; intros ? ? []|].
  apply rewrites_loop, Forall2_fmap_r. eapply Forall2_impl; [exact Hps|]. by intros ? ? [].
Qed.

Lemma auth_settled_rewrites s :
  store_wf s → auth_settled s →
  ∃ ws, rewrites (Auth.reconcileSpec ap) s no_requeue ws ∧ rewritten s ws.
Proof.
  intros Hwf [Hvalid Hhosts Hback (own & toRules & ks & Hown & Hrules & Hks & Hall)
              (authScheme & Has & Hconf)].
  destruct (rewrites_istio_policies toRules ks s Hwf Hall) as (policies & Hps & Hloop).
  destruct (rewrites_create_or_update (auth_config authScheme) alwaysUpdateAuthConfig
    (update_config authScheme)) with (s := s) as (config & Hc & Hconfig); try done.
  { intros o. apply update_config_same. }
  exists ((Update KAuthorizationPolicy <$> policies) ++ [Update KAuthConfig config]).
  split; [|by exists ks, policies, config].
  unfold Auth.reconcileSpec.
  eapply rewrites_then; [rewrite Hvalid; apply steady_ret|].
  eapply rewrites_then.
  { apply steady_reads; [by apply emits_enforceHierarchicalConstraints|done]. }
  eapply rewrites_then; [by apply steady_back_reference|].
  apply (rewrites_bind _ _ s tt); [unfold Auth.reconcileAuthRules|].
  { eapply rewrites_then; [by apply steady_reads; [apply emits_rules_of_policy|exact Hown]|].
    eapply rewrites_then.
    { apply steady_reads; [|exact Hrules]. by apply (emits_authorized_operations reads own). }
    apply (rewrites_then _ _ s (Success ks)); [|exact Hloop].
    apply steady_attempt, steady_reads; [|exact Hks]. by apply emits_TargetedGatewayKeys. }
  rewrite (reconcileAuthSchemes_step _ Has).
  apply (rewrites_bind _ _ s tt no_requeue [Update KAuthConfig config] []); [done|].
  apply rewrites_steady, steady_ret.
Qed.
End auth.

(** ** Properties *)

(** C25: reconciling the specification of an AuthPolicy comes to rest, though it
    never stops writing.  On a server without other actors, once it succeeded:
    the target holds the policy; every gateway of the target has an
    AuthorizationPolicy with exactly the rules of the policy, or those of the
    target when it has none, delegating to the configured provider; and there is
    an AuthConfig with the authentication scheme, in the namespace of Kuadrant.
    Reconciling again succeeds and leaves the cluster as it is, but it does
    write: first an update of the AuthorizationPolicy of every gateway of the
    target, in the order of the gateways, then one of the AuthConfig, each with
    the object that is stored, and nothing else. *)
Theorem auth_reconcileSpec_settles (AM : Apimachinery) (Env : Environment)
    (ap : AuthPolicy) (s : store) (r : Result)
    (Hwf : store_wf s) (Hok : (run memory_server (Auth.reconcileSpec ap) s).2 = Ok r) :
  let s' := (run memory_server (Auth.reconcileSpec ap) s).1.1 in
  let again := run memory_server (Auth.reconcileSpec ap) s' in
  auth_settled ap s' ∧
  again.1.1 = s' ∧ again.2 = Ok r ∧ Forall (λ e, idle s' (ev_call e)) again.1.2 ∧
  rewritten ap s' (write_calls again.1.2).
Proof.
  intros s' again.
  destruct (exec_auth_reconcileSpec ap s s' r Hwf) as (Hset & Hwf' & ->); [by apply exec_run|].
  destruct (auth_settled_rewrites ap s' Hwf' Hset) as (ws & (t & Hrun & Ht & <-) & Hw).
  unfold again. by rewrite Hrun.
Qed.

(** *** A policy on the sample route *)

Definition guarded_route : AuthPolicy :=
  set_spec sample_ap {| ap_TargetRef := ap_TargetRef (spec sample_ap); AuthRules := [];
                        AuthScheme := Some {| acs_Hosts := ["api.com"]; acs_rest := "oidc" |} |}.
Definition sample_auth_run (s : store) : store * list event * outcome Result :=
  run memory_server (@Auth.reconcileSpec default_apimachinery no_environment guarded_route) s.

Lemma auth_reconcileSpec_settles_witness :
  length (map_to_list ((sample_auth_run cluster).1.1 KAuthorizationPolicy)) = 1%nat ∧
  (sample_auth_run (sample_auth_run cluster).1.1).1.1 = (sample_auth_run cluster).1.1 ∧
  (λ e, is_write (ev_call e)) <$> (sample_auth_run (sample_auth_run cluster).1.1).1.2 =
    [false; false; false; false; false; true; false; true].
Proof.
  split; [vm_compute; reflexivity|]. split; [|vm_compute; reflexivity].
  assert ((sample_auth_run cluster).2 = Ok no_requeue) as Hok by (vm_compute; reflexivity).
  by destruct (auth_reconcileSpec_settles default_apimachinery no_environment guarded_route cluster
    no_requeue cluster_wf Hok) as (_ & Hsame & _).
Defined.
