(* ===== verification/Conduct.v ===== *)
(** * The conduct of the reconcilers

    Everything the two reconcilers send to the server, as the rights they need:
    each right says which object may be written, in terms of objects that were
    read.  A reconciliation keeps to them whatever the answers are, so an
    invariant of the cluster follows when the rights preserve it. *)
From S2P Require Import Prelude GoStrings Hostname KubeTypes CommonUtils RouteRules PolicyTypes.
From S2P Require Import LimitIndex Json GatewayRefs Client Guarantee Apimachinery.
From S2P Require Import BaseReconciler TargetRef JsonText JsonStruct WasmJson WasmConfig.
From S2P Require Import RateLimitLimits RateLimitIstio RateLimitController AuthController.

Open Scope go_scope.

(** ** Changes of the references, in place *)

Lemma AddRLP_told `{RefCodec} g k g' b :
  AddRLP g k = (g', b) → if b : bool then is_Some g ∧ is_Some g' else g' = g.
Proof. unfold AddRLP. intros Heq. repeat case_match; simplify_eq; eauto. Qed.

Lemma DeleteRLP_told `{RefCodec} g k g' b :
  DeleteRLP g k = (g', b) → if b : bool then is_Some g ∧ is_Some g' else g' = g.
Proof. unfold DeleteRLP. cbn zeta. intros Heq. repeat case_match; simplify_eq; eauto. Qed.

(** ** Rights *)

Section conduct.
Context `{ApimachineryOk, Environment, RefCodec, MapRange, GoSort}.
Context `{StructCodecOk, PatchCodec, ConditionCodec}.
Context (told : ∀ k : Kind, obj k → Prop) (sends : call → Prop).
Context (reading : ∀ c, reads c → sends c).

Local Abbreviation guards := (keeps told sends).
Local Abbreviation guards_request := (keeps_request (told:=told) (sends:=sends)).

(** To write and delete objects of a kind at will. *)
Definition may_write (k : Kind) : Prop :=
  ∀ o : obj k, sends (Create k o) ∧ sends (Update k o) ∧ sends (Delete k o).

(** The policy is being deleted: it was read with a deletion timestamp. *)
Definition leaving (policy : Kind) (pk : ObjectKey) : Prop :=
  ∃ o : obj policy,
    told policy o ∧ ObjectKeyFromObject o = pk ∧ is_Some (meta_DeletionTimestamp (ometa o)).

(** To set the annotation [ann] of a target to the policy [pk], or remove it
    when the policy is being deleted. *)
Record may_hold (policy : Kind) (ann : string) (pk : ObjectKey) : Prop := {
  hold_set k (o : obj k) :
    k = KGateway ∨ k = KHTTPRoute → told k o → entries (GetAnnotations o) !! ann = None →
    sends (Update k (SetAnnotations o (<[ann:=key_String pk]> (entries (GetAnnotations o)))));
  hold_release k (o : obj k) v :
    leaving policy pk → k = KGateway ∨ k = KHTTPRoute → told k o → entries (GetAnnotations o) !! ann = Some v →
    sends (Update k (SetAnnotations o (delete ann (entries (GetAnnotations o)))))
}.

(** To add the policy to the references of a gateway, or remove it. *)
Record may_refer (pk : ObjectKey) : Prop := {
  refer_add (g g' : Gateway) :
    told KGateway g → AddRLP (Some g) pk = (Some g', true) → sends (Update KGateway g');
  refer_remove (g g' : Gateway) :
    told KGateway g → DeleteRLP (Some g) pk = (Some g', true) → sends (Update KGateway g')
}.

(** To configure the filter of a gateway. *)
Record may_filter : Prop := {
  filter_create (wp : WasmPlugin) :
    is_ok (WASMPluginFromStruct (wp_PluginConfig (spec wp))) → sends (Create KWasmPlugin wp);
  filter_update (o wp o' : WasmPlugin) :
    told KWasmPlugin o → is_ok (WASMPluginFromStruct (wp_PluginConfig (spec wp))) →
    mutate_wasm_plugin o wp = Ok (o', true) → sends (Update KWasmPlugin o');
  filter_delete (wp : WasmPlugin) : sends (Delete KWasmPlugin wp)
}.

(** A policy as it was read, or with the finalizer added to that. *)
Definition known_as {k} (finalizer : string) (o : obj k) : Prop :=
  ∃ o0, told k o0 ∧ (o = o0 ∨
    finalizer ∉ meta_Finalizers (ometa o0) ∧ o = set_meta o0 (AddFinalizer (ometa o0) finalizer)).

(** To change the finalizer and the status of the policy [pk]. *)
Record may_finalize (k : Kind) (finalizer : string) (pk : ObjectKey) : Prop := {
  finalize_add (o : obj k) :
    told k o → ObjectKeyFromObject o = pk → finalizer ∉ meta_Finalizers (ometa o) →
    sends (Update k (set_meta o (AddFinalizer (ometa o) finalizer)));
  finalize_remove (o : obj k) :
    told k o → ObjectKeyFromObject o = pk → is_Some (meta_DeletionTimestamp (ometa o)) →
    sends (Update k (set_meta o (RemoveFinalizer (ometa o) finalizer)))
}.

Definition may_report_rate_limit (pk : ObjectKey) : Prop :=
  ∀ (rlp : RateLimitPolicy) c limits,
    known_as (k:=KRateLimitPolicy) rateLimitPolicyFinalizer rlp → ObjectKeyFromObject rlp = pk →
    cond_Type c = RLPAvailableConditionType →
    sends (UpdateStatus KRateLimitPolicy (set_status rlp
      {| rlp_ObservedGeneration := meta_Generation (ometa rlp);
         rlp_Conditions := SetStatusCondition (rlp_Conditions (status rlp)) c;
         GatewaysRateLimits := limits |})).

Definition may_report_auth (pk : ObjectKey) : Prop :=
  ∀ (ap : AuthPolicy) c,
    known_as (k:=KAuthPolicy) authPolicyFinalizer ap → ObjectKeyFromObject ap = pk →
    cond_Type c = APAvailableConditionType →
    sends (UpdateStatus KAuthPolicy (set_status ap
      {| ap_ObservedGeneration := meta_Generation (ometa ap);
         ap_Conditions := SetStatusCondition (ap_Conditions (status ap)) c |})).

Record rate_limit_rights (pk : ObjectKey) : Prop := {
  rl_hold : may_hold KRateLimitPolicy RateLimitPolicyBackRefAnnotation pk;
  rl_refer : may_refer pk;
  rl_filter : may_filter;
  rl_envoy : may_write KEnvoyFilter;
  rl_limitador (o : obj KLimitador) : sends (Update KLimitador o);
  rl_finalize : may_finalize KRateLimitPolicy rateLimitPolicyFinalizer pk;
  rl_report : may_report_rate_limit pk
}.

Record auth_rights (pk : ObjectKey) : Prop := {
  auth_hold : may_hold KAuthPolicy AuthPolicyBackRefAnnotation pk;
  auth_policy : may_write KAuthorizationPolicy;
  auth_config : may_write KAuthConfig;
  auth_finalize : may_finalize KAuthPolicy authPolicyFinalizer pk;
  auth_report : may_report_auth pk
}.

(** ** What the reconcilers do with them *)

#[local] Hint Extern 1 (sends _) => apply reading; reflexivity : kuadrant.

(** *** Objects *)

Lemma keeps_Get k key :
  guards (λ o, told k o ∧ ObjectKeyFromObject o = key) (request (Get k key)).
Proof. by apply (guards_request (Get k key)), reading. Qed.

Lemma keeps_UpdateResource k (o : obj k) :
  sends (Update k o) →
  guards (λ o', told k o' ∧ ObjectKeyFromObject o' = ObjectKeyFromObject o) (UpdateResource o).
Proof. intros Ho. by apply (guards_request (Update k o)). Qed.

Lemma keeps_UpdateResourceStatus k (o : obj k) :
  sends (UpdateStatus k o) → guards (λ _, True) (UpdateResourceStatus o).
Proof. intros Ho. by eapply keeps_any, (guards_request (UpdateStatus k o)). Qed.

Lemma keeps_reads {A} (p : prog A) : emits reads p → guards (λ _, True) p.
Proof. intros Hp. apply keeps_emits. eapply emits_mono; [|exact Hp]. apply reading. Qed.

Lemma keeps_loop_any {X} (body : unit → X → prog unit) s l :
  (∀ s x, guards (λ _, True) (body s x)) → guards (λ _, True) (loop body s l).
Proof. intros Hb. eapply (keeps_loop _ (λ _, True)); [done|by apply Forall_true|auto]. Qed.

(** *** Back references *)

Definition target_told (target : client_Object) : Prop :=
  match target with AnObject k o => told k o ∧ (k = KGateway ∨ k = KHTTPRoute) end.

Lemma keeps_FetchValidTargetRef t ns : guards target_told (FetchValidTargetRef t ns).
Proof.
  unfold FetchValidTargetRef.
  destruct (IsTargetRefHTTPRoute t); [|destruct (IsTargetRefGateway t); [|done]].
  - unfold FetchValidHTTPRoute, get_route. eapply (keeps_bind (told KHTTPRoute)).
    + eapply keeps_bind; [apply keeps_Get|]. intros r [Hr _]. by case_match.
    + intros r Hr. simpl. auto.
  - unfold FetchValidGateway, get_gateway. eapply (keeps_bind (told KGateway)).
    + eapply keeps_bind; [apply keeps_Get|]. intros g [Hg _]. by case_match.
    + intros g Hg. simpl. auto.
Qed.

Lemma keeps_ReconcileTargetBackReference policy ann pk t ns :
  may_hold policy ann pk → guards (λ _, True) (ReconcileTargetBackReference pk t ns ann).
Proof.
  intros Hold. eapply keeps_bind; [apply keeps_FetchValidTargetRef|].
  intros [k o] [Ho Hk]. cbn zeta iota.
  destruct (entries (GetAnnotations o) !! ann) eqn:Ha; [by case_match|].
  apply keeps_ignore; [|done]. by eapply keeps_any, keeps_UpdateResource, hold_set.
Qed.

Lemma keeps_DeleteTargetBackReference policy ann pk t ns :
  may_hold policy ann pk → leaving policy pk →
  guards (λ _, True) (DeleteTargetBackReference pk t ns ann).
Proof.
  intros Hold Hleave. eapply keeps_bind; [apply keeps_attempt, keeps_FetchValidTargetRef|].
  intros [[k o]|err] Ho; [destruct Ho as [Ho Hk]|by case_match]. cbn zeta iota.
  destruct (entries (GetAnnotations o) !! ann) eqn:Ha; [|done].
  apply keeps_ignore; [|done]. by eapply keeps_any, keeps_UpdateResource, hold_release.
Qed.

(** *** References of gateways *)

Definition wrapper_told (g : GatewayWrapper) : Prop :=
  match g with Some gw => told KGateway gw | None => True end.

(** [change] keeps the gateway, or makes one that may be sent. *)
Definition may_change (change : GatewayWrapper → GatewayWrapper * bool) : Prop :=
  ∀ g g' b, wrapper_told g → change g = (g', b) →
    if b : bool then ∃ gw, g' = Some gw ∧ sends (Update KGateway gw) else g' = g.

Lemma may_add pk : may_refer pk → may_change (λ g, AddRLP g pk).
Proof.
  intros Hrefer g g' b Hg Hch. pose proof (AddRLP_told g pk g' b Hch) as Hb.
  destruct b; [|done]. destruct Hb as [[gw ->] [gw' ->]]. exists gw'. split; [done|].
  by eapply refer_add.
Qed.

Lemma may_remove pk : may_refer pk → may_change (λ g, DeleteRLP g pk).
Proof.
  intros Hrefer g g' b Hg Hch. pose proof (DeleteRLP_told g pk g' b Hch) as Hb.
  destruct b; [|done]. destruct Hb as [[gw ->] [gw' ->]]. exists gw'. split; [done|].
  by eapply refer_remove.
Qed.

Lemma keeps_update_references change :
  may_change change →
  ∀ acc g, Forall wrapper_told acc → wrapper_told g →
  guards (Forall wrapper_told) (update_references change acc g).
Proof.
  intros Hch acc g Hacc Hg. unfold update_references. destruct (change g) as [g' b] eqn:Hg'.
  specialize (Hch g g' b Hg Hg'). destruct b.
  - destruct Hch as (gw & -> & Hs).
    eapply keeps_bind; [by apply keeps_UpdateResource|]. intros gw' [Hgw' _].
    apply Forall_app. split; [done|]. by constructor.
  - subst g'. assert (Forall wrapper_told (acc ++ [g])) by
      (apply Forall_app; split; [done|]; by constructor).
    by destruct g.
Qed.

(** The gateways of a diff, as they were read. *)
Definition diff_told (d : gatewayDiff) : Prop :=
  Forall wrapper_told (gd_New d) ∧ Forall wrapper_told (gd_Same d) ∧ Forall wrapper_told (gd_Left d).

Lemma keeps_reconcileGatewayRLPReferences (rlp : RateLimitPolicy) d :
  may_refer (ObjectKeyFromObject rlp) → diff_told d →
  guards diff_told (reconcileGatewayRLPReferences rlp d).
Proof.
  intros Hrefer (Hn & Hs & Hl). unfold reconcileGatewayRLPReferences.
  eapply keeps_bind; [eapply (keeps_loop (Forall wrapper_told)); [constructor|exact Hl|]|].
  { by apply keeps_update_references, may_remove. }
  intros left_ Hl'.
  eapply keeps_bind; [eapply (keeps_loop (Forall wrapper_told)); [constructor|exact Hn|]|].
  { by apply keeps_update_references, may_add. }
  intros new Hn'. by repeat split.
Qed.

Lemma filtered_wrappers (P : Gateway → Prop) `{!∀ g, Decision (P g)} gws :
  Forall (told KGateway) gws → Forall wrapper_told (Some <$> filter P gws).
Proof.
  rewrite Forall_fmap, !Forall_forall. intros Hgws g [_ Hg]%list_elem_of_filter. by apply Hgws.
Qed.

Definition maybe_diff_told (d : option gatewayDiff) : Prop :=
  match d with Some d => diff_told d | None => True end.

Lemma keeps_computeGatewayDiffs rlp : guards maybe_diff_told (computeGatewayDiffs rlp).
Proof.
  unfold computeGatewayDiffs. apply keeps_ignore; [by apply keeps_reads, emits_TargetedGatewayKeys|].
  intros keys. eapply keeps_bind; [by apply (guards_request ListGateways), reading|].
  intros gws Hgws. cbn -[NewGateways SameGateways LeftGateways].
  repeat split; cbn [gd_New gd_Same gd_Left];
    rewrite ?NewGateways_filter, ?SameGateways_filter, ?LeftGateways_filter;
    by apply filtered_wrappers.
Qed.

(** *** Objects of other operators *)

Lemma keeps_ReconcileResource ko kd (desired : obj kd) mutateFn :
  (IsObjectTaggedToDelete desired = false → sends (Create kd desired)) →
  (IsObjectTaggedToDelete desired = true → sends (Delete kd desired)) →
  (∀ o o', IsObjectTaggedToDelete desired = false → told ko o →
     mutateFn ko kd o desired = Ok (o', true) → sends (Update ko o')) →
  guards (λ _, True) (ReconcileResource ko desired mutateFn).
Proof.
  intros Hc Hd Hu. unfold ReconcileResource.
  eapply keeps_bind; [apply keeps_attempt, keeps_Get|].
  intros [o|err] Ho; cbn [answer_ok] in Ho.
  - destruct (IsObjectTaggedToDelete desired) eqn:Ht; [by apply (guards_request (Delete kd _)), Hd|].
    destruct (mutateFn ko kd o desired) as [[o' []]|e|m] eqn:Hmut; [|done..].
    cbn [prog_bind fst snd]. apply keeps_ignore; [|done].
    eapply keeps_any, keeps_UpdateResource. eapply Hu; [done|apply Ho|done].
  - destruct (negb (IsNotFound err)); [done|].
    destruct (IsObjectTaggedToDelete desired); [done|]. cbn [negb]. apply keeps_ignore; [|done].
    by eapply keeps_any, (guards_request (Create kd desired)), Hc.
Qed.

Lemma keeps_ReconcileResource_any k (desired : obj k) mutateFn :
  may_write k → guards (λ _, True) (ReconcileResource k desired mutateFn).
Proof. intros Hk. apply keeps_ReconcileResource; intros; apply Hk. Qed.

Lemma ToStruct_ok w v : ToStruct w = Ok v → is_ok (WASMPluginFromStruct (Some v)).
Proof. intros Hv. by rewrite (ToStruct_FromStruct w v Hv). Qed.

(** A filter that is not to be deleted has a configuration that can be read. *)
Lemma keeps_gatewayWASMPlugin gw refs :
  guards (λ wp, IsObjectTaggedToDelete wp = false →
            is_ok (WASMPluginFromStruct (wp_PluginConfig (spec wp)))) (gatewayWASMPlugin gw refs).
Proof.
  destruct gw as [g|]; [|done]. unfold gatewayWASMPlugin.
  destruct (length refs <? 1)%nat; [by cbn [keeps ret]; rewrite IsObjectTaggedToDelete_Tag|].
  apply keeps_ignore; [by apply keeps_reads, emits_wasmPluginConfig|].
  intros [config|]; [|by cbn [keeps ret]; rewrite IsObjectTaggedToDelete_Tag].
  destruct (ToStruct config) as [v|e|m] eqn:Hv; [|done..]. intros _. by apply (ToStruct_ok config).
Qed.

Lemma keeps_reconcileWASMPluginConf rlp d :
  may_filter → guards (λ _, True) (reconcileWASMPluginConf rlp d).
Proof.
  intros Hf.
  assert (∀ refs u gw, guards (λ _, True) (reconcile_wasm_plugin refs u gw)) as Hstep.
  { intros refs u gw. eapply keeps_bind; [apply keeps_gatewayWASMPlugin|]. intros wp Hwp.
    apply keeps_ReconcileResource.
    - intros Ht. by apply (filter_create Hf wp), Hwp.
    - intros _. by apply (filter_delete Hf wp).
    - intros o o' Ht Ho Hm. eapply (filter_update Hf o wp); [done|by apply Hwp|exact Hm]. }
  unfold reconcileWASMPluginConf.
  repeat (apply keeps_ignore; [by apply keeps_loop_any|intros _]). done.
Qed.

Lemma keeps_envoy rlp d :
  may_write KEnvoyFilter → guards (λ _, True) (reconcileRateLimitingClusterEnvoyFilter rlp d).
Proof.
  intros Hw. apply keeps_emits. apply emits_reconcileRateLimitingClusterEnvoyFilter;
    intros; try (by apply reading); apply Hw.
Qed.

Lemma keeps_reconcileLimits rlp d :
  (∀ o, sends (Update KLimitador o)) → guards (λ _, True) (reconcileLimits rlp d).
Proof. intros Hw. apply keeps_emits, emits_reconcileLimits; intros; try (by apply reading); auto. Qed.

(** *** RateLimitPolicy *)

Section rate_limit.
Context (pk : ObjectKey) (rights : rate_limit_rights pk).

Lemma keeps_reconcileGatewayDiffs (rlp : RateLimitPolicy) :
  ObjectKeyFromObject rlp = pk → guards (λ _, True) (reconcileGatewayDiffs rlp).
Proof.
  intros Hk. destruct rights as [Hh Hr Hf He Hl _ _].
  eapply keeps_bind; [apply keeps_computeGatewayDiffs|]. intros [d|] Hd; [|done].
  apply keeps_ignore; [by apply keeps_reconcileLimits|intros _].
  apply keeps_ignore; [by apply keeps_envoy|intros _].
  apply keeps_ignore; [by apply keeps_reconcileWASMPluginConf|intros _].
  apply keeps_ignore; [|done].
  eapply keeps_any, keeps_reconcileGatewayRLPReferences; [by rewrite Hk|done].
Qed.

Lemma keeps_reconcileSpec (rlp : RateLimitPolicy) :
  ObjectKeyFromObject rlp = pk → guards (λ _, True) (reconcileSpec rlp).
Proof.
  intros Hk. unfold reconcileSpec. apply keeps_ignore; [by destruct (RLP.Validate rlp)|intros _].
  apply keeps_ignore; [by apply keeps_reads, emits_validateRuleHosts|intros _].
  apply keeps_ignore.
  { eapply keeps_ReconcileTargetBackReference. rewrite Hk. apply rights. }
  intros _. by apply keeps_ignore; [apply keeps_reconcileGatewayDiffs|].
Qed.

Lemma keeps_computeFinalizeGatewayDiff rlp :
  guards maybe_diff_told (computeFinalizeGatewayDiff rlp).
Proof.
  unfold computeFinalizeGatewayDiff. apply keeps_ignore.
  { by eapply keeps_any, keeps_attempt, keeps_reads, emits_TargetedGatewayKeys. }
  intros keys. apply keeps_ignore; [by destruct keys; [|case_match]|]. intros gwKeys.
  eapply keeps_bind; [eapply (keeps_loop (Forall wrapper_told) (λ _, True));
    [constructor|by apply Forall_true|]|].
  - intros acc key Hacc _. unfold fetch_left_gateway.
    eapply keeps_bind; [apply keeps_attempt, keeps_Get|].
    intros [g|err] Hg; [|by case_match]. apply Forall_app. split; [done|].
    constructor; [apply Hg|constructor].
  - intros l Hl. split; [constructor|]. split; [constructor|done].
Qed.

Lemma keeps_finalizeRLP (rlp : RateLimitPolicy) :
  ObjectKeyFromObject rlp = pk → leaving KRateLimitPolicy pk →
  guards (λ _, True) (finalizeRLP rlp).
Proof.
  intros Hk Hleave. destruct rights as [Hh Hr Hf He Hl _ _].
  eapply keeps_bind; [apply keeps_computeFinalizeGatewayDiff|]. intros [d|] Hd; [|done].
  eapply keeps_bind; [apply keeps_reconcileGatewayRLPReferences; [by rewrite Hk|done]|].
  intros d' Hd'.
  apply keeps_ignore; [by apply keeps_reconcileWASMPluginConf|intros _].
  apply keeps_ignore; [by apply keeps_envoy|intros _].
  apply keeps_ignore.
  - apply keeps_ignore; [by eapply keeps_any, keeps_attempt, keeps_reconcileLimits|].
    intros [|]; [done|by case_match].
  - intros _. by eapply keeps_DeleteTargetBackReference; rewrite Hk.
Qed.

Lemma keeps_reconcileStatus (rlp : RateLimitPolicy) specErr :
  known_as (k:=KRateLimitPolicy) rateLimitPolicyFinalizer rlp → ObjectKeyFromObject rlp = pk →
  guards (λ _, True) (reconcileStatus rlp specErr).
Proof.
  intros Hknown Hk. eapply (keeps_bind (λ st, ∃ c, cond_Type c = RLPAvailableConditionType ∧
    rlp_Conditions st = SetStatusCondition (rlp_Conditions (status rlp)) c)).
  - unfold calculateStatus. apply keeps_ignore.
    + destruct (IsTargetRefHTTPRoute _); [|done]. apply keeps_ignore; [|done].
      apply keeps_reads. unfold gatewaysRateLimits, gateway_rate_limits.
      pose proof (emits_TargetedGatewayKeys reads (λ _, eq_refl)). emits_auto.
    + intros grl. exists (availableCondition specErr). cbn. rewrite CopyConditions_id.
      split; [by destruct specErr|done].
  - intros st (c & Ht & Hc). cbn zeta. case_match; [done|]. apply keeps_ignore.
    + eapply keeps_any, keeps_attempt, keeps_UpdateResourceStatus. rewrite Hc.
      by apply (rl_report _ rights).
    + intros [|]; [done|by case_match].
Qed.

(** The end of the live part of both reconcilers. *)
Definition conclude (specErr : option error) (statusRes : answer Result) :
  prog (Result * option error) :=
  match specErr with
  | Some specErr => ret (no_requeue, Some specErr)
  | None =>
      match statusRes with
      | Failure statusErr => ret (no_requeue, Some statusErr)
      | Success statusResult =>
          if Requeue statusResult then ret (statusResult, None)
          else ret (no_requeue, None)
      end
  end.

Lemma keeps_conclude specErr statusRes : guards (λ _, True) (conclude specErr statusRes).
Proof. unfold conclude. by repeat case_match. Qed.

Lemma keeps_reconcile_live (rlp : RateLimitPolicy) :
  known_as (k:=KRateLimitPolicy) rateLimitPolicyFinalizer rlp → ObjectKeyFromObject rlp = pk →
  guards (λ _, True) (reconcile_live rlp).
Proof.
  intros Hknown Hk. apply keeps_ignore; [by eapply keeps_any, keeps_attempt, keeps_reconcileSpec|].
  intros specRes. cbn zeta. case_match; [done|]. apply keeps_ignore.
  - by eapply keeps_any, keeps_attempt, keeps_reconcileStatus.
  - apply keeps_conclude.
Qed.

(** After the finalizer was written: the policy is what the server returned, or,
    when it was not found, what was sent. *)
Lemma known_told {k} f (o : obj k) : told k o → known_as f o.
Proof. intros Ho. exists o. auto. Qed.

Lemma known_added {k} f (o : obj k) :
  told k o → f ∉ meta_Finalizers (ometa o) →
  known_as f (set_meta o (AddFinalizer (ometa o) f)).
Proof. intros Ho Hf. exists o. auto. Qed.

Lemma AddFinalizer_key {k} f (o : obj k) :
  f ∉ meta_Finalizers (ometa o) →
  ObjectKeyFromObject (set_meta o (AddFinalizer (ometa o) f)) = ObjectKeyFromObject o.
Proof. intros Hf. by rewrite AddFinalizer_eq. Qed.

Lemma ContainsFinalizer_false m f : negb (ContainsFinalizer m f) = true → f ∉ meta_Finalizers m.
Proof. rewrite negb_true_iff, <- ContainsFinalizer_iff. by intros ->. Qed.

Lemma keeps_Reconcile : guards (λ _, True) (Reconcile pk).
Proof.
  pose proof (rl_finalize _ rights) as Hf.
  eapply keeps_bind; [apply keeps_attempt, keeps_Get|].
  intros [rlp|err] Ho; cbn [answer_ok] in Ho; [destruct Ho as [Ho Hk]|by case_match].
  destruct (_ && _) eqn:Hd.
  { apply andb_prop in Hd as [Hd%bool_decide_eq_true_1 _].
    apply keeps_ignore.
    { eapply keeps_any, keeps_attempt, keeps_finalizeRLP; [done|by exists rlp]. }
    intros [_|]; [|done]. apply keeps_ignore; [|by intros [|]].
    by eapply keeps_any, keeps_attempt, keeps_UpdateResource, (finalize_remove _ _ _ Hf). }
  destruct (bool_decide _); [done|].
  destruct (negb _) eqn:Hc; [|apply keeps_reconcile_live; [by apply known_told|done]].
  apply ContainsFinalizer_false in Hc.
  pose proof (AddFinalizer_key (k:=KRateLimitPolicy) _ rlp Hc) as Hadd.
  eapply keeps_bind; [by apply keeps_attempt, keeps_UpdateResource, (finalize_add _ _ _ Hf)|].
  intros [rlp'|err] Ho'; cbn [answer_ok] in Ho'.
  - destruct Ho' as [Ho' Hk'].
    apply keeps_reconcile_live; [by apply known_told|exact (eq_trans Hk' (eq_trans Hadd Hk))].
  - destruct (IgnoreNotFound err); [done|].
    apply keeps_reconcile_live; [by apply (known_added (k:=KRateLimitPolicy))|exact (eq_trans Hadd Hk)].
Qed.
End rate_limit.

(** *** AuthPolicy *)

Section auth.
Context (pk : ObjectKey) (rights : auth_rights pk).

Lemma keeps_auth_reconcileSpec (ap : AuthPolicy) :
  ObjectKeyFromObject ap = pk → guards (λ _, True) (Auth.reconcileSpec ap).
Proof.
  intros Hk. destruct rights as [Hh Hp Hc _ _]. unfold Auth.reconcileSpec.
  apply keeps_ignore; [by destruct (AP.Validate ap)|intros _].
  apply keeps_ignore.
  { by apply keeps_reads, emits_enforceHierarchicalConstraints. }
  intros _. apply keeps_ignore.
  { eapply keeps_ReconcileTargetBackReference. by rewrite Hk. }
  intros _. apply keeps_ignore.
  { apply keeps_emits, emits_reconcileAuthRules; intros; try (by apply reading); apply Hp. }
  intros _. apply keeps_ignore; [|done].
  apply keeps_emits, emits_reconcileAuthSchemes; intros; try (by apply reading); apply Hc.
Qed.

Lemma keeps_remove_all (ap : AuthPolicy) :
  ObjectKeyFromObject ap = pk → leaving KAuthPolicy pk →
  guards (λ _, True) (Auth.remove_all ap).
Proof.
  intros Hk Hleave. destruct rights as [Hh Hp Hc _ _]. unfold Auth.remove_all.
  apply keeps_ignore.
  { apply keeps_emits, emits_removeIstioAuthPolicy; intros; try (by apply reading); apply Hp. }
  intros _. apply keeps_ignore.
  { apply keeps_emits, emits_removeAuthSchemes; intros; try (by apply reading); apply Hc. }
  intros _. by eapply keeps_DeleteTargetBackReference; rewrite Hk.
Qed.

Lemma keeps_auth_reconcileStatus (ap : AuthPolicy) specErr :
  known_as (k:=KAuthPolicy) authPolicyFinalizer ap → ObjectKeyFromObject ap = pk →
  guards (λ _, True) (Auth.reconcileStatus ap specErr).
Proof.
  intros Hknown Hk. unfold Auth.reconcileStatus. apply keeps_ignore.
  { destruct specErr; [done|]. apply keeps_reads. emits_auto. }
  intros ready. cbn zeta. case_match; [done|]. apply keeps_ignore.
  - eapply keeps_any, keeps_attempt, keeps_UpdateResourceStatus.
    unfold Auth.calculateStatus. rewrite CopyConditions_id. apply (auth_report _ rights); [done..|].
    unfold Auth.availableCondition. by repeat case_match.
  - intros [|]; [done|by case_match].
Qed.

Lemma keeps_auth_reconcile_live (ap : AuthPolicy) :
  known_as (k:=KAuthPolicy) authPolicyFinalizer ap → ObjectKeyFromObject ap = pk →
  guards (λ _, True) (Auth.reconcile_live ap).
Proof.
  intros Hknown Hk. apply keeps_ignore; [by eapply keeps_any, keeps_attempt, keeps_auth_reconcileSpec|].
  intros specRes. cbn zeta. case_match; [done|]. apply keeps_ignore.
  - by eapply keeps_any, keeps_attempt, keeps_auth_reconcileStatus.
  - apply keeps_conclude.
Qed.

Lemma keeps_auth_Reconcile : guards (λ _, True) (Auth.Reconcile pk).
Proof.
  pose proof (auth_finalize _ rights) as Hf.
  eapply keeps_bind; [apply keeps_attempt, keeps_Get|].
  intros [ap|err] Ho; cbn [answer_ok] in Ho; [destruct Ho as [Ho Hk]|by case_match].
  destruct (_ && _) eqn:Hd.
  { apply andb_prop in Hd as [Hd%bool_decide_eq_true_1 _].
    apply keeps_ignore.
    { eapply keeps_any, keeps_attempt, keeps_remove_all; [done|by exists ap]. }
    intros [_|]; [|done]. apply keeps_ignore; [|by intros [|]].
    by eapply keeps_any, keeps_attempt, keeps_UpdateResource, (finalize_remove _ _ _ Hf). }
  destruct (bool_decide _); [done|].
  destruct (negb _) eqn:Hc; [|apply keeps_auth_reconcile_live; [by apply known_told|done]].
  apply ContainsFinalizer_false in Hc.
  pose proof (AddFinalizer_key (k:=KAuthPolicy) _ ap Hc) as Hadd.
  eapply keeps_bind; [by apply keeps_attempt, keeps_UpdateResource, (finalize_add _ _ _ Hf)|].
  intros [ap'|err] Ho'; cbn [answer_ok] in Ho'.
  - destruct Ho' as [Ho' Hk'].
    apply keeps_auth_reconcile_live; [by apply known_told|exact (eq_trans Hk' (eq_trans Hadd Hk))].
  - destruct (IgnoreNotFound err); [done|].
    apply keeps_auth_reconcile_live; [by apply (known_added (k:=KAuthPolicy))|exact (eq_trans Hadd Hk)].
Qed.
End auth.
End conduct.

