(* ===== verification/ObjectTypes.v ===== *)
(** * Well-typed objects under any interleaving

    What the text fields of the stored objects mean, as an invariant of the
    cluster, and a system in which any number of reconciliations of both kinds
    run at once: the calls of all of them are interleaved in any order, answers
    get lost, the process stops, and users change objects in between. *)
From stdpp Require Import relations.
From S2P Require Import Prelude GoStrings Hostname KubeTypes CommonUtils RouteRules PolicyTypes.
From S2P Require Import LimitIndex Json GatewayRefs Client Apimachinery.
From S2P Require Import BaseReconciler TargetRef Runs JsonText JsonStruct WasmJson WasmConfig.
From S2P Require Import Samples RateLimitLimits RateLimitIstio LimitadorSteady RateLimitController.
From S2P Require Import SteadyState AuthController Guarantee Conduct.

Open Scope go_scope.

(** ** Well-typed objects *)

Section types.
Context `{Apimachinery, RefCodec, StructCodec}.

(** The annotations the controller reads: the references of a gateway are a
    list of keys without duplicates, a back reference is the text of a key. *)
Definition annotation_ok (name value : string) : Prop :=
  (name = KuadrantRateLimitPolicyRefAnnotation →
     ∃ refs, unmarshal_refs value = Ok refs ∧ NoDup refs) ∧
  (name = RateLimitPolicyBackRefAnnotation ∨ name = AuthPolicyBackRefAnnotation →
     ∃ key, value = key_String key).

Definition annotations_ok (m : ObjectMeta) : Prop :=
  map_Forall annotation_ok (entries (meta_Annotations m)).

Definition meta_ok (k : Kind) (m : ObjectMeta) : Prop :=
  match k with KGateway | KHTTPRoute => annotations_ok m | _ => True end.

Definition spec_ok (k : Kind) : spec_of k → Prop :=
  match k with
  | KWasmPlugin => λ sp, is_ok (WASMPluginFromStruct (wp_PluginConfig sp))
  | _ => λ _, True
  end.

(** One condition per type. *)
Definition status_ok (k : Kind) : status_of k → Prop :=
  match k with
  | KRateLimitPolicy => λ st, NoDup (cond_Type <$> rlp_Conditions st)
  | KAuthPolicy => λ st, NoDup (cond_Type <$> ap_Conditions st)
  | _ => λ _, True
  end.

Definition object_ok (k : Kind) (o : obj k) : Prop :=
  meta_ok k (ometa o) ∧ spec_ok k (spec o) ∧ status_ok k (status o).

Definition store_ok (s : store) : Prop :=
  store_wf s ∧ ∀ k key o, s k !! key = Some o → object_ok k o.

(** ** Programs that keep objects well typed *)

Definition call_ok (c : call) : Prop :=
  match c with
  | Create k o | Update k o | UpdateStatus k o => object_ok k o
  | Get _ _ | ListGateways | Delete _ _ => True
  end.

(** ** The annotations *)

Lemma annotations_ok_set m name value :
  annotations_ok m → annotation_ok name value →
  annotations_ok (meta_set_annotations m (Some (<[name:=value]> (entries (meta_Annotations m))))).
Proof. intros Hm Hv. by apply map_Forall_insert_2. Qed.

Lemma annotations_ok_delete m name :
  annotations_ok m →
  annotations_ok (meta_set_annotations m (Some (delete name (entries (meta_Annotations m))))).
Proof. intros Hm. by apply map_Forall_delete. Qed.

Lemma gateway_refs_ok (g : Gateway) :
  object_ok KGateway g → refs_readable g ∧ NoDup (RLPRefs (Some g)).
Proof.
  intros (Hm & _ & _). unfold refs_readable, RLPRefs.
  destruct (entries (GetAnnotations g) !! _) as [val|] eqn:Ha;
    [|split; [done|apply NoDup_nil_2]].
  apply (map_Forall_lookup_1 _ _ _ _ Hm) in Ha as [Hrefs _].
  destruct Hrefs as (refs & -> & Hnd); [done|]. done.
Qed.

Lemma refs_annotation_ok `{!RefCodecOk} refs serialized :
  marshal_refs refs = Ok serialized → NoDup refs →
  annotation_ok KuadrantRateLimitPolicyRefAnnotation serialized.
Proof.
  intros Hs Hnd. split; [|by intros [|]].
  exists refs. split; [by apply unmarshal_marshal_refs|done].
Qed.

Lemma back_annotation_ok ann key :
  ann = RateLimitPolicyBackRefAnnotation ∨ ann = AuthPolicyBackRefAnnotation →
  annotation_ok ann (key_String key).
Proof. intros Hann. split; [by destruct Hann as [-> | ->]|]. by exists key. Qed.
End types.

(** ** The rights of the reconcilers keep objects well typed *)

Section rights.
Context `{ApimachineryOk, Environment, RefCodecOk, MapRange, GoSort}.
Context `{StructCodecOk, PatchCodec, ConditionCodec}.

Lemma reads_ok c : reads c → call_ok c.
Proof. by destruct c. Qed.

(** An update of the annotations of a target. *)
Lemma target_object_ok k (o : obj k) a :
  k = KGateway ∨ k = KHTTPRoute → object_ok k o →
  annotations_ok (meta_set_annotations (ometa o) (Some a)) → object_ok k (SetAnnotations o a).
Proof. intros [-> | ->] (_ & Hs & Ht) Ha; (split; [exact Ha|by split]). Qed.

Lemma target_annotations_ok k (o : obj k) :
  k = KGateway ∨ k = KHTTPRoute → object_ok k o → annotations_ok (ometa o).
Proof. by intros [-> | ->] (Hm & _). Qed.

Lemma may_hold_ok policy ann pk :
  ann = RateLimitPolicyBackRefAnnotation ∨ ann = AuthPolicyBackRefAnnotation →
  may_hold object_ok call_ok policy ann pk.
Proof.
  intros Hann. split; intros k o; [|intros v _]; intros Hk Ho _; apply target_object_ok; try done.
  - apply annotations_ok_set; [by apply target_annotations_ok|by apply back_annotation_ok].
  - by apply annotations_ok_delete, target_annotations_ok.
Qed.

(** *** References of gateways *)

Lemma set_refs_ok (g : Gateway) refs serialized :
  object_ok KGateway g → marshal_refs refs = Ok serialized → NoDup refs →
  object_ok KGateway (SetAnnotations g
    (<[KuadrantRateLimitPolicyRefAnnotation:=serialized]> (entries (GetAnnotations g)))).
Proof.
  intros Hg Hs Hnd. apply target_object_ok; [by left|done|].
  apply annotations_ok_set; [by apply (target_annotations_ok KGateway); [left|]|].
  by eapply refs_annotation_ok.
Qed.

Lemma remove_at_sublist {A} i (l : list A) : remove_at i l `sublist_of` l.
Proof.
  unfold remove_at. rewrite <- (take_drop i l) at 3. apply sublist_app; [done|].
  replace (S i) with (i + 1)%nat by lia. rewrite <- drop_drop. apply sublist_drop.
Qed.

Lemma AddRLP_ok (g g' : Gateway) k :
  object_ok KGateway g → AddRLP (Some g) k = (Some g', true) → object_ok KGateway g'.
Proof.
  intros Hg. pose proof (gateway_refs_ok g Hg) as [_ Hnd].
  revert Hnd. unfold AddRLP, RLPRefs.
  destruct (entries (GetAnnotations g) !! _) as [val|].
  - destruct (unmarshal_refs val) as [refs| |]; [|done..]. intros Hnd.
    destruct (ContainsObjectKey refs k) eqn:Hc; [done|]. apply ContainsObjectKey_false in Hc.
    destruct (marshal_refs (refs ++ [k])) eqn:Hs; [|done..]. intros [= <-].
    eapply set_refs_ok; [done..|]. apply NoDup_app. split; [done|].
    split; [set_solver|apply NoDup_singleton].
  - intros _. destruct (marshal_refs [k]) eqn:Hs; [|done..]. intros [= <-].
    eapply set_refs_ok; [done..|apply NoDup_singleton].
Qed.

Lemma DeleteRLP_ok (g g' : Gateway) k :
  object_ok KGateway g → DeleteRLP (Some g) k = (Some g', true) → object_ok KGateway g'.
Proof.
  intros Hg. pose proof (gateway_refs_ok g Hg) as [_ Hnd].
  revert Hnd. unfold DeleteRLP, RLPRefs.
  destruct (entries (GetAnnotations g) !! _) as [val|]; [|done].
  destruct (unmarshal_refs val) as [refs| |]; [|done..]. intros Hnd. cbn zeta.
  destruct (negb _) eqn:Hf; [|done].
  destruct (marshal_refs (remove_at _ refs)) eqn:Hs; [|done..]. intros [= <-].
  eapply set_refs_ok; [done..|]. eapply sublist_NoDup; [exact Hnd|apply remove_at_sublist].
Qed.

(** *** Filters *)

Lemma mutate_wasm_plugin_ok (o d o' : WasmPlugin) :
  is_ok (WASMPluginFromStruct (wp_PluginConfig (spec d))) →
  mutate_wasm_plugin o d = Ok (o', true) → object_ok KWasmPlugin o'.
Proof.
  intros Hd. unfold mutate_wasm_plugin.
  destruct (WASMPluginFromStruct (wp_PluginConfig (spec o))) as [we|e|m]; [|done..].
  destruct (WASMPluginFromStruct (wp_PluginConfig (spec d))) as [wd|e|m] eqn:Hwd; [|done..].
  cbn [outcome_bind]. case_decide; [done|]. intros [= <-]. split; [done|]. split; [|done].
  cbn. by rewrite Hwd.
Qed.

(** *** Policies *)

Lemma may_finalize_ok k f pk :
  k = KRateLimitPolicy ∨ k = KAuthPolicy → may_finalize object_ok call_ok k f pk.
Proof. by intros [-> | ->]; split; intros o (_ & Hs & Ht). Qed.

Lemma known_as_status k f (o : obj k) : known_as object_ok f o → status_ok k (status o).
Proof. by intros (o0 & (_ & _ & Hst) & [-> | [_ ->]]). Qed.

Lemma rate_limit_rights_ok pk : rate_limit_rights object_ok call_ok pk.
Proof.
  split.
  - by apply may_hold_ok; left.
  - split; intros g g' Hg; [by apply AddRLP_ok|by apply DeleteRLP_ok].
  - split; [|intros o wp o' _; apply mutate_wasm_plugin_ok|done]. by intros wp Hwp.
  - done.
  - done.
  - by apply may_finalize_ok; left.
  - intros rlp c limits Hrlp _ _. split; [done|]. split; [done|].
    by apply SetStatusCondition_types, (known_as_status KRateLimitPolicy rateLimitPolicyFinalizer).
Qed.

Lemma auth_rights_ok pk : auth_rights object_ok call_ok pk.
Proof.
  split; [by apply may_hold_ok; right|done..|by apply may_finalize_ok; right|].
  intros ap c Hap _ _. split; [done|]. split; [done|].
  by apply SetStatusCondition_types, (known_as_status KAuthPolicy authPolicyFinalizer).
Qed.
End rights.

(** As long as the answers are well typed, [p] sends well-typed objects only,
    and what it returns satisfies [R]. *)
Abbreviation well_typed := (keeps object_ok call_ok).

(** ** The system *)

Section system.
Context `{ApimachineryOk, Environment, RefCodecOk, MapRange, GoSort}.
Context `{StructCodecOk, PatchCodec, ConditionCodec}.

(** A reconciliation that was started: what is left of it. *)
Definition process : Type := prog (Result * option error).

(** One step: a request is taken up by either reconciler; one of the running
    reconciliations makes its next call, which is answered, refused, or carried
    out with the answer lost; the process stops and forgets what it was doing;
    or somebody else writes or deletes an object. *)
Inductive step : store * list process → store * list process → Prop :=
  | step_rate_limit s ps req : step (s, ps) (s, ps ++ [Reconcile req])
  | step_auth s ps req : step (s, ps) (s, ps ++ [Auth.Reconcile req])
  | step_call s ps i c k s' a :
      ps !! i = Some (Do c k) → memory_server s c = (s', a) →
      step (s, ps) (s', <[i:=k a]> ps)
  | step_refused s ps i c k e :
      ps !! i = Some (Do c k) → step (s, ps) (s, <[i:=k (Failure e)]> ps)
  | step_lost s ps i c k s' a e :
      ps !! i = Some (Do c k) → memory_server s c = (s', a) →
      step (s, ps) (s', <[i:=k (Failure e)]> ps)
  | step_restart s ps : step (s, ps) (s, [])
  | step_put s ps k (o : obj k) : object_ok k o → step (s, ps) (store_put s o, ps)
  | step_delete s ps k key : step (s, ps) (store_delete k key s, ps).

Lemma store_put_ok {k} (s : store) (o : obj k) :
  store_ok s → object_ok k o → store_ok (store_put s o).
Proof.
  intros [Hwf Hs] Ho. split; [by apply store_put_wf|]. intros k' key o'.
  destruct (decide (k = k')) as [<-|Hk]; [rewrite store_put_same|rewrite store_put_other by done].
  - rewrite lookup_insert_Some. intros [[_ <-]|[_ Hl]]; [done|by eapply Hs].
  - apply Hs.
Qed.

Lemma store_delete_ok k key (s : store) : store_ok s → store_ok (store_delete k key s).
Proof.
  intros [Hwf Hs]. split; intros k' key' o'; unfold store_delete; case_decide;
    try (rewrite lookup_delete_Some; intros [_ Hl]); eauto.
Qed.

(** The server keeps the objects well typed when the calls are. *)
Lemma memory_server_ok s c :
  store_ok s → call_ok c →
  store_ok (memory_server s c).1 ∧ answer_ok (result_in object_ok c) (memory_server s c).2.
Proof.
  intros Hs Hc. destruct Hs as [Hwf Ho] eqn:HHs. clear HHs.
  destruct c as [k key| |k o|k o|k o|k o]; simpl.
  - split; [done|]. destruct (s k !! key) eqn:Hl; [|done].
    split; [by eapply Ho|by eapply Hwf].
  - split; [done|]. apply Forall_fmap, Forall_forall. intros [key g] Hg%elem_of_map_to_list.
    by eapply (Ho KGateway).
  - destruct (s k !! _); simpl; [done|]. by split; [apply store_put_ok|].
  - destruct (s k !! _); simpl; [|done]. by split; [apply store_put_ok|].
  - destruct (s k !! _) as [old|] eqn:Hl; simpl; [|done].
    assert (object_ok k (set_status old (status o))) as Hnew.
    { destruct (Ho k _ _ Hl) as (Hm & Hsp & _). destruct Hc as (_ & _ & Hst). by repeat split. }
    split; [by apply store_put_ok|]. split; [done|]. by apply (Hwf k) in Hl.
  - destruct (s k !! _); simpl; [|done]. by split; [apply store_delete_ok|].
Qed.

Lemma keeps_run {A} (R : A → Prop) (p : prog A) s :
  store_ok s → well_typed R p → store_ok (run memory_server p s).1.1.
Proof.
  revert s. induction p as [o|c k IH]; intros s Hs; simpl; [done|]. intros [Hc Hk].
  destruct (memory_server_ok s c Hs Hc) as [Hs' Ha].
  destruct (memory_server s c) as [s' a]. specialize (IH a s' Hs' (Hk a Ha)).
  by destruct (run memory_server (k a) s') as [[s2 t] o].
Qed.

Lemma store_refs_ok s : store_ok s → refs_ok s.
Proof.
  intros [_ Ho] g (kv & -> & Hkv)%list_elem_of_fmap. destruct kv as [key gw].
  apply elem_of_map_to_list in Hkv. by apply gateway_refs_ok, (Ho KGateway key).
Qed.

(** The invariant: the store is well typed, and so is whatever the running
    reconciliations will still do. *)
Definition system_ok (c : store * list process) : Prop :=
  store_ok c.1 ∧ Forall (well_typed (λ _, True)) c.2.

Lemma next_call_ok ps i c (k : answer (result_of c) → process) a :
  Forall (well_typed (λ _, True)) ps → ps !! i = Some (Do c k) → answer_ok (result_in object_ok c) a →
  Forall (well_typed (λ _, True)) (<[i:=k a]> ps).
Proof.
  intros Hps Hi Ha. apply Forall_insert; [done|].
  apply (Forall_lookup_1 _ _ _ _ Hps) in Hi as [_ Hk]. by apply Hk.
Qed.

Lemma step_ok c c' : step c c' → system_ok c → system_ok c'.
Proof.
  unfold system_ok.
  destruct 1 as [s ps req|s ps req|s ps i c k s' a Hi Hc|s ps i c k e Hi|s ps i c k s' a e Hi Hc
                |s ps|s ps k o Ho|s ps k key]; simpl; intros [Hs Hps].
  - split; [done|]. apply Forall_app. split; [done|].
    constructor; [by apply keeps_Reconcile; [apply reads_ok|apply rate_limit_rights_ok]|constructor].
  - split; [done|]. apply Forall_app. split; [done|].
    constructor; [by apply keeps_auth_Reconcile; [apply reads_ok|apply auth_rights_ok]|constructor].
  - assert (call_ok c) as Hcall by (by apply (Forall_lookup_1 _ _ _ _ Hps) in Hi as [? _]).
    destruct (memory_server_ok s c Hs Hcall) as [Hs' Ha]. rewrite Hc in Hs', Ha.
    split; [done|]. by eapply next_call_ok.
  - split; [done|]. by eapply next_call_ok.
  - assert (call_ok c) as Hcall by (by apply (Forall_lookup_1 _ _ _ _ Hps) in Hi as [? _]).
    destruct (memory_server_ok s c Hs Hcall) as [Hs' _]. rewrite Hc in Hs'.
    split; [done|]. by eapply next_call_ok.
  - by split.
  - split; [by apply store_put_ok|done].
  - split; [by apply store_delete_ok|done].
Qed.

Lemma steps_ok c c' : rtc step c c' → system_ok c → system_ok c'.
Proof. induction 1; eauto using step_ok. Qed.

(** One reconciliation runs to its end while the others wait. *)
Lemma run_steps (p : process) s ps i :
  ps !! i = Some p →
  rtc step (s, ps) ((run memory_server p s).1.1,
                    <[i:=Ret (run memory_server p s).2]> ps).
Proof.
  revert s ps. induction p as [o|c k IH]; intros s ps Hi; simpl.
  - rewrite list_insert_id by done. reflexivity.
  - destruct (memory_server s c) as [s' a] eqn:Hc.
    pose proof (IH a s' (<[i:=k a]> ps)) as Hrest.
    rewrite list_lookup_insert_eq in Hrest by (by eapply lookup_lt_Some).
    specialize (Hrest eq_refl). rewrite list_insert_insert_eq in Hrest.
    destruct (run memory_server (k a) s') as [[s2 t] o] eqn:Hr.
    eapply rtc_l; [by eapply step_call|]. exact Hrest.
Qed.
End system.

(** ** Properties *)

(** C8: the objects of the cluster stay well typed.  Take any number of
    reconciliations of RateLimitPolicies and AuthPolicies, interleaved call by
    call in any order, with calls that fail, answers that get lost, restarts,
    and other actors that write well-typed objects or delete any.  Every object
    that is ever stored is well typed: the references of a gateway are the text
    of a list of policies without duplicates, back references are the text of a
    key, the configuration of a filter can be read back, and a policy has at
    most one condition per type.  In particular the assumptions that the steady
    state makes of the gateways hold. *)
Theorem objects_stay_well_typed (AM : Apimachinery) (AMok : ApimachineryOk)
    (Env : Environment) (RC : RefCodec) (RCok : RefCodecOk) (MR : MapRange) (GS : GoSort)
    (SC : StructCodec) (SCok : StructCodecOk) (PAC : PatchCodec) (CC : ConditionCodec)
    (s s' : store) (ps : list process)
    (Hs : store_ok s) (Hsteps : rtc step (s, []) (s', ps)) :
  store_ok s' ∧ refs_ok s'.
Proof.
  destruct (steps_ok _ _ Hsteps) as [Hs' _]; [by split|]. split; [done|by apply store_refs_ok].
Qed.

(** *** The sample cluster *)

Lemma store_ok_empty `{Apimachinery, RefCodec, StructCodec} : store_ok empty_store.
Proof. split; by intros k key o. Qed.

Lemma cluster_store_ok :
  @store_ok default_apimachinery json_ref_codec compact_struct_codec cluster.
Proof.
  unfold cluster. repeat (apply store_put_ok; [|
    split; [first [exact I|apply map_Forall_empty]|split; [exact I|]];
    first [exact I|apply NoDup_nil_2]]).
  apply store_ok_empty.
Qed.

Definition sample_step :=
  @step default_apimachinery sample_environment json_ref_codec map_range_default go_merge_sort
    compact_struct_codec plain_patch binary_condition_codec.
Definition sample_Reconcile :=
  @Reconcile default_apimachinery sample_environment json_ref_codec map_range_default
    go_merge_sort compact_struct_codec plain_patch binary_condition_codec.
Definition sample_auth_Reconcile :=
  @Auth.Reconcile default_apimachinery sample_environment go_merge_sort binary_condition_codec.

Definition sample_request : ObjectKey := {| Namespace := "ns"; Name := "rlp" |}.
Definition sample_final : store :=
  (run memory_server (sample_Reconcile sample_request) cluster).1.1.

(** Both reconcilers are started; the second reads its policy, and then the
    first runs to its end. *)
Lemma sample_steps :
  ∃ ps, length ps = 2%nat ∧ rtc sample_step (cluster, []) (sample_final, ps).
Proof.
  eexists. split; cycle 1.
  - eapply rtc_l; [apply (step_rate_limit cluster [] sample_request)|].
    eapply rtc_l; [apply (step_auth cluster _ (ObjectKeyFromObject sample_ap))|].
    eapply rtc_l; [by eapply (step_call _ _ 1)|].
    by apply (run_steps (sample_Reconcile sample_request) _ _ 0).
  - reflexivity.
Qed.

Lemma objects_stay_well_typed_witness :
  refs_ok (RC:=json_ref_codec) sample_final ∧
  (∀ g, g ∈ gateways sample_final → @RLPRefs json_ref_codec (Some g) = [sample_request]).
Proof.
  destruct sample_steps as (ps & _ & Hsteps).
  destruct (objects_stay_well_typed default_apimachinery default_apimachinery_ok
    sample_environment json_ref_codec json_ref_codec_ok map_range_default go_merge_sort
    compact_struct_codec compact_struct_codec_ok plain_patch binary_condition_codec
    cluster sample_final ps cluster_store_ok Hsteps) as [_ Hrefs].
  split; [exact Hrefs|].
  assert ((λ g, @RLPRefs json_ref_codec (Some g)) <$> gateways sample_final = [[sample_request]])
    as Hg by (vm_compute; reflexivity).
  intros g Hin. apply (list_elem_of_fmap_2 (λ g, @RLPRefs json_ref_codec (Some g))) in Hin.
  rewrite Hg in Hin. by apply list_elem_of_singleton in Hin.
Defined.
