(* ===== verification/Coexistence.v ===== *)
(** * Policies that share gateways

    What the reconciliation of one policy means for the others: the steady
    state of a policy survives the reconciliation of another one that leaves
    none of its gateways, and policies reconciled one after the other, in any
    order and with any orders of iteration over maps, end up settled together. *)
From S2P Require Import Prelude GoStrings Hostname KubeTypes CommonUtils RouteRules PolicyTypes.
From S2P Require Import LimitIndex Json GatewayRefs Client Apimachinery.
From S2P Require Import BaseReconciler TargetRef Runs JsonText JsonStruct WasmJson WasmConfig.
From S2P Require Import Samples RateLimitLimits RateLimitIstio LimitadorSteady RateLimitController.
From S2P Require Import SteadyState SteadyInvariance SteadyReconcile AuthController Conduct ObjectTypes.

Open Scope go_scope.

(** ** Targets *)

Section targets.
Context `{Apimachinery}.

(** A back reference is never replaced. *)
Lemma exec_back_keeps_held pk t ns ann t' ns' v s s' :
  store_wf s → exec (ReconcileTargetBackReference pk t ns ann) s s' tt →
  held s t' ns' ann v → held s' t' ns' ann v.
Proof.
  intros Hwf (s1 & [k x] & Hf & Hex)%exec_bind (k1 & x1 & Hk1 & Hx1 & Hv1 & Ha1).
  pose proof (exec_reads _ _ _ _ (reads_FetchValidTargetRef t ns) Hf) as ->.
  apply exec_run in Hf as [_ (_ & Hx & _)%fetch_in_store_inv]. cbn zeta iota in Hex.
  exists k1, x1. split; [done|]. split; [|done].
  destruct (entries (GetAnnotations x) !! ann) as [val|] eqn:Ha.
  - by destruct (negb _); apply exec_Ret in Hex as [-> ?].
  - apply exec_bind in Hex as (s2 & r & [-> _]%exec_UpdateResource & [-> _]%exec_Ret).
    destruct (decide (k = k1)) as [<-|Hk]; [|by rewrite store_put_other].
    assert (ObjectKeyFromObject (SetAnnotations x
      (<[ann:=key_String pk]> (entries (GetAnnotations x)))) = target_key t ns)
      as Hkey by exact (Hwf k _ x Hx).
    rewrite store_put_same, Hkey. destruct (decide (target_key t ns = target_key t' ns')) as [Heq|Hne].
    + rewrite Heq, Hx1 in Hx. injection Hx as ->. by rewrite Ha in Ha1.
    + by rewrite lookup_insert_ne.
Qed.

Lemma targeted_keys_similar rlp s s' :
  similar KHTTPRoute s s' → targeted_keys rlp s = targeted_keys rlp s'.
Proof.
  intros Hr. apply outcome_rel_eq. unfold targeted_keys, TargetedGatewayKeys.
  destruct (IsTargetRefHTTPRoute _); [|by destruct (IsTargetRefGateway _)].
  eapply (rel_bind (@same_content KHTTPRoute)); [by apply emits_FetchValidHTTPRoute..| |].
  - by apply fetch_route_similar.
  - intros r r' (Hk & Hs & _). apply outcome_rel_eq. injection Hk as Hns _.
    change (spec (r : HTTPRoute) = spec (r' : HTTPRoute)) in Hs. simpl. rewrite Hs.
    assert (parent_gateway_key r = parent_gateway_key r') as ->; [|done].
    unfold parent_gateway_key.
    change (meta_Namespace (ometa (r : HTTPRoute)) = meta_Namespace (ometa (r' : HTTPRoute))) in Hns.
    by rewrite Hns.
Qed.
End targets.

(** ** One policy beside another *)

Section coexistence.
Context `{Apimachinery, Environment, RefCodecOk, MapRangeOk, GoSortOk, StructCodecOk, PatchCodec}.

(** The policy leaves no gateway that [other] references. *)
Definition leaves_alone (rlp other : RateLimitPolicy) (s : store) : Prop :=
  ∀ ks g, targeted_keys rlp s = Ok ks → g ∈ gateways s →
    policy_key rlp ∈ RLPRefs (Some g) → policy_key other ∈ RLPRefs (Some g) →
    ObjectKeyFromObject g ∈ ks.

(** Another policy's key is among the references iff it was before. *)
Lemma refs_after_other rlp ks (g g' : Gateway) k :
  refs_after rlp ks g g' → k ≠ policy_key rlp →
  k ∈ RLPRefs (Some g') ↔ k ∈ RLPRefs (Some g).
Proof.
  intros [_ Hafter] Hne. revert Hafter. case_decide; intros ->.
  - unfold refs_with. case_match; [|done]. rewrite elem_of_app, list_elem_of_singleton. tauto.
  - rewrite list_elem_of_filter. tauto.
Qed.

Lemma refs_after_self rlp ks (g g' : Gateway) :
  refs_after rlp ks g g' → policy_key rlp ∈ RLPRefs (Some g') ↔ ObjectKeyFromObject g ∈ ks.
Proof.
  intros [_ Hafter]. revert Hafter. case_decide; intros ->.
  - split; [done|]. intros _. apply refs_with_elem.
  - rewrite list_elem_of_filter. tauto.
Qed.

(** Where a gateway of the final store comes from. *)
Definition origin (rlp : RateLimitPolicy) (ks : list ObjectKey) (s s2 : store) (g' : Gateway) : Prop :=
  ∃ g g2 : Gateway, g ∈ gateways s ∧ g2 ∈ gateways s2 ∧ same_but_back (k:=KGateway) g2 g ∧
    refs_after rlp ks g2 g' ∧ ObjectKeyFromObject g = ObjectKeyFromObject g' ∧
    ObjectKeyFromObject g2 = ObjectKeyFromObject g'.

(** What a successful reconciliation did, seen from outside. *)
Lemma exec_reconcileSpec_frame rlp s s' r :
  store_wf s → refs_ok s → names_ok s → exec (reconcileSpec rlp) s s' r →
  ∃ ks s2 (lim lim' : obj KLimitador),
    targeted_keys rlp s = Ok ks ∧ store_wf s' ∧
    exec (reconcileDirectBackReference rlp) s s2 tt ∧
    s' KRateLimitPolicy = s KRateLimitPolicy ∧
    similar KGateway s s' ∧ similar KHTTPRoute s s2 ∧ s2 KHTTPRoute = s' KHTTPRoute ∧
    (∀ key, option_Forall2 (λ g' g : obj KGateway, same_but_refs g' g)
              (s' KGateway !! key) (s2 KGateway !! key)) ∧
    s KLimitador !! limitadorKey = Some lim ∧ s' KLimitador !! limitadorKey = Some lim' ∧
    (∀ g', g' ∈ gateways s' → origin rlp ks s s2 g') ∧
    (∀ g, g ∈ gateways s2 → ObjectKeyFromObject g ∈ ks →
       gateway_settled s' lim' g (refs_with (RLPRefs (Some g)) (policy_key rlp))) ∧
    (∀ g, g ∈ gateways s2 → ObjectKeyFromObject g ∉ ks → policy_key rlp ∉ RLPRefs (Some g) →
       s KWasmPlugin !! plugin_key (Some g) = s' KWasmPlugin !! plugin_key (Some g) ∧
       ∀ refs, limits_settled s lim (Some g) refs → limits_settled s' lim' (Some g) refs).
Proof.
  intros Hwf Hrefs Hnames Hex.
  destruct (exec_reconcileSpec_parts rlp s s' r Hwf Hrefs Hnames Hex)
    as (_ & _ & s2 & Hback & Hrel & (Hwf2 & Hrefs2 & Hnames2 & Hwf') & Hdiff).
  destruct (exec_reconcileGatewayDiffs rlp s2 s' Hwf2 Hrefs2 Hnames2 Hdiff)
    as (ks & lim & lim' & Hks & Hp & Hr & Hg & Hlim & Hlim' & Hset & Hkeep).
  assert (∀ k, k ≠ KGateway → k ≠ KHTTPRoute → s2 k = s k) as Hframe.
  { intros k Hkg Hkr. eapply (exec_frame (λ k, k = KGateway ∨ k = KHTTPRoute)); [|exact Hback|].
    - apply emits_ReconcileTargetBackReference; try (by intros); intros; [by left|by right].
    - by intros [|]. }
  assert (similar KHTTPRoute s s2) as Hsr by (by apply back_similar).
  assert (∀ key, option_Forall2 (λ g' g : obj KGateway, same_but_refs g' g)
            (s' KGateway !! key) (s2 KGateway !! key)) as Hsame
    by (intros key; destruct (Hg key) as [? ? [? _]|]; by constructor).
  exists ks, s2, lim, lim'. split; [by rewrite (targeted_keys_similar rlp s s2)|].
  split; [done|]. split; [done|]. split; [by rewrite Hp, Hframe|]. split.
  { apply (similar_trans _ _ s2); [by apply back_similar|]. intros key.
    destruct (Hsame key) as [g' g (Hk & Hs & Hst & _)|]; constructor. by repeat split. }
  split; [done|]. split; [done|]. split; [done|]. split; [by rewrite <- Hframe|].
  split; [done|]. split; [|split; [done|]].
  - intros g' Hg'.
    destruct (gateways_related _ s2 s' g' Hwf2 Hwf' Hg Hg') as (g2 & Hin2 & Hafter & Hk2).
    destruct (gateways_related _ s s2 g2 Hwf Hwf2 (Hrel KGateway) Hin2) as (g & Hin & Hb & Hk).
    exists g, g2. by rewrite <- Hk2, <- Hk.
  - intros g Hin Hk Hnr. destruct (Hkeep g Hin Hk Hnr) as [Hplug Hl].
    split; [by rewrite Hplug, Hframe|]. intros refs Hs. apply Hl.
    apply (limits_settled_similar s); [|done|done].
    intros key. rewrite Hframe by done. apply similar_policies_refl.
Qed.

(** Whatever is asked of filters, as long as it holds of those that are configured
    as they are computed. *)
Lemma exec_keeps_settled ok `{!FilterCondition ok} rlp other s s' r :
  (∀ s g refs, plugin_settled s (Some g) refs → ok s (Some g) refs) →
  store_wf s → refs_ok s → names_ok s → policy_key other ≠ policy_key rlp →
  leaves_alone rlp other s → settled_by ok other s → exec (reconcileSpec rlp) s s' r →
  settled_by ok other s'.
Proof.
  intros Hexact Hwf Hrefs Hnames Hne Halone [Hvalid Hhosts Hheld (kso & limo & Hkso & Hlimo & Hgs)] Hex.
  destruct (exec_reconcileSpec_frame rlp s s' r Hwf Hrefs Hnames Hex)
    as (ks & s2 & lim & lim' & Hks & Hwf' & Hback & Hp & Hsg & Hsr & Hr & Hsame & Hlim & Hlim' &
        Horigin & Hset & Hkeep).
  assert (similar KHTTPRoute s s') as Hsr' by (intros key; rewrite <- Hr; apply Hsr).
  rewrite Hlim in Hlimo. injection Hlimo as <-.
  split; [done|by apply (validateRuleHosts_similar other s)| |].
  - apply (held_transfer s2); [done|done|]. exact (exec_back_keeps_held _ _ _ _ _ _ _ s s2 Hwf Hback Hheld).
  - exists kso, lim'. split; [by rewrite <- (targeted_keys_similar other s)|]. split; [done|].
    intros g' Hg'. destruct (Horigin g' Hg') as (g & g2 & Hg & Hg2 & Hb & Hafter & Hk & Hk2).
    destruct (same_but_back_refs g2 g Hb) as [Hrefs2 _].
    destruct (Hgs g Hg) as [Hiff Hgo]. rewrite <- Hk.
    rewrite (refs_after_other rlp ks g2 g'), Hrefs2 by done. split; [done|]. intros Ho.
    pose proof Hb as [Hc _]. apply same_content_hosts in Hc as [Hhc Hkc].
    pose proof Hafter as [Hsb Hra].
    apply (gateway_settled_by_same ok _ _ g2); [by apply same_but_refs_hosts..|].
    revert Hra. case_decide as Hin; intros ->.
    { destruct (Hset g2 Hg2 Hin) as [Hl Hf]. split; [done|by apply Hexact]. }
    assert (policy_key rlp ∉ RLPRefs (Some g2)) as Hnot.
    { rewrite Hrefs2. intros Hrg. apply Hin. rewrite Hk2, <- Hk. apply (Halone ks g); [done..|].
      by apply Hiff. }
    rewrite filter_ne_absent by done. destruct (Hkeep g2 Hg2 Hin Hnot) as [Hplug Hlims].
    assert (gateway_settled_by ok s lim g2 (RLPRefs (Some g2))) as [Hl Hf].
    { apply (gateway_settled_by_same ok _ _ g); [done..|]. rewrite Hrefs2. by apply Hgo. }
    split; [by apply Hlims|]. apply (filter_similar s s'); [|done..].
    intros key. rewrite Hp. apply similar_policies_refl.
Qed.
End coexistence.

(** ** One policy after the other *)

Section rounds.
Context `{ApimachineryOk, Environment, RefCodecOk, GoSortOk, StructCodecOk, PatchCodec}.

(** The orders in which Go iterates over maps, for runs that are numbered. *)
Context (order : nat → iteration).

(** A run for a policy, with the number of the run. *)
Definition reconcile_each (_ : unit) (x : nat * RateLimitPolicy) : prog unit :=
  @reconcileSpec _ _ _ (iteration_order (order x.1)) _ _ _ x.2 ;;; ret tt.

(** Only gateways the policy targets reference it, as in a new cluster. *)
Definition references_targeted (rlp : RateLimitPolicy) (s : store) : Prop :=
  ∀ ks g, targeted_keys rlp s = Ok ks → g ∈ gateways s →
    policy_key rlp ∈ RLPRefs (Some g) → ObjectKeyFromObject g ∈ ks.

Section one.
Context (i : iteration) (rlp : RateLimitPolicy) (s s' : store) (r : Result).
Context (Hex : exec (@reconcileSpec _ _ _ (iteration_order i) _ _ _ rlp) s s' r).
Local Instance this_order : MapRange := iteration_order i.
Local Instance this_order_ok : MapRangeOk := iteration_ok i.

Lemma exec_references_targeted other :
  store_wf s → refs_ok s → names_ok s → policy_key other ≠ policy_key rlp →
  references_targeted other s → references_targeted other s'.
Proof.
  intros Hwf Hrefs Hnames Hne Htargeted kso g' Hkso Hg'.
  destruct (exec_reconcileSpec_frame rlp s s' r Hwf Hrefs Hnames Hex)
    as (ks & s2 & lim & lim' & _ & Hwf' & _ & _ & _ & Hsr & Hr & _ & _ & _ & Horigin & _).
  destruct (Horigin g' Hg') as (g & g2 & Hg & _ & Hb & Hafter & Hk & _).
  destruct (same_but_back_refs g2 g Hb) as [Hrefs2 _].
  rewrite <- Hk, (refs_after_other rlp ks g2 g'), Hrefs2 by done. apply Htargeted; [|done].
  rewrite <- Hkso. apply targeted_keys_similar. intros key. rewrite <- Hr. apply Hsr.
Qed.

Lemma exec_names_ok : store_wf s → refs_ok s → names_ok s → names_ok s'.
Proof.
  intros Hwf Hrefs Hnames.
  destruct (exec_reconcileSpec_frame rlp s s' r Hwf Hrefs Hnames Hex)
    as (ks & s2 & lim & lim' & _ & Hwf' & _ & _ & Hsg & Hsr & Hr & _).
  apply (names_ok_similar s); [done|done|by apply similar_sym| |done].
  apply similar_sym. intros key. rewrite <- Hr. apply Hsr.
Qed.

Lemma exec_store_ok : store_ok s → store_ok s'.
Proof.
  apply exec_run in Hex as [<- _]. intros Hs. eapply keeps_run; [done|].
  eapply keeps_reconcileSpec; [apply reads_ok|by apply rate_limit_rights_ok|done].
Qed.


Lemma exec_settled_beside other :
  store_wf s → refs_ok s → names_ok s → policy_key other ≠ policy_key rlp →
  references_targeted rlp s → settled_unordered other s → settled_unordered other s'.
Proof.
  intros Hwf Hrefs Hnames Hne Ht Hset.
  apply (exec_keeps_settled plugin_settled_unordered rlp other s s' r); [|done..| |done|done].
  - intros s0 g refs. apply plugin_unordered, _.
  - intros ks g Hks Hg Hr _. by apply (Ht ks g).
Qed.

Lemma exec_settled_itself :
  store_wf s → refs_ok s → names_ok s → settled_unordered rlp s'.
Proof.
  intros Hwf Hrefs Hnames. apply (settled_is_unordered this_order _).
  by apply (exec_reconcileSpec_settled rlp s s' r).
Qed.
End one.

Lemma exec_round (xs : list (nat * RateLimitPolicy)) done s s' :
  NoDup (policy_key <$> done ++ xs.*2) → store_ok s → names_ok s →
  Forall (λ p, settled_unordered p s) done → Forall (λ p, references_targeted p s) xs.*2 →
  exec (loop reconcile_each tt xs) s s' tt →
  Forall (λ p, settled_unordered p s') (done ++ xs.*2).
Proof.
  revert done s. induction xs as [|[i p] xs IH]; intros done s Hnd Hok Hnames Hdone Hps Hex.
  { apply exec_Ret in Hex as [-> _]. by rewrite app_nil_r. }
  rewrite fmap_cons in *. cbn [snd] in *. apply Forall_cons in Hps as [Hp Hps].
  apply exec_loop_cons in Hex as (s1 & [] & (s0 & r & Hspec & [-> _]%exec_Ret)%exec_bind & Hex).
  cbn [fst snd] in Hspec.
  pose proof Hok as [Hwf _]. pose proof (store_refs_ok s Hok) as Hrefs.
  pose proof Hnd as Hkeys. rewrite fmap_app, fmap_cons in Hkeys.
  apply NoDup_app in Hkeys as (_ & Hdisj & [Hnin _]%NoDup_cons).
  rewrite (cons_middle p done xs.*2), app_assoc in *.
  apply (IH (done ++ [p]) s0); [done|by eapply exec_store_ok|by eapply exec_names_ok| | |done].
  - apply Forall_app. split.
    + apply Forall_forall. intros q Hq. rewrite Forall_forall in Hdone.
      apply (exec_settled_beside (order i) p s s0 r Hspec); [done..| |done|by apply Hdone].
      intros Heq. apply (Hdisj (policy_key p)); [|left]. rewrite <- Heq.
      by apply list_elem_of_fmap_2.
    + constructor; [by apply (exec_settled_itself (order i) p s s0 r)|constructor].
  - rewrite !Forall_forall in *. intros q Hq.
    apply (exec_references_targeted (order i) p s s0 r Hspec); [done..| |by apply Hps].
    intros Heq. apply Hnin. rewrite <- Heq. by apply list_elem_of_fmap_2.
Qed.

(** Another round over policies that are settled. *)
Lemma tidy_round (xs : list (nat * RateLimitPolicy)) s :
  store_wf s → Forall (λ p, settled_unordered p s) xs.*2 →
  tidy (loop reconcile_each tt xs) s tt.
Proof.
  intros Hwf Hset.
  apply (tidy_loop (λ s1, Forall (λ p, settled_unordered p s1) xs.*2)); [|done|done|].
  - intros s1 s2 Hre _ Hs1. eapply Forall_impl; [exact Hs1|]. intros p. by apply settled_reorder.
  - intros [i p] s1 Hx Hwf1 Hs1. rewrite Forall_forall in Hs1.
    eapply quiet_bind; [|intros s2 _; apply quiet_steady, steady_ret].
    apply (tidy_reconcileSpec (MRok:=iteration_ok (order i))); [done|]. apply Hs1.
    by apply (list_elem_of_fmap_2 snd xs (i, p)).
Qed.

Lemma steady_round (xs : list (nat * RateLimitPolicy)) s :
  store_wf s → single_domains s → Forall (λ p, settled_unordered p s) xs.*2 →
  steady (loop reconcile_each tt xs) s tt.
Proof.
  intros Hwf Hs Hset. rewrite Forall_forall in Hset. apply steady_loop. intros [i p] Hx.
  eapply steady_bind; [|apply steady_ret].
  apply (settled_steady (H2:=iteration_ok (order i))); [done|].
  apply (settled_single _ (iteration_ok (order i))); [done|]. apply Hset.
  by apply (list_elem_of_fmap_2 snd xs (i, p)).
Qed.
End rounds.

(** ** Properties *)

(** C5: policies converge together, whatever gateways they share.  Take any
    number of policies with distinct keys and a server without other actors,
    where objects are well typed, names admissible, and a policy is referenced
    by gateways it targets only.  If each policy is reconciled once, one after
    the other and without an error, each run with an order of its own in which
    Go iterates over maps (the run number n with [order n]), then every one of them is settled at the end: in
    particular each gateway has the limits and the filter of all its policies,
    with the domains of the filter in some order.  Afterwards any sequence of
    reconciliations of these policies, however long and in whatever orders of
    iteration, succeeds, leaves all of them settled, and does nothing but read
    and put the domains of filters in another order; if no filter has more than
    one domain, it only reads. *)
Theorem policies_converge (AM : Apimachinery) (AMok : ApimachineryOk) (Env : Environment)
    (RC : RefCodec) (RCok : RefCodecOk) (GS : GoSort) (GSok : GoSortOk)
    (SC : StructCodec) (SCok : StructCodecOk) (PC : PatchCodec)
    (order : nat → iteration) (round later : list (nat * RateLimitPolicy)) (s : store)
    (Hkeys : NoDup (policy_key <$> round.*2)) (Hs : store_ok s) (Hnames : names_ok s)
    (Hrefs : Forall (λ p, references_targeted p s) round.*2)
    (Hround : (run memory_server (loop (reconcile_each order) tt round) s).2 = Ok tt)
    (Hlater : later.*2 ⊆ round.*2) :
  let s' := (run memory_server (loop (reconcile_each order) tt round) s).1.1 in
  let again := run memory_server (loop (reconcile_each order) tt later) s' in
  Forall (λ p, settled_unordered p s') round.*2 ∧
  again.2 = Ok tt ∧ Forall (λ p, settled_unordered p again.1.1) round.*2 ∧
  reorder_only s' again.1.1 ∧ Forall (λ e, rearranges s' (ev_call e)) again.1.2 ∧
  (single_domains s' → again.1.1 = s' ∧ Forall (λ e, reads (ev_call e)) again.1.2).
Proof.
  intros s' again.
  assert (exec (loop (reconcile_each order) tt round) s s' tt) as Hex by (by apply exec_run).
  assert (Forall (λ p, settled_unordered p s') round.*2) as Hset by (by apply (exec_round order round [] s)).
  assert (Forall (λ p, settled_unordered p s') later.*2) as Hset'
    by (rewrite Forall_forall in *; intros p Hp; by apply Hset, Hlater).
  assert (store_wf s') as Hwf by (eapply exec_wf; [apply Hs|exact Hex]).
  destruct (tidy_round order later s' Hwf Hset') as (s2 & t & Hrun & Hre & Ht).
  split; [done|]. subst again. rewrite Hrun. cbn [fst snd]. split; [done|].
  split; [by eapply Forall_impl; [exact Hset|]; intros p; apply settled_reorder|].
  split; [done|]. split; [done|]. intros Hsingle.
  destruct (steady_round order later s' Hwf Hsingle Hset') as (t' & Hrun' & Ht').
  rewrite Hrun in Hrun'. by injection Hrun' as -> ->.
Qed.

(** *** Two policies on the sample gateway *)

Definition gateway_policy : RateLimitPolicy :=
  Build_object (new_meta "gw-rlp" "istio-system")
    {| rlp_TargetRef := {| tr_Group := "gateway.networking.k8s.io"; tr_Kind := "Gateway";
                           tr_Name := "gw"; tr_Namespace := None |};
       RateLimits := Some [{| Configurations := None; Rules := None;
                              Limits := Some [nil_limit] |}] |}
    {| rlp_ObservedGeneration := 0; rlp_Conditions := []; GatewaysRateLimits := None |}.

Definition shared_policies : list RateLimitPolicy := [cluster_policy; gateway_policy].
Definition shared_cluster : store := store_put two_domains (k:=KRateLimitPolicy) gateway_policy.

(** The runs with odd numbers iterate in the reverse order. *)
Definition alternating (n : nat) : iteration :=
  if Nat.odd n then {| iteration_ok := map_range_reverse_ok |}
  else {| iteration_ok := map_range_default_ok |}.
Definition sample_each := @reconcile_each default_apimachinery sample_environment json_ref_codec
  go_merge_sort compact_struct_codec plain_patch alternating.
Definition sample_round (numbers : list nat) : prog unit :=
  loop sample_each tt (zip numbers shared_policies).
Definition shared_final : store := (run memory_server (sample_round [0; 2]%nat) shared_cluster).1.1.

Lemma shared_store_ok : @store_ok default_apimachinery json_ref_codec compact_struct_codec shared_cluster.
Proof.
  unfold shared_cluster, two_domains.
  repeat (apply store_put_ok; [|split; [first [exact I|apply map_Forall_empty]|
    split; [exact I|first [exact I|apply NoDup_nil_2]]]]).
  apply store_ok_empty.
Qed.

Lemma shared_names_ok : names_ok shared_cluster.
Proof. exact two_domains_names_ok. Qed.

(** Nobody references the gateway yet. *)
Lemma shared_references p : @references_targeted default_apimachinery json_ref_codec p shared_cluster.
Proof.
  intros ks g _ Hg. change (g ∈ [cluster_gateway]) in Hg. apply list_elem_of_singleton in Hg as ->.
  by intros ?%not_elem_of_nil.
Qed.

(** How many limits there are, and who references the gateway. *)
Definition observe (s : store) : list nat * list (list ObjectKey) :=
  ((λ l : obj KLimitador, length (limitador_Limits (spec (l : Limitador)))) <$>
     (map_to_list (s KLimitador)).*2,
   (λ g, @RLPRefs json_ref_codec (Some g)) <$> gateways s).

(** The second round iterates in the reverse order; it writes the filter once. *)
Lemma policies_converge_witness :
  let again := run memory_server (sample_round [1; 3]%nat) shared_final in
  observe shared_final = ([5%nat], [policy_key <$> shared_policies]) ∧
  writes_of again = 1%nat ∧ again.2 = Ok tt ∧
  @reorder_only compact_struct_codec shared_final again.1.1.
Proof.
  intros again. split; [vm_compute; reflexivity|]. split; [vm_compute; reflexivity|].
  assert ((run memory_server (sample_round [0; 2]%nat) shared_cluster).2 = Ok tt) as Hok
    by (vm_compute; reflexivity).
  assert (NoDup (policy_key <$> shared_policies)) as Hkeys
    by (apply (bool_decide_unpack _); vm_compute; exact I).
  destruct (policies_converge default_apimachinery default_apimachinery_ok sample_environment
    json_ref_codec json_ref_codec_ok go_merge_sort go_merge_sort_ok compact_struct_codec
    compact_struct_codec_ok plain_patch alternating (zip [0; 2]%nat shared_policies)
    (zip [1; 3]%nat shared_policies)
    shared_cluster Hkeys shared_store_ok shared_names_ok
    (proj2 (Forall_forall _ _) (λ p _, shared_references p)) Hok (reflexivity _))
    as (_ & H2 & _ & Hre & _).
  split; [exact H2|exact Hre].
Defined.

(** The condition on the references is needed.  When the route of the first
    policy moves away from the gateway, reconciling that policy removes all
    limits of the gateway, though the second policy still references it; they
    come back when the second policy is reconciled. *)
Definition moved_route : HTTPRoute :=
  set_spec cluster_route {| ParentRefs := []; Hostnames_ := ["api.com"]; route_Rules := [] |}.

Example leaving_drops_limits_of_others :
  let moved := store_put shared_final (k:=KHTTPRoute) moved_route in
  observe (run memory_server (sample_round [0; 2]%nat) moved).1.1 =
    ([1%nat], [[policy_key gateway_policy]]) ∧
  observe (run memory_server (sample_each tt (0%nat, cluster_policy)) moved).1.1 =
    ([0%nat], [[policy_key gateway_policy]]).
Proof. split; vm_compute; reflexivity. Qed.
