(* ===== verification/Concurrency.v ===== *)
(** * No lost updates

    Any number of reconciliations, and any other clients, against an API server
    with resource versions whose reads may come from an outdated cache.  What a
    reconciliation writes is computed from what it read; the version check makes
    it a change of what is stored at that moment, and that change is a small one:
    nothing another client wrote to an object of the users is lost. *)
From stdpp Require Import relations.
From S2P Require Import Prelude GoStrings Hostname KubeTypes CommonUtils RouteRules PolicyTypes.
From S2P Require Import LimitIndex Json GatewayRefs Client Guarantee Apimachinery.
From S2P Require Import BaseReconciler ApiServer TargetRef Runs JsonText JsonStruct WasmJson.
From S2P Require Import WasmConfig Samples RateLimitLimits RateLimitIstio RateLimitController.
From S2P Require Import SteadyState SteadyReconcile AuthController Conduct ObjectTypes.
From S2P Require Import Coexistence.

Open Scope go_scope.

(** ** Reconciliations and their rights *)

(** A reconciliation of a RateLimitPolicy or of an AuthPolicy, by its key. *)
Inductive actor :=
  | RateLimit (key : ObjectKey)
  | Authorize (key : ObjectKey).
#[export] Instance actor_eq_dec : EqDecision actor.
Proof. solve_decision. Defined.

Definition subject (a : actor) : ObjectKey :=
  match a with RateLimit key | Authorize key => key end.
Definition subject_kind (a : actor) : Kind :=
  match a with RateLimit _ => KRateLimitPolicy | Authorize _ => KAuthPolicy end.
Definition back_annotation (a : actor) : string :=
  match a with
  | RateLimit _ => RateLimitPolicyBackRefAnnotation
  | Authorize _ => AuthPolicyBackRefAnnotation
  end.
Definition finalizer_of (a : actor) : string :=
  match a with RateLimit _ => rateLimitPolicyFinalizer | Authorize _ => authPolicyFinalizer end.

(** The kinds of the objects that users write. *)
Definition of_users (k : Kind) : Prop :=
  match k with KGateway | KHTTPRoute | KRateLimitPolicy | KAuthPolicy => True | _ => False end.

(** The kinds of the objects that are made for the policy. *)
Definition owned (a : actor) (k : Kind) : Prop :=
  match a, k with
  | RateLimit _, (KWasmPlugin | KEnvoyFilter | KLimitador) => True
  | Authorize _, (KAuthorizationPolicy | KAuthConfig) => True
  | _, _ => False
  end.

Section rights.
Context `{ApimachineryOk, Environment, RefCodecOk, MapRange, GoSort}.
Context `{StructCodecOk, PatchCodec, ConditionCodec}.

Section told.
Context (told : ∀ k : Kind, obj k → Prop).

(** The changes a reconciliation makes to objects of users, given the objects
    it was told of: it sets its back reference on a target that has none; when
    its policy is being deleted, it removes the back reference there is,
    whatever policy that names; it adds or removes its key among the references
    of a gateway; or it adds its finalizer to its policy, or removes it from one
    that is being deleted.  Everything else is as before. *)
Inductive changed : actor → ∀ k, obj k → obj k → Prop :=
  | changed_held a k (o : obj k) :
      k = KGateway ∨ k = KHTTPRoute →
      entries (GetAnnotations o) !! back_annotation a = None →
      changed a k o (SetAnnotations o
        (<[back_annotation a := key_String (subject a)]> (entries (GetAnnotations o))))
  | changed_released a k (o : obj k) :
      k = KGateway ∨ k = KHTTPRoute → leaving told (subject_kind a) (subject a) →
      is_Some (entries (GetAnnotations o) !! back_annotation a) →
      changed a k o (SetAnnotations o (delete (back_annotation a) (entries (GetAnnotations o))))
  | changed_references key (g : obj KGateway) (annotations : gmap string string) :
      (∀ n, n ≠ KuadrantRateLimitPolicyRefAnnotation →
         annotations !! n = entries (GetAnnotations g) !! n) →
      (∀ key', key' ≠ key → key' ∈ RLPRefs (Some (SetAnnotations g annotations)) ↔
                            key' ∈ RLPRefs (Some g)) →
      changed (RateLimit key) KGateway g (SetAnnotations g annotations)
  | changed_finalizers a (o : obj (subject_kind a)) fs :
      ObjectKeyFromObject o = subject a →
      (∀ f, f ≠ finalizer_of a → f ∈ fs ↔ f ∈ meta_Finalizers (ometa o)) →
      finalizer_of a ∈ fs ∨ is_Some (deletion o) →
      changed a (subject_kind a) o (set_meta o (meta_set_finalizers (ometa o) fs)).

(** The status a reconciliation reports of its policy: the generation and one
    condition of type Available, for a RateLimitPolicy also the limits of the
    gateways; the other conditions stay. *)
Inductive reported : actor → ∀ k, obj k → obj k → Prop :=
  | reported_rate_limit key (rlp : RateLimitPolicy) c limits :
      cond_Type c = RLPAvailableConditionType →
      reported (RateLimit key) KRateLimitPolicy rlp (set_status rlp
        {| rlp_ObservedGeneration := meta_Generation (ometa rlp);
           rlp_Conditions := SetStatusCondition (rlp_Conditions (status rlp)) c;
           GatewaysRateLimits := limits |})
  | reported_auth key (ap : AuthPolicy) c :
      cond_Type c = APAvailableConditionType →
      reported (Authorize key) KAuthPolicy ap (set_status ap
        {| ap_ObservedGeneration := meta_Generation (ometa ap);
           ap_Conditions := SetStatusCondition (ap_Conditions (status ap)) c |}).

(** What a reconciliation sends. *)
Definition acts (a : actor) (c : call) : Prop :=
  match c with
  | Get _ _ | ListGateways => True
  | Create k _ | Delete k _ => owned a k
  | Update k o' => owned a k ∨ ∃ o, told k o ∧ changed a k o o'
  | UpdateStatus k o' =>
      ∃ o, known_as told (finalizer_of a) o ∧ ObjectKeyFromObject o = subject a ∧ reported a k o o'
  end.

Lemma changed_keys a k (o o' : obj k) :
  changed a k o o' →
  ObjectKeyFromObject o' = ObjectKeyFromObject o ∧ version o' = version o ∧
  deletion o' = deletion o ∧ status o' = status o ∧ spec o' = spec o.
Proof. by destruct 1. Qed.

Lemma acts_reads a c : reads c → acts a c.
Proof. by destruct c. Qed.

Lemma acts_may_hold a : may_hold told (acts a) (subject_kind a) (back_annotation a) (subject a).
Proof.
  split; intros k o; [|intros v Hleave]; intros Hk Ho Ha; right; exists o; (split; [done|]).
  - by apply changed_held.
  - by apply changed_released.
Qed.

Lemma set_references key (g g' : Gateway) :
  told KGateway g → same_but_refs g' g →
  (∃ v, g' = SetAnnotations g
     (<[KuadrantRateLimitPolicyRefAnnotation:=v]> (entries (GetAnnotations g)))) →
  (∀ key', key' ≠ key → key' ∈ RLPRefs (Some g') ↔ key' ∈ RLPRefs (Some g)) →
  acts (RateLimit key) (Update KGateway g').
Proof.
  intros Hg _ [v ->] Hrefs. right. exists g. split; [done|]. apply changed_references; [|done].
  intros n Hn. by rewrite lookup_insert_ne.
Qed.

(** A gateway that was changed differs in the value of one annotation. *)
Lemma AddRLP_sets g key (g' : Gateway) :
  AddRLP (Some g) key = (Some g', true) → refs_readable g ∧
  ∃ v, g' = SetAnnotations g
     (<[KuadrantRateLimitPolicyRefAnnotation:=v]> (entries (GetAnnotations g))).
Proof.
  unfold AddRLP, refs_readable. intros Heq. repeat case_match; simplify_eq; simpl; eauto.
Qed.

Lemma DeleteRLP_sets g key (g' : Gateway) :
  DeleteRLP (Some g) key = (Some g', true) →
  ∃ v, g' = SetAnnotations g
     (<[KuadrantRateLimitPolicyRefAnnotation:=v]> (entries (GetAnnotations g))).
Proof. unfold DeleteRLP. cbn zeta. intros Heq. repeat case_match; simplify_eq; eauto. Qed.

Lemma acts_may_refer key : may_refer told (acts (RateLimit key)) key.
Proof.
  split; intros g g' Hg Heq.
  - destruct (AddRLP_sets g key g' Heq) as [Hr Hset]. revert Heq.
    destruct (AddRLP_spec g key Hr) as [[_ ->]|(_ & g2 & -> & Hrefs & Hs)]; [done|].
    intros [= ->]. apply (set_references key g g'); [done..|]. intros key' Hne.
    rewrite Hrefs. set_solver.
  - pose proof (DeleteRLP_sets g key g' Heq) as Hset. revert Heq.
    destruct (DeleteRLP_spec g key) as [[_ ->]|(l1 & l2 & g2 & Hl & _ & -> & Hrefs & Hs)]; [done|].
    intros [= ->]. apply (set_references key g g'); [done..|]. intros key' Hne.
    rewrite Hrefs, Hl. set_solver.
Qed.

Lemma acts_may_finalize a :
  may_finalize told (acts a) (subject_kind a) (finalizer_of a) (subject a).
Proof.
  split; intros o Ho Hk; [intros Hf|intros Hd]; right; exists o; (split; [done|]).
  - rewrite AddFinalizer_eq by done. apply changed_finalizers; [done|set_solver..].
  - rewrite RemoveFinalizer_eq. apply changed_finalizers; [done| |by right]. intros f Hf.
    rewrite list_elem_of_filter. naive_solver.
Qed.

Lemma acts_rate_limit_rights key : rate_limit_rights told (acts (RateLimit key)) key.
Proof.
  split.
  - apply (acts_may_hold (RateLimit key)).
  - apply acts_may_refer.
  - split; intros; [exact I|by left|exact I].
  - split; [exact I|split; [by left|exact I]].
  - by left.
  - apply (acts_may_finalize (RateLimit key)).
  - intros rlp c limits Hrlp Hk Hc. exists rlp. by split_and!; [..|apply reported_rate_limit].
Qed.

Lemma acts_auth_rights key : auth_rights told (acts (Authorize key)) key.
Proof.
  split.
  - apply (acts_may_hold (Authorize key)).
  - split; [exact I|split; [by left|exact I]].
  - split; [exact I|split; [by left|exact I]].
  - apply (acts_may_finalize (Authorize key)).
  - intros ap c Hap Hk Hc. exists ap. by split_and!; [..|apply reported_auth].
Qed.
End told.
End rights.

(** ** The system *)

(** The reconciliations that were started: what is left of each. *)
Abbreviation running := (list (actor * prog (Result * option error))).

Section system.
Context `{ApimachineryOk, Environment, RefCodecOk, MapRange, GoSort}.
Context `{StructCodecOk, PatchCodec, ConditionCodec}.
Context `{ApiServerOk}.

Definition reconciliation (a : actor) : prog (Result * option error) :=
  match a with RateLimit key => Reconcile key | Authorize key => Auth.Reconcile key end.

(** Who takes a step: a reconciliation, another client with its call, or the
    controller that stops. *)
Inductive label := Acting (a : actor) | Other (c : call) | Stop.

(** A reconciliation starts, makes its next call and is answered, or does not
    reach the server, or does not get the answer; the controller stops and
    forgets what it was doing; another client makes any call. *)
Inductive lstep : label → world * running → world * running → Prop :=
  | lstep_start w ps a : lstep (Acting a) (w, ps) (w, ps ++ [(a, reconciliation a)])
  | lstep_call w ps i a c k w' r :
      ps !! i = Some (a, Do c k) → serves w c w' r →
      lstep (Acting a) (w, ps) (w', <[i:=(a, k r)]> ps)
  | lstep_refused w ps i a c k e :
      ps !! i = Some (a, Do c k) →
      lstep (Acting a) (w, ps) (w, <[i:=(a, k (Failure e))]> ps)
  | lstep_lost w ps i a c k w' r e :
      ps !! i = Some (a, Do c k) → serves w c w' r →
      lstep (Acting a) (w, ps) (w', <[i:=(a, k (Failure e))]> ps)
  | lstep_stop w ps : lstep Stop (w, ps) (w, [])
  | lstep_other w ps c w' r : serves w c w' r → lstep (Other c) (w, ps) (w', ps).

(** Steps that satisfy [P]. *)
Definition steps_by (P : label → world → world → Prop) : relation (world * running) :=
  rtc (λ s s', ∃ l, P l s.1 s'.1 ∧ lstep l s s').
Definition any_step : label → world → world → Prop := λ _ _ _, True.

(** The invariant: whatever a running reconciliation is told of what has been
    stored so far or will be, it does not exceed its rights. *)
Definition conducted (w : world) (p : actor * prog (Result * option error)) : Prop :=
  ∀ told : ∀ k, obj k → Prop, (∀ k o, seen w k o → told k o) →
    keeps told (acts told p.1) (λ _, True) p.2.

Definition system_conducted (s : world * running) : Prop :=
  world_ok s.1 ∧ Forall (conducted s.1) s.2.

Lemma conducted_start w a : conducted w (a, reconciliation a).
Proof.
  intros told _. destruct a as [key|key]; cbn [fst snd reconciliation].
  - apply keeps_Reconcile; [intros c; apply acts_reads|apply acts_rate_limit_rights].
  - apply keeps_auth_Reconcile; [intros c; apply acts_reads|apply acts_auth_rights].
Qed.

(** What has been seen only grows. *)
Definition later (w w' : world) : Prop := ∀ k o, seen w k o → seen w' k o.

Lemma conducted_later w w' p : later w w' → conducted w p → conducted w' p.
Proof. intros Hl Hp told Ht. apply Hp. auto. Qed.

Lemma result_in_mono (told told' : ∀ k, obj k → Prop) c r :
  (∀ k o, told k o → told' k o) → answer_ok (result_in told c) r → answer_ok (result_in told' c) r.
Proof.
  intros Ht. destruct r as [x|e]; [|done].
  destruct c; simpl; try (intros [Hx Hk]; split; [by apply Ht|done]); try done.
  intros Hx. eapply Forall_impl; [exact Hx|]. intros g. apply (Ht KGateway).
Qed.

Lemma conducted_answer w a c k r :
  conducted w (a, Do c k) → ∀ w', later w w' → answer_ok (result_in (seen w') c) r →
  conducted w' (a, k r).
Proof.
  intros Hp w' Hl Hr told Ht. apply (Hp told); [auto|]. by eapply result_in_mono.
Qed.

Lemma conducted_call w a c k : conducted w (a, Do c k) → acts (seen w) a c.
Proof. intros Hp. by apply (Hp (seen w)). Qed.

Lemma serves_later w c w' r : world_ok w → serves w c w' r → later w w'.
Proof. intros Hw Hs k o. by eapply serves_seen. Qed.

Lemma lstep_conducted l s s' : lstep l s s' → system_conducted s → system_conducted s'.
Proof.
  unfold system_conducted.
  destruct 1 as [w ps a|w ps i a c k w' r Hi Hs|w ps i a c k e Hi|w ps i a c k w' r e Hi Hs
                |w ps|w ps c w' r Hs]; cbn [fst snd]; intros [Hw Hps].
  - split; [done|]. apply Forall_app. split; [done|]. constructor; [apply conducted_start|constructor].
  - pose proof (serves_later _ _ _ _ Hw Hs) as Hl. split; [by eapply serves_ok|].
    pose proof (Forall_lookup_1 _ _ _ _ Hps Hi) as Hp.
    apply Forall_insert; [eapply Forall_impl; [exact Hps|]; intros p; by apply conducted_later|].
    eapply conducted_answer; [exact Hp|done|by eapply serves_answer].
  - split; [done|]. pose proof (Forall_lookup_1 _ _ _ _ Hps Hi) as Hp.
    apply Forall_insert; [done|]. by eapply conducted_answer; [exact Hp|intros ?|].
  - pose proof (serves_later _ _ _ _ Hw Hs) as Hl. split; [by eapply serves_ok|].
    pose proof (Forall_lookup_1 _ _ _ _ Hps Hi) as Hp.
    apply Forall_insert; [eapply Forall_impl; [exact Hps|]; intros p; by apply conducted_later|].
    by eapply conducted_answer; [exact Hp|done|].
  - by split.
  - pose proof (serves_later _ _ _ _ Hw Hs) as Hl. split; [by eapply serves_ok|].
    eapply Forall_impl; [exact Hps|]. intros p. by apply conducted_later.
Qed.

Lemma steps_conducted P s s' : steps_by P s s' → system_conducted s → system_conducted s'.
Proof. induction 1 as [|s s1 s' (l & _ & Hl) _ IH]; eauto using lstep_conducted. Qed.

(** ** What happens to an object of the users *)

(** The step of a reconciliation, which was told of nothing but what has been
    stored in [w] so far, leaves the object as it is, makes one of its changes
    to what is stored, reports the status of its policy on top of the stored
    one, or drops the last finalizer of its policy, which is then gone. *)
Inductive accounted (w : world) (a : actor) : ∀ k, option (obj k) → option (obj k) → Prop :=
  | accounted_same k (o : option (obj k)) : accounted w a k o o
  | accounted_changed k (o o1 o' : obj k) :
      changed (seen w) a k o o1 → stored_as o1 (deletion o) o' → accounted w a k (Some o) (Some o')
  | accounted_reported k (o o1 o' : obj k) :
      ObjectKeyFromObject o = subject a → reported a k o o1 →
      stored_as o1 (deletion o) o' → accounted w a k (Some o) (Some o')
  | accounted_finalized (o : obj (subject_kind a)) :
      ObjectKeyFromObject o = subject a → is_Some (deletion o) →
      (∀ f, f ∈ finalizers o → f = finalizer_of a) →
      accounted w a (subject_kind a) (Some o) None.

Lemma owned_not_of_users a k : owned a k → of_users k → False.
Proof. by destruct a, k. Qed.

Lemma set_status_same {k} (o o' : obj k) : status o' = status o → set_status o' (status o) = o'.
Proof. destruct o'; simpl. by intros <-. Qed.

Lemma update_accounted a w k (o o' : obj k) old new :
  world_ok w → seen w k o → changed (seen w) a k o o' → current w k !! ObjectKeyFromObject o' = Some old →
  version old = version o' → old = o ∧
  (stored_as (set_status o' (status old)) (deletion old) new → accounted w a k (Some old) (Some new)).
Proof.
  intros Hw Ho Hc Hold Hv. destruct (changed_keys _ a k o o' Hc) as (Hk & Hv' & Hdel & Hst & _).
  destruct (current_seen _ _ _ _ Hw Hold) as [Hs Hkey].
  assert (old = o) as -> by (eapply seen_version; [done..|congruence|congruence]).
  split; [done|]. rewrite (set_status_same o o') by done. intros Hnew. by eapply accounted_changed.
Qed.

(** A change that leaves no finalizer is that of the policy's own. *)
Lemma changed_no_finalizers w a k (o o' : obj k) :
  changed (seen w) a k o o' → finalizers o ≠ [] → finalizers o' = [] → is_Some (deletion o) →
  accounted w a k (Some o) None.
Proof.
  destruct 1 as [a k o Hk Hn|a k o Hk Hl Hn|key g ann Hn Hrefs|a o fs Hk Hfs Hd]; [done..|].
  intros Hne Hnil Hdel. apply accounted_finalized; [done..|]. intros f Hf.
  destruct (decide (f = finalizer_of a)) as [|Hfa]; [done|].
  apply Hfs in Hf; [|done]. cbn in Hnil. subst fs. by apply not_elem_of_nil in Hf.
Qed.

(** A status is based on the stored one: the object it was computed from is the
    one whose version is checked. *)
Lemma reported_on a k (o o' old : obj k) :
  reported a k o o' → meta_Generation (ometa old) = meta_Generation (ometa o) →
  status old = status o → reported a k old (set_status old (status o')).
Proof.
  destruct 1 as [key o c limits Hc|key o c Hc]; intros Hg Hst.
  - pose proof (reported_rate_limit key old c limits Hc) as Hr.
    cbn in Hst, Hg, Hr |- *. by rewrite Hst, Hg in Hr.
  - pose proof (reported_auth key old c Hc) as Hr.
    cbn in Hst, Hg, Hr |- *. by rewrite Hst, Hg in Hr.
Qed.

Lemma status_accounted a w k (o o' old new : obj k) :
  world_ok w → known_as (seen w) (finalizer_of a) o → ObjectKeyFromObject o = subject a →
  reported a k o o' → current w k !! ObjectKeyFromObject o' = Some old →
  version old = version o' → stored_as (set_status old (status o')) (deletion old) new →
  accounted w a k (Some old) (Some new).
Proof.
  intros Hw (o0 & Hs0 & Ho) Hk Hr Hold Hv Hnew.
  destruct (current_seen _ _ _ _ Hw Hold) as [Hs Hkey].
  assert (ObjectKeyFromObject o' = ObjectKeyFromObject o ∧ version o' = version o) as [Hk' Hv']
    by (by destruct Hr).
  assert (ObjectKeyFromObject o0 = ObjectKeyFromObject o ∧ version o0 = version o ∧
    status o0 = status o ∧ meta_Generation (ometa o0) = meta_Generation (ometa o)) as (Hk0&Hv0&Hst&Hg).
  { destruct Ho as [-> | [Hf ->]]; [done|]. by rewrite AddFinalizer_eq. }
  assert (old = o0) as -> by (eapply seen_version; [done..|congruence|congruence]).
  eapply accounted_reported; [congruence| |exact Hnew].
  by eapply reported_on.
Qed.

Lemma acts_accounted a w c w' r k key :
  world_ok w → serves w c w' r → acts (seen w) a c → of_users k →
  accounted w a k (current w k !! key) (current w' k !! key).
Proof.
  intros Hw Hs Hacts Hk.
  destruct (serves_change w c w' r k key Hw Hs) as [-> | Hc]; [constructor|].
  remember (current w k !! key) as cur eqn:Hcur. symmetry in Hcur.
  generalize dependent (current w' k !! key). intros new Hc. revert Hcur.
  destruct Hc as [k o o' Hst|k o old o' Hv Hst|k o old Hv Hdel Hfin Hnone|k o old o' Hv Hst
                 |k o old o' t Hfin Hst|k o old Hfin]; intros Hcur; cbn [acts] in Hacts.
  - by destruct (owned_not_of_users a k).
  - destruct Hacts as [?|(o0 & Ho0 & Hch)]; [by destruct (owned_not_of_users a k)|].
    destruct (update_accounted a w k o0 o old o') as [_ Ha]; [done..|]. by apply Ha.
  - destruct Hacts as [?|(o0 & Ho0 & Hch)]; [by destruct (owned_not_of_users a k)|].
    destruct (update_accounted a w k o0 o old o) as [-> _]; [done..|].
    by eapply changed_no_finalizers.
  - destruct Hacts as (o0 & Hknown & Hkey & Hr). by eapply status_accounted.
  - by destruct (owned_not_of_users a k).
  - by destruct (owned_not_of_users a k).
Qed.

Lemma lstep_accounted a w ps w' ps' k key :
  lstep (Acting a) (w, ps) (w', ps') → system_conducted (w, ps) → of_users k →
  accounted w a k (current w k !! key) (current w' k !! key).
Proof.
  intros Hstep [Hw Hps] Hk. cbn [fst snd] in *.
  assert (∀ i c (kc : answer (result_of c) → prog (Result * option error)) r,
    ps !! i = Some (a, Do c kc) → serves w c w' r →
    accounted w a k (current w k !! key) (current w' k !! key)) as Hserved.
  { intros i c kc r Hi Hs. eapply acts_accounted; [done|exact Hs| |done].
    eapply conducted_call, Forall_lookup_1; [exact Hps|exact Hi]. }
  inversion Hstep; subst; try constructor; eauto.
Qed.

(** ** References of a gateway *)

Section references.
Context (gk key : ObjectKey).

(** The gateway is stored, and the policy is among its references. *)
Definition referenced (w : world) : Prop :=
  ∃ g : obj KGateway, current w KGateway !! gk = Some g ∧ key ∈ RLPRefs (Some g).

(** Steps that are not of the policy's own reconciler, and with which no other
    client takes the reference away. *)
Definition sparing (l : label) (w w' : world) : Prop :=
  match l with
  | Acting a => a ≠ RateLimit key
  | Other _ => referenced w → referenced w'
  | Stop => True
  end.

Lemma RLPRefs_entries (g g' : Gateway) :
  entries (GetAnnotations g) !! KuadrantRateLimitPolicyRefAnnotation =
    entries (GetAnnotations g') !! KuadrantRateLimitPolicyRefAnnotation →
  RLPRefs (Some g) = RLPRefs (Some g').
Proof. unfold RLPRefs. by intros ->. Qed.

(** The references of what is stored, if it is a gateway. *)
Definition references_of (k : Kind) : obj k → list ObjectKey :=
  match k with KGateway => λ g, RLPRefs (Some g) | _ => λ _, [] end.
Definition refers {k} (o : option (obj k)) : Prop :=
  ∃ o', o = Some o' ∧ key ∈ references_of k o'.

Lemma changed_references_of told a k (o o' : obj k) :
  changed told a k o o' → a ≠ RateLimit key → key ∈ references_of k o →
  key ∈ references_of k o'.
Proof.
  destruct 1 as [a k o [-> | ->] Hn|a k o [-> | ->] Hl Hn|key0 g ann Hn Hrefs|a o fs Hk Hfs Hd];
    intros Hne Hin; try (by apply not_elem_of_nil in Hin).
  - cbn in *. rewrite <- (RLPRefs_entries o); [done|]. symmetry.
    apply lookup_insert_ne. by destruct a.
  - cbn in *. rewrite <- (RLPRefs_entries o); [done|]. symmetry.
    apply lookup_delete_ne. by destruct a.
  - apply Hrefs; [|done]. by intros <-.
  - by destruct a; apply not_elem_of_nil in Hin.
Qed.

Lemma accounted_refers w a k (old new : option (obj k)) :
  accounted w a k old new → a ≠ RateLimit key → refers old → refers new.
Proof.
  destruct 1 as [k o|k o o1 o' Hc (v & gen & ->)|k o o1 o' Hk Hr (v & gen & ->)|o Hk Hdel Hf];
    intros Hne Hold; [done|..]; destruct Hold as (x & [= <-] & Hin).
  - eexists. split; [done|]. apply (changed_references_of _ a k o o1 Hc Hne) in Hin. by destruct k.
  - by destruct Hr; apply not_elem_of_nil in Hin.
  - by destruct a; apply not_elem_of_nil in Hin.
Qed.

Lemma steps_referenced s s' :
  steps_by sparing s s' → system_conducted s → referenced s.1 → referenced s'.1.
Proof.
  induction 1 as [|s s1 s' (l & Hspare & Hl) _ IH]; [done|]. intros Hs Href.
  apply IH; [by eapply lstep_conducted|]. destruct s as [w ps], s1 as [w1 ps1]. cbn [fst snd] in *.
  destruct l as [a|c|].
  - pose proof (lstep_accounted a w ps w1 ps1 KGateway gk Hl Hs I) as Ha.
    exact (accounted_refers w a KGateway _ _ Ha Hspare Href).
  - by apply Hspare.
  - by inversion Hl; subst.
Qed.
End references.
End system.

(** ** Properties *)

(** C1: no update is lost.  Take any number of reconciliations of both kinds and
    any other clients, interleaved call by call, whose reads may be answered
    from an outdated cache and whose calls may fail or be carried out with the
    answer lost.  A step of a reconciliation creates no gateway, route or
    policy, and what it does to a stored one is a change of what is stored at
    that very moment, not of what was read: it sets its back reference where
    there is none; if its policy was seen with a deletion timestamp, it removes
    the back reference there is, even one that names another policy; it adds or
    removes its own key among the references of a gateway; it adds its own
    finalizer, or removes it from a policy that is being deleted; it reports the
    status of its own policy, which replaces the observed generation, the
    condition Available and the limits of the gateways, whoever set them last
    (the clobbering that the comment at ratelimitpolicy_status.go:42 warns of),
    and keeps the other conditions as they are stored; or it removes the last
    finalizer, its own, of a policy that is being deleted.  Apart from these
    entries nothing that is stored in these objects is lost, whoever wrote it
    and whenever. *)
Theorem no_lost_updates (AM : Apimachinery) (AMok : ApimachineryOk) (Env : Environment)
    (RC : RefCodec) (RCok : RefCodecOk) (MR : MapRange) (GS : GoSort)
    (SC : StructCodec) (SCok : StructCodecOk) (PC : PatchCodec) (CC : ConditionCodec)
    (API : ApiServer) (APIok : ApiServerOk) (w0 w w' : world) (ps ps' : running)
    (a : actor) (k : Kind) (key : ObjectKey)
    (Hw : world_ok w0) (Hsteps : steps_by any_step (w0, []) (w, ps))
    (Hstep : lstep (Acting a) (w, ps) (w', ps')) (Hk : of_users k) :
  accounted w a k (current w k !! key) (current w' k !! key).
Proof.
  eapply lstep_accounted; [exact Hstep| |done]. by eapply steps_conducted; [exact Hsteps|split].
Qed.

(** C2: a policy stays among the references of a gateway.  Once it is there, the
    reconciliations of all other policies, interleaved in any way and however
    outdated what they read, leave it there; only the policy's own reconciler
    and clients other than the controller can remove it. *)
Theorem references_persist (AM : Apimachinery) (AMok : ApimachineryOk) (Env : Environment)
    (RC : RefCodec) (RCok : RefCodecOk) (MR : MapRange) (GS : GoSort)
    (SC : StructCodec) (SCok : StructCodecOk) (PC : PatchCodec) (CC : ConditionCodec)
    (API : ApiServer) (APIok : ApiServerOk) (w0 w w' : world) (ps ps' : running)
    (gk key : ObjectKey)
    (Hw : world_ok w0) (Hsteps : steps_by any_step (w0, []) (w, ps))
    (Href : referenced gk key w) (Hspare : steps_by (sparing gk key) (w, ps) (w', ps')) :
  referenced gk key w'.
Proof.
  eapply (steps_referenced _ _ _ _ Hspare); [|done]. by eapply steps_conducted; [exact Hsteps|split].
Qed.

(** *** Two policies of the sample gateway *)

Definition initial : versioned :=
  let w := {| objects := empty_store; log := λ _, ∅; revision := 0 |} in
  let w := (commit w (k:=KGateway) cluster_gateway None).1 in
  let w := (commit w (k:=KHTTPRoute) cluster_route None).1 in
  let w := (commit w (k:=KRateLimitPolicy) cluster_policy None).1 in
  let w := (commit w (k:=KRateLimitPolicy) gateway_policy None).1 in
  (commit w (k:=KLimitador) (sample_limitador []) None).1.

Lemma initial_ok : world_ok (A:=versioned_api) initial.
Proof. repeat apply commit_ok. split; [by intros k key o|]. by split; intros k v o. Qed.

(** One reconciliation runs to its end while the others wait. *)
Lemma run_served `{ApimachineryOk, Environment, RefCodecOk, MapRange, GoSort, StructCodecOk,
      PatchCodec, ConditionCodec} (P : label → world → world → Prop) a w ps i
    (p : prog (Result * option error)) :
  (∀ w w', P (Acting a) w w') → ps !! i = Some (a, p) →
  steps_by (A:=versioned_api) P (w, ps)
    ((run versioned_server p w).1.1, <[i:=(a, Ret (run versioned_server p w).2)]> ps).
Proof.
  intros HP. revert w ps. induction p as [o|c k IH]; intros w ps Hi; simpl.
  - rewrite list_insert_id by done. apply rtc_refl.
  - pose proof (served_now w c) as Hs. destruct (versioned_server w c) as [w' r].
    pose proof (IH r w' (<[i:=(a, k r)]> ps)) as Hrest.
    rewrite list_lookup_insert_eq in Hrest by (by eapply lookup_lt_Some).
    specialize (Hrest eq_refl). rewrite list_insert_insert_eq in Hrest.
    destruct (run versioned_server (k r) w') as [[w2 t] o].
    eapply rtc_l; [|exact Hrest]. exists (Acting a). split; [apply HP|].
    by eapply (lstep_call (A:=versioned_api)).
Qed.

Definition route_policy_key : ObjectKey := policy_key cluster_policy.
Definition gateway_policy_key : ObjectKey := policy_key gateway_policy.
Definition sample_gateway_key : ObjectKey := ObjectKeyFromObject cluster_gateway.

(** The first policy is reconciled, then the second. *)
Definition first_done : versioned :=
  (run versioned_server (sample_Reconcile route_policy_key) initial).1.1.
Definition second_done : versioned :=
  (run versioned_server (sample_Reconcile gateway_policy_key) first_done).1.1.

Definition gateway_references (w : versioned) : list (list ObjectKey) :=
  (λ g, @RLPRefs json_ref_codec (Some g)) <$> gateways (objects w).

(** The policy gets its finalizer: the second call of its reconciliation. *)
Definition stored_policy : option (obj KRateLimitPolicy) :=
  objects initial KRateLimitPolicy !! route_policy_key.
Definition with_finalizer : versioned :=
  match stored_policy with
  | Some o => (versioned_server initial (Update KRateLimitPolicy
                (set_meta o (AddFinalizer (ometa o) rateLimitPolicyFinalizer)))).1
  | None => initial
  end.

Lemma no_lost_updates_witness :
  @accounted default_apimachinery json_ref_codec versioned_api initial
    (RateLimit route_policy_key) KRateLimitPolicy
    (objects initial KRateLimitPolicy !! route_policy_key)
    (objects with_finalizer KRateLimitPolicy !! route_policy_key) ∧
  finalizers <$> (objects with_finalizer KRateLimitPolicy !! route_policy_key) =
    Some [rateLimitPolicyFinalizer].
Proof.
  split; [|vm_compute; reflexivity].
  eapply (no_lost_updates default_apimachinery default_apimachinery_ok
    sample_environment json_ref_codec json_ref_codec_ok map_range_default go_merge_sort
    compact_struct_codec compact_struct_codec_ok plain_patch binary_condition_codec
    versioned_api versioned_api_ok initial initial with_finalizer).
  - exact initial_ok.
  - eapply rtc_l; [exists (Acting (RateLimit route_policy_key)); split;
      [exact I|apply lstep_start]|].
    eapply rtc_l; [exists (Acting (RateLimit route_policy_key)); split;
      [exact I|by eapply (lstep_call _ _ 0); [|apply served_now]]|].
    apply rtc_refl.
  - eapply (lstep_call _ _ 0); [reflexivity|]. apply served_now.
  - exact I.
Defined.

Lemma references_persist_witness :
  gateway_references first_done = [[route_policy_key]] ∧
  gateway_references second_done = [[route_policy_key; gateway_policy_key]] ∧
  @referenced json_ref_codec versioned_api sample_gateway_key route_policy_key second_done.
Proof.
  split; [vm_compute; reflexivity|]. split; [vm_compute; reflexivity|].
  eapply (references_persist default_apimachinery default_apimachinery_ok
    sample_environment json_ref_codec json_ref_codec_ok map_range_default go_merge_sort
    compact_struct_codec compact_struct_codec_ok plain_patch binary_condition_codec
    versioned_api versioned_api_ok initial first_done second_done).
  - exact initial_ok.
  - eapply rtc_l; [exists (Acting (RateLimit route_policy_key)); split;
      [exact I|apply lstep_start]|].
    by apply (run_served any_step (RateLimit route_policy_key) _ _ 0).
  - eexists. split; [vm_compute; reflexivity|].
    apply (bool_decide_unpack _). vm_compute. exact I.
  - eapply rtc_l; [exists (Acting (RateLimit gateway_policy_key)); split;
      [by intros [=]|apply lstep_start]|].
    apply (run_served (sparing sample_gateway_key route_policy_key)
      (RateLimit gateway_policy_key) _ _ 1); [by intros w w' [=]|reflexivity].
Defined.

(** Both policies add themselves to the gateway as it was at first. *)
Definition add_reference (key : ObjectKey) (w : versioned) : option call :=
  g ← objects w KGateway !! sample_gateway_key;
  Update KGateway <$> (@AddRLP json_ref_codec (Some g) key).1.

(** Without versions the second of two updates that are based on the same
    version overwrites the first, and a reference is lost; with versions it is
    refused, and the reconciliation fails and is tried again. *)
Example stale_updates :
  (first ← add_reference route_policy_key initial;
   second ← add_reference gateway_policy_key initial;
   let s := (memory_server (memory_server (objects initial) first).1 second).1 in
   let w := (versioned_server initial first).1 in
   Some ((λ g, @RLPRefs json_ref_codec (Some g)) <$> gateways s,
         gateway_references (versioned_server w second).1,
         match (versioned_server w second).2 with
         | Success _ => false
         | Failure e => IsConflict e
         end)) =
  Some ([[gateway_policy_key]], [[route_policy_key]], true).
Proof. vm_compute. reflexivity. Qed.
