(* ===== verification/EventMappers.v ===== *)
(** * Event mappers (controllers/apim/httproute_eventmapper.go,
      gateway_eventmapper.go, gateway_rlp_eventmapper.go)

    Which policies a route, a gateway or the policy of a gateway is mapped to. *)
From S2P Require Import Prelude GoStrings KubeTypes CommonUtils RouteRules PolicyTypes.
From S2P Require Import Json GatewayRefs Client Apimachinery BaseReconciler TargetRef Samples.

Open Scope go_scope.

(** ** The code

    A [reconcile.Request] is the key it names. *)

Module HTTPRouteEventMapper.
Definition MapToRateLimitPolicy {k} (o : obj k) : list ObjectKey :=
  match entries (GetAnnotations o) !! RateLimitPolicyBackRefAnnotation with
  | None => []
  | Some rateLimitRef => [NamespacedNameToObjectKey rateLimitRef (meta_Namespace (ometa o))]
  end.

Definition MapToAuthPolicy {k} (o : obj k) : list ObjectKey :=
  match entries (GetAnnotations o) !! AuthPolicyBackRefAnnotation with
  | None => []
  | Some apRef => [NamespacedNameToObjectKey apRef (meta_Namespace (ometa o))]
  end.
End HTTPRouteEventMapper.

Section code.
Context `{RefCodec}.

(** The loop over the references of a gateway. *)
Definition requests_of (gw : GatewayWrapper) : list ObjectKey :=
  foldl (λ requests rlpKey, requests ++ [rlpKey]) [] (RLPRefs gw).

Definition MapToRateLimitPolicy {k} (o : obj k) : list ObjectKey :=
  match k return obj k → list ObjectKey with
  | KGateway => λ gateway, requests_of (Some gateway)
  | _ => λ _, []
  end o.

Definition MapRouteRateLimitPolicy {k} (o : obj k) : prog (list ObjectKey) :=
  match k return obj k → prog (list ObjectKey) with
  | KRateLimitPolicy => λ rlp,
      if negb (IsTargetRefGateway (rlp_TargetRef (spec rlp))) then ret []
      else
        gateway <-- attempt (get_gateway (RLP.TargetKey rlp)) ;;
        match gateway with
        | Failure err => ret []
        | Success gateway => ret (requests_of (Some gateway))
        end
  | _ => λ _, ret []
  end o.
End code.

(** ** Properties *)

(** A key both parts of which survive being written as a back reference. *)
Definition plain_key (k : ObjectKey) : Prop :=
  has_byte "/" (Namespace k) = false ∧ has_byte "/" (Name k) = false.

Lemma NamespacedNameToObjectKey_String `{ApimachineryOk} k def :
  plain_key k → NamespacedNameToObjectKey (key_String k) def = k.
Proof.
  intros [H1 H2]. rewrite key_String_eq. unfold NamespacedNameToObjectKey.
  rewrite Split_first, Split_none by done. by destruct k.
Qed.

(** The policy that holds an object is the one its mapper requests. *)
Lemma back_reference_mapped `{ApimachineryOk} {k} (x : obj k) p :
  plain_key p →
  (entries (GetAnnotations x) !! RateLimitPolicyBackRefAnnotation = Some (key_String p) →
   HTTPRouteEventMapper.MapToRateLimitPolicy x = [p]) ∧
  (entries (GetAnnotations x) !! AuthPolicyBackRefAnnotation = Some (key_String p) →
   HTTPRouteEventMapper.MapToAuthPolicy x = [p]).
Proof.
  intros Hp. unfold HTTPRouteEventMapper.MapToRateLimitPolicy, HTTPRouteEventMapper.MapToAuthPolicy.
  split; intros ->; by rewrite NamespacedNameToObjectKey_String.
Qed.

(** A gateway is mapped to exactly the policies its annotation references, in
    order. *)
Lemma requests_of_references `{RefCodec} g : requests_of g = RLPRefs g.
Proof. apply foldl_snoc. Qed.

(** A policy that targets a gateway is mapped to the policies of the gateway it
    names, and any other policy to none; the mapper only reads that gateway, and
    a failed read gives nothing. *)
Lemma wp_MapRouteRateLimitPolicy `{RefCodec} (rlp : RateLimitPolicy) :
  wp (MapRouteRateLimitPolicy (k:=KRateLimitPolicy) rlp) (λ t o,
    if IsTargetRefGateway (rlp_TargetRef (spec rlp))
    then ∃ a, t = [Event (Get KGateway (RLP.TargetKey rlp)) a] ∧
         o = Ok (match a with Success g => RLPRefs (Some (g : Gateway)) | Failure _ => [] end)
    else t = [] ∧ o = Ok []).
Proof.
  unfold MapRouteRateLimitPolicy. cbv beta match.
  destruct (IsTargetRefGateway _); cbn [negb]; [|done].
  rewrite wp_bind, wp_attempt. apply wp_get_gateway.
  - intros g. cbn [after wp ret]. eexists. split; [done|]. by rewrite requests_of_references.
  - intros e. cbn [after wp ret]. eexists. done.
Qed.
