(* ===== verification/Startup.v ===== *)
(** * Watches and start-up (main.go, and SetupWithManager of the controllers)

    Which kinds the controllers watch and what the functions they register map
    an object to, and the order in which the process starts.  The manager of
    controller-runtime is a parameter: each of its calls succeeds or returns an
    error.  When it calls the registered functions, and on which objects, is not
    modelled. *)
From S2P Require Import Prelude GoStrings KubeTypes CommonUtils RouteRules PolicyTypes.
From S2P Require Import Json GatewayRefs Client Apimachinery Logging BaseReconciler TargetRef.
From S2P Require Import LimitIndex Runs JsonText JsonStruct WasmJson WasmConfig.
From S2P Require Import Samples RateLimitLimits RateLimitIstio LimitadorSteady RateLimitController.
From S2P Require Import SteadyState SteadyInvariance AuthController AuthSteady Coexistence.
From S2P Require Import EventMappers.

Open Scope go_scope.

(** ** The watches *)

(** The calls of the builder: [For], the kind that is reconciled, and [Watches],
    a kind with the function given to [EnqueueRequestsFromMapFunc]. *)
Inductive watch :=
  | For (k : Kind)
  | Watches (k : Kind) (map_func : ∀ k', obj k' → prog (list ObjectKey)).

Definition pure_map (f : ∀ k, obj k → list ObjectKey) : ∀ k, obj k → prog (list ObjectKey) :=
  λ k o, ret (f k o).

Section code.
Context `{RefCodec}.

Definition RateLimitPolicy_SetupWithManager : list watch :=
  [For KRateLimitPolicy;
   Watches KHTTPRoute (pure_map (@HTTPRouteEventMapper.MapToRateLimitPolicy));
   Watches KGateway (pure_map (@MapToRateLimitPolicy _));
   Watches KRateLimitPolicy (@MapRouteRateLimitPolicy _)].
End code.

Definition AuthPolicy_SetupWithManager : list watch :=
  [For KAuthPolicy;
   Watches KHTTPRoute (pure_map (@HTTPRouteEventMapper.MapToAuthPolicy));
   Watches KGateway (pure_map (@HTTPRouteEventMapper.MapToAuthPolicy))].

(** The functions that are registered for a kind. *)
Definition map_functions (ws : list watch) (k : Kind) : list (obj k → prog (list ObjectKey)) :=
  omap (λ w, match w with
             | For _ => None
             | Watches k' f => if decide (k' = k) then Some (f k) else None
             end) ws.

(** ** Start-up *)

(** Steps of [main] that can fail. *)
Inductive startup_step :=
  | LoadConfig (path : string) | GetConfig | MakeManager | SetupController (k : Kind)
  | HealthCheck | ReadyCheck | StartManager.
#[export] Instance startup_step_eq_dec : EqDecision startup_step.
Proof. solve_decision. Defined.

Class Manager := perform : startup_step → option error.

(** The steps done, the errors logged, and the exit code of [os.Exit], if it
    was called. *)
Record startup := {
  steps : list startup_step;
  logged : list string;
  exit_code : option Z
}.

Definition running : startup := {| steps := []; logged := []; exit_code := None |}.

(** [if err := step; err != nil { setupLog.Error(err, msg); os.Exit(1) }] *)
Definition must `{Manager} (step : startup_step) (msg : string) (k : startup) : startup :=
  match perform step with
  | Some _ => {| steps := [step]; logged := [msg]; exit_code := Some 1%Z |}
  | None => {| steps := step :: steps k; logged := logged k; exit_code := exit_code k |}
  end.

Definition main `{Manager} (configFile : string) : startup :=
  (if decide (configFile = empty_string) then id
   else must (LoadConfig configFile) "unable to load the config file")
  (must GetConfig "unable to get kubeconfig"
  (must MakeManager "unable to start manager"
  (must (SetupController KRateLimitPolicy) "unable to create controller"
  (must (SetupController KAuthPolicy) "unable to create controller"
  (must HealthCheck "unable to set up health check"
  (must ReadyCheck "unable to set up ready check"
  (must StartManager "problem running manager" running))))))).

(** [init]: nine schemes are registered, then the logger is made; [None] stands
    for a registration without an error. *)
Definition scheme_Must (results : list (option error)) : outcome unit :=
  foldl (λ acc r, acc <-? acc ;; match r with None => Ok acc | Some e => Panic (error_string e) end)
    (Ok tt) results.

Definition logLevel `{Environment} : string := FetchEnv lookup_env "LOG_LEVEL" "info".
Definition logMode `{Environment} : string := FetchEnv lookup_env "LOG_MODE" "production".

Definition init {Writer Logger} `{Environment, ZapLevels} (os_Stderr os_Stdout : Writer)
    (zap_New : Z → bool → Writer → Logger) (AddToScheme : list (option error))
    (st : Loggers) : outcome Loggers :=
  _ <-? scheme_Must AddToScheme ;;
  level <-? ToLevel logLevel ;;
  mode <-? ToMode logMode ;;
  Ok (SetLogger (NewLogger os_Stderr zap_New [SetLevel level; SetMode mode; WriteTo os_Stdout])
        st).

(** ** Lemmas *)

Definition startup_steps (configFile : string) : list startup_step :=
  (if decide (configFile = empty_string) then [] else [LoadConfig configFile]) ++
  [GetConfig; MakeManager; SetupController KRateLimitPolicy; SetupController KAuthPolicy;
   HealthCheck; ReadyCheck; StartManager].

(** A chain of steps stops at the first that fails. *)
Definition stops_at_first `{Manager} (todo : list startup_step) (r : startup) : Prop :=
  (steps r = todo ∧ Forall (λ s, perform s = None) todo ∧ logged r = [] ∧ exit_code r = None) ∨
  (∃ done s rest msg, todo = done ++ s :: rest ∧ Forall (λ s, perform s = None) done ∧
     is_Some (perform s) ∧ steps r = done ++ [s] ∧ logged r = [msg] ∧ exit_code r = Some 1%Z).

Lemma stops_must `{Manager} s msg todo r :
  stops_at_first todo r → stops_at_first (s :: todo) (must s msg r).
Proof.
  unfold must. intros Hr. destruct (perform s) as [e|] eqn:Hs.
  { right. exists [], s, todo, msg. rewrite Hs. by repeat split. }
  destruct Hr as [(Hst & HF & Hl & He)|(d & x & rest & m & -> & HF & Hx & Hst & Hl & He)].
  - left. simpl. rewrite Hst. split; [done|]. split; [by constructor|done].
  - right. exists (s :: d), x, rest, m. simpl. rewrite Hst.
    split; [done|]. split; [by constructor|done].
Qed.

Lemma scheme_Must_Ok l : scheme_Must l = Ok tt ↔ Forall (λ r, r = None) l.
Proof.
  unfold scheme_Must. induction l as [|r l IH] using rev_ind; [by split|].
  rewrite foldl_app, Forall_app, <- IH, Forall_singleton. simpl.
  destruct (foldl _ _ l) as [[]|e|m]; simpl; [|by split; [|intros [? _]]..].
  destruct r; simpl; split; try done. by intros [_ ?].
Qed.

(** ** Properties *)

(** The process starts in order.  The steps of [main] are done one after the
    other, the manager is started last, and only when both controllers are set
    up; the first step that fails is the last one done, its error is the only
    one logged, and the process exits with code 1. *)
Theorem main_stops_at_first_error (M : Manager) (configFile : string) :
  stops_at_first (startup_steps configFile) (main configFile) ∧
  (StartManager ∈ steps (main configFile) →
     perform (SetupController KRateLimitPolicy) = None ∧
     perform (SetupController KAuthPolicy) = None).
Proof.
  assert (stops_at_first (startup_steps configFile) (main configFile)) as Hs.
  { unfold main, startup_steps.
    assert (stops_at_first [] running) as H0 by (by left).
    destruct (decide (configFile = empty_string)); simpl; by repeat apply stops_must. }
  split; [exact Hs|]. intros Hin.
  destruct Hs as [(_ & HF & _)|(d & s & rest & msg & Hd & HF & _ & Hst & _)].
  - unfold startup_steps in HF. rewrite Forall_app, !Forall_cons in HF. tauto.
  - rewrite Hst in Hin.
    assert (SetupController KRateLimitPolicy ∈ d ∧ SetupController KAuthPolicy ∈ d) as [Hr Ha].
    { unfold startup_steps in Hd.
      destruct (decide (configFile = empty_string)); simpl in Hd;
        repeat (destruct d as [|? d]; simplify_eq/=; try set_solver). }
    rewrite Forall_forall in HF. by split; apply HF.
Qed.

(** C40: what the rate limit controller watches.  It reconciles policies, and
    registers one function for each of three kinds and none for any other, so
    not for the Limitador object, WasmPlugins or EnvoyFilters.  The function for
    gateways maps a gateway to the policies it references; the one for routes
    maps a route to the policy of its back reference; neither makes a call.  The
    one for policies maps a policy that targets a gateway to the policies that
    gateway references, which it reads, and to none if it cannot; any other
    policy it maps to none without a call. *)
Theorem rate_limit_watches (RC : RefCodec) {k} (x : obj k) :
  let ws := RateLimitPolicy_SetupWithManager in
  (For k ∈ ws ↔ k = KRateLimitPolicy) ∧
  match k return obj k → list (obj k → prog (list ObjectKey)) → Prop with
  | KRateLimitPolicy => λ rlp fs, ∃ f, fs = [f] ∧ wp (f rlp) (λ t o,
      if IsTargetRefGateway (rlp_TargetRef (spec (rlp : RateLimitPolicy)))
      then ∃ a, t = [Event (Get KGateway (RLP.TargetKey rlp)) a] ∧
           o = Ok (match a with Success g => RLPRefs (Some (g : Gateway)) | Failure _ => [] end)
      else t = [] ∧ o = Ok [])
  | KGateway => λ gw fs, ∃ f, fs = [f] ∧ f gw = ret (RLPRefs (Some (gw : Gateway)))
  | KHTTPRoute => λ route fs, ∃ f, fs = [f] ∧
      f route = ret (match entries (GetAnnotations route) !! RateLimitPolicyBackRefAnnotation with
                     | Some p => [NamespacedNameToObjectKey p
                                    (meta_Namespace (ometa (route : HTTPRoute)))]
                     | None => []
                     end)
  | _ => λ _ fs, fs = []
  end x (map_functions ws k).
Proof.
  intros ws. split.
  { unfold ws, RateLimitPolicy_SetupWithManager. split; [|intros ->; by left].
    intros Hin. repeat (apply elem_of_cons in Hin as [Hin|Hin]; [by simplify_eq|]).
    by apply not_elem_of_nil in Hin. }
  destruct k; try done; eexists; (split; [reflexivity|]).
  - unfold pure_map. cbn. by rewrite requests_of_references.
  - done.
  - apply wp_MapRouteRateLimitPolicy.
Qed.

(** A gateway that is targeted by a settled policy references it. *)
Lemma settled_target_references `{Apimachinery, Environment, RefCodec, MapRange, GoSort,
    StructCodec} rlp s (g : obj KGateway) :
  store_wf s → settled rlp s → target_kind (rlp_TargetRef (spec rlp)) = Some KGateway →
  s KGateway !! target_key (rlp_TargetRef (spec rlp)) (meta_Namespace (ometa rlp)) = Some g →
  policy_key rlp ∈ RLPRefs (Some (g : Gateway)).
Proof.
  intros Hwf [_ _ _ (ks & lim & Hks & _ & Hgs)] Hkind Hg.
  assert (ObjectKeyFromObject (g : Gateway) =
    target_key (rlp_TargetRef (spec rlp)) (meta_Namespace (ometa rlp))) as Hkey
    by exact (Hwf KGateway _ g Hg).
  apply (Hgs g); [by apply elem_of_gateways; [|rewrite Hkey]|]. rewrite Hkey.
  revert Hks Hkind. unfold targeted_keys, TargetedGatewayKeys, target_kind.
  destruct (IsTargetRefHTTPRoute _); [done|]. destruct (IsTargetRefGateway _); [|done].
  intros [= <-] _. by left.
Qed.


(** The logger of the process.  [init] panics unless every scheme is
    registered and the environment, or the default, names a level of zap and a
    mode; then the logger has that level and mode, writes to the standard
    output, and is installed everywhere. *)
Theorem init_logger {Writer Logger : Type} (Env : Environment) (ZL : ZapLevels)
    (os_Stderr os_Stdout : Writer) (zap_New : Z → bool → Writer → Logger)
    (AddToScheme : list (option error)) (st st' : Loggers) :
  init os_Stderr os_Stdout zap_New AddToScheme st = Ok st' ↔
  Forall (λ r, r = None) AddToScheme ∧
  ∃ level, UnmarshalText (default "info" (lookup_env "LOG_LEVEL")) = Ok level ∧
  ∃ dev : bool,
    ToLower (default "production" (lookup_env "LOG_MODE")) =
      (if dev then "development" else "production") ∧
    let logger := zap_New level dev os_Stdout in
    st' = {| Log := logger; ctrl_Log := logger; klog_Log := logger |}.
Proof.
  unfold init, logLevel, logMode, ToLevel, ToMode.
  change (FetchEnv lookup_env ?x ?d) with (default d (lookup_env x)).
  rewrite <- scheme_Must_Ok. destruct (scheme_Must AddToScheme) as [[]|e|m]; cbn [outcome_bind];
    [|by split; [|intros [? _]]..].
  set (lvl := default "info" _). set (md := default "production" _).
  destruct (UnmarshalText lvl) as [l|e|m] eqn:Hl; cbn [outcome_bind];
    [|split; [done|]; intros (_ & l & ? & _); congruence..].
  destruct (decide (ToLower md = "production")) as [Hp|Hp];
    [|destruct (decide (ToLower md = "development")) as [Hd|Hd]]; cbn [outcome_bind].
  - split.
    + intros [= <-]. split; [done|]. exists l. split; [done|]. by exists false.
    + intros (_ & l' & [= <-] & dev & Hdev & ->). destruct dev; [|done].
      rewrite Hp in Hdev. discriminate.
  - split.
    + intros [= <-]. split; [done|]. exists l. split; [done|]. by exists true.
    + intros (_ & l' & [= <-] & dev & Hdev & ->). destruct dev; [done|].
      rewrite Hd in Hdev. discriminate.
  - split; [done|]. intros (_ & l' & _ & [] & Hdev & _); done.
Qed.

(** *** The sample policies of a route and of a gateway *)

Definition sample_spec (p : RateLimitPolicy) :=
  run memory_server (@reconcileSpec default_apimachinery sample_environment json_ref_codec
    map_range_default go_merge_sort compact_struct_codec plain_patch p) shared_cluster.

